(* ===== verification/_CoqProject ===== *)
-Q . S2P
Prelude.v
Bytes.v
Bip32.v
Buffer.v
Merkle.v
Dispatcher.v
MerkleClient.v
Run.v
MerkleProof.v
Preimage.v
Script.v
Amount.v
Base58.v
Segwit.v
Crypto.v
Address.v
RawTx.v
RawTxProof.v
RawTxStream.v
PolicySyntax.v
PolicyParser.v
PolicyScript.v
PolicyLogic.v
PolicyHeader.v
PolicyTypes.v
PolicyExtInfo.v
PolicyThresh.v
PolicyAnalysis.v
PolicyCompile.v
PolicyMachine.v
PolicySize.v
PolicySorted.v
PolicyCheck.v
Psbt.v
HostSample.v
Sighash.v
Sign.v
Derivation.v
SignFlow.v
FlowKeeps.v
Messages.v
Confirm.v
ConfirmInputs.v
Signatures.v
SignSample.v
SignTheorems.v
Forgery.v
SignBounds.v
Commands.v
CommandSample.v
CommandsProof.v
WalletCommands.v
MessageCommand.v
MainLoop.v
Swap.v
SwapProof.v
