(* ===== verification/Prelude.v ===== *)
(** * Verification of the Syscoin Ledger application

    A development about the C sources of the application (under src/src/): the
    code that a hardware wallet runs to receive commands from a host that it
    does not trust, to check the data that the host supplies, to generate the
    scripts and addresses of the user's wallet policies, and to sign the
    transactions and messages that the user accepts.

    ** Parts of the program, and the files that model them

    - Prelude.v: outcomes of C code ([outcome]: a value, undefined behaviour,
      an exception of the SDK, exhausted fuel), C integers of a given width,
      arrays, tactics and lemmas on lists that all the files share.
    - Bytes.v: common/read.c, write.c, varint.c, bitvector.h.
    - Bip32.v: common/bip32.c.
    - Buffer.v: common/buffer.c, buffer.h (a cursor over memory), parser.c
      (reads across a stored and a streamed buffer).
    - Merkle.v: common/merkle.c, merkle.h, and the Merkle trees of RFC 6962 as
      the specification.
    - Dispatcher.v: boilerplate/io.c, apdu_parser.c, dispatcher.c.  A command
      of the host is dispatched to a handler; a handler interrupts itself with
      [process_interruption] to ask the host for data.
    - MerkleClient.v: the flows of handler/lib that ask for Merkle proofs,
      preimages and contents of merkleized maps.  They are built on
      Dispatcher.v, Buffer.v and Merkle.v; their theorems are in MerkleProof.v
      and Preimage.v.
    - Run.v: inversion of runs of the code that talks to the host, and the class
      [Protocol] of the relations between states that the requests of the client
      respect, with instances for the flows built on them.
    - Script.v: common/script.c, without addresses; Base58.v: common/base58.c;
      Segwit.v: common/segwit_addr.c; Address.v: get_script_address of script.c;
      Amount.v: ui/display_utils.c.
    - Crypto.v: crypto.c over a record [sdk] of the primitives of the device.
    - RawTx.v: handler/lib/psbt_parse_rawtx.c, the resumable parser of previous
      transactions.  Theorems: RawTxProof.v, RawTxStream.v.
    - PolicySyntax.v, PolicyParser.v: common/wallet.c up to the parser of
      descriptor templates.  Theorems: PolicyLogic.v (weakest preconditions of
      the parsers), PolicyHeader.v, PolicyTypes.v.
    - PolicyExtInfo.v: the analysis of miniscript of wallet.c.  Theorems:
      PolicyThresh.v, PolicyAnalysis.v.
    - PolicyScript.v: the generation of scripts of handler/lib/policy.c.
      Theorems: PolicyCompile.v, PolicyMachine.v, PolicySize.v, PolicySorted.v.
    - PolicyCheck.v: the rest of policy.c, with its theorems.
    - Psbt.v: the part of handler/sign_psbt.c that reads the maps of a PSBT and
      computes the digests, and update_hashes_with_map_value.c.  Theorems:
      Sighash.v.
    - Sign.v: the signature of an input and the message that carries it, over a
      record [signer] of the operations on private keys.
    - Derivation.v: extract_bip32_derivation.c, compare_wallet_script_at_path.c,
      and the recognition of the keys, inputs and outputs of the wallet.
    - SignFlow.v: the command itself, from init_global_state to
      handler_sign_psbt.  The decisions of the user are a function of the screens
      that were accepted before and the screen that asks for a decision.
      Theorems: FlowKeeps.v, Messages.v, Confirm.v, ConfirmInputs.v, Signatures.v
      and SignTheorems.v; Forgery.v and SignBounds.v are about flaws.
    - Commands.v: the other commands of handler/ (get_extended_pubkey.c,
      get_master_fingerprint.c, get_wallet_address.c, register_wallet.c,
      sign_message.c), and the table of commands and the loop of main.c.
      Theorems: CommandsProof.v, WalletCommands.v, MessageCommand.v, MainLoop.v.
    - Swap.v: the files of swap/ and swap_library_main_helper of main.c.
      Theorems: SwapProof.v.
    - HostSample.v, SignSample.v, CommandSample.v: a host that answers from a
      PSBT, and whole runs of the commands, for the examples of the theorems.

    ** How code is represented

    A function of the source is a definition with its name.  Unsigned integers
    are numbers of [Z], reduced ([u8], [u16], [u32], [u64]) where the C code
    computes at that width; bytes are numbers between 0 and 255, and memory
    objects are lists of them.  An access outside of an object is [Undef].  The
    C functions that return a negative number on errors return an [option], or
    the number itself where a caller distinguishes the numbers.

    The code that talks to the host is in the state monad [io] of Dispatcher.v.
    Its state holds the APDU buffer, the data received, the counters of the
    timeouts, the answers that the host is going to give and the log of what was
    sent.  A theorem that quantifies over the state is about every host.

    Arrays that the code does not initialise have arbitrary contents: they are
    arguments, or fields of the record [junk] of PolicyScript.v.  The sizes of
    structures are the parameter [abi] of PolicyParser.v.  SHA-256 and the
    primitives of the SDK are parameters; their output sizes, where a theorem
    needs them, are hypotheses, and the conclusions that depend on the hash
    function are up to a collision, or up to the data that was hashed in the run.

    ** What the theorems show

    - Data of the host.  A leaf hash or leaf index that
      [call_get_merkle_leaf_hash] and [call_get_merkle_leaf_index] accept is
      that of a node on the path to the leaf, and an honest proof is accepted;
      [call_get_preimage] returns data with the requested hash;
      [call_get_merkle_preimage] does so for lengths of one byte, and returns
      data chosen by the host otherwise (get_merkle_preimage_forged).  When
      [call_psbt_parse_rawtx] succeeds with the id of a transaction, the output it
      returns is the one of this transaction that was asked for, if its script
      fits, unless other data with the same double hash was streamed.
    - Policies.  The parser is memory safe and total, and accepts only
      expressions that are well typed in the type system of miniscript, but for
      multi_a and sortedmulti_a, which get the type of multi.  What is parsed as
      a template is the data that was hashed when the length of the header is the
      right one (template_parsed).  The wallet id commits to the header.  The stack machine emits the script that
      the recursive translation of BIP-379 gives, of the size that the analysis
      computes, with the keys of sorted multisigs in lexicographical order,
      but for one array that is not a key.  The
      analysis is sound for signatures and timelocks on every path of
      satisfaction, and its dynamic programs compute the maxima they stand for,
      in the builds in which their tables are local.
      A policy that [is_policy_sane] accepts satisfies the limits and has
      pairwise distinct keys and disjoint derivations.
    - Signing.  A message with a signature is only sent after the user has
      accepted the screens of the transaction, as the host has described it: the
      outputs that are not of the wallet, with addresses and amounts, the
      warnings, and the fee; the outputs that are hashed are those, unless the
      host gives two answers for the same output (signatures_confirmed).  Every
      signature is one of the digest for the type of an input of the wallet, with
      the key at its derivation (signatures_authentic).
      The digests are those of BIP-143, BIP-341 and of legacy transactions.  What
      the host can do with call_get_merkle_preimage is forged_output_signed.
    - The other commands.  A key leaves the device without a screen only at a
      path of a list that is wider than the one of the documentation; an address is one of a policy that is registered or
      standard; a policy is registered after its name, its template and every one
      of its keys have been accepted; a message is signed after its hash has been
      accepted, and the compact signature has the integers of the one in DER.  A
      locked device answers every command with one status word, and so does a
      device in a swap for the commands that a swap does not need.
    - Swaps.  The printed amount is the exact decimal number, although it is
      computed by doubling decimal digits; an address is accepted if and only if
      it is the one of the script of the key at the path; a swap starts with the
      amounts of the call and the first 64 characters of its address.
    - Encodings.  An address determines its script, and a segwit address decodes
      to what was encoded; the text of an amount is exact.  Integers, varints,
      paths, base 58, OP_RETURN texts: values, bounds and round trips.
    - Exchanges.  Buffers and parsers refine reads from a byte sequence; the
      dispatcher selects the handler of a command; the timeouts elapse.
    - Deviations.  Some theorems and lemmas state where the code differs from what
      it means to do: j_multi_a_accepted, analysis_deviations,
      sortedmulti_largest_key, sortedmulti_a_uninitialised,
      template_from_stale_memory, oversized_script_accepted, forged_output_signed,
      output_script_error_undefined.

    ** Fuel

    The loops over the answers of the host, those over the inputs, outputs, keys
    and chunks that the host provides included, are bounded by the number of
    answers to come ([answers_left]), as each iteration consumes one; the loops
    of the parser of transactions by the number of bytes that are left.  The
    parser of descriptor templates is bounded by [enough_fuel], twice the number
    of characters that are left plus two; PolicyTypes.v shows that it is enough.
    The stack machine of policy.c runs at most [enough_steps] iterations, which
    PolicyMachine.v shows to suffice for every expression.

    ** What is not modelled

    The user interface under ui/: the screens are sequences of calls of the
    graphics libraries of the SDK, and only their texts and the decisions of the
    user are in the model; the screens that are shown after a response
    (ui_post_processing_...) do not ask for a decision.  Of io_event, only the
    ticker event.  The start of the application in main.c, its loop over
    exceptions, and the end of a swap (finalize_exchange_sign_transaction) are
    calls of the operating system.  common/format.c is not called by any other
    file, and the debug helpers are part of debug builds only. *)

From Stdlib Require Export ZArith Lia.
From stdpp Require Export base numbers list list_numbers option ssreflect.
#[export] Set Default Goal Selector "!".
Open Scope Z_scope.

(** ** Outcomes of C code

    A C function either returns a value, performs an access that the C
    standard leaves undefined ([Undef]: here always a read or a write outside
    of the memory object a pointer points into), throws an exception of the
    device's SDK ([Throw]), or, for a model with a bound on the number of
    iterations, exhausts that bound ([OutOfFuel]). *)
Inductive outcome (A : Type) : Type :=
| Val (a : A)
| Undef
| Throw (e : Z)
| OutOfFuel.
Arguments Val {A} a.
Arguments Undef {A}.
Arguments Throw {A} e.
Arguments OutOfFuel {A}.

Global Instance outcome_ret : MRet outcome := λ A a, Val a.
Global Instance outcome_bind : MBind outcome := λ A B f m,
  match m with
  | Val a => f a
  | Undef => Undef
  | Throw e => Throw e
  | OutOfFuel => OutOfFuel
  end.

Lemma outcome_bind_Val {A B} (f : A → outcome B) m b :
  m ≫= f = Val b ↔ ∃ a, m = Val a ∧ f a = Val b.
Proof.
  destruct m; simpl; split; [by eauto | by intros (? & [= <-] & ?)|by intros|..];
  by intros; destruct_and?; firstorder.
Qed.

Lemma outcome_ret_bind {A B} (a : A) (f : A → outcome B) : mret a ≫= f = f a.
Proof. done. Qed.

(** Whether an outcome is free of undefined behaviour. *)
Definition defined {A} (m : outcome A) : Prop := m ≠ Undef.

Lemma defined_bind {A B} (m : outcome A) (f : A → outcome B) :
  defined m → (∀ a, m = Val a → defined (f a)) → defined (m ≫= f).
Proof. rw /defined. destruct m; simpl; naive_solver. Qed.

(** ** Machine integers: the conversions of C to unsigned and signed types. *)
Definition u8 (x : Z) : Z := x `mod` 2 ^ 8.
Definition u16 (x : Z) : Z := x `mod` 2 ^ 16.
Definition u32 (x : Z) : Z := x `mod` 2 ^ 32.
Definition u64 (x : Z) : Z := x `mod` 2 ^ 64.
Definition wrap_signed (w x : Z) : Z := (x + 2 ^ (w - 1)) `mod` 2 ^ w - 2 ^ (w - 1).
Definition i16 (x : Z) : Z := wrap_signed 16 x.
Definition i32 (x : Z) : Z := wrap_signed 32 x.

Definition UINT16_MAX : Z := 65535.
Definition UINT32_MAX : Z := 4294967295.
Definition INT16_MAX : Z := 32767.

(** A [size_t] of the device is 32 bits wide. *)
Abbreviation size_t := u32 (only parsing).

Lemma u8_small x : 0 ≤ x < 2 ^ 8 → u8 x = x.
Proof. apply Z.mod_small. Qed.
Lemma u16_small x : 0 ≤ x < 2 ^ 16 → u16 x = x.
Proof. apply Z.mod_small. Qed.
Lemma u32_small x : 0 ≤ x < 2 ^ 32 → u32 x = x.
Proof. apply Z.mod_small. Qed.
Lemma u64_small x : 0 ≤ x < 2 ^ 64 → u64 x = x.
Proof. apply Z.mod_small. Qed.
Lemma u8_range x : 0 ≤ u8 x < 2 ^ 8.
Proof. by apply Z.mod_pos_bound. Qed.
Lemma u16_range x : 0 ≤ u16 x < 2 ^ 16.
Proof. by apply Z.mod_pos_bound. Qed.
Lemma u32_range x : 0 ≤ u32 x < 2 ^ 32.
Proof. by apply Z.mod_pos_bound. Qed.
Lemma u64_range x : 0 ≤ u64 x < 2 ^ 64.
Proof. by apply Z.mod_pos_bound. Qed.
Lemma i16_small x : - 2 ^ 15 ≤ x < 2 ^ 15 → i16 x = x.
Proof.
  intros. rw /i16 /wrap_signed Z.mod_small; change (16 - 1) with 15;
  change (2 ^ 16) with (2 ^ 15 + 2 ^ 15); lia.
Qed.

Lemma i32_small x : - 2 ^ 31 ≤ x < 2 ^ 31 → i32 x = x.
Proof.
  intros. rw /i32 /wrap_signed Z.mod_small; change (32 - 1) with 31;
  change (2 ^ 32) with (2 ^ 31 + 2 ^ 31); lia.
Qed.

(** ** Bytes and memory objects

    A byte is an integer in [0, 256); a memory object is the list of its
    bytes. *)
Definition byte_ok (b : Z) : Prop := 0 ≤ b < 256.
Abbreviation bytes_ok := (Forall byte_ok).

Global Instance byte_ok_dec b : Decision (byte_ok b).
Proof. unfold byte_ok. apply _. Defined.

(** The length of a list as a C size. *)
Definition zlen {A} (l : list A) : Z := Z.of_nat (length l).

(** [load m i] is the byte [m[i]]. *)
Definition load (m : list Z) (i : Z) : outcome Z :=
  if decide (0 ≤ i) then
    match m !! Z.to_nat i with Some b => Val b | None => Undef end
  else Undef.

(** [loads m i n] is the [n] bytes at [m + i] (the source of a memmove). *)
Definition loads (m : list Z) (i n : Z) : outcome (list Z) :=
  if decide (0 ≤ i ∧ 0 ≤ n ∧ i + n ≤ zlen m) then
    Val (take (Z.to_nat n) (drop (Z.to_nat i) m))
  else Undef.

(** [store m i b] is the object after [m[i] = b]. *)
Definition store (m : list Z) (i b : Z) : outcome (list Z) :=
  if decide (0 ≤ i < zlen m) then Val (<[Z.to_nat i := b]> m) else Undef.

(** [stores m i l] is the object after a memmove of [l] to [m + i]. *)
Definition stores (m : list Z) (i : Z) (l : list Z) : outcome (list Z) :=
  if decide (0 ≤ i ∧ i + zlen l ≤ zlen m) then
    Val (take (Z.to_nat i) m ++ l ++ drop (Z.to_nat i + length l) m)
  else Undef.

(** The C string in an array. *)
Fixpoint c_string (l : list Z) : list Z :=
  match l with
  | [] => []
  | c :: l' => if c =? 0 then [] else c :: c_string l'
  end.

Lemma c_string_app t l : Forall (λ c, c ≠ 0) t → c_string (t ++ 0 :: l) = t.
Proof. induction 1 as [|c t Hc Ht IH]; [done|]. cbn. by rw (proj2 (Z.eqb_neq _ _)) // IH. Qed.

(** ** Arithmetic on lists of bytes *)
Fixpoint le_val (l : list Z) : Z :=
  match l with
  | [] => 0
  | b :: l' => b + 256 * le_val l'
  end.
Definition be_val (l : list Z) : Z := le_val (reverse l).

Fixpoint le_bytes (n : nat) (x : Z) : list Z :=
  match n with
  | O => []
  | S n' => u8 x :: le_bytes n' (Z.shiftr x 8)
  end.

(** ** Lemmas on memory objects *)
Section memory.
Implicit Types m l : list Z.

Lemma zlen_nil {A} : zlen (@nil A) = 0.
Proof. done. Qed.
Lemma zlen_cons {A} (x : A) xs : zlen (x :: xs) = 1 + zlen xs.
Proof. rw /zlen /=. lia. Qed.
Lemma zlen_app {A} (xs ys : list A) : zlen (xs ++ ys) = zlen xs + zlen ys.
Proof. rw /zlen length_app. lia. Qed.
Lemma zlen_nonneg {A} (xs : list A) : 0 ≤ zlen xs.
Proof. rw /zlen. lia. Qed.
Lemma zlen_take {A} n (xs : list A) : 0 ≤ n ≤ zlen xs → zlen (take (Z.to_nat n) xs) = n.
Proof. rw /zlen length_take. lia. Qed.
Lemma zlen_drop {A} n (xs : list A) : 0 ≤ n ≤ zlen xs → zlen (drop (Z.to_nat n) xs) = zlen xs - n.
Proof. rw /zlen length_drop. lia. Qed.
Lemma zlen_length {A} (xs : list A) : Z.to_nat (zlen xs) = length xs.
Proof. rw /zlen. lia. Qed.

Lemma load_Val m i b : load m i = Val b ↔ 0 ≤ i ∧ m !! Z.to_nat i = Some b.
Proof. rw /load. case_decide; [case_match|]; naive_solver. Qed.

Lemma load_in_range m i : 0 ≤ i < zlen m → ∃ b, load m i = Val b ∧ m !! Z.to_nat i = Some b.
Proof.
  intros [? Hi]. destruct (lookup_lt_is_Some_2 m (Z.to_nat i)) as [b Hb].
  { rw /zlen in Hi. lia. }
  exists b. split; [|done]. by apply load_Val.
Qed.

Lemma load_out_of_range m i : zlen m ≤ i → load m i = Undef.
Proof.
  rw /zlen /load. intros. case_decide; [|done]. rw lookup_ge_None_2 //. lia.
Qed.

Lemma load_app_l m l i : 0 ≤ i < zlen m → load (m ++ l) i = load m i.
Proof. rw /zlen /load => ?. rw lookup_app_l //. lia. Qed.

Lemma load_app_r m l i : 0 ≤ i → load (m ++ l) (zlen m + i) = load l i.
Proof.
  rw /load /zlen => ?. rw !decide_True; [|lia..].
  rw lookup_app_r; [|lia]. by replace (_ - _)%nat with (Z.to_nat i) by lia.
Qed.

Lemma loads_in_range m i n :
  0 ≤ i → 0 ≤ n → i + n ≤ zlen m →
  loads m i n = Val (take (Z.to_nat n) (drop (Z.to_nat i) m)).
Proof. intros. rw /loads decide_True //. Qed.

Lemma loads_Val m i n l :
  loads m i n = Val l →
  0 ≤ i ∧ 0 ≤ n ∧ i + n ≤ zlen m ∧ l = take (Z.to_nat n) (drop (Z.to_nat i) m).
Proof. rw /loads. case_decide; naive_solver. Qed.

Lemma stores_in_range m i l :
  0 ≤ i → i + zlen l ≤ zlen m →
  stores m i l = Val (take (Z.to_nat i) m ++ l ++ drop (Z.to_nat i + length l) m).
Proof. intros. rw /stores decide_True //. Qed.

Lemma stores_length m i l m' : stores m i l = Val m' → zlen m' = zlen m.
Proof.
  rw /stores. case_decide as Hd; [|done]. intros [= <-].
  revert Hd. rw !zlen_app /zlen length_take length_drop. lia.
Qed.

Lemma store_length m i b m' : store m i b = Val m' → zlen m' = zlen m.
Proof.
  rw /store. case_decide; [|done]. intros [= <-]. by rw /zlen length_insert.
Qed.

(** Accesses at the end of a known prefix. *)
Lemma load_middle m b l : load (m ++ b :: l) (zlen m) = Val b.
Proof. apply load_Val. split; [rw /zlen; lia|]. by rw zlen_length list_lookup_middle. Qed.

Lemma loads_middle m x l : loads (m ++ x ++ l) (zlen m) (zlen x) = Val x.
Proof.
  rw loads_in_range; [|rw /zlen; lia..|rw !zlen_app /zlen; lia].
  by rw !zlen_length drop_app_length take_app_length.
Qed.

Lemma store_middle m b l c : store (m ++ b :: l) (zlen m) c = Val (m ++ c :: l).
Proof.
  rw /store decide_True; [|rw zlen_app zlen_cons /zlen; lia].
  by rw zlen_length insert_app_r_alt ?Nat.sub_diag.
Qed.

Lemma stores_middle m x l y : length x = length y → stores (m ++ x ++ l) (zlen m) y = Val (m ++ y ++ l).
Proof.
  intros Hx. rw stores_in_range; [|rw /zlen; lia|rw !zlen_app /zlen Hx; lia].
  rw zlen_length take_app_length drop_app_add drop_app_length' //.
Qed.

Lemma bytes_ok_app m l : bytes_ok (m ++ l) ↔ bytes_ok m ∧ bytes_ok l.
Proof. apply Forall_app. Qed.
Lemma bytes_ok_take m n : bytes_ok m → bytes_ok (take n m).
Proof. apply Forall_take. Qed.
Lemma bytes_ok_drop m n : bytes_ok m → bytes_ok (drop n m).
Proof. apply Forall_drop. Qed.
Lemma bytes_ok_lookup m i b : bytes_ok m → m !! i = Some b → byte_ok b.
Proof. rw Forall_lookup. naive_solver. Qed.
End memory.

(** ** Lemmas on little- and big-endian values *)
Lemma lor_shiftl_add a b k :
  0 ≤ k → 0 ≤ a < 2 ^ k → Z.lor a (Z.shiftl b k) = a + b * 2 ^ k.
Proof.
  intros Hk Ha. rw Z.shiftl_mul_pow2; [|done].
  rw -Z.lxor_lor.
  - symmetry. apply Z.add_nocarry_lxor. apply Z.bits_inj'. intros n Hn.
    rw Z.land_spec Z.bits_0 -Z.shiftl_mul_pow2; [|done]. rw Z.shiftl_spec; [|done].
    destruct (decide (n < k)).
    + rw (Z.testbit_neg_r b); [|lia]. apply andb_false_r.
    + rw -(Z.mod_small a (2 ^ k)); [|done]. by rw Z.mod_pow2_bits_high; [|lia].
  - apply Z.bits_inj'. intros n Hn.
    rw Z.land_spec Z.bits_0 -Z.shiftl_mul_pow2; [|done]. rw Z.shiftl_spec; [|done].
    destruct (decide (n < k)).
    + rw (Z.testbit_neg_r b); [|lia]. apply andb_false_r.
    + rw -(Z.mod_small a (2 ^ k)); [|done]. by rw Z.mod_pow2_bits_high; [|lia].
Qed.

Lemma le_val_app l1 l2 : le_val (l1 ++ l2) = le_val l1 + 256 ^ zlen l1 * le_val l2.
Proof.
  induction l1 as [|b l1 IH]; [by rw /= Z.mul_1_l|].
  rw zlen_cons /= IH Z.pow_add_r; [|done|apply zlen_nonneg]. lia.
Qed.

Lemma le_val_range l : bytes_ok l → 0 ≤ le_val l < 256 ^ zlen l.
Proof.
  induction 1 as [|b l Hb Hl IH]; [done|].
  rw zlen_cons Z.pow_add_r; [|done|apply zlen_nonneg].
  rw /byte_ok in Hb. simpl. nia.
Qed.

Lemma be_val_range l : bytes_ok l → 0 ≤ be_val l < 256 ^ zlen l.
Proof.
  intros Hl. rw /be_val /zlen -length_reverse. apply le_val_range.
  by apply Forall_reverse.
Qed.

Lemma length_le_bytes n x : length (le_bytes n x) = n.
Proof. revert x. induction n as [|n IH]; intros x; simpl; [done|by rw IH]. Qed.

Lemma le_bytes_ok n x : bytes_ok (le_bytes n x).
Proof.
  revert x. induction n as [|n IH]; intros x; constructor; [apply u8_range|apply IH].
Qed.

Lemma le_val_le_bytes n x : 0 ≤ x < 256 ^ Z.of_nat n → le_val (le_bytes n x) = x.
Proof.
  revert x. induction n as [|n IH]; intros x; simpl.
  { rw Z.pow_0_r. lia. }
  rw Nat2Z.inj_succ Z.pow_succ_r; [|lia]. intros Hx.
  rw Z.shiftr_div_pow2; [|done]. change (2 ^ 8) with 256.
  rw IH; [rw /u8; change (2 ^ 8) with 256; pose proof (Z.div_mod x 256); lia|].
  split; [apply Z.div_pos; lia|]. apply Z.div_lt_upper_bound; lia.
Qed.

Lemma le_bytes_le_val l : bytes_ok l → le_bytes (length l) (le_val l) = l.
Proof.
  induction 1 as [|b l Hb Hl IH]; [done|]. rw /byte_ok in Hb.
  cbn [length le_bytes le_val].
  rw Z.shiftr_div_pow2; [|done]. change (2 ^ 8) with 256. f_equal.
  - rw /u8. change (2 ^ 8) with 256.
    rw (Z.mul_comm 256) Z.mod_add; [|done]. by apply Z.mod_small.
  - etrans; [|exact IH]. f_equal. rw (Z.mul_comm 256) Z.div_add; [|done].
    rw Z.div_small; [|done]. lia.
Qed.

(** ** Hints and tactics of the development *)
Create HintDb ledger.
#[export] Hint Resolve u8_range u16_range u32_range u64_range zlen_nonneg le_bytes_ok : ledger.
#[export] Hint Resolve bytes_ok_take bytes_ok_drop bytes_ok_lookup : ledger.
#[export] Hint Rewrite @zlen_nil @zlen_cons @zlen_app : zlen.

(** Splits a hypothesis [m ≫= f = Val b] into its steps. *)
Ltac inv_bind H :=
  let a := fresh "a" in let Ha := fresh "Ha" in
  apply outcome_bind_Val in H as (a & Ha & H).

(** [lia] with the lengths of the goal and the context non-negative. *)
Ltac zlen_facts :=
  repeat match goal with
  | |- context [zlen ?l] =>
      lazymatch goal with _ : 0 ≤ zlen l |- _ => fail | _ => pose proof (zlen_nonneg l) end
  | _ : context [zlen ?l] |- _ =>
      lazymatch goal with _ : 0 ≤ zlen l |- _ => fail | _ => pose proof (zlen_nonneg l) end
  end.
Ltac zlia := autorewrite with zlen in *; zlen_facts; lia.

(** Evaluates the powers of two of the goal and calls [lia]. *)
Ltac pow_lia :=
  repeat match goal with
  | |- context [2 ^ ?k] => let v := eval vm_compute in (2 ^ k) in change (2 ^ k) with v
  end; Z.to_euclidean_division_equations; lia.
