(* ===== verification/Bytes.v ===== *)
(** * Fixed-width integers in byte arrays

    Models src/src/common/read.c and write.c (big- and little-endian reads and
    writes), varint.c (Bitcoin's variable-length integers) and bitvector.h.
    The theorems give each routine its value as a positional number, and show
    that reading inverts writing and that a varint is decoded to what was
    encoded, whatever follows it. *)

From S2P Require Import Prelude.

(** ** common/read.c *)
Definition read_u16_be (ptr : list Z) (offset : Z) : outcome Z :=
  b0 ← load ptr (offset + 0); b1 ← load ptr (offset + 1);
  mret (u16 (Z.lor (Z.shiftl b0 8) (Z.shiftl b1 0))).

Definition read_u32_be (ptr : list Z) (offset : Z) : outcome Z :=
  b0 ← load ptr (offset + 0); b1 ← load ptr (offset + 1);
  b2 ← load ptr (offset + 2); b3 ← load ptr (offset + 3);
  mret (u32 (Z.lor (Z.lor (Z.lor (Z.shiftl b0 24) (Z.shiftl b1 16))
                          (Z.shiftl b2 8)) (Z.shiftl b3 0))).

Definition read_u64_be (ptr : list Z) (offset : Z) : outcome Z :=
  b0 ← load ptr (offset + 0); b1 ← load ptr (offset + 1);
  b2 ← load ptr (offset + 2); b3 ← load ptr (offset + 3);
  b4 ← load ptr (offset + 4); b5 ← load ptr (offset + 5);
  b6 ← load ptr (offset + 6); b7 ← load ptr (offset + 7);
  mret (u64 (Z.lor (Z.lor (Z.lor (Z.lor (Z.lor (Z.lor (Z.lor
    (Z.shiftl b0 56) (Z.shiftl b1 48)) (Z.shiftl b2 40)) (Z.shiftl b3 32))
    (Z.shiftl b4 24)) (Z.shiftl b5 16)) (Z.shiftl b6 8)) (Z.shiftl b7 0))).

Definition read_u16_le (ptr : list Z) (offset : Z) : outcome Z :=
  b0 ← load ptr (offset + 0); b1 ← load ptr (offset + 1);
  mret (u16 (Z.lor (Z.shiftl b0 0) (Z.shiftl b1 8))).

Definition read_u32_le (ptr : list Z) (offset : Z) : outcome Z :=
  b0 ← load ptr (offset + 0); b1 ← load ptr (offset + 1);
  b2 ← load ptr (offset + 2); b3 ← load ptr (offset + 3);
  mret (u32 (Z.lor (Z.lor (Z.lor (Z.shiftl b0 0) (Z.shiftl b1 8))
                          (Z.shiftl b2 16)) (Z.shiftl b3 24))).

Definition read_u64_le (ptr : list Z) (offset : Z) : outcome Z :=
  b0 ← load ptr (offset + 0); b1 ← load ptr (offset + 1);
  b2 ← load ptr (offset + 2); b3 ← load ptr (offset + 3);
  b4 ← load ptr (offset + 4); b5 ← load ptr (offset + 5);
  b6 ← load ptr (offset + 6); b7 ← load ptr (offset + 7);
  mret (u64 (Z.lor (Z.lor (Z.lor (Z.lor (Z.lor (Z.lor (Z.lor
    (Z.shiftl b0 0) (Z.shiftl b1 8)) (Z.shiftl b2 16)) (Z.shiftl b3 24))
    (Z.shiftl b4 32)) (Z.shiftl b5 40)) (Z.shiftl b6 48)) (Z.shiftl b7 56))).

(** ** common/write.c *)
Definition write_u16_be (ptr : list Z) (offset value : Z) : outcome (list Z) :=
  ptr ← store ptr (offset + 0) (u8 (Z.shiftr value 8));
  store ptr (offset + 1) (u8 (Z.shiftr value 0)).

Definition write_u32_be (ptr : list Z) (offset value : Z) : outcome (list Z) :=
  ptr ← store ptr (offset + 0) (u8 (Z.shiftr value 24));
  ptr ← store ptr (offset + 1) (u8 (Z.shiftr value 16));
  ptr ← store ptr (offset + 2) (u8 (Z.shiftr value 8));
  store ptr (offset + 3) (u8 (Z.shiftr value 0)).

Definition write_u64_be (ptr : list Z) (offset value : Z) : outcome (list Z) :=
  ptr ← store ptr (offset + 0) (u8 (Z.shiftr value 56));
  ptr ← store ptr (offset + 1) (u8 (Z.shiftr value 48));
  ptr ← store ptr (offset + 2) (u8 (Z.shiftr value 40));
  ptr ← store ptr (offset + 3) (u8 (Z.shiftr value 32));
  ptr ← store ptr (offset + 4) (u8 (Z.shiftr value 24));
  ptr ← store ptr (offset + 5) (u8 (Z.shiftr value 16));
  ptr ← store ptr (offset + 6) (u8 (Z.shiftr value 8));
  store ptr (offset + 7) (u8 (Z.shiftr value 0)).

Definition write_u16_le (ptr : list Z) (offset value : Z) : outcome (list Z) :=
  ptr ← store ptr (offset + 0) (u8 (Z.shiftr value 0));
  store ptr (offset + 1) (u8 (Z.shiftr value 8)).

Definition write_u32_le (ptr : list Z) (offset value : Z) : outcome (list Z) :=
  ptr ← store ptr (offset + 0) (u8 (Z.shiftr value 0));
  ptr ← store ptr (offset + 1) (u8 (Z.shiftr value 8));
  ptr ← store ptr (offset + 2) (u8 (Z.shiftr value 16));
  store ptr (offset + 3) (u8 (Z.shiftr value 24)).

Definition write_u64_le (ptr : list Z) (offset value : Z) : outcome (list Z) :=
  ptr ← store ptr (offset + 0) (u8 (Z.shiftr value 0));
  ptr ← store ptr (offset + 1) (u8 (Z.shiftr value 8));
  ptr ← store ptr (offset + 2) (u8 (Z.shiftr value 16));
  ptr ← store ptr (offset + 3) (u8 (Z.shiftr value 24));
  ptr ← store ptr (offset + 4) (u8 (Z.shiftr value 32));
  ptr ← store ptr (offset + 5) (u8 (Z.shiftr value 40));
  ptr ← store ptr (offset + 6) (u8 (Z.shiftr value 48));
  store ptr (offset + 7) (u8 (Z.shiftr value 56)).

(** ** common/varint.c *)
Definition varint_size (value : Z) : Z :=
  if value <=? 0xFC then 1
  else if value <=? UINT16_MAX then 3
  else if value <=? UINT32_MAX then 5
  else 9.

(** The pair is the returned length and the contents of [*value]; a negative
    length leaves [*value] unset. *)
Definition varint_read (in_ : list Z) (in_len : Z) : outcome (Z * option Z) :=
  if in_len <? 1 then mret (-1, None)
  else
    prefix ← load in_ 0;
    if prefix =? 0xFD then
      if in_len <? 3 then mret (-1, None)
      else v ← read_u16_le in_ 1; mret (3, Some v)
    else if prefix =? 0xFE then
      if in_len <? 5 then mret (-1, None)
      else v ← read_u32_le in_ 1; mret (5, Some v)
    else if prefix =? 0xFF then
      if in_len <? 9 then mret (-1, None)
      else v ← read_u64_le in_ 1; mret (9, Some v)
    else mret (1, Some prefix).

Definition varint_write (out : list Z) (offset value : Z) : outcome (Z * list Z) :=
  let varint_len := varint_size value in
  if varint_len =? 1 then
    out ← store out offset (u8 value); mret (varint_len, out)
  else if varint_len =? 3 then
    out ← store out offset 0xFD;
    out ← write_u16_le out (offset + 1) (u16 value); mret (varint_len, out)
  else if varint_len =? 5 then
    out ← store out offset 0xFE;
    out ← write_u32_le out (offset + 1) (u32 value); mret (varint_len, out)
  else if varint_len =? 9 then
    out ← store out offset 0xFF;
    out ← write_u64_le out (offset + 1) (u64 value); mret (varint_len, out)
  else mret (-1, out).

(** ** common/bitvector.h *)
Definition BITVECTOR_REAL_SIZE (n : Z) : Z := (n + 7) / 8.

Definition bitvector_get (vec : list Z) (i : Z) : outcome bool :=
  let byte_pos := i / 8 in
  let shift := 7 - i `mod` 8 in
  b ← load vec byte_pos;
  mret (negb (Z.land (Z.shiftr b shift) 1 =? 0)).

Definition bitvector_set (vec : list Z) (i : Z) (value : bool) : outcome (list Z) :=
  let byte_pos := i / 8 in
  let shift := 7 - i `mod` 8 in
  let mask := u8 (Z.shiftl 1 shift) in
  b ← load vec byte_pos;
  if value then store vec byte_pos (u8 (Z.lor b mask))
  else store vec byte_pos (u8 (Z.land b (Z.lnot mask))).

(** ** The values read *)

(** [slice m i n] is the [n] bytes of [m] from position [i]. *)
Definition slice (m : list Z) (i n : Z) : list Z :=
  take (Z.to_nat n) (drop (Z.to_nat i) m).

Lemma slice_zlen m i n : 0 ≤ i → 0 ≤ n → i + n ≤ zlen m → zlen (slice m i n) = n.
Proof. intros. rw /slice zlen_take // zlen_drop; lia. Qed.

Lemma slice_ok m i n : bytes_ok m → bytes_ok (slice m i n).
Proof. rw /slice. auto with ledger. Qed.
#[export] Hint Resolve slice_ok : ledger.

Lemma load_slice m i n k :
  0 ≤ i → 0 ≤ k < n → i + n ≤ zlen m →
  load m (i + k) = match slice m i n !! Z.to_nat k with Some b => Val b | None => Undef end.
Proof.
  intros. rw /load decide_True; [|lia]. rw /slice lookup_take lookup_drop.
  rw decide_True; [|lia]. by replace (Z.to_nat i + Z.to_nat k)%nat with (Z.to_nat (i + k)) by lia.
Qed.

(** Names the [n] bytes of [m] from position [i], and replaces the loads. *)
Ltac load_bytes m i n :=
  let l := fresh "l" in let Hl := fresh "Hl" in
  let Hlen := fresh "Hlen" in let Hok := fresh "Hok" in
  rw ?(load_slice m i n); [|lia..];
  assert (zlen (slice m i n) = n) as Hlen by (apply slice_zlen; lia);
  assert (bytes_ok (slice m i n)) as Hok by auto with ledger;
  remember (slice m i n) as l eqn:Hl; clear Hl;
  unfold zlen in Hlen;
  repeat (destruct l as [|? l]; [simpl in *; lia|apply Forall_cons in Hok as [? Hok]]);
  simpl in Hlen; (destruct l as [|? l]; [|simpl in Hlen; lia]); simpl.

Lemma lor_high_add x k y :
  0 ≤ k → x `mod` 2 ^ k = 0 → 0 ≤ y < 2 ^ k → Z.lor x y = x + y.
Proof.
  intros Hk Hx Hy. rw Z.lor_comm.
  rewrite (Z.div_mod x (2 ^ k)); [|lia]. rw Hx Z.add_0_r (Z.mul_comm (2 ^ k)).
  rw -Z.shiftl_mul_pow2 // lor_shiftl_add //. rw Z.shiftl_mul_pow2 //. lia.
Qed.

Section read_values.
Context (m : list Z) (i : Z) (Hm : bytes_ok m) (Hi : 0 ≤ i).

(** Turns the disjunction of the shifted bytes into a sum. *)
Ltac lor_le :=
  unfold byte_ok in *; rw Z.shiftl_0_r ?lor_shiftl_add; [|lia..].

Lemma read_u16_le_val : i + 2 ≤ zlen m → read_u16_le m i = Val (le_val (slice m i 2)).
Proof.
  intros. rw /read_u16_le. load_bytes m i 2. lor_le.
  rw u16_small; [|lia]. f_equal. lia.
Qed.

Lemma read_u32_le_val : i + 4 ≤ zlen m → read_u32_le m i = Val (le_val (slice m i 4)).
Proof.
  intros. rw /read_u32_le. load_bytes m i 4. lor_le.
  rw u32_small; [|lia]. f_equal. lia.
Qed.

Lemma read_u64_le_val : i + 8 ≤ zlen m → read_u64_le m i = Val (le_val (slice m i 8)).
Proof.
  intros. rw /read_u64_le. load_bytes m i 8. lor_le.
  rw u64_small; [|lia]. f_equal. lia.
Qed.

Lemma read_u16_be_val : i + 2 ≤ zlen m → read_u16_be m i = Val (be_val (slice m i 2)).
Proof.
  intros. rw /read_u16_be /be_val. load_bytes m i 2. unfold byte_ok in *.
  rw Z.shiftl_0_r !Z.shiftl_mul_pow2; [|lia..].
  rw (lor_high_add _ 8); [|pow_lia..]. rw u16_small; [|lia]. f_equal. cbn. lia.
Qed.

Lemma read_u32_be_val : i + 4 ≤ zlen m → read_u32_be m i = Val (be_val (slice m i 4)).
Proof.
  intros. rw /read_u32_be /be_val. load_bytes m i 4. unfold byte_ok in *.
  rw Z.shiftl_0_r !Z.shiftl_mul_pow2; [|lia..].
  rw (lor_high_add (_ * 2 ^ 24) 24); [|pow_lia..]. rw (lor_high_add (_ + _) 16); [|pow_lia..].
  rw (lor_high_add _ 8); [|pow_lia..]. rw u32_small; [|lia]. f_equal. cbn. lia.
Qed.

Lemma read_u64_be_val : i + 8 ≤ zlen m → read_u64_be m i = Val (be_val (slice m i 8)).
Proof.
  intros. rw /read_u64_be /be_val. load_bytes m i 8. unfold byte_ok in *.
  rw Z.shiftl_0_r !Z.shiftl_mul_pow2; [|lia..].
  rw (lor_high_add (_ * 2 ^ 56) 56); [|pow_lia..]. rw (lor_high_add (_ + _) 48); [|pow_lia..].
  rw (lor_high_add (_ + _) 40); [|pow_lia..]. rw (lor_high_add (_ + _) 32); [|pow_lia..].
  rw (lor_high_add (_ + _) 24); [|pow_lia..]. rw (lor_high_add (_ + _) 16); [|pow_lia..].
  rw (lor_high_add _ 8); [|pow_lia..]. rw u64_small; [|lia]. f_equal. cbn. lia.
Qed.
End read_values.

(** ** The bytes written *)
Lemma stores_nil m i : 0 ≤ i ≤ zlen m → stores m i [] = Val m.
Proof.
  intros. rw stores_in_range; [|lia|rw zlen_nil; lia].
  by rw /= Nat.add_0_r take_drop.
Qed.

Lemma take_insert_S (m : list Z) n b :
  (n < length m)%nat → take (S n) (<[n := b]> m) = take n m ++ [b].
Proof.
  intros. rw (take_S_r _ _ b); [|by apply list_lookup_insert_eq].
  by rw take_insert_ge.
Qed.

Lemma stores_cons m i b l : stores m i (b :: l) = (m' ← store m i b; stores m' (i + 1) l).
Proof.
  pose proof (zlen_nonneg l). rw /store. case_decide as Hi; simpl.
  - rw /stores zlen_cons. assert (zlen (<[Z.to_nat i := b]> m) = zlen m) as ->.
    { by rw /zlen length_insert. }
    case_decide; case_decide; [|lia|lia|done]. f_equal.
    replace (Z.to_nat (i + 1)) with (S (Z.to_nat i)) by lia.
    rw take_insert_S; [|unfold zlen in *; lia]. rw -app_assoc /=. do 3 f_equal.
    rw drop_insert_lt; [|lia]. f_equal. lia.
  - rw /stores zlen_cons decide_False //. lia.
Qed.

Lemma stores_one m i b : stores m i [b] = store m i b.
Proof.
  rw stores_cons /store. case_decide; simpl; [|done]. rw stores_nil //.
  rw /zlen length_insert. unfold zlen in *. lia.
Qed.

(** Compares a chain of stores with [stores], one byte at a time. *)
Ltac store_chain :=
  rw Z.add_0_r Z.shiftr_0_r; cbn [le_bytes reverse rev_append app rev];
  rw ?Z.shiftr_shiftr; [|lia..];
  repeat first
    [ by rw stores_one
    | rw stores_cons -?Z.add_assoc;
      repeat match goal with
      | |- context [Z.pos ?a + Z.pos ?b] =>
          let v := eval vm_compute in (Z.pos a + Z.pos b) in change (Z.pos a + Z.pos b) with v
      end;
      match goal with
      | |- context [store ?m ?i ?b ≫= _] => destruct (store m i b); simpl; [|done..]
      end ].

Section written.
Context (m : list Z) (i v : Z).
Lemma write_u16_le_stores : write_u16_le m i v = stores m i (le_bytes 2 v).
Proof. rw /write_u16_le. store_chain. Qed.
Lemma write_u32_le_stores : write_u32_le m i v = stores m i (le_bytes 4 v).
Proof. rw /write_u32_le. store_chain. Qed.
Lemma write_u64_le_stores : write_u64_le m i v = stores m i (le_bytes 8 v).
Proof. rw /write_u64_le. store_chain. Qed.
Lemma write_u16_be_stores : write_u16_be m i v = stores m i (reverse (le_bytes 2 v)).
Proof. rw /write_u16_be. store_chain. Qed.
Lemma write_u32_be_stores : write_u32_be m i v = stores m i (reverse (le_bytes 4 v)).
Proof. rw /write_u32_be. store_chain. Qed.
Lemma write_u64_be_stores : write_u64_be m i v = stores m i (reverse (le_bytes 8 v)).
Proof. rw /write_u64_be. store_chain. Qed.
End written.

Lemma slice_stores m i l m' :
  stores m i l = Val m' → slice m' i (zlen l) = l.
Proof.
  rw /stores /slice. case_decide; [|done]. intros [= <-].
  rw drop_app_length'; [|rw length_take; unfold zlen in *; lia].
  by rw zlen_length take_app_length.
Qed.

Lemma stores_bytes_ok m i l m' :
  bytes_ok m → bytes_ok l → stores m i l = Val m' → bytes_ok m'.
Proof.
  rw /stores. case_decide; [|done]. intros ?? [= <-].
  rw !bytes_ok_app. auto with ledger.
Qed.

(** What is written at one width and endianness is read back. *)
Lemma stores_read_back m i l n m' :
  bytes_ok m → bytes_ok l → zlen l = n → stores m i l = Val m' →
  bytes_ok m' ∧ 0 ≤ i ∧ i + n ≤ zlen m' ∧ slice m' i n = l.
Proof.
  intros Hm Hl <- H. split_and!.
  - eauto using stores_bytes_ok.
  - revert H. rw /stores. case_decide; [lia|done].
  - rw (stores_length _ _ _ _ H). revert H. rw /stores. case_decide; [lia|done].
  - eauto using slice_stores.
Qed.

Lemma be_val_reverse l : be_val (reverse l) = le_val l.
Proof. by rw /be_val reverse_involutive. Qed.

Lemma be_val_zeros n x : be_val (replicate n 0 ++ x) = be_val x.
Proof.
  rw /be_val reverse_app le_val_app reverse_replicate. assert (le_val (replicate n 0) = 0) as -> by (induction n as [|n IH]; [done|cbn; lia]). lia.
Qed.

Section round_trip.
Context (m m' : list Z) (i v : Z) (Hm : bytes_ok m).

Ltac read_back n :=
  let H := fresh in
  intros Hv; rw ?write_u16_le_stores ?write_u32_le_stores ?write_u64_le_stores
    ?write_u16_be_stores ?write_u32_be_stores ?write_u64_be_stores => H;
  eapply (stores_read_back _ _ _ n) in H as (? & ? & ? & Hs);
  [|done|first [apply Forall_reverse; apply le_bytes_ok|apply le_bytes_ok]
   |by rw /zlen ?length_reverse length_le_bytes];
  rw ?read_u16_le_val ?read_u32_le_val ?read_u64_le_val
    ?read_u16_be_val ?read_u32_be_val ?read_u64_be_val //; [|lia..];
  rw Hs ?be_val_reverse le_val_le_bytes //.

Lemma read_write_u16_le :
  0 ≤ v < 2 ^ 16 → write_u16_le m i v = Val m' → read_u16_le m' i = Val v.
Proof. read_back 2. Qed.
Lemma read_write_u32_le :
  0 ≤ v < 2 ^ 32 → write_u32_le m i v = Val m' → read_u32_le m' i = Val v.
Proof. read_back 4. Qed.
Lemma read_write_u64_le :
  0 ≤ v < 2 ^ 64 → write_u64_le m i v = Val m' → read_u64_le m' i = Val v.
Proof. read_back 8. Qed.
Lemma read_write_u16_be :
  0 ≤ v < 2 ^ 16 → write_u16_be m i v = Val m' → read_u16_be m' i = Val v.
Proof. read_back 2. Qed.
Lemma read_write_u32_be :
  0 ≤ v < 2 ^ 32 → write_u32_be m i v = Val m' → read_u32_be m' i = Val v.
Proof. read_back 4. Qed.
Lemma read_write_u64_be :
  0 ≤ v < 2 ^ 64 → write_u64_be m i v = Val m' → read_u64_be m' i = Val v.
Proof. read_back 8. Qed.
End round_trip.

(** ** Varints

    [varint_enc v] is the canonical encoding of [v]; [varint_write] produces
    it, [varint_read] decodes it. *)
Definition varint_enc (v : Z) : list Z :=
  if v <=? 0xFC then [v]
  else if v <=? UINT16_MAX then 0xFD :: le_bytes 2 v
  else if v <=? UINT32_MAX then 0xFE :: le_bytes 4 v
  else 0xFF :: le_bytes 8 v.

Lemma varint_size_le v : varint_size v ≤ 9.
Proof. rw /varint_size. repeat case_match; lia. Qed.

Lemma varint_enc_zlen v : zlen (varint_enc v) = varint_size v.
Proof. rw /varint_enc /varint_size. repeat case_match; done. Qed.

Lemma varint_enc_ok v : 0 ≤ v → bytes_ok (varint_enc v).
Proof.
  intros. rw /varint_enc. repeat case_match; constructor; auto with ledger; rw /byte_ok; lia.
Qed.

Lemma varint_write_stores m i v :
  0 ≤ v < 2 ^ 64 →
  varint_write m i v = (m' ← stores m i (varint_enc v); mret (varint_size v, m')).
Proof.
  intros. rw /varint_write /varint_enc /varint_size. repeat case_match; try lia.
  - rw stores_one u8_small //. lia.
  - rw stores_cons. destruct (store m i 253); simpl; [|done..].
    rw write_u16_le_stores u16_small //. unfold UINT16_MAX in *. lia.
  - rw stores_cons. destruct (store m i 254); simpl; [|done..].
    rw write_u32_le_stores u32_small //. unfold UINT32_MAX in *. lia.
  - rw stores_cons. destruct (store m i 255); simpl; [|done..].
    rw write_u64_le_stores u64_small //.
Qed.

(** The number of bytes that follow the first byte of a varint. *)
Definition varint_payload (prefix : Z) : Z :=
  if prefix =? 0xFD then 2 else if prefix =? 0xFE then 4 else if prefix =? 0xFF then 8 else 0.

(** Decoding of a varint at the head of a list: the value and what follows,
    or [None] when the list is too short. *)
Definition varint_dec (l : list Z) : option (Z * list Z) :=
  match l with
  | [] => None
  | p :: l' =>
      let k := varint_payload p in
      if k =? 0 then Some (p, l')
      else if zlen l' <? k then None
      else Some (le_val (take (Z.to_nat k) l'), drop (Z.to_nat k) l')
  end.

Lemma varint_payload_range p : 0 ≤ varint_payload p ≤ 8.
Proof. rw /varint_payload. repeat case_match; lia. Qed.

Lemma slice_cons_tail b m n : 0 ≤ n → slice (b :: m) 1 n = take (Z.to_nat n) m.
Proof. intros. by rw /slice /= drop_0. Qed.

(** [varint_read] decodes the first [in_len] bytes, or reports their
    incompleteness; it reads no other byte. *)
Lemma varint_read_dec m n :
  bytes_ok m → 0 ≤ n ≤ zlen m →
  varint_read m n =
    Val match varint_dec (take (Z.to_nat n) m) with
        | None => (-1, None)
        | Some (v, r) => (n - zlen r, Some v)
        end.
Proof.
  intros Hm Hn. rw /varint_read. case_match eqn:H1.
  { assert (n = 0) as -> by lia. done. }
  destruct m as [|p m]; [revert Hn; rw zlen_nil; lia|]. simpl.
  replace (Z.to_nat n) with (S (Z.to_nat (n - 1))) by lia. cbn [take varint_dec].
  rw zlen_cons in Hn. assert (zlen (take (Z.to_nat (n - 1)) m) = n - 1) as Hl.
  { apply zlen_take. lia. }
  rw Hl /varint_payload.
  assert (∀ k, 0 < k → n - 1 >= k →
    slice (p :: m) 1 k = take (Z.to_nat k) (take (Z.to_nat (n - 1)) m) ∧
    n - zlen (drop (Z.to_nat k) (take (Z.to_nat (n - 1)) m)) = k + 1) as Hk.
  { intros k ??. rw slice_cons_tail; [|lia]. rw take_take zlen_drop; [|lia].
    split; [f_equal; lia|lia]. }
  destruct (p =? 253); [|destruct (p =? 254); [|destruct (p =? 255)]]; simpl.
  - destruct (n <? 3) eqn:?; [rw (proj2 (Z.ltb_lt _ _)) //; lia|].
    rw (proj2 (Z.ltb_ge _ _)); [|lia]. rw read_u16_le_val // ?zlen_cons; [|lia].
    destruct (Hk 2) as [-> ->]; [lia..|done].
  - destruct (n <? 5) eqn:?; [rw (proj2 (Z.ltb_lt _ _)) //; lia|].
    rw (proj2 (Z.ltb_ge _ _)); [|lia]. rw read_u32_le_val // ?zlen_cons; [|lia].
    destruct (Hk 4) as [-> ->]; [lia..|done].
  - destruct (n <? 9) eqn:?; [rw (proj2 (Z.ltb_lt _ _)) //; lia|].
    rw (proj2 (Z.ltb_ge _ _)); [|lia]. rw read_u64_le_val // ?zlen_cons; [|lia].
    destruct (Hk 8) as [-> ->]; [lia..|done].
  - rw Hl. do 2 f_equal. lia.
Qed.

(** Decoding inverts encoding, whatever follows the encoding. *)
Lemma varint_dec_enc v rest : 0 ≤ v < 2 ^ 64 → varint_dec (varint_enc v ++ rest) = Some (v, rest).
Proof.
  intros Hv. assert (∀ n, 0 ≤ v < 256 ^ Z.of_nat n →
    le_val (take n (le_bytes n v ++ rest)) = v ∧ drop n (le_bytes n v ++ rest) = rest ∧
    zlen (le_bytes n v ++ rest) = Z.of_nat n + zlen rest) as Hle.
  { intros n ?. pose proof (length_le_bytes n v) as Hn.
    rw -{1 3}Hn take_app_length drop_app_length zlen_app /zlen Hn le_val_le_bytes //. }
  pose proof (zlen_nonneg rest).
  rw /varint_enc /UINT16_MAX /UINT32_MAX. repeat case_match; cbn [app varint_dec].
  - rw /varint_payload. repeat case_match; try lia. done.
  - destruct (Hle 2%nat) as (Ht & Hd & Hz); [lia|].
    change (varint_payload 253) with 2. rw Hz. change (2 =? 0) with false. cbv iota beta.
    rw (proj2 (Z.ltb_ge _ _)); [|lia]. cbv iota.
    by change (Z.to_nat 2) with 2%nat; rw Ht Hd.
  - destruct (Hle 4%nat) as (Ht & Hd & Hz); [lia|].
    change (varint_payload 254) with 4. rw Hz. change (4 =? 0) with false. cbv iota beta.
    rw (proj2 (Z.ltb_ge _ _)); [|lia]. cbv iota.
    by change (Z.to_nat 4) with 4%nat; rw Ht Hd.
  - destruct (Hle 8%nat) as (Ht & Hd & Hz); [lia|].
    change (varint_payload 255) with 8. rw Hz. change (8 =? 0) with false. cbv iota beta.
    rw (proj2 (Z.ltb_ge _ _)); [|lia]. cbv iota.
    by change (Z.to_nat 8) with 8%nat; rw Ht Hd.
Qed.

Lemma varint_dec_range l v r :
  bytes_ok l → varint_dec l = Some (v, r) → 0 ≤ v < 2 ^ 64 ∧ bytes_ok r ∧ zlen r < zlen l.
Proof.
  destruct l as [|p l]; [done|]. intros [Hp Hl]%Forall_cons. cbn [varint_dec].
  pose proof (varint_payload_range p). unfold byte_ok in Hp. pose proof (zlen_nonneg l).
  case_match; [intros [= <- <-]; rw zlen_cons; split_and!; lia || done|].
  case_match; [done|]. intros [= <- <-]. rw zlen_cons zlen_drop; [|lia].
  split_and!; [..|auto with ledger|lia].
  - apply le_val_range. auto with ledger.
  - eapply Z.lt_le_trans; [apply le_val_range; auto with ledger|].
    rw zlen_take; [|lia]. change (2 ^ 64) with (256 ^ 8). apply Z.pow_le_mono_r; lia.
Qed.

(** ** Bit vectors *)
Lemma land_1_testbit b s : 0 ≤ s → negb (Z.land (Z.shiftr b s) 1 =? 0) = Z.testbit b s.
Proof.
  intros. change 1 with (Z.ones 1). rw Z.land_ones; [|lia]. change (2 ^ 1) with 2. rw Zmod_odd.
  replace (Z.testbit b s) with (Z.testbit (Z.shiftr b s) 0) by (rw Z.shiftr_spec //; f_equal; lia).
  rw Z.bit0_odd. by destruct (Z.odd _).
Qed.

Lemma bitvector_get_testbit vec i b :
  0 ≤ i → vec !! Z.to_nat (i / 8) = Some b →
  bitvector_get vec i = Val (Z.testbit b (7 - i `mod` 8)).
Proof.
  intros Hi Hb. rw /bitvector_get. assert (0 ≤ i / 8) by (apply Z.div_pos; lia).
  rewrite (proj2 (load_Val vec (i / 8) b)); [|done]. simpl.
  rw land_1_testbit //. pose proof (Z.mod_pos_bound i 8). lia.
Qed.

Lemma testbit_u8 x n : 0 ≤ n < 8 → Z.testbit (u8 x) n = Z.testbit x n.
Proof. intros. rw /u8 Z.mod_pow2_bits_low //. lia. Qed.

Lemma testbit_pow2_shift s n : 0 ≤ s → 0 ≤ n → Z.testbit (Z.shiftl 1 s) n = bool_decide (s = n).
Proof.
  intros. rw Z.shiftl_1_l Z.pow2_bits_eqb //. case_bool_decide; [|apply Z.eqb_neq; lia].
  apply Z.eqb_eq. lia.
Qed.

Lemma bitvector_set_get vec vec' i j value :
  0 ≤ i → 0 ≤ j → bitvector_set vec i value = Val vec' →
  bitvector_get vec' j = if decide (i = j) then Val value else bitvector_get vec j.
Proof.
  intros Hi Hj. rw /bitvector_set. intros H. inv_bind H.
  apply load_Val in Ha as [Hpos Hb].
  pose proof (Z.mod_pos_bound i 8) as Hmi. pose proof (Z.mod_pos_bound j 8) as Hmj.
  set (b' := u8 (if value then Z.lor a (u8 (Z.shiftl 1 (7 - i `mod` 8)))
                 else Z.land a (Z.lnot (u8 (Z.shiftl 1 (7 - i `mod` 8)))))).
  assert (vec' = <[Z.to_nat (i / 8) := b']> vec) as ->.
  { revert H. rw /store. destruct value; case_decide; naive_solver. }
  assert (∀ n, 0 ≤ n < 8 → Z.testbit b' n =
            if decide (7 - i `mod` 8 = n) then value else Z.testbit a n) as Hbit.
  { intros n Hn. rw /b'. rw testbit_u8 //. destruct value.
    - rw Z.lor_spec testbit_u8 // testbit_pow2_shift; [|lia..].
      case_decide; [rw bool_decide_eq_true_2 // orb_true_r //|].
      by rw bool_decide_eq_false_2 // orb_false_r.
    - rw Z.land_spec Z.lnot_spec; [|lia]. rw testbit_u8 // testbit_pow2_shift; [|lia..].
      case_decide; [rw bool_decide_eq_true_2 // andb_false_r //|].
      by rw bool_decide_eq_false_2 // andb_true_r. }
  assert (0 ≤ j / 8) by (apply Z.div_pos; lia).
  destruct (decide (i / 8 = j / 8)) as [Heq|Hne].
  - rw (bitvector_get_testbit _ j b') //; [|rw -Heq list_lookup_insert_eq //; by eapply lookup_lt_Some].
    rw Hbit; [|lia]. pose proof (Z.div_mod i 8). pose proof (Z.div_mod j 8).
    case_decide; case_decide; [done|lia|lia|].
    rw (bitvector_get_testbit _ j a) // -Heq //.
  - rw decide_False; [|intros ->; done]. rw /bitvector_get /load decide_True // decide_True //.
    rw list_lookup_insert_ne //. lia.
Qed.

(** ** Properties *)

(** At each width and in both byte orders, what a write stores is what the
    read of the same width and order returns. *)
Lemma read_write_round_trip m m' i v :
  bytes_ok m →
  (0 ≤ v < 2 ^ 16 → write_u16_le m i v = Val m' → read_u16_le m' i = Val v) ∧
  (0 ≤ v < 2 ^ 16 → write_u16_be m i v = Val m' → read_u16_be m' i = Val v) ∧
  (0 ≤ v < 2 ^ 32 → write_u32_le m i v = Val m' → read_u32_le m' i = Val v) ∧
  (0 ≤ v < 2 ^ 32 → write_u32_be m i v = Val m' → read_u32_be m' i = Val v) ∧
  (0 ≤ v < 2 ^ 64 → write_u64_le m i v = Val m' → read_u64_le m' i = Val v) ∧
  (0 ≤ v < 2 ^ 64 → write_u64_be m i v = Val m' → read_u64_be m' i = Val v).
Proof.
  intros. split_and!; eauto using read_write_u16_le, read_write_u16_be, read_write_u32_le,
    read_write_u32_be, read_write_u64_le, read_write_u64_be.
Qed.

(** For every 64-bit value, [varint_write] reports the size of the encoding
    and [varint_read], started where it was written, returns the value and the
    same size, whatever bytes follow. *)
Lemma varint_round_trip m i v n m' :
  bytes_ok m → 0 ≤ v < 2 ^ 64 → varint_write m i v = Val (n, m') →
  n = varint_size v ∧ zlen m' = zlen m ∧
  varint_read (drop (Z.to_nat i) m') (zlen m' - i) = Val (n, Some v).
Proof.
  intros Hm Hv. rw varint_write_stores // => H. inv_bind H. injection H as <- <-.
  split; [done|]. rw (stores_length _ _ _ _ Ha). split; [done|].
  revert Ha. rw /stores. case_decide as Hi; [|done]. intros [= <-]. zlen_facts.
  rw drop_app_length'; [|rw length_take; unfold zlen in *; lia].
  pose proof (varint_enc_ok v ltac:(lia)).
  rw varint_read_dec; [..|apply bytes_ok_app; auto with ledger|].
  2:{ rw /zlen length_app length_drop. unfold zlen in *. lia. }
  rw take_ge; [|rw length_app length_drop; unfold zlen in *; lia].
  rw varint_dec_enc // -varint_enc_zlen. do 3 f_equal.
  rw /zlen length_drop. unfold zlen in *. lia.
Qed.
