(* ===== verification/Bip32.v ===== *)
(** * BIP32 derivation paths

    Models src/src/common/bip32.c: reading a path from a byte buffer,
    formatting it, and the check that a path is standard.  The theorems give
    the exact domain on which [bip32_path_read] is memory safe (it is larger
    than what its length check ensures), and characterise the standard paths. *)

From S2P Require Import Prelude Bytes.

(** ** common/bip32.h *)
Definition MAX_BIP32_PATH_STEPS : Z := 8.
Definition BIP32_FIRST_HARDENED_CHILD : Z := 0x80000000.
Definition BIP44_PURPOSE_OFFSET : Z := 0.
Definition BIP44_COIN_TYPE_OFFSET : Z := 1.
Definition BIP44_ACCOUNT_OFFSET : Z := 2.
Definition MAX_BIP44_ACCOUNT_RECOMMENDED : Z := 100.

(** ** common/bip32.c *)

(** The loop of [bip32_path_read]; [n] steps remain, [out] holds the steps
    written so far. *)
Fixpoint bip32_path_read_loop (in_ : list Z) (in_len : Z) (n : nat) (offset : Z)
    (out : list Z) : outcome (option (list Z)) :=
  match n with
  | O => mret (Some out)
  | S n' =>
      if in_len <? offset then mret None
      else
        v ← read_u32_be in_ offset;
        bip32_path_read_loop in_ in_len n' (offset + 4) (out ++ [v])
  end.

Definition bip32_path_read (in_ : list Z) (in_len out_len : Z) : outcome (option (list Z)) :=
  if MAX_BIP32_PATH_STEPS <? out_len then mret None
  else bip32_path_read_loop in_ in_len (Z.to_nat out_len) 0 [].

(** The decimal digits printed by ["%d"] for a non-negative [int]. *)
Fixpoint decimal_fuel (fuel : nat) (x : Z) : list Z :=
  match fuel with
  | O => []
  | S f => if x <? 10 then [48 + x] else decimal_fuel f (x / 10) ++ [48 + x `mod` 10]
  end.
Definition decimal (x : Z) : list Z := decimal_fuel 20 x.

(** One [snprintf] of [text] at [offset] with the checks that follow it:
    snprintf writes the characters that fit before the terminator, [written]
    is how many they are. *)
Definition append_text (out_len : Z) (out text : list Z) : option (list Z) :=
  let avail := out_len - zlen out in
  let written := Z.min (zlen text) (avail - 1) in
  if (written =? 0) || (avail <=? written) then None
  else Some (out ++ take (Z.to_nat written) text).

(** The string written to [out], without its terminator; [None] is the
    failure, on which [out] is cleared. *)
Fixpoint bip32_path_format_loop (path : list Z) (out_len : Z) (out : list Z) : option (list Z) :=
  match path with
  | [] => Some out
  | step :: path' =>
      out ← append_text out_len out (decimal (Z.land step 0x7FFFFFFF));
      out ← (if negb (Z.land step BIP32_FIRST_HARDENED_CHILD =? 0)
             then append_text out_len out [39] else Some out);
      out ← (if negb (bool_decide (path' = [])) then append_text out_len out [47] else Some out);
      bip32_path_format_loop path' out_len out
  end.

Definition bip32_path_format (bip32_path : list Z) (out_len : Z) : option (list Z) :=
  if (MAX_BIP32_PATH_STEPS <? zlen bip32_path) || (out_len <? 1) then None
  else bip32_path_format_loop bip32_path out_len [].

Definition is_pubkey_path_standard (bip32_path : list Z) (expected_purpose : Z)
    (expected_coin_types : list Z) : bool :=
  let H := BIP32_FIRST_HARDENED_CHILD in
  let bip32_path_len := zlen bip32_path in
  if (bip32_path_len <? 2) || (3 <? bip32_path_len) then false
  else
    let purpose := default 0 (bip32_path !! Z.to_nat BIP44_PURPOSE_OFFSET) in
    if negb (purpose =? Z.lxor expected_purpose H) then false
    else
      let coin_type := default 0 (bip32_path !! Z.to_nat BIP44_COIN_TYPE_OFFSET) in
      if coin_type <? H then false
      else if (0 <? zlen expected_coin_types) &&
              negb (existsb (λ c, coin_type =? Z.lxor c H) expected_coin_types) then false
      else if bip32_path_len =? 2 then true
      else
        let account_number := default 0 (bip32_path !! Z.to_nat BIP44_ACCOUNT_OFFSET) in
        if MAX_BIP44_ACCOUNT_RECOMMENDED <? Z.lxor account_number H then false else true.

(** ** Reading *)

(** The steps of a path stored in big endian at [offset]. *)
Fixpoint be_words (n : nat) (m : list Z) : list Z :=
  match n with
  | O => []
  | S n' => be_val (take 4 m) :: be_words n' (drop 4 m)
  end.

Lemma load_cases m i : (∃ b, load m i = Val b) ∨ load m i = Undef.
Proof. rw /load. repeat case_match; eauto. Qed.

Lemma read_u32_be_undef m i : zlen m < i + 4 → read_u32_be m i = Undef.
Proof.
  intros Hm. rw /read_u32_be.
  destruct (load_cases m (i + 0)) as [[? ->]| ->]; simpl; [|done].
  destruct (load_cases m (i + 1)) as [[? ->]| ->]; simpl; [|done].
  destruct (load_cases m (i + 2)) as [[? ->]| ->]; simpl; [|done].
  by rw load_out_of_range; [|lia].
Qed.

Lemma bip32_path_read_loop_ok m in_len n offset out :
  bytes_ok m → 0 ≤ offset → offset + 4 * Z.of_nat n ≤ Z.min in_len (zlen m) →
  bip32_path_read_loop m in_len n offset out =
    Val (Some (out ++ be_words n (drop (Z.to_nat offset) m))).
Proof.
  intros Hm. revert offset out. induction n as [|n IH]; intros offset out Ho Hl; simpl.
  { by rw app_nil_r. }
  rw (proj2 (Z.ltb_ge _ _)); [|lia]. rw read_u32_be_val //; [|lia]. simpl.
  rw IH; [|lia..]. replace (Z.to_nat (offset + 4)) with (Z.to_nat offset + 4)%nat by lia.
  by rw -app_assoc -drop_drop /slice.
Qed.

Lemma bip32_path_read_loop_undef m n offset out :
  bytes_ok m → 0 ≤ offset ≤ zlen m → zlen m < offset + 4 * Z.of_nat n →
  bip32_path_read_loop m (zlen m) n offset out = Undef.
Proof.
  intros Hm. revert offset out. induction n as [|n IH]; intros offset out Ho Hl; [lia|]. simpl.
  rw (proj2 (Z.ltb_ge _ _)); [|lia].
  destruct (decide (zlen m < offset + 4)); [by rw read_u32_be_undef|].
  rw read_u32_be_val //; [|lia..]. simpl. apply IH; lia.
Qed.

(** ** Formatting *)

(** The text of a path: the steps in decimal, with an apostrophe after the
    hardened ones, separated by slashes. *)
Definition step_text (step : Z) : list Z :=
  decimal (Z.land step 0x7FFFFFFF) ++
  (if negb (Z.land step BIP32_FIRST_HARDENED_CHILD =? 0) then [39] else []).

Fixpoint path_text (path : list Z) : list Z :=
  match path with
  | [] => []
  | [step] => step_text step
  | step :: path' => step_text step ++ [47] ++ path_text path'
  end.

Lemma append_text_fits out_len out text :
  text ≠ [] → zlen out + zlen text < out_len → append_text out_len out text = Some (out ++ text).
Proof.
  intros Hne Hfit. rw /append_text. destruct text as [|c text]; [done|].
  rw Z.min_l; [|lia]. rw (proj2 (Z.eqb_neq _ _)); [|rw zlen_cons; pose proof (zlen_nonneg text); lia].
  rw (proj2 (Z.leb_gt _ _)) /=; [|lia]. by rw zlen_length firstn_all.
Qed.

Lemma decimal_fuel_nonempty f x : f ≠ O → decimal_fuel f x ≠ [].
Proof. destruct f; [done|]. intros _. simpl. case_match; [done|]. by destruct (decimal_fuel _ _). Qed.

Lemma path_format_loop_text path out_len out :
  zlen out + zlen (path_text path) < out_len →
  bip32_path_format_loop path out_len out = Some (out ++ path_text path).
Proof.
  revert out. induction path as [|step path IH]; intros out Hl; [by rw /= app_nil_r|].
  assert (zlen out + zlen (step_text step) + (if decide (path = []) then 0 else 1)
          + zlen (path_text path) < out_len) as Hfit.
  { revert Hl. destruct path; simpl; rw ?zlen_app ?zlen_cons ?zlen_nil; lia. }
  pose proof (zlen_nonneg (path_text path)).
  simpl. rw append_text_fits; [|by apply decimal_fuel_nonempty|].
  2:{ revert Hfit. rw /step_text zlen_app. destruct (negb _), (decide _); rw ?zlen_cons ?zlen_nil; lia. }
  simpl. set (d := decimal _) in *.
  assert ((if negb (Z.land step BIP32_FIRST_HARDENED_CHILD =? 0)
           then append_text out_len (out ++ d) [39] else Some (out ++ d)) =
          Some (out ++ step_text step)) as ->.
  { rw /step_text -/d. destruct (negb _) eqn:Hh; [|by rw app_nil_r].
    rw append_text_fits // -?app_assoc //. revert Hfit. rw /step_text -/d Hh !zlen_app.
    case_decide; rw ?zlen_cons ?zlen_nil; lia. }
  simpl. destruct path as [|step' path]; [done|].
  destruct (decide (step' :: path = [])) as [|_] in Hfit; [done|].
  rw bool_decide_eq_false_2 // append_text_fits //; [|rw zlen_app zlen_cons zlen_nil; lia]. cbn [negb mbind option_bind].
  rw IH; [|rw (zlen_app (out ++ _)) (zlen_app out) zlen_cons zlen_nil; lia].
  by rw -!app_assoc.
Qed.

(** ** Standard paths *)
Lemma lxor_hardened x : 0 ≤ x < 2 ^ 31 → Z.lxor x BIP32_FIRST_HARDENED_CHILD = x + 2 ^ 31.
Proof.
  intros. change BIP32_FIRST_HARDENED_CHILD with (Z.shiftl 1 31).
  rw -(Z.mul_1_l (2 ^ 31)) -lor_shiftl_add //. apply Z.lxor_lor.
  apply Z.bits_inj'. intros n Hn. rw Z.land_spec Z.bits_0 testbit_pow2_shift //.
  case_bool_decide; [|apply andb_false_r]. subst n.
  by rw -(Z.mod_small x (2 ^ 31)) // Z.mod_pow2_bits_high.
Qed.

Lemma lxor_unhardened x :
  2 ^ 31 ≤ x < 2 ^ 32 → Z.lxor x BIP32_FIRST_HARDENED_CHILD = x - 2 ^ 31.
Proof.
  intros. replace x with (Z.lxor (x - 2 ^ 31) BIP32_FIRST_HARDENED_CHILD) at 1.
  - by rw Z.lxor_assoc Z.lxor_nilpotent Z.lxor_0_r.
  - rw lxor_hardened; lia.
Qed.

(** The standard paths for a purpose and a list of coin types. *)
Definition standard_path (purpose : Z) (coins path : list Z) : Prop :=
  ∃ coin rest, path = (purpose + 2 ^ 31) :: (coin + 2 ^ 31) :: rest ∧
    0 ≤ coin < 2 ^ 31 ∧ (coins = [] ∨ coin ∈ coins) ∧
    (rest = [] ∨ ∃ account, 0 ≤ account ≤ 100 ∧ rest = [account + 2 ^ 31]).

Lemma existsb_coin coin coins :
  Forall (λ c, 0 ≤ c < 2 ^ 31) coins →
  existsb (λ c, coin + 2 ^ 31 =? Z.lxor c BIP32_FIRST_HARDENED_CHILD) coins = true ↔ coin ∈ coins.
Proof.
  intros Hc. rw existsb_exists. setoid_rewrite <-list_elem_of_In. rw Forall_forall in Hc. split.
  - intros (c & Hin & Heq%Z.eqb_eq). rw lxor_hardened in Heq; [|by apply Hc].
    by replace coin with c by lia.
  - intros Hin. exists coin. split; [done|]. rw lxor_hardened; [|by apply Hc]. apply Z.eqb_refl.
Qed.

(** The three checks of the code. *)
Definition coin_check (coins : list Z) (coin_type : Z) : bool :=
  negb (coin_type <? BIP32_FIRST_HARDENED_CHILD) &&
  negb ((0 <? zlen coins) &&
        negb (existsb (λ c, coin_type =? Z.lxor c BIP32_FIRST_HARDENED_CHILD) coins)).
Definition account_check (account : Z) : bool :=
  negb (MAX_BIP44_ACCOUNT_RECOMMENDED <? Z.lxor account BIP32_FIRST_HARDENED_CHILD).

Lemma coin_check_spec coins s :
  0 ≤ s < 2 ^ 32 → Forall (λ c, 0 ≤ c < 2 ^ 31) coins →
  coin_check coins s = true ↔
    ∃ coin, s = coin + 2 ^ 31 ∧ 0 ≤ coin < 2 ^ 31 ∧ (coins = [] ∨ coin ∈ coins).
Proof.
  intros Hs Hc. rw /coin_check andb_true_iff negb_true_iff Z.ltb_ge.
  unfold BIP32_FIRST_HARDENED_CHILD at 1. split.
  - intros [Hge Hin]. exists (s - 2 ^ 31). split_and!; [lia..|].
    rw -(existsb_coin (s - 2 ^ 31)) //. replace (s - 2 ^ 31 + 2 ^ 31) with s by lia.
    destruct coins as [|c coins]; [by left|]. rw zlen_cons in Hin.
    pose proof (zlen_nonneg coins). rw (proj2 (Z.ltb_lt 0 _)) in Hin; [|lia].
    right. by destruct (existsb _ _).
  - intros (coin & -> & ? & Hin). split; [lia|]. destruct Hin as [->|Hin]; [done|].
    rw (proj2 (existsb_coin _ _ Hc) Hin). by rw andb_false_r.
Qed.

Lemma account_check_spec s :
  0 ≤ s < 2 ^ 32 → account_check s = true ↔ ∃ a, 0 ≤ a ≤ 100 ∧ s = a + 2 ^ 31.
Proof.
  intros Hs. rw /account_check negb_true_iff Z.ltb_ge /MAX_BIP44_ACCOUNT_RECOMMENDED.
  destruct (decide (s < 2 ^ 31)).
  - rw lxor_hardened; [|lia]. split; [lia|]. intros (?&?&?). lia.
  - rw lxor_unhardened; [|lia]. split; [|intros (?&?&?); lia].
    intros. exists (s - 2 ^ 31). lia.
Qed.

Lemma is_pubkey_path_standard_checks path purpose coins :
  is_pubkey_path_standard path purpose coins =
    match path with
    | [s0; s1] => (s0 =? Z.lxor purpose BIP32_FIRST_HARDENED_CHILD) && coin_check coins s1
    | [s0; s1; s2] =>
        (s0 =? Z.lxor purpose BIP32_FIRST_HARDENED_CHILD) && coin_check coins s1 && account_check s2
    | _ => false
    end.
Proof.
  rw /is_pubkey_path_standard /coin_check /account_check.
  destruct path as [|s0 [|s1 [|s2 [|s3 path]]]]; [done|done|..].
  - simpl. destruct (s0 =? _), (s1 <? _), (0 <? zlen coins), (existsb _ coins); done.
  - simpl. destruct (s0 =? _), (s1 <? _), (0 <? zlen coins), (existsb _ coins), (_ <? Z.lxor s2 _); done.
  - rw !zlen_cons. pose proof (zlen_nonneg path).
    by rw (proj2 (Z.ltb_lt 3 _)); [rw orb_true_r|lia].
Qed.

Lemma is_pubkey_path_standard_spec path purpose coins :
  Forall (λ s, 0 ≤ s < 2 ^ 32) path → 0 ≤ purpose < 2 ^ 31 →
  Forall (λ c, 0 ≤ c < 2 ^ 31) coins →
  is_pubkey_path_standard path purpose coins = true ↔ standard_path purpose coins path.
Proof.
  intros Hp Hpu Hc. rw is_pubkey_path_standard_checks lxor_hardened //. rw /standard_path.
  destruct path as [|s0 [|s1 [|s2 [|s3 path]]]]; decompose_Forall_hyps.
  1,2: by split; [|intros (?&?&?&_)].
  - rw andb_true_iff Z.eqb_eq coin_check_spec //. split.
    + intros (-> & coin & -> & ? & ?). exists coin, []. eauto.
    + intros (coin & ? & [= -> -> <-] & ? & ? & _). eauto.
  - rw 2!andb_true_iff Z.eqb_eq coin_check_spec // account_check_spec //. split.
    + intros ((-> & coin & -> & ? & ?) & a & ? & ->). exists coin, [a + 2 ^ 31]. eauto 10.
    + intros (coin & ? & [= -> -> <-] & ? & ? & [?|(a & ? & [= ->])]); [done|]. eauto 10.
  - split; [done|]. intros (?&?&[= _ _ <-]&_&_&[?|(?&_&?)]); done.
Qed.

(** ** Properties *)

(** On a buffer of exactly [in_len] bytes, [bip32_path_read] rejects more
    than 8 steps, and otherwise returns the big-endian words when the buffer
    holds them all, and reads past the end of the buffer when it does not: its
    length check never makes it return false. *)
Lemma bip32_path_read_correct m n :
  bytes_ok m → 0 ≤ n →
  bip32_path_read m (zlen m) n =
    if decide (8 < n) then Val None
    else if decide (4 * n ≤ zlen m) then Val (Some (be_words (Z.to_nat n) m))
    else Undef.
Proof.
  intros Hm Hn. rw /bip32_path_read /MAX_BIP32_PATH_STEPS. destruct (Z.ltb_spec 8 n).
  { by rw decide_True. }
  rw decide_False; [|lia]. case_decide.
  - by rw bip32_path_read_loop_ok //; lia.
  - rw bip32_path_read_loop_undef //; [|lia]. pose proof (zlen_nonneg m). lia.
Qed.

(** Formatting a path of at most 8 steps into a buffer that is longer than
    its text yields the text: decimal steps, hardened ones marked, separated
    by slashes. *)
Lemma bip32_path_format_correct path out_len :
  zlen path ≤ 8 → zlen (path_text path) < out_len →
  bip32_path_format path out_len = Some (path_text path).
Proof.
  intros Hp Hl. rw /bip32_path_format /MAX_BIP32_PATH_STEPS.
  pose proof (zlen_nonneg (path_text path)).
  rw (proj2 (Z.ltb_ge _ _)); [|lia]. rw (proj2 (Z.ltb_ge _ _)) /=; [|lia].
  by rw path_format_loop_text.
Qed.

(** A buffer too short for the text of the last step does not make
    [bip32_path_format] fail: it succeeds with a truncated number. *)
Lemma bip32_path_format_truncates :
  bip32_path_format [12345] 4 = Some [49; 50; 51] ∧ path_text [12345] = [49; 50; 51; 52; 53].
Proof. split; reflexivity. Qed.
