(* ===== verification/Buffer.v ===== *)
(** * Buffers

    Models src/src/common/buffer.c and buffer.h (a cursor over a memory
    object), and src/src/common/parser.c (reads that span two buffers, and
    the driver of the resumable parsers).

    The abstraction of a buffer is [rest]: the bytes between the cursor and
    the end.  Every read of the code is shown to take a prefix of it, to leave
    the cursor after that prefix, and to touch no byte outside of it; the
    class [ByteSource] states this contract, and single buffers and pairs of
    buffers are its instances. *)

From S2P Require Import Prelude Bytes Bip32.

(** ** common/buffer.h *)
Inductive endianness : Set := BE | LE.

(** [ptr] is the memory object that the C pointer points to (from that
    position on); [size] and [offset] are [size_t]. *)
Record buffer := mk_buffer { ptr : list Z; size : Z; offset : Z }.

Definition buffer_create (ptr : list Z) (size : Z) : buffer := mk_buffer ptr size 0.
Definition buffer_get_cur (b : buffer) : list Z := drop (Z.to_nat (offset b)) (ptr b).
Definition buffer_snapshot (b : buffer) : Z := offset b.
Definition buffer_restore (b : buffer) (snapshot : Z) : buffer := mk_buffer (ptr b) (size b) snapshot.

(** ** common/buffer.c *)
Definition buffer_can_read (b : buffer) (n : Z) : bool := n <=? size_t (size b - offset b).

Definition buffer_seek_set (b : buffer) (off : Z) : bool * buffer :=
  if size b <? off then (false, b) else (true, mk_buffer (ptr b) (size b) off).

Definition buffer_seek_cur (b : buffer) (off : Z) : bool * buffer :=
  if (size_t (offset b + off) <? offset b) || (size b <? size_t (offset b + off)) then (false, b)
  else (true, mk_buffer (ptr b) (size b) (size_t (offset b + off))).

Definition buffer_seek_end (b : buffer) (off : Z) : bool * buffer :=
  if size b <? off then (false, b) else (true, mk_buffer (ptr b) (size b) (size b - off)).

(** A read returns whether it succeeded, the value left in the output
    parameter and the buffer. *)
Definition buffer_read_u8 (b : buffer) : outcome (bool * Z * buffer) :=
  if negb (buffer_can_read b 1) then mret (false, 0, b)
  else v ← load (ptr b) (offset b); mret (true, v, (buffer_seek_cur b 1).2).

(** [None] is a failed peek, which leaves the output parameter unset. *)
Definition buffer_peek_n (b : buffer) (n : Z) : outcome (option Z) :=
  if negb (buffer_can_read b (size_t (n + 1))) then mret None
  else v ← load (ptr b) (offset b + n); mret (Some v).

Definition buffer_peek (b : buffer) : outcome (option Z) := buffer_peek_n b 0.

Definition buffer_read_u16 (b : buffer) (e : endianness) : outcome (bool * Z * buffer) :=
  if negb (buffer_can_read b 2) then mret (false, 0, b)
  else
    v ← match e with
        | BE => read_u16_be (ptr b) (offset b)
        | LE => read_u16_le (ptr b) (offset b)
        end;
    mret (true, v, (buffer_seek_cur b 2).2).

Definition buffer_read_u32 (b : buffer) (e : endianness) : outcome (bool * Z * buffer) :=
  if negb (buffer_can_read b 4) then mret (false, 0, b)
  else
    v ← match e with
        | BE => read_u32_be (ptr b) (offset b)
        | LE => read_u32_le (ptr b) (offset b)
        end;
    mret (true, v, (buffer_seek_cur b 4).2).

Definition buffer_read_u64 (b : buffer) (e : endianness) : outcome (bool * Z * buffer) :=
  if negb (buffer_can_read b 8) then mret (false, 0, b)
  else
    v ← match e with
        | BE => read_u64_be (ptr b) (offset b)
        | LE => read_u64_le (ptr b) (offset b)
        end;
    mret (true, v, (buffer_seek_cur b 8).2).

Definition buffer_read_varint (b : buffer) : outcome (bool * Z * buffer) :=
  '(length, value) ← varint_read (buffer_get_cur b) (size_t (size b - offset b));
  if length <? 0 then mret (false, 0, b)
  else mret (true, default 0 value, (buffer_seek_cur b length).2).

Definition buffer_read_bip32_path (b : buffer) (out_len : Z) : outcome (option (list Z) * buffer) :=
  r ← bip32_path_read (buffer_get_cur b) (size_t (size b - offset b)) out_len;
  match r with
  | None => mret (None, b)
  | Some out => mret (Some out, (buffer_seek_cur b (size_t (4 * out_len))).2)
  end.

Definition buffer_read_bytes (b : buffer) (n : Z) : outcome (option (list Z) * buffer) :=
  if size_t (size b - offset b) <? n then mret (None, b)
  else out ← loads (ptr b) (offset b) n; mret (Some out, (buffer_seek_cur b n).2).

(** The buffer after a write to its memory object. *)
Definition set_ptr (b : buffer) (p : list Z) : buffer := mk_buffer p (size b) (offset b).

Definition buffer_write_u8 (b : buffer) (value : Z) : outcome (bool * buffer) :=
  if negb (buffer_can_read b 1) then mret (false, b)
  else p ← store (ptr b) (offset b) value; mret (true, (buffer_seek_cur (set_ptr b p) 1).2).

Definition buffer_write_u16 (b : buffer) (value : Z) (e : endianness) : outcome (bool * buffer) :=
  if negb (buffer_can_read b 2) then mret (false, b)
  else
    p ← match e with
        | BE => write_u16_be (ptr b) (offset b) value
        | LE => write_u16_le (ptr b) (offset b) value
        end;
    mret (true, (buffer_seek_cur (set_ptr b p) 2).2).

Definition buffer_write_u32 (b : buffer) (value : Z) (e : endianness) : outcome (bool * buffer) :=
  if negb (buffer_can_read b 4) then mret (false, b)
  else
    p ← match e with
        | BE => write_u32_be (ptr b) (offset b) value
        | LE => write_u32_le (ptr b) (offset b) value
        end;
    mret (true, (buffer_seek_cur (set_ptr b p) 4).2).

Definition buffer_write_u64 (b : buffer) (value : Z) (e : endianness) : outcome (bool * buffer) :=
  if negb (buffer_can_read b 8) then mret (false, b)
  else
    p ← match e with
        | BE => write_u64_be (ptr b) (offset b) value
        | LE => write_u64_le (ptr b) (offset b) value
        end;
    mret (true, (buffer_seek_cur (set_ptr b p) 8).2).

Definition buffer_write_bytes (b : buffer) (data : list Z) (n : Z) : outcome (bool * buffer) :=
  if negb (buffer_can_read b n) then mret (false, b)
  else
    src ← loads data 0 n;
    p ← stores (ptr b) (offset b) src;
    mret (true, (buffer_seek_cur (set_ptr b p) n).2).

(** [base] is the address of the memory object; the result is the position of
    the allocated block in it. *)
Definition buffer_alloc (base : Z) (b : buffer) (sz : Z) (aligned : bool) : option Z * buffer :=
  let d := size_t (base + offset b) `mod` 4 in
  let padding_size := if aligned then (if negb (d =? 0) then 4 - d else 0) else 0 in
  if negb (buffer_can_read b (size_t (padding_size + sz))) then (None, b)
  else (Some (offset b + padding_size), (buffer_seek_cur b (size_t (padding_size + sz))).2).

Definition buffer_is_cur_aligned (base : Z) (b : buffer) : bool :=
  size_t (base + offset b) `mod` 4 =? 0.

(** ** common/parser.c *)
Definition dbuffer : Type := buffer * buffer.

Definition dbuffer_get_length (bs : dbuffer) : Z :=
  size_t (size_t (size bs.1 - offset bs.1) + size_t (size bs.2 - offset bs.2)).

Definition dbuffer_can_read (bs : dbuffer) (n : Z) : bool := n <=? dbuffer_get_length bs.

(** The reads of the two buffers cannot fail after the length check; a failed
    one would leave the output bytes unset. *)
Definition dbuffer_read_bytes (bs : dbuffer) (n : Z) : outcome (option (list Z) * dbuffer) :=
  let length0 := size_t (size bs.1 - offset bs.1) in
  let length1 := size_t (size bs.2 - offset bs.2) in
  if size_t (length0 + length1) <? n then mret (None, bs)
  else
    let n0 := if n <=? length0 then n else length0 in
    let n1 := n - n0 in
    '(out0, b0) ← (if 0 <? n0 then buffer_read_bytes bs.1 n0 else mret (Some [], bs.1));
    '(out1, b1) ← (if 0 <? n1 then buffer_read_bytes bs.2 n1 else mret (Some [], bs.2));
    mret (Some (default [] out0 ++ default [] out1), (b0, b1)).

Definition dbuffer_read_u8 (bs : dbuffer) : outcome (option Z * dbuffer) :=
  '(out, bs) ← dbuffer_read_bytes bs 1;
  mret (out ≫= head, bs).

Definition dbuffer_read_u16 (bs : dbuffer) (e : endianness) : outcome (option Z * dbuffer) :=
  if negb (dbuffer_can_read bs 2) then mret (None, bs)
  else
    '(tmp, bs) ← dbuffer_read_bytes bs 2;
    v ← match e with
        | BE => read_u16_be (default [] tmp) 0
        | LE => read_u16_le (default [] tmp) 0
        end;
    mret (Some v, bs).

Definition dbuffer_read_u32 (bs : dbuffer) (e : endianness) : outcome (option Z * dbuffer) :=
  if negb (dbuffer_can_read bs 4) then mret (None, bs)
  else
    '(tmp, bs) ← dbuffer_read_bytes bs 4;
    v ← match e with
        | BE => read_u32_be (default [] tmp) 0
        | LE => read_u32_le (default [] tmp) 0
        end;
    mret (Some v, bs).

Definition dbuffer_read_varint (bs : dbuffer) : outcome (option Z * dbuffer) :=
  if negb (dbuffer_can_read bs 1) then mret (None, bs)
  else
    first_byte ← (if buffer_can_read bs.1 1 then load (ptr bs.1) (offset bs.1)
                  else load (ptr bs.2) (offset bs.2));
    let len := if first_byte =? 0xfd then 2
               else if first_byte =? 0xfe then 4
               else if first_byte =? 0xff then 8 else 0 in
    if negb (dbuffer_can_read bs (1 + len)) then mret (None, bs)
    else
      '(r, bs) ← dbuffer_read_u8 bs;
      let first_byte := default first_byte r in
      if first_byte <=? 0xfc then mret (Some first_byte, bs)
      else
        '(d, bs) ← dbuffer_read_bytes bs len;
        data ← stores (replicate 8 0) 0 (default [] d);
        out ← read_u64_le data 0;
        mret (Some out, bs).

Definition parser_consolidate_buffers (bs : dbuffer) (max_size : Z) : outcome (bool * dbuffer) :=
  let length0 := size_t (size bs.1 - offset bs.1) in
  let length1 := size_t (size bs.2 - offset bs.2) in
  if max_size <? size_t (length0 + length1) then mret (false, bs)
  else
    src0 ← loads (ptr bs.1) (offset bs.1) length0;
    p ← stores (ptr bs.1) 0 src0;
    src1 ← loads (ptr bs.2) (offset bs.2) length1;
    p ← stores p length0 src1;
    mret (true, (mk_buffer p (size_t (length0 + length1)) 0, bs.2)).

(** A parsing step of a parser with state [S] returns a negative number on
    error, 0 when it needs more data, and 1 when it is complete. *)
Definition parsing_step (S : Type) : Type := S → dbuffer → outcome (Z * S * dbuffer).

Record parser_context (S : Type) := mk_parser_context { cur_step : Z; pstate : S }.
Arguments mk_parser_context {S} _ _.
Arguments cur_step {S} _.
Arguments pstate {S} _.

Definition parser_init_context {S} (state : S) : parser_context S := mk_parser_context 0 state.

(** The loop of [parser_run] over the steps that remain. *)
Fixpoint parser_run_loop {S} (steps : list (parsing_step S)) (cur : Z) (st : S) (bs : dbuffer)
    : outcome (Z * parser_context S * dbuffer) :=
  match steps with
  | [] => mret (1, mk_parser_context cur st, bs)
  | step_fn :: steps' =>
      '(step_result, st, bs) ← step_fn st bs;
      if step_result <=? 0 then mret (step_result, mk_parser_context cur st, bs)
      else parser_run_loop steps' (cur + 1) st bs
  end.

Definition parser_run {S} (parsing_steps : list (parsing_step S)) (ctx : parser_context S)
    (bs : dbuffer) : outcome (Z * parser_context S * dbuffer) :=
  parser_run_loop (drop (Z.to_nat (cur_step ctx)) parsing_steps) (cur_step ctx) (pstate ctx) bs.

(** ** The abstraction of a buffer *)
Definition wf_buffer (b : buffer) : Prop :=
  0 ≤ offset b ≤ size b ∧ size b ≤ zlen (ptr b) ∧ size b < 2 ^ 32 ∧ bytes_ok (ptr b).

Definition rest (b : buffer) : list Z := slice (ptr b) (offset b) (size b - offset b).

(** The buffer with the cursor moved forward. *)
Definition advance (b : buffer) (n : Z) : buffer := mk_buffer (ptr b) (size b) (offset b + n).

Section single.
Context (b : buffer) (Hb : wf_buffer b).

Lemma rest_zlen : zlen (rest b) = size b - offset b.
Proof. destruct Hb as (?&?&?&?). apply slice_zlen; lia. Qed.

Lemma rest_bytes_ok : bytes_ok (rest b).
Proof. destruct Hb as (?&?&?&?). apply slice_ok. done. Qed.

Lemma left_u32 : size_t (size b - offset b) = zlen (rest b).
Proof. rw rest_zlen. destruct Hb as (?&?&?&?). apply u32_small. lia. Qed.

Lemma can_read_rest n : buffer_can_read b n = (n <=? zlen (rest b)).
Proof. by rw /buffer_can_read left_u32. Qed.

Lemma seek_cur_advance n :
  0 ≤ n ≤ zlen (rest b) → buffer_seek_cur b n = (true, advance b n).
Proof.
  rw rest_zlen. destruct Hb as (?&?&?&?). intros. rw /buffer_seek_cur /advance.
  rw u32_small; [|lia]. by rw (proj2 (Z.ltb_ge _ _)) ?(proj2 (Z.ltb_ge _ _)); [|lia..].
Qed.

Lemma advance_wf n : 0 ≤ n ≤ zlen (rest b) → wf_buffer (advance b n).
Proof. rw rest_zlen. destruct Hb as (?&?&?&?). rw /wf_buffer /=. intros. split_and!; done || lia. Qed.

Lemma rest_advance n : 0 ≤ n ≤ zlen (rest b) → rest (advance b n) = drop (Z.to_nat n) (rest b).
Proof.
  rw rest_zlen. destruct Hb as (?&?&?&?). intros. rw /rest /= /slice.
  rw skipn_firstn_comm drop_drop. f_equal; [lia|]. f_equal. lia.
Qed.

Lemma rest_lookup k : 0 ≤ k < zlen (rest b) →
  load (ptr b) (offset b + k) = load (rest b) k.
Proof.
  rw rest_zlen. destruct Hb as (?&?&?&?). intros.
  rw (load_slice _ _ (size b - offset b)); [|lia..]. rw /load decide_True //. lia.
Qed.

Lemma rest_slice i n : 0 ≤ i → 0 ≤ n → i + n ≤ zlen (rest b) →
  slice (ptr b) (offset b + i) n = slice (rest b) i n.
Proof.
  rw rest_zlen. destruct Hb as (?&?&?&?). intros. rw /rest /slice skipn_firstn_comm drop_drop.
  rw take_take. f_equal; [lia|]. f_equal. lia.
Qed.

Lemma cur_take : take (Z.to_nat (zlen (rest b))) (buffer_get_cur b) = rest b.
Proof. by rw rest_zlen /rest /slice /buffer_get_cur. Qed.

Lemma cur_zlen : zlen (rest b) ≤ zlen (buffer_get_cur b).
Proof. rw rest_zlen /buffer_get_cur. destruct Hb as (?&?&?&?). rw zlen_drop; lia. Qed.

Lemma cur_bytes_ok : bytes_ok (buffer_get_cur b).
Proof. destruct Hb as (?&?&?&?). rw /buffer_get_cur. auto with ledger. Qed.
End single.

(** ** Sources of bytes

    A decoder works on a list and returns a value and what follows it, or
    [None] when the list is too short.  A reader of a source implements a
    decoder when it does to the source what the decoder does to its
    abstraction, and leaves the source unchanged on failure. *)
Definition decoder (A : Type) : Type := list Z → option (A * list Z).

Class ByteSource (S : Type) := {
  src_wf : S → Prop;
  src_rest : S → list Z;
  src_bytes_ok : ∀ s, src_wf s → bytes_ok (src_rest s)
}.

Definition implements {S A} `{ByteSource S} (rd : S → outcome (option A * S)) (dec : decoder A) : Prop :=
  ∀ s, src_wf s →
    match dec (src_rest s) with
    | Some (a, r) => ∃ s', rd s = Val (Some a, s') ∧ src_wf s' ∧ src_rest s' = r
    | None => rd s = Val (None, s)
    end.

Definition bytes_dec (n : Z) : decoder (list Z) := λ l,
  if zlen l <? n then None else Some (take (Z.to_nat n) l, drop (Z.to_nat n) l).

(** A number of [n] bytes. *)
Definition uint_dec (e : endianness) (n : Z) : decoder Z := λ l,
  '(d, r) ← bytes_dec n l; Some (match e with BE => be_val d | LE => le_val d end, r).

#[global] Instance buffer_source : ByteSource buffer :=
  {| src_wf := wf_buffer; src_rest := rest; src_bytes_ok := rest_bytes_ok |}.

(** The reads of [buffer.c] that return a boolean and a value. *)
Definition as_read (m : outcome (bool * Z * buffer)) : outcome (option Z * buffer) :=
  m ≫= λ r : bool * Z * buffer, mret (if r.1.1 then Some r.1.2 else None, r.2).

Lemma bytes_dec_Some n l d r :
  0 ≤ n → bytes_dec n l = Some (d, r) →
  n ≤ zlen l ∧ d = take (Z.to_nat n) l ∧ r = drop (Z.to_nat n) l.
Proof. rw /bytes_dec. case_match; [done|]. intros ? [= <- <-]. split_and!; [lia|done..]. Qed.

Lemma buffer_read_bytes_implements n :
  0 ≤ n → implements (λ b, buffer_read_bytes b n) (bytes_dec n).
Proof.
  intros Hn b Hb. simpl. rw /buffer_read_bytes left_u32 // /bytes_dec.
  destruct (Z.ltb_spec (zlen (rest b)) n) as [|Hle]; [done|].
  exists (advance b n). rw seek_cur_advance //.
  split_and!; [|by apply advance_wf|by apply rest_advance].
  pose proof Hb as (?&?&?&?). rw rest_zlen // in Hle.
  rw loads_in_range; [|lia..]. simpl. do 3 f_equal.
  change (slice (ptr b) (offset b) n = slice (rest b) 0 n).
  rw -(rest_slice b Hb 0 n) ?Z.add_0_r //. rw rest_zlen //.
Qed.

Definition u8_dec : decoder Z := λ l, match l with [] => None | v :: r => Some (v, r) end.

Lemma buffer_read_u8_implements : implements (λ b, as_read (buffer_read_u8 b)) u8_dec.
Proof.
  intros b Hb. simpl. rw /buffer_read_u8 can_read_rest //.
  destruct (rest b) as [|v r] eqn:Hr; simpl; [done|].
  rw zlen_cons (proj2 (Z.leb_le _ _)); [|pose proof (zlen_nonneg r); lia].
  assert (1 ≤ zlen (rest b)) by (rw Hr zlen_cons; pose proof (zlen_nonneg r); lia).
  rw -{1}(Z.add_0_r (offset b)) rest_lookup //; [|lia]. rw Hr /=.
  exists (advance b 1). rw seek_cur_advance //.
  split_and!; [done|by apply advance_wf|]. by rw rest_advance // Hr.
Qed.

(** Reduces a fixed-width read of a buffer to its decoder. *)
Lemma fixed_read_implements (rd : buffer → outcome Z) (e : endianness) n b :
  0 < n → wf_buffer b →
  (n ≤ zlen (rest b) → rd b = Val (match e with BE => be_val | LE => le_val end (slice (rest b) 0 n))) →
  match uint_dec e n (rest b) with
  | Some (v, r) => ∃ b', as_read (if negb (buffer_can_read b n) then mret (false, 0, b)
                          else v ← rd b; mret (true, v, (buffer_seek_cur b n).2)) = Val (Some v, b')
                   ∧ wf_buffer b' ∧ rest b' = r
  | None => as_read (if negb (buffer_can_read b n) then mret (false, 0, b)
                     else v ← rd b; mret (true, v, (buffer_seek_cur b n).2)) = Val (None, b)
  end.
Proof.
  intros Hn Hb Hrd. rw can_read_rest // /uint_dec /bytes_dec.
  destruct (Z.ltb_spec (zlen (rest b)) n) as [Hlt|Hle]; simpl.
  - by rw (proj2 (Z.leb_gt _ _)).
  - rw (proj2 (Z.leb_le _ _)) // Hrd //=. exists (advance b n). rw seek_cur_advance //; [|lia].
    split_and!; [by destruct e|apply advance_wf; lia || done|apply rest_advance; lia || done].
Qed.

Lemma buffer_read_u16_implements e : implements (λ b, as_read (buffer_read_u16 b e)) (uint_dec e 2).
Proof.
  intros b Hb. apply (fixed_read_implements (λ b, match e with BE => read_u16_be (ptr b) (offset b)
    | LE => read_u16_le (ptr b) (offset b) end)); [done..|]. intros Hl.
  pose proof Hb as (?&?&?&?). pose proof Hl as Hl'. rw rest_zlen // in Hl'.
  rw -(rest_slice b Hb 0 2) // Z.add_0_r.
  destruct e; [rw read_u16_be_val|rw read_u16_le_val]; done || lia.
Qed.

Lemma buffer_read_u32_implements e : implements (λ b, as_read (buffer_read_u32 b e)) (uint_dec e 4).
Proof.
  intros b Hb. apply (fixed_read_implements (λ b, match e with BE => read_u32_be (ptr b) (offset b)
    | LE => read_u32_le (ptr b) (offset b) end)); [done..|]. intros Hl.
  pose proof Hb as (?&?&?&?). pose proof Hl as Hl'. rw rest_zlen // in Hl'.
  rw -(rest_slice b Hb 0 4) // Z.add_0_r.
  destruct e; [rw read_u32_be_val|rw read_u32_le_val]; done || lia.
Qed.

Lemma buffer_read_u64_implements e : implements (λ b, as_read (buffer_read_u64 b e)) (uint_dec e 8).
Proof.
  intros b Hb. apply (fixed_read_implements (λ b, match e with BE => read_u64_be (ptr b) (offset b)
    | LE => read_u64_le (ptr b) (offset b) end)); [done..|]. intros Hl.
  pose proof Hb as (?&?&?&?). pose proof Hl as Hl'. rw rest_zlen // in Hl'.
  rw -(rest_slice b Hb 0 8) // Z.add_0_r.
  destruct e; [rw read_u64_be_val|rw read_u64_le_val]; done || lia.
Qed.

Lemma varint_dec_drop l v r :
  varint_dec l = Some (v, r) → r = drop (Z.to_nat (zlen l - zlen r)) l ∧ 0 < zlen l - zlen r ≤ zlen l.
Proof.
  destruct l as [|p l]; [done|]. cbn [varint_dec]. pose proof (varint_payload_range p).
  pose proof (zlen_nonneg l). rw zlen_cons. case_match; [|case_match; [done|]].
  - intros [= <- <-]. replace (Z.to_nat _) with 1%nat by lia. rw /= drop_0. split; [done|lia].
  - intros [= <- <-]. rw zlen_drop; [|lia].
    replace (Z.to_nat (1 + _ - _)) with (S (Z.to_nat (varint_payload p))) by lia. split; [done|lia].
Qed.

Lemma buffer_read_varint_implements : implements (λ b, as_read (buffer_read_varint b)) varint_dec.
Proof.
  intros b Hb. simpl. rw /buffer_read_varint left_u32 //.
  pose proof (zlen_nonneg (rest b)). pose proof (cur_zlen b Hb).
  rw varint_read_dec; [|by apply cur_bytes_ok|lia]. rw cur_take //.
  destruct (varint_dec (rest b)) as [[v r]|] eqn:Hd; simpl; [|done].
  apply varint_dec_drop in Hd as [Hr Hl].
  rw (proj2 (Z.ltb_ge _ _)); [|lia]. exists (advance b (zlen (rest b) - zlen r)).
  rw seek_cur_advance //; [|lia]. split_and!; [done|apply advance_wf; done || lia|].
  rw rest_advance //. lia.
Qed.

(** ** Pairs of buffers *)
Definition wf_dbuffer (bs : dbuffer) : Prop :=
  wf_buffer bs.1 ∧ wf_buffer bs.2 ∧ zlen (rest bs.1) + zlen (rest bs.2) < 2 ^ 32.

Definition drest (bs : dbuffer) : list Z := rest bs.1 ++ rest bs.2.

Lemma drest_bytes_ok bs : wf_dbuffer bs → bytes_ok (drest bs).
Proof. intros (?&?&?). apply bytes_ok_app. auto using rest_bytes_ok. Qed.

#[global] Instance dbuffer_source : ByteSource dbuffer :=
  {| src_wf := wf_dbuffer; src_rest := drest; src_bytes_ok := drest_bytes_ok |}.

Lemma dbuffer_length bs : wf_dbuffer bs → dbuffer_get_length bs = zlen (drest bs).
Proof.
  intros (?&?&?). rw /dbuffer_get_length !left_u32 // zlen_app u32_small //.
  pose proof (zlen_nonneg (rest bs.1)). pose proof (zlen_nonneg (rest bs.2)). lia.
Qed.

(** Reading a prefix of a single buffer, possibly of length 0. *)
Lemma read_prefix b n :
  wf_buffer b → 0 ≤ n ≤ zlen (rest b) →
  (if 0 <? n then buffer_read_bytes b n else mret (Some [], b)) =
    Val (Some (take (Z.to_nat n) (rest b)), advance b n).
Proof.
  intros Hb Hn. destruct (Z.ltb_spec 0 n).
  - pose proof (buffer_read_bytes_implements n ltac:(lia) b Hb) as H0. revert H0. simpl.
    rw /bytes_dec (proj2 (Z.ltb_ge _ _)); [|lia]. intros (b' & Heq & _). rw Heq. do 2 f_equal.
    revert Heq. rw /buffer_read_bytes left_u32 // (proj2 (Z.ltb_ge _ _)); [|lia].
    intros Heq. inv_bind Heq. simpl in Heq. rw seek_cur_advance // in Heq. by injection Heq as ? ->.
  - assert (n = 0) as -> by lia. rw /advance Z.add_0_r. by destruct b.
Qed.

Lemma dbuffer_read_bytes_implements n :
  0 ≤ n → implements (λ bs, dbuffer_read_bytes bs n) (bytes_dec n).
Proof.
  intros Hn bs Hbs. pose proof Hbs as (H0 & H1 & Hsum). simpl.
  pose proof (dbuffer_length bs Hbs) as Hlen. unfold dbuffer_get_length in Hlen.
  rw /dbuffer_read_bytes Hlen /bytes_dec.
  destruct (Z.ltb_spec (zlen (drest bs)) n) as [|Hle]; [done|].
  rw /drest zlen_app in Hle. rw !left_u32 //. zlen_facts.
  set (n0 := if n <=? zlen (rest bs.1) then n else zlen (rest bs.1)).
  assert (n0 = Z.min n (zlen (rest bs.1))) as Hn0.
  { rw /n0. destruct (Z.leb_spec n (zlen (rest bs.1))); lia. }
  clearbody n0. rw (read_prefix bs.1 n0) //; [|lia]. simpl.
  rw (read_prefix bs.2 (n - n0)) //; [|lia]. simpl.
  exists (advance bs.1 n0, advance bs.2 (n - n0)). split_and!.
  - do 3 f_equal. rw /drest take_app. f_equal; [|f_equal; unfold zlen in *; lia].
    destruct (decide (n ≤ zlen (rest bs.1))); [by rw Hn0 Z.min_l|].
    rw !take_ge //; unfold zlen in *; lia.
  - split_and!; [apply advance_wf; done || lia..|]. simpl.
    rw !rest_advance //; [|lia..]. rw !zlen_drop; lia.
  - rw /drest /= !rest_advance //; [|lia..]. rw drop_app. f_equal; [|f_equal; unfold zlen in *; lia].
    destruct (decide (n ≤ zlen (rest bs.1))); [by rw Hn0 Z.min_l|].
    rw !drop_ge //; unfold zlen in *; lia.
Qed.

Lemma slice_all l : slice l 0 (zlen l) = l.
Proof. by rw /slice zlen_length /= drop_0 firstn_all. Qed.

Lemma dbuffer_read_u8_implements : implements dbuffer_read_u8 u8_dec.
Proof.
  intros bs Hbs. pose proof (dbuffer_read_bytes_implements 1 ltac:(lia) bs Hbs) as H. revert H.
  rw /dbuffer_read_u8 /bytes_dec. destruct (src_rest bs) as [|v r]; simpl.
  - by intros ->.
  - rw zlen_cons (proj2 (Z.ltb_ge _ _)); [|zlia]. intros (bs' & -> & ? & ?). by exists bs'.
Qed.

(** Reduces a fixed-width read of a pair of buffers to its decoder. *)
Lemma dfixed_read_implements (rd : list Z → outcome Z) e n :
  0 < n →
  (∀ l, bytes_ok l → zlen l = n → rd l = Val (match e with BE => be_val l | LE => le_val l end)) →
  implements (λ bs, if negb (dbuffer_can_read bs n) then mret (None, bs)
    else '(tmp, bs) ← dbuffer_read_bytes bs n; v ← rd (default [] tmp); mret (Some v, bs))
    (uint_dec e n).
Proof.
  intros Hn Hrd bs Hbs. pose proof (dbuffer_read_bytes_implements n ltac:(lia) bs Hbs) as H.
  revert H. simpl. pose proof (dbuffer_length bs Hbs) as Hlen.
  rw /dbuffer_can_read Hlen /uint_dec /bytes_dec.
  destruct (Z.ltb_spec (zlen (drest bs)) n) as [|Hle].
  - intros _. by rw (proj2 (Z.leb_gt _ _)).
  - rw (proj2 (Z.leb_le _ _)) //=. intros (bs' & -> & ? & ?). exists bs'. simpl.
    rw Hrd //.
    + apply bytes_ok_take. by apply drest_bytes_ok.
    + apply zlen_take. lia.
Qed.

Lemma dbuffer_read_u16_implements e : implements (λ bs, dbuffer_read_u16 bs e) (uint_dec e 2).
Proof.
  apply (dfixed_read_implements (λ l, match e with BE => read_u16_be l 0 | LE => read_u16_le l 0 end));
    [done|]. intros l ? Hl.
  destruct e; [rw read_u16_be_val|rw read_u16_le_val]; rw // -?Hl ?slice_all //; lia.
Qed.

Lemma dbuffer_read_u32_implements e : implements (λ bs, dbuffer_read_u32 bs e) (uint_dec e 4).
Proof.
  apply (dfixed_read_implements (λ l, match e with BE => read_u32_be l 0 | LE => read_u32_le l 0 end));
    [done|]. intros l ? Hl.
  destruct e; [rw read_u32_be_val|rw read_u32_le_val]; rw // -?Hl ?slice_all //; lia.
Qed.

Lemma drest_first bs :
  wf_dbuffer bs → 1 ≤ zlen (drest bs) →
  (if buffer_can_read bs.1 1 then load (ptr bs.1) (offset bs.1)
   else load (ptr bs.2) (offset bs.2)) = load (drest bs) 0.
Proof.
  intros (H0 & H1 & _) Hl. rw /drest zlen_app in Hl. rw can_read_rest //.
  destruct (Z.leb_spec 1 (zlen (rest bs.1))).
  - rw -{1}(Z.add_0_r (offset bs.1)) rest_lookup //; [|lia]. rw /drest load_app_l //. lia.
  - rw -{1}(Z.add_0_r (offset bs.2)) rest_lookup //; [|zlia].
    destruct (rest bs.1) eqn:E; [by rw /drest E|zlia].
Qed.

(** The value of a varint's payload in the zeroed 8-byte array. *)
Lemma le_val_zeros n : le_val (replicate n 0) = 0.
Proof. induction n as [|n IH]; [done|]. cbn [replicate le_val]. lia. Qed.

Lemma payload_value d :
  bytes_ok d → zlen d ≤ 8 →
  (data ← stores (replicate 8 0) 0 d; read_u64_le data 0) = Val (le_val d).
Proof.
  intros Hd Hl. assert (zlen (replicate 8 0) = 8) as H8 by done.
  rw stores_in_range; [|lia|lia]. cbn [mbind outcome_bind].
  change (take (Z.to_nat 0) (replicate 8 0)) with (@nil Z). rw app_nil_l Nat.add_0_l.
  assert (drop (length d) (replicate 8 0) = replicate (8 - length d) 0) as ->.
  { by rw drop_replicate. }
  set (l := d ++ _). assert (zlen l = 8) as Hlen.
  { rw /l zlen_app /zlen length_replicate. unfold zlen in Hl. lia. }
  assert (bytes_ok l) as Hok.
  { apply bytes_ok_app. split; [done|]. by apply Forall_replicate. }
  rw read_u64_le_val //; [|lia]. rw -Hlen slice_all /l le_val_app le_val_zeros. f_equal. lia.
Qed.

Lemma dbuffer_read_varint_implements : implements dbuffer_read_varint varint_dec.
Proof.
  intros bs Hbs. simpl. pose proof (dbuffer_length bs Hbs) as Hlen.
  pose proof (drest_bytes_ok bs Hbs) as Hok.
  rw /dbuffer_read_varint /dbuffer_can_read Hlen.
  destruct (Z.leb_spec 1 (zlen (drest bs))) as [H1|H0].
  2:{ destruct (drest bs) eqn:E; [done|]. zlia. }
  cbn [negb]. rw drest_first //. pose proof (dbuffer_read_u8_implements bs Hbs) as Hu8.
  revert Hu8. simpl. destruct (drest bs) as [|p r] eqn:Hr; [zlia|]. clear Hlen.
  cbn [u8_dec load]. intros (bs' & Hrd & Hwf' & Hr').
  change (load (p :: r) 0) with (Val p). cbn [mbind outcome_bind varint_dec].
  change (if p =? 253 then 2 else if p =? 254 then 4 else if p =? 255 then 8 else 0)
    with (varint_payload p).
  apply Forall_cons in Hok as [Hp Hokr]. unfold byte_ok in Hp. rw zlen_cons.
  pose proof (varint_payload_range p) as Hpay.
  destruct (Z.eqb_spec (varint_payload p) 0) as [H0|Hk].
  - rw H0 (proj2 (Z.leb_le _ _)); [|zlia]. cbn [negb]. rw Hrd /=.
    assert (p <= 252) by (revert H0; rw /varint_payload; repeat case_match; lia).
    rw (proj2 (Z.leb_le _ _)) //. by exists bs'.
  - destruct (Z.ltb_spec (zlen r) (varint_payload p)) as [Hlt|Hge].
    + by rw (proj2 (Z.leb_gt _ _)); [|lia].
    + rw (proj2 (Z.leb_le _ _)); [|lia]. cbn [negb]. rw Hrd /=.
      assert (252 < p) by (revert Hk; rw /varint_payload; repeat case_match; lia).
      rw (proj2 (Z.leb_gt _ _)) //.
      pose proof (dbuffer_read_bytes_implements (varint_payload p) ltac:(lia) bs' Hwf') as Hb.
      revert Hb. simpl. rw Hr' /bytes_dec (proj2 (Z.ltb_ge _ _)) //.
      intros (bs'' & -> & ? & ?). cbn [mbind outcome_bind default]. exists bs''.
      pose proof (payload_value (take (Z.to_nat (varint_payload p)) r)) as Hv.
      destruct (stores _ 0 _) as [data| | |] eqn:Hst; cbn [mbind outcome_bind] in Hv |- *.
      * rw Hv; [done|auto with ledger|rw zlen_take; lia].
      * discriminate Hv; [auto with ledger|rw zlen_take; lia].
      * discriminate Hv; [auto with ledger|rw zlen_take; lia].
      * discriminate Hv; [auto with ledger|rw zlen_take; lia].
Qed.

(** Two sources with the same remaining bytes cannot be told apart by readers
    that implement the same decoder. *)
Definition agree {S1 S2 A} `{ByteSource S1, ByteSource S2}
    (rd1 : S1 → outcome (option A * S1)) (rd2 : S2 → outcome (option A * S2)) (s1 : S1) (s2 : S2) : Prop :=
  ∃ r s1' s2', rd1 s1 = Val (r, s1') ∧ rd2 s2 = Val (r, s2') ∧
    src_wf s1' ∧ src_wf s2' ∧ src_rest s1' = src_rest s2'.

Lemma implements_agree {S1 S2 A} `{ByteSource S1, ByteSource S2}
    (rd1 : S1 → outcome (option A * S1)) (rd2 : S2 → outcome (option A * S2))
    (dec : decoder A) (s1 : S1) (s2 : S2) :
  implements rd1 dec → implements rd2 dec → src_wf s1 → src_wf s2 → src_rest s1 = src_rest s2 →
  agree rd1 rd2 s1 s2.
Proof.
  rw /agree. intros H1 H2 Hw1 Hw2 Heq. specialize (H1 s1 Hw1). specialize (H2 s2 Hw2). rewrite Heq in H1.
  destruct (dec (src_rest s2)) as [[a r]|].
  - destruct H1 as (s1' & ? & ? & ?), H2 as (s2' & ? & ? & ?).
    exists (Some a), s1', s2'. split_and!; congruence.
  - exists None, s1, s2. done.
Qed.

(** ** Writes *)
Definition written (b : buffer) : list Z := take (Z.to_nat (offset b)) (ptr b).

Lemma set_ptr_wf b p :
  wf_buffer b → zlen p = zlen (ptr b) → bytes_ok p → wf_buffer (set_ptr b p).
Proof. rw /wf_buffer /=. intros (?&?&?&?) -> ?. split_and!; done || lia. Qed.

(** Storing [l] at the cursor and moving the cursor after it. *)
Lemma store_advance b l :
  wf_buffer b → bytes_ok l → zlen l ≤ zlen (rest b) →
  ∃ p, stores (ptr b) (offset b) l = Val p ∧
    let b' := (buffer_seek_cur (set_ptr b p) (zlen l)).2 in
    wf_buffer b' ∧ written b' = written b ++ l ∧
    size b' = size b ∧ offset b' = offset b + zlen l.
Proof.
  intros Hb Hl. rw rest_zlen // => Hle. pose proof Hb as (?&?&?&?). zlen_facts.
  eexists. split; [by rw stores_in_range; [|lia..]|].
  set (p := _ ++ _). assert (stores (ptr b) (offset b) l = Val p) as Hst by (rw stores_in_range //; lia).
  assert (wf_buffer (set_ptr b p)) as Hwf.
  { apply set_ptr_wf; [done|by eapply stores_length|]. exact (stores_bytes_ok _ _ _ _ H2 Hl Hst). }
  rw seek_cur_advance // /=; [|rw rest_zlen //=; lia].
  split_and!; [apply advance_wf; [done|rw rest_zlen //=; lia]| |done|done].
  rw /written /p /=. rw app_assoc take_app_length' //.
  rw length_app length_take. unfold zlen in *. lia.
Qed.

Lemma buffer_write_bytes_spec b data n :
  wf_buffer b → bytes_ok data → 0 ≤ n ≤ zlen data →
  if decide (n ≤ zlen (rest b)) then
    ∃ b', buffer_write_bytes b data n = Val (true, b') ∧ wf_buffer b' ∧
      written b' = written b ++ take (Z.to_nat n) data ∧
      size b' = size b ∧ offset b' = offset b + n
  else buffer_write_bytes b data n = Val (false, b).
Proof.
  intros Hb Hd Hn. rw /buffer_write_bytes can_read_rest //. case_decide as Hle.
  - rw (proj2 (Z.leb_le _ _)) //=. rw loads_in_range; [|lia..]. cbn [mbind outcome_bind].
    change (drop (Z.to_nat 0) data) with data.
    assert (zlen (take (Z.to_nat n) data) = n) as Hz by (apply zlen_take; lia).
    destruct (store_advance b (take (Z.to_nat n) data)) as (p & Hst & Hb'); [done|auto with ledger|lia|].
    rw Hst /=. rewrite Hz in Hb'. eexists. split; [done|]. exact Hb'.
  - by rw (proj2 (Z.leb_gt _ _)); [|lia].
Qed.

Lemma loads_rest b : wf_buffer b → loads (ptr b) (offset b) (zlen (rest b)) = Val (rest b).
Proof.
  intros Hb. pose proof Hb as (?&?&?&?). rw rest_zlen // loads_in_range //; lia.
Qed.

Lemma parser_consolidate_spec bs max_size :
  wf_dbuffer bs → zlen (drest bs) ≤ max_size → max_size ≤ zlen (ptr bs.1) →
  ∃ b', parser_consolidate_buffers bs max_size = Val (true, (b', bs.2)) ∧
    wf_buffer b' ∧ rest b' = drest bs ∧ offset b' = 0.
Proof.
  intros Hbs Hmax Hcap. pose proof Hbs as (H0 & H1 & _).
  pose proof (dbuffer_length bs Hbs) as Hlen. unfold dbuffer_get_length in Hlen.
  rw /parser_consolidate_buffers Hlen (proj2 (Z.ltb_ge _ _)) // !left_u32 //.
  pose proof H0 as (?&?&?&Hok0). pose proof H1 as (?&?&?&Hok1).
  pose proof (rest_zlen _ H0) as Hl0. pose proof (rest_zlen _ H1) as Hl1.
  pose proof (dbuffer_length bs Hbs) as Hlen'. rw /drest zlen_app in Hmax Hlen'.
  pose proof (u32_range (u32 (size bs.1 - offset bs.1) + u32 (size bs.2 - offset bs.2))) as Hr.
  rw !loads_rest //. cbn [mbind outcome_bind].
  rw stores_in_range; [|zlia..]. cbn [mbind outcome_bind].
  change (take (Z.to_nat 0) (ptr bs.1)) with (@nil Z). rw app_nil_l Nat.add_0_l.
  set (p := rest bs.1 ++ _).
  assert (zlen p = zlen (ptr bs.1)) as Hp.
  { rw /p zlen_app /zlen length_drop. unfold zlen in *. lia. }
  rw stores_in_range; [|zlia|zlia]. cbn [mbind outcome_bind].
  rw {1}/p zlen_length take_app_length. eexists. split; [done|].
  assert (zlen (drest bs) = zlen (rest bs.1) + zlen (rest bs.2)) as Hd by apply zlen_app.
  split_and!; [|..|done].
  - split_and!; simpl; [lia|zlia|..].
    + rw !zlen_app. rw /zlen length_drop. unfold zlen in *. lia.
    + rw -Hlen. apply u32_range.
    + rw !bytes_ok_app. split_and!; auto using rest_bytes_ok.
      apply bytes_ok_drop. rw /p bytes_ok_app. auto using rest_bytes_ok with ledger.
  - rw /rest /slice /= Z.sub_0_r drop_0 app_assoc -/(drest bs) zlen_length. by rw take_app_length.
Qed.

(** ** Properties *)

(** On a well-formed buffer each read of buffer.c returns the decoding of
    the bytes between the cursor and the end and moves the cursor after it, or
    fails and leaves the buffer as it was when they are too few; no read
    accesses a byte outside of the buffer. *)
Lemma buffer_reads_correct e n :
  0 ≤ n →
  implements (λ b, buffer_read_bytes b n) (bytes_dec n) ∧
  implements (λ b, as_read (buffer_read_u8 b)) u8_dec ∧
  implements (λ b, as_read (buffer_read_u16 b e)) (uint_dec e 2) ∧
  implements (λ b, as_read (buffer_read_u32 b e)) (uint_dec e 4) ∧
  implements (λ b, as_read (buffer_read_u64 b e)) (uint_dec e 8) ∧
  implements (λ b, as_read (buffer_read_varint b)) varint_dec.
Proof.
  intros. split_and!;
    auto using buffer_read_bytes_implements, buffer_read_u8_implements, buffer_read_u16_implements,
      buffer_read_u32_implements, buffer_read_u64_implements, buffer_read_varint_implements.
Qed.

(** Reading through a pair of buffers is reading from one buffer that holds
    the concatenation of their remaining bytes: same value or same failure,
    and the remaining bytes stay equal, however the bytes are split. *)
Lemma dbuffer_refines_concatenation e n (bs : dbuffer) (b : buffer) :
  0 ≤ n → wf_dbuffer bs → wf_buffer b → drest bs = rest b →
  agree (λ bs, dbuffer_read_bytes bs n) (λ b, buffer_read_bytes b n) bs b ∧
  agree dbuffer_read_u8 (λ b, as_read (buffer_read_u8 b)) bs b ∧
  agree (λ bs, dbuffer_read_u16 bs e) (λ b, as_read (buffer_read_u16 b e)) bs b ∧
  agree (λ bs, dbuffer_read_u32 bs e) (λ b, as_read (buffer_read_u32 b e)) bs b ∧
  agree dbuffer_read_varint (λ b, as_read (buffer_read_varint b)) bs b.
Proof.
  intros. split_and!.
  - by apply (implements_agree _ _ (bytes_dec n)); auto using dbuffer_read_bytes_implements, buffer_read_bytes_implements.
  - by apply (implements_agree _ _ u8_dec); auto using dbuffer_read_u8_implements, buffer_read_u8_implements.
  - by apply (implements_agree _ _ (uint_dec e 2)); auto using dbuffer_read_u16_implements, buffer_read_u16_implements.
  - by apply (implements_agree _ _ (uint_dec e 4)); auto using dbuffer_read_u32_implements, buffer_read_u32_implements.
  - by apply (implements_agree _ _ varint_dec); auto using dbuffer_read_varint_implements, buffer_read_varint_implements.
Qed.
