(* ===== verification/Merkle.v ===== *)
(** * Merkle trees

    Models src/src/common/merkle.c and merkle.h: the hashes of leaves and
    internal nodes, [ceil_lg], and the directions from the root of a tree to a
    leaf.  The specification is the Merkle tree of RFC 6962, [build], and its
    root; the theorems relate the directions to the tree, and show that a
    Merkle proof that hashes to the root of a tree is a proof of a node of that
    tree, or exhibits a collision of the hash function.

    SHA-256 is the hash of the device's library: a parameter of the model, with
    its output size as the only hypothesis. *)

From S2P Require Import Prelude Bytes.

(** ** common/merkle.h *)
Definition MAX_MERKLE_TREE_DEPTH : Z := 32.

Record merkleized_map_commitment := mk_commitment {
  map_size : Z;
  keys_root : list Z;
  values_root : list Z
}.
Global Instance merkleized_map_commitment_eq_dec : EqDecision merkleized_map_commitment.
Proof. solve_decision. Defined.

(** The loop of [ceil_lg], with its 32-bit [t] and 8-bit [r]. *)
Fixpoint ceil_lg_loop (fuel : nat) (n t r : Z) : outcome Z :=
  match fuel with
  | O => OutOfFuel
  | S f => if t <? n then ceil_lg_loop f n (u32 (2 * t)) (u8 (r + 1)) else mret r
  end.

(** 33 iterations: [t] is 0 after 32 doublings. *)
Definition ceil_lg (n : Z) : outcome Z := ceil_lg_loop 33 n 1 0.

(** ** common/merkle.c *)

(** The loop of [merkle_get_ith_direction]; [n_directions] is 8 bits wide. *)
Fixpoint direction_loop (fuel : nat) (size index i n_directions : Z) : outcome Z :=
  match fuel with
  | O => OutOfFuel
  | S f =>
      if 1 <? size then
        depth ← ceil_lg size;
        let mask := u32 (Z.shiftl 1 (depth - 1)) in
        let is_right_child := if negb (Z.land index mask =? 0) then 1 else 0 in
        if n_directions =? i then mret is_right_child
        else if negb (is_right_child =? 0)
        then direction_loop f (size_t (size - mask)) (size_t (index - mask)) i (u8 (n_directions + 1))
        else direction_loop f mask index i (u8 (n_directions + 1))
      else mret (-1)
  end.

(** 33 iterations: the depth of the current subtree decreases at each one. *)
Definition merkle_get_ith_direction (size index i : Z) : outcome Z :=
  if (size <=? 1) || (size <=? index) then mret (-1)
  else direction_loop 33 size index i 0.

Section hashing.
Context (sha256 : list Z → list Z).

(** The hash context of the SDK is the list of the bytes added to it. *)
Definition merkle_compute_element_hash (in_ : list Z) : list Z := sha256 ([0x00] ++ in_).
Definition merkle_combine_hashes (left right : list Z) : list Z :=
  sha256 ([0x01] ++ left ++ right).
End hashing.

(** ** Logarithms *)
Lemma u32_double k : 0 ≤ k < 31 → u32 (2 * 2 ^ k) = 2 ^ (k + 1).
Proof.
  intros. rw Z.add_1_r Z.pow_succ_r; [|lia]. rw u32_small //.
  assert (2 ^ k < 2 ^ 31) by (apply Z.pow_lt_mono_r; lia). lia.
Qed.

Lemma ceil_lg_loop_spec f n k d :
  0 ≤ k ≤ d → d ≤ 31 → n ≤ 2 ^ d → (d = 0 ∨ 2 ^ (d - 1) < n) → d - k < Z.of_nat f →
  ceil_lg_loop f n (2 ^ k) k = Val d.
Proof.
  revert k. induction f as [|f IH]; intros k Hk Hd Hn Hmin Hf; [lia|]. cbn [ceil_lg_loop].
  destruct (decide (k = d)) as [->|].
  - by rw (proj2 (Z.ltb_ge _ _)).
  - assert (2 ^ k < n).
    { destruct Hmin as [->|Hmin]; [lia|]. eapply Z.le_lt_trans; [|exact Hmin].
      apply Z.pow_le_mono_r; lia. }
    rw (proj2 (Z.ltb_lt _ _)) // u32_double; [|lia]. rw u8_small; [|lia]. apply IH; try done; lia.
Qed.

Lemma ceil_lg_spec n d :
  0 ≤ d ≤ 31 → n ≤ 2 ^ d → (d = 0 ∨ 2 ^ (d - 1) < n) → ceil_lg n = Val d.
Proof. intros. apply (ceil_lg_loop_spec 33 n 0 d); try done; lia. Qed.

(** Above [2 ^ 31] the doubling wraps to 0 and the loop never ends. *)
Lemma ceil_lg_loop_zero f n r : 0 < n → ceil_lg_loop f n 0 r = OutOfFuel.
Proof.
  intros Hn. revert r. induction f as [|f IH]; intros r; [done|]. cbn [ceil_lg_loop].
  rw (proj2 (Z.ltb_lt 0 n) Hn). apply IH.
Qed.

Lemma ceil_lg_loop_diverges f n k r :
  0 ≤ k ≤ 31 → 2 ^ 31 < n → ceil_lg_loop f n (2 ^ k) r = OutOfFuel.
Proof.
  intros Hk Hn. revert k r Hk. induction f as [|f IH]; intros k r Hk; [done|]. cbn [ceil_lg_loop].
  assert (2 ^ k ≤ 2 ^ 31) by (apply Z.pow_le_mono_r; lia).
  rw (proj2 (Z.ltb_lt _ _)); [|lia]. destruct (decide (k = 31)) as [->|].
  - change (u32 (2 * 2 ^ 31)) with 0. apply ceil_lg_loop_zero. lia.
  - rw u32_double; [|lia]. apply IH. lia.
Qed.

(** ** The tree of RFC 6962

    [build d leaves] is the tree of a list of at most [2 ^ d] leaf hashes: the
    left subtree holds the largest power of two smaller than their number.
    [dirs d size index] is the list of directions ([true] is right) from the
    root of the tree of [size] leaves to the leaf [index]. *)
Inductive tree : Type :=
| TLeaf (h : list Z)
| TNode (l r : tree).

Fixpoint build (d : nat) (leaves : list (list Z)) : tree :=
  match d with
  | O => TLeaf (default [] (head leaves))
  | S d' =>
      let half := 2 ^ Z.of_nat d' in
      if decide (zlen leaves ≤ half) then build d' leaves
      else TNode (build d' (take (Z.to_nat half) leaves)) (build d' (drop (Z.to_nat half) leaves))
  end.

Fixpoint dirs (d : nat) (size index : Z) : list bool :=
  match d with
  | O => []
  | S d' =>
      let half := 2 ^ Z.of_nat d' in
      if decide (size ≤ half) then dirs d' size index
      else if decide (index < half) then false :: dirs d' half index
      else true :: dirs d' (size - half) (index - half)
  end.

(** The subtree at the end of a list of directions. *)
Fixpoint subtree (t : tree) (p : list bool) {struct p} : option tree :=
  match p, t with
  | [], _ => Some t
  | b :: p', TNode l r => subtree (if b : bool then r else l) p'
  | _ :: _, TLeaf _ => None
  end.

Lemma dirs_length d size index : (length (dirs d size index) ≤ d)%nat.
Proof.
  revert size index. induction d as [|d IH]; intros size index; cbn [dirs]; [done|].
  repeat case_decide; simpl; [|apply le_n_S..]; eauto.
Qed.

(** ** Directions *)
Lemma land_mask x d : 0 ≤ d → 0 ≤ x < 2 ^ (d + 1) → Z.land x (2 ^ d) = 0 ↔ x < 2 ^ d.
Proof.
  intros Hd Hx. rw Z.add_1_r Z.pow_succ_r // in Hx. split.
  - intros Hz. destruct (decide (x < 2 ^ d)); [done|exfalso].
    assert (Z.testbit x d = true) as Hb.
    { apply Z.testbit_true; [done|]. replace (x / 2 ^ d) with 1; [done|].
      apply Z.div_unique with (x - 2 ^ d); lia. }
    assert (Z.testbit (Z.land x (2 ^ d)) d = true) as H; [|by rw Hz Z.bits_0 in H].
    by rw Z.land_spec Hb Z.pow2_bits_true.
  - intros Hlt. apply Z.bits_inj'. intros n Hn. rw Z.land_spec Z.bits_0 Z.pow2_bits_eqb //.
    destruct (Z.eqb_spec d n) as [->|]; [|apply andb_false_r].
    by rw -(Z.mod_small x (2 ^ n)) ?Z.mod_pow2_bits_high; [|lia..].
Qed.

Definition direction_code (b : option bool) : Z :=
  match b with Some true => 1 | Some false => 0 | None => -1 end.

Lemma pow2_u32 d : 0 ≤ d < 32 → u32 (2 ^ d) = 2 ^ d.
Proof.
  intros. apply u32_small. split; [apply Z.pow_nonneg; lia|]. apply Z.pow_lt_mono_r; lia.
Qed.

Lemma direction_loop_spec d : ∀ f size index i k,
  (d ≤ 31)%nat → (d < f)%nat → 0 ≤ index < size → size ≤ 2 ^ Z.of_nat d →
  0 ≤ k ≤ i → k + Z.of_nat d < 256 →
  direction_loop f size index i k = Val (direction_code (dirs d size index !! Z.to_nat (i - k))).
Proof.
  induction d as [|d IH]; intros f size index i k Hd Hf Hi Hs Hk Hkd;
    destruct f as [|f]; try lia; cbn [direction_loop dirs].
  { rw Nat2Z.inj_0 Z.pow_0_r in Hs. by rw (proj2 (Z.ltb_ge _ _)); [|lia]. }
  set (half := 2 ^ Z.of_nat d). case_decide as Hle.
  { rewrite -(IH (S f) size index i k) //; lia. }
  assert (0 < half) by (apply Z.pow_pos_nonneg; lia).
  assert (2 ^ Z.of_nat (S d) = 2 * half) as Hdouble by (rw Nat2Z.inj_succ Z.pow_succ_r; lia).
  rw (proj2 (Z.ltb_lt _ _)); [|lia]. rw (ceil_lg_spec size (Z.of_nat (S d))); [|lia|lia|].
  2:{ right. replace (Z.of_nat (S d) - 1) with (Z.of_nat d) by lia. lia. }
  cbn [mbind outcome_bind]. replace (Z.of_nat (S d) - 1) with (Z.of_nat d) by lia.
  rw Z.shiftl_1_l pow2_u32 -/half; [|lia].
  assert (half < 2 ^ 32) by (apply Z.pow_lt_mono_r; lia).
  assert (half ≤ 2 ^ 31) by (apply Z.pow_le_mono_r; lia).
  pose proof (land_mask index (Z.of_nat d)) as Hland. rw Z.add_1_r -Nat2Z.inj_succ Hdouble -/half in Hland.
  assert (i - k = 0 ∨ 0 < i - k) as [Hik|Hik] by lia.
  - rw Hik (proj2 (Z.eqb_eq _ _)); [|lia]. case_decide as Hr; cbn [lookup list_lookup].
    + by rewrite (proj2 (Z.eqb_eq _ _)); [|apply Hland; lia].
    + rewrite (proj2 (Z.eqb_neq _ _)); [done|]. intros Hz%Hland; lia.
  - rw (proj2 (Z.eqb_neq k i)); [|lia]. rw u8_small; [|lia].
    replace (Z.to_nat (i - k)) with (S (Z.to_nat (i - (k + 1)))) by lia.
    case_decide as Hr.
    + rewrite (proj2 (Z.eqb_eq (Z.land _ _) 0)); [|apply Hland; lia]. simpl. apply IH; lia.
    + rewrite (proj2 (Z.eqb_neq (Z.land _ _) 0)); [|intros Hz%Hland; lia]. simpl.
      rw !u32_small; [|lia..]. apply IH; lia.
Qed.

(** ** Directions and trees *)
Lemma build_subtree d leaves index :
  zlen leaves ≤ 2 ^ Z.of_nat d → 0 ≤ index < zlen leaves →
  ∃ h, leaves !! Z.to_nat index = Some h ∧
    subtree (build d leaves) (dirs d (zlen leaves) index) = Some (TLeaf h).
Proof.
  revert leaves index. induction d as [|d IH]; intros leaves index Hlen Hi; cbn [build dirs].
  { unfold zlen in Hi. destruct leaves as [|h [|]]; unfold zlen in *; simpl in *; try lia.
    exists h. by replace (Z.to_nat index) with 0%nat by lia. }
  rw Nat2Z.inj_succ Z.pow_succ_r in Hlen; [|lia]. set (half := 2 ^ Z.of_nat d) in *.
  case_decide as Hle; [by apply IH|].
  assert (0 < half) by (apply Z.pow_pos_nonneg; lia).
  assert (zlen (take (Z.to_nat half) leaves) = half) as Ht by (apply zlen_take; lia).
  assert (zlen (drop (Z.to_nat half) leaves) = zlen leaves - half) as Hd by (apply zlen_drop; lia).
  case_decide as Hlt; cbn [subtree].
  - destruct (IH (take (Z.to_nat half) leaves) index) as (h & Hh & Hs); [lia..|].
    exists h. rw lookup_take_lt in Hh; [|lia]. split; [done|]. by rewrite Ht in Hs.
  - destruct (IH (drop (Z.to_nat half) leaves) (index - half)) as (h & Hh & Hs); [lia..|].
    exists h. rw lookup_drop in Hh. split; [rewrite -Hh; f_equal; lia|]. by rewrite Hd in Hs.
Qed.

(** ** Merkle proofs *)
Section proofs.
Context (sha256 : list Z → list Z).
Context (sha256_length : ∀ x, zlen (sha256 x) = 32).

Fixpoint root (t : tree) : list Z :=
  match t with
  | TLeaf h => h
  | TNode l r => merkle_combine_hashes sha256 (root l) (root r)
  end.

(** The leaves of a tree are hashes. *)
Fixpoint tree_ok (t : tree) : Prop :=
  match t with
  | TLeaf h => zlen h = 32
  | TNode l r => tree_ok l ∧ tree_ok r
  end.

(** Two distinct inputs with the same hash. *)
Definition collision : Prop := ∃ x y, x ≠ y ∧ sha256 x = sha256 y.

(** The hash computed from [cur] by a proof: the siblings on the way to the
    root, each with the direction of the last step to [cur]. *)
Fixpoint climb (cur : list Z) (steps : list (bool * list Z)) : list Z :=
  match steps with
  | [] => cur
  | (b, sibling) :: steps' =>
      climb (if b : bool then merkle_combine_hashes sha256 sibling cur
             else merkle_combine_hashes sha256 cur sibling) steps'
  end.

Lemma root_zlen t : tree_ok t → zlen (root t) = 32.
Proof. destruct t; simpl; [done|]. intros _. apply sha256_length. Qed.

Lemma subtree_ok t p t' : tree_ok t → subtree t p = Some t' → tree_ok t'.
Proof.
  revert t. induction p as [|b p IH]; intros t; simpl; [intros ? Heq; by simplify_eq/=|].
  destruct t as [|l r]; [done|]. intros [??]. destruct b; eauto.
Qed.

Lemma subtree_snoc t p b t' :
  subtree t (p ++ [b]) = Some t' →
  ∃ l r, subtree t p = Some (TNode l r) ∧ t' = if b : bool then r else l.
Proof.
  revert t. induction p as [|c p IH]; intros t; simpl.
  - destruct t as [|l r]; [done|]. intros [= <-]. by exists l, r.
  - destruct t as [|l r]; [done|]. apply IH.
Qed.

Lemma app_inj_zlen (a b c d : list Z) : zlen a = zlen c → a ++ b = c ++ d → a = c ∧ b = d.
Proof. rw /zlen. intros Hl. apply app_inj_1. lia. Qed.

(** Equal node hashes have equal children, or are a collision. *)
Lemma combine_inj l r l' r' :
  zlen l = zlen l' →
  merkle_combine_hashes sha256 l r = merkle_combine_hashes sha256 l' r' →
  (l = l' ∧ r = r') ∨ collision.
Proof.
  intros Hl Heq. destruct (decide ([0x01] ++ l ++ r = [0x01] ++ l' ++ r')) as [Hin|Hne].
  - injection Hin as Hin. left. by apply app_inj_zlen.
  - right. by exists ([0x01] ++ l ++ r), ([0x01] ++ l' ++ r').
Qed.

(** Soundness: a proof along the directions [p] that hashes to the root of a
    tree starts from the hash of the subtree at [p]. *)
Lemma climb_sound t p t' cur siblings :
  tree_ok t → subtree t p = Some t' → length siblings = length p →
  Forall (λ s, zlen s = 32) siblings → zlen cur = 32 →
  climb cur (zip (reverse p) siblings) = root t →
  cur = root t' ∨ collision.
Proof.
  intros Hok. revert t' cur siblings. induction p as [|b p IH] using rev_ind;
    intros t' cur siblings Hs Hlen Hsib Hcur Hclimb.
  { destruct siblings; [|done]. injection Hs as <-. by left. }
  rw length_app /= in Hlen. destruct siblings as [|s siblings]; [simpl in *; lia|].
  apply Forall_cons in Hsib as [Hs32 Hsib]. rw reverse_snoc /= in Hclimb.
  apply subtree_snoc in Hs as (l & r & Hn & ->).
  pose proof (subtree_ok _ _ _ Hok Hn) as [Hl Hr].
  apply (IH _ _ _ Hn) in Hclimb as [Heq|]; [..|by right|simpl in Hlen; lia|done|].
  2:{ destruct b; apply sha256_length. }
  pose proof (root_zlen _ Hl). pose proof (root_zlen _ Hr).
  destruct b; simpl in Heq; apply combine_inj in Heq as [[??]|?]; auto; congruence.
Qed.

(** The siblings of the nodes on the way from the end of [p] to the root. *)
Fixpoint siblings (t : tree) (p : list bool) {struct p} : list (list Z) :=
  match p, t with
  | b :: p', TNode l r =>
      siblings (if b : bool then r else l) p' ++ [root (if b : bool then l else r)]
  | _, _ => []
  end.

Lemma siblings_length t p t' : subtree t p = Some t' → length (siblings t p) = length p.
Proof.
  revert t. induction p as [|b p IH]; intros t; simpl; [by destruct t|].
  destruct t as [|l r]; [done|]. intros Hs. rw length_app /=.
  rw (IH _ Hs). lia.
Qed.

Lemma siblings_ok t p : tree_ok t → Forall (λ s, zlen s = 32) (siblings t p).
Proof.
  revert t. induction p as [|b p IH]; intros t Hok; simpl; [by destruct t|].
  destruct t as [|l r]; [done|]. destruct Hok. apply Forall_app. split.
  - destruct b; auto.
  - constructor; [|done]. destruct b; by apply root_zlen.
Qed.

Lemma climb_app cur s1 s2 : climb cur (s1 ++ s2) = climb (climb cur s1) s2.
Proof. revert cur. induction s1 as [|[b s] s1 IH]; intros cur; simpl; auto. Qed.

(** Completeness: the siblings of a subtree are a proof of it. *)
Lemma climb_complete t p t' :
  subtree t p = Some t' → climb (root t') (zip (reverse p) (siblings t p)) = root t.
Proof.
  revert t. induction p as [|b p IH]; intros t; simpl.
  { intros [= ->]. by destruct t'. }
  destruct t as [|l r]; [done|]. intros Hs.
  rw reverse_cons zip_with_app; [|by rw length_reverse (siblings_length _ _ _ Hs)].
  rw climb_app (IH _ Hs) /=. by destruct b.
Qed.

Lemma build_ok d leaves :
  0 < zlen leaves ≤ 2 ^ Z.of_nat d → Forall (λ h, zlen h = 32) leaves → tree_ok (build d leaves).
Proof.
  revert leaves. induction d as [|d IH]; intros leaves Hlen Hok; cbn [build].
  { destruct leaves; [rw zlen_nil in Hlen; lia|]. by inversion Hok. }
  rw Nat2Z.inj_succ Z.pow_succ_r in Hlen; [|lia]. set (half := 2 ^ Z.of_nat d) in *.
  assert (0 < half) by (apply Z.pow_pos_nonneg; lia). case_decide; [apply IH; [lia|done]|].
  split; apply IH; auto using Forall_take, Forall_drop.
  - rw zlen_take; lia.
  - rw zlen_drop; lia.
Qed.
End proofs.

(** ** Properties *)

(** The directions that [merkle_get_ith_direction] computes for a leaf of a
    tree of up to [2 ^ 31] leaves are those of the path from the root to that
    leaf in the tree of RFC 6962, and it reports the end of the path. *)
Lemma merkle_directions_correct leaves index :
  0 ≤ index < zlen leaves → zlen leaves ≤ 2 ^ 31 →
  ∃ p h, leaves !! Z.to_nat index = Some h ∧
    subtree (build 31 leaves) p = Some (TLeaf h) ∧
    ∀ i, 0 ≤ i →
      merkle_get_ith_direction (zlen leaves) index i = Val (direction_code (p !! Z.to_nat i)).
Proof.
  intros Hi Hl. destruct (build_subtree 31 leaves index) as (h & Hh & Hs); [done..|].
  exists (dirs 31 (zlen leaves) index), h. split_and!; [done..|]. intros i Hi0.
  rw /merkle_get_ith_direction. rw (proj2 (Z.leb_gt _ index)); [|lia]. rw orb_false_r.
  destruct (Z.leb_spec (zlen leaves) 1).
  - replace index with 0 by lia. replace (zlen leaves) with 1 by lia.
    by change (dirs 31 1 0) with (@nil bool).
  - rewrite (direction_loop_spec 31); [by rw Z.sub_0_r|lia..].
Qed.

(** [ceil_lg] returns the least [d] with [n <= 2 ^ d] for [n] up to
    [2 ^ 31]; above that its 32-bit counter wraps to 0 and the loop runs
    forever, whatever the number of iterations allowed. *)
Lemma ceil_lg_correct n :
  0 ≤ n < 2 ^ 32 →
  (n ≤ 2 ^ 31 → ∃ d, ceil_lg n = Val d ∧ 0 ≤ d ≤ 31 ∧ n ≤ 2 ^ d ∧ (d = 0 ∨ 2 ^ (d - 1) < n)) ∧
  (2 ^ 31 < n → ∀ fuel, ceil_lg_loop fuel n 1 0 = OutOfFuel).
Proof.
  intros Hn. split.
  - intros Hle. destruct (decide (n ≤ 1)).
    + exists 0. rw (ceil_lg_spec n 0); [|lia|lia|by left]. split_and!; [done|lia..|by left].
    + pose proof (Z.log2_up_spec n ltac:(lia)) as [Hlo Hhi].
      assert (0 ≤ Z.log2_up n ≤ 31).
      { split; [apply Z.log2_up_nonneg|]. change 31 with (Z.log2_up (2 ^ 31)). by apply Z.log2_up_le_mono. }
      exists (Z.log2_up n). rw (ceil_lg_spec n (Z.log2_up n)) //; [|by right; replace (Z.log2_up n - 1) with (Z.pred (Z.log2_up n)) by lia].
      split_and!; [done|lia..|right; by replace (Z.log2_up n - 1) with (Z.pred (Z.log2_up n)) by lia].
  - intros Hgt fuel. by apply (ceil_lg_loop_diverges fuel n 0 0).
Qed.
