(* ===== verification/Dispatcher.v ===== *)
(** * Exchanges with the host

    Models src/src/boilerplate/io.c (the response being built in the APDU
    buffer), apdu_parser.c and dispatcher.c ([process_interruption], which
    sends a client command to the host and receives its answer, and
    [apdu_dispatcher], which selects the handler of a command).

    The host and the SDK's [io_exchange] are the environment: [rx] lists the
    outcomes of the exchanges to come, each a returned length and the contents
    of the APDU buffer after it; [tx] logs the
    byte strings that were sent.  When the list is exhausted the host does not
    answer any more, the interruption timeout of io.c elapses and
    [EXCEPTION_IO_RESET] is thrown.  An exchange also carries the number of
    ticker events that occur before its answer, which drive the timeouts of
    io.c. *)

From S2P Require Import Prelude Bytes Bip32 Buffer.

Definition IO_APDU_BUFFER_SIZE : Z := 5 + 255.
Definition EXCEPTION_IO_RESET : Z := 16.
Definition CLA_FRAMEWORK : Z := 0xF8.
Definition INS_CONTINUE : Z := 0x01.
Definition CURRENT_PROTOCOL_VERSION : Z := 1.
Definition INTERRUPTION_TIMEOUT_TICKS : Z := 50.
Definition PROCESSING_TIMEOUT_TICKS : Z := 10.
Definition CLA_APP : Z := 0xE1.
Definition GET_EXTENDED_PUBKEY : Z := 0x00.
Definition REGISTER_WALLET : Z := 0x02.
Definition GET_WALLET_ADDRESS : Z := 0x03.
Definition SIGN_PSBT : Z := 0x04.
Definition GET_MASTER_FINGERPRINT : Z := 0x05.
Definition SIGN_MESSAGE : Z := 0x10.

(** ** boilerplate/sw.h *)
Definition SW_OK : Z := 0x9000.
Definition SW_DENY : Z := 0x6985.
Definition SW_INCORRECT_DATA : Z := 0x6A80.
Definition SW_NOT_SUPPORTED : Z := 0x6A82.
Definition SW_WRONG_P1P2 : Z := 0x6A86.
Definition SW_WRONG_DATA_LENGTH : Z := 0x6A87.
Definition SW_INS_NOT_SUPPORTED : Z := 0x6D00.
Definition SW_CLA_NOT_SUPPORTED : Z := 0x6E00.
Definition SW_WRONG_RESPONSE_LENGTH : Z := 0xB000.
Definition SW_BAD_STATE : Z := 0xB007.
Definition SW_INTERRUPTED_EXECUTION : Z := 0xE000.

(** ** boilerplate/offsets.h *)
Definition OFFSET_CLA : Z := 0.
Definition OFFSET_INS : Z := 1.
Definition OFFSET_P1 : Z := 2.
Definition OFFSET_P2 : Z := 3.
Definition OFFSET_LC : Z := 4.
Definition OFFSET_CDATA : Z := 5.

(** ** State

    The timers of io.c and the user-interface flags of dispatcher.c;
    [terminations] counts the calls of the termination callback. *)
Record ux_state := mk_ux {
  ticks : Z;
  timeout_interruption : bool;
  timeout_processing : bool;
  interruption_start_tick : Z;
  processing_start_tick : Z;
  processing_screen_shown : bool;
  had_ux_flow : bool;
  terminations : Z
}.

(** One [io_exchange]: the ticker events before the answer, the length that is
    returned, and the contents of the APDU buffer. *)
Record exchange := mk_exchange { ex_ticks : nat; ex_len : Z; ex_buf : list Z }.

(** The read buffer of the dispatcher context points into the APDU buffer (or
    is NULL when the command has no data): it is kept as its position, size
    and offset, and its bytes are those of [apdu_buf] at the time of a read. *)
Record dstate := mk_dstate {
  apdu_buf : list Z;
  output_len : Z;
  rb_base : option Z;
  rb_size : Z;
  rb_offset : Z;
  disp_sw : Z;
  ux : ux_state;
  rx : list exchange;
  tx : list (list Z)
}.

(** Code that runs in a state: the state monad over [outcome]. *)
Definition io (A : Type) : Type := dstate → outcome (A * dstate).
Global Instance io_ret : MRet io := λ A a st, Val (a, st).
Global Instance io_bind : MBind io := λ A B f m st,
  match m st with
  | Val (a, st') => f a st'
  | Undef => Undef
  | Throw e => Throw e
  | OutOfFuel => OutOfFuel
  end.

Definition gets {A} (f : dstate → A) : io A := λ st, Val (f st, st).
Definition modify (f : dstate → dstate) : io () := λ st, Val ((), f st).
Definition lift {A} (m : outcome A) : io A := λ st, a ← m; mret (a, st).

Definition set_apdu_buf (p : list Z) (st : dstate) : dstate :=
  mk_dstate p (output_len st) (rb_base st) (rb_size st) (rb_offset st) (disp_sw st) (ux st)
    (rx st) (tx st).
Definition set_output_len (n : Z) (st : dstate) : dstate :=
  mk_dstate (apdu_buf st) n (rb_base st) (rb_size st) (rb_offset st) (disp_sw st) (ux st)
    (rx st) (tx st).
Definition set_disp_sw (sw : Z) (st : dstate) : dstate :=
  mk_dstate (apdu_buf st) (output_len st) (rb_base st) (rb_size st) (rb_offset st) sw (ux st)
    (rx st) (tx st).
Definition set_ux (u : ux_state) (st : dstate) : dstate :=
  mk_dstate (apdu_buf st) (output_len st) (rb_base st) (rb_size st) (rb_offset st) (disp_sw st) u
    (rx st) (tx st).
Definition set_rb_offset (o : Z) (st : dstate) : dstate :=
  mk_dstate (apdu_buf st) (output_len st) (rb_base st) (rb_size st) o (disp_sw st) (ux st)
    (rx st) (tx st).
Definition set_read_buffer (base : option Z) (sz : Z) (st : dstate) : dstate :=
  mk_dstate (apdu_buf st) (output_len st) base sz 0 (disp_sw st) (ux st) (rx st) (tx st).

(** [dc->read_buffer] as a buffer over the bytes it points to. *)
Definition read_buffer (st : dstate) : buffer :=
  mk_buffer (match rb_base st with Some base => drop (Z.to_nat base) (apdu_buf st) | None => [] end)
            (rb_size st) (rb_offset st).

(** ** boilerplate/io.c: timeouts *)
Definition start_interruption_timeout (u : ux_state) : ux_state :=
  mk_ux (ticks u) true (timeout_processing u) (ticks u) (processing_start_tick u)
    (processing_screen_shown u) (had_ux_flow u) (terminations u).
Definition clear_interruption_timeout (u : ux_state) : ux_state :=
  mk_ux (ticks u) false (timeout_processing u) (interruption_start_tick u)
    (processing_start_tick u) (processing_screen_shown u) (had_ux_flow u) (terminations u).
Definition start_processing_timeout (u : ux_state) : ux_state :=
  mk_ux (ticks u) (timeout_interruption u) true (interruption_start_tick u) (ticks u)
    (processing_screen_shown u) (had_ux_flow u) (terminations u).
Definition clear_processing_timeout (u : ux_state) : ux_state :=
  mk_ux (ticks u) (timeout_interruption u) false (interruption_start_tick u)
    (processing_start_tick u) (processing_screen_shown u) (had_ux_flow u) (terminations u).
Definition set_screen_shown (b : bool) (u : ux_state) : ux_state :=
  mk_ux (ticks u) (timeout_interruption u) (timeout_processing u) (interruption_start_tick u)
    (processing_start_tick u) b (had_ux_flow u) (terminations u).
Definition set_had_ux_flow (b : bool) (u : ux_state) : ux_state :=
  mk_ux (ticks u) (timeout_interruption u) (timeout_processing u) (interruption_start_tick u)
    (processing_start_tick u) (processing_screen_shown u) b (terminations u).
Definition count_termination (u : ux_state) : ux_state :=
  mk_ux (ticks u) (timeout_interruption u) (timeout_processing u) (interruption_start_tick u)
    (processing_start_tick u) (processing_screen_shown u) (had_ux_flow u) (terminations u + 1).
Definition set_ticks (t : Z) (u : ux_state) : ux_state :=
  mk_ux t (timeout_interruption u) (timeout_processing u) (interruption_start_tick u)
    (processing_start_tick u) (processing_screen_shown u) (had_ux_flow u) (terminations u).

Definition reset_timeouts (u : ux_state) : ux_state :=
  set_screen_shown false (clear_processing_timeout (clear_interruption_timeout u)).

(** [io_event] for a ticker event: the counter is 16 bits wide, the difference
    of the ticks is computed in [int]. *)
Definition processing_event (u : ux_state) : ux_state :=
  if timeout_processing u && (PROCESSING_TIMEOUT_TICKS <=? ticks u - processing_start_tick u)
  then set_screen_shown true (clear_processing_timeout u) else u.

Definition ticker_event (u : ux_state) : outcome ux_state :=
  let u := processing_event (set_ticks (u16 (ticks u + 1)) u) in
  if timeout_interruption u && (INTERRUPTION_TIMEOUT_TICKS <=? ticks u - interruption_start_tick u)
  then Throw EXCEPTION_IO_RESET
  else mret u.

Fixpoint ticker_events (n : nat) (u : ux_state) : outcome ux_state :=
  match n with
  | O => mret u
  | S n' => u ← ticker_event u; ticker_events n' u
  end.

(** ** boilerplate/io.c: the response *)
Definition io_finalize_response (sw : Z) : io () :=
  len ← gets output_len; buf ← gets apdu_buf;
  if IO_APDU_BUFFER_SIZE - 2 <=? len then
    _ ← modify (set_output_len IO_APDU_BUFFER_SIZE);
    p ← lift (write_u16_be buf (IO_APDU_BUFFER_SIZE - 2) SW_WRONG_RESPONSE_LENGTH);
    modify (set_apdu_buf p)
  else
    p ← lift (write_u16_be buf len sw);
    _ ← modify (set_apdu_buf p);
    modify (set_output_len (u16 (len + 2))).

(** [rdata] is the object that the pointer points to, [rdata_len] the length
    that is passed. *)
Fixpoint io_add_to_response (fuel : nat) (rdata : list Z) (rdata_len : Z) : io () :=
  match fuel with
  | O => λ _, OutOfFuel
  | S f =>
      len ← gets output_len; buf ← gets apdu_buf;
      if IO_APDU_BUFFER_SIZE - 2 <=? len then
        _ ← modify (set_output_len IO_APDU_BUFFER_SIZE);
        p ← lift (write_u16_be buf (IO_APDU_BUFFER_SIZE - 2) SW_WRONG_RESPONSE_LENGTH);
        modify (set_apdu_buf p)
      else if IO_APDU_BUFFER_SIZE - 2 <? size_t (len + rdata_len) then
        _ ← io_add_to_response f rdata (size_t (IO_APDU_BUFFER_SIZE - 2 - rdata_len));
        io_finalize_response SW_WRONG_RESPONSE_LENGTH
      else
        src ← lift (loads rdata 0 rdata_len);
        p ← lift (stores buf len src);
        _ ← modify (set_apdu_buf p);
        modify (set_output_len (u16 (len + rdata_len)))
  end.

Definition io_reset_response : io () := modify (set_output_len 0).

(** The first [output_len] bytes of the APDU buffer are sent; with
    [IO_RETURN_AFTER_TX] nothing is received. *)
Definition io_confirm_response : io () :=
  len ← gets output_len; buf ← gets apdu_buf;
  out ← lift (loads buf 0 len);
  modify (λ st, mk_dstate (apdu_buf st) 0 (rb_base st) (rb_size st) (rb_offset st) (disp_sw st)
                  (ux st) (rx st) (tx st ++ [out])).

(** An absent [rdata] is the NULL pointer.  The recursion of
    [io_add_to_response] that ends does so within one call of itself, hence
    the two units of fuel here and below. *)
Definition io_set_response (rdata : option (list Z)) (sw : Z) : io () :=
  _ ← io_reset_response;
  _ ← match rdata with
      | Some d => io_add_to_response 2 d (zlen d)
      | None => mret ()
      end;
  io_finalize_response sw.

Definition io_send_response (rdata : option (list Z)) (sw : Z) : io () :=
  _ ← io_set_response rdata sw; io_confirm_response.

Definition io_send_sw (sw : Z) : io () := io_send_response None sw.

(** [io_exchange]: the response is sent and the next command received. *)
Definition io_exchange (len : Z) : io Z := λ st,
  out ← loads (apdu_buf st) 0 len;
  match rx st with
  | [] => Throw EXCEPTION_IO_RESET
  | ex :: rx' =>
      u ← ticker_events (ex_ticks ex) (ux st);
      mret (ex_len ex,
            mk_dstate (ex_buf ex) (output_len st) (rb_base st) (rb_size st) (rb_offset st)
              (disp_sw st) u rx' (if len =? 0 then tx st else tx st ++ [out]))
  end.

(** ** boilerplate/dispatcher.c and dispatcher.h *)
Definition add_to_response (rdata : list Z) : io () := io_add_to_response 2 rdata (zlen rdata).

Definition finalize_response (sw : Z) : io () :=
  _ ← modify (set_disp_sw sw); io_finalize_response sw.

Definition set_ui_dirty : io () := modify (λ st, set_ux (set_had_ux_flow true (ux st)) st).

Definition SEND_SW (sw : Z) : io () := _ ← finalize_response sw; io_confirm_response.

Definition SET_RESPONSE (rdata : list Z) (sw : Z) : io () :=
  _ ← add_to_response rdata; finalize_response sw.

Definition SEND_RESPONSE (rdata : list Z) (sw : Z) : io () :=
  _ ← add_to_response rdata; _ ← finalize_response sw; io_confirm_response.

(** ** boilerplate/apdu_parser.c *)
Record command := mk_command { cla : Z; ins : Z; p1 : Z; p2 : Z; lc : Z; data : option Z }.

Definition apdu_parser (buf : list Z) (buf_len : Z) : outcome (option command) :=
  if buf_len <? OFFSET_CDATA then mret None
  else
    lc ← load buf OFFSET_LC;
    if negb (buf_len - OFFSET_CDATA =? lc) then mret None
    else
      cla ← load buf OFFSET_CLA; ins ← load buf OFFSET_INS;
      p1 ← load buf OFFSET_P1; p2 ← load buf OFFSET_P2;
      mret (Some (mk_command cla ins p1 p2 lc (if 0 <? lc then Some OFFSET_CDATA else None))).

Definition process_interruption : io Z :=
  _ ← modify (λ st, set_ux (start_interruption_timeout (ux st)) st);
  len ← gets output_len;
  input_len ← io_exchange len;
  if input_len <? 0 then mret (-1)
  else
    _ ← modify (λ st, set_ux (clear_interruption_timeout (ux st)) st);
    _ ← modify (set_output_len 0);
    _ ← modify (set_disp_sw 0);
    buf ← gets apdu_buf;
    r ← lift (apdu_parser buf (size_t input_len));
    match r with
    | None => _ ← SEND_SW SW_WRONG_DATA_LENGTH; mret (-1)
    | Some cmd =>
        if negb (cla cmd =? CLA_FRAMEWORK) || negb (ins cmd =? INS_CONTINUE) then
          _ ← SEND_SW SW_INCORRECT_DATA; mret (-1)
        else _ ← modify (set_read_buffer (data cmd) (lc cmd)); mret 0
    end.

(** A command handler gets the protocol version; the handlers are described by
    class and instruction. *)
Record command_descriptor := mk_descriptor {
  handler : Z → io ();
  desc_cla : Z;
  desc_ins : Z
}.

(** The search of [apdu_dispatcher]: whether the class was found, and the
    handler of the first matching descriptor. *)
Fixpoint find_handler (ds : list command_descriptor) (c i : Z) (cla_found : bool)
    : bool * option (Z → io ()) :=
  match ds with
  | [] => (cla_found, None)
  | d :: ds' =>
      if negb (desc_cla d =? c) then find_handler ds' c i cla_found
      else if negb (desc_ins d =? i) then find_handler ds' c i true
      else (true, Some (handler d))
  end.

(** The end of [apdu_dispatcher], after the handler has returned. *)
Definition dispatcher_epilogue : io () :=
  sw ← gets disp_sw;
  _ ← (if sw =? 0 then io_send_sw SW_BAD_STATE else mret ());
  u ← gets ux;
  _ ← (if had_ux_flow u || processing_screen_shown u
       then modify (λ st, set_ux (set_screen_shown false (count_termination (ux st))) st)
       else mret ());
  modify (λ st, set_ux (clear_processing_timeout (ux st)) st).

Definition apdu_dispatcher (ds : list command_descriptor) (cmd : command) : io () :=
  _ ← modify (λ st, set_ux (set_had_ux_flow false (ux st)) st);
  _ ← modify (set_disp_sw 0);
  _ ← modify (set_read_buffer (data cmd) (lc cmd));
  if CURRENT_PROTOCOL_VERSION <? p2 cmd then io_send_sw SW_WRONG_P1P2
  else if (cla cmd =? CLA_FRAMEWORK) && (ins cmd =? INS_CONTINUE) then io_send_sw SW_BAD_STATE
  else
    match find_handler ds (cla cmd) (ins cmd) false with
    | (false, _) => io_send_sw SW_CLA_NOT_SUPPORTED
    | (true, None) => io_send_sw SW_INS_NOT_SUPPORTED
    | (true, Some h) =>
        _ ← modify (λ st, set_ux (start_processing_timeout (ux st)) st);
        _ ← h (p2 cmd);
        dispatcher_epilogue
    end.

(** ** Reads of the dispatcher's buffer

    A read of [dc->read_buffer] moves its cursor. *)
Definition rb_read {A} (rd : buffer → outcome (option A * buffer)) : io (option A) :=
  b ← gets read_buffer;
  '(r, b') ← lift (rd b);
  _ ← modify (set_rb_offset (offset b')); mret r.

Definition rb_read_u8 : io (option Z) := rb_read (λ b, as_read (buffer_read_u8 b)).
Definition rb_read_varint : io (option Z) := rb_read (λ b, as_read (buffer_read_varint b)).
Definition rb_read_bytes (n : Z) : io (option (list Z)) := rb_read (λ b, buffer_read_bytes b n).

Definition rb_can_read (n : Z) : io bool :=
  b ← gets read_buffer; mret (buffer_can_read b n).

Definition rb_seek_cur (n : Z) : io () :=
  b ← gets read_buffer;
  modify (set_rb_offset (offset (buffer_seek_cur b n).2)).

(** ** Reasoning about code that runs in a state

    [wp T m Q st]: from [st], [m] performs no undefined access, does not
    exhaust its fuel, satisfies [Q] when it returns, and throws only the reset
    exception, and only when [T] holds.  With [T] true this is partial
    correctness up to resets; with [T] false, [m] returns. *)
Definition wp (T : Prop) {A} (m : io A) (Q : A → dstate → Prop) (st : dstate) : Prop :=
  match m st with
  | Val (a, st') => Q a st'
  | Throw e => T ∧ e = EXCEPTION_IO_RESET
  | Undef | OutOfFuel => False
  end.

Lemma wp_ret (T : Prop) {A} (a : A) (Q : A → dstate → Prop) st : Q a st → wp T (mret a) Q st.
Proof. done. Qed.

Lemma wp_bind (T : Prop) {A B} (m : io A) (k : A → io B) Q st :
  wp T m (λ a, wp T (k a) Q) st → wp T (m ≫= k) Q st.
Proof. unfold wp, mbind, io_bind. by destruct (m st) as [[a st']| | |]. Qed.

Lemma wp_mono (T : Prop) {A} (m : io A) (P Q : A → dstate → Prop) st :
  wp T m P st → (∀ a st', P a st' → Q a st') → wp T m Q st.
Proof. unfold wp. destruct (m st) as [[a st']| | |]; auto. Qed.

Lemma wp_gets (T : Prop) {A} (f : dstate → A) (Q : A → dstate → Prop) st :
  Q (f st) st → wp T (gets f) Q st.
Proof. done. Qed.

Lemma wp_modify (T : Prop) f (Q : () → dstate → Prop) st : Q () (f st) → wp T (modify f) Q st.
Proof. done. Qed.

Lemma wp_lift (T : Prop) {A} (m : outcome A) a (Q : A → dstate → Prop) st :
  m = Val a → Q a st → wp T (lift m) Q st.
Proof. by intros ->. Qed.

(** The postcondition may use that the state is the one that is reached. *)
Lemma wp_remember (T : Prop) {A} (m : io A) (Q : A → dstate → Prop) st :
  wp T m (λ a st', m st = Val (a, st') → Q a st') st → wp T m Q st.
Proof. unfold wp. destruct (m st) as [[a st']| | |]; auto. Qed.

(** A [wp] with [T] false is an execution. *)
Lemma wp_returns {A} (m : io A) (Q : A → dstate → Prop) st :
  wp False m Q st → ∃ a st', m st = Val (a, st') ∧ Q a st'.
Proof. unfold wp. destruct (m st) as [[a st']| | |]; naive_solver. Qed.

Lemma wp_Val (T : Prop) {A} (m : io A) (Q : A → dstate → Prop) st a st' :
  wp T m Q st → m st = Val (a, st') → Q a st'.
Proof. unfold wp. intros H Hm. by rewrite Hm in H. Qed.

(** Steps through the monad. *)
Ltac wp_step :=
  lazymatch goal with
  | |- wp _ (_ ≫= _) _ _ => apply wp_bind
  | |- wp _ (mret _) _ _ => apply wp_ret
  | |- wp _ (gets _) _ _ => apply wp_gets
  | |- wp _ (modify _) _ _ => apply wp_modify
  end.
Ltac wp_steps := cbv beta; repeat (wp_step; cbv beta).

(** ** Well-formed states

    What the SDK documents of [io_exchange]: it fills the APDU buffer and
    returns an unsigned length that is at most the size of the buffer. *)
Definition wf_exchange (ex : exchange) : Prop :=
  zlen (ex_buf ex) = IO_APDU_BUFFER_SIZE ∧ bytes_ok (ex_buf ex) ∧
  0 ≤ ex_len ex ≤ IO_APDU_BUFFER_SIZE.

Record wf_dstate (st : dstate) : Prop := {
  wf_apdu_size : zlen (apdu_buf st) = IO_APDU_BUFFER_SIZE;
  wf_apdu_bytes : bytes_ok (apdu_buf st);
  wf_output_len : 0 ≤ output_len st ≤ IO_APDU_BUFFER_SIZE;
  wf_rb_base : rb_base st = None ∨ rb_base st = Some OFFSET_CDATA;
  wf_read_buffer : wf_buffer (read_buffer st);
  wf_ticks : 0 ≤ ticks (ux st) < 2 ^ 16;
  wf_rx : Forall wf_exchange (rx st)
}.

(** The response built so far, and the bytes of the command not read yet. *)
Definition pending (st : dstate) : list Z := take (Z.to_nat (output_len st)) (apdu_buf st).
Definition unread (st : dstate) : list Z := rest (read_buffer st).

(** The data of the answer in an exchange: [None] when it is not a
    well-formed [INS_CONTINUE] command. *)
Definition answer (ex : exchange) : option (list Z) :=
  if (5 <=? ex_len ex) && bool_decide (ex_buf ex !! 4%nat = Some (ex_len ex - 5)) &&
     bool_decide (ex_buf ex !! 0%nat = Some CLA_FRAMEWORK) &&
     bool_decide (ex_buf ex !! 1%nat = Some INS_CONTINUE)
  then Some (slice (ex_buf ex) 5 (ex_len ex - 5)) else None.

(** An answer that comes before the interruption timeout. *)
Definition prompt (ex : exchange) : Prop := Z.of_nat (ex_ticks ex) < INTERRUPTION_TIMEOUT_TICKS.

Lemma pending_zlen st : wf_dstate st → zlen (pending st) = output_len st.
Proof. intros []. rw /pending zlen_take //. lia. Qed.

(** A change of the APDU buffer that keeps its size keeps the state
    well-formed. *)
Lemma wf_write st p n :
  wf_dstate st → zlen p = IO_APDU_BUFFER_SIZE → bytes_ok p → 0 ≤ n ≤ IO_APDU_BUFFER_SIZE →
  wf_dstate (set_output_len n (set_apdu_buf p st)).
Proof.
  intros [Hs Hb Ho Hbase Hrb Ht Hrx] Hp Hok Hn. split; try done.
  destruct Hrb as (?&Hle&?&?). rewrite /read_buffer /= in Hle.
  rw /wf_buffer /=. destruct (rb_base st) as [base|]; simpl in *; [|done].
  split_and!; [lia..| |done|auto with ledger].
  unfold zlen in *. rewrite length_drop in Hle. rw length_drop. lia.
Qed.

(** Storing [l] at the end of the response. *)
Lemma store_pending st l :
  wf_dstate st → bytes_ok l → output_len st + zlen l ≤ IO_APDU_BUFFER_SIZE →
  ∃ p, stores (apdu_buf st) (output_len st) l = Val p ∧
    let st' := set_output_len (output_len st + zlen l) (set_apdu_buf p st) in
    wf_dstate st' ∧ pending st' = pending st ++ l.
Proof.
  intros Hwf Hl Hle. pose proof Hwf as [Hs Hb Ho _ _ _ _]. pose proof (zlen_nonneg l).
  eexists. split; [by rw stores_in_range; [|lia..]|].
  set (p := _ ++ _).
  assert (stores (apdu_buf st) (output_len st) l = Val p) as Hst by (rw stores_in_range //; lia).
  split; [apply wf_write; [done| |exact (stores_bytes_ok _ _ _ _ Hb Hl Hst)|lia]|].
  - rw -Hs. by eapply stores_length.
  - rw /pending /p /=. rw app_assoc take_app_length' //.
    rw length_app length_take. unfold zlen in *. lia.
Qed.

(** A step that appends [l] to the response and leaves the host alone. *)
Definition responding (st : dstate) (l : list Z) (st' : dstate) : Prop :=
  wf_dstate st' ∧ pending st' = pending st ++ l ∧
  rx st' = rx st ∧ tx st' = tx st ∧ ux st' = ux st.

(** The bytes of a status word. *)
Definition sw_bytes (sw : Z) : list Z := reverse (le_bytes 2 sw).

Lemma responding_len st l st' :
  wf_dstate st → responding st l st' → output_len st' = output_len st + zlen l.
Proof.
  intros Hwf (Hwf'&Hp&_). rw -pending_zlen // Hp zlen_app pending_zlen //.
Qed.

Lemma io_add_to_response_fits T f st d n Q :
  wf_dstate st → bytes_ok d → output_len st < 258 → 0 ≤ n ≤ zlen d → output_len st + n ≤ 258 →
  (∀ st', responding st (take (Z.to_nat n) d) st' → Q () st') →
  wp T (io_add_to_response (S f) d n) Q st.
Proof.
  intros Hwf Hd Hlt Hn Hle HQ. pose proof Hwf as [_ _ Ho _ _ _ _].
  assert (zlen (take (Z.to_nat n) d) = n) as Hz by (apply zlen_take; lia).
  destruct (store_pending st (take (Z.to_nat n) d)) as (p & Hp & Hwf' & Hpend);
    [done|auto with ledger|rw Hz; unfold IO_APDU_BUFFER_SIZE; lia|].
  rewrite Hz in Hwf', Hpend. cbn [io_add_to_response]. wp_steps. unfold IO_APDU_BUFFER_SIZE.
  rw (proj2 (Z.leb_gt _ _)); [|lia]. rw u32_small; [|lia]. rw (proj2 (Z.ltb_ge _ _)); [|lia].
  wp_steps. eapply wp_lift; [apply loads_in_range; lia|]. wp_steps. rw drop_0.
  eapply wp_lift; [exact Hp|]. wp_steps. apply HQ. rw u16_small; [|lia]. done.
Qed.

Lemma add_to_response_fits (T : Prop) st d Q :
  wf_dstate st → bytes_ok d → output_len st < 258 → output_len st + zlen d ≤ 258 →
  (∀ st', responding st d st' → Q () st') → wp T (add_to_response d) Q st.
Proof.
  intros Hwf Hd Hlt Hle HQ. pose proof (zlen_nonneg d). apply io_add_to_response_fits; [done..|].
  by rw zlen_length firstn_all.
Qed.

Lemma io_finalize_response_fits T st sw Q :
  wf_dstate st → output_len st < 258 ∨ (output_len st = 258 ∧ sw = SW_WRONG_RESPONSE_LENGTH) →
  (∀ st', responding st (sw_bytes sw) st' → disp_sw st' = disp_sw st → Q () st') →
  wp T (io_finalize_response sw) Q st.
Proof.
  intros Hwf Hlt HQ. pose proof Hwf as [_ _ Ho _ _ _ _].
  assert (zlen (sw_bytes sw) = 2) as Hz by done.
  destruct (store_pending st (sw_bytes sw)) as (p & Hp & Hwf' & Hpend);
    [done| |rw Hz; unfold IO_APDU_BUFFER_SIZE; lia|].
  { rw /sw_bytes. apply Forall_reverse. auto with ledger. }
  rewrite Hz in Hwf', Hpend. rw /io_finalize_response. wp_steps.
  destruct Hlt as [Hlt|[Heq ->]].
  - rw (proj2 (Z.leb_gt _ _)); [|unfold IO_APDU_BUFFER_SIZE; lia].
    wp_steps. eapply wp_lift; [by rw write_u16_be_stores|]. wp_steps.
    apply HQ; [|done]. rw u16_small; [|lia]. done.
  - rewrite Heq in Hp, Hwf', Hpend. rw Heq.
    change (IO_APDU_BUFFER_SIZE - 2 <=? 258) with true. cbv iota.
    wp_steps. eapply wp_lift; [by rw write_u16_be_stores|].
    wp_steps. by apply HQ.
Qed.

(** ** Timeouts *)
Lemma processing_event_ticks u : ticks (processing_event u) = ticks u.
Proof. rw /processing_event. by case_match. Qed.

Lemma ticker_events_outcome n u :
  0 ≤ ticks u < 2 ^ 16 →
  (∃ u', ticker_events n u = Val u' ∧ 0 ≤ ticks u' < 2 ^ 16) ∨
  ticker_events n u = Throw EXCEPTION_IO_RESET.
Proof.
  revert u. induction n as [|n IH]; intros u Hu; [by left; exists u|]. cbn [ticker_events].
  unfold ticker_event. cbv zeta. case_match; [by right|]. apply IH.
  rw processing_event_ticks. apply u16_range.
Qed.

(** Fewer ticks than the timeout do not reset the application. *)
Lemma ticker_events_prompt n u k :
  0 ≤ ticks u < 2 ^ 16 → 0 ≤ k → ticks u ≤ interruption_start_tick u + k →
  k + Z.of_nat n < INTERRUPTION_TIMEOUT_TICKS → ∃ u', ticker_events n u = Val u'.
Proof.
  revert u k. induction n as [|n IH]; intros u k Hu Hk Hle Hn; [by exists u|].
  cbn [ticker_events]. unfold ticker_event. cbv zeta. set (u1 := processing_event _).
  assert (ticks u1 = u16 (ticks u + 1)) as Ht by apply processing_event_ticks.
  assert (interruption_start_tick u1 = interruption_start_tick u) as Hs
    by (subst u1; rw /processing_event; by case_match).
  assert (u16 (ticks u + 1) ≤ ticks u + 1) by (apply Z.mod_le; lia).
  pose proof (u16_range (ticks u + 1)).
  rw (proj2 (Z.leb_gt INTERRUPTION_TIMEOUT_TICKS _)); [|lia]. rw andb_false_r /=.
  apply (IH u1 (k + 1)); lia.
Qed.

(** Either a reset is allowed, or the next answer comes in time. *)
Definition answers (T : Prop) (st : dstate) : Prop :=
  T ∨ match rx st with ex :: _ => prompt ex | [] => False end.

(** The state after an exchange, up to its timers. *)
Lemma io_exchange_spec (T : Prop) st Q :
  wf_dstate st → answers T st →
  interruption_start_tick (ux st) = ticks (ux st) →
  (∀ ex u, rx st = ex :: tail (rx st) → 0 ≤ ticks u < 2 ^ 16 →
    Q (ex_len ex) (mk_dstate (ex_buf ex) (output_len st) (rb_base st) (rb_size st) (rb_offset st)
        (disp_sw st) u (tail (rx st))
        (if output_len st =? 0 then tx st else tx st ++ [pending st]))) →
  wp T (io_exchange (output_len st)) Q st.
Proof.
  intros [Hs Hb Ho _ _ Ht _] Ha Hu HQ. rw /wp /io_exchange loads_in_range; [|lia..].
  cbn [mbind outcome_bind]. destruct Ha as [Ha|Ha].
  - destruct (rx st) as [|ex rx'] eqn:Hrx; [done|].
    destruct (ticker_events_outcome (ex_ticks ex) (ux st)) as [(u' & -> & Hu')| ->]; [done| |done].
    simpl. by apply HQ.
  - destruct (rx st) as [|ex rx'] eqn:Hrx; [done|].
    destruct (ticker_events_prompt (ex_ticks ex) (ux st) 0) as [u' He]; [done|lia|lia|exact Ha|].
    destruct (ticker_events_outcome (ex_ticks ex) (ux st)) as [(u'' & He' & Hu')| He']; [done| |].
    + rw He' /=. by apply HQ.
    + by rewrite He in He'.
Qed.

Lemma apdu_parser_answer ex :
  wf_exchange ex →
  ∃ r, apdu_parser (ex_buf ex) (size_t (ex_len ex)) = Val r ∧
    match r with
    | Some cmd =>
        answer ex = (if negb (cla cmd =? CLA_FRAMEWORK) || negb (ins cmd =? INS_CONTINUE) then None
                     else Some (slice (ex_buf ex) 5 (ex_len ex - 5))) ∧
        lc cmd = ex_len ex - 5 ∧ 5 ≤ ex_len ex ∧
        data cmd = if 0 <? lc cmd then Some OFFSET_CDATA else None
    | None => answer ex = None
    end.
Proof.
  intros (Hz & Hb & Hl). rewrite /IO_APDU_BUFFER_SIZE in Hz, Hl.
  destruct (ex_buf ex) as [|c0 [|c1 [|c2 [|c3 [|c4 buf]]]]] eqn:Hbuf; try (by cbv in Hz; lia).
  rw u32_small; [|lia]. rw /apdu_parser /answer Hbuf /OFFSET_CDATA.
  destruct (Z.ltb_spec (ex_len ex) 5).
  { eexists. split; [done|]. simpl. by rw (proj2 (Z.leb_gt _ _)). }
  rw (proj2 (Z.leb_le _ _)) //. set (m := c0 :: c1 :: c2 :: c3 :: c4 :: buf).
  change (load m OFFSET_LC) with (@Val Z c4). change (load m OFFSET_CLA) with (@Val Z c0).
  change (load m OFFSET_INS) with (@Val Z c1). change (m !! 4%nat) with (Some c4).
  change (m !! 0%nat) with (Some c0). change (m !! 1%nat) with (Some c1).
  cbn [mbind outcome_bind]. destruct (Z.eqb_spec (ex_len ex - 5) c4) as [<-|Hne]; cbn [negb].
  - eexists. split; [done|]. cbn [cla ins lc data]. split_and!; [|done..].
    destruct (Z.eqb_spec c0 CLA_FRAMEWORK); destruct (Z.eqb_spec c1 INS_CONTINUE);
      repeat case_bool_decide; simplify_eq; done.
  - eexists. split; [done|]. cbv beta iota. by rw bool_decide_eq_false_2; [|congruence].
Qed.

Lemma io_confirm_response_spec (T : Prop) st Q :
  wf_dstate st →
  (∀ st', wf_dstate st' → output_len st' = 0 → rx st' = rx st → tx st' = tx st ++ [pending st] →
    disp_sw st' = disp_sw st → ux st' = ux st → Q () st') →
  wp T io_confirm_response Q st.
Proof.
  intros [Hs Hb Ho Hbase Hrb Ht Hrx] HQ. rw /io_confirm_response. wp_steps.
  eapply wp_lift; [apply loads_in_range; lia|]. wp_steps.
  by apply HQ.
Qed.

Lemma finalize_response_fits (T : Prop) st sw Q :
  wf_dstate st → output_len st < 258 →
  (∀ st', responding st (sw_bytes sw) st' → disp_sw st' = sw → Q () st') →
  wp T (finalize_response sw) Q st.
Proof.
  intros Hwf Hlt HQ. rw /finalize_response. wp_steps.
  apply io_finalize_response_fits; [by destruct Hwf; split|by left|].
  intros st' Hr Hsw. by apply HQ.
Qed.

Lemma SEND_SW_spec (T : Prop) st sw Q :
  wf_dstate st → output_len st = 0 →
  (∀ st', wf_dstate st' → output_len st' = 0 → rx st' = rx st →
    tx st' = tx st ++ [sw_bytes sw] → disp_sw st' = sw → ux st' = ux st → Q () st') →
  wp T (SEND_SW sw) Q st.
Proof.
  intros Hwf H0 HQ. rw /SEND_SW. wp_step. apply finalize_response_fits; [done|lia|].
  intros st1 (Hwf1 & Hp & Hrx & Htx & Hux) Hsw. cbv beta. apply io_confirm_response_spec; [done|].
  intros st2 ??? Htx2 Hd Hu. apply HQ; try done; try congruence.
  by rw Htx2 Hp Htx /pending H0.
Qed.

(** The request that has been built is sent, and the data of a well-formed
    answer becomes what there is to read. *)
Lemma process_interruption_spec (T : Prop) st Q :
  wf_dstate st → 0 < output_len st → answers T st →
  (∀ st' ex, rx st = ex :: rx st' → wf_dstate st' → output_len st' = 0 →
    match answer ex with
    | Some d =>
        unread st' = d → rb_offset st' = 0 → apdu_buf st' = ex_buf ex →
        tx st' = tx st ++ [pending st] → Q 0 st'
    | None => Q (-1) st'
    end) →
  wp T process_interruption Q st.
Proof.
  intros Hwf Hpos Ha HQ. rw /process_interruption. wp_steps.
  set (st0 := set_ux _ st). assert (wf_dstate st0) as Hwf0 by (by destruct Hwf; split).
  apply (io_exchange_spec T st0); [done|done|done|]. intros ex u Hrx Hu. cbv beta.
  pose proof (wf_rx _ Hwf) as Hex. change (rx st0) with (rx st) in *. rewrite Hrx in Hex.
  inversion_clear Hex as [|?? Hex1 Hex2].
  rw (proj2 (Z.ltb_ge _ _)); [|apply Hex1]. wp_steps.
  destruct (apdu_parser_answer ex Hex1) as (r & Hr & Hans). destruct Hex1 as (Hz & Hok & Hl).
  eapply wp_lift; [exact Hr|]. change (output_len st0) with (output_len st).
  rw (proj2 (Z.eqb_neq _ _)); [|lia]. set (st1 := set_disp_sw _ _).
  assert (wf_dstate st1) as Hwf1.
  { destruct (wf_write st (ex_buf ex) 0 Hwf) as [????? _ _]; [done|done|lia|]. by split. }
  destruct r as [cmd|].
  - destruct Hans as (Hans & Hlc & H5 & Hdata). destruct (negb _ || negb _).
    + wp_step. apply SEND_SW_spec; [done|done|]. intros st2 ?? Hrx2 ???. wp_steps.
      specialize (HQ st2 ex). rewrite Hans in HQ. apply HQ; [|done..]. by rw Hrx2.
    + wp_steps. set (st2 := set_read_buffer _ _ _).
      assert (wf_buffer (read_buffer st2)) as Hrb.
      { rw /st2 /read_buffer /= Hdata. destruct (Z.ltb_spec 0 (lc cmd)).
        - rw /wf_buffer /=. rw (zlen_drop 5); [|rw Hz; done].
          rw Hz. unfold IO_APDU_BUFFER_SIZE in *. split_and!; [lia..|auto with ledger].
        - replace (lc cmd) with 0 by lia. done. }
      specialize (HQ st2 ex). rewrite Hans in HQ. apply HQ; [done| |done| |done..].
      { destruct Hwf1. split; try done. simpl. rw Hdata. case_match; auto. }
      rw /unread /st2 /rest /read_buffer /= Hdata Hlc. destruct (Z.ltb_spec 0 (ex_len ex - 5)).
      * rw /slice /= drop_0. f_equal. lia.
      * rw /slice drop_nil take_nil. by replace (ex_len ex - 5) with 0 by lia.
  - wp_step. apply SEND_SW_spec; [done|done|]. intros st2 ?? Hrx2 ???. wp_steps.
    specialize (HQ st2 ex). rewrite Hans in HQ. apply HQ; [|done..]. by rw Hrx2.
Qed.

(** ** Reads of the answer *)

(** A reader that only moves the cursor. *)
Definition keeps {A} (rd : buffer → outcome (option A * buffer)) : Prop :=
  ∀ b r b', rd b = Val (r, b') → ptr b' = ptr b ∧ size b' = size b.

Lemma seek_cur_keeps b n : ptr (buffer_seek_cur b n).2 = ptr b ∧ size (buffer_seek_cur b n).2 = size b.
Proof. rw /buffer_seek_cur. by case_match. Qed.

Lemma read_u8_keeps : keeps (λ b, as_read (buffer_read_u8 b)).
Proof.
  intros b r b'. rw /as_read /buffer_read_u8. case_match; [by intros [= <- <-]|].
  destruct (load _ _); simpl; [|done..]. intros [= <- <-]. apply seek_cur_keeps.
Qed.

Lemma read_varint_keeps : keeps (λ b, as_read (buffer_read_varint b)).
Proof.
  intros b r b'. rw /as_read /buffer_read_varint.
  destruct (varint_read _ _) as [[len v]| | |]; simpl; [|done..].
  case_match; intros [= <- <-]; [done|]. apply seek_cur_keeps.
Qed.

Lemma read_bytes_keeps n : keeps (λ b, buffer_read_bytes b n).
Proof.
  intros b r b'. rw /buffer_read_bytes. case_match; [by intros [= <- <-]|].
  destruct (loads _ _ _); simpl; [|done..]. intros [= <- <-]. apply seek_cur_keeps.
Qed.

(** The state with another cursor. *)
Lemma wf_set_rb_offset st o :
  wf_dstate st → wf_buffer (mk_buffer (ptr (read_buffer st)) (size (read_buffer st)) o) →
  wf_dstate (set_rb_offset o st).
Proof. intros [] ?. by split. Qed.

Lemma rb_read_spec (T : Prop) {A} (rd : buffer → outcome (option A * buffer)) dec st Q :
  wf_dstate st → implements rd dec → keeps rd →
  match dec (unread st) with
  | Some (a, r) =>
      ∀ o, wf_dstate (set_rb_offset o st) → unread (set_rb_offset o st) = r →
        Q (Some a) (set_rb_offset o st)
  | None => Q None st
  end →
  wp T (rb_read rd) Q st.
Proof.
  intros Hwf Him Hk HQ. rw /rb_read. wp_steps.
  specialize (Him (read_buffer st) (wf_read_buffer _ Hwf)). simpl in Him. rewrite /unread in HQ.
  destruct (dec (rest (read_buffer st))) as [[a r]|].
  - destruct Him as ([p s o] & Hrd & Hwb & Hr). destruct (Hk _ _ _ Hrd) as [Hp Hs]. simpl in *.
    eapply wp_lift; [exact Hrd|]. wp_steps. subst p s. apply HQ; [|done].
    by apply wf_set_rb_offset.
  - eapply wp_lift; [exact Him|]. wp_steps. by destruct st.
Qed.

Lemma rb_read_u8_spec (T : Prop) st Q :
  wf_dstate st →
  match unread st with
  | v :: r =>
      ∀ o, wf_dstate (set_rb_offset o st) → unread (set_rb_offset o st) = r →
        Q (Some v) (set_rb_offset o st)
  | [] => Q None st
  end → wp T rb_read_u8 Q st.
Proof.
  intros Hwf HQ. apply (rb_read_spec _ _ u8_dec);
    [done|apply buffer_read_u8_implements|apply read_u8_keeps|]. by destruct (unread st).
Qed.

Lemma rb_read_varint_spec (T : Prop) st Q :
  wf_dstate st →
  match varint_dec (unread st) with
  | Some (v, r) =>
      ∀ o, wf_dstate (set_rb_offset o st) → unread (set_rb_offset o st) = r →
        Q (Some v) (set_rb_offset o st)
  | None => Q None st
  end → wp T rb_read_varint Q st.
Proof.
  intros Hwf HQ. by apply (rb_read_spec _ _ varint_dec);
    [done|apply buffer_read_varint_implements|apply read_varint_keeps|].
Qed.

Lemma rb_read_bytes_spec (T : Prop) n st Q :
  wf_dstate st → 0 ≤ n →
  (if zlen (unread st) <? n then Q None st
   else ∀ o, wf_dstate (set_rb_offset o st) →
          unread (set_rb_offset o st) = drop (Z.to_nat n) (unread st) →
          Q (Some (take (Z.to_nat n) (unread st))) (set_rb_offset o st)) →
  wp T (rb_read_bytes n) Q st.
Proof.
  intros Hwf Hn HQ. apply (rb_read_spec _ _ (bytes_dec n));
    [done|apply buffer_read_bytes_implements; lia|apply read_bytes_keeps|].
  rw /bytes_dec. by case_match.
Qed.

Lemma rb_can_read_spec (T : Prop) n st Q :
  wf_dstate st → Q (n <=? zlen (unread st)) st → wp T (rb_can_read n) Q st.
Proof.
  intros Hwf HQ. rw /rb_can_read. wp_steps. rw can_read_rest //. by destruct Hwf.
Qed.

Lemma rb_seek_cur_spec (T : Prop) n st Q :
  wf_dstate st → 0 ≤ n ≤ zlen (unread st) →
  (∀ o, wf_dstate (set_rb_offset o st) →
     unread (set_rb_offset o st) = drop (Z.to_nat n) (unread st) → Q () (set_rb_offset o st)) →
  wp T (rb_seek_cur n) Q st.
Proof.
  intros Hwf Hn HQ. pose proof (wf_read_buffer _ Hwf) as Hb. rw /rb_seek_cur. wp_steps.
  rw seek_cur_advance //. apply HQ.
  - apply wf_set_rb_offset; [done|]. by apply (advance_wf (read_buffer st)).
  - by apply (rest_advance (read_buffer st)).
Qed.

(** ** Correctness *)

(** Overflow: the recursive call is given the wrong length. *)
Lemma add_to_response_swap f st d n :
  258 < u32 (output_len st + n) → 258 < u32 (output_len st + u32 (258 - n)) →
  output_len st < 258 → 0 ≤ n < 2 ^ 32 → io_add_to_response f d n st = OutOfFuel.
Proof.
  revert n. induction f as [|f IH]; intros n H1 H2 Hlt Hn; [done|].
  cbn [io_add_to_response]. unfold mbind, io_bind, gets. unfold IO_APDU_BUFFER_SIZE.
  change (5 + 255 - 2) with 258. rw (proj2 (Z.leb_gt _ _)) //. rw (proj2 (Z.ltb_lt _ _)) //.
  rw IH //; [|apply u32_range].
  assert (u32 (258 - u32 (258 - n)) = n) as -> by
    (unfold u32; rw Zminus_mod_idemp_r; replace (258 - (258 - n)) with n by lia; by apply Z.mod_small).
  done.
Qed.

(** The branch of an overflow that ends. *)
Lemma add_to_response_overflow (T : Prop) st d Q :
  wf_dstate st → bytes_ok d → output_len st < 258 →
  258 < output_len st + zlen d → output_len st ≤ zlen d ≤ 258 →
  (∀ st', responding st (take (Z.to_nat (258 - zlen d)) d ++ sw_bytes SW_WRONG_RESPONSE_LENGTH) st' →
     Q () st') →
  wp T (add_to_response d) Q st.
Proof.
  intros Hwf Hd Hlt Hov Hle HQ. unfold add_to_response. remember 1%nat as f eqn:Hf.
  cbn [io_add_to_response]. wp_steps. change (IO_APDU_BUFFER_SIZE - 2) with 258.
  pose proof Hwf as [_ _ Ho _ _ _ _].
  rw (proj2 (Z.leb_gt _ _)) //. rw (u32_small (_ + _)); [|lia]. rw (proj2 (Z.ltb_lt _ _)) //.
  rw u32_small; [|lia]. wp_step. subst f. apply io_add_to_response_fits; [done|done|done|lia|lia|].
  intros st1 Hr. pose proof (responding_len _ _ _ Hwf Hr) as Hlen. rewrite zlen_take in Hlen; [|lia].
  destruct Hr as (Hwf1 & Hp1 & Hrx1 & Htx1 & Hux1). cbv beta.
  apply io_finalize_response_fits; [done| |].
  { destruct (decide (output_len st1 < 258)); [by left|right]. split; [lia|done]. }
  intros st2 (Hwf2 & Hp2 & ? & ? & ?) _. apply HQ. rw /responding Hp2 Hp1 app_assoc.
  split_and!; congruence.
Qed.

(** The branch that copies from beyond the end of the data. *)
Lemma add_to_response_overread st d :
  wf_dstate st → output_len st < 258 → 258 < zlen d ≤ output_len st + 258 →
  add_to_response d st = Undef.
Proof.
  intros Hwf Hlt Hd. pose proof Hwf as [_ _ Ho _ _ _ _]. unfold add_to_response.
  cbn [io_add_to_response]. unfold mbind, io_bind, gets. change (IO_APDU_BUFFER_SIZE - 2) with 258.
  rw (proj2 (Z.leb_gt _ _)) //. rw (u32_small (_ + zlen d)); [|lia]. rw (proj2 (Z.ltb_lt 258 _)); [|lia].
  assert (u32 (258 - zlen d) = 2 ^ 32 + 258 - zlen d) as ->.
  { unfold u32. rw -(Z.mod_add _ 1) //. rw Z.mod_small; lia. }
  assert (u32 (output_len st + (2 ^ 32 + 258 - zlen d)) = output_len st + 258 - zlen d) as ->.
  { unfold u32. rw -(Z.mod_add _ (-1)) //. rw Z.mod_small; lia. }
  rw (proj2 (Z.ltb_ge _ _)); [|lia]. rw /lift /loads decide_False; [|lia].
  by rw (proj2 (Z.leb_gt _ _)).
Qed.

(** The branch for a response that is already too long. *)
Lemma add_to_response_full st d :
  wf_dstate st → 258 ≤ output_len st →
  ∃ st', add_to_response d st = Val ((), st') ∧ responding (set_output_len 258 st) (sw_bytes SW_WRONG_RESPONSE_LENGTH) st'.
Proof.
  intros Hwf Ho. pose proof Hwf as [Hs Hb Hlen _ _ _ _].
  assert (wf_dstate (set_output_len 258 st)) as Hwf' by (by apply (wf_write st (apdu_buf st) 258)).
  destruct (store_pending (set_output_len 258 st) (sw_bytes SW_WRONG_RESPONSE_LENGTH) Hwf') as (p & Hp & Hwf2 & Hpend);
    [by apply (bool_decide_unpack _)|done|].
  exists (set_output_len 260 (set_apdu_buf p st)). split; [|done].
  unfold add_to_response. cbn [io_add_to_response]. unfold mbind, io_bind, gets. rw (proj2 (Z.leb_le _ _)) //.
  rw write_u16_be_stores. change (IO_APDU_BUFFER_SIZE - 2) with 258. cbn in Hp. unfold sw_bytes in Hp. by rw /lift Hp.
Qed.

(** C40: adding data to a response, for every length of the response so far and
    of the data.  While it fits in the APDU buffer before the status word, the
    data is appended; when the response has already reached the place of the
    status word, the one of a wrong response length is written there.  When the
    data does not fit any more, the function appends a part of it and the status
    word of a wrong response length if the data is at least as long as the
    response so far and fits in an empty buffer; in every other case the length
    of the recursive call is wrong: either the recursion never ends, or the copy
    reads beyond the data. *)
Theorem add_to_response_correct st d :
  wf_dstate st → bytes_ok d → zlen d < 2 ^ 31 →
  let n := zlen d in let o := output_len st in
  if decide (258 ≤ o) then
    ∃ st', add_to_response d st = Val ((), st') ∧ responding (set_output_len 258 st) (sw_bytes SW_WRONG_RESPONSE_LENGTH) st'
  else if decide (o + n ≤ 258) then ∃ st', add_to_response d st = Val ((), st') ∧ responding st d st'
  else if decide (o ≤ n ≤ 258) then
    ∃ st', add_to_response d st = Val ((), st') ∧
      responding st (take (Z.to_nat (258 - n)) d ++ sw_bytes SW_WRONG_RESPONSE_LENGTH) st'
  else if decide (258 < n ≤ o + 258) then add_to_response d st = Undef
  else ∀ fuel, io_add_to_response fuel d n st = OutOfFuel.
Proof.
  intros Hwf Hd Hn n o. pose proof Hwf as [_ _ Ho _ _ _ _]. pose proof (zlen_nonneg d).
  case_decide as Hlt; [by apply add_to_response_full|]. apply Z.nle_gt in Hlt. repeat case_decide.
  - destruct (wp_returns (add_to_response d) (λ _ st', responding st d st') st) as ([] & st' & ?).
    { by apply add_to_response_fits. }
    by exists st'.
  - destruct (wp_returns (add_to_response d) (λ _ st', responding st
      (take (Z.to_nat (258 - n)) d ++ sw_bytes SW_WRONG_RESPONSE_LENGTH) st') st) as ([] & st' & ?).
    { apply add_to_response_overflow; try done. unfold o, n in *. lia. }
    by exists st'.
  - apply add_to_response_overread; unfold o, n in *; [done|lia..].
  - intros fuel. unfold o, n in *. apply add_to_response_swap; [|..|done|lia]; [rw u32_small; lia|].
    destruct (decide (zlen d ≤ 258)).
    + rw (u32_small (258 - _)); [|lia]. rw u32_small; lia.
    + unfold u32. rw Zplus_mod_idemp_r -(Z.mod_add _ 1) //. rw Z.mod_small; lia.
Qed.

(** A state in which a response of [n] zero bytes has been built. *)
Definition sample_ux : ux_state := mk_ux 0 false false 0 0 false false 0.
Definition sample_state (n : Z) (rx : list exchange) : dstate :=
  mk_dstate (replicate 260 0) n None 0 0 0 sample_ux rx [].

Lemma sample_state_wf n rx :
  0 ≤ n ≤ 260 → Forall wf_exchange rx → wf_dstate (sample_state n rx).
Proof.
  intros. split; try done; [by apply Forall_replicate|by left].
Qed.

Lemma add_to_response_correct_witness :
  io_add_to_response 100 [1; 2; 3; 4] 4 (sample_state 256 []) = OutOfFuel.
Proof.
  apply (add_to_response_correct (sample_state 256 []) [1; 2; 3; 4]);
    [by apply sample_state_wf|by apply (bool_decide_unpack _)|done].
Defined.

(** Ticks only ever bring the difference back below the timeout when the
    counter wraps around. *)
Lemma ticker_events_silent n u :
  0 ≤ ticks u < 2 ^ 16 → 2 ^ 16 - INTERRUPTION_TIMEOUT_TICKS ≤ interruption_start_tick u →
  ∃ u', ticker_events n u = Val u'.
Proof.
  revert u. induction n as [|n IH]; intros u Hu Hs; [by exists u|].
  cbn [ticker_events]. unfold ticker_event. cbv zeta. set (u1 := processing_event _).
  assert (ticks u1 = u16 (ticks u + 1)) as Ht by apply processing_event_ticks.
  assert (interruption_start_tick u1 = interruption_start_tick u) as Hs1
    by (subst u1; rw /processing_event; by case_match).
  pose proof (u16_range (ticks u + 1)).
  rw (proj2 (Z.leb_gt INTERRUPTION_TIMEOUT_TICKS _)); [|lia]. rw andb_false_r /=.
  apply IH; lia.
Qed.

Lemma ticker_events_fires n u k :
  timeout_interruption u = true → 0 ≤ k → ticks u = interruption_start_tick u + k →
  0 ≤ interruption_start_tick u → interruption_start_tick u < 2 ^ 16 - INTERRUPTION_TIMEOUT_TICKS →
  k < INTERRUPTION_TIMEOUT_TICKS ≤ k + Z.of_nat n →
  ticker_events n u = Throw EXCEPTION_IO_RESET.
Proof.
  revert u k. induction n as [|n IH]; intros u k Hi Hk Ht H0 Hs Hn; [lia|].
  cbn [ticker_events]. unfold ticker_event. cbv zeta. set (u1 := processing_event _).
  assert (ticks u1 = u16 (ticks u + 1)) as Ht1 by apply processing_event_ticks.
  assert (interruption_start_tick u1 = interruption_start_tick u ∧ timeout_interruption u1 = true)
    as [Hs1 Hi1] by (subst u1; rw /processing_event; by case_match).
  unfold INTERRUPTION_TIMEOUT_TICKS in *. rewrite u16_small in Ht1; [|lia].
  rw Hi1 /=. destruct (Z.leb_spec 50 (ticks u1 - interruption_start_tick u1)); [done|].
  cbn [mbind outcome_bind mret outcome_ret]. apply (IH u1 (k + 1)); [done|lia..].
Qed.

(** The interruption timeout.  While a client command waits for its
    answer, the application is reset exactly when 50 ticks have passed, except
    that the counter is 16 bits wide and the difference of the ticks is not: a
    timeout that starts in the last 50 values of the counter never fires. *)
Lemma interruption_timeout_correct n u :
  0 ≤ ticks u < 2 ^ 16 →
  let u0 := start_interruption_timeout u in
  if decide (ticks u < 2 ^ 16 - INTERRUPTION_TIMEOUT_TICKS) then
    ticker_events n u0 = Throw EXCEPTION_IO_RESET ↔ INTERRUPTION_TIMEOUT_TICKS ≤ Z.of_nat n
  else ticker_events n u0 ≠ Throw EXCEPTION_IO_RESET.
Proof.
  intros Hu u0. case_decide as Hs.
  - split.
    + intros Hthrow. destruct (decide (INTERRUPTION_TIMEOUT_TICKS ≤ Z.of_nat n)); [done|].
      destruct (ticker_events_prompt n u0 0) as [u' Hu']; [done|lia|simpl; lia|lia|congruence].
    + intros Hn. apply (ticker_events_fires n u0 0); simpl; [done|lia..|unfold INTERRUPTION_TIMEOUT_TICKS in *; lia].
  - destruct (ticker_events_silent n u0) as [u' ->]; [done|simpl; lia|done].
Qed.

Lemma find_handler_spec ds c i b :
  find_handler ds c i b =
    match list_find (λ d, desc_cla d = c ∧ desc_ins d = i) ds with
    | Some (_, d) => (true, Some (handler d))
    | None => (b || bool_decide (Exists (λ d, desc_cla d = c) ds), None)
    end.
Proof.
  revert b. induction ds as [|d ds IH]; intros b; [by rw /= orb_false_r|]. cbn [find_handler list_find].
  destruct (Z.eqb_spec (desc_cla d) c) as [Hc|Hc]; cbn [negb];
    [destruct (Z.eqb_spec (desc_ins d) i) as [Hi|Hi]; cbn [negb]|].
  - rewrite (decide_True (P := _ ∧ _)); done.
  - rewrite (decide_False (P := _ ∧ _)); [|by intros [? ?]]. rw IH.
    destruct (list_find _ ds) as [[? ?]|]; simpl; [done|].
    rw bool_decide_eq_true_2 ?orb_true_r //. by left.
  - rewrite (decide_False (P := _ ∧ _)); [|by intros [? ?]]. rw IH.
    destruct (list_find _ ds) as [[? ?]|]; simpl; [done|]. do 2 f_equal.
    apply bool_decide_ext. rw Exists_cons. naive_solver.
Qed.

Lemma io_send_sw_spec (T : Prop) st sw Q :
  wf_dstate st →
  (∀ st', wf_dstate st' → rx st' = rx st → tx st' = tx st ++ [sw_bytes sw] →
     ux st' = ux st → Q () st') →
  wp T (io_send_sw sw) Q st.
Proof.
  intros Hwf HQ. rw /io_send_sw /io_send_response /io_set_response /io_reset_response. wp_steps.
  apply io_finalize_response_fits; [by destruct Hwf; split|by left|].
  intros st1 (Hwf1 & Hp1 & ?&?&?) ?. cbv beta. apply io_confirm_response_spec; [done|].
  intros st2 ??? Htx2 ??. simpl in *.
  apply HQ; [done|congruence| |congruence]. rw Htx2 Hp1. by f_equal.
Qed.

(** The state in which a handler starts. *)
Definition handler_entry (cmd : command) (st : dstate) : dstate :=
  let st := set_read_buffer (data cmd) (lc cmd)
              (set_disp_sw 0 (set_ux (set_had_ux_flow false (ux st)) st)) in
  set_ux (start_processing_timeout (ux st)) st.

(** A command of the host as the parser of APDUs leaves it. *)
Definition wf_command (cmd : command) : Prop :=
  0 ≤ lc cmd ≤ 255 ∧ data cmd = if 0 <? lc cmd then Some OFFSET_CDATA else None.

Lemma set_read_buffer_wf cmd st :
  wf_dstate st → wf_command cmd → wf_dstate (set_read_buffer (data cmd) (lc cmd) st).
Proof.
  intros [Hs Hb Ho Hbase Hrb Ht Hrx] [Hl Hd]. split; try done.
  { simpl. rw Hd. case_match; auto. }
  rw /wf_buffer /read_buffer /= Hd.
  destruct (Z.ltb_spec 0 (lc cmd)).
  - rw (zlen_drop 5); [|by rw Hs]. rw Hs. unfold IO_APDU_BUFFER_SIZE.
    split_and!; [lia..|auto with ledger].
  - by replace (lc cmd) with 0 by lia.
Qed.

Lemma handler_entry_wf cmd st : wf_dstate st → wf_command cmd → wf_dstate (handler_entry cmd st).
Proof.
  intros Hwf Hc. destruct (set_read_buffer_wf cmd st Hwf Hc). by split.
Qed.

(** The whole behaviour of [apdu_dispatcher] as a relation between the
    command, the state and what is sent. *)
Definition dispatches (ds : list command_descriptor) (cmd : command) (st : dstate) : Prop :=
  let replies sw := ∃ st', apdu_dispatcher ds cmd st = Val ((), st') ∧ wf_dstate st' ∧
                       rx st' = rx st ∧ tx st' = tx st ++ [sw_bytes sw] in
  if decide (CURRENT_PROTOCOL_VERSION < p2 cmd) then replies SW_WRONG_P1P2
  else if decide (cla cmd = CLA_FRAMEWORK ∧ ins cmd = INS_CONTINUE) then replies SW_BAD_STATE
  else
    match list_find (λ d, desc_cla d = cla cmd ∧ desc_ins d = ins cmd) ds with
    | Some (_, d) =>
        match handler d (p2 cmd) (handler_entry cmd st) with
        | Val (_, st1) =>
            wf_dstate st1 →
            ∃ st', apdu_dispatcher ds cmd st = Val ((), st') ∧ rx st' = rx st1 ∧
              timeout_processing (ux st') = false ∧
              tx st' = if decide (disp_sw st1 = 0) then tx st1 ++ [sw_bytes SW_BAD_STATE] else tx st1
        | Undef => apdu_dispatcher ds cmd st = Undef
        | Throw e => apdu_dispatcher ds cmd st = Throw e
        | OutOfFuel => apdu_dispatcher ds cmd st = OutOfFuel
        end
    | None =>
        if decide (Exists (λ d, desc_cla d = cla cmd) ds) then replies SW_INS_NOT_SUPPORTED
        else replies SW_CLA_NOT_SUPPORTED
    end.

Lemma dispatcher_epilogue_spec st :
  wf_dstate st →
  ∃ st', dispatcher_epilogue st = Val ((), st') ∧ rx st' = rx st ∧
    timeout_processing (ux st') = false ∧
    tx st' = if decide (disp_sw st = 0) then tx st ++ [sw_bytes SW_BAD_STATE] else tx st.
Proof.
  intros Hwf. destruct (wp_returns dispatcher_epilogue (λ _ st', rx st' = rx st ∧
    timeout_processing (ux st') = false ∧
    tx st' = if decide (disp_sw st = 0) then tx st ++ [sw_bytes SW_BAD_STATE] else tx st) st)
    as ([] & st' & ?); [|by exists st'].
  rw /dispatcher_epilogue. wp_steps. destruct (Z.eqb_spec (disp_sw st) 0) as [H0|H0].
  - rewrite decide_True //. apply io_send_sw_spec; [done|]. intros st1 ????. wp_steps.
    destruct (had_ux_flow _ || _); by wp_steps.
  - rewrite decide_False //. wp_steps. destruct (had_ux_flow _ || _); by wp_steps.
Qed.

(** The dispatcher of commands.  A command of an unknown protocol version,
    an INS_CONTINUE without an interrupted command, and a command of an unknown
    class or instruction are answered with their status word and reach no
    handler; any other command runs the first handler that is described for
    its class and instruction on the data of the command, and when that
    handler returns without a status word, SW_BAD_STATE is sent. *)
Lemma apdu_dispatcher_correct ds cmd st :
  wf_dstate st → wf_command cmd → dispatches ds cmd st.
Proof.
  intros Hwf Hc. rw /dispatches /apdu_dispatcher. unfold mbind, io_bind, modify. cbv beta iota.
  set (st0 := set_read_buffer _ _ _).
  assert (wf_dstate st0) as Hwf0 by (by destruct (set_read_buffer_wf cmd st Hwf Hc); split).
  assert (∀ sw, ∃ st', io_send_sw sw st0 = Val ((), st') ∧ wf_dstate st' ∧
            rx st' = rx st ∧ tx st' = tx st ++ [sw_bytes sw]) as Hsend.
  { intros sw. destruct (wp_returns (io_send_sw sw) (λ _ st', wf_dstate st' ∧ rx st' = rx st ∧
      tx st' = tx st ++ [sw_bytes sw]) st0) as ([] & st' & ?); [|by exists st'].
    by apply io_send_sw_spec. }
  case_decide as Hp; [rw (proj2 (Z.ltb_lt _ _)) //; apply Hsend|].
  rw (proj2 (Z.ltb_ge _ _)); [|lia]. case_decide as Hi.
  { destruct Hi as [-> ->]. rw !Z.eqb_refl. apply Hsend. }
  rw (_ : (cla cmd =? CLA_FRAMEWORK) && (ins cmd =? INS_CONTINUE) = false); last first.
  { destruct (Z.eqb_spec (cla cmd) CLA_FRAMEWORK), (Z.eqb_spec (ins cmd) INS_CONTINUE); tauto. }
  rw find_handler_spec. destruct (list_find _ ds) as [[n d]|]; cbn [orb].
  - change (set_ux (start_processing_timeout (ux st0)) st0) with (handler_entry cmd st).
    destruct (handler d (p2 cmd) (handler_entry cmd st)) as [[[] st1]| | |]; [|done..].
    intros Hwf1. by apply dispatcher_epilogue_spec.
  - case_decide; [rw bool_decide_eq_true_2 //|rw bool_decide_eq_false_2 //]; apply Hsend.
Qed.
