(* ===== verification/MerkleClient.v ===== *)
(** * Client commands

    Models src/src/handler/lib: the flows that ask the host for Merkle proofs,
    preimages and the contents of merkleized maps (get_merkle_leaf_hash.c,
    get_merkle_leaf_index.c, get_preimage.c, get_merkle_preimage.c,
    get_merkle_leaf_element.c, get_merkleized_map.c,
    get_merkleized_map_value.c, get_merkleized_map_value_hash.c,
    check_merkle_tree_sorted.c, stream_preimage.c,
    stream_merkle_leaf_element.c, stream_merkleized_map_value.c).

    The host is not trusted: the theorems are about every list of answers.
    Each iteration of a loop that asks for more elements consumes an answer,
    so that the number of answers to come bounds the number of iterations.
    SHA-256 is a parameter. *)

From S2P Require Import Prelude Bytes Bip32 Buffer Merkle Dispatcher.

(** ** handler/client_commands.h *)
Definition CCMD_YIELD : Z := 0x10.
Definition CCMD_GET_PREIMAGE : Z := 0x40.
Definition CCMD_GET_MERKLE_LEAF_PROOF : Z := 0x41.
Definition CCMD_GET_MERKLE_LEAF_INDEX : Z := 0x42.
Definition CCMD_GET_MORE_ELEMENTS : Z := 0xA0.

Definition MAX_CHECK_MERKLE_TREE_SORTED_PREIMAGE_SIZE : Z := 162.

(** A pointer into the APDU buffer ([None] is NULL) and the memory it points
    to when it is used. *)
Definition read_ptr (st : dstate) : option Z := (λ base, base + rb_offset st) <$> rb_base st.
Definition apdu_mem (p : option Z) (st : dstate) : list Z :=
  match p with Some pos => drop (Z.to_nat pos) (apdu_buf st) | None => [] end.

Definition cur_ptr : io (option Z) := gets read_ptr.
Definition apdu_at (p : option Z) : io (list Z) := gets (apdu_mem p).

(** The bound on the number of iterations of a loop that asks for more
    elements. *)
Definition answers_left : io nat := gets (λ st, S (length (rx st))).

(** [varint_write] into the 9 bytes of [tmp], of which the written ones are
    added to the response. *)
Definition add_varint (v : Z) : io () :=
  '(len, tmp) ← lift (varint_write (replicate 9 0) 0 v);
  io_add_to_response 2 tmp len.

(** The request for more elements, and its answer: the number of elements,
    when they have the expected size and their bytes are there.  An answer that
    is too short ([inr 0]) is rejected before one whose elements have another
    size ([inr 1]). *)
Definition request_more : io Z :=
  _ ← SET_RESPONSE [CCMD_GET_MORE_ELEMENTS] SW_INTERRUPTED_EXECUTION;
  process_interruption.

Definition read_more (len : Z) : io (Z + Z) :=
  n ← rb_read_u8;
  match n with
  | None => mret (inr 0)
  | Some n =>
      e ← rb_read_u8;
      match e with
      | None => mret (inr 0)
      | Some e =>
          ok ← rb_can_read (size_t (n * e));
          if negb ok then mret (inr 0)
          else if negb (e =? len) then mret (inr 1)
          else mret (inl n)
      end
  end.

Section client.
Context (sha256 : list Z → list Z).

(** ** handler/lib/get_merkle_leaf_hash.c *)

(** The request GET_MERKLE_LEAF_PROOF. *)
Definition request_leaf_proof (merkle_root : list Z) (tree_size leaf_index : Z) : io Z :=
  _ ← add_to_response [CCMD_GET_MERKLE_LEAF_PROOF];
  _ ← add_to_response merkle_root;
  _ ← add_varint tree_size;
  _ ← add_varint leaf_index;
  _ ← finalize_response SW_INTERRUPTED_EXECUTION;
  process_interruption.

(** The [for] loop over the proof elements of one answer; [None] is the return
    of an error. *)
Fixpoint proof_steps (n : nat) (tree_size leaf_index proof_size cur_step : Z) (cur_hash : list Z)
    : io (option (list Z)) :=
  match n with
  | O => mret (Some cur_hash)
  | S n' =>
      p ← cur_ptr;
      direction ← lift (merkle_get_ith_direction tree_size leaf_index (proof_size - cur_step - 1));
      if (direction =? 0) || (direction =? 1) then
        mem ← apdu_at p;
        sibling ← lift (loads mem 0 32);
        let h := if direction =? 0 then merkle_combine_hashes sha256 cur_hash sibling
                 else merkle_combine_hashes sha256 sibling cur_hash in
        _ ← rb_seek_cur 32;
        proof_steps n' tree_size leaf_index proof_size (cur_step + 1) h
      else mret None
  end.

(** The [while] loop; [None] is the return of an error. *)
Fixpoint proof_loop (fuel : nat) (tree_size leaf_index proof_size n_proof_elements cur_step : Z)
    (cur_hash : list Z) : io (option (list Z)) :=
  match fuel with
  | O => λ _, OutOfFuel
  | S f =>
      r ← proof_steps (Z.to_nat n_proof_elements) tree_size leaf_index proof_size cur_step cur_hash;
      match r with
      | None => mret None
      | Some cur_hash =>
          let cur_step := cur_step + n_proof_elements in
          if cur_step =? proof_size then mret (Some cur_hash)
          else
            res ← request_more;
            if res <? 0 then mret None
            else
              m ← read_more 32;
              match m with
              | inr _ => mret None
              | inl n =>
                  if proof_size <? cur_step + n then mret None
                  else proof_loop f tree_size leaf_index proof_size n cur_step cur_hash
              end
      end
  end.

(** The reads of the first answer: the leaf hash, the size of the proof and
    the number of its elements in this answer. *)
Definition read_proof_header : io (option (list Z * Z * Z)) :=
  h ← rb_read_bytes 32;
  match h with
  | None => mret None
  | Some h =>
      ps ← rb_read_u8;
      match ps with
      | None => mret None
      | Some ps =>
          n ← rb_read_u8;
          match n with
          | None => mret None
          | Some n =>
              if ps <? n then mret None
              else
                ok ← rb_can_read (size_t (32 * n));
                if negb ok then mret None else mret (Some (h, ps, n))
          end
      end
  end.

(** The result is the returned code and the contents of [out], when it has
    been written. *)
Definition call_get_merkle_leaf_hash (merkle_root : list Z) (tree_size leaf_index : Z)
    : io (Z * option (list Z)) :=
  res ← request_leaf_proof merkle_root tree_size leaf_index;
  if res <? 0 then mret (-1, None)
  else
    hd ← read_proof_header;
    match hd with
    | None => mret (-1, None)
    | Some (cur_hash, proof_size, n_proof_elements) =>
        fuel ← answers_left;
        r ← proof_loop fuel tree_size leaf_index proof_size n_proof_elements 0 cur_hash;
        match r with
        | None => mret (-1, Some cur_hash)
        | Some root =>
            if bool_decide (root = merkle_root) then mret (0, Some cur_hash)
            else mret (-1, Some cur_hash)
        end
    end.

(** ** handler/lib/get_merkle_leaf_index.c *)

(** The request GET_MERKLE_LEAF_INDEX. *)
Definition request_leaf_index (root leaf_hash : list Z) : io Z :=
  _ ← SET_RESPONSE ([CCMD_GET_MERKLE_LEAF_INDEX] ++ root ++ leaf_hash) SW_INTERRUPTED_EXECUTION;
  process_interruption.

Definition call_get_merkle_leaf_index (size : Z) (root leaf_hash : list Z) : io Z :=
  res ← request_leaf_index root leaf_hash;
  if res <? 0 then mret (-3)
  else
    found ← rb_read_u8;
    match found with
    | None => mret (-1)
    | Some found =>
        index ← rb_read_varint;
        match index with
        | None => mret (-1)
        | Some index =>
            if negb (found =? 0) && negb (found =? 1) then mret (-2)
            else if found =? 0 then mret (-3)
            else
              '(res, h) ← call_get_merkle_leaf_hash root (u32 size) (u32 index);
              if res <? 0 then mret (-4)
              else if bool_decide (h = Some leaf_hash) then mret (i32 index)
              else mret (-5)
        end
    end.

(** ** handler/lib/get_preimage.c *)

(** The request GET_PREIMAGE; the byte between the command and the hash is the
    (only) supported type of hash. *)
Definition request_preimage (hash : list Z) : io Z :=
  _ ← add_to_response [CCMD_GET_PREIMAGE];
  _ ← add_to_response [0];
  _ ← add_to_response hash;
  _ ← finalize_response SW_INTERRUPTED_EXECUTION;
  process_interruption.

(** The length of the preimage and that of the data in the first answer. *)
Definition read_preimage_header : io (option (Z * Z)) :=
  len ← rb_read_varint;
  match len with
  | None => mret None
  | Some len =>
      n ← rb_read_u8;
      match n with
      | None => mret None
      | Some n => ok ← rb_can_read n; if negb ok then mret None else mret (Some (len, n))
      end
  end.

(** The loop that get_preimage.c, get_merkle_preimage.c and stream_preimage.c
    share: [data] has been hashed so far, [step] is what is done with [n_bytes]
    more bytes once they are hashed.  The errors are numbered from [err]
    downwards; the result is an error code (0 at the end of the data), the
    hashed data and the state of the caller. *)
Fixpoint more_bytes {S} (err : Z) (step : Z → S → io S) (fuel : nat) (bytes_remaining : Z)
    (data : list Z) (s : S) : io (Z * list Z * S) :=
  match fuel with
  | O => λ _, OutOfFuel
  | S f =>
      if bytes_remaining =? 0 then mret (0, data, s)
      else
        res ← request_more;
        if res <? 0 then mret (err, data, s)
        else
          m ← read_more 1;
          match m with
          | inr e => mret (if e =? 0 then err - 1 else err - 2, data, s)
          | inl n_bytes =>
              if bytes_remaining <? n_bytes then mret (err - 3, data, s)
              else
                p ← cur_ptr;
                mem ← apdu_at p;
                chunk ← lift (loads mem 0 n_bytes);
                s ← step n_bytes s;
                more_bytes err step f (bytes_remaining - n_bytes) (data ++ chunk) s
          end
  end.

(** The bytes at the cursor are written to the output; that they may not fit
    is ignored. *)
Definition preimage_step (n_bytes : Z) (out : buffer) : io buffer :=
  data_ptr ← cur_ptr;
  mem ← apdu_at data_ptr;
  '(_, out) ← lift (buffer_write_bytes out mem n_bytes);
  mret out.

(** The result is the returned code and the contents of [out], whose length is
    [out_len]. *)
Definition call_get_preimage (hash out : list Z) : io (Z * list Z) :=
  res ← request_preimage hash;
  if res <? 0 then mret (-1, out)
  else
    hd ← read_preimage_header;
    match hd with
    | None => mret (-2, out)
    | Some (preimage_len_u64, partial_data_len) =>
        let preimage_len := u32 preimage_len_u64 in
        if preimage_len <? 1 then mret (-3, out)
        else if preimage_len <? partial_data_len then mret (-4, out)
        else
          let buffer_out := buffer_create out (zlen out) in
          data_ptr ← cur_ptr;
          mem ← apdu_at data_ptr;
          chunk ← lift (loads mem 0 partial_data_len);
          '(_, buffer_out) ← lift (buffer_write_bytes buffer_out mem partial_data_len);
          fuel ← answers_left;
          '(e, data, buffer_out) ← more_bytes (-5) preimage_step fuel
                                     (preimage_len - partial_data_len) chunk buffer_out;
          if e <? 0 then mret (e, ptr buffer_out)
          else if bool_decide (sha256 data = hash) then mret (i32 preimage_len, ptr buffer_out)
          else mret (-9, ptr buffer_out)
    end.

(** ** handler/lib/get_merkle_preimage.c *)

(** The bytes that are hashed are those of the last answer, the ones that are
    written to the output are read at [data_ptr], the position of the data in
    the first answer. *)
Definition merkle_preimage_step (data_ptr : option Z) (n_bytes : Z) (out : buffer) : io buffer :=
  mem ← apdu_at data_ptr;
  '(_, out) ← lift (buffer_write_bytes out mem n_bytes);
  mret out.

Definition call_get_merkle_preimage (hash out : list Z) : io (Z * list Z) :=
  res ← request_preimage hash;
  if res <? 0 then mret (-1, out)
  else
    hd ← read_preimage_header;
    match hd with
    | None => mret (-2, out)
    | Some (preimage_len, partial_data_len) =>
        if (preimage_len =? 0) || (partial_data_len =? 0) then mret (-3, out)
        else if zlen out <? preimage_len - 1 then mret (-4, out)
        else if preimage_len <? partial_data_len then mret (-5, out)
        else
          data_ptr ← cur_ptr;
          mem ← apdu_at data_ptr;
          chunk ← lift (loads mem 0 partial_data_len);
          '(_, out_buffer) ← lift (buffer_write_bytes (buffer_create out (zlen out))
                                     (drop 1 mem) (partial_data_len - 1));
          fuel ← answers_left;
          '(e, data, out_buffer) ← more_bytes (-6) (merkle_preimage_step data_ptr) fuel
                                     (u32 preimage_len - partial_data_len) chunk out_buffer;
          if e <? 0 then mret (e, ptr out_buffer)
          else if bool_decide (sha256 data = hash) then
            mret (i32 (preimage_len - 1), ptr out_buffer)
          else mret (-10, ptr out_buffer)
    end.

(** ** handler/lib/get_merkle_leaf_element.c *)
Definition call_get_merkle_leaf_element (merkle_root : list Z) (tree_size leaf_index : Z)
    (out : list Z) : io (Z * list Z) :=
  '(res, leaf_hash) ← call_get_merkle_leaf_hash merkle_root tree_size leaf_index;
  if res <? 0 then mret (res, out)
  else call_get_merkle_preimage (default [] leaf_hash) out.

(** ** handler/lib/get_merkleized_map_value.c and get_merkleized_map_value_hash.c *)
Definition call_get_merkleized_map_value (map : merkleized_map_commitment) (key out : list Z)
    : io (Z * list Z) :=
  index ← call_get_merkle_leaf_index (size_t (map_size map)) (keys_root map)
            (merkle_compute_element_hash sha256 key);
  if index <? 0 then mret (-1, out)
  else call_get_merkle_leaf_element (values_root map) (u32 (map_size map)) index out.

(** The array [result_raw] is not initialised: its contents are [raw]. *)
Definition call_get_merkleized_map_value_u32_le (raw : list Z) (map : merkleized_map_commitment) (key : list Z)
    : io (Z * option Z) :=
  '(res, result_raw) ← call_get_merkleized_map_value map key raw;
  if negb (res =? 4) then mret (-1, None)
  else v ← lift (read_u32_le result_raw 0); mret (4, Some v).

Definition call_get_merkleized_map_value_hash (map : merkleized_map_commitment) (key : list Z)
    : io (Z * option (list Z)) :=
  index ← call_get_merkle_leaf_index (size_t (map_size map)) (keys_root map)
            (merkle_compute_element_hash sha256 key);
  if index <? 0 then mret (-1, None)
  else call_get_merkle_leaf_hash (values_root map) (u32 (map_size map)) index.

(** ** handler/lib/check_merkle_tree_sorted.c *)

(** [memcmp] of two arrays of the same length: the difference of the first
    bytes that differ (callers use its sign). *)
Fixpoint memcmp (a b : list Z) : Z :=
  match a, b with
  | x :: a', y :: b' => if x =? y then memcmp a' b' else x - y
  | _, _ => 0
  end.

Definition compare_byte_arrays (array1 : list Z) (array1_len : Z) (array2 : list Z) (array2_len : Z)
    : outcome Z :=
  let min_len := if array1_len <? array2_len then array1_len else array2_len in
  memcmp_result ← (if min_len =? 0 then mret 0
                   else a ← loads array1 0 min_len; b ← loads array2 0 min_len; mret (memcmp a b));
  if memcmp_result =? 0 then
    if array1_len <? array2_len then mret (-1)
    else if array2_len <? array1_len then mret 1
    else mret 0
  else mret memcmp_result.

(** A callback gets the index and the contents of an element; it may change
    its own state and exchange data with the host.  The uninitialised arrays
    [prev_el] and [cur_el] hold [raw]. *)
Fixpoint sorted_loop {CS} (callback : option (Z → buffer → CS → io CS)) (raw root : list Z)
    (fuel : nat) (size cur_el_idx : Z) (prev_el : list Z) (prev_el_len : Z) (cs : CS)
    : io (Z * CS) :=
  match fuel with
  | O => λ _, OutOfFuel
  | S f =>
      if size <=? cur_el_idx then mret (0, cs)
      else
        '(cur_el_len, cur_el) ← call_get_merkle_leaf_element root size cur_el_idx raw;
        if cur_el_len <? 0 then mret (-1, cs)
        else
          c ← lift (if 0 <? cur_el_idx then compare_byte_arrays prev_el prev_el_len cur_el cur_el_len
                    else mret (-1));
          if 0 <=? c then mret (-1, cs)
          else
            src ← lift (loads cur_el 0 cur_el_len);
            prev_el ← lift (stores prev_el 0 src);
            cs ← match callback with
                 | Some cb => cb cur_el_idx (buffer_create cur_el cur_el_len) cs
                 | None => mret cs
                 end;
            sorted_loop callback raw root f size (cur_el_idx + 1) prev_el cur_el_len cs
  end.

Definition call_check_merkle_tree_sorted_with_callback {CS}
    (callback : option (Z → buffer → CS → io CS)) (raw root : list Z) (size : Z) (cs : CS)
    : io (Z * CS) :=
  fuel ← answers_left;
  sorted_loop callback raw root fuel (size_t size) 0 raw 0 cs.

Definition call_check_merkle_tree_sorted (raw root : list Z) (size : Z) : io Z :=
  '(r, _) ← call_check_merkle_tree_sorted_with_callback (CS := ()) None raw root size ();
  mret r.

(** ** handler/lib/get_merkleized_map.c *)

(** [raw_output] is not initialised.  The fields of [out_ptr] that have been
    read are returned. *)
Definition call_get_merkleized_map_with_callback {CS}
    (callback : option (merkleized_map_commitment → Z → buffer → CS → io CS))
    (raw_output raw root : list Z) (size index : Z) (cs : CS)
    : io (Z * option merkleized_map_commitment * CS) :=
  '(el_len, out) ← call_get_merkle_leaf_element root (u32 size) (u32 index) raw_output;
  if el_len <? 0 then mret (-1, None, cs)
  else
    let buf := buffer_create out el_len in
    '(sz, buf) ← lift (as_read (buffer_read_varint buf));
    match sz with
    | None => mret (-1, None, cs)
    | Some sz =>
        '(kr, buf) ← lift (buffer_read_bytes buf 32);
        match kr with
        | None => mret (-1, None, cs)
        | Some kr =>
            '(vr, buf) ← lift (buffer_read_bytes buf 32);
            match vr with
            | None => mret (-1, None, cs)
            | Some vr =>
                let map := mk_commitment sz kr vr in
                '(r, cs) ← call_check_merkle_tree_sorted_with_callback
                             ((λ cb, cb map) <$> callback) raw kr sz cs;
                mret (r, Some map, cs)
            end
        end
    end.

(** ** handler/lib/stream_preimage.c *)
Definition stream_step {CS} (callback : buffer → CS → outcome CS) (n_bytes : Z) (cs : CS) : io CS :=
  data_ptr ← cur_ptr;
  mem ← apdu_at data_ptr;
  lift (callback (buffer_create mem n_bytes) cs).

Definition call_stream_preimage {CS} (len_callback : option (Z → CS → outcome CS))
    (callback : buffer → CS → outcome CS) (hash : list Z) (cs : CS) : io (Z * CS) :=
  res ← request_preimage hash;
  if res <? 0 then mret (-1, cs)
  else
    hd ← read_preimage_header;
    match hd with
    | None => mret (-2, cs)
    | Some (preimage_len_u64, partial_data_len) =>
        let preimage_len := u32 preimage_len_u64 in
        if preimage_len <? 1 then mret (-3, cs)
        else if preimage_len <? partial_data_len then mret (-4, cs)
        else
          cs ← lift (match len_callback with Some cb => cb (preimage_len - 1) cs | None => mret cs end);
          data_ptr ← cur_ptr;
          mem ← apdu_at data_ptr;
          chunk ← lift (loads mem 0 partial_data_len);
          cs ← lift (callback (buffer_create (drop 1 mem) (size_t (partial_data_len - 1))) cs);
          fuel ← answers_left;
          '(e, data, cs) ← more_bytes (-5) (stream_step callback) fuel
                               (preimage_len - partial_data_len) chunk cs;
          if e <? 0 then mret (e, cs)
          else if bool_decide (sha256 data = hash) then mret (i32 preimage_len - 1, cs)
          else mret (-9, cs)
    end.

(** ** handler/lib/stream_merkle_leaf_element.c and stream_merkleized_map_value.c *)
Definition call_stream_merkle_leaf_element {CS} (len_callback : option (Z → CS → outcome CS))
    (callback : buffer → CS → outcome CS) (merkle_root : list Z) (tree_size leaf_index : Z) (cs : CS)
    : io (Z * CS) :=
  '(res, leaf_hash) ← call_get_merkle_leaf_hash merkle_root tree_size leaf_index;
  if res <? 0 then mret (-1, cs)
  else call_stream_preimage len_callback callback (default [] leaf_hash) cs.

Definition call_stream_merkleized_map_value {CS} (len_callback : option (Z → CS → outcome CS))
    (callback : buffer → CS → outcome CS) (map : merkleized_map_commitment) (key : list Z) (cs : CS)
    : io (Z * CS) :=
  index ← call_get_merkle_leaf_index (size_t (map_size map)) (keys_root map)
            (merkle_compute_element_hash sha256 key);
  if index <? 0 then mret (-1, cs)
  else call_stream_merkle_leaf_element len_callback callback (values_root map)
         (u32 (map_size map)) index cs.
End client.

(** ** Requests and answers *)

(** Between two client commands, no response is being built. *)
Definition idle (st : dstate) : Prop := wf_dstate st ∧ output_len st = 0.

Lemma idle_pending st : idle st → pending st = [].
Proof. intros [_ H]. by rw /pending H. Qed.

(** The state [st] reached from [st0] by building the request [req]. *)
Definition building (st0 : dstate) (req : list Z) (st : dstate) : Prop :=
  wf_dstate st ∧ pending st = req ∧ rx st = rx st0 ∧ tx st = tx st0.

Lemma idle_building st : idle st → building st [] st.
Proof. intros Hi. split_and!; [apply Hi|by apply idle_pending|done..]. Qed.

(** What the caller of a request may assume of the state it gets back, for the
    request [req]. *)
Definition answered (st : dstate) (req : list Z) (Q : Z → dstate → Prop) : Prop :=
  ∀ st' ex, rx st = ex :: rx st' → idle st' →
    match answer ex with
    | Some d =>
        unread st' = d → rb_offset st' = 0 → apdu_buf st' = ex_buf ex →
        tx st' = tx st ++ [req ++ sw_bytes SW_INTERRUPTED_EXECUTION] → Q 0 st'
    | None => Q (-1) st'
    end.

Section requests.
Context (T : Prop) (st0 : dstate).

Lemma responding_building req st d st' :
  building st0 req st → responding st d st' → building st0 (req ++ d) st'.
Proof.
  rw /building. intros (Hwf & <- & Hrx & Htx) (? & -> & Hrx' & Htx' & _).
  split_and!; [done..|congruence|congruence].
Qed.

Lemma add_building req d st Q :
  building st0 req st → bytes_ok d → zlen req < 258 → zlen req + zlen d ≤ 258 →
  (∀ st', building st0 (req ++ d) st' → Q () st') → wp T (add_to_response d) Q st.
Proof.
  intros Hb Hd Hlt Hle HQ. pose proof Hb as (Hwf & Hp & _). rewrite -Hp pending_zlen // in Hlt, Hle.
  apply add_to_response_fits; [done..|]. intros st' Hr. apply HQ. by eapply responding_building.
Qed.

Lemma add_varint_building req v st Q :
  building st0 req st → 0 ≤ v < 2 ^ 64 → zlen req + 9 ≤ 258 →
  (∀ st', building st0 (req ++ varint_enc v) st' → Q () st') → wp T (add_varint v) Q st.
Proof.
  intros Hb Hv Hle HQ. pose proof Hb as (Hwf & Hp & _). rewrite -Hp pending_zlen // in Hle.
  rw /add_varint. wp_step.
  pose proof (varint_enc_zlen v) as Hlen.
  assert (varint_size v ≤ 9) by (rw /varint_size; repeat case_match; lia).
  assert (stores (replicate 9 0) 0 (varint_enc v) = Val (varint_enc v ++ drop (length (varint_enc v)) (replicate 9 0)))
    as Hst by (rw stores_in_range ?Hlen //).
  eapply wp_lift; [by rw varint_write_stores // Hst|]. cbv beta iota.
  pose proof (zlen_nonneg (varint_enc v)).
  apply io_add_to_response_fits; [done| |lia|rw zlen_app Hlen; pose proof (zlen_nonneg (drop (length (varint_enc v)) (replicate 9 0))); lia|lia|].
  { apply Forall_app. split; [apply varint_enc_ok; lia|]. apply Forall_drop. by apply Forall_replicate. }
  intros st' Hr. apply HQ. rewrite take_app_length' in Hr; [|unfold zlen in *; lia].
  by eapply responding_building.
Qed.

(** The end of a request: the status word, then the exchange. *)
Lemma finish_request_spec req st Q :
  building st0 req st → 0 < zlen req < 258 → answers T st0 → answered st0 req Q →
  wp T (finalize_response SW_INTERRUPTED_EXECUTION) (λ _, wp T process_interruption Q) st.
Proof.
  intros Hb Hlen Ha HQ. pose proof Hb as (Hwf & Hp & Hrx & Htx).
  pose proof Hlen as Hlen'. rewrite -Hp pending_zlen // in Hlen'.
  apply finalize_response_fits; [done|lia|]. intros st1 Hr Hsw. cbv beta.
  pose proof (responding_len _ _ _ Hwf Hr) as Hl.
  change (zlen (sw_bytes SW_INTERRUPTED_EXECUTION)) with 2 in Hl.
  destruct (responding_building _ _ _ _ Hb Hr) as (Hwf1 & Hp1 & Hrx1 & Htx1).
  apply process_interruption_spec; [done|lia|by rewrite /answers Hrx1|].
  intros st2 ex Hrx2 Hwf2 Ho2. specialize (HQ st2 ex). rewrite -Hrx1 -Htx1 -Hp1 in HQ.
  specialize (HQ Hrx2 (conj Hwf2 Ho2)). by destruct (answer ex).
Qed.
End requests.

Lemma request_more_spec (T : Prop) st Q :
  idle st → answers T st → answered st [CCMD_GET_MORE_ELEMENTS] Q → wp T request_more Q st.
Proof.
  intros Hi Ha HQ. rw /request_more /SET_RESPONSE. wp_step. wp_step.
  eapply add_building; [by apply idle_building|by apply (bool_decide_unpack _)|done|done|].
  intros st1 Hb. by eapply finish_request_spec.
Qed.

Section requests_with_hashes.
Context (T : Prop) (st : dstate) (Hi : idle st) (Ha : answers T st).

Lemma request_preimage_spec hash Q :
  zlen hash = 32 → bytes_ok hash →
  answered st ([CCMD_GET_PREIMAGE; 0] ++ hash) Q → wp T (request_preimage hash) Q st.
Proof.
  intros Hz Hok HQ. rw /request_preimage. apply wp_bind.
  eapply add_building; [by apply idle_building|by apply (bool_decide_unpack _)|done|done|].
  intros st1 Hb1. apply wp_bind.
  eapply add_building; [exact Hb1|by apply (bool_decide_unpack _)|done|done|].
  intros st2 Hb2. apply wp_bind.
  eapply add_building; [exact Hb2|done|done|by rw Hz|].
  intros st3 Hb3. apply wp_bind. eapply finish_request_spec; [exact Hb3| |done|done].
  rw zlen_app Hz. by vm_compute.
Qed.

Lemma request_leaf_proof_spec root tree_size leaf_index Q :
  zlen root = 32 → bytes_ok root → 0 ≤ tree_size < 2 ^ 32 → 0 ≤ leaf_index < 2 ^ 32 →
  answered st ([CCMD_GET_MERKLE_LEAF_PROOF] ++ root ++ varint_enc tree_size ++ varint_enc leaf_index) Q →
  wp T (request_leaf_proof root tree_size leaf_index) Q st.
Proof.
  intros Hz Hok Hs Hx HQ. rw /request_leaf_proof. apply wp_bind.
  eapply add_building; [by apply idle_building|by apply (bool_decide_unpack _)|done|done|].
  intros st1 Hb1. apply wp_bind.
  eapply add_building; [exact Hb1|done|done|by rw Hz|].
  intros st2 Hb2. apply wp_bind.
  eapply add_varint_building; [exact Hb2|lia|rw zlen_app Hz; by vm_compute|].
  intros st3 Hb3. apply wp_bind. pose proof (varint_enc_zlen tree_size). pose proof (varint_enc_zlen leaf_index).
  assert (∀ v, 1 ≤ varint_size v ≤ 9) as Hsz by (intros v; rw /varint_size; repeat case_match; lia).
  pose proof (Hsz tree_size). pose proof (Hsz leaf_index).
  eapply add_varint_building; [exact Hb3|lia|rw !zlen_app Hz zlen_nil zlen_cons zlen_nil; lia|].
  intros st4 Hb4. apply wp_bind. eapply finish_request_spec; [exact Hb4| |done|by rw -!app_assoc].
  rw !zlen_app Hz zlen_nil zlen_cons zlen_nil. lia.
Qed.

Lemma request_leaf_index_spec root leaf_hash Q :
  zlen root = 32 → bytes_ok root → zlen leaf_hash = 32 → bytes_ok leaf_hash →
  answered st ([CCMD_GET_MERKLE_LEAF_INDEX] ++ root ++ leaf_hash) Q →
  wp T (request_leaf_index root leaf_hash) Q st.
Proof.
  intros Hz Hok Hz' Hok' HQ. rw /request_leaf_index /SET_RESPONSE. apply wp_bind, wp_bind.
  eapply add_building; [by apply idle_building| |done|by rw !zlen_app Hz Hz'|].
  { apply Forall_app. split; [by apply (bool_decide_unpack _)|]. by apply Forall_app. }
  intros st1 Hb1. eapply finish_request_spec; [exact Hb1|by rw !zlen_app Hz Hz'|done|done].
Qed.
End requests_with_hashes.

(** ** Reads of an answer *)
Lemma unread_ok st : wf_dstate st → bytes_ok (unread st).
Proof. intros Hwf. apply rest_bytes_ok, Hwf. Qed.

Lemma set_rb_offset_twice o o' st : set_rb_offset o (set_rb_offset o' st) = set_rb_offset o st.
Proof. done. Qed.

Lemma set_rb_offset_id st : set_rb_offset (rb_offset st) st = st.
Proof. by destruct st. Qed.

(** An answer to GET_MORE_ELEMENTS is the number of elements, their size and
    their bytes. *)
Lemma read_more_spec (T : Prop) len st Q :
  wf_dstate st →
  (∀ o, wf_dstate (set_rb_offset o st) →
    match unread st with
    | n :: e :: r =>
        byte_ok n →
        if zlen r <? n * e then Q (inr 0) (set_rb_offset o st)
        else if e =? len then
          unread (set_rb_offset o st) = r → Q (inl n) (set_rb_offset o st)
        else Q (inr 1) (set_rb_offset o st)
    | _ => Q (inr 0) (set_rb_offset o st)
    end) →
  wp T (read_more len) Q st.
Proof.
  intros Hwf HQ. rw /read_more. wp_step. pose proof (unread_ok _ Hwf) as Hok.
  apply rb_read_u8_spec; [done|]. destruct (unread st) as [|n l] eqn:Hu.
  { wp_steps. specialize (HQ (rb_offset st)). rewrite set_rb_offset_id in HQ. by apply HQ. }
  intros o Hwf1 Hu1. wp_step. apply rb_read_u8_spec; [done|]. rewrite Hu1.
  apply Forall_cons in Hok as [Hn Hok]. destruct l as [|e r].
  { wp_steps. by apply HQ. }
  apply Forall_cons in Hok as [He Hok].
  intros o2 Hwf2 Hu2. rewrite set_rb_offset_twice in Hwf2, Hu2. rewrite set_rb_offset_twice.
  wp_step. apply rb_can_read_spec; [done|]. specialize (HQ o2 Hwf2 Hn).
  rewrite /byte_ok in Hn, He. rw u32_small; [|nia]. rewrite Hu2.
  rewrite Z.leb_antisym. destruct (zlen r <? n * e); simpl; wp_steps; [done|].
  destruct (e =? len); simpl; wp_steps; auto.
Qed.

(** The memory at the cursor. *)
Lemma cur_mem st : wf_dstate st → apdu_mem (read_ptr st) st = buffer_get_cur (read_buffer st).
Proof.
  intros Hwf. rw /apdu_mem /read_ptr /buffer_get_cur /read_buffer /=.
  destruct (wf_rb_base _ Hwf) as [-> | ->]; simpl.
  - by rw drop_nil.
  - rw drop_drop. pose proof (wf_read_buffer _ Hwf) as ((? & _) & _). simpl in *. f_equal.
    unfold OFFSET_CDATA. lia.
Qed.

(** The first [n] bytes at the cursor. *)
Lemma cur_mem_loads st n :
  wf_dstate st → 0 ≤ n ≤ zlen (unread st) →
  loads (apdu_mem (read_ptr st) st) 0 n = Val (take (Z.to_nat n) (unread st)).
Proof.
  intros Hwf Hn. rw cur_mem //. pose proof (wf_read_buffer _ Hwf) as Hb. rewrite /unread in Hn.
  pose proof (cur_zlen _ Hb). rw loads_in_range; [|lia..].
  rw drop_0 /unread -(cur_take _ Hb) take_take. do 2 f_equal. lia.
Qed.

Lemma answer_ok ex d : wf_exchange ex → answer ex = Some d → bytes_ok d.
Proof. intros (_ & Hb & _). rw /answer. case_match; [|done]. intros [= <-]. by apply slice_ok. Qed.
