(* ===== verification/Run.v ===== *)
(** * Runs

    How the functions that exchange data with the host are analysed from their
    result: inversion of the steps of a run, and the invariant that a run only
    consumes answers of the host and only appends messages for it. *)

From S2P Require Import Prelude Bytes Buffer Merkle Dispatcher MerkleClient.

(** ** Inversion *)
Lemma io_bind_Val {A B} (m : io A) (k : A → io B) st r :
  (m ≫= k) st = Val r → ∃ a st1, m st = Val (a, st1) ∧ k a st1 = Val r.
Proof. rw /mbind /io_bind. destruct (m st) as [[a st1]| | |]; naive_solver. Qed.

Lemma io_ret_Val {A} (a b : A) st st' : (mret a : io A) st = Val (b, st') → a = b ∧ st = st'.
Proof. unfold mret, io_ret. intros H. by simplify_eq. Qed.

Lemma lift_Val {A} (o : outcome A) st a st' : lift o st = Val (a, st') → o = Val a ∧ st = st'.
Proof. unfold lift. intros H. apply outcome_bind_Val in H as (b & -> & H). unfold mret, outcome_ret in H. by simplify_eq. Qed.

Lemma gets_Val {A} (f : dstate → A) st a st' : gets f st = Val (a, st') → a = f st ∧ st = st'.
Proof. unfold gets. intros H. by simplify_eq. Qed.

Lemma modify_Val f st a st' : modify f st = Val (a, st') → st' = f st.
Proof. unfold modify. intros H. by simplify_eq. Qed.

(** Splits a conjunction, without unfolding its parts. *)
Ltac splits := repeat match goal with |- _ ∧ _ => split end.

(** Inverts the first steps of the run [H]. *)
Ltac run_inv H :=
  cbv beta zeta in H;
  lazymatch type of H with
  | @mbind io _ _ _ _ _ _ = Val _ =>
      let a := fresh "a" in let s := fresh "s" in let Ha := fresh "Hrun" in
      apply io_bind_Val in H as (a & s & Ha & H); run_inv Ha; run_inv H
  | @mret io _ _ _ _ = Val (_, _) =>
      let H1 := fresh "Heq" in let H2 := fresh "Heq" in apply io_ret_Val in H as [H1 H2]; simplify_eq
  | lift _ _ = Val (_, _) =>
      let H2 := fresh "Heq" in apply lift_Val in H as [H H2]; simplify_eq
  | modify _ _ = Val (_, _) =>
      let H1 := fresh "Heq" in apply modify_Val in H as H1; clear H; simplify_eq
  | gets _ _ = Val (_, _) =>
      let H1 := fresh "Heq" in let H2 := fresh "Heq" in apply gets_Val in H as [H1 H2]; simplify_eq
  | _ => idtac
  end.

(** Decides the condition of the run [H]. *)
Ltac run_if H :=
  lazymatch type of H with (if ?b then _ else _) _ = _ => destruct b; run_inv H end.

(** ** Progress of a run *)

(** The buffers have the size of the APDU buffer. *)
Definition sized (st : dstate) : Prop := zlen (apdu_buf st) = IO_APDU_BUFFER_SIZE ∧ Forall wf_exchange (rx st).

Record later (st st' : dstate) : Prop := {
  later_rx : rx st' `suffix_of` rx st;
  later_tx : tx st `prefix_of` tx st';
  later_sized : sized st → sized st'
}.

Global Instance later_preorder : PreOrder later.
Proof.
  split.
  - intros st. by split.
  - intros s1 s2 s3 [H1 H2 H3] [H4 H5 H6]. split; [by etrans..|auto].
Qed.

(** Runs of [m] respect the relation [R] on states. *)
Class Keeps (R : relation dstate) {A} (m : io A) : Prop := keeps : ∀ st a st', m st = Val (a, st') → R st st'.

Lemma run_keeps R {A} (m : io A) st a st' : m st = Val (a, st') → Keeps R m → R st st'.
Proof. intros Hm H. by eapply H. Qed.

Section keeps.
Context (R : relation dstate) `{!PreOrder R} {A B : Type}.

Global Instance keeps_ret (a : A) : Keeps R (mret a : io A).
Proof. intros st b st' H. apply io_ret_Val in H as [_ <-]. reflexivity. Qed.

Global Instance keeps_bind (m : io A) (k : A → io B) : Keeps R m → (∀ a, Keeps R (k a)) → Keeps R (m ≫= k).
Proof.
  intros Hm Hk st b st' H. apply io_bind_Val in H as (a & s & Ha & Hb).
  etrans; [by eapply Hm|by eapply Hk].
Qed.

Global Instance keeps_lift (o : outcome A) : Keeps R (lift o).
Proof. intros st a st' H. apply lift_Val in H as [_ <-]. reflexivity. Qed.

Global Instance keeps_gets (f : dstate → A) : Keeps R (gets f).
Proof. intros st a st' H. apply gets_Val in H as [_ <-]. reflexivity. Qed.

Global Instance keeps_fuel : Keeps R (λ _ : dstate, OutOfFuel : outcome (A * dstate)).
Proof. by intros st a st' H. Qed.
End keeps.

Lemma keeps_modify (R : relation dstate) f : (∀ st, R st (f st)) → Keeps R (modify f).
Proof. unfold modify. intros Hf st a st' H. simplify_eq. apply Hf. Qed.

(** Proves [Keeps] of a function that is unfolded: the instances for the
    functions that it calls are found. *)
Ltac keeps_step :=
  first
    [ apply _
    | match goal with |- Keeps _ (_ ≫= _) => apply keeps_bind; [apply _| |intros ?] end
    | match goal with |- Keeps _ (modify _) => apply keeps_modify; intros ?; by split end
    | match goal with |- Keeps _ (match ?x with _ => _ end) => destruct x end
    | match goal with |- Keeps _ (let '_ := ?x in _) => destruct x end
    | match goal with |- Keeps _ ((match ?x with _ => _ end) _) => destruct x end
    | progress cbv beta zeta ].
Ltac solve_keeps := repeat keeps_step.

(** ** The dispatcher *)
Global Instance later_exchange len : Keeps later (io_exchange len).
Proof.
  intros st a st'. rw /io_exchange. destruct (loads _ _ _); [|done..]. cbn [mbind outcome_bind].
  destruct (rx st) as [|ex rx'] eqn:Hrx; [done|]. destruct (ticker_events _ _); [|done..]. intros [= _ <-].
  split; cbn; [rw Hrx; by apply suffix_cons_r| |].
  - case_match; [done|by apply prefix_app_r].
  - intros [_ Hwf]. rewrite Hrx in Hwf. apply Forall_cons in Hwf as [[Hz _] Hwf]. by split.
Qed.

(** A change of the APDU buffer that keeps its size. *)
Lemma later_set_buf st p n : zlen p = zlen (apdu_buf st) → later st (set_output_len n (set_apdu_buf p st)).
Proof. intros Hz. split; [done..|]. intros [? ?]. split; [cbn; congruence|done]. Qed.

Lemma write_u16_be_zlen m i v m' : write_u16_be m i v = Val m' → zlen m' = zlen m.
Proof. rw write_u16_be_stores. apply stores_length. Qed.

Global Instance later_finalize sw : Keeps later (io_finalize_response sw).
Proof.
  intros st a st'. rw /io_finalize_response. intros H. run_inv H. run_if H;
    match goal with Hw : write_u16_be _ _ _ = _ |- _ => apply write_u16_be_zlen in Hw; by apply (later_set_buf _ _ _ Hw) end.
Qed.

Global Instance later_add_to_response fuel rdata len : Keeps later (io_add_to_response fuel rdata len).
Proof.
  revert len. induction fuel as [|f IH]; intros len st a st' H; [done|]. cbn [io_add_to_response] in H. run_inv H. run_if H.
  { match goal with Hw : write_u16_be _ _ _ = _ |- _ => apply write_u16_be_zlen in Hw; by apply (later_set_buf _ _ _ Hw) end. }
  run_if H; [etrans; [by eapply IH|by eapply run_keeps; [exact H|apply _]]|].
  match goal with Hw : stores _ _ _ = _ |- _ => apply stores_length in Hw; by apply (later_set_buf _ _ _ Hw) end.
Qed.

Global Instance later_confirm : Keeps later io_confirm_response.
Proof.
  rw /io_confirm_response. solve_keeps. apply keeps_modify. intros st. split; cbn; [done|by apply prefix_app_r|done].
Qed.

Global Instance later_send_sw sw : Keeps later (SEND_SW sw).
Proof. rw /SEND_SW /finalize_response. solve_keeps. Qed.

Global Instance later_interruption : Keeps later process_interruption.
Proof. rw /process_interruption. solve_keeps. Qed.

Global Instance later_set_response rdata sw : Keeps later (SET_RESPONSE rdata sw).
Proof. rw /SET_RESPONSE /finalize_response /add_to_response. solve_keeps. Qed.

Global Instance later_rb_read {A} (rd : buffer → outcome (option A * buffer)) : Keeps later (rb_read rd).
Proof. rw /rb_read. solve_keeps. Qed.

Global Instance later_rb_seek n : Keeps later (rb_seek_cur n).
Proof. rw /rb_seek_cur. solve_keeps. Qed.

(** ** The interface between the device and the host

    What a relation on states must respect for it to be respected by every
    function that talks to the host with the requests below: the requests, the
    reads of the answers, and the messages that consist of a status word. *)
Class StatusWord (sw : Z) : Prop := status_word : (0x6000 <=? sw) && (sw <? 0x10000) = true.
#[export] Hint Extern 0 (StatusWord _) => reflexivity : typeclass_instances.

Class Protocol (R : relation dstate) : Prop := {
  protocol_preorder :: PreOrder R;
  protocol_leaf_proof merkle_root tree_size leaf_index :: Keeps R (request_leaf_proof merkle_root tree_size leaf_index);
  protocol_leaf_index root leaf_hash :: Keeps R (request_leaf_index root leaf_hash);
  protocol_preimage hash :: Keeps R (request_preimage hash);
  protocol_more :: Keeps R request_more;
  protocol_read {A} (rd : buffer → outcome (option A * buffer)) :: Keeps R (rb_read rd);
  protocol_seek n :: Keeps R (rb_seek_cur n);
  protocol_send_sw sw :: StatusWord sw → Keeps R (SEND_SW sw)
}.

Global Instance later_protocol : Protocol later.
Proof.
  split; intros; rw /request_leaf_index /request_more /request_leaf_proof /request_preimage; try apply _;
    rw /add_to_response /add_varint /finalize_response; solve_keeps.
Qed.

(** ** Client commands *)
Section client.
Context (R : relation dstate) `{!Protocol R} (sha256 : list Z → list Z).

Global Instance keeps_read_more len : Keeps R (read_more len).
Proof. rw /read_more /rb_read_u8 /rb_can_read. solve_keeps. Qed.

Global Instance keeps_proof_steps n tree_size leaf_index proof_size cur_step cur_hash :
  Keeps R (proof_steps sha256 n tree_size leaf_index proof_size cur_step cur_hash).
Proof. revert cur_step cur_hash. induction n; intros; cbn [proof_steps]; rw /cur_ptr /apdu_at; solve_keeps. Qed.

Global Instance keeps_proof_loop fuel tree_size leaf_index proof_size n cur_step cur_hash :
  Keeps R (proof_loop sha256 fuel tree_size leaf_index proof_size n cur_step cur_hash).
Proof. revert n cur_step cur_hash. induction fuel; intros; cbn [proof_loop]; solve_keeps. Qed.

Global Instance keeps_leaf_hash merkle_root tree_size leaf_index :
  Keeps R (call_get_merkle_leaf_hash sha256 merkle_root tree_size leaf_index).
Proof.
  rw /call_get_merkle_leaf_hash /read_proof_header /rb_read_bytes /rb_read_u8 /rb_can_read /answers_left. solve_keeps.
Qed.

Global Instance keeps_leaf_index size root leaf_hash : Keeps R (call_get_merkle_leaf_index sha256 size root leaf_hash).
Proof. rw /call_get_merkle_leaf_index /rb_read_u8 /rb_read_varint. solve_keeps. Qed.

Global Instance keeps_more_bytes {S} err (step : Z → S → io S) fuel remaining data s :
  (∀ n s, Keeps R (step n s)) → Keeps R (more_bytes err step fuel remaining data s).
Proof.
  intros Hstep. revert remaining data s. induction fuel; intros; cbn [more_bytes]; rw /cur_ptr /apdu_at; solve_keeps.
Qed.

Global Instance keeps_read_preimage_header : Keeps R read_preimage_header.
Proof. rw /read_preimage_header /rb_read_u8 /rb_read_varint /rb_can_read. solve_keeps. Qed.

Global Instance keeps_preimage_step n out : Keeps R (preimage_step n out).
Proof. rw /preimage_step /cur_ptr /apdu_at. solve_keeps. Qed.

Global Instance keeps_merkle_preimage_step p n out : Keeps R (merkle_preimage_step p n out).
Proof. rw /merkle_preimage_step /apdu_at. solve_keeps. Qed.

Global Instance keeps_get_preimage hash out : Keeps R (call_get_preimage sha256 hash out).
Proof. rw /call_get_preimage /cur_ptr /apdu_at /answers_left. solve_keeps. Qed.

Global Instance keeps_merkle_preimage hash out : Keeps R (call_get_merkle_preimage sha256 hash out).
Proof. rw /call_get_merkle_preimage /cur_ptr /apdu_at /answers_left. solve_keeps. Qed.

Global Instance keeps_leaf_element merkle_root tree_size leaf_index out :
  Keeps R (call_get_merkle_leaf_element sha256 merkle_root tree_size leaf_index out).
Proof. rw /call_get_merkle_leaf_element. solve_keeps. Qed.

Global Instance keeps_map_value map key out : Keeps R (call_get_merkleized_map_value sha256 map key out).
Proof. rw /call_get_merkleized_map_value. solve_keeps. Qed.

Global Instance keeps_map_value_u32 raw map key : Keeps R (call_get_merkleized_map_value_u32_le sha256 raw map key).
Proof. rw /call_get_merkleized_map_value_u32_le. solve_keeps. Qed.

Global Instance keeps_map_value_hash map key : Keeps R (call_get_merkleized_map_value_hash sha256 map key).
Proof. rw /call_get_merkleized_map_value_hash. solve_keeps. Qed.

Global Instance keeps_sorted_loop {CS} (callback : option (Z → buffer → CS → io CS)) raw root fuel size i prev prev_len cs :
  (∀ cb n b s, callback = Some cb → Keeps R (cb n b s)) →
  Keeps R (sorted_loop sha256 callback raw root fuel size i prev prev_len cs).
Proof.
  intros Hcb. revert i prev prev_len cs. induction fuel; intros; cbn [sorted_loop]; solve_keeps. by apply Hcb.
Qed.

Global Instance keeps_check_sorted {CS} (callback : option (Z → buffer → CS → io CS)) raw root size cs :
  (∀ cb n b s, callback = Some cb → Keeps R (cb n b s)) →
  Keeps R (call_check_merkle_tree_sorted_with_callback sha256 callback raw root size cs).
Proof. intros Hcb. rw /call_check_merkle_tree_sorted_with_callback /answers_left. solve_keeps. Qed.

Global Instance keeps_get_map {CS} (callback : option (merkleized_map_commitment → Z → buffer → CS → io CS))
    raw_output raw root size index cs :
  (∀ cb m n b s, callback = Some cb → Keeps R (cb m n b s)) →
  Keeps R (call_get_merkleized_map_with_callback sha256 callback raw_output raw root size index cs).
Proof.
  intros Hcb. rw /call_get_merkleized_map_with_callback. solve_keeps. apply keeps_check_sorted.
  intros cb' n' b' s' H. destruct callback; [|done]. simplify_eq/=. by apply Hcb.
Qed.

Section stream.
Context {CS : Type} (len_callback : option (Z → CS → outcome CS)) (callback : buffer → CS → outcome CS).

Global Instance keeps_stream_step n cs : Keeps R (stream_step callback n cs).
Proof. rw /stream_step /cur_ptr /apdu_at. solve_keeps. Qed.

Global Instance keeps_stream_preimage hash cs : Keeps R (call_stream_preimage sha256 len_callback callback hash cs).
Proof. rw /call_stream_preimage /cur_ptr /apdu_at /answers_left. solve_keeps. Qed.

Global Instance keeps_stream_leaf merkle_root tree_size leaf_index cs :
  Keeps R (call_stream_merkle_leaf_element sha256 len_callback callback merkle_root tree_size leaf_index cs).
Proof. rw /call_stream_merkle_leaf_element. solve_keeps. Qed.

Global Instance keeps_stream_value map key cs :
  Keeps R (call_stream_merkleized_map_value sha256 len_callback callback map key cs).
Proof. rw /call_stream_merkleized_map_value. solve_keeps. Qed.
End stream.
End client.
