(* ===== verification/MerkleProof.v ===== *)
(** * Merkle proofs obtained from the host

    What [call_get_merkle_leaf_hash] and [call_get_merkle_leaf_index] (see
    MerkleClient.v) return, for every behaviour of the host: the answers are
    read as a leaf hash and a list of siblings, and the hash is accepted
    exactly when the siblings lead from it to the root along the directions of
    the leaf.  An accepted hash is that of a node on the path to the leaf,
    unless a collision of SHA-256 is known. *)

From S2P Require Import Prelude Bytes Bip32 Buffer Merkle Dispatcher MerkleClient.

(** The directions from the root of a tree to a leaf, none for a leaf that
    does not exist. *)
Definition path (size index : Z) : list bool :=
  if decide (index < size) then dirs 31 size index else [].

Lemma ith_direction_path size index i :
  0 ≤ index → 0 ≤ size ≤ 2 ^ 31 → 0 ≤ i →
  merkle_get_ith_direction size index i = Val (direction_code (path size index !! Z.to_nat i)).
Proof.
  intros Hx Hs Hi. rw /merkle_get_ith_direction /path. case_decide.
  - rw (proj2 (Z.leb_gt size index)) // orb_false_r. destruct (Z.leb_spec size 1).
    + replace size with 1 by lia. replace index with 0 by lia. done.
    + rw (direction_loop_spec 31); [|lia..]. by rw Z.sub_0_r.
  - rw (proj2 (Z.leb_le size index)); [|lia]. by rw orb_true_r.
Qed.

(** ** Answers as lists of hashes *)

(** The first [n] blocks of 32 bytes. *)
Fixpoint chunks (n : nat) (l : list Z) : list (list Z) :=
  match n with
  | O => []
  | S n' => take 32 l :: chunks n' (drop 32 l)
  end.

(** The [need] siblings that are left, from the answers to GET_MORE_ELEMENTS;
    and the answers after them. *)
Fixpoint gather (need : nat) (rx : list exchange) : option (list (list Z) * list exchange) :=
  match need with
  | O => Some ([], rx)
  | S _ =>
      match rx with
      | [] => None
      | ex :: rx' =>
          match answer ex with
          | Some (n :: e :: r) =>
              if decide (e = 32 ∧ n * 32 ≤ zlen r ∧ (Z.to_nat n ≤ need)%nat) then
                '(hs, rx'') ← gather (need - Z.to_nat n) rx';
                Some (chunks (Z.to_nat n) r ++ hs, rx'')
              else None
          | _ => None
          end
      end
  end.

(** The leaf hash and the siblings of a proof, from the first answer and those
    that follow. *)
Definition leaf_proof (rx : list exchange) : option (list Z * list (list Z) * list exchange) :=
  match rx with
  | [] => None
  | ex :: rx' =>
      d ← answer ex;
      match drop 32 d with
      | ps :: n :: r =>
          if decide (n ≤ ps ∧ 32 * n ≤ zlen r) then
            '(hs, rx'') ← gather (Z.to_nat ps - Z.to_nat n) rx';
            Some (take 32 d, chunks (Z.to_nat n) r ++ hs, rx'')
          else None
      | _ => None
      end
  end.

Lemma chunks_length n l : length (chunks n l) = n.
Proof. revert l. induction n; intros; simpl; auto. Qed.

Lemma chunks_ok n l : Z.of_nat n * 32 ≤ zlen l → Forall (λ s, zlen s = 32) (chunks n l).
Proof.
  revert l. induction n as [|n IH]; intros l Hl; cbn [chunks]; constructor.
  - apply (zlen_take 32). lia.
  - apply IH. rw (zlen_drop 32); lia.
Qed.

Lemma gather_0 rx : gather 0 rx = Some ([], rx).
Proof. by destruct rx. Qed.

Lemma gather_length need rx hs rx' : gather need rx = Some (hs, rx') → length hs = need.
Proof.
  revert need hs. induction rx as [|ex rx IH]; intros [|need] hs; cbn [gather];
    try (by intros [= <- <-]); try done.
  destruct (answer ex) as [[|n [|e r]]|]; try done. case_decide as Hd; [|done].
  destruct (gather _ rx) as [[hs' rx'']|] eqn:Hg; [|done]. intros [= <- <-].
  rw length_app chunks_length (IH _ _ Hg). lia.
Qed.

Lemma gather_ok need rx hs rx' :
  Forall wf_exchange rx → gather need rx = Some (hs, rx') → Forall (λ s, zlen s = 32) hs.
Proof.
  revert need hs. induction rx as [|ex rx IH]; intros [|need] hs Hwf; cbn [gather];
    try (by intros [= <- <-]); try done.
  apply Forall_cons in Hwf as [Hex Hwf].
  destruct (answer ex) as [[|n [|e r]]|] eqn:Ha; try done. case_decide as Hd; [|done].
  destruct (gather _ rx) as [[hs' rx'']|] eqn:Hg; [|done]. intros [= <- <-].
  apply Forall_app. split; [|by eapply IH]. apply chunks_ok.
  assert (byte_ok n) as Hn; [|unfold byte_ok in Hn; lia].
  apply answer_ok in Ha; [|done]. by inversion Ha.
Qed.

Section leaf_hash.
Context (sha256 : list Z → list Z) (T : Prop).
Context (tree_size leaf_index : Z) (Hsize : 0 ≤ tree_size ≤ 2 ^ 31) (Hindex : 0 ≤ leaf_index).

Let p := path tree_size leaf_index.

(** Reading siblings: when the directions exist, the hash climbs along them;
    a proof that is longer than the path is rejected. *)
Lemma proof_steps_spec n proof_size cur_step cur st Q :
  wf_dstate st → 0 ≤ cur_step → cur_step + Z.of_nat n ≤ proof_size → proof_size ≤ zlen p →
  32 * Z.of_nat n ≤ zlen (unread st) →
  (∀ o, wf_dstate (set_rb_offset o st) →
    Q (Some (climb sha256 cur
         (zip (take n (drop (Z.to_nat cur_step) (reverse (take (Z.to_nat proof_size) p))))
              (chunks n (unread st))))) (set_rb_offset o st)) →
  wp T (proof_steps sha256 n tree_size leaf_index proof_size cur_step cur) Q st.
Proof.
  revert cur_step cur st. induction n as [|n IH]; intros cur_step cur st Hwf H0 Hle Hp Hlen HQ.
  { cbn [proof_steps]. wp_steps. specialize (HQ (rb_offset st)). rewrite set_rb_offset_id in HQ. by apply HQ. }
  set (ds := reverse (take (Z.to_nat proof_size) p)) in *.
  assert (∃ b, ds !! Z.to_nat cur_step = Some b ∧
            p !! Z.to_nat (proof_size - cur_step - 1) = Some b) as (b & Hb & Hpb).
  { destruct (lookup_lt_is_Some_2 p (Z.to_nat (proof_size - cur_step - 1))) as [b Hb];
      [unfold zlen in Hp; lia|]. exists b. split; [|done].
    rw /ds reverse_lookup length_take; [|unfold zlen in Hp; lia].
    rw lookup_take_lt; [|unfold zlen in Hp; lia]. rw -Hb. f_equal. unfold zlen in Hp. lia. }
  cbn [proof_steps]. wp_step. rw /cur_ptr. wp_steps.
  eapply wp_lift; [apply ith_direction_path; lia|]. rw Hpb.
  rw (_ : (direction_code (Some b) =? 0) || (direction_code (Some b) =? 1) = true); [|by destruct b].
  rw /apdu_at. wp_steps. eapply wp_lift; [apply cur_mem_loads; [done|lia]|].
  wp_steps. apply rb_seek_cur_spec; [done|lia|]. intros o Hwf1 Hu1. cbv beta.
  rw (drop_S _ b) // in HQ. cbn [take chunks zip zip_with climb] in HQ.
  apply IH; [done|lia|lia|done|rw Hu1 (zlen_drop 32); lia|].
  intros o2 Hwf2. rewrite set_rb_offset_twice in Hwf2. rewrite set_rb_offset_twice Hu1.
  specialize (HQ o2 Hwf2). rw -/ds. replace (Z.to_nat (cur_step + 1)) with (S (Z.to_nat cur_step)) by lia.
  by destruct b.
Qed.

Lemma proof_steps_long n proof_size cur st Q :
  zlen p < proof_size → Q None st →
  wp T (proof_steps sha256 (S n) tree_size leaf_index proof_size 0 cur) Q st.
Proof.
  intros Hp HQ. cbn [proof_steps]. wp_step. rw /cur_ptr. wp_steps. pose proof (zlen_nonneg p).
  eapply wp_lift; [apply ith_direction_path; lia|]. rw -/p lookup_ge_None_2; [|unfold zlen in *; lia].
  simpl. by wp_steps.
Qed.

(** The siblings are available without a reset. *)
Definition served (need : nat) (rx : list exchange) : Prop :=
  T ∨ (Forall prompt rx ∧ is_Some (gather need rx)).

Lemma served_answers need st : served (S need) (rx st) → answers T st.
Proof.
  intros [HT|[Hp Hg]]; [by left|right]. destruct (rx st); [by destruct Hg|]. by inversion Hp.
Qed.

Definition loop_result (proof_size cur_step : Z) (cur : list Z) (sibs : option (list (list Z)))
    : option (list Z) :=
  if decide (proof_size ≤ zlen p) then
    climb sha256 cur ∘ zip (drop (Z.to_nat cur_step) (reverse (take (Z.to_nat proof_size) p))) <$> sibs
  else None.

Lemma loop_result_None proof_size cur_step cur : loop_result proof_size cur_step cur None = None.
Proof. rw /loop_result. by case_decide. Qed.

Lemma loop_result_app proof_size cur_step n cur s1 s2 :
  length s1 = n → 0 ≤ cur_step → cur_step + Z.of_nat n ≤ proof_size →
  loop_result proof_size (cur_step + Z.of_nat n)
    (climb sha256 cur (zip (take n (drop (Z.to_nat cur_step)
                              (reverse (take (Z.to_nat proof_size) p)))) s1)) s2 =
  loop_result proof_size cur_step cur (app s1 <$> s2).
Proof.
  intros Hn H0 Hle. rw /loop_result. case_decide as Hp; [|done]. destruct s2 as [s2|]; simpl; [|done].
  f_equal. set (ds := reverse _). rw -climb_app. f_equal. symmetry.
  rw -{1}(take_drop n (drop (Z.to_nat cur_step) ds)) zip_with_app.
  - rw drop_drop. do 3 f_equal. lia.
  - rw length_take length_drop /ds length_reverse length_take. unfold zlen in Hp. lia.
Qed.

(** What the loop does with the bound [fuel]. *)
Definition loop_ok (fuel : nat) : Prop := ∀ proof_size n cur_step cur st Q,
  (length (rx st) < fuel)%nat → idle st → byte_ok n → 0 ≤ cur_step → cur_step + n ≤ proof_size →
  (proof_size ≤ zlen p ∨ cur_step = 0) → 32 * n ≤ zlen (unread st) →
  let need := Z.to_nat (proof_size - cur_step - n) in
  served need (rx st) →
  (∀ st', idle st' → (length (rx st') ≤ length (rx st))%nat →
    (∀ hs rx', proof_size ≤ zlen p → gather need (rx st) = Some (hs, rx') → rx st' = rx') →
    Q (loop_result proof_size cur_step cur
         (app (chunks (Z.to_nat n) (unread st)) <$> (fst <$> gather need (rx st)))) st') →
  wp T (proof_loop sha256 fuel tree_size leaf_index proof_size n cur_step cur) Q st.

(** The part of the loop after the siblings of an answer. *)
Definition loop_more (f : nat) (proof_size cur_step : Z) (cur : list Z) : io (option (list Z)) :=
  if cur_step =? proof_size then mret (Some cur)
  else
    res ← request_more;
    if res <? 0 then mret None
    else
      m ← read_more 32;
      match m with
      | inr _ => mret None
      | inl n =>
          if proof_size <? cur_step + n then mret None
          else proof_loop sha256 f tree_size leaf_index proof_size n cur_step cur
      end.

Lemma loop_more_spec f proof_size cur_step cur st Q :
  loop_ok f → (length (rx st) ≤ f)%nat → idle st → 0 ≤ cur_step ≤ proof_size →
  (proof_size ≤ zlen p ∨ cur_step = 0) →
  let need := Z.to_nat (proof_size - cur_step) in
  served need (rx st) →
  (∀ st', idle st' → (length (rx st') ≤ length (rx st))%nat →
    (∀ hs rx', proof_size ≤ zlen p → gather need (rx st) = Some (hs, rx') → rx st' = rx') →
    Q (loop_result proof_size cur_step cur (fst <$> gather need (rx st))) st') →
  wp T (loop_more f proof_size cur_step cur) Q st.
Proof.
  intros IH Hf Hi H0 Hp need Hs HQ. rw /loop_more. pose proof (zlen_nonneg p).
  destruct (Z.eqb_spec cur_step proof_size) as [->|Hne].
  { wp_steps. rewrite /need Z.sub_diag gather_0 in HQ. specialize (HQ st Hi).
    rewrite /loop_result decide_True /= in HQ; [|lia]. rewrite zip_with_nil_r in HQ.
    apply HQ; [done|]. by intros ?? _ [= <- <-]. }
  assert (need = S (pred need)) as Hneed by (unfold need; lia).
  rewrite Hneed in Hs, HQ. wp_step.
  apply request_more_spec; [done|by eapply served_answers|].
  intros st1 ex Hrx Hi1. rewrite Hrx in HQ, Hs. rewrite Hrx /= in Hf. cbn [gather] in HQ, Hs.
  destruct (answer ex) as [d|] eqn:Ha.
  2:{ wp_steps. rewrite loop_result_None in HQ. apply HQ; [done|simpl; lia|done]. }
  intros Hu _ _ _. wp_steps. cbn [Z.ltb Z.compare]. wp_step.
  apply read_more_spec; [apply Hi1|]. intros o Hwf. rewrite Hu. set (st2 := set_rb_offset o st1) in *.
  assert (idle st2) as Hi2 by (split; [done|apply Hi1]).
  assert (Q (loop_result proof_size cur_step cur None) st2 → wp T (mret None) Q st2) as Hfail
    by (by rewrite loop_result_None).
  assert ((length (rx st2) ≤ length (ex :: rx st1))%nat) as Hle by (simpl; lia).
  specialize (HQ st2 Hi2 Hle) as HQ2.
  destruct d as [|n [|e r]]; [by apply Hfail, HQ2..|]. intros Hn.
  case_decide as Hd; last first.
  { destruct (Z.ltb_spec (zlen r) (n * e)); [by apply Hfail, HQ2|].
    destruct (Z.eqb_spec e 32) as [->|]; [|by apply Hfail, HQ2].
    intros _. rw (proj2 (Z.ltb_lt _ _)); [by apply Hfail, HQ2|].
    unfold byte_ok in Hn. unfold need in *. lia. }
  clear HQ2. destruct Hd as (-> & Hlen & Hnn). rw (proj2 (Z.ltb_ge _ _)) // Z.eqb_refl. intros Hu2.
  unfold byte_ok in Hn. rw (proj2 (Z.ltb_ge _ _)); [|unfold need in *; lia].
  assert ((S (pred need) - Z.to_nat n)%nat = Z.to_nat (proof_size - cur_step - n)) as Heq
    by (unfold need; lia).
  rewrite Heq in HQ. apply IH; [simpl; lia|done|done|lia|unfold need in *; lia|done|rw Hu2; lia| |].
  { destruct Hs as [HT|[Hpr Hg]]; [by left|right]. apply Forall_cons in Hpr as [_ Hpr].
    split; [done|]. cbn [gather] in Hg. rewrite Ha in Hg. case_decide as Hd; [|by destruct Hd].
    rewrite Heq in Hg. simpl. destruct (gather _ (rx st1)) as [[??]|]; [by eexists|by destruct Hg]. }
  intros st3 Hi3 Hrx3 Hg3. rewrite Hu2. simpl in Hg3.
  specialize (HQ st3 Hi3). change (rx st2) with (rx st1) in *.
  destruct (gather _ (rx st1)) as [[hs rx']|]; simpl in *;
    (apply HQ; [lia|]); intros ?? Hps [= <- <-]; by eapply Hg3.
Qed.

Lemma proof_loop_spec fuel : loop_ok fuel.
Proof.
  induction fuel as [|f IH]; intros proof_size n cur_step cur st Q Hf [Hwf Ho] Hn H0 Hle Hp Hlen need Hs HQ;
    [lia|].
  cbn [proof_loop]. wp_step. unfold byte_ok in Hn.
  destruct (decide (proof_size ≤ zlen p)) as [Hps|Hps].
  - apply proof_steps_spec; [done|lia|lia|done|lia|]. intros o Hwf1.
    assert (proof_size - (cur_step + n) = proof_size - cur_step - n) as Hneq by lia.
    apply (loop_more_spec f); rewrite ?Hneq; [done|simpl; lia|done|lia|by left|done|].
    intros st' Hi' Hrx' Heq. specialize (HQ st' Hi' Hrx' Heq).
    rewrite -(loop_result_app _ _ (Z.to_nat n)) ?chunks_length ?Z2Nat.id // in HQ; lia.
  - destruct Hp as [?| ->]; [done|]. rewrite /loop_result decide_False // in HQ.
    destruct (Z.to_nat n) as [|n'] eqn:Hn'.
    + cbn [proof_steps]. wp_steps. assert (proof_size - (0 + n) = proof_size - 0 - n) as Hneq by lia.
      apply (loop_more_spec f); rewrite ?Hneq; [done|lia|done|lia|right; lia|done|].
      rewrite /loop_result decide_False //.
    + apply proof_steps_long; [lia|]. wp_steps. apply HQ; [done|lia|done].
Qed.
Lemma read_proof_header_spec st Q :
  wf_dstate st →
  (∀ o, wf_dstate (set_rb_offset o st) →
    match drop 32 (unread st) with
    | ps :: n :: r =>
        byte_ok ps → byte_ok n → 32 ≤ zlen (unread st) →
        if decide (n ≤ ps ∧ 32 * n ≤ zlen r) then
          unread (set_rb_offset o st) = r →
          Q (Some (take 32 (unread st), ps, n)) (set_rb_offset o st)
        else Q None (set_rb_offset o st)
    | _ => Q None (set_rb_offset o st)
    end) →
  wp T read_proof_header Q st.
Proof.
  intros Hwf HQ. rw /read_proof_header. wp_step. pose proof (unread_ok _ Hwf) as Hok.
  apply rb_read_bytes_spec; [done|lia|]. change (Z.to_nat 32) with 32%nat.
  destruct (Z.ltb_spec (zlen (unread st)) 32) as [Hlt|Hge].
  { wp_steps. specialize (HQ (rb_offset st)). rewrite set_rb_offset_id in HQ. specialize (HQ Hwf).
    rewrite drop_ge // in HQ. unfold zlen in Hlt. lia. }
  intros o Hwf1 Hu1. wp_step. apply rb_read_u8_spec; [done|]. rewrite Hu1.
  assert (bytes_ok (drop 32 (unread st))) as Hok1 by auto with ledger.
  destruct (drop 32 (unread st)) as [|ps l]; [wp_steps; by apply HQ|].
  apply Forall_cons in Hok1 as [Hps Hok1]. intros o2 Hwf2 Hu2.
  rewrite set_rb_offset_twice in Hwf2, Hu2. rewrite set_rb_offset_twice. wp_step.
  apply rb_read_u8_spec; [done|]. rewrite Hu2. destruct l as [|n r]; [wp_steps; by apply HQ|].
  apply Forall_cons in Hok1 as [Hn Hok1]. intros o3 Hwf3 Hu3.
  rewrite set_rb_offset_twice in Hwf3, Hu3. rewrite set_rb_offset_twice.
  specialize (HQ o3 Hwf3 Hps Hn Hge). unfold byte_ok in Hn, Hps. case_decide as Hd.
  - rw (proj2 (Z.ltb_ge _ _)); [|lia]. wp_step. apply rb_can_read_spec; [done|].
    rw u32_small; [|lia]. rewrite Hu3. rw (proj2 (Z.leb_le _ _)); [|lia]. wp_steps. by apply HQ.
  - destruct (Z.ltb_spec ps n); [by wp_steps|]. wp_step. apply rb_can_read_spec; [done|].
    rw u32_small; [|lia]. rewrite Hu3. rw (proj2 (Z.leb_gt _ _)); [|lia]. by wp_steps.
Qed.

(** The siblings lead from the hash to the root along the directions of the
    leaf. *)
Definition valid_proof (root h : list Z) (sibs : list (list Z)) : Prop :=
  zlen sibs ≤ zlen p ∧
  climb sha256 h (zip (reverse (take (length sibs) p)) sibs) = root.

#[global] Instance valid_proof_dec root h sibs : Decision (valid_proof root h sibs).
Proof. unfold valid_proof. apply _. Defined.

(** What is returned for a list of answers. *)
Definition leaf_result (root : list Z) (rx : list exchange) : option (list Z * list exchange) :=
  '(h, sibs, rx') ← leaf_proof rx;
  if decide (valid_proof root h sibs) then Some (h, rx') else None.

Lemma leaf_hash_spec root st Q :
  idle st → zlen root = 32 → bytes_ok root → leaf_index < 2 ^ 32 →
  (T ∨ (Forall prompt (rx st) ∧ is_Some (leaf_proof (rx st)))) →
  (∀ st' r, idle st' → (length (rx st') < length (rx st))%nat →
    match leaf_result root (rx st) with
    | Some (h, rx') => r = (0, Some h) ∧ rx st' = rx'
    | None => r.1 = -1
    end → Q r st') →
  wp T (call_get_merkle_leaf_hash sha256 root tree_size leaf_index) Q st.
Proof.
  intros Hi Hz Hok Hx Hs HQ. rw /call_get_merkle_leaf_hash. wp_step.
  apply request_leaf_proof_spec; [done| |done|done|lia|lia|].
  { destruct Hs as [?|[Hpr [? Hl]]]; [by left|right]. destruct (rx st); [done|by inversion Hpr]. }
  intros st1 ex Hrx Hi1. rewrite Hrx in HQ. rewrite /leaf_result /leaf_proof in HQ.
  destruct (answer ex) as [d|] eqn:Ha.
  2:{ wp_steps. apply HQ; [done|simpl; lia|done]. }
  intros Hu _ _ _. wp_steps. cbn [Z.ltb Z.compare]. wp_step.
  apply read_proof_header_spec; [apply Hi1|]. intros o Hwf2. rewrite Hu.
  assert (idle (set_rb_offset o st1)) as Hi2 by (split; [done|apply Hi1]).
  simpl in HQ. destruct (drop 32 d) as [|ps [|n r]] eqn:Hd;
    [wp_steps; apply HQ; [done|simpl; lia|done]..|].
  intros Hps Hn Hlen. case_decide as Hdec; [|wp_steps; apply HQ; [done|simpl; lia|done]].
  intros Hu2. wp_step. rw /answers_left. wp_steps. unfold byte_ok in Hps.
  assert (Z.to_nat (ps - 0 - n) = (Z.to_nat ps - Z.to_nat n)%nat) as Hneed by (unfold byte_ok in Hn; lia).
  apply proof_loop_spec; [simpl; lia|done|done|lia|lia|by right|by rw Hu2; lia| |]; rewrite Hneed.
  { destruct Hs as [?|[Hpr [[[h0 s0] r0] Hl]]]; [by left|right]. rewrite Hrx in Hpr, Hl.
    apply Forall_cons in Hpr as [_ Hpr]. split; [done|]. rewrite /leaf_proof Ha /= Hd in Hl.
    case_decide; [|done]. simpl. destruct (gather _ (rx st1)); [by eexists|done]. }
  intros st3 Hi3 Hrx3 Hg. simpl in Hg, Hrx3. rewrite Hu2. simpl.
  destruct (gather _ (rx st1)) as [[hs rx']|] eqn:Hgather; simpl in *.
  2:{ rewrite loop_result_None. wp_steps. apply HQ; [done|lia|done]. }
  pose proof (gather_length _ _ _ _ Hgather) as Hgl.
  assert (length (chunks (Z.to_nat n) r ++ hs) = Z.to_nat ps) as Hsl.
  { rw length_app chunks_length Hgl. unfold byte_ok in Hn. lia. }
  unfold loop_result. destruct (decide (ps ≤ zlen p)) as [Hp|Hp].
  - simpl. cbv beta iota. rewrite (drop_0 (reverse _)). case_bool_decide as Hroot; wp_steps; apply HQ; try done; try lia.
    + rewrite decide_True; [|rewrite /valid_proof Hsl; split; [unfold zlen in *; lia|done]].
      split; [done|]. by eapply Hg.
    + rewrite decide_False; [done|]. rewrite /valid_proof Hsl. by intros [_ ?].
  - wp_steps. apply HQ; [done|lia|]. rewrite decide_False; [done|].
    intros [Hle _]. apply Hp. unfold zlen in *. lia.
Qed.
End leaf_hash.

(** ** Proofs of the nodes of a tree *)
Lemma subtree_prefix t p q t' :
  subtree t (p ++ q) = Some t' → ∃ t'', subtree t p = Some t''.
Proof.
  revert t. induction p as [|b p IH]; intros t; [by exists t|].
  destruct t as [|l r]; [done|]. apply IH.
Qed.

Section trees.
Context (sha256 : list Z → list Z) (sha256_length : ∀ x, zlen (sha256 x) = 32).
Context (leaves : list (list Z)) (Hleaves : 0 < zlen leaves ≤ 2 ^ 31).
Context (Hhashes : Forall (λ h, zlen h = 32) leaves).

Definition merkle_tree : tree := build 31 leaves.

(** [h] is the hash of the node at depth [k] on the path to a leaf. *)
Definition node_on_path (index : Z) (k : nat) (h : list Z) : Prop :=
  ∃ t, subtree merkle_tree (take k (path (zlen leaves) index)) = Some t ∧ h = root sha256 t.

Lemma path_prefix index k :
  0 ≤ index → ∃ t, subtree merkle_tree (take k (path (zlen leaves) index)) = Some t.
Proof.
  intros Hi. rw /path. case_decide as Hlt; [|rw take_nil; by eexists].
  destruct (build_subtree 31 leaves index) as (h & _ & Hs); [apply Hleaves|lia|].
  rewrite -(take_drop k (dirs 31 _ _)) in Hs. by apply subtree_prefix in Hs.
Qed.

Lemma merkle_tree_ok : tree_ok merkle_tree.
Proof. by apply build_ok. Qed.

(** The leaf itself is at the end of its path. *)
Lemma leaf_on_path index h :
  0 ≤ index → leaves !! Z.to_nat index = Some h →
  node_on_path index (length (path (zlen leaves) index)) h.
Proof.
  intros Hi Hh. assert (index < zlen leaves) by (apply lookup_lt_Some in Hh; unfold zlen; lia).
  rw /node_on_path firstn_all /path decide_True //.
  destruct (build_subtree 31 leaves index) as (h' & Hh' & Hs); [apply Hleaves|lia|].
  exists (TLeaf h'). split; [done|]. simpl. congruence.
Qed.

Lemma valid_proof_sound index h sibs :
  0 ≤ index → zlen h = 32 → Forall (λ s, zlen s = 32) sibs →
  valid_proof sha256 (zlen leaves) index (root sha256 merkle_tree) h sibs →
  node_on_path index (length sibs) h ∨ collision sha256.
Proof.
  intros Hi Hh Hs [Hlen Hc]. destruct (path_prefix index (length sibs) Hi) as [t Ht].
  destruct (climb_sound sha256 sha256_length _ _ _ h sibs merkle_tree_ok Ht) as [Heq|]; try done.
  - rw length_take. set (q := path _ _) in *. unfold zlen in Hlen. lia.
  - left. by exists t.
  - by right.
Qed.

Lemma valid_proof_complete index k t :
  0 ≤ index → (k ≤ length (path (zlen leaves) index))%nat →
  let q := take k (path (zlen leaves) index) in
  subtree merkle_tree q = Some t →
  valid_proof sha256 (zlen leaves) index (root sha256 merkle_tree) (root sha256 t)
    (siblings sha256 merkle_tree q).
Proof.
  intros Hi Hk q Hq. pose proof (siblings_length sha256 _ _ _ Hq) as Hl.
  rewrite length_take Nat.min_l // in Hl. rw /valid_proof Hl. split; [|by apply climb_complete].
  unfold zlen at 1. rewrite Hl. unfold zlen at 1. lia.
Qed.
End trees.

(** ** Hosts

    The exchange in which a host answers [d] at once. *)
Definition reply (d : list Z) : exchange :=
  mk_exchange 0 (5 + zlen d)
    ([CLA_FRAMEWORK; INS_CONTINUE; 0; 0; zlen d] ++ d ++ replicate (Z.to_nat (255 - zlen d)) 0).

Lemma reply_answer d : answer (reply d) = Some d.
Proof.
  rw /answer /reply. cbn [ex_len ex_buf]. pose proof (zlen_nonneg d).
  rw (proj2 (Z.leb_le _ _)); [|lia]. replace (5 + zlen d - 5) with (zlen d) by lia.
  rw !bool_decide_eq_true_2 //=. f_equal. rw /slice /= drop_0 zlen_length take_app_length' //.
Qed.

Lemma reply_wf d : bytes_ok d → zlen d ≤ 255 → wf_exchange (reply d).
Proof.
  intros Hd Hl. pose proof (zlen_nonneg d). rw /wf_exchange /reply. cbn [ex_len ex_buf]. split_and!.
  - rw !zlen_app /zlen length_replicate. unfold zlen, IO_APDU_BUFFER_SIZE in *. simpl. lia.
  - rewrite !Forall_app. split_and!; [|done|by apply Forall_replicate].
    repeat constructor; rw /byte_ok; lia || done.
  - lia.
  - unfold IO_APDU_BUFFER_SIZE. lia.
Qed.

Lemma leaf_proof_ok rx h sibs rx' :
  Forall wf_exchange rx → leaf_proof rx = Some (h, sibs, rx') →
  zlen h = 32 ∧ bytes_ok h ∧ Forall (λ s, zlen s = 32) sibs.
Proof.
  intros Hwf. destruct rx as [|ex rx]; [done|]. apply Forall_cons in Hwf as [Hex Hwf].
  cbn [leaf_proof]. destruct (answer ex) as [d|] eqn:Ha; [|done]. simpl.
  pose proof (answer_ok _ _ Hex Ha) as Hd.
  destruct (drop 32 d) as [|ps [|n r]] eqn:Hdrop; try done. case_decide as Hdec; [|done].
  destruct (gather _ rx) as [[hs rx'']|] eqn:Hg; [|done]. intros [= <- <- <-].
  assert (bytes_ok (ps :: n :: r)) as Hok by (rw -Hdrop; auto with ledger).
  assert (byte_ok n) as Hn by (by inversion Hok as [|?? _ Hok2]; inversion Hok2).
  unfold byte_ok in Hn.
  split_and!; [|auto with ledger|apply Forall_app; split; [apply chunks_ok; lia|by eapply gather_ok]].
  apply (zlen_take 32). assert (zlen (drop 32 d) = 2 + zlen r) as Hz by (rw Hdrop !zlen_cons; lia).
  unfold zlen in *. rewrite length_drop in Hz. lia.
Qed.

Lemma i32_index index : 0 ≤ i32 index → u32 index = i32 index.
Proof.
  rw /i32 /u32 /wrap_signed. change (32 - 1) with 31. intros H.
  Z.to_euclidean_division_equations. lia.
Qed.

(** The index that [call_get_merkle_leaf_index] returns has been proved. *)
Lemma leaf_index_spec sha256 size root leaf_hash st Q :
  idle st → zlen root = 32 → bytes_ok root → zlen leaf_hash = 32 → bytes_ok leaf_hash → u32 size ≤ 2 ^ 31 →
  (∀ r st', idle st' →
     (0 ≤ r → ∃ rx0 rx', Forall wf_exchange rx0 ∧ leaf_result sha256 (u32 size) r root rx0 = Some (leaf_hash, rx')) →
     r < 2 ^ 31 → Q r st') →
  wp True (call_get_merkle_leaf_index sha256 size root leaf_hash) Q st.
Proof.
  intros Hi Hrz Hrok Hz Hok Hs HQ. rw /call_get_merkle_leaf_index. wp_step.
  assert (∀ e st', e < 0 → idle st' → Q e st') as Hfail by (intros e st' ??; apply HQ; [done|lia..]).
  apply request_leaf_index_spec; [done|by left|done..|].
  intros st1 ex Hrx Hi1. destruct (answer ex) as [d|]; [|by wp_steps; apply Hfail].
  intros Hu _ _ _. wp_steps. cbn [Z.ltb Z.compare]. wp_step. apply rb_read_u8_spec; [apply Hi1|].
  destruct (unread st1) as [|found l]; [by wp_steps; apply Hfail|].
  intros o Hwf2 Hu2. wp_step. apply rb_read_varint_spec; [done|].
  destruct (varint_dec _) as [[index l']|] eqn:Hv; last first.
  { wp_steps. apply Hfail; [done|]. split; [done|apply Hi1]. }
  intros o3 Hwf3 _. rewrite set_rb_offset_twice. rewrite set_rb_offset_twice in Hwf3.
  assert (idle (set_rb_offset o3 st1)) as Hi3 by (split; [done|apply Hi1]).
  destruct (negb (found =? 0) && _); [by wp_steps; apply Hfail|].
  destruct (found =? 0); [by wp_steps; apply Hfail|]. wp_step.
  pose proof (u32_range index). pose proof (u32_range size).
  apply leaf_hash_spec; [lia|lia|done..|lia|by left|].
  intros st4 [res h] Hi4 _ Hr. cbv beta iota.
  destruct (leaf_result _ _ _ _ _) as [[h' rx']|] eqn:Hl; last first.
  { simpl in Hr. subst res. wp_steps. by apply Hfail. }
  destruct Hr as [[= -> ->] _]. cbn [Z.ltb Z.compare]. case_bool_decide as Heq; [|by wp_steps; apply Hfail].
  injection Heq as ->. wp_steps. apply HQ; [done|..].
  - intros Hge. rewrite -(i32_index _ Hge). eexists _, _. split; [apply Hi3|exact Hl].
  - rw /i32 /wrap_signed. change (32 - 1) with 31. pose proof (Z.mod_pos_bound (index + 2 ^ 31) (2 ^ 32)). lia.
Qed.

(** The hash that a lookup in a map returns: the key has been proved to be at
    some index of the tree of keys, and the hash at this index of the tree of
    values. *)
Lemma map_value_hash_spec sha256 map key st Q :
  idle st → zlen (keys_root map) = 32 → bytes_ok (keys_root map) → zlen (values_root map) = 32 → bytes_ok (values_root map) →
  zlen (merkle_compute_element_hash sha256 key) = 32 → bytes_ok (merkle_compute_element_hash sha256 key) →
  u32 (map_size map) ≤ 2 ^ 31 →
  (∀ r st', idle st' →
     (r.1 = -1 ∨ ∃ h i rx1 rx1' rx2 rx2', r = (0, Some h) ∧ zlen h = 32 ∧ bytes_ok h ∧ 0 ≤ i ∧
        Forall wf_exchange rx1 ∧ Forall wf_exchange rx2 ∧
        leaf_result sha256 (u32 (map_size map)) i (keys_root map) rx1 = Some (merkle_compute_element_hash sha256 key, rx1') ∧
        leaf_result sha256 (u32 (map_size map)) i (values_root map) rx2 = Some (h, rx2')) → Q r st') →
  wp True (call_get_merkleized_map_value_hash sha256 map key) Q st.
Proof.
  intros Hi Hkz Hkok Hvz Hvok Hez Heok Hs HQ. rw /call_get_merkleized_map_value_hash. wp_step.
  pose proof (u32_range (map_size map)).
  assert (u32 (u32 (map_size map)) = u32 (map_size map)) as Hu by (by rw u32_small).
  apply leaf_index_spec; [done..|by rw Hu|]. rw Hu. intros r st1 Hi1 Hr Hlt.
  destruct (Z.ltb_spec r 0); [wp_steps; apply HQ; [done|by left]|]. destruct (Hr ltac:(lia)) as (rx1 & rx1' & Hwf1 & Hl1).
  apply leaf_hash_spec; [lia|lia|done..|lia|by left|]. intros st2 r2 Hi2 _ Hr2. apply HQ; [done|].
  destruct (leaf_result _ _ _ (values_root map) _) as [[h rx']|] eqn:Hl; [right|by left]. destruct Hr2 as [-> _].
  assert (zlen h = 32 ∧ bytes_ok h) as [??].
  { rewrite /leaf_result in Hl. destruct (leaf_proof (rx st1)) as [[[h' sibs] rx2]|] eqn:Hp; [|done].
    simpl in Hl. case_decide; [|done]. injection Hl as -> _. by destruct (leaf_proof_ok _ _ _ _ (wf_rx _ (proj1 Hi1)) Hp) as (? & ? & _). }
  exists h, r, rx1, rx1', (rx st1), rx'. split_and!; try done. exact (wf_rx _ (proj1 Hi1)).
Qed.

Section correctness.
Context (sha256 : list Z → list Z) (sha256_length : ∀ x, zlen (sha256 x) = 32).
Context (leaves : list (list Z)) (Hleaves : 0 < zlen leaves ≤ 2 ^ 31).
Context (Hhashes : Forall (λ h, zlen h = 32) leaves).

Lemma leaf_result_sound index rx h rx' :
  0 ≤ index → Forall wf_exchange rx →
  leaf_result sha256 (zlen leaves) index (root sha256 (merkle_tree leaves)) rx = Some (h, rx') →
  (∃ k, node_on_path sha256 leaves index k h) ∨ collision sha256.
Proof.
  intros Hi Hwf. rw /leaf_result. destruct (leaf_proof rx) as [[[h' sibs] rx'']|] eqn:Hp; [|done].
  simpl. case_decide as Hv; [|done]. intros [= <- <-].
  destruct (leaf_proof_ok _ _ _ _ Hwf Hp) as (Hz & _ & Hs).
  apply valid_proof_sound in Hv as [?|?]; [by left; eexists|by right|done..].
Qed.

(** C1: no host can make [call_get_merkle_leaf_hash] return a hash that is
    not in the tree.  For every tree with 1 to 2^31 leaves and every behaviour
    of the host, the call performs no undefined access and ends; when it succeeds, the hash
    is that of a node on the path from the root to the leaf, or two inputs
    with the same SHA-256 are known. *)
Theorem merkle_leaf_hash_sound index st :
  idle st → 0 ≤ index < 2 ^ 32 → bytes_ok (root sha256 (merkle_tree leaves)) →
  wp True
    (call_get_merkle_leaf_hash sha256 (root sha256 (merkle_tree leaves)) (zlen leaves) index)
    (λ r st', idle st' ∧
       (r.1 = -1 ∨
        ∃ h, r = (0, Some h) ∧
          ((∃ k, node_on_path sha256 leaves index k h) ∨ collision sha256))) st.
Proof.
  intros Hi Hx Hok.
  apply leaf_hash_spec; [lia|lia|done|apply root_zlen, merkle_tree_ok; done|done|lia|by left|].
  intros st' r Hi' _ Hr. split; [done|].
  destruct (leaf_result _ _ _ _ _) as [[h rx']|] eqn:Hl; [right|by left].
  destruct Hr as [-> _]. exists h. split; [done|]. eapply leaf_result_sound; [lia| |exact Hl].
  apply Hi.
Qed.

(** C33: every node on the path to a leaf of a tree with 1 to 2^31 leaves can be
    proved.  When the host
    answers in time with the hash of the node at depth [k] on the path and
    the siblings of the path, in any number of answers, the call returns
    that hash.  With [k] the length of the path this is the completeness of
    the proofs of the leaves; as the size of the proof is not compared with
    the depth of the tree, the hash of an internal node is accepted as that
    of a leaf as well. *)
Theorem merkle_leaf_hash_complete index k t rx' st :
  let q := take k (path (zlen leaves) index) in
  idle st → 0 ≤ index < 2 ^ 32 → bytes_ok (root sha256 (merkle_tree leaves)) →
  (k ≤ length (path (zlen leaves) index))%nat →
  subtree (merkle_tree leaves) q = Some t →
  Forall prompt (rx st) →
  leaf_proof (rx st) = Some (root sha256 t, siblings sha256 (merkle_tree leaves) q, rx') →
  ∃ st', call_get_merkle_leaf_hash sha256 (root sha256 (merkle_tree leaves)) (zlen leaves) index st
           = Val ((0, Some (root sha256 t)), st') ∧ idle st' ∧ rx st' = rx'.
Proof.
  intros q Hi Hx Hok Hk Hq Hpr Hp.
  destruct (wp_returns (call_get_merkle_leaf_hash sha256 (root sha256 (merkle_tree leaves)) (zlen leaves) index)
    (λ r st', r = (0, Some (root sha256 t)) ∧ idle st' ∧ rx st' = rx') st) as (r & st' & Hr & -> & ?);
    [|by exists st'].
  apply leaf_hash_spec; [lia|lia|done|apply root_zlen, merkle_tree_ok; done|done|lia|right; by rewrite Hp; eauto|].
  intros st' r Hi' _. rewrite /leaf_result Hp /= decide_True.
  - by intros [-> ->].
  - apply valid_proof_complete; [lia|done..].
Qed.

(** C32: no host can make [call_get_merkle_leaf_index] find a hash that is not
    in the tree, which has 1 to 2^31 leaves.  For every behaviour of the host the
    call performs no undefined access and ends; an index that it returns is one for which the
    hash is that of a node on the path to the leaf with that index, or a
    collision of SHA-256 is known. *)
Theorem merkle_leaf_index_sound leaf_hash st :
  idle st → zlen leaf_hash = 32 → bytes_ok leaf_hash →
  bytes_ok (root sha256 (merkle_tree leaves)) →
  wp True
    (call_get_merkle_leaf_index sha256 (zlen leaves) (root sha256 (merkle_tree leaves)) leaf_hash)
    (λ r st', idle st' ∧
       (0 ≤ r → (∃ k, node_on_path sha256 leaves r k leaf_hash) ∨ collision sha256)) st.
Proof.
  intros Hi Hz Hok Hrok. assert (u32 (zlen leaves) = zlen leaves) as Hu by (apply u32_small; lia).
  apply leaf_index_spec; [done|apply root_zlen, merkle_tree_ok; done|done..|lia|]. rw Hu.
  intros r st' Hi' Hr _. split; [done|]. intros Hge. destruct (Hr Hge) as (rx0 & rx' & Hwf & Hl).
  by eapply leaf_result_sound.
Qed.
End correctness.

(** A stand-in for SHA-256 in examples: a polynomial in the bytes, on 32 bytes. *)
Definition toy_hash (x : list Z) : list Z := le_bytes 32 (foldl (λ h b, (31 * h + b + 1) `mod` 65521) 1 x).

Lemma toy_hash_length x : zlen (toy_hash x) = 32.
Proof. by rw /toy_hash /zlen length_le_bytes. Qed.

Definition sample_leaves : list (list Z) := [replicate 32 1; replicate 32 2; replicate 32 3].

(** The host proves the leaf 1 of [sample_leaves] in two answers. *)
Definition sample_proof : list exchange :=
  [reply (replicate 32 2 ++ [2; 1] ++ replicate 32 1); reply ([1; 32] ++ replicate 32 3)].

Lemma sample_proof_wf : Forall wf_exchange sample_proof.
Proof. repeat constructor; by apply (bool_decide_unpack _). Qed.

Lemma merkle_leaf_hash_sound_witness :
  wp True
    (call_get_merkle_leaf_hash toy_hash (root toy_hash (merkle_tree sample_leaves)) 3 1)
    (λ r st', idle st' ∧
       (r.1 = -1 ∨
        ∃ h, r = (0, Some h) ∧
          ((∃ k, node_on_path toy_hash sample_leaves 1 k h) ∨ collision toy_hash)))
    (sample_state 0 sample_proof).
Proof.
  apply (merkle_leaf_hash_sound toy_hash toy_hash_length sample_leaves);
    [done|by repeat constructor|split; [by apply sample_state_wf, sample_proof_wf|done]|done|].
  by apply (bool_decide_unpack _); vm_compute.
Defined.

Lemma merkle_leaf_hash_complete_witness :
  ∃ st', call_get_merkle_leaf_hash toy_hash (root toy_hash (merkle_tree sample_leaves)) 3 1 (sample_state 0 sample_proof)
           = Val ((0, Some (replicate 32 2)), st') ∧ idle st' ∧ rx st' = [].
Proof.
  apply (merkle_leaf_hash_complete toy_hash toy_hash_length sample_leaves ltac:(done) ltac:(by repeat constructor) 1 2
    (TLeaf (replicate 32 2)) [] (sample_state 0 sample_proof)).
  - split; [by apply sample_state_wf, sample_proof_wf|done].
  - done.
  - by apply (bool_decide_unpack _); vm_compute.
  - by vm_compute.
  - by vm_compute.
  - by repeat constructor.
  - by vm_compute.
Defined.

(** The host answers that the leaf is found at index 1, then proves it. *)
Lemma merkle_leaf_index_sound_witness :
  wp True
    (call_get_merkle_leaf_index toy_hash 3 (root toy_hash (merkle_tree sample_leaves)) (replicate 32 2))
    (λ r st', idle st' ∧
       (0 ≤ r → (∃ k, node_on_path toy_hash sample_leaves r k (replicate 32 2)) ∨ collision toy_hash))
    (sample_state 0 (reply [1; 1] :: sample_proof)).
Proof.
  apply (merkle_leaf_index_sound toy_hash toy_hash_length sample_leaves);
    [done|by repeat constructor| |done|by apply (bool_decide_unpack _)|].
  - split; [|done]. apply sample_state_wf; [done|].
    constructor; [by apply (bool_decide_unpack _)|apply sample_proof_wf].
  - by apply (bool_decide_unpack _); vm_compute.
Defined.
