(* ===== verification/Preimage.v ===== *)
(** * Preimages obtained from the host

    What the flows of MerkleClient.v that fetch a preimage return, for every
    behaviour of the host: [call_get_preimage] and [call_stream_preimage]
    deliver data with the requested hash; [call_get_merkle_preimage] does so
    when the host encodes the length of the preimage in one byte, and delivers
    whatever the host chooses otherwise.  [call_check_merkle_tree_sorted]
    accepts the trees whose elements are in strict lexicographical order. *)

From S2P Require Import Prelude Bytes Bip32 Buffer Merkle Dispatcher MerkleClient MerkleProof.

(** ** Answers as chunks of data *)

(** The chunks of the [need] bytes that are left, from the answers to
    GET_MORE_ELEMENTS, each with the exchange it comes from; and the answers
    after them. *)
Fixpoint gather_chunks (need : Z) (rx : list exchange)
    : option (list (exchange * list Z) * list exchange) :=
  if need =? 0 then Some ([], rx)
  else
    match rx with
    | [] => None
    | ex :: rx' =>
        match answer ex with
        | Some (n :: e :: r) =>
            if decide (e = 1 ∧ n ≤ zlen r ∧ n ≤ need) then
              '(l, rx'') ← gather_chunks (need - n) rx';
              Some ((ex, take (Z.to_nat n) r) :: l, rx'')
            else None
        | _ => None
        end
    end.

Definition chunk_data (l : list (exchange * list Z)) : list Z := concat (snd <$> l).

Lemma chunk_data_cons ex c l : chunk_data ((ex, c) :: l) = c ++ chunk_data l.
Proof. done. Qed.

Lemma gather_chunks_zlen need rx l rx' :
  0 ≤ need → Forall wf_exchange rx → gather_chunks need rx = Some (l, rx') →
  zlen (chunk_data l) = need ∧ bytes_ok (chunk_data l).
Proof.
  revert need l. induction rx as [|ex rx IH]; intros need l H0 Hwf; cbn [gather_chunks];
    (destruct (Z.eqb_spec need 0) as [->|Hne]; [by intros [= <- <-]|]); [done|].
  apply Forall_cons in Hwf as [Hex Hwf].
  destruct (answer ex) as [[|n [|e r]]|] eqn:Ha; try done. case_decide as Hd; [|done].
  destruct (gather_chunks _ rx) as [[l' rx'']|] eqn:Hg; [|done]. intros [= <- <-].
  apply answer_ok in Ha; [|done]. apply Forall_cons in Ha as [Hn Ha]. unfold byte_ok in Hn.
  apply Forall_cons in Ha as [_ Ha]. apply IH in Hg as [Hz Hok]; [|lia|done].
  rw chunk_data_cons zlen_app zlen_take; [|lia]. split; [lia|].
  apply Forall_app. auto with ledger.
Qed.

(** A read moves the cursor by the number of bytes it takes. *)
Lemma rb_offset_read st o k :
  wf_dstate st → wf_dstate (set_rb_offset o st) →
  unread (set_rb_offset o st) = drop k (unread st) → (k ≤ length (unread st))%nat →
  o = rb_offset st + Z.of_nat k.
Proof.
  intros Hwf Hwf' Hu Hk.
  pose proof (rest_zlen _ (wf_read_buffer _ Hwf)) as H1.
  pose proof (rest_zlen _ (wf_read_buffer _ Hwf')) as H2.
  change (rest (read_buffer ?s)) with (unread s) in *. rewrite Hu in H2. simpl in *.
  unfold zlen in *. rewrite length_drop in H2. lia.
Qed.

Lemma read_ptr_base st x l : wf_dstate st → unread st = x :: l → rb_base st = Some OFFSET_CDATA.
Proof.
  intros Hwf Hu. destruct (wf_rb_base _ Hwf) as [Hb|?]; [|done].
  rewrite /unread /rest /read_buffer Hb /slice /= drop_nil take_nil in Hu. done.
Qed.

(** The state in which the chunk of an answer is used: the cursor is on the
    data, after the two bytes of the header. *)
Record chunk_state (ex : exchange) (chunk : list Z) (st : dstate) : Prop := {
  chunk_idle : idle st;
  chunk_buf : apdu_buf st = ex_buf ex;
  chunk_ptr : read_ptr st = Some 7;
  chunk_len : zlen chunk ≤ zlen (unread st);
  chunk_eq : take (length chunk) (unread st) = chunk
}.

Section more.
Context (T : Prop) {S : Type} (err : Z) (Herr : err < 0) (step : Z → S → io S).

(** An invariant that the step preserves: [I l s] when the chunks [l] have
    been processed; and what the step needs of a chunk. *)
Context (I : list (exchange * list Z) → S → Prop) (P : exchange → list Z → Prop).
Context (Hstep : ∀ l ex chunk s st Q,
  wf_exchange ex → P ex chunk → chunk_state ex chunk st → I l s →
  (∀ s', I (l ++ [(ex, chunk)]) s' → Q s' st) →
  wp T (step (zlen chunk) s) Q st).

Definition good_chunks : list exchange → Prop :=
  Forall (λ ex, ∀ n e r, answer ex = Some (n :: e :: r) → 0 ≤ n ≤ zlen r → P ex (take (Z.to_nat n) r)).

Lemma more_bytes_spec fuel rem data l s st Q :
  (length (rx st) < fuel)%nat → idle st → 0 ≤ rem → I l s → good_chunks (rx st) →
  (T ∨ (Forall prompt (rx st) ∧ is_Some (gather_chunks rem (rx st)))) →
  (∀ st' r, idle st' → (length (rx st') ≤ length (rx st))%nat →
    match gather_chunks rem (rx st) with
    | Some (l', rx') => r.1 = (0, data ++ chunk_data l') ∧ I (l ++ l') r.2 ∧ rx st' = rx'
    | None => r.1.1 < 0
    end → Q r st') →
  wp T (more_bytes err step fuel rem data s) Q st.
Proof.
  revert rem data l s st. induction fuel as [|f IH]; intros rem data l s st Hf Hi Hrem HI HP Hs HQ; [lia|].
  cbn [more_bytes]. destruct (Z.eqb_spec rem 0) as [->|Hne].
  { wp_steps. apply HQ; [done|lia|].
    assert (gather_chunks 0 (rx st) = Some ([], rx st)) as -> by (by destruct (rx st)).
    by rw /chunk_data /= !app_nil_r. }
  wp_step. apply request_more_spec; [done| |].
  { destruct Hs as [?|[Hp [? Hg]]]; [by left|right]. destruct (rx st); [|by inversion Hp].
    cbn [gather_chunks] in Hg. by rewrite (proj2 (Z.eqb_neq _ _)) in Hg. }
  intros st1 ex Hrx Hi1. rewrite Hrx in HQ, Hs, HP. rewrite Hrx /= in Hf. cbn [gather_chunks] in HQ, Hs.
  apply Forall_cons in HP as [HPex HP].
  rewrite (proj2 (Z.eqb_neq _ _)) // in HQ, Hs.
  destruct (answer ex) as [d|] eqn:Ha.
  2:{ wp_steps. cbn [Z.ltb Z.compare]. wp_steps. apply HQ; [done|simpl; lia|done]. }
  intros Hu Ho1 Hb1 _. wp_steps. cbn [Z.ltb Z.compare]. wp_step.
  apply read_more_spec; [apply Hi1|]. intros o Hwf2. rewrite Hu. set (st2 := set_rb_offset o st1) in *.
  assert (idle st2) as Hi2 by (split; [done|apply Hi1]).
  assert ((length (rx st2) ≤ length (ex :: rx st1))%nat) as Hle by (simpl; lia).
  assert (wf_exchange ex) as Hex.
  { pose proof (wf_rx _ (proj1 Hi)) as Hex. rewrite Hrx in Hex. by inversion Hex. }
  destruct d as [|n [|e r]]; [wp_steps; apply HQ; [done|done|simpl; lia]..|]. intros Hn.
  unfold byte_ok in Hn. case_decide as Hd; last first.
  { destruct (Z.ltb_spec (zlen r) (n * e)); [wp_steps; apply HQ; [done|done|simpl; lia]|].
    destruct (Z.eqb_spec e 1) as [->|]; [|wp_steps; apply HQ; [done|done|simpl; lia]].
    intros _. rw (proj2 (Z.ltb_lt _ _)); [wp_steps; apply HQ; [done|done|simpl; lia]|]. lia. }
  destruct Hd as (-> & Hlen & Hnn). rw (proj2 (Z.ltb_ge _ _)); [|lia]. rw Z.eqb_refl. intros Hu2.
  rw (proj2 (Z.ltb_ge _ _)); [|lia]. rw /cur_ptr /apdu_at. wp_steps.
  eapply wp_lift; [apply cur_mem_loads; [done|rw Hu2; lia]|]. wp_step. rewrite Hu2.
  assert (zlen (take (Z.to_nat n) r) = n) as Hz by (apply zlen_take; lia).
  rewrite -{1}Hz. apply (Hstep l ex); [done|eapply HPex; [done|lia]| |done|].
  { split; [done|done| |rw Hz Hu2; lia|].
    - assert (o = rb_offset st1 + Z.of_nat 2) as ->.
      { apply rb_offset_read; [apply Hi1|done|by rw Hu2 Hu|rw Hu /=; lia]. }
      rw /read_ptr /= (read_ptr_base _ _ _ (proj1 Hi1) Hu) /= Ho1. done.
    - rewrite Hu2. f_equal. unfold zlen in Hz. lia. }
  intros s' HI'. cbv beta. apply (IH _ _ (l ++ [(ex, take (Z.to_nat n) r)])); [simpl; lia|done|lia|done|done| |].
  { destruct Hs as [?|[Hp [x Hg]]]; [by left|right]. apply Forall_cons in Hp as [_ Hp].
    split; [done|]. simpl. destruct (gather_chunks _ (rx st1)); [by eexists|done]. }
  intros st' [[e' data'] s2] Hi' Hrx' Hr. simpl in Hrx', Hr. apply HQ; [done|simpl; lia|].
  destruct (gather_chunks _ (rx st1)) as [[l' rx'']|]; simpl; [|done].
  destruct Hr as ([= -> ->] & Hr1 & Hr2). rw chunk_data_cons -app_assoc. split_and!; [done| |done].
  by rewrite -app_assoc in Hr1.
Qed.
End more.

Lemma good_chunks_True rx : good_chunks (λ _ _, True) rx.
Proof. by apply Forall_forall. Qed.

(** ** Output buffers

    [out_ok out0 d out]: the data [d] has been written to the output buffer
    over [out0], when it fits. *)
Definition out_ok (out0 d : list Z) (out : buffer) : Prop :=
  wf_buffer out ∧ size out = zlen out0 ∧
  (zlen d ≤ zlen out0 → ptr out = d ++ drop (length d) out0 ∧ offset out = zlen d).

Lemma out_ok_create out0 :
  bytes_ok out0 → zlen out0 < 2 ^ 32 → out_ok out0 [] (buffer_create out0 (zlen out0)).
Proof.
  intros Hok Hl. pose proof (zlen_nonneg out0). rw /out_ok /wf_buffer /=.
  split_and!; try done; try lia.
Qed.

Lemma out_ok_write out0 d out mem n :
  out_ok out0 d out → bytes_ok mem → 0 ≤ n ≤ zlen mem →
  ∃ b out', buffer_write_bytes out mem n = Val (b, out') ∧
    out_ok out0 (d ++ take (Z.to_nat n) mem) out'.
Proof.
  intros (Hwf & Hs & Hd) Hm Hn.
  assert (zlen (take (Z.to_nat n) mem) = n) as Hz by (apply zlen_take; lia).
  pose proof (buffer_write_bytes_spec out mem n Hwf Hm Hn) as Hspec.
  pose proof (rest_zlen _ Hwf) as Hrest. case_decide as Hfit.
  - destruct Hspec as (b' & Hb & Hwf' & Hw & Hs' & Ho'). exists true, b'. split; [done|].
    split_and!; [done|lia|]. rw zlen_app Hz. intros Hle.
    destruct Hd as [Hp Ho]; [lia|]. split; [|lia].
    rewrite /buffer_write_bytes can_read_rest // (proj2 (Z.leb_le _ _)) // in Hb.
    rewrite loads_in_range /= in Hb; [|lia..]. rewrite drop_0 in Hb.
    rewrite stores_in_range in Hb; [|pose proof Hwf as (?&?&?); lia..].
    injection Hb as <-. rw (proj1 (seek_cur_keeps _ _)) /= Hp Ho zlen_length.
    rw take_app_length. rw -app_assoc. do 2 f_equal. rw drop_app_ge; [|lia].
    rw drop_drop length_app. f_equal. lia.
  - exists false, out. split; [done|]. split_and!; [done..|]. rw zlen_app Hz. intros Hle.
    destruct Hd as [_ Ho]; lia.
Qed.

Lemma apdu_mem_ok st p : wf_dstate st → bytes_ok (apdu_mem p st).
Proof. intros Hwf. rw /apdu_mem. destruct p; [|done]. apply Forall_drop, Hwf. Qed.

Lemma cur_mem_ge st : wf_dstate st → zlen (unread st) ≤ zlen (apdu_mem (read_ptr st) st).
Proof. intros Hwf. rw cur_mem //. apply cur_zlen, Hwf. Qed.

Lemma cur_mem_take st n :
  wf_dstate st → (n ≤ length (unread st))%nat →
  take n (apdu_mem (read_ptr st) st) = take n (unread st).
Proof.
  intros Hwf Hn. assert (loads (apdu_mem (read_ptr st) st) 0 (Z.of_nat n) = Val (take n (unread st))) as Hl.
  { rw cur_mem_loads //; [by rw Nat2Z.id|unfold zlen; lia]. }
  rewrite loads_in_range in Hl; [|lia|lia|pose proof (cur_mem_ge _ Hwf); unfold zlen in *; lia].
  rewrite drop_0 Nat2Z.id in Hl. by injection Hl.
Qed.

(** The first write, of [n] bytes at the cursor. *)
Lemma first_write st out n r :
  idle st → bytes_ok out → zlen out < 2 ^ 32 → unread st = r → n ≤ zlen r → 0 ≤ n →
  ∃ b out', buffer_write_bytes (buffer_create out (zlen out)) (apdu_mem (read_ptr st) st) n
              = Val (b, out') ∧ out_ok out (take (Z.to_nat n) r) out'.
Proof.
  intros [Hwf _] Hout Hol Hu Hle Hn. pose proof (cur_mem_ge st Hwf) as Hge. rewrite Hu in Hge.
  destruct (out_ok_write out [] _ (apdu_mem (read_ptr st) st) n (out_ok_create out Hout Hol))
    as (b & out' & Hw & Hout'); [by apply apdu_mem_ok|lia|]. exists b, out'. split; [done|].
  rewrite cur_mem_take // in Hout'; [by rewrite Hu in Hout'|rewrite Hu; unfold zlen in Hle; lia].
Qed.

Lemma first_write_tail st out n r :
  idle st → bytes_ok out → zlen out < 2 ^ 32 → unread st = r → n ≤ zlen r → 1 ≤ n →
  ∃ b out', buffer_write_bytes (buffer_create out (zlen out)) (drop 1 (apdu_mem (read_ptr st) st)) (n - 1)
              = Val (b, out') ∧ out_ok out (drop 1 (take (Z.to_nat n) r)) out'.
Proof.
  intros [Hwf _] Hout Hol Hu Hle Hn. pose proof (cur_mem_ge st Hwf) as Hge. rewrite Hu in Hge.
  destruct (out_ok_write out [] _ (drop 1 (apdu_mem (read_ptr st) st)) (n - 1) (out_ok_create out Hout Hol))
    as (b & out' & Hw & Hout'); [by apply Forall_drop, apdu_mem_ok|rw (zlen_drop 1); lia|].
  exists b, out'. split; [done|].
  assert (take (Z.to_nat (n - 1)) (drop 1 (apdu_mem (read_ptr st) st)) = drop 1 (take (Z.to_nat n) r)) as <-; [|done].
  rw -Hu -(cur_mem_take _ _ Hwf); [|rw Hu; unfold zlen in Hle; lia].
  rw skipn_firstn_comm. f_equal. lia.
Qed.

(** ** The header of the first answer *)
Definition preimage_header (d : list Z) : option (Z * Z * list Z) :=
  match varint_dec d with
  | Some (len, n :: r) => if decide (n ≤ zlen r) then Some (len, n, r) else None
  | _ => None
  end.

Lemma read_preimage_header_spec (T : Prop) st Q :
  wf_dstate st →
  match preimage_header (unread st) with
  | Some (len, n, r) =>
      ∀ o, byte_ok n → wf_dstate (set_rb_offset o st) → unread (set_rb_offset o st) = r →
        Q (Some (len, n)) (set_rb_offset o st)
  | None => ∀ o, wf_dstate (set_rb_offset o st) → Q None (set_rb_offset o st)
  end →
  wp T read_preimage_header Q st.
Proof.
  intros Hwf HQ. rw /read_preimage_header. wp_step. apply rb_read_varint_spec; [done|].
  rewrite /preimage_header in HQ. destruct (varint_dec (unread st)) as [[len l]|] eqn:Hv.
  2:{ wp_steps. specialize (HQ (rb_offset st)). rewrite set_rb_offset_id in HQ. by apply HQ. }
  intros o Hwf1 Hu1. wp_step. apply rb_read_u8_spec; [done|]. rewrite Hu1.
  destruct l as [|n r]; [wp_steps; by apply HQ|]. pose proof (unread_ok _ Hwf1) as Hok. rewrite Hu1 in Hok.
  apply Forall_cons in Hok as [Hn _]. intros o2 Hwf2 Hu2. rewrite set_rb_offset_twice in Hwf2, Hu2.
  rewrite set_rb_offset_twice. wp_step. apply rb_can_read_spec; [done|]. rewrite Hu2. case_decide.
  - rw (proj2 (Z.leb_le _ _)) //=. wp_steps. by apply HQ.
  - rw (proj2 (Z.leb_gt _ _)) /=; [|lia]. wp_steps. by apply HQ.
Qed.

Lemma preimage_header_ok d len n r :
  bytes_ok d → preimage_header d = Some (len, n, r) →
  byte_ok n ∧ bytes_ok r ∧ n ≤ zlen r ∧ r = drop (Z.to_nat (zlen d - zlen r)) d ∧
  1 < zlen d - zlen r ≤ zlen d.
Proof.
  intros Hd. rw /preimage_header. destruct (varint_dec d) as [[len' [|n' r']]|] eqn:Hv; try done.
  case_decide; [|done]. intros [= <- <- <-]. apply varint_dec_drop in Hv as [Hv Hl].
  assert (bytes_ok (n' :: r')) as Hok by (rewrite Hv; auto with ledger).
  apply Forall_cons in Hok as [??]. rewrite zlen_cons in Hl, Hv.
  pose proof (zlen_nonneg r'). split_and!; [done..| |lia|lia]. replace (zlen d - zlen r') with (1 + (zlen d - (1 + zlen r'))) by lia.
  rw Z2Nat.inj_add; [|lia..]. rw Nat.add_comm -drop_drop -Hv. done.
Qed.

Lemma varint_header_range d len n r :
  bytes_ok d → preimage_header d = Some (len, n, r) → 0 ≤ len < 2 ^ 64.
Proof.
  intros Hd. rw /preimage_header. destruct (varint_dec d) as [[len' [|n' r']]|] eqn:Hv; try done.
  case_decide; [|done]. intros [= <- <- <-]. by eapply varint_dec_range.
Qed.

(** The part that the three flows share: the request, the exchange and the
    header of the first answer. *)
Lemma preimage_start_spec (T : Prop) {A} hash (e1 e2 : A) (k : Z * Z → io A) st Q :
  idle st → answers T st → zlen hash = 32 → bytes_ok hash →
  (∀ st' ex, rx st = ex :: rx st' → idle st' → answer ex ≫= preimage_header = None →
     Q e1 st' ∧ Q e2 st') →
  (∀ st' ex d len n r,
    rx st = ex :: rx st' → idle st' → answer ex = Some d → preimage_header d = Some (len, n, r) →
    byte_ok n → bytes_ok r → n ≤ zlen r → unread st' = r → apdu_buf st' = ex_buf ex →
    read_ptr st' = Some (5 + (zlen d - zlen r)) → wp T (k (len, n)) Q st') →
  wp T (request_preimage hash ≫= λ res,
          if res <? 0 then mret e1
          else read_preimage_header ≫= λ hd,
                 match hd with None => mret e2 | Some x => k x end) Q st.
Proof.
  intros Hi Ha Hz Hok Hfail Hk. wp_step. apply request_preimage_spec; [done..|].
  intros st1 ex Hrx Hi1. destruct (answer ex) as [d|] eqn:Hans.
  2:{ wp_steps. cbn [Z.ltb Z.compare]. wp_steps. eapply Hfail; [done..|by rewrite Hans]. }
  intros Hu Ho1 Hbuf _. wp_steps. cbn [Z.ltb Z.compare]. wp_step.
  assert (wf_exchange ex) as Hex.
  { pose proof (wf_rx _ (proj1 Hi)) as Hex. rewrite Hrx in Hex. by inversion Hex. }
  apply read_preimage_header_spec; [apply Hi1|]. rewrite Hu.
  destruct (preimage_header d) as [[[len n] r]|] eqn:Hh; last first.
  { intros o Hwf2. wp_steps. eapply Hfail; [done|split; [done|apply Hi1]|by rewrite Hans]. }
  intros o Hn Hwf2 Hu2. destruct (preimage_header_ok _ _ _ _ (answer_ok _ _ Hex Hans) Hh)
    as (_ & Hr & Hle & Hdrop & Hd). wp_steps.
  eapply Hk; [done|split; [done|apply Hi1]|done..|]. destruct d as [|x d]; [rewrite zlen_nil in Hd; lia|].
  rw /read_ptr /= (read_ptr_base _ _ _ (proj1 Hi1) Hu) /=. f_equal.
  assert (o = rb_offset st1 + Z.of_nat (Z.to_nat (zlen (x :: d) - zlen r))) as ->.
  { apply rb_offset_read; [apply Hi1|done|by rw Hu2 Hu|rw Hu; unfold zlen in *; lia]. }
  unfold OFFSET_CDATA. lia.
Qed.

(** ** call_get_preimage and call_stream_preimage *)

(** The chunks of a preimage: its length (of which the low 32 bits are used),
    the data of the first answer, then that of the answers that follow. *)
Definition preimage_chunks (rx : list exchange)
    : option (Z * list Z * list (exchange * list Z) * list exchange) :=
  match rx with
  | [] => None
  | ex :: rx' =>
      d ← answer ex;
      '(len, n, r) ← preimage_header d;
      if decide (1 ≤ u32 len ∧ n ≤ u32 len) then
        '(l, rx'') ← gather_chunks (u32 len - n) rx';
        Some (u32 len, take (Z.to_nat n) r, l, rx'')
      else None
  end.

Lemma preimage_chunks_ok rx len d0 l rx' :
  Forall wf_exchange rx → preimage_chunks rx = Some (len, d0, l, rx') →
  zlen (d0 ++ chunk_data l) = len ∧ bytes_ok (d0 ++ chunk_data l).
Proof.
  intros Hwf. destruct rx as [|ex rx]; [done|]. apply Forall_cons in Hwf as [Hex Hwf].
  cbn [preimage_chunks]. destruct (answer ex) as [d|] eqn:Ha; [|done]. simpl.
  destruct (preimage_header d) as [[[len' n] r]|] eqn:Hh; [|done]. simpl. case_decide as Hd; [|done].
  destruct (gather_chunks _ rx) as [[l' rx'']|] eqn:Hg; [|done]. intros [= <- <- <- <-].
  destruct (preimage_header_ok _ _ _ _ (answer_ok _ _ Hex Ha) Hh) as (Hn & Hr & Hle & _).
  unfold byte_ok in Hn. apply gather_chunks_zlen in Hg as [Hz Hok]; [|lia|done].
  rw zlen_app zlen_take; [|lia]. split; [lia|]. apply Forall_app. auto with ledger.
Qed.

(** The answers are there without a reset. *)
Definition served_preimage (T : Prop) (rx : list exchange) : Prop :=
  T ∨ (Forall prompt rx ∧ is_Some (preimage_chunks rx)).

Lemma served_preimage_answers T st : served_preimage T (rx st) → answers T st.
Proof.
  intros [?|[Hp [? Hg]]]; [by left|right]. destruct (rx st); [done|by inversion Hp].
Qed.

Lemma served_preimage_more T ex rx d len n r :
  served_preimage T (ex :: rx) → answer ex = Some d → preimage_header d = Some (len, n, r) →
  1 ≤ u32 len ∧ n ≤ u32 len →
  T ∨ (Forall prompt rx ∧ is_Some (gather_chunks (u32 len - n) rx)).
Proof.
  intros [?|[Hp [x Hg]]] Ha Hh Hd; [by left|right]. apply Forall_cons in Hp as [_ Hp].
  split; [done|]. rewrite /preimage_chunks Ha /= Hh /= in Hg. case_decide; [|done].
  destruct (gather_chunks _ rx); [by eexists|done].
Qed.

Section preimages.
Context (sha256 : list Z → list Z) (T : Prop).

Lemma preimage_step_spec out0 d l ex chunk out st Q :
  chunk_state ex chunk st → out_ok out0 (d ++ chunk_data l) out →
  (∀ out', out_ok out0 (d ++ chunk_data (l ++ [(ex, chunk)])) out' → Q out' st) →
  wp T (preimage_step (zlen chunk) out) Q st.
Proof.
  intros [[Hwf _] _ _ Hlen Heq] Hout HQ. rw /preimage_step /cur_ptr /apdu_at. wp_steps.
  pose proof (cur_mem_ge _ Hwf). pose proof (zlen_nonneg chunk).
  destruct (out_ok_write out0 _ out (apdu_mem (read_ptr st) st) (zlen chunk) Hout)
    as (b & out' & Hw & Hout'); [by apply apdu_mem_ok|lia|].
  eapply wp_lift; [exact Hw|]. wp_steps. apply HQ.
  rewrite zlen_length cur_mem_take // in Hout'; [|unfold zlen in Hlen; lia].
  rewrite Heq -app_assoc in Hout'. rw /chunk_data fmap_app concat_app /= app_nil_r. done.
Qed.

Lemma get_preimage_spec hash out st Q :
  idle st → zlen hash = 32 → bytes_ok hash → bytes_ok out → zlen out < 2 ^ 32 →
  served_preimage T (rx st) →
  (∀ st' r, idle st' → (length (rx st') < length (rx st))%nat →
    match preimage_chunks (rx st) with
    | Some (len, d0, l, rx') =>
        let d := d0 ++ chunk_data l in
        if decide (sha256 d = hash) then
          r.1 = i32 (zlen d) ∧ (zlen d ≤ zlen out → r.2 = d ++ drop (length d) out) ∧ rx st' = rx'
        else r.1 < 0
    | None => r.1 < 0
    end → Q r st') →
  wp T (call_get_preimage sha256 hash out) Q st.
Proof.
  intros Hi Hz Hok Hout Hol Hs HQ. pose proof (wf_rx _ (proj1 Hi)) as Hwfrx.
  apply preimage_start_spec; [done|by apply served_preimage_answers|done|done| |].
  { intros st1 ex Hrx Hi1 Hh. rewrite Hrx /preimage_chunks in HQ.
    assert (∀ e, e < 0 → Q (e, out) st1) as Hfail; [|split; by apply Hfail].
    intros e He. apply HQ; [done|simpl; lia|]. destruct (answer ex); simpl in *; [|done]. by rewrite Hh. }
  intros st2 ex d len n r Hrx Hi2 Ha Hh Hn Hr Hle Hu2 _ _. cbv beta iota zeta. unfold byte_ok in Hn.
  rewrite Hrx in HQ, Hs, Hwfrx. pose proof (preimage_chunks_ok _ (u32 len) (take (Z.to_nat n) r)
    (match gather_chunks (u32 len - n) (rx st2) with Some (l, _) => l | None => [] end)
    (match gather_chunks (u32 len - n) (rx st2) with Some (_, rx') => rx' | None => [] end) Hwfrx) as Hpo.
  rewrite /preimage_chunks Ha /= Hh /= in HQ, Hpo. case_decide as Hd; last first.
  { destruct (Z.ltb_spec (u32 len) 1); [wp_steps; apply HQ; [done|simpl; lia|done]|].
    rw (proj2 (Z.ltb_lt _ _)); [|lia]. wp_steps. apply HQ; [done|simpl; lia|done]. }
  rw (proj2 (Z.ltb_ge _ _)); [|lia]. rw (proj2 (Z.ltb_ge _ _)); [|lia].
  rw /cur_ptr /apdu_at. wp_steps. eapply wp_lift; [apply cur_mem_loads; [apply Hi2|rw Hu2; lia]|]. wp_step.
  destruct (first_write st2 out n r) as (b & out' & Hw & Hout'); [done..|lia|].
  eapply wp_lift; [exact Hw|]. rw /answers_left. wp_steps. rewrite Hu2.
  apply (more_bytes_spec T (-5) ltac:(lia) preimage_step
           (λ l, out_ok out (take (Z.to_nat n) r ++ chunk_data l)) (λ _ _, True)) with (l := []).
  { intros. by eapply preimage_step_spec. }
  { simpl. lia. } { done. } { lia. } { by rewrite /chunk_data /= app_nil_r. } { by apply good_chunks_True. }
  { by eapply served_preimage_more. }
  intros st3 [[e data] buf] Hi3 Hrx3 Hres. simpl in Hrx3, Hres.
  destruct (gather_chunks _ (rx st2)) as [[l rx']|]; simpl in *; last first.
  { rw (proj2 (Z.ltb_lt _ _)) //. wp_steps. apply HQ; [done|lia|done]. }
  destruct Hres as ([= -> ->] & Hbuf & Hrx'). cbn [Z.ltb Z.compare]. destruct (Hpo eq_refl) as [Hlen _].
  case_bool_decide as Hh2; wp_steps; apply HQ; try done; try lia.
  - rewrite decide_True //. split_and!; [by rewrite Hlen|by apply Hbuf|done].
  - by rewrite decide_False.
Qed.

(** The callback of a stream gets the data after the first byte, when the first
    chunk has this byte. *)
Definition first_chunk_nonempty (rx : list exchange) : Prop :=
  match rx with
  | ex :: _ => match answer ex ≫= preimage_header with Some (_, n, _) => 1 ≤ n | None => True end
  | [] => True
  end.

Section stream.
Context {CS : Type} (len_callback : option (Z → CS → outcome CS)) (callback : buffer → CS → outcome CS).

(** An invariant of the callbacks: [I len d cs] when the length is [len] and the
    data [d] has been passed. *)
Context (I : Z → list Z → CS → Prop).
Context (Hcb : ∀ len d buf cs, wf_buffer buf → zlen (rest buf) ≤ 255 → I len d cs →
  ∃ cs', callback buf cs = Val cs' ∧ I len (d ++ rest buf) cs').

Lemma stream_callback len d mem n cs :
  bytes_ok mem → 0 ≤ n ≤ zlen mem → n ≤ 255 → I len d cs →
  ∃ cs', callback (buffer_create mem n) cs = Val cs' ∧ I len (d ++ take (Z.to_nat n) mem) cs'.
Proof.
  intros Hm Hn H255 HI. assert (rest (buffer_create mem n) = take (Z.to_nat n) mem) as Hr.
  { by rw /rest /buffer_create /slice /= Z.sub_0_r drop_0. }
  rw -Hr. apply Hcb; [|rw Hr zlen_take; lia|done]. split_and!; simpl; done || lia.
Qed.

Lemma stream_step_spec len d l ex chunk cs st Q :
  wf_exchange ex → chunk_state ex chunk st → zlen chunk ≤ 255 → I len (d ++ chunk_data l) cs →
  (∀ cs', I len (d ++ chunk_data (l ++ [(ex, chunk)])) cs' → Q cs' st) →
  wp T (stream_step callback (zlen chunk) cs) Q st.
Proof.
  intros _ [[Hwf _] _ _ Hlen Heq] H255 HI HQ. rw /stream_step /cur_ptr /apdu_at. wp_steps.
  pose proof (cur_mem_ge _ Hwf). pose proof (zlen_nonneg chunk).
  destruct (stream_callback len (d ++ chunk_data l) (apdu_mem (read_ptr st) st) (zlen chunk) cs)
    as (cs' & Hcs & HI'); [by apply apdu_mem_ok|lia|lia|done|].
  eapply wp_lift; [exact Hcs|]. apply HQ. rewrite zlen_length cur_mem_take // in HI'; [|unfold zlen in Hlen; lia].
  rewrite Heq -app_assoc in HI'. rw /chunk_data fmap_app concat_app /= app_nil_r. done.
Qed.

Lemma chunks_le_255 rx : Forall wf_exchange rx → good_chunks (λ _ chunk, zlen chunk ≤ 255) rx.
Proof.
  intros Hwf. eapply Forall_impl; [done|]. intros ex Hex n e r Ha Hn. apply answer_ok in Ha; [|done].
  apply Forall_cons in Ha as [Hb _]. unfold byte_ok in Hb. rw zlen_take; lia.
Qed.

Lemma stream_preimage_spec hash cs st Q :
  idle st → zlen hash = 32 → bytes_ok hash → served_preimage T (rx st) → first_chunk_nonempty (rx st) →
  (∀ len, 0 ≤ len < 2 ^ 32 →
    ∃ cs', match len_callback with Some cb => cb len cs | None => mret cs end = Val cs' ∧ I len [] cs') →
  (∀ st' r, idle st' → (length (rx st') < length (rx st))%nat →
    match preimage_chunks (rx st) with
    | Some (len, d0, l, rx') =>
        let d := d0 ++ chunk_data l in
        I (len - 1) (drop 1 d) r.2 ∧
        if decide (sha256 d = hash) then r.1 = i32 (zlen d) - 1 ∧ rx st' = rx' else r.1 < 0
    | None => r.1 < 0
    end → Q r st') →
  wp T (call_stream_preimage sha256 len_callback callback hash cs) Q st.
Proof.
  intros Hi Hz Hok Hs Hne HI HQ. pose proof (wf_rx _ (proj1 Hi)) as Hwfrx.
  apply preimage_start_spec; [done|by apply served_preimage_answers|done|done| |].
  { intros st1 ex Hrx Hi1 Hh. rewrite Hrx /preimage_chunks in HQ.
    assert (∀ e, e < 0 → Q (e, cs) st1) as Hfail; [|split; by apply Hfail].
    intros e He. apply HQ; [done|simpl; lia|]. destruct (answer ex); simpl in *; [|done]. by rewrite Hh. }
  intros st2 ex d len n r Hrx Hi2 Ha Hh Hn Hr Hle Hu2 _ _. cbv beta iota zeta. unfold byte_ok in Hn.
  rewrite Hrx in HQ, Hs, Hwfrx, Hne. rewrite /first_chunk_nonempty Ha /= Hh in Hne.
  pose proof (preimage_chunks_ok _ (u32 len) (take (Z.to_nat n) r)
    (match gather_chunks (u32 len - n) (rx st2) with Some (l, _) => l | None => [] end)
    (match gather_chunks (u32 len - n) (rx st2) with Some (_, rx') => rx' | None => [] end) Hwfrx) as Hpo.
  rewrite /preimage_chunks Ha /= Hh /= in HQ, Hpo. case_decide as Hd; last first.
  { destruct (Z.ltb_spec (u32 len) 1); [wp_steps; apply HQ; [done|simpl; lia|done]|].
    rw (proj2 (Z.ltb_lt _ _)); [|lia]. wp_steps. apply HQ; [done|simpl; lia|done]. }
  rw (proj2 (Z.ltb_ge _ _)); [|lia]. rw (proj2 (Z.ltb_ge _ _)); [|lia]. 
  pose proof (u32_range len). destruct (HI (u32 len - 1) ltac:(lia)) as (cs1 & Hcs1 & HI1). wp_step.
  eapply wp_lift; [exact Hcs1|]. cbv beta.
  rw /cur_ptr /apdu_at. wp_steps. eapply wp_lift; [apply cur_mem_loads; [apply Hi2|rw Hu2; lia]|]. wp_step.
  pose proof (cur_mem_ge st2 (proj1 Hi2)) as Hge. rewrite Hu2 in Hge. rw u32_small; [|lia].
  destruct (stream_callback (u32 len - 1) [] (drop 1 (apdu_mem (read_ptr st2) st2)) (n - 1) cs1) as (cs' & Hcs & HI');
    [by apply Forall_drop, apdu_mem_ok, Hi2|rw (zlen_drop 1); lia|lia|exact HI1|].
  assert (take (Z.to_nat (n - 1)) (drop 1 (apdu_mem (read_ptr st2) st2)) = drop 1 (take (Z.to_nat n) r)) as Hfirst.
  { rw -Hu2 -(cur_mem_take _ _ (proj1 Hi2)); [|rw Hu2; unfold zlen in Hle; lia]. rw skipn_firstn_comm. f_equal. lia. }
  rewrite Hfirst app_nil_l in HI'.
  eapply wp_lift; [exact Hcs|]. rw /answers_left. wp_steps. rewrite Hu2.
  apply (more_bytes_spec T (-5) ltac:(lia) (stream_step callback)
           (λ l, I (u32 len - 1) (drop 1 (take (Z.to_nat n) r) ++ chunk_data l)) (λ _ chunk, zlen chunk ≤ 255)) with (l := []).
  { intros. by eapply stream_step_spec. }
  { simpl. lia. } { done. } { lia. } { by rewrite /chunk_data /= app_nil_r. }
  { apply chunks_le_255. by apply Forall_cons in Hwfrx as [_ ?]. } { by eapply served_preimage_more. }
  intros st3 [[e data] cs3] Hi3 Hrx3 Hres. simpl in Hrx3, Hres.
  destruct (gather_chunks _ (rx st2)) as [[l rx']|]; simpl in *; last first.
  { rw (proj2 (Z.ltb_lt _ _)) //. wp_steps. apply HQ; [done|lia|done]. }
  destruct Hres as ([= -> ->] & HI3 & Hrx'). cbn [Z.ltb Z.compare]. destruct (Hpo eq_refl) as [Hlen _].
  rewrite -drop_app_le in HI3; [|unfold zlen in Hle; rewrite length_take; lia].
  case_bool_decide as Hh2; wp_steps; apply HQ; try done; try lia.
  - rewrite decide_True //. split; [done|]. by rewrite Hlen.
  - by rewrite decide_False.
Qed.
End stream.

(** ** call_get_merkle_preimage

    The chunks, as above; the whole length is used, and it is bounded by the
    size of the output. *)
Definition merkle_chunks (out_len : Z) (rx : list exchange)
    : option (Z * Z * list Z * list (exchange * list Z) * list exchange) :=
  match rx with
  | [] => None
  | ex :: rx' =>
      d ← answer ex;
      '(len, n, r) ← preimage_header d;
      if decide (len ≠ 0 ∧ n ≠ 0 ∧ len - 1 ≤ out_len ∧ n ≤ len) then
        '(l, rx'') ← gather_chunks (len - n) rx';
        Some (len, 5 + (zlen d - zlen r), take (Z.to_nat n) r, l, rx'')
      else None
  end.

(** What is written for the chunks: the bytes at the position [pos] of the
    APDU buffer. *)
Definition written_chunks (pos : Z) (l : list (exchange * list Z)) : list Z :=
  concat ((λ '(ex, c), take (length c) (drop (Z.to_nat pos) (ex_buf ex))) <$> l).

(** The copy does not leave the APDU buffer. *)
Definition in_apdu (pos : Z) (ex : exchange) (chunk : list Z) : Prop :=
  pos + zlen chunk ≤ IO_APDU_BUFFER_SIZE.

Lemma merkle_preimage_step_spec pos out0 d l ex chunk out st Q :
  0 ≤ pos → wf_exchange ex → in_apdu pos ex chunk → chunk_state ex chunk st →
  out_ok out0 (d ++ written_chunks pos l) out →
  (∀ out', out_ok out0 (d ++ written_chunks pos (l ++ [(ex, chunk)])) out' → Q out' st) →
  wp T (merkle_preimage_step (Some pos) (zlen chunk) out) Q st.
Proof.
  intros Hpos (Hz & Hok & _) Hin [[Hwf _] Hbuf _ _ _] Hout HQ.
  rw /merkle_preimage_step /apdu_at. wp_steps.
  pose proof (zlen_nonneg chunk). unfold in_apdu in Hin.
  destruct (out_ok_write out0 _ out (apdu_mem (Some pos) st) (zlen chunk) Hout)
    as (b & out' & Hw & Hout'); [by apply apdu_mem_ok|rw /= Hbuf zlen_drop; lia|].
  eapply wp_lift; [exact Hw|]. wp_steps. apply HQ.
  rewrite -app_assoc zlen_length /= Hbuf in Hout'.
  rw /written_chunks fmap_app concat_app /= app_nil_r. done.
Qed.

Lemma get_merkle_preimage_spec hash out st Q :
  idle st → zlen hash = 32 → bytes_ok hash → bytes_ok out → zlen out < 2 ^ 31 →
  (T ∨ (Forall prompt (rx st) ∧ is_Some (merkle_chunks (zlen out) (rx st)))) →
  (∀ ex rx' d len n r, rx st = ex :: rx' → answer ex = Some d → preimage_header d = Some (len, n, r) →
     good_chunks (in_apdu (5 + (zlen d - zlen r))) rx') →
  (∀ st' r, idle st' → (length (rx st') < length (rx st))%nat →
    match merkle_chunks (zlen out) (rx st) with
    | Some (len, pos, d0, l, rx') =>
        if decide (sha256 (d0 ++ chunk_data l) = hash) then
          r.1 = len - 1 ∧ rx st' = rx' ∧
          let o := drop 1 d0 ++ written_chunks pos l in
          (zlen o ≤ zlen out → r.2 = o ++ drop (length o) out)
        else r.1 < 0
    | None => r.1 < 0
    end → Q r st') →
  wp T (call_get_merkle_preimage sha256 hash out) Q st.
Proof.
  intros Hi Hz Hok Hout Hol Hs HP HQ. pose proof (wf_rx _ (proj1 Hi)) as Hwfrx.
  apply preimage_start_spec; [done| |done|done| |].
  { destruct Hs as [?|[Hp [? Hg]]]; [by left|right]. destruct (rx st); [done|by inversion Hp]. }
  { intros st1 ex Hrx Hi1 Hh. rewrite Hrx /merkle_chunks in HQ.
    assert (∀ e, e < 0 → Q (e, out) st1) as Hfail; [|split; by apply Hfail].
    intros e He. apply HQ; [done|simpl; lia|]. destruct (answer ex); simpl in *; [|done]. by rewrite Hh. }
  intros st2 ex d len n r Hrx Hi2 Ha Hh Hn Hr Hle Hu2 Hbuf Hptr. cbv beta iota zeta. unfold byte_ok in Hn.
  specialize (HP _ _ _ _ _ _ Hrx Ha Hh).
  rewrite Hrx in HQ, Hs, Hwfrx. rewrite /merkle_chunks Ha /= Hh /= in HQ, Hs.
  pose proof (varint_header_range _ _ _ _ (answer_ok _ _ (Forall_inv Hwfrx) Ha) Hh) as Hlen0.
  destruct (preimage_header_ok _ _ _ _ (answer_ok _ _ (Forall_inv Hwfrx) Ha) Hh) as (_&_&_&_&Hdr).
  case_decide as Hd; last first.
  { destruct (Z.eqb_spec len 0); [wp_steps; apply HQ; [done|simpl; lia|done]|].
    destruct (Z.eqb_spec n 0); [wp_steps; apply HQ; [done|simpl; lia|done]|]. cbn [orb].
    destruct (Z.ltb_spec (zlen out) (len - 1)); [wp_steps; apply HQ; [done|simpl; lia|done]|].
    rw (proj2 (Z.ltb_lt _ _)); [|lia]. wp_steps. apply HQ; [done|simpl; lia|done]. }
  rw (proj2 (Z.eqb_neq len 0)); [|lia]. rw (proj2 (Z.eqb_neq n 0)); [|lia]. cbn [orb].
  rw (proj2 (Z.ltb_ge _ _)); [|lia]. rw (proj2 (Z.ltb_ge _ _)); [|lia].
  rw /cur_ptr /apdu_at. wp_steps. eapply wp_lift; [apply cur_mem_loads; [apply Hi2|rw Hu2; lia]|]. wp_step.
  destruct (first_write_tail st2 out n r) as (b & out' & Hw & Hout'); [done|done|lia|done|done|lia|].
  eapply wp_lift; [exact Hw|]. rw /answers_left. wp_steps. rewrite Hu2 Hptr.
  rw u32_small; [|lia]. set (pos := 5 + (zlen d - zlen r)) in *.
  apply (more_bytes_spec T (-6) ltac:(lia) (merkle_preimage_step (Some pos))
           (λ l, out_ok out (drop 1 (take (Z.to_nat n) r) ++ written_chunks pos l)) (in_apdu pos)) with (l := []).
  { intros. eapply merkle_preimage_step_spec; try done. unfold pos. lia. }
  { simpl. lia. } { done. } { lia. } { by rewrite /written_chunks /= app_nil_r. } { done. }
  { destruct Hs as [?|[Hp [x Hg]]]; [by left|right]. apply Forall_cons in Hp as [_ Hp].
    split; [done|]. destruct (gather_chunks _ (rx st2)); [by eexists|done]. }
  intros st3 [[e data] buf] Hi3 Hrx3 Hres. simpl in Hrx3, Hres.
  destruct (gather_chunks _ (rx st2)) as [[l rx']|]; simpl in *; last first.
  { rw (proj2 (Z.ltb_lt _ _)) //. wp_steps. apply HQ; [done|lia|done]. }
  destruct Hres as ([= -> ->] & Hbuf' & Hrx'). cbn [Z.ltb Z.compare].
  case_bool_decide as Hh2; wp_steps; apply HQ; try done; try lia.
  - rewrite decide_True //. split_and!; [rw i32_small //; lia|done|apply Hbuf'].
  - by rewrite decide_False.
Qed.
End preimages.

(** ** Correctness *)
Section properties.
Context (sha256 : list Z → list Z).

(** C18: [call_get_preimage] returns data with the requested hash.  For every
    behaviour of the host, the call performs no undefined access and ends;
    when it does not fail, there is data whose SHA-256 is the hash, the
    returned number is its length, and the data is in the output when it fits
    there. *)
Theorem get_preimage_sound hash out st :
  idle st → zlen hash = 32 → bytes_ok hash → bytes_ok out → zlen out < 2 ^ 32 →
  wp True (call_get_preimage sha256 hash out)
    (λ r st', idle st' ∧
       (r.1 < 0 ∨
        ∃ d, sha256 d = hash ∧ bytes_ok d ∧ r.1 = i32 (zlen d) ∧
          (zlen d ≤ zlen out → r.2 = d ++ drop (length d) out))) st.
Proof.
  intros Hi Hz Hok Hout Hol. apply get_preimage_spec; [done..|by left|].
  intros st' r Hi' _ Hr. split; [done|]. pose proof (preimage_chunks_ok (rx st)) as Hp.
  destruct (preimage_chunks (rx st)) as [[[[len d0] l] rx']|]; [|by left].
  cbv zeta in Hr. case_decide as Hh; [right|by left]. destruct Hr as (Hr1 & Hr2 & _).
  exists (d0 ++ chunk_data l). split_and!; [done| |done|done].
  eapply Hp; [apply Hi|done].
Qed.

(** The length of the preimage is encoded in one byte in the first answer. *)
Definition short_header (rx : list exchange) : Prop :=
  match rx with
  | ex :: _ => match answer ex with Some (b :: _) => b < 0xFD | _ => True end
  | [] => True
  end.

Lemma short_header_pos ex rx d len n r :
  short_header (ex :: rx) → answer ex = Some d → preimage_header d = Some (len, n, r) →
  zlen d - zlen r = 2.
Proof.
  cbn [short_header]. intros Hs Ha. rewrite Ha in Hs. rw /preimage_header.
  destruct d as [|b d]; [done|]. cbn [varint_dec].
  rewrite (_ : varint_payload b = 0); [|rw /varint_payload; repeat case_match; lia].
  cbn [Z.eqb]. destruct d as [|n' r']; [done|]. case_decide; [|done]. intros [= <- <- <-].
  rw !zlen_cons. lia.
Qed.

(** The bytes at position 7 of the APDU buffer are those of the chunk. *)
Lemma answer_at_7 ex n e r :
  wf_exchange ex → answer ex = Some (n :: e :: r) →
  take (length r) (drop 7 (ex_buf ex)) = r ∧ zlen r ≤ 253.
Proof.
  intros (Hz & _ & Hl). rw /answer. case_match eqn:Hc; [|done]. rw /slice. intros [= Heq].
  assert (zlen (n :: e :: r) = ex_len ex - 5) as Hlen.
  { rw -Heq zlen_take //. rw (zlen_drop 5); lia. }
  rewrite !zlen_cons in Hlen. split; [|unfold IO_APDU_BUFFER_SIZE in *; lia].
  assert (r = drop 2 (take (Z.to_nat (ex_len ex - 5)) (drop (Z.to_nat 5) (ex_buf ex)))) as Hr
    by (by rw Heq).
  rw {2}Hr skipn_firstn_comm drop_drop. f_equal. unfold zlen in Hlen. lia.
Qed.

Lemma written_at_7 need rx l rx' :
  Forall wf_exchange rx → 0 ≤ need → gather_chunks need rx = Some (l, rx') →
  written_chunks 7 l = chunk_data l.
Proof.
  revert need l. induction rx as [|ex rx IH]; intros need l Hwf H0; cbn [gather_chunks];
    (destruct (Z.eqb_spec need 0) as [->|Hne]; [by intros [= <- <-]|]); [done|].
  apply Forall_cons in Hwf as [Hex Hwf].
  destruct (answer ex) as [[|n [|e r]]|] eqn:Ha; try done. case_decide as Hd; [|done].
  destruct (gather_chunks _ rx) as [[l' rx'']|] eqn:Hg; [|done]. intros [= <- <-].
  destruct (answer_at_7 _ _ _ _ Hex Ha) as [H7 _].
  rw chunk_data_cons -(IH _ _ Hwf _ Hg); [|lia]. rw /written_chunks /=. f_equal.
  change (Z.to_nat 7) with 7%nat. rw length_take. symmetry. by rw -{1}H7 take_take.
Qed.

(** C34: when the host encodes the length of the preimage in one byte,
    [call_get_merkle_preimage] returns the data after the first byte of a
    preimage of the hash.  For every such behaviour of the host the call
    performs no undefined access and ends; when it does not fail, the output
    starts with data that has, after a prefix byte, the requested hash, and
    the returned number is its length. *)
Theorem get_merkle_preimage_sound hash out st :
  idle st → zlen hash = 32 → bytes_ok hash → bytes_ok out → zlen out < 2 ^ 31 →
  short_header (rx st) →
  wp True (call_get_merkle_preimage sha256 hash out)
    (λ r st', idle st' ∧
       (r.1 < 0 ∨
        ∃ p d, sha256 (p :: d) = hash ∧ r.1 = zlen d ∧ zlen d ≤ zlen out ∧
          r.2 = d ++ drop (length d) out)) st.
Proof.
  intros Hi Hz Hok Hout Hol Hsh. pose proof (wf_rx _ (proj1 Hi)) as Hwf.
  apply get_merkle_preimage_spec; [done..|by left| |].
  { intros ex rx' d len n r Hrx Ha Hh. rewrite Hrx in Hsh, Hwf.
    rewrite (short_header_pos _ _ _ _ _ _ Hsh Ha Hh). apply Forall_cons in Hwf as [_ Hwf].
    eapply Forall_impl; [exact Hwf|]. intros ex' Hex n' e' r' Ha' Hn'.
    destruct (answer_at_7 _ _ _ _ Hex Ha') as [_ H7]. rw /in_apdu zlen_take //. unfold IO_APDU_BUFFER_SIZE. lia. }
  intros st' r Hi' _ Hr. split; [done|]. rewrite /merkle_chunks in Hr.
  destruct (rx st) as [|ex rx'] eqn:Hrx; [by left|]. apply Forall_cons in Hwf as [Hex Hwf].
  destruct (answer ex) as [d|] eqn:Ha; [|by left]. simpl in Hr.
  destruct (preimage_header d) as [[[len n] r']|] eqn:Hh; [|by left]. simpl in Hr.
  destruct (preimage_header_ok _ _ _ _ (answer_ok _ _ Hex Ha) Hh) as (Hn & _ & Hle & _). unfold byte_ok in Hn.
  case_decide as Hd; [|by left]. rewrite (short_header_pos _ _ _ _ _ _ Hsh Ha Hh) in Hr.
  destruct (gather_chunks _ rx') as [[l rx'']|] eqn:Hg; [|by left]. simpl in Hr.
  case_decide as Hsha; [right|by left]. destruct Hr as (Hr1 & _ & Hr2).
  rewrite (written_at_7 _ _ _ _ Hwf _ Hg) in Hr2; [|lia].
  destruct (gather_chunks_zlen (len - n) _ _ _ ltac:(lia) Hwf Hg) as [Hgz _].
  destruct r' as [|p r']; [rewrite zlen_nil in Hle; lia|].
  replace (Z.to_nat n) with (S (Z.to_nat (n - 1))) in * by lia. simpl in Hr2, Hsha.
  rewrite zlen_cons in Hle. exists p, (take (Z.to_nat (n - 1)) r' ++ chunk_data l).
  assert (zlen (take (Z.to_nat (n - 1)) r' ++ chunk_data l) = len - 1) as Hzd by (rw zlen_app zlen_take; lia).
  rewrite drop_0 in Hr2. split_and!; [done|lia|lia|apply Hr2; lia].
Qed.

(** The answers of a host that commits to [d] and delivers [f]: the length of
    the preimage takes three bytes, so that the data of the first answer is at
    position 9; in the answers that follow, the byte at position 7 is hashed
    and the one at position 9 is written to the output. *)
Definition forged_more (d f : list Z) : list exchange :=
  zip_with (λ x y, reply [1; 1; x; 0; y]) d f.

Definition forged (d f : list Z) : list exchange :=
  reply ([0xFD] ++ le_bytes 2 (1 + zlen d) ++ [1; 0]) :: forged_more d f.

Lemma forged_more_Forall (P : exchange → Prop) d f :
  (∀ x y, P (reply [1; 1; x; 0; y])) → Forall P (forged_more d f).
Proof. intros HP. revert f. induction d as [|x d IH]; intros [|y f]; constructor; auto. Qed.

Lemma gather_forged d f :
  length d = length f →
  ∃ l, gather_chunks (zlen d) (forged_more d f) = Some (l, []) ∧ chunk_data l = d ∧
    written_chunks 9 l = f.
Proof.
  revert f. induction d as [|x d IH]; intros [|y f] Hl; try done; [by exists []|].
  destruct (IH f) as (l & Hg & Hd & Hf); [simpl in *; lia|].
  exists ((reply [1; 1; x; 0; y], [x]) :: l). pose proof (zlen_nonneg d).
  cbn [forged_more zip_with gather_chunks]. rw zlen_cons (proj2 (Z.eqb_neq _ _)); [|lia].
  rw reply_answer decide_True; [|split_and!; [done|done|lia]].
  replace (1 + zlen d - 1) with (zlen d) by lia. rewrite /forged_more in Hg. rw Hg.
  split_and!; [done|by rw chunk_data_cons Hd|]. by rewrite -Hf.
Qed.

(** With a length of the preimage that is encoded in three bytes, the host
    makes [call_get_merkle_preimage] deliver data of its choice.  For all data
    [d] whose hash is requested and all data [f] of the same length that fits
    in the output, the host [forged d f] makes the call succeed with [f] in
    the output. *)
Lemma get_merkle_preimage_forged d f out st :
  idle st → bytes_ok d → bytes_ok f → length d = length f → zlen d ≤ zlen out → zlen d < 65535 →
  bytes_ok out → zlen out < 2 ^ 31 →
  zlen (sha256 (0 :: d)) = 32 → bytes_ok (sha256 (0 :: d)) →
  rx st = forged d f →
  ∃ st', call_get_merkle_preimage sha256 (sha256 (0 :: d)) out st
           = Val ((zlen d, f ++ drop (length f) out), st') ∧ idle st'.
Proof.
  intros Hi Hd Hf Hlen Hfit Hsmall Hout Hol Hz Hok Hrx. pose proof (zlen_nonneg d).
  destruct (gather_forged d f Hlen) as (l & Hg & Hcd & Hwc).
  assert (preimage_header ([0xFD] ++ le_bytes 2 (1 + zlen d) ++ [1; 0]) = Some (1 + zlen d, 1, [0])) as Hh.
  { rw /preimage_header. cbn [app varint_dec varint_payload Z.eqb].
    rw (_ : (zlen (le_bytes 2 (1 + zlen d) ++ [1; 0]) <? 2) = false) //.
    rw take_app_length' // drop_app_length' // le_val_le_bytes; [done|lia]. }
  destruct (wp_returns (call_get_merkle_preimage sha256 (sha256 (0 :: d)) out)
    (λ r st', r = (zlen d, f ++ drop (length f) out) ∧ idle st') st) as (r & st' & Hr & -> & ?);
    [|by exists st'].
  assert (merkle_chunks (zlen out) (forged d f) = Some (1 + zlen d, 9, [0], l, [])) as Hmc.
  { rw /merkle_chunks /forged reply_answer. cbn [mbind option_bind]. rw Hh. cbn [mbind option_bind].
    rw decide_True; [|lia]. replace (1 + zlen d - 1) with (zlen d) by lia. by rw Hg. }
  apply get_merkle_preimage_spec; [done..| | |]; rewrite Hrx.
  - right. rewrite Hmc. split; [|by eexists]. rw /forged. constructor; [done|].
    by apply forged_more_Forall.
  - intros ex rx' d' len n r [= <- <-] Ha Hh'. rewrite reply_answer in Ha. injection Ha as <-.
    rewrite Hh in Hh'. injection Hh' as <- <- <-. apply forged_more_Forall. intros x y n' e' r'.
    rw reply_answer. by intros [= <- <- <-].
  - intros st' r Hi' _. rewrite Hmc /= Hcd Hwc decide_True //. intros (Hr1 & _ & Hr2). split; [|done].
    destruct r as [r1 r2]. simpl in *. f_equal; [lia|]. apply Hr2. unfold zlen in *. lia.
Qed.
End properties.

Definition sample_preimage_host : list exchange := [reply [3; 1; 0]; reply [2; 1; 7; 8]].

Lemma sample_preimage_host_wf : Forall wf_exchange sample_preimage_host.
Proof. repeat constructor; by apply (bool_decide_unpack _). Qed.

Lemma get_preimage_sound_witness :
  wp True (call_get_preimage toy_hash (toy_hash [0; 7; 8]) (replicate 5 0))
    (λ r st', idle st' ∧
       (r.1 < 0 ∨
        ∃ d, toy_hash d = toy_hash [0; 7; 8] ∧ bytes_ok d ∧ r.1 = i32 (zlen d) ∧
          (zlen d ≤ 5 → r.2 = d ++ drop (length d) (replicate 5 0))))
    (sample_state 0 sample_preimage_host).
Proof.
  apply (get_preimage_sound toy_hash);
    [split; [by apply sample_state_wf, sample_preimage_host_wf|done]|done| | |done];
    by apply (bool_decide_unpack _).
Defined.

Lemma get_merkle_preimage_sound_witness :
  wp True (call_get_merkle_preimage toy_hash (toy_hash [0; 7; 8]) (replicate 5 0))
    (λ r st', idle st' ∧
       (r.1 < 0 ∨
        ∃ p d, toy_hash (p :: d) = toy_hash [0; 7; 8] ∧ r.1 = zlen d ∧ zlen d ≤ 5 ∧
          r.2 = d ++ drop (length d) (replicate 5 0)))
    (sample_state 0 sample_preimage_host).
Proof.
  apply (get_merkle_preimage_sound toy_hash);
    [split; [by apply sample_state_wf, sample_preimage_host_wf|done]|done| | |done|done];
    by apply (bool_decide_unpack _).
Defined.
