(* ===== verification/Script.v ===== *)
(** * Output scripts

    Models src/src/common/script.c and script.h: the classification of output
    scripts, the size of the push of a number, and the text shown for an
    OP_RETURN output.

    The theorems state each function against the shape of scripts: the
    templates of the standard output types, the minimal encoding of script
    numbers, and the single push that an OP_RETURN output carries. *)

From S2P Require Import Prelude Bytes.

(** ** Opcodes of common/script.h *)
Definition OP_0 : Z := 0x00.
Definition OP_PUSHDATA1 : Z := 0x4c.
Definition OP_PUSHDATA2 : Z := 0x4d.
Definition OP_PUSHDATA4 : Z := 0x4e.
Definition OP_1NEGATE : Z := 0x4f.
Definition OP_RESERVED : Z := 0x50.
Definition OP_1 : Z := 0x51.
Definition OP_16 : Z := 0x60.
Definition OP_RETURN : Z := 0x6a.
Definition OP_DUP : Z := 0x76.
Definition OP_EQUAL : Z := 0x87.
Definition OP_EQUALVERIFY : Z := 0x88.
Definition OP_HASH160 : Z := 0xa9.
Definition OP_CHECKSIG : Z := 0xac.

Inductive script_type : Set :=
| SCRIPT_TYPE_P2PKH
| SCRIPT_TYPE_P2SH
| SCRIPT_TYPE_P2WPKH
| SCRIPT_TYPE_P2WSH
| SCRIPT_TYPE_P2TR
| SCRIPT_TYPE_UNKNOWN_SEGWIT.

Definition is_opreturn (script : list Z) (script_len : Z) : outcome bool :=
  if negb (0 <? script_len) then mret false
  else if negb (script_len <=? 83) then mret false
  else b ← load script 0; mret (b =? OP_RETURN).

Definition get_push_script_size (n : Z) : Z :=
  if n <=? 16 then 1
  else if n <? 0x80 then 2
  else if n <? 0x8000 then 3
  else if n <? 0x800000 then 4
  else if n <? 0x80000000 then 5
  else 6.

(** The conjunction [script[i1] == b1 && ...] of the code, with its
    short-circuit evaluation. *)
Fixpoint bytes_match (script : list Z) (pattern : list (Z * Z)) : outcome bool :=
  match pattern with
  | [] => mret true
  | (i, b) :: pattern' =>
      v ← load script i;
      if v =? b then bytes_match script pattern' else mret false
  end.

(** One of the [if (script_len == len && ...) return t] of [get_script_type]. *)
Definition match_template (script : list Z) (script_len len : Z) (pattern : list (Z * Z)) : outcome bool :=
  if script_len =? len then bytes_match script pattern else mret false.

Definition match_future_segwit (script : list Z) (script_len : Z) : outcome bool :=
  if (4 <=? script_len) && (script_len <=? 42) then
    v ← load script 0;
    if (v =? 0) || ((OP_1 <=? v) && (v <=? OP_16)) then
      push_len ← load script 1;
      mret (script_len =? 1 + 1 + push_len)
    else mret false
  else mret false.

(** [None] is the result -1. *)
Definition get_script_type (script : list Z) (script_len : Z) : outcome (option script_type) :=
  c ← match_template script script_len 25
        [(0, OP_DUP); (1, OP_HASH160); (2, 0x14); (23, OP_EQUALVERIFY); (24, OP_CHECKSIG)];
  if (c : bool) then mret (Some SCRIPT_TYPE_P2PKH) else
  c ← match_template script script_len 23 [(0, OP_HASH160); (1, 0x14); (22, OP_EQUAL)];
  if (c : bool) then mret (Some SCRIPT_TYPE_P2SH) else
  c ← match_template script script_len 22 [(0, 0x00); (1, 0x14)];
  if (c : bool) then mret (Some SCRIPT_TYPE_P2WPKH) else
  c ← match_template script script_len 34 [(0, OP_0); (1, 0x20)];
  if (c : bool) then mret (Some SCRIPT_TYPE_P2WSH) else
  c ← match_template script script_len 34 [(0, OP_1); (1, 0x20)];
  if (c : bool) then mret (Some SCRIPT_TYPE_P2TR) else
  c ← match_future_segwit script script_len;
  if (c : bool) then mret (Some SCRIPT_TYPE_UNKNOWN_SEGWIT) else
  mret None.

(** ** The description of an OP_RETURN output *)
Definition MAX_OPRETURN_OUTPUT_DESC_SIZE : Z := 12 + 80 * 2 + 1.

(** The characters [OP_RETURN ] and [0x], and the table [hex]. *)
Definition str_op_return : list Z := [79; 80; 95; 82; 69; 84; 85; 82; 78; 32].
Definition str_0x : list Z := [48; 120].
Definition hex_table : list Z := [48; 49; 50; 51; 52; 53; 54; 55; 56; 57; 97; 98; 99; 100; 101; 102].

(** The output buffer and the position [out_ctr] in it; [put] is the
    statement [out[out_ctr++] = c]. *)
Definition put (o : list Z * Z) (c : Z) : outcome (list Z * Z) :=
  out ← store o.1 o.2 c; mret (out, o.2 + 1).

(** The loop over the [n] bytes at [script + i]. *)
Fixpoint put_hex (script : list Z) (i : Z) (n : nat) (o : list Z * Z) : outcome (list Z * Z) :=
  match n with
  | O => mret o
  | S n' =>
      data ← load script i;
      c ← load hex_table (data / 16);
      o ← put o c;
      c ← load hex_table (data `mod` 16);
      o ← put o c;
      put_hex script (i + 1) n' o
  end.

(** The push that follows OP_RETURN: [None] is a [return -1], otherwise the
    output with the decimal number written, [hex_offset] and [hex_length]. *)
Definition parse_push (script : list Z) (script_len opcode : Z) (o : list Z * Z)
    : outcome (option ((list Z * Z) * Z * Z)) :=
  if opcode =? OP_0 then
    if negb (script_len =? 1 + 1) then mret None
    else o ← put o 48; mret (Some (o, 1, 0))
  else if (1 <=? opcode) && (opcode <=? 75) then
    if negb (script_len =? 1 + 1 + opcode) then mret None
    else mret (Some (o, 2, opcode))
  else if opcode =? OP_PUSHDATA1 then
    hex_length ← load script 2;
    if negb (script_len =? 1 + 1 + 1 + hex_length) || (80 <? hex_length) then mret None
    else mret (Some (o, 3, hex_length))
  else if opcode =? OP_1NEGATE then
    if negb (script_len =? 1 + 1) then mret None
    else o ← put o 45; o ← put o 49; mret (Some (o, 1, 0))
  else if (OP_1 <=? opcode) && (opcode <=? OP_16) then
    if negb (script_len =? 1 + 1) then mret None
    else
      let num := opcode - 0x50 in
      o ← (if 10 <=? num then put o (48 + num / 10) else mret o);
      o ← put o (48 + num `mod` 10);
      mret (Some (o, 1, 0))
  else mret None.

(** [None] is the result -1; otherwise the result and the output buffer, which
    [strncpy] fills with NUL bytes after the prefix. *)
Definition format_opscript_script (script : list Z) (script_len : Z) : outcome (option (Z * list Z)) :=
  if script_len =? 0 then mret None else
  b ← load script 0;
  if negb (b =? OP_RETURN) then mret None else
  let out := str_op_return ++ replicate (Z.to_nat (MAX_OPRETURN_OUTPUT_DESC_SIZE - 10)) 0 in
  let finish (o : list Z * Z) : outcome (option (Z * list Z)) :=
    o ← put o 0; mret (Some (o.2, o.1)) in
  if script_len =? 1 then finish (out, 9)
  else
    opcode ← load script 1;
    if (OP_16 <? opcode) || (opcode =? OP_RESERVED) || (opcode =? OP_PUSHDATA2) || (opcode =? OP_PUSHDATA4)
    then mret None
    else
      r ← parse_push script script_len opcode (out, 10);
      match r with
      | None => mret None
      | Some (o, hex_offset, hex_length) =>
          if 0 <? hex_length then
            o ← put o 48;
            o ← put o 120;
            o ← put_hex script hex_offset (Z.to_nat hex_length) o;
            finish o
          else finish o
      end.

(** ** Templates of scripts *)

(** A script with the fixed bytes [pre] and [suf] around [n] arbitrary bytes. *)
Definition template (pre : list Z) (n : Z) (suf s : list Z) : Prop :=
  ∃ h, zlen h = n ∧ s = pre ++ h ++ suf.

(** The scripts of each type; an unknown segwit script is a witness version
    and a witness program of another form than the three known ones. *)
Definition has_type (s : list Z) (t : script_type) : Prop :=
  match t with
  | SCRIPT_TYPE_P2PKH => template [OP_DUP; OP_HASH160; 20] 20 [OP_EQUALVERIFY; OP_CHECKSIG] s
  | SCRIPT_TYPE_P2SH => template [OP_HASH160; 20] 20 [OP_EQUAL] s
  | SCRIPT_TYPE_P2WPKH => template [OP_0; 20] 20 [] s
  | SCRIPT_TYPE_P2WSH => template [OP_0; 32] 32 [] s
  | SCRIPT_TYPE_P2TR => template [OP_1; 32] 32 [] s
  | SCRIPT_TYPE_UNKNOWN_SEGWIT =>
      (∃ v n, (v = OP_0 ∨ OP_1 ≤ v ≤ OP_16) ∧ 2 ≤ n ≤ 40 ∧ template [v; n] n [] s) ∧
      ¬ template [OP_0; 20] 20 [] s ∧ ¬ template [OP_0; 32] 32 [] s ∧
      ¬ template [OP_1; 32] 32 [] s
  end.

Fixpoint positions (k : Z) (l : list Z) : list (Z * Z) :=
  match l with
  | [] => []
  | b :: l' => (k, b) :: positions (k + 1) l'
  end.

Lemma slice_cons m i b : 0 ≤ i → m !! Z.to_nat i = Some b →
  ∀ n, 0 ≤ n → slice m i (1 + n) = b :: slice m (i + 1) n.
Proof.
  intros Hi Hb n Hn. rw /slice (drop_S _ b); [|done].
  replace (Z.to_nat (1 + n)) with (S (Z.to_nat n)) by lia. cbn [take].
  by replace (Z.to_nat (i + 1)) with (S (Z.to_nat i)) by lia.
Qed.

Lemma bytes_match_positions s l pat : ∀ k,
  0 ≤ k → k + zlen l ≤ zlen s →
  bytes_match s (positions k l ++ pat) =
    if decide (slice s k (zlen l) = l) then bytes_match s pat else Val false.
Proof.
  induction l as [|b l IH]; intros k Hk Hl; [done|].
  rw zlen_cons in Hl. pose proof (zlen_nonneg l). cbn [positions app bytes_match].
  destruct (load_in_range s k) as (v & -> & Hv); [lia|]. cbn [mbind outcome_bind].
  rw zlen_cons (slice_cons _ _ v); [|done..]. destruct (Z.eqb_spec v b) as [->|Hvb].
  - rw IH; [|lia..].
    destruct (decide (slice s (k + 1) (zlen l) = l)) as [->|]; [by rw decide_True|].
    rw decide_False; [done|]. congruence.
  - rw decide_False; [done|]. congruence.
Qed.

Lemma template_slices pre n suf s : 0 ≤ n →
  template pre n suf s ↔
    zlen s = zlen pre + n + zlen suf ∧ slice s 0 (zlen pre) = pre ∧
    slice s (zlen pre + n) (zlen suf) = suf.
Proof.
  intros Hn. split.
  - intros (h & Hh & ->). rw !zlen_app. split; [lia|]. rw /slice !zlen_length. split.
    + by rw drop_0 take_app_length.
    + rw app_assoc drop_app_length'; [by rw firstn_all|].
      rewrite length_app. unfold zlen in *. lia.
  - intros (Hl & Hp & Hs). exists (slice s (zlen pre) n). split; [rw slice_zlen; zlia|].
    pose proof (zlen_nonneg pre). pose proof (zlen_nonneg suf).
    transitivity (slice s 0 (zlen pre) ++ slice s (zlen pre) n ++ slice s (zlen pre + n) (zlen suf));
      [|by rw Hp Hs].
    rw /slice !drop_0 (take_ge (drop (Z.to_nat (zlen pre + n)) s));
      [|rewrite length_drop; unfold zlen in *; lia].
    replace (Z.to_nat (zlen pre + n)) with (Z.to_nat (zlen pre) + Z.to_nat n)%nat by lia.
    by rw -drop_drop take_drop take_drop.
Qed.

Lemma match_template_spec s pre n suf len pat : 0 ≤ n →
  len = zlen pre + n + zlen suf → pat = positions 0 pre ++ positions (zlen pre + n) suf →
  ∃ c, match_template s (zlen s) len pat = Val c ∧ (c = true ↔ template pre n suf s).
Proof.
  intros Hn -> ->. pose proof (template_slices pre n suf s Hn) as Ht. rw /match_template.
  pose proof (zlen_nonneg pre). pose proof (zlen_nonneg suf).
  destruct (Z.eqb_spec (zlen s) (zlen pre + n + zlen suf)) as [Hl|Hl]; [|exists false; naive_solver].
  rw bytes_match_positions; [|lia..].
  rw -(app_nil_r (positions _ suf)) bytes_match_positions; [|lia..].
  destruct (decide (slice s 0 (zlen pre) = pre)) as [Hp|]; [|exists false; naive_solver].
  destruct (decide (slice s (zlen pre + n) (zlen suf) = suf)) as [Hs|]; [|exists false; naive_solver].
  exists true. naive_solver.
Qed.

Lemma match_future_segwit_spec s : bytes_ok s →
  ∃ c, match_future_segwit s (zlen s) = Val c ∧
       (c = true ↔ ∃ v n, (v = OP_0 ∨ OP_1 ≤ v ≤ OP_16) ∧ 2 ≤ n ≤ 40 ∧ template [v; n] n [] s).
Proof.
  intros Hok. rw /match_future_segwit.
  destruct (decide (4 ≤ zlen s ≤ 42)) as [Hl|Hl]; last first.
  { exists false. split.
    - destruct (Z.leb_spec 4 (zlen s)), (Z.leb_spec (zlen s) 42); done || lia.
    - split; [done|]. intros (v & n & _ & Hn & h & Hh & ->). zlia. }
  rw (proj2 (Z.leb_le _ _)) ?(proj2 (Z.leb_le _ _)); [|lia..]. cbn [andb].
  destruct s as [|v [|n s]]; [rewrite ?zlen_cons zlen_nil in Hl; lia..|].
  change (load (v :: n :: s) 0) with (Val v). change (load (v :: n :: s) 1) with (Val n).
  cbn [mbind outcome_bind].
  destruct (decide (v = OP_0 ∨ OP_1 ≤ v ≤ OP_16)) as [Hv|Hv].
  - rw (_ : (v =? 0) || ((OP_1 <=? v) && (v <=? OP_16)) = true); [|unfold OP_0, OP_1, OP_16 in *; lia].
    eexists. split; [done|]. rw !zlen_cons in Hl *. rw Z.eqb_eq. split.
    + intros Heq. exists v, n. split_and!; [done|lia..|]. exists s. split; [lia|]. by rw app_nil_r.
    + intros (v' & n' & _ & _ & h & Hh & Heq). rw app_nil_r in Heq. simplify_eq/=. lia.
  - rw (_ : (v =? 0) || ((OP_1 <=? v) && (v <=? OP_16)) = false); [|unfold OP_0, OP_1, OP_16 in *; lia].
    exists false. split; [done|]. split; [done|].
    intros (v' & n' & Hv' & _ & h & Hh & Heq). naive_solver.
Qed.

Lemma has_type_unique s t t' : has_type s t → has_type s t' → t = t'.
Proof.
  assert (∀ pre n suf v k, v = OP_0 ∨ OP_1 ≤ v ≤ OP_16 →
    template (OP_DUP :: pre) n suf s ∨ template (OP_HASH160 :: pre) n suf s →
    template [v; k] k [] s → False) as Hx.
  { rw /OP_0 /OP_1 /OP_16 /OP_DUP /OP_HASH160. intros pre n suf v k Hv [(h & _ & ->)|(h & _ & ->)] (h' & _ & [=]); lia. }
  assert (∀ pre n suf pre' n' suf',
    template pre n suf s → template pre' n' suf' s →
    zlen pre + n + zlen suf = zlen pre' + n' + zlen suf') as Hlen.
  { intros ?????? (h & <- & ->) (h' & <- & Heq). apply (f_equal zlen) in Heq. zlia. }
  destruct t, t'; try done; cbn [has_type]; intros H1 H2; exfalso;
    try (by specialize (Hlen _ _ _ _ _ _ H1 H2));
    try (by destruct H1 as (h & _ & ->), H2 as (h' & _ & [=]));
    try (by destruct H1 as ((?&?&?&?&?)&?&?&?) || destruct H2 as ((?&?&?&?&?)&?&?&?);
       naive_solver).
Qed.

(** ** The push of a number *)

(** The minimal little-endian bytes of [n], and its encoding as a script
    number: a byte 0 is added where the highest bit, the sign, would be set. *)
Fixpoint num_bytes (fuel : nat) (n : Z) : list Z :=
  match fuel with
  | O => []
  | S fuel' => if n =? 0 then [] else n `mod` 256 :: num_bytes fuel' (n / 256)
  end.
Definition script_num (n : Z) : list Z :=
  let l := num_bytes 8 n in
  if 128 <=? default 0 (last l) then l ++ [0] else l.

Definition push_script (n : Z) : list Z :=
  if n =? 0 then [OP_0]
  else if n <=? 16 then [0x50 + n]
  else zlen (script_num n) :: script_num n.

Lemma num_bytes_small n fuel : 0 < n < 256 → num_bytes (S (S fuel)) n = [n].
Proof.
  intros. cbn [num_bytes]. rw (proj2 (Z.eqb_neq _ _)); [|lia].
  rw Z.mod_small; [|lia]. by rw Z.div_small; [|lia].
Qed.

Lemma num_bytes_step n fuel : 0 < n → num_bytes (S fuel) n = n `mod` 256 :: num_bytes fuel (n / 256).
Proof. intros. cbn [num_bytes]. rw (proj2 (Z.eqb_neq _ _)); [done|lia]. Qed.

(** The last byte of a number of [k + 1] bytes is its quotient by [256 ^ k]. *)
Lemma num_bytes_spec k n fuel :
  256 ^ Z.of_nat k ≤ n < 256 ^ (Z.of_nat k + 1) → (k + 1 < fuel)%nat →
  ∃ l, num_bytes fuel n = l ++ [n / 256 ^ Z.of_nat k] ∧ length l = k.
Proof.
  revert n fuel. induction k as [|k IH]; intros n fuel Hn Hf.
  - destruct fuel as [|[|fuel]]; [lia..|]. exists []. rw num_bytes_small; [|lia].
    by rw Z.pow_0_r Z.div_1_r.
  - destruct fuel as [|fuel]; [lia|].
    assert (256 ^ Z.of_nat (S k) = 256 * 256 ^ Z.of_nat k) as Hp.
    { rw Nat2Z.inj_succ Z.pow_succ_r; [done|lia]. }
    assert (256 ^ (Z.of_nat (S k) + 1) = 256 * 256 ^ (Z.of_nat k + 1)) as Hp1.
    { rw -Z.pow_succ_r; [f_equal|]; lia. }
    rewrite Hp Hp1 in Hn. assert (0 < 256 ^ Z.of_nat k) by lia.
    rw num_bytes_step; [|lia]. destruct (IH (n / 256) fuel) as (l & -> & Hl); [|lia|].
    { split; [apply Z.div_le_lower_bound; lia|apply Z.div_lt_upper_bound; lia]. }
    exists (n `mod` 256 :: l). rw Hp Z.div_div; [|lia..]. split; [done|]. by rw /= Hl.
Qed.

Lemma script_num_zlen k n :
  (k ≤ 5)%nat → 256 ^ Z.of_nat k ≤ n < 256 ^ (Z.of_nat k + 1) →
  zlen (script_num n) = Z.of_nat k + (if n <? 128 * 256 ^ Z.of_nat k then 1 else 2).
Proof.
  intros Hk Hn. destruct (num_bytes_spec k n 8) as (l & Hb & Hl); [done|lia|].
  rw /script_num Hb last_snoc. cbn [default].
  assert (0 < 256 ^ Z.of_nat k) by lia.
  destruct (Z.ltb_spec n (128 * 256 ^ Z.of_nat k)) as [Hlt|Hge].
  - rw (proj2 (Z.leb_gt _ _)); [|apply Z.div_lt_upper_bound; lia]. cbn.
    rw /zlen length_app /=. lia.
  - rw (proj2 (Z.leb_le _ _)); [|apply Z.div_le_lower_bound; lia]. rw /zlen !length_app /=. lia.
Qed.

(** [get_push_script_size] is the length of the script that pushes a
    number of 32 bits in its minimal form. *)
Lemma push_script_zlen n :
  0 ≤ n < 2 ^ 32 → zlen (push_script n) = get_push_script_size n.
Proof.
  intros Hn. rw /push_script /get_push_script_size.
  destruct (Z.eqb_spec n 0) as [->|]; [done|]. destruct (Z.leb_spec n 16); [done|]. rw zlen_cons.
  destruct (Z.ltb_spec n 0x80); [rw (script_num_zlen 0); [|lia..];
    by rw (proj2 (Z.ltb_lt _ _)); [|lia..]|].
  destruct (Z.ltb_spec n 0x8000).
  { destruct (Z.ltb_spec n 256); [rw (script_num_zlen 0)|rw (script_num_zlen 1)]; try lia;
      [rw (proj2 (Z.ltb_ge _ _))|rw (proj2 (Z.ltb_lt _ _))]; lia. }
  destruct (Z.ltb_spec n 0x800000).
  { destruct (Z.ltb_spec n 65536); [rw (script_num_zlen 1)|rw (script_num_zlen 2)]; try lia;
      [rw (proj2 (Z.ltb_ge _ _))|rw (proj2 (Z.ltb_lt _ _))]; lia. }
  destruct (Z.ltb_spec n 0x80000000).
  { destruct (Z.ltb_spec n 16777216); [rw (script_num_zlen 2)|rw (script_num_zlen 3)]; try lia;
      [rw (proj2 (Z.ltb_ge _ _))|rw (proj2 (Z.ltb_lt _ _))]; lia. }
  rw (script_num_zlen 3); [|lia..]. rw (proj2 (Z.ltb_ge _ _)); lia.
Qed.

(** Decides the next template of [get_script_type]. *)
Ltac template_case pre n suf H :=
  match goal with
  | |- context [match_template ?s (zlen ?s) ?len ?pat] =>
      destruct (match_template_spec s pre n suf len pat) as ([|] & -> & H);
      [done|done|done|..]
  end; cbn [mbind outcome_bind].

(** [get_script_type] reads only bytes of the script, and returns a type
    exactly for the scripts of that type: P2PKH, P2SH, P2WPKH, P2WSH and P2TR
    for their templates, and the unknown segwit type for every other witness
    program of 2 to 40 bytes with a witness version from 0 to 16. *)
Lemma get_script_type_correct s :
  bytes_ok s →
  ∃ r, get_script_type s (zlen s) = Val r ∧ ∀ t, r = Some t ↔ has_type s t.
Proof.
  intros Hok. rw /get_script_type.
  assert (∀ t0, has_type s t0 →
    ∃ r, mret (Some t0) = Val r ∧ ∀ t, r = Some t ↔ has_type s t) as Hsome.
  { intros t0 H0. eexists. split; [done|]. intros t. split; [by intros [= <-]|].
    intros Ht. f_equal. by eapply has_type_unique. }
  template_case [OP_DUP; OP_HASH160; 0x14] 20 [OP_EQUALVERIFY; OP_CHECKSIG] H1; [by apply Hsome, H1|].
  template_case [OP_HASH160; 0x14] 20 [OP_EQUAL] H2; [by apply Hsome, H2|].
  template_case [0x00; 0x14] 20 (@nil Z) H3; [by apply Hsome, H3|].
  template_case [OP_0; 0x20] 32 (@nil Z) H4; [by apply Hsome, H4|].
  template_case [OP_1; 0x20] 32 (@nil Z) H5; [by apply Hsome, H5|].
  destruct (match_future_segwit_spec s Hok) as ([|] & -> & H6); cbn [mbind outcome_bind].
  - apply Hsome. split; [by apply H6|]. rw /OP_0. naive_solver.
  - eexists. split; [done|]. intros t. split; [done|]. destruct t; cbn [has_type]; rw /OP_0; naive_solver.
Qed.

(** ** The text of an OP_RETURN output *)

(** What an OP_RETURN script pushes: nothing, a number with an opcode of its
    own, or data. *)
Inductive push : Type :=
| PushNothing
| PushNum (n : Z)
| PushData (d : list Z).

Definition num_opcode (n : Z) : Z := if n =? 0 then OP_0 else 0x50 + n.

Definition opreturn_script (s : list Z) (p : push) : Prop :=
  match p with
  | PushNothing => s = [OP_RETURN]
  | PushNum n => -1 ≤ n ≤ 16 ∧ s = [OP_RETURN; num_opcode n]
  | PushData d =>
      (1 ≤ zlen d ≤ 75 ∧ s = OP_RETURN :: zlen d :: d) ∨
      (zlen d ≤ 80 ∧ s = OP_RETURN :: OP_PUSHDATA1 :: zlen d :: d)
  end.

Definition hex_char (x : Z) : Z := if x <? 10 then 48 + x else 87 + x.
Definition hex_text (d : list Z) : list Z :=
  d ≫= λ b, [hex_char (b / 16); hex_char (b `mod` 16)].
Definition num_text (n : Z) : list Z :=
  if n <? 0 then [45; 49] else if n <? 10 then [48 + n] else [49; 38 + n].
Definition push_text (p : push) : list Z :=
  match p with
  | PushNothing => take 9 str_op_return
  | PushNum n => str_op_return ++ num_text n
  | PushData d => str_op_return ++ if decide (d = []) then [] else str_0x ++ hex_text d
  end.

(** The output buffer after [l] was written at its start. *)
Definition outof (l : list Z) : list Z :=
  l ++ replicate (Z.to_nat (MAX_OPRETURN_OUTPUT_DESC_SIZE - zlen l)) 0.

Lemma put_outof l c : zlen l < MAX_OPRETURN_OUTPUT_DESC_SIZE →
  put (outof l, zlen l) c = Val (outof (l ++ [c]), zlen (l ++ [c])).
Proof.
  intros Hl. rw /put /store /outof /= decide_True.
  2: { rewrite zlen_app /zlen length_replicate. unfold zlen in *. lia. }
  rw zlen_length insert_app_r_alt //. rw Nat.sub_diag !zlen_app.
  replace (Z.to_nat (MAX_OPRETURN_OUTPUT_DESC_SIZE - zlen l))
    with (S (Z.to_nat (MAX_OPRETURN_OUTPUT_DESC_SIZE - (zlen l + zlen [c])))).
  2: { rewrite zlen_cons zlen_nil. lia. }
  by rw /= -assoc.
Qed.

Lemma hex_table_char x : 0 ≤ x < 16 → load hex_table x = Val (hex_char x).
Proof.
  intros. assert (x ∈ seqZ 0 16) as Hx; [apply elem_of_seqZ; lia|]. revert Hx.
  change (seqZ 0 16) with [0; 1; 2; 3; 4; 5; 6; 7; 8; 9; 10; 11; 12; 13; 14; 15].
  repeat (rw elem_of_cons; intros [->|Hx]; [done|revert Hx]). by rw elem_of_nil.
Qed.

Lemma put_hex_spec s i d : ∀ l k,
  bytes_ok d → 0 ≤ k → slice s k (zlen d) = d → k + zlen d ≤ zlen s → i = length d →
  zlen l + 2 * zlen d ≤ MAX_OPRETURN_OUTPUT_DESC_SIZE →
  put_hex s k i (outof l, zlen l) = Val (outof (l ++ hex_text d), zlen (l ++ hex_text d)).
Proof.
  revert i. induction d as [|b d IH]; intros i l k Hd Hk Hs Hkl -> Hl.
  { by rw app_nil_r. }
  rewrite zlen_cons in Hl Hkl Hs. pose proof (zlen_nonneg d). pose proof (zlen_nonneg l).
  destruct (load_in_range s k) as (v & Hv & Hb); [lia|].
  rewrite (slice_cons _ _ v) in Hs; [|done..]. injection Hs as -> Hs.
  inversion_clear Hd as [|?? Hbk Hd']. rw /byte_ok in Hbk.
  cbn [put_hex length]. rw Hv. cbn [mbind outcome_bind].
  rw (hex_table_char (b / 16)); [|pow_lia]. cbn [mbind outcome_bind]. rw put_outof; [|lia]. cbn [mbind outcome_bind].
  rw (hex_table_char (b `mod` 16)); [|pow_lia]. cbn [mbind outcome_bind]. rw put_outof; [|zlia]. cbn [mbind outcome_bind].
  rw IH; [|done|lia|done|lia|done|zlia]. by rw -!assoc.
Qed.

Lemma hex_text_zlen d : zlen (hex_text d) = 2 * zlen d.
Proof. induction d as [|b d IH]; [done|]. rw /hex_text bind_cons -/(hex_text d). zlia. Qed.

(** The end of [format_opscript_script]. *)
Lemma finish_outof l : zlen l < MAX_OPRETURN_OUTPUT_DESC_SIZE →
  (o ← put (outof l, zlen l) 0; mret (Some (o.2, o.1))) = Val (Some (zlen l + 1, outof l)).
Proof.
  intros Hl. rw put_outof; [|done]. cbn. rw zlen_app. do 3 f_equal.
  rw /outof zlen_app -assoc. f_equal. rw zlen_cons zlen_nil.
  replace (Z.to_nat (MAX_OPRETURN_OUTPUT_DESC_SIZE - zlen l))
    with (S (Z.to_nat (MAX_OPRETURN_OUTPUT_DESC_SIZE - (zlen l + (1 + 0))))) by lia.
  done.
Qed.

Lemma format_push_num n :
  -1 ≤ n ≤ 16 →
  format_opscript_script [OP_RETURN; num_opcode n] 2 =
    Val (Some (zlen (push_text (PushNum n)) + 1, outof (push_text (PushNum n)))).
Proof.
  intros Hn. assert (n ∈ seqZ (-1) 18) as Hx; [apply elem_of_seqZ; lia|]. revert Hx.
  change (seqZ (-1) 18) with [-1; 0; 1; 2; 3; 4; 5; 6; 7; 8; 9; 10; 11; 12; 13; 14; 15; 16].
  repeat (rw elem_of_cons; intros [->|Hx]; [vm_compute; reflexivity|revert Hx]). by rw elem_of_nil.
Qed.

Lemma format_hex_tail s k d :
  bytes_ok d → 0 < zlen d ≤ 80 → 0 ≤ k → slice s k (zlen d) = d → k + zlen d ≤ zlen s →
  (o ← put (outof str_op_return, 10) 48;
   o ← put o 120;
   o ← put_hex s k (Z.to_nat (zlen d)) o;
   o ← put o 0; mret (Some (o.2, o.1))) =
  Val (Some (zlen (push_text (PushData d)) + 1, outof (push_text (PushData d)))).
Proof.
  intros Hd Hl Hk Hs Hkl. change 10 with (zlen str_op_return).
  rw put_outof; [|done]. cbn [mbind outcome_bind]. rw put_outof; [|done]. cbn [mbind outcome_bind].
  rw (put_hex_spec s _ d); [|done|done|done|done|by rw zlen_length|].
  2: { change (zlen ((str_op_return ++ [48]) ++ [120])) with 12. rewrite /MAX_OPRETURN_OUTPUT_DESC_SIZE. lia. }
  cbn [mbind outcome_bind]. rw finish_outof.
  2: { rewrite zlen_app hex_text_zlen. change (zlen ((str_op_return ++ [48]) ++ [120])) with 12. rewrite /MAX_OPRETURN_OUTPUT_DESC_SIZE. lia. }
  cbn [push_text]. rw decide_False; [|intros ->; rewrite zlen_nil in Hl; lia]. by rw -!assoc.
Qed.

(** The opcodes after OP_RETURN that the code refuses at once. *)
Definition unsupported (opcode : Z) : bool :=
  (OP_16 <? opcode) || (opcode =? OP_RESERVED) || (opcode =? OP_PUSHDATA2) || (opcode =? OP_PUSHDATA4).

Lemma format_step op s :
  format_opscript_script (OP_RETURN :: op :: s) (zlen (OP_RETURN :: op :: s)) =
  if unsupported op then Val None else
  r ← parse_push (OP_RETURN :: op :: s) (2 + zlen s) op (outof str_op_return, 10);
  match r with
  | None => Val None
  | Some (o, hex_offset, hex_length) =>
      if 0 <? hex_length then
        o ← put o 48;
        o ← put o 120;
        o ← put_hex (OP_RETURN :: op :: s) hex_offset (Z.to_nat hex_length) o;
        o ← put o 0; mret (Some (o.2, o.1))
      else o ← put o 0; mret (Some (o.2, o.1))
  end.
Proof.
  rw /format_opscript_script !zlen_cons. pose proof (zlen_nonneg s).
  rw (proj2 (Z.eqb_neq _ 0)); [|lia]. rw (proj2 (Z.eqb_neq _ 1)); [|lia].
  by replace (1 + (1 + zlen s)) with (2 + zlen s) by lia.
Qed.

Lemma parse_push_direct s op o : 1 ≤ op ≤ 75 →
  parse_push (OP_RETURN :: op :: s) (2 + zlen s) op o =
    Val (if decide (zlen s = op) then Some (o, 2, op) else None).
Proof.
  intros Hop. rw /parse_push. rw (proj2 (Z.eqb_neq _ OP_0)); [|unfold OP_0; lia].
  rw (_ : (1 <=? op) && (op <=? 75) = true); [|lia].
  case_decide; [by rw (proj2 (Z.eqb_eq _ _)); [|lia]|by rw (proj2 (Z.eqb_neq _ _)); [|lia]].
Qed.

Lemma parse_push_pushdata1 s n o :
  parse_push (OP_RETURN :: OP_PUSHDATA1 :: n :: s) (2 + zlen (n :: s)) OP_PUSHDATA1 o =
    Val (if decide (zlen s = n ∧ n ≤ 80) then Some (o, 3, n) else None).
Proof.
  rw /parse_push zlen_cons. change (load _ 2) with (Val n). cbn -[zlen Z.add Z.leb Z.ltb Z.eqb].
  case_decide; [rw (_ : _ || _ = false); [done|lia]|rw (_ : _ || _ = true); [done|lia]].
Qed.

Lemma format_opreturn s p :
  bytes_ok s → opreturn_script s p →
  format_opscript_script s (zlen s) = Val (Some (zlen (push_text p) + 1, outof (push_text p))).
Proof.
  intros Hok. destruct p as [|n|d]; cbn [opreturn_script].
  - intros ->. vm_compute. reflexivity.
  - intros [Hn ->]. by apply format_push_num.
  - intros [[Hd ->]|[Hd ->]]; inversion_clear Hok as [|?? _ Hok']; inversion_clear Hok' as [|?? _ Hok].
    + rw format_step parse_push_direct; [|done].
      rw (_ : unsupported _ = false);
        [|unfold unsupported, OP_16, OP_RESERVED, OP_PUSHDATA2, OP_PUSHDATA4; lia].
      rw decide_True; [|done]. cbn [mbind outcome_bind]. rw (proj2 (Z.ltb_lt 0 _)); [|lia].
      apply format_hex_tail; [done|lia|done| |zlia]. rw /slice zlen_length. apply firstn_all.
    + rw format_step parse_push_pushdata1 decide_True; [|done]. cbn [mbind outcome_bind].
      inversion_clear Hok as [|?? _ Hok'].
      destruct (Z.ltb_spec 0 (zlen d)) as [Hp|Hp].
      * apply format_hex_tail; [done|lia|done| |zlia]. rw /slice zlen_length. apply firstn_all.
      * destruct d; [|rewrite zlen_cons in Hp; zlia]. vm_compute. reflexivity.
Qed.

Lemma parse_push_other s op o :
  0 ≤ op → unsupported op = false → ¬ (1 ≤ op ≤ 75) → op ≠ OP_PUSHDATA1 →
  (s = [] ∧ ∃ n, -1 ≤ n ≤ 16 ∧ op = num_opcode n) ∨
  parse_push (OP_RETURN :: op :: s) (2 + zlen s) op o = Val None.
Proof.
  unfold unsupported, num_opcode, OP_0, OP_16, OP_RESERVED, OP_PUSHDATA1, OP_PUSHDATA2, OP_PUSHDATA4.
  intros Hop Hu Hd Hp. destruct s as [|x s].
  - left. split; [done|]. destruct (decide (op = 0)) as [->|]; [by exists 0|].
    exists (op - 80). rw (proj2 (Z.eqb_neq _ 0)); lia.
  - right. rw /parse_push /OP_0 /OP_PUSHDATA1 /OP_1NEGATE /OP_1 /OP_16. pose proof (zlen_nonneg s).
    rw (_ : (2 + zlen (x :: s) =? 1 + 1) = false); [|zlia].
    rw (_ : (1 <=? op) && (op <=? 75) = false); [|lia]. rw (proj2 (Z.eqb_neq op 76)); [|done].
    cbn [negb]. by repeat case_match.
Qed.

Lemma format_refuses s :
  bytes_ok s → s ≠ [OP_RETURN; OP_PUSHDATA1] →
  format_opscript_script s (zlen s) = Val None ∨ ∃ p, opreturn_script s p.
Proof.
  intros Hok Hbad. destruct s as [|b s]; [by left|].
  destruct (decide (b = OP_RETURN)) as [->|Hb]; last first.
  { left. rw /format_opscript_script. rw (proj2 (Z.eqb_neq _ 0)); [|zlia].
    change (load (b :: s) 0) with (Val b). cbn [mbind outcome_bind]. by rw (proj2 (Z.eqb_neq _ _)). }
  destruct s as [|op s]; [right; by exists PushNothing|]. rw format_step.
  destruct (unsupported op) eqn:Hu; [by left|].
  apply Forall_cons in Hok as [_ Hok]. apply Forall_cons in Hok as [Hop Hok]. rw /byte_ok in Hop.
  destruct (decide (1 ≤ op ≤ 75)) as [Hdirect|Hdirect].
  { rw parse_push_direct; [|done]. case_decide as Hs; [|by left]. right. exists (PushData s). left.
    by subst op. }
  destruct (decide (op = OP_PUSHDATA1)) as [->|Hpd].
  { destruct s as [|n s]; [done|]. rw parse_push_pushdata1. case_decide as Hs; [|by left].
    right. exists (PushData s). right. destruct Hs as [<- ?]. done. }
  destruct (parse_push_other s op (outof str_op_return, 10)) as [(-> & n & Hn & ->)| ->];
    [lia|done..| |by left].
  right. by exists (PushNum n).
Qed.

(** [format_opscript_script] describes exactly the scripts that are
    OP_RETURN alone or OP_RETURN and one push of a number from -1 to 16 or of
    at most 80 bytes (75 without OP_PUSHDATA1); the text is that of the push,
    it fits the 173 bytes of the output with its NUL, and the length returned
    counts that NUL.  No byte outside of the script is read, except for the
    script [6a 4c], where the length of the push is read past the end. *)
Lemma format_opscript_script_correct s :
  bytes_ok s →
  format_opscript_script [OP_RETURN; OP_PUSHDATA1] 2 = Undef ∧
  (s ≠ [OP_RETURN; OP_PUSHDATA1] →
   ∃ r, format_opscript_script s (zlen s) = Val r ∧
     ∀ n out, r = Some (n, out) ↔
       ∃ p, opreturn_script s p ∧ out = outof (push_text p) ∧ n = zlen (push_text p) + 1).
Proof.
  intros Hok. split; [done|]. intros Hbad.
  destruct (format_refuses s Hok Hbad) as [Hf|[p Hp]].
  - exists None. split; [done|]. intros n out. split; [done|]. intros (p & Hp & _).
    by rewrite (format_opreturn s p) in Hf.
  - exists (Some (zlen (push_text p) + 1, outof (push_text p))). split; [by apply format_opreturn|].
    intros n out. split; [naive_solver|]. intros (p' & Hp' & -> & ->).
    pose proof (format_opreturn s p Hok Hp) as H1. pose proof (format_opreturn s p' Hok Hp') as H2. congruence.
Qed.

(** ** Descriptions are unambiguous *)
Lemma hex_char_inj x y : 0 ≤ x < 16 → 0 ≤ y < 16 → hex_char x = hex_char y → x = y.
Proof. rw /hex_char. intros. destruct (Z.ltb_spec x 10), (Z.ltb_spec y 10); lia. Qed.

Lemma hex_text_inj d d' : bytes_ok d → bytes_ok d' → hex_text d = hex_text d' → d = d'.
Proof.
  intros Hd. revert d'. induction Hd as [|b d Hb Hd IH]; intros d' Hd'.
  - by destruct Hd'.
  - destruct Hd' as [|b' d' Hb' Hd']; [done|]. rw /hex_text !bind_cons -!/(hex_text _) /=.
    rw /byte_ok in Hb Hb'.
    intros [= H1 H2 H3]. apply hex_char_inj in H1; [|pow_lia..]. apply hex_char_inj in H2; [|pow_lia..].
    apply IH in H3; [|done]. subst d'. f_equal.
    pose proof (Z.div_mod b 16). pose proof (Z.div_mod b' 16). lia.
Qed.

(** Two OP_RETURN scripts with the same description push the same value:
    the text shown to the user determines what is pushed. *)
Lemma push_text_unambiguous s s' p p' :
  bytes_ok s → bytes_ok s' → opreturn_script s p → opreturn_script s' p' →
  push_text p = push_text p' → p = p'.
Proof.
  intros Hok Hok'.
  assert (∀ s d, bytes_ok s → opreturn_script s (PushData d) → bytes_ok d) as Hdata.
  { intros s0 d H0 [[_ ->]|[_ ->]]; by repeat (apply Forall_cons in H0 as [_ H0]). }
  assert (∀ n, -1 ≤ n ≤ 16 → num_text n ≠ [] ∧ ∀ l, num_text n ≠ str_0x ++ l) as Hnum.
  { intros n Hn. rw /num_text /str_0x. destruct (Z.ltb_spec n 0), (Z.ltb_spec n 10); (split; [done|]); intros l [=]; lia. }
  destruct p as [|n|d], p' as [|n'|d']; cbn [push_text]; try done; intros Hp Hp' Heq.
  - destruct Hp as [Hn _], Hp' as [Hn' _]. apply app_inv_head in Heq. f_equal. revert Heq. rw /num_text.
    repeat case_match; intros [=]; lia.
  - destruct Hp as [Hn _]. apply app_inv_head in Heq. destruct (Hnum n Hn). case_decide; naive_solver.
  - destruct Hp' as [Hn _]. apply app_inv_head in Heq. destruct (Hnum n' Hn). case_decide; naive_solver.
  - apply app_inv_head in Heq. f_equal. repeat case_decide; subst; try done.
    apply app_inv_head in Heq. apply hex_text_inj; [by apply (Hdata s)|by apply (Hdata s')|done].
Qed.
