(* ===== verification/Amount.v ===== *)
(** * Text of amounts

    Models src/src/ui/display_utils.c: the text of the amounts and fees that the
    user is asked to confirm.

    The main theorem states that the text of an amount is the exact decimal
    number, whatever the amount; the quotients are computed without division,
    by a binary search that is shown to end. *)

From S2P Require Import Prelude Bip32.

(** ** ui/display_utils.h *)
Definition MAX_AMOUNT_LENGTH : Z := 5 + 1 + 20 + 1.
Definition UINT64_MAX : Z := 18446744073709551615.

(** ** ui/display_utils.c *)

(** The binary search of [div10]. *)
Fixpoint div10_loop (fuel : nat) (n low high : Z) : outcome Z :=
  match fuel with
  | O => OutOfFuel
  | S fuel' =>
      let mid := u64 (low + high) / 2 in
      if (u64 (n - 10) <? u64 (mid * 10)) && (u64 (mid * 10) <=? n) then mret mid
      else if n <? u64 (mid * 10) then div10_loop fuel' n low (u64 (mid - 1))
      else div10_loop fuel' n (u64 (mid + 1)) high
  end.

(** The interval of the search has less than 2^61 elements. *)
Definition div10 (n : Z) : outcome Z :=
  if n <? 10 then mret 0 else div10_loop 62 n 0 (UINT64_MAX / 10).

Fixpoint div10_times (k : nat) (res : Z) : outcome Z :=
  match k with
  | O => mret res
  | S k' => res ← div10 res; div10_times k' res
  end.
Definition div100000000 (n : Z) : outcome Z := div10_times 8 n.

Fixpoint n_digits_loop (fuel : nat) (number count : Z) : outcome Z :=
  match fuel with
  | O => OutOfFuel
  | S fuel' =>
      let count := size_t (count + 1) in
      number ← div10 number;
      if number =? 0 then mret count else n_digits_loop fuel' number count
  end.

(** A 64-bit number has at most 20 digits. *)
Definition n_digits (number : Z) : outcome Z := n_digits_loop 20 number 0.

(** The loop over the digits of the integral part; [n] digits are left, and the
    next one is written at [amount_str + n - 1]. *)
Fixpoint integral_loop (n : nat) (out : list Z) (amount_str integral_part : Z) : outcome (list Z) :=
  match n with
  | O => mret out
  | S n' =>
      tmp_quotient ← div10 integral_part;
      let tmp_remainder := u8 (u64 (integral_part - u64 (10 * tmp_quotient))) in
      out ← store out (amount_str + Z.of_nat n') (48 + tmp_remainder);
      integral_loop n' out amount_str tmp_quotient
  end.

(** The text of ["%08u"]. *)
Definition printf_08u (x : Z) : list Z :=
  let t := decimal x in replicate (8 - length t) 48 ++ t.

(** The loop that drops trailing zeros, for [i] from [n] down to 1. *)
Fixpoint drop_zeros_loop (n : nat) (out : list Z) (fract_part_str : Z) : outcome (list Z) :=
  match n with
  | O => mret out
  | S n' =>
      c ← load out (fract_part_str + Z.of_nat n);
      if c =? 48 then
        out ← store out (fract_part_str + Z.of_nat n) 0;
        drop_zeros_loop n' out fract_part_str
      else mret out
  end.

(** [coin_name] is a C string, without its terminator; the result is the
    contents of [out]. *)
Definition format_sats_amount (coin_name : list Z) (amount : Z) (out : list Z) : outcome (list Z) :=
  let coin_name_len := zlen coin_name in
  let padding := replicate (Z.to_nat (MAX_AMOUNT_LENGTH + 1)) 0 in
  out ← stores out 0 (take (Z.to_nat (MAX_AMOUNT_LENGTH + 1)) (coin_name ++ padding));
  out ← store out coin_name_len 32;
  let amount_str := coin_name_len + 1 in
  integral_part ← div100000000 amount;
  let fractional_part := u32 (u64 (amount - u64 (integral_part * 100000000))) in
  integral_part_digit_count ← n_digits integral_part;
  out ← integral_loop (Z.to_nat integral_part_digit_count) out amount_str integral_part;
  if fractional_part =? 0 then store out (amount_str + integral_part_digit_count) 0
  else
    out ← store out (amount_str + integral_part_digit_count) 46;
    let fract_part_str := amount_str + integral_part_digit_count + 1 in
    out ← stores out fract_part_str (take 8 (printf_08u fractional_part) ++ [0]);
    drop_zeros_loop 7 out fract_part_str.

(** ** Quotients by ten *)
Lemma div10_loop_S fuel n low high :
  div10_loop (S fuel) n low high =
  let mid := u64 (low + high) / 2 in
  if (u64 (n - 10) <? u64 (mid * 10)) && (u64 (mid * 10) <=? n) then mret mid
  else if n <? u64 (mid * 10) then div10_loop fuel n low (u64 (mid - 1))
  else div10_loop fuel n (u64 (mid + 1)) high.
Proof. done. Qed.

Lemma div10_loop_correct k n low high :
  10 ≤ n < 2 ^ 64 → 0 ≤ low → low ≤ n / 10 ≤ high → high ≤ UINT64_MAX / 10 →
  high - low < 2 ^ Z.of_nat k → div10_loop (S k) n low high = Val (n / 10).
Proof.
  intros Hn. change (UINT64_MAX / 10) with 1844674407370955161. revert low high.
  induction k as [|k IH]; intros low high Hl Hm Hh Hk; rw div10_loop_S; cbv zeta;
    (rw (u64_small (low + high)); [|lia]); set (mid := (low + high) / 2);
    assert (low ≤ mid ≤ high ∧ 2 * mid ≤ low + high < 2 * mid + 2) as [Hmid Hmid2]
      by (unfold mid; Z.to_euclidean_division_equations; lia);
    (rw (u64_small (mid * 10)); [|lia]); (rw (u64_small (n - 10)); [|lia]);
    assert (n / 10 * 10 ≤ n < n / 10 * 10 + 10) as Hq by (Z.to_euclidean_division_equations; lia).
  - assert (mid = n / 10) as -> by (change (2 ^ Z.of_nat 0) with 1 in Hk; lia).
    rw (proj2 (Z.ltb_lt _ _)); [|lia]. by rw (proj2 (Z.leb_le _ _)); [|lia].
  - rewrite Nat2Z.inj_succ Z.pow_succ_r in Hk; [|lia].
    destruct (Z.ltb_spec (n - 10) (mid * 10)), (Z.leb_spec (mid * 10) n), (Z.ltb_spec n (mid * 10));
      cbn [andb]; try lia.
    + f_equal. lia.
    + rw u64_small; [|lia]. apply IH; lia.
    + rw u64_small; [|lia]. apply IH; lia.
Qed.

Lemma div10_correct n : 0 ≤ n < 2 ^ 64 → div10 n = Val (n / 10).
Proof.
  intros Hn. rw /div10. destruct (Z.ltb_spec n 10).
  - by rw Z.div_small; [|lia].
  - apply (div10_loop_correct 61); try done; try lia.
    change (UINT64_MAX / 10) with 1844674407370955161. Z.to_euclidean_division_equations; lia.
Qed.

Lemma div10_range n : 0 ≤ n < 2 ^ 64 → 0 ≤ n / 10 < 2 ^ 64.
Proof. intros. Z.to_euclidean_division_equations; lia. Qed.

Lemma div10_times_correct k n : 0 ≤ n < 2 ^ 64 → div10_times k n = Val (n / 10 ^ Z.of_nat k).
Proof.
  revert n. induction k as [|k IH]; intros n Hn; cbn [div10_times].
  { by rw Z.div_1_r. }
  rw div10_correct //=. rw IH; [|by apply div10_range].
  by rw Nat2Z.inj_succ Z.pow_succ_r; [|lia]; rw Z.div_div; [|lia|lia].
Qed.

(** ** Decimal digits *)

(** The last [n] digits of [x]. *)
Fixpoint fixed_digits (n : nat) (x : Z) : list Z :=
  match n with
  | O => []
  | S n' => fixed_digits n' (x / 10) ++ [48 + x `mod` 10]
  end.

Definition digit (c : Z) : Prop := 48 ≤ c ≤ 57.
Definition digits_value (l : list Z) : Z := foldl (λ r c, 10 * r + (c - 48)) 0 l.

Lemma digits_value_snoc l c : digits_value (l ++ [c]) = 10 * digits_value l + (c - 48).
Proof. by rw /digits_value foldl_app. Qed.

Lemma length_fixed_digits n x : length (fixed_digits n x) = n.
Proof. revert x. induction n as [|n IH]; intros x; [done|]. cbn. rw length_app IH /=. lia. Qed.

Lemma fixed_digits_digit n x : Forall digit (fixed_digits n x).
Proof.
  revert x. induction n as [|n IH]; intros x; [done|]. cbn. apply Forall_app. split; [apply IH|].
  constructor; [|done]. unfold digit. Z.to_euclidean_division_equations; lia.
Qed.

Lemma fixed_digits_value n x : 0 ≤ x < 10 ^ Z.of_nat n → digits_value (fixed_digits n x) = x.
Proof.
  revert x. induction n as [|n IH]; intros x; cbn [fixed_digits].
  { rw Z.pow_0_r. cbn. lia. }
  rw Nat2Z.inj_succ Z.pow_succ_r; [|lia]. intros Hx. rw digits_value_snoc IH.
  - Z.to_euclidean_division_equations; lia.
  - split; [apply Z.div_pos; lia|apply Z.div_lt_upper_bound; lia].
Qed.

Lemma div10_pow n x : 0 ≤ x < 10 ^ Z.of_nat (S n) → 0 ≤ x / 10 < 10 ^ Z.of_nat n.
Proof.
  rw Nat2Z.inj_succ Z.pow_succ_r; [|lia]. intros. split; [apply Z.div_pos; lia|apply Z.div_lt_upper_bound; lia].
Qed.

(** The decimal text is the digits, without leading zeros. *)
Lemma decimal_fuel_fixed f n x :
  0 ≤ x < 10 ^ Z.of_nat f → x < 10 ^ Z.of_nat n → (0 < n)%nat → (0 < f)%nat →
  (length (decimal_fuel f x) ≤ n)%nat ∧
  fixed_digits n x = replicate (n - length (decimal_fuel f x)) 48 ++ decimal_fuel f x.
Proof.
  revert n x. induction f as [|f IH]; intros n x Hx Hn H1 H2; [lia|]. cbn [decimal_fuel].
  destruct n as [|n]; [lia|]. cbn [fixed_digits]. destruct (Z.ltb_spec x 10).
  - rw Z.div_small; [|lia]. rw Z.mod_small; [|lia]. split; [cbn; lia|]. f_equal. cbn. rw Nat.sub_0_r.
    clear. induction n as [|n IHn]; [done|]. cbn [fixed_digits]. change (0 / 10) with 0. rw IHn.
    change [48 + 0 `mod` 10] with [48]. by rw -replicate_S_end.
  - destruct n as [|n]; [change (10 ^ Z.of_nat 1) with 10 in Hn; lia|].
    destruct f as [|f]; [change (10 ^ Z.of_nat 1) with 10 in Hx; lia|].
    destruct (IH (S n) (x / 10)) as [Hl He].
    + by apply div10_pow.
    + apply div10_pow. lia.
    + lia.
    + lia.
    + rw He length_app. cbn [length]. split; [lia|]. rw -app_assoc. do 2 f_equal. lia.
Qed.

Lemma decimal_fixed n x :
  0 ≤ x < 10 ^ 20 → x < 10 ^ Z.of_nat n → (0 < n)%nat →
  (length (decimal x) ≤ n)%nat ∧ fixed_digits n x = replicate (n - length (decimal x)) 48 ++ decimal x.
Proof. intros. apply decimal_fuel_fixed; try done. lia. Qed.

Lemma decimal_pos x : (0 < length (decimal x))%nat.
Proof.
  pose proof (decimal_fuel_nonempty 20 x ltac:(done)) as H. unfold decimal.
  destruct (decimal_fuel 20 x); [done|cbn; lia].
Qed.

Lemma decimal_lt x : 0 ≤ x < 10 ^ 20 → x < 10 ^ zlen (decimal x).
Proof.
  intros Hx. unfold decimal, zlen. assert (0 ≤ x < 10 ^ Z.of_nat 20) as Hx' by done. clear Hx. revert x Hx'.
  assert (0 < 20)%nat as H by lia. revert H. generalize 20%nat as f.
  induction f as [|f IH]; intros Hf x Hx; [lia|]. cbn [decimal_fuel].
  destruct (Z.ltb_spec x 10); [done|]. destruct f as [|f]; [change (10 ^ Z.of_nat 1) with 10 in Hx; lia|].
  rw length_app Nat2Z.inj_add Z.pow_add_r; [|lia..]. change (10 ^ Z.of_nat (length [48 + x `mod` 10])) with 10.
  pose proof (IH ltac:(lia) (x / 10) ltac:(by apply div10_pow)).
  Z.to_euclidean_division_equations; lia.
Qed.

Lemma decimal_is_fixed x : 0 ≤ x < 10 ^ 20 → decimal x = fixed_digits (length (decimal x)) x.
Proof.
  intros Hx. destruct (decimal_fixed (length (decimal x)) x) as [_ ->]; [done|by apply decimal_lt|apply decimal_pos|].
  by rw Nat.sub_diag.
Qed.

(** ** The text of an amount *)

(** A text denotes the amount it is the decimal number of, in units of 10^8:
    an integral part without superfluous zeros, and at most eight decimals
    without a trailing zero. *)
Definition denotes (t : list Z) (amount : Z) : Prop :=
  ∃ i f, t = i ++ (if decide (f = []) then [] else 46 :: f) ∧
    Forall digit i ∧ Forall digit f ∧ i ≠ [] ∧ (head i = Some 48 → i = [48]) ∧
    zlen f ≤ 8 ∧ last f ≠ Some 48 ∧
    digits_value i * 10 ^ 8 + digits_value f * 10 ^ (8 - zlen f) = amount.

Lemma split_point i f i' f' :
  Forall digit i → Forall digit i' →
  i ++ (if decide (f = []) then [] else 46 :: f) = i' ++ (if decide (f' = []) then [] else 46 :: f') →
  i = i' ∧ f = f'.
Proof.
  intros Hi. revert i'. induction Hi as [|c i Hc Hi IH]; intros i' Hi' Heq.
  - destruct Hi' as [|c' i' Hc' Hi']; cbn in Heq; repeat case_decide; simplify_eq; unfold digit in *;
      first [done|lia].
  - destruct Hi' as [|c' i' Hc' Hi']; cbn in Heq.
    + repeat case_decide; simplify_eq; unfold digit in *; lia.
    + injection Heq as -> Heq. destruct (IH i' Hi' Heq) as [-> ->]. done.
Qed.

(** A text denotes one amount only. *)
Lemma denotes_unique t a a' : denotes t a → denotes t a' → a = a'.
Proof.
  intros (i & f & -> & Hi & _ & _ & _ & _ & _ & <-) (i' & f' & Heq & Hi' & _ & _ & _ & _ & _ & <-).
  by destruct (split_point i f i' f' Hi Hi' Heq) as [-> ->].
Qed.

Lemma integral_loop_correct n out1 x out2 ip :
  length x = n → 0 ≤ ip < 2 ^ 64 →
  integral_loop n (out1 ++ x ++ out2) (zlen out1) ip = Val (out1 ++ fixed_digits n ip ++ out2).
Proof.
  revert x out2 ip. induction n as [|n IH]; intros x out2 ip Hx Hip; cbn [integral_loop fixed_digits].
  { by destruct x. }
  destruct x as [|c x _] using rev_ind; [done|]. rewrite length_app in Hx. cbn in Hx.
  rw div10_correct //. cbn [mbind outcome_bind].
  assert (u8 (u64 (ip - u64 (10 * (ip / 10)))) = ip `mod` 10) as ->.
  { rw (u64_small (10 * _)); [|Z.to_euclidean_division_equations; lia].
    replace (ip - 10 * (ip / 10)) with (ip `mod` 10) by (Z.to_euclidean_division_equations; lia).
    rw u64_small; [|Z.to_euclidean_division_equations; lia].
    apply u8_small. Z.to_euclidean_division_equations; lia. }
  replace (zlen out1 + Z.of_nat n) with (zlen (out1 ++ x)) by (rw zlen_app /zlen; lia).
  rw -(app_assoc x) (app_assoc out1) /= store_middle. cbn [mbind outcome_bind].
  rw -app_assoc IH; [|lia|by apply div10_range]. by rw -(app_assoc (fixed_digits n _)).
Qed.

Lemma n_digits_loop_correct fuel f x count :
  0 ≤ x < 2 ^ 64 → x < 10 ^ Z.of_nat fuel → x < 10 ^ Z.of_nat f → (0 < fuel)%nat → (0 < f)%nat →
  0 ≤ count < 2 ^ 31 - Z.of_nat f →
  n_digits_loop fuel x count = Val (count + zlen (decimal_fuel f x)).
Proof.
  revert f x count. induction fuel as [|fuel IH]; intros f x count Hx Hl Hf H0 H1 Hc; [lia|].
  destruct f as [|f]; [lia|]. cbn [n_digits_loop decimal_fuel]. rw div10_correct //. cbn [mbind outcome_bind].
  rw u32_small; [|lia]. destruct (Z.ltb_spec x 10).
  - by rw Z.div_small; [|lia].
  - rw (proj2 (Z.eqb_neq _ _)); [|Z.to_euclidean_division_equations; lia].
    destruct fuel as [|fuel]; [change (10 ^ Z.of_nat 1) with 10 in Hl; lia|].
    destruct f as [|f]; [change (10 ^ Z.of_nat 1) with 10 in Hf; lia|].
    rw (IH (S f)); [|by apply div10_range|apply div10_pow; lia|apply div10_pow; lia|lia..].
    f_equal. rw zlen_app. change (zlen [_]) with 1. lia.
Qed.

Lemma n_digits_correct x : 0 ≤ x < 2 ^ 64 → n_digits x = Val (zlen (decimal x)).
Proof. intros Hx. rw /n_digits /decimal (n_digits_loop_correct 20 20 x 0); first [done|lia]. Qed.

(** The loop keeps the first digit, and the others up to the last non-zero one. *)
Lemma drop_zeros_loop_correct n out1 c l z out2 :
  length l = n →
  ∃ l' k, l = l' ++ replicate k 48 ∧ last l' ≠ Some 48 ∧
    drop_zeros_loop n (out1 ++ (c :: l) ++ z ++ out2) (zlen out1) =
    Val (out1 ++ (c :: l') ++ replicate k 0 ++ z ++ out2).
Proof.
  revert l z. induction n as [|n IH]; intros l z Hl.
  { destruct l; [|done]. by exists [], O. }
  destruct l as [|d l _] using rev_ind; [done|]. rewrite length_app in Hl. cbn in Hl.
  cbn [drop_zeros_loop].
  assert (∀ w, out1 ++ (c :: l ++ [w]) ++ z ++ out2 = (out1 ++ c :: l) ++ w :: z ++ out2) as Hassoc.
  { intros w. by rw -!app_assoc /= -app_assoc. }
  replace (zlen out1 + Z.of_nat (S n)) with (zlen (out1 ++ c :: l)) by (rw zlen_app zlen_cons /zlen; lia).
  rw Hassoc load_middle. cbn [mbind outcome_bind]. destruct (Z.eqb_spec d 48) as [->|Hd].
  - rw store_middle. cbn [mbind outcome_bind]. rw -Hassoc.
    destruct (IH l (0 :: z)) as (l' & k & -> & Hlast & He); [lia|].
    exists l', (S k). rw replicate_S_end app_assoc. split_and!; [done|done|].
    assert (∀ u, out1 ++ (c :: u ++ [0]) ++ z ++ out2 = out1 ++ (c :: u) ++ (0 :: z) ++ out2) as Hz.
    { intros u. by rw /= -app_assoc. }
    rw Hz. rewrite He. by rw replicate_S_end -!app_assoc.
  - exists (l ++ [d]), O. rw app_nil_r last_snoc -Hassoc. split_and!; [done|naive_solver|done].
Qed.

Lemma digit_nonzero l : Forall digit l → Forall (λ c, c ≠ 0) l.
Proof. intros H. eapply Forall_impl; [exact H|]. unfold digit. lia. Qed.

Lemma digits_value_zeros l k : digits_value (l ++ replicate k 48) = digits_value l * 10 ^ Z.of_nat k.
Proof.
  induction k as [|k IH]; [rw app_nil_r; lia|]. rw replicate_S_end app_assoc digits_value_snoc IH.
  rw Nat2Z.inj_succ Z.pow_succ_r; lia.
Qed.

Lemma digits_value_zeros_l l k : digits_value (replicate k 48 ++ l) = digits_value l.
Proof. rw /digits_value foldl_app. f_equal. induction k as [|k IH]; [done|]. by cbn. Qed.

Lemma printf_08u_fixed f : 0 ≤ f < 10 ^ 8 → printf_08u f = fixed_digits 8 f.
Proof. intros. rw /printf_08u. by destruct (decimal_fixed 8 f) as [_ ->]; [lia|change (10 ^ Z.of_nat 8) with (10 ^ 8); lia|lia|]. Qed.

(** The decimals are written after [out1], with a terminator behind them. *)
Lemma fraction_correct out1 m out2 f :
  0 < f < 10 ^ 8 → (10 ≤ m)%nat →
  ∃ ds rest,
    (out ← store (out1 ++ replicate m 0 ++ out2) (zlen out1) 46;
     out ← stores out (zlen out1 + 1) (take 8 (printf_08u f) ++ [0]);
     drop_zeros_loop 7 out (zlen out1 + 1)) = Val (out1 ++ 46 :: ds ++ 0 :: rest) ∧
    length (46 :: ds ++ 0 :: rest) = length (replicate m 0 ++ out2) ∧
    Forall digit ds ∧ ds ≠ [] ∧ zlen ds ≤ 8 ∧ last ds ≠ Some 48 ∧
    digits_value ds * 10 ^ (8 - zlen ds) = f.
Proof.
  intros Hf Hm. rw printf_08u_fixed; [|lia]. rw take_ge; [|by rw length_fixed_digits].
  destruct m as [|m]; [lia|]. rw replicate_S. cbn [app]. rw store_middle. cbn [mbind outcome_bind].
  replace (zlen out1 + 1) with (zlen (out1 ++ [46])) by (rw zlen_app; done).
  replace m with (9 + (m - 9))%nat by lia. rw replicate_add.
  replace (out1 ++ 46 :: (replicate 9 0 ++ replicate (m - 9) 0) ++ out2)
    with ((out1 ++ [46]) ++ replicate 9 0 ++ replicate (m - 9) 0 ++ out2) by (by rw -!app_assoc).
  rw stores_middle; [|by rw length_app length_fixed_digits]. cbn [mbind outcome_bind].
  pose proof (length_fixed_digits 8 f) as Hlen. pose proof (fixed_digits_digit 8 f) as Hdig.
  pose proof (fixed_digits_value 8 f ltac:(change (Z.of_nat 8) with 8; lia)) as Hval.
  destruct (fixed_digits 8 f) as [|c l]; [done|]. cbn [length] in Hlen.
  destruct (drop_zeros_loop_correct 7 (out1 ++ [46]) c l [0] (replicate (m - 9) 0 ++ out2)) as (l' & k & -> & Hlast & He).
  { lia. }
  rw -(app_assoc _ [0]) He. rewrite length_app length_replicate in Hlen.
  assert (∃ rest, replicate k 0 ++ [0] ++ replicate (m - 9) 0 ++ out2 = 0 :: rest) as [rest Hrest].
  { destruct k; by eexists. }
  exists (c :: l'), rest.
  rw -app_assoc Hrest. change (c :: l' ++ replicate k 48) with ((c :: l') ++ replicate k 48) in Hval, Hdig.
  rewrite digits_value_zeros in Hval. apply Forall_app in Hdig as [Hdig _].
  assert (8 - zlen (c :: l') = Z.of_nat k) as Hk by (rw zlen_cons /zlen; lia).
  split_and!; [done| |done|done|rw zlen_cons /zlen; lia| |by rw Hk].
  - apply (f_equal length) in Hrest. revert Hrest. rw /= !length_app !length_replicate /=.
    rw !length_app !length_replicate /=. lia.
  - destruct l' as [|d l']; [|by rewrite last_cons_cons]. intros [= ->]. rewrite /digits_value /= in Hval. lia.
Qed.

(** The array before the digits are written. *)
Lemma amount_prefix coin_name out :
  zlen coin_name ≤ 5 → MAX_AMOUNT_LENGTH + 1 ≤ zlen out →
  (out ← stores out 0 (take (Z.to_nat (MAX_AMOUNT_LENGTH + 1))
                          (coin_name ++ replicate (Z.to_nat (MAX_AMOUNT_LENGTH + 1)) 0));
   store out (zlen coin_name) 32) =
  Val ((coin_name ++ [32]) ++ replicate (27 - length coin_name) 0 ++ drop 28 out).
Proof.
  unfold MAX_AMOUNT_LENGTH, zlen. intros Hc Ho. change (Z.to_nat (5 + 1 + 20 + 1 + 1)) with 28%nat.
  rw take_app_ge; [|lia]. rw take_replicate. replace (28 - length coin_name)%nat with (S (27 - length coin_name)) by lia.
  rw Nat.min_l; [|lia]. rw stores_in_range; [|lia|rw zlen_app /zlen length_replicate; lia].
  cbn [mbind outcome_bind]. change (Z.to_nat 0) with O. rw take_0 length_app length_replicate.
  replace (0 + (length coin_name + S (27 - length coin_name)))%nat with 28%nat by lia.
  rw replicate_S -app_assoc /=. rw -/(zlen coin_name) store_middle. by rw -app_assoc.
Qed.

Lemma decimal_shape x : 0 ≤ x < 10 ^ 20 →
  Forall digit (decimal x) ∧ digits_value (decimal x) = x ∧ (head (decimal x) = Some 48 → decimal x = [48]).
Proof.
  intros Hx. split_and!.
  - rw decimal_is_fixed //. apply fixed_digits_digit.
  - rw {1}decimal_is_fixed //. apply fixed_digits_value. split; [lia|]. by apply decimal_lt.
  - unfold decimal. assert (0 ≤ x < 10 ^ Z.of_nat 20) as Hx' by done. clear Hx. revert x Hx'.
    generalize 20%nat as f. induction f as [|f IH]; intros x Hx; [done|]. cbn [decimal_fuel].
    destruct (Z.ltb_spec x 10); [by intros [= ->]|].
    destruct f as [|f]; [change (10 ^ Z.of_nat 1) with 10 in Hx; lia|].
    intros Hh. exfalso. pose proof (decimal_fuel_nonempty (S f) (x / 10) ltac:(done)) as Hne.
    destruct (decimal_fuel (S f) (x / 10)) as [|d l] eqn:Hd; [done|]. injection Hh as ->.
    specialize (IH (x / 10) ltac:(by apply div10_pow)). rewrite Hd in IH. specialize (IH eq_refl).
    pose proof (f_equal digits_value Hd) as Hv. rewrite IH in Hv.
    destruct (decimal_fuel_fixed (S f) (S f) (x / 10)) as [_ He]; [by apply div10_pow|apply div10_pow; lia|lia|lia|].
    pose proof (fixed_digits_value (S f) (x / 10) ltac:(by apply div10_pow)) as Hfv.
    rewrite He Hd IH digits_value_zeros_l in Hfv. cbn in Hfv. Z.to_euclidean_division_equations; lia.
Qed.

Lemma amount_string coin_name t l :
  Forall (λ c, c ≠ 0) coin_name → Forall (λ c, c ≠ 0) t →
  c_string (((coin_name ++ [32]) ++ t) ++ 0 :: l) = coin_name ++ [32] ++ t.
Proof.
  intros Hc Ht. rw c_string_app; [by rw -app_assoc|]. rw !Forall_app. repeat split; [done|by constructor|done].
Qed.

(** The text of an integral part and decimals. *)
Lemma denotes_text ip ds f :
  0 ≤ ip < 10 ^ 12 → Forall digit ds → zlen ds ≤ 8 → last ds ≠ Some 48 →
  digits_value ds * 10 ^ (8 - zlen ds) = f →
  let t := decimal ip ++ (if decide (ds = []) then [] else 46 :: ds) in
  Forall (λ c, c ≠ 0) t ∧ denotes t (ip * 10 ^ 8 + f) ∧ (∀ a, denotes t a → a = ip * 10 ^ 8 + f).
Proof.
  intros Hip Hds H8 Hl Hf t. destruct (decimal_shape ip) as (Hd & Hv & Hz); [lia|].
  assert (denotes t (ip * 10 ^ 8 + f)) as Ht.
  { exists (decimal ip), ds. split_and!; try done; [|lia].
    intros He. pose proof (decimal_pos ip) as Hp. rewrite He in Hp. cbn in Hp. lia. }
  split_and!; [|done|].
  - apply Forall_app. split; [by apply digit_nonzero|]. case_decide; [done|]. constructor; [done|]. by apply digit_nonzero.
  - intros a Ha. by apply (denotes_unique t).
Qed.

(** C28: the amounts and fees that the user confirms are exact.  For every
    64-bit amount, [format_sats_amount] terminates, writes inside of its output
    only, and leaves the string made of the ticker, a space and the decimal
    number of the amount in units of 10^8, without superfluous zeros.  Another
    amount never has the same text. *)
Theorem format_sats_amount_correct coin_name amount out :
  Forall (λ c, c ≠ 0) coin_name → zlen coin_name ≤ 5 → 0 ≤ amount < 2 ^ 64 →
  MAX_AMOUNT_LENGTH + 1 ≤ zlen out →
  ∃ out' t, format_sats_amount coin_name amount out = Val out' ∧ zlen out' = zlen out ∧
    c_string out' = coin_name ++ [32] ++ t ∧ denotes t amount ∧ (∀ a, denotes t a → a = amount).
Proof.
  intros Hc Hlen Ha Ho. pose proof (amount_prefix coin_name out Hlen Ho) as Hpre.
  rw /format_sats_amount /div100000000.
  destruct (stores out 0 _) as [out0| | |]; cbn [mbind outcome_bind] in Hpre |- *; try done. rw Hpre. clear Hpre out0.
  cbn [mbind outcome_bind]. rw div10_times_correct //. cbn [mbind outcome_bind].
  change (10 ^ Z.of_nat 8) with 100000000.
  set (ip := amount / 100000000). set (f := amount `mod` 100000000).
  assert (0 ≤ ip < 10 ^ 12 ∧ 0 ≤ f < 10 ^ 8 ∧ amount = ip * 10 ^ 8 + f) as (Hip & Hf & Hamount).
  { unfold ip, f. Z.to_euclidean_division_equations; lia. }
  rw (u64_small (ip * _)); [|lia]. replace (amount - ip * 100000000) with f by lia.
  rw u64_small; [|lia]. rw u32_small; [|lia]. clearbody ip f.
  rw n_digits_correct; [|lia]. cbn [mbind outcome_bind]. rw zlen_length.
  destruct (decimal_fixed 12 ip) as [Hk _]; [lia|change (Z.of_nat 12) with 12; lia|lia|].
  pose proof (decimal_pos ip). set (k := length (decimal ip)) in *.
  assert (27 - length coin_name = k + (27 - length coin_name - k))%nat as -> by (unfold zlen in Hlen; lia).
  rw replicate_add. replace (zlen coin_name + 1) with (zlen (coin_name ++ [32])) by (by rw zlen_app).
  rw -(app_assoc (replicate k 0)) integral_loop_correct; [|by rw length_replicate|lia].
  cbn [mbind outcome_bind]. unfold k at 1. rw -decimal_is_fixed; [|lia].
  replace (zlen (coin_name ++ [32]) + zlen (decimal ip)) with (zlen ((coin_name ++ [32]) ++ decimal ip)) by (by rw zlen_app).
  rw (app_assoc (coin_name ++ [32])). unfold zlen in Hlen, Ho. unfold MAX_AMOUNT_LENGTH in Ho.
  destruct (Z.eqb_spec f 0) as [->|Hf0].
  - assert (27 - length coin_name - k = S (26 - length coin_name - k))%nat as -> by lia.
    rw replicate_S. cbn [app]. rw store_middle. eexists _, (decimal ip). split; [done|]. split.
    { rw /zlen !length_app /= length_app length_replicate length_drop -/k. lia. }
    destruct (denotes_text ip [] 0) as (Hnz & Hden); [lia|done..|]. cbn in Hnz, Hden. rewrite app_nil_r in Hnz, Hden.
    rw amount_string //. by rw Hamount.
  - destruct (fraction_correct ((coin_name ++ [32]) ++ decimal ip) (27 - length coin_name - k) (drop 28 out) f)
      as (ds & rest & -> & Hl & Hds & Hne & H8 & Hlst & Hval); [lia|lia|].
    eexists _, (decimal ip ++ 46 :: ds). split; [done|]. split.
    { rw /zlen length_app Hl !length_app length_replicate length_drop -/k. cbn [length]. lia. }
    destruct (denotes_text ip ds f) as (Hnz & Hden); [lia|done..|]. rewrite decide_False // in Hnz, Hden.
    rw (app_comm_cons ds) (app_assoc _ (46 :: ds)) -(app_assoc (coin_name ++ [32])) amount_string //. by rw Hamount.
Qed.

Lemma format_sats_amount_correct_witness :
  ∃ out' t, format_sats_amount [83; 89; 83] 123450000 (replicate 28 7) = Val out' ∧ zlen out' = 28 ∧
    c_string out' = [83; 89; 83] ++ [32] ++ t ∧ denotes t 123450000 ∧ (∀ a, denotes t a → a = 123450000).
Proof.
  apply (format_sats_amount_correct [83; 89; 83] 123450000 (replicate 28 7)).
  - repeat constructor; lia.
  - done.
  - lia.
  - done.
Defined.
