(* ===== verification/Base58.v ===== *)
(** * Base 58

    Models src/src/common/base58.c: the conversions between byte strings and
    their base-58 text.  Both work on arrays of digits by repeated division
    or multiplication; the theorems state them on the numbers that the arrays
    represent, and the round trip follows. *)

From S2P Require Import Prelude Bytes.

Definition MAX_DEC_INPUT_SIZE : Z := 164.
Definition MAX_ENC_INPUT_SIZE : Z := 120.

Definition BASE58_TABLE_TRIMMED : list Z :=
  [0x00; 0x01; 0x02; 0x03; 0x04; 0x05; 0x06; 0x07; 0x08; 0xFF; 0xFF;
   0xFF; 0xFF; 0xFF; 0xFF; 0xFF; 0x09; 0x0A; 0x0B; 0x0C; 0x0D; 0x0E; 0x0F;
   0x10; 0xFF; 0x11; 0x12; 0x13; 0x14; 0x15; 0xFF; 0x16; 0x17; 0x18; 0x19;
   0x1A; 0x1B; 0x1C; 0x1D; 0x1E; 0x1F; 0x20; 0xFF; 0xFF; 0xFF; 0xFF; 0xFF;
   0xFF; 0x21; 0x22; 0x23; 0x24; 0x25; 0x26; 0x27; 0x28; 0x29; 0x2A; 0x2B;
   0xFF; 0x2C; 0x2D; 0x2E; 0x2F; 0x30; 0x31; 0x32; 0x33; 0x34; 0x35; 0x36;
   0x37; 0x38; 0x39].

(** The characters 1-9, A-H, J-N, P-Z, a-k, m-z. *)
Definition BASE58_ALPHABET : list Z :=
  [49; 50; 51; 52; 53; 54; 55; 56; 57; 65; 66; 67; 68; 69; 70;
   71; 72; 74; 75; 76; 77; 78; 80; 81; 82; 83; 84; 85; 86; 87;
   88; 89; 90; 97; 98; 99; 100; 101; 102; 103; 104; 105; 106; 107; 109;
   110; 111; 112; 113; 114; 115; 116; 117; 118; 119; 120; 121; 122].

(** ** Decoding *)

(** The loop that replaces each character by its digit; [None] is a character
    outside of the alphabet. *)
Fixpoint translate (in_ : list Z) : outcome (option (list Z)) :=
  match in_ with
  | [] => mret (Some [])
  | c :: in_ =>
      let pos_trimmed := c - 49 in
      if (pos_trimmed <? 0) || (zlen BASE58_TABLE_TRIMMED <=? pos_trimmed) then mret None
      else
        d ← load BASE58_TABLE_TRIMMED pos_trimmed;
        if d =? 0xFF then mret None
        else r ← translate in_; mret (cons d <$> r)
  end.

(** The loops that count the zeros at the start of an array. *)
Fixpoint leading_zeros (l : list Z) : Z :=
  match l with
  | 0 :: l' => 1 + leading_zeros l'
  | _ => 0
  end.

(** The loop over [div_loop]: one division by 256 of the digits. *)
Fixpoint div_pass (l : list Z) (remainder : Z) : list Z * Z :=
  match l with
  | [] => ([], remainder)
  | digit256 :: l' =>
      let tmp_div := u16 (remainder * 58 + digit256) in
      let '(q, r) := div_pass l' (tmp_div `mod` 256) in
      (u8 (tmp_div / 256) :: q, r)
  end.

(** The loop [while (start_at < in_len)]; [tmp] and [buffer] are the first
    [in_len] cells of the arrays of the code, which are the ones it uses. *)
Fixpoint decode_loop (fuel : nat) (tmp buffer : list Z) (in_len start_at j : Z) : outcome (list Z * Z) :=
  match fuel with
  | O => OutOfFuel
  | S fuel' =>
      if negb (start_at <? in_len) then mret (buffer, j)
      else
        let '(suffix, remainder) := div_pass (drop (Z.to_nat start_at) tmp) 0 in
        let tmp := take (Z.to_nat start_at) tmp ++ suffix in
        d ← load tmp start_at;
        buffer ← store buffer (u8 (j - 1)) (u8 remainder);
        decode_loop fuel' tmp buffer in_len (if d =? 0 then u8 (start_at + 1) else start_at) (u8 (j - 1))
  end.

(** [None] is the result -1; otherwise the bytes written to [out]. *)
Definition base58_decode (in_ : list Z) (in_len out_len : Z) : outcome (option (list Z)) :=
  if (MAX_DEC_INPUT_SIZE <? in_len) || (in_len <? 2) then mret None else
  src ← loads in_ 0 in_len;
  t ← translate src;
  match t with
  | None => mret None
  | Some tmp =>
      let zero_count := leading_zeros tmp in
      '(buffer, j) ← decode_loop (S (Z.to_nat in_len)) tmp (replicate (Z.to_nat in_len) 0)
                       in_len zero_count in_len;
      let j := j + leading_zeros (drop (Z.to_nat j) buffer) in
      let length := in_len - (j - zero_count) in
      if out_len <? length then mret None
      else out ← loads buffer (j - zero_count) length; mret (Some out)
  end.

(** ** Encoding *)

(** The loop over [j]: multiplies the digits by 256 and adds the carry; the
    result has the value of [j] at its end. *)
Fixpoint encode_pass (j : nat) (buffer : list Z) (carry stop_at : Z) : outcome (list Z * Z) :=
  cell ← load buffer (Z.of_nat j);
  let carry := u32 (carry + 256 * cell) in
  buffer ← store buffer (Z.of_nat j) (carry `mod` 58);
  let carry := carry / 58 in
  if (Z.of_nat j <=? size_t (stop_at - 1)) && (carry =? 0) then mret (buffer, Z.of_nat j)
  else
    match j with
    | O => mret (buffer, size_t (-1))
    | S j' => encode_pass j' buffer carry stop_at
    end.

Fixpoint encode_loop (bytes buffer : list Z) (output_size stop_at : Z) : outcome (list Z) :=
  match bytes with
  | [] => mret buffer
  | b :: bytes' =>
      '(buffer, stop_at) ← encode_pass (Z.to_nat (output_size - 1)) buffer b stop_at;
      encode_loop bytes' buffer output_size stop_at
  end.

(** The loop that writes the characters of the digits. *)
Fixpoint to_alphabet (digits : list Z) : outcome (list Z) :=
  match digits with
  | [] => mret []
  | d :: digits' => c ← load BASE58_ALPHABET d; r ← to_alphabet digits'; mret (c :: r)
  end.

(** [buffer] is the first [output_size] cells of the array of the code.
    [None] is the result -1; otherwise the characters written to [out]. *)
Definition base58_encode (in_ : list Z) (in_len out_len : Z) : outcome (option (list Z)) :=
  if MAX_ENC_INPUT_SIZE <? in_len then mret None else
  src ← loads in_ 0 in_len;
  let zero_count := leading_zeros src in
  let output_size := (in_len - zero_count) * 138 / 100 + 1 in
  buffer ← encode_loop (drop (Z.to_nat zero_count) src) (replicate (Z.to_nat output_size) 0)
             output_size (output_size - 1);
  let j := leading_zeros buffer in
  if out_len <? zero_count + output_size - j then mret None
  else
    one ← load BASE58_ALPHABET 0;
    text ← to_alphabet (drop (Z.to_nat j) buffer);
    mret (Some (replicate (Z.to_nat zero_count) one ++ text)).

(** ** Numbers as lists of digits, most significant first *)
Definition digit_ok (base d : Z) : Prop := 0 ≤ d < base.
Global Instance digit_ok_dec base d : Decision (digit_ok base d).
Proof. unfold digit_ok. apply _. Defined.
Abbreviation digits_ok base := (Forall (digit_ok base)).

Definition digits_val (base : Z) (l : list Z) : Z := foldl (λ acc d, acc * base + d) 0 l.

Lemma digits_val_acc base l a :
  foldl (λ acc d, acc * base + d) a l = a * base ^ zlen l + digits_val base l.
Proof.
  rw /digits_val. revert a. induction l as [|d l IH]; intros a; cbn [foldl]; [rw zlen_nil Z.pow_0_r; lia|].
  rw IH (IH (0 * base + d)) zlen_cons Z.pow_add_r; [|lia|apply zlen_nonneg]. lia.
Qed.

Lemma digits_val_cons base d l : digits_val base (d :: l) = d * base ^ zlen l + digits_val base l.
Proof. rw /digits_val. cbn [foldl]. rw digits_val_acc. rw Z.mul_0_l. done. Qed.

Lemma digits_val_app base l1 l2 :
  digits_val base (l1 ++ l2) = digits_val base l1 * base ^ zlen l2 + digits_val base l2.
Proof. by rw {1}/digits_val foldl_app digits_val_acc. Qed.

Lemma digits_val_zeros base n : digits_val base (replicate n 0) = 0.
Proof. induction n as [|n IH]; [done|]. cbn [replicate]. rw digits_val_cons IH. lia. Qed.

Lemma leading_zeros_range l : 0 ≤ leading_zeros l ≤ zlen l.
Proof. induction l as [|[|d|d] l IH]; cbn [leading_zeros]; zlia. Qed.

(** The digits of a list without the zeros at its start. *)
Definition strip (l : list Z) : list Z := drop (Z.to_nat (leading_zeros l)) l.

Lemma strip_cons_0 l : strip (0 :: l) = strip l.
Proof.
  rw /strip. cbn [leading_zeros]. pose proof (leading_zeros_range l).
  by replace (Z.to_nat (1 + _)) with (S (Z.to_nat (leading_zeros l))) by lia.
Qed.

Lemma leading_split l : l = replicate (Z.to_nat (leading_zeros l)) 0 ++ strip l.
Proof.
  induction l as [|[|d|d] l IH]; [done| |done..]. rw strip_cons_0. cbn [leading_zeros].
  pose proof (leading_zeros_range l).
  replace (Z.to_nat (1 + _)) with (S (Z.to_nat (leading_zeros l))) by lia. cbn. by f_equal.
Qed.

Lemma strip_leading l : leading_zeros (strip l) = 0.
Proof. induction l as [|[|d|d] l IH]; [done|by rw strip_cons_0|done..]. Qed.

Lemma strip_val base l : digits_val base (strip l) = digits_val base l.
Proof. rw {2}(leading_split l) digits_val_app digits_val_zeros. lia. Qed.

Lemma leading_zeros_app n l : leading_zeros (replicate n 0 ++ l) = Z.of_nat n + leading_zeros l.
Proof. induction n as [|n IH]; [done|]. cbn [replicate app leading_zeros]. rw IH. lia. Qed.

Lemma strip_zlen l : zlen (strip l) = zlen l - leading_zeros l.
Proof. rw /strip zlen_drop //. apply leading_zeros_range. Qed.

Section digits.
Context (base : Z) (Hbase : 1 < base).

Lemma digits_val_range l : digits_ok base l → 0 ≤ digits_val base l < base ^ zlen l.
Proof.
  induction 1 as [|d l Hd Hl IH]; [done|]. rw digits_val_cons zlen_cons Z.pow_add_r; [|lia|apply zlen_nonneg].
  rw /digit_ok in Hd. nia.
Qed.

Lemma digits_val_inj l l' :
  digits_ok base l → digits_ok base l' → zlen l = zlen l' →
  digits_val base l = digits_val base l' → l = l'.
Proof.
  intros Hl. revert l'. induction Hl as [|d l Hd Hl IH]; intros l' Hl' Hlen Hv.
  { destruct l'; [done|]. rewrite zlen_cons zlen_nil in Hlen. zlia. }
  destruct Hl' as [|d' l' Hd' Hl']; [rewrite zlen_cons zlen_nil in Hlen; zlia|].
  rewrite !zlen_cons in Hlen. rewrite !digits_val_cons in Hv.
  assert (zlen l = zlen l') as Hlen' by lia. rewrite Hlen' in Hv.
  pose proof (digits_val_range l Hl) as H1. pose proof (digits_val_range l' Hl') as H2. rewrite Hlen' in H1.
  assert (d = d') as -> by nia. f_equal. apply IH; [done|lia|lia].
Qed.

Lemma digits_val_nonzero d l :
  digits_ok base (d :: l) → d ≠ 0 → base ^ zlen l ≤ digits_val base (d :: l).
Proof.
  intros Hl Hd. apply Forall_cons in Hl as [Hdo Hl]. rw digits_val_cons.
  pose proof (digits_val_range l Hl). rw /digit_ok in Hdo. nia.
Qed.

(** A list of digits is determined by its value and the number of zeros at
    its start. *)
Lemma stripped_inj l l' :
  digits_ok base l → digits_ok base l' → leading_zeros l = 0 → leading_zeros l' = 0 →
  digits_val base l = digits_val base l' → l = l'.
Proof.
  intros Hl Hl' Hz Hz' Hv. apply digits_val_inj; [done..| |done].
  assert (∀ k k', digits_ok base k → digits_ok base k' → leading_zeros k = 0 →
    digits_val base k = digits_val base k' → zlen k ≤ zlen k') as Hle.
  { intros k k' Hk Hk' Hkz Hkv. destruct k as [|d k]; [apply zlen_nonneg|].
    assert (d ≠ 0) by (intros ->; cbn in Hkz; pose proof (leading_zeros_range k); lia).
    pose proof (digits_val_nonzero d k Hk ltac:(done)). pose proof (digits_val_range k' Hk').
    rw zlen_cons. destruct (decide (zlen k < zlen k')); [lia|].
    pose proof (Z.pow_le_mono_r base (zlen k') (zlen k) ltac:(lia) ltac:(lia)). lia. }
  apply Z.le_antisymm; by apply Hle.
Qed.

Lemma leading_val_inj l l' :
  digits_ok base l → digits_ok base l' → leading_zeros l = leading_zeros l' →
  digits_val base l = digits_val base l' → l = l'.
Proof.
  intros Hl Hl' Hz Hv. rw (leading_split l) (leading_split l') Hz. f_equal.
  apply stripped_inj; [by apply Forall_drop|by apply Forall_drop|by rw strip_leading|by rw strip_leading|].
  by rw !strip_val.
Qed.
End digits.

(** ** Decoding is the conversion from base 58 to base 256 *)
Lemma div_pass_spec l : ∀ r,
  digits_ok 58 l → 0 ≤ r < 256 →
  ∃ q r', div_pass l r = (q, r') ∧ digits_ok 58 q ∧ 0 ≤ r' < 256 ∧ zlen q = zlen l ∧
    r * 58 ^ zlen l + digits_val 58 l = 256 * digits_val 58 q + r' ∧
    (r = 0 → head q = (λ _, 0) <$> head l).
Proof.
  induction l as [|d l IH]; intros r Hl Hr.
  { exists [], r. rw zlen_nil Z.pow_0_r. split_and!; cbn; done || lia. }
  apply Forall_cons in Hl as [Hd Hl]. rw /digit_ok in Hd.
  set (t := r * 58 + d). assert (0 ≤ t < 14848) as Ht by lia.
  pose proof (Z.div_mod t 256 ltac:(done)) as Hdm. pose proof (Z.mod_pos_bound t 256 ltac:(done)) as Hm.
  destruct (IH (t `mod` 256) Hl Hm) as (q & r' & Hp & Hq & Hr' & Hlen & Hv & _).
  assert (0 ≤ t / 256 < 58) as Hd256.
  { split; [apply Z.div_pos; lia|apply Z.div_lt_upper_bound; lia]. }
  exists (t / 256 :: q), r'. cbn [div_pass]. rw -/t (u16_small t); [|lia]. rw Hp u8_small; [|lia].
  split_and!; [done|by constructor|lia|lia|by rw !zlen_cons Hlen| |].
  - rw !digits_val_cons zlen_cons Z.pow_add_r; [|lia|apply zlen_nonneg]. rw Hlen.
    pose proof (zlen_nonneg l). nia.
  - intros ->. cbn. f_equal. apply Z.div_small. lia.
Qed.

Lemma store_zeros n (l : list Z) b :
  store (replicate (S n) 0 ++ l) (Z.of_nat n) b = Val (replicate n 0 ++ b :: l).
Proof.
  rw /store decide_True.
  - rw Nat2Z.id replicate_S_end -assoc insert_app_r_alt ?length_replicate //. by rw Nat.sub_diag.
  - rw zlen_app {1}/zlen length_replicate. pose proof (zlen_nonneg l). lia.
Qed.

Lemma decode_loop_spec n : ∀ suf pre tail zc fuel,
  length suf = n → (n < fuel)%nat → digits_ok 58 suf → digits_ok 256 tail →
  zlen pre + zlen suf < 256 → (n + zc < 256)%nat →
  ∃ tail', decode_loop fuel (pre ++ suf) (replicate (n + zc) 0 ++ tail)
             (zlen pre + zlen suf) (zlen pre) (Z.of_nat (n + zc)) =
             Val (replicate zc 0 ++ tail', Z.of_nat zc) ∧
    digits_ok 256 tail' ∧ zlen tail' = zlen suf + zlen tail ∧
    digits_val 256 tail' = digits_val 58 suf * 256 ^ zlen tail + digits_val 256 tail.
Proof.
  induction n as [|n IH]; intros suf pre tail zc fuel Hn Hf Hs Ht Hlen Hz.
  { apply nil_length_inv in Hn as ->. exists tail. destruct fuel; [lia|]. cbn [decode_loop].
    rw zlen_nil. rw (proj2 (Z.ltb_ge _ _)); [|lia]. split_and!; [done..|zlia|cbn; lia]. }
  destruct suf as [|d suf]; [done|]. cbn in Hn. injection Hn as Hn.
  destruct fuel as [|fuel]; [lia|]. cbn [decode_loop].
  rw (proj2 (Z.ltb_lt _ _)); [|zlia]. cbn [negb]. rw zlen_length drop_app_length take_app_length.
  destruct (div_pass_spec (d :: suf) 0 Hs ltac:(lia)) as (q & r & -> & Hq & Hr & Hql & Hv & Hh).
  specialize (Hh eq_refl). destruct q as [|d' q]; [done|]. cbn in Hh. injection Hh as ->.
  apply Forall_cons in Hq as [_ Hq]. rewrite !zlen_cons in Hql. rewrite (digits_val_cons 58 0 q) in Hv.
  rw (_ : load (pre ++ 0 :: q) (zlen pre) = Val 0).
  2: { rewrite -{1}(Z.add_0_r (zlen pre)). by rw load_app_r. }
  cbn [mbind outcome_bind]. pose proof (zlen_nonneg pre). rewrite zlen_cons in Hlen *.
  pose proof (zlen_nonneg suf).
  rw (u8_small (_ - 1)); [|lia]. replace (Z.of_nat (S n + zc) - 1) with (Z.of_nat (n + zc)) by lia.
  change (S n + zc)%nat with (S (n + zc)). rw store_zeros. cbn [mbind outcome_bind Z.eqb].
  rw (u8_small r); [|lia]. rw (u8_small (zlen pre + 1)); [|lia].
  destruct (IH q (pre ++ [0]) (r :: tail) zc fuel) as (tail' & Hl & Hok & Hlen' & Hv');
    [unfold zlen in *; lia|lia|done|by constructor|zlia|lia|].
  exists tail'. rewrite !zlen_app -assoc in Hl. replace (zlen [0]) with 1 in Hl by done.
  replace (zlen pre + (1 + zlen suf)) with (zlen pre + 1 + zlen q) by lia.
  split_and!; [done|done|rw Hlen' zlen_cons; lia|].
  rewrite digits_val_cons zlen_cons in Hv'. rewrite Z.pow_add_r in Hv'; [|lia|apply zlen_nonneg].
  assert (digits_val 58 (d :: suf) = 256 * digits_val 58 q + r) as -> by lia.
  rw Hv'. change (256 ^ 1) with 256. lia.
Qed.

(** The text of a list of digits. *)
Definition alpha (d : Z) : Z := default 0 (BASE58_ALPHABET !! Z.to_nat d).

Lemma digit_58 (P : Z → Prop) :
  Forall P (seqZ 0 58) → ∀ d, digit_ok 58 d → P d.
Proof. intros H d Hd. rw Forall_forall in H. apply H, elem_of_seqZ. rw /digit_ok in Hd. lia. Qed.

Lemma load_alpha d : digit_ok 58 d → load BASE58_ALPHABET d = Val (alpha d).
Proof.
  intros Hd. destruct (load_in_range BASE58_ALPHABET d) as (c & Hc & Hl).
  - rw /digit_ok in Hd. change (zlen BASE58_ALPHABET) with 58. lia.
  - by rw Hc /alpha Hl.
Qed.

(** The two tables of the code are inverse to each other. *)
Lemma translate_alpha d : digit_ok 58 d →
  0 ≤ alpha d - 49 < zlen BASE58_TABLE_TRIMMED ∧
  BASE58_TABLE_TRIMMED !! Z.to_nat (alpha d - 49) = Some d ∧ d ≠ 0xFF.
Proof. revert d. apply digit_58. by apply (bool_decide_unpack _). Qed.

Lemma translate_text ds : digits_ok 58 ds → translate (map alpha ds) = Val (Some ds).
Proof.
  induction 1 as [|d ds Hd Hds IH]; [done|]. cbn [map translate].
  destruct (translate_alpha d Hd) as (Hr & Hl & Hne).
  rw (proj2 (Z.ltb_ge _ _)); [|lia]. rw (proj2 (Z.leb_gt _ _)); [|lia].
  rw (proj2 (load_Val _ _ _) (conj (proj1 Hr) Hl)). cbn [orb mbind outcome_bind].
  rw (proj2 (Z.eqb_neq _ _)); [|done]. by rw IH.
Qed.

Lemma table_alpha p d :
  BASE58_TABLE_TRIMMED !! p = Some d → d ≠ 0xFF → digit_ok 58 d ∧ alpha d = Z.of_nat p + 49.
Proof.
  intros Hp Hd. pose proof (lookup_lt_Some _ _ _ Hp) as Hlt.
  assert (Forall (λ p, default 0xFF (BASE58_TABLE_TRIMMED !! p) = 0xFF ∨
    digit_ok 58 (default 0xFF (BASE58_TABLE_TRIMMED !! p)) ∧
    alpha (default 0xFF (BASE58_TABLE_TRIMMED !! p)) = Z.of_nat p + 49) (seq 0 74)) as Hall.
  { by apply (bool_decide_unpack _). }
  rw Forall_forall in Hall. specialize (Hall p). rewrite Hp in Hall. destruct Hall as [H|H]; [|done..].
  apply elem_of_seq. change (length BASE58_TABLE_TRIMMED) with 74%nat in Hlt. lia.
Qed.

Lemma translate_inv text ds : translate text = Val (Some ds) → text = map alpha ds ∧ digits_ok 58 ds.
Proof.
  revert ds. induction text as [|c text IH]; intros ds; cbn [translate]; [by intros [= <-]|].
  destruct (_ || _) eqn:Hc; [done|]. destruct (load _ _) as [d| | |] eqn:Hd; try done.
  cbn [mbind outcome_bind]. destruct (Z.eqb_spec d 0xFF) as [|Hne]; [done|].
  destruct (translate text) as [[ds'|]| | |]; try done. intros [= <-].
  destruct (IH ds' eq_refl) as [-> Hds]. apply load_Val in Hd as [Hp Hd].
  destruct (table_alpha _ _ Hd Hne) as [Hok Ha]. split; [|by constructor]. cbn. f_equal. lia.
Qed.

Lemma translate_total text : ∃ r, translate text = Val r.
Proof.
  induction text as [|c text [r IH]]; [by eexists|]. cbn [translate].
  destruct (_ || _) eqn:Hc; [by eexists|]. destruct (load_in_range BASE58_TABLE_TRIMMED (c - 49)) as (d & -> & _).
  { lia. }
  cbn [mbind outcome_bind]. destruct (_ =? _); [by eexists|]. rw IH. by eexists.
Qed.

(** The bytes [out] that a list of base-58 digits stands for: the same number
    and the same number of zeros at the start, which determine [out]. *)
Definition same_number (ds out : list Z) : Prop :=
  digits_ok 58 ds ∧ digits_ok 256 out ∧ leading_zeros out = leading_zeros ds ∧
  digits_val 256 out = digits_val 58 ds.

Lemma same_number_inj ds ds' out out' :
  same_number ds out → same_number ds' out' → (ds = ds' ↔ out = out').
Proof.
  intros (Hd & Ho & Hz & Hv) (Hd' & Ho' & Hz' & Hv'). split; intros ->.
  - apply (leading_val_inj 256); [done..|congruence|congruence].
  - apply (leading_val_inj 58); [done..|congruence|congruence].
Qed.

(** Removing as many zeros at the start as [l] has keeps the zeros before it. *)
Lemma drop_leading n l :
  drop (Z.to_nat (leading_zeros l)) (replicate n 0 ++ l) = replicate n 0 ++ strip l.
Proof.
  rw {2}(leading_split l) app_assoc -replicate_add Nat.add_comm replicate_add -app_assoc.
  by rw drop_app_length'; [|by rw length_replicate].
Qed.

Lemma decode_digits ds out_len :
  digits_ok 58 ds → 2 ≤ zlen ds ≤ MAX_DEC_INPUT_SIZE →
  ∃ out, same_number ds out ∧
    base58_decode (map alpha ds) (zlen ds) out_len =
      Val (if decide (zlen out ≤ out_len) then Some out else None).
Proof.
  rw /MAX_DEC_INPUT_SIZE. intros Hds Hlen. rw /base58_decode /MAX_DEC_INPUT_SIZE.
  rw (_ : _ || _ = false); [|lia].
  assert (zlen (map alpha ds) = zlen ds) as Hm by rw /zlen length_map //.
  rw loads_in_range; [|lia..]. rw drop_0 zlen_length take_ge; [|by rw length_map].
  cbn [mbind outcome_bind]. rw translate_text; [|done]. cbn [mbind outcome_bind].
  pose proof (leading_zeros_range ds) as Hz. set (zc := leading_zeros ds) in *.
  pose proof (leading_split ds) as Hsplit. fold zc in Hsplit.
  assert (zlen (replicate (Z.to_nat zc) 0) = zc) as Hzl by (rw /zlen length_replicate; lia).
  destruct (decode_loop_spec (length (strip ds)) (strip ds) (replicate (Z.to_nat zc) 0) []
    (Z.to_nat zc) (S (length ds))) as (tail & Hloop & Htok & Htl & Htv);
    [done|rw /strip length_drop; lia|by apply Forall_drop|constructor|rw Hzl strip_zlen; lia| |].
  { rw /strip length_drop. unfold zlen in *. lia. }
  rewrite -Hsplit Hzl app_nil_r strip_zlen -/zc in Hloop.
  assert ((length (strip ds) + Z.to_nat zc)%nat = length ds) as Hl.
  { rewrite {2}Hsplit length_app length_replicate. lia. }
  rewrite Hl in Hloop. replace (zc + (zlen ds - zc)) with (zlen ds) in Hloop by lia.
  rewrite -/(zlen ds) Z2Nat.id in Hloop; [|lia]. rw Hloop. cbn [mbind outcome_bind].
  rw drop_app_length'; [|by rw length_replicate]. rewrite zlen_nil Z.add_0_r strip_zlen -/zc in Htl.
  pose proof (leading_zeros_range tail). exists (replicate (Z.to_nat zc) 0 ++ strip tail).
  assert (zlen (replicate (Z.to_nat zc) 0 ++ strip tail) = zlen ds - leading_zeros tail) as Hol.
  { rw zlen_app Hzl strip_zlen. lia. }
  split.
  - split_and!; [done| | |].
    + apply Forall_app. split; [|by apply Forall_drop]. by apply Forall_replicate.
    + rw leading_zeros_app strip_leading. lia.
    + rw digits_val_app digits_val_zeros strip_val Htv strip_val zlen_nil. cbn [digits_val foldl]. lia.
  - rw Hol. replace (zlen ds - (zc + leading_zeros tail - zc)) with (zlen ds - leading_zeros tail) by lia.
    case_decide; [|by rw (proj2 (Z.ltb_lt _ _)); [|lia]]. rw (proj2 (Z.ltb_ge _ _)); [|lia].
    replace (zc + leading_zeros tail - zc) with (leading_zeros tail) by lia.
    rw loads_in_range; [|lia|lia|rw zlen_app Hzl Htl; lia]. do 2 f_equal.
    rw drop_leading take_ge //. unfold zlen in *. lia.
Qed.

(** ** Encoding is the conversion from base 256 to base 58 *)

(** The cells of [l] before the position [stop] are zero. *)
Definition zero_before (stop : Z) (l : list Z) : Prop :=
  ∀ i v, Z.of_nat i < stop → l !! i = Some v → v = 0.

Lemma zero_before_val base stop a l : zero_before stop (a ++ l) → zlen a ≤ stop → digits_val base a = 0.
Proof.
  intros Hz Ha. rw (_ : a = replicate (length a) 0); [apply digits_val_zeros|].
  apply list_eq. intros i. destruct (a !! i) as [v|] eqn:Hi.
  - rw lookup_replicate_2; [|by eapply lookup_lt_Some]. f_equal. apply (Hz i); [|by apply lookup_app_l_Some].
    apply lookup_lt_Some in Hi. unfold zlen in Ha. lia.
  - symmetry. apply lookup_replicate_None. by apply lookup_ge_None.
Qed.

Lemma encode_cell a x b carry :
  0 ≤ carry < 256 → digit_ok 58 x →
  let c := carry + 256 * x in
  0 ≤ c / 58 < 256 ∧ digit_ok 58 (c `mod` 58) ∧
  (256 * digits_val 58 (a ++ [x]) + carry) * 58 ^ zlen b + digits_val 58 b =
    (256 * digits_val 58 a + c / 58) * 58 ^ zlen (c `mod` 58 :: b) + digits_val 58 (c `mod` 58 :: b).
Proof.
  intros Hc Hx c. unfold digit_ok in *. pose proof (Z.div_mod c 58 ltac:(done)).
  pose proof (Z.mod_pos_bound c 58 ltac:(done)).
  split; [split; [apply Z.div_pos; lia|apply Z.div_lt_upper_bound; lia]|]. split; [done|].
  rw digits_val_app !digits_val_cons !zlen_cons zlen_nil (Z.pow_add_r 58 1 (zlen b)); [|lia|apply zlen_nonneg].
  change (58 ^ (1 + 0)) with 58. change (58 ^ 0) with 1. change (58 ^ 1) with 58. cbn [digits_val foldl]. nia.
Qed.

Lemma encode_pass_step j a x b carry stop :
  length a = j → digit_ok 58 x → 0 ≤ carry < 256 → 1 ≤ stop < 2 ^ 32 →
  encode_pass j (a ++ x :: b) carry stop =
    let c := carry + 256 * x in
    if (Z.of_nat j <=? stop - 1) && (c / 58 =? 0) then Val (a ++ c `mod` 58 :: b, Z.of_nat j)
    else
      match j with
      | O => Val (a ++ c `mod` 58 :: b, size_t (-1))
      | S j' => encode_pass j' (a ++ c `mod` 58 :: b) (c / 58) stop
      end.
Proof.
  rw /digit_ok. intros Hj Hx Hc Hs. assert (Z.of_nat j = zlen a) as Hl by rw /zlen Hj //.
  assert (load (a ++ x :: b) (Z.of_nat j) = Val x) as Hload.
  { rw Hl -(Z.add_0_r (zlen a)). by rw load_app_r. }
  assert (∀ v, store (a ++ x :: b) (Z.of_nat j) v = Val (a ++ v :: b)) as Hstore.
  { intros v. rw /store decide_True; [rw Nat2Z.id insert_app_r_alt; [by rw Hj Nat.sub_diag|lia]|zlia]. }
  destruct j as [|j]; cbn [encode_pass]; rw Hload; cbn [mbind outcome_bind]; rw Hstore;
    cbn [mbind outcome_bind];
    (rw (u32_small (carry + _)); [|lia]); (rw (u32_small (stop - 1)); [done|lia]).
Qed.

(** The state when the loop over [j] ends. *)
Lemma encode_break a x b carry stop :
  digits_ok 58 (a ++ x :: b) → 0 ≤ carry < 256 → zero_before stop (a ++ [x]) →
  zlen a < stop → stop - 1 ≤ zlen a ∨ carry ≠ 0 → (carry + 256 * x) / 58 = 0 →
  let buf' := a ++ (carry + 256 * x) `mod` 58 :: b in
  digits_val 58 buf' = (256 * digits_val 58 (a ++ [x]) + carry) * 58 ^ zlen b + digits_val 58 b ∧
  zero_before (zlen a) buf' ∧
  (zlen a = stop - 1 ∨ 58 ^ (zlen buf' - 1 - zlen a) ≤ digits_val 58 buf').
Proof.
  intros Hok Hc Hz Ha Hj H0 buf'. apply Forall_app in Hok as [Hoka [Hx Hokb]%Forall_cons].
  destruct (encode_cell a x b carry Hc Hx) as (_ & Hx' & Heq).
  assert (digits_val 58 a = 0) as Hva by (eapply (zero_before_val _ stop); [done|lia]).
  rewrite Hva H0 in Heq. rw Heq /buf' digits_val_app Hva. split; [lia|]. split.
  { intros i v Hi Hv. apply (Hz i); [lia|]. unfold zlen in Hi.
    rewrite lookup_app_l in Hv; [|lia]. by apply lookup_app_l_Some. }
  destruct Hj as [?|Hne]; [left; lia|]. destruct (decide (zlen a = stop - 1)); [by left|]. right.
  assert (x = 0) as ->.
  { apply (Hz (length a)); [unfold zlen in *; lia|]. by apply list_lookup_middle. }
  rewrite Z.mul_0_r Z.add_0_r in H0 Hx' |- *.
  rw zlen_app zlen_cons. replace (zlen a + (1 + zlen b) - 1 - zlen a) with (zlen b) by lia.
  assert (carry `mod` 58 ≠ 0) by (pose proof (Z.div_mod carry 58); lia).
  apply (digits_val_nonzero 58 ltac:(done)); [by constructor|done].
Qed.

Lemma encode_pass_spec j : ∀ a x b carry stop,
  length a = j → digits_ok 58 (a ++ x :: b) → 0 ≤ carry < 256 → 1 ≤ stop < 2 ^ 32 →
  zero_before stop (a ++ [x]) →
  (256 * digits_val 58 (a ++ [x]) + carry) * 58 ^ zlen b + digits_val 58 b < 58 ^ zlen (a ++ x :: b) →
  stop - 1 ≤ Z.of_nat j ∨ carry ≠ 0 →
  ∃ buf' j', encode_pass j (a ++ x :: b) carry stop = Val (buf', j') ∧
    digits_ok 58 buf' ∧ zlen buf' = zlen (a ++ x :: b) ∧
    digits_val 58 buf' = (256 * digits_val 58 (a ++ [x]) + carry) * 58 ^ zlen b + digits_val 58 b ∧
    0 ≤ j' < stop ∧ zero_before j' buf' ∧
    (j' = stop - 1 ∨ 58 ^ (zlen buf' - 1 - j') ≤ digits_val 58 buf').
Proof.
  induction j as [|j IH]; intros a x b carry stop Ha Hok Hc Hs Hz Hlt Hj;
    pose proof Hok as [Hoka [Hx Hokb]%Forall_cons]%Forall_app;
    destruct (encode_cell a x b carry Hc Hx) as (Hc' & Hx' & Heq);
    (rw encode_pass_step; [|done..]); cbn zeta;
    (assert (zlen a = Z.of_nat (length a)) as Hla by done); rewrite Ha in Hla;
    (destruct (_ && _) eqn:Hb;
     [apply andb_true_iff in Hb as [Hb1%Z.leb_le Hb2%Z.eqb_eq];
      destruct (encode_break a x b carry stop) as (H1 & H2 & H3); [done..|lia|lia|done|];
      rewrite Hla in H2 H3; eexists _, _; split; [done|];
      split_and!; [apply Forall_app; split; [done|by constructor]|by rw !zlen_app !zlen_cons|done|lia|lia|done|done]|]).
  - exfalso. apply nil_length_inv in Ha as ->. rewrite Heq in Hlt. apply andb_false_iff in Hb as [Hb%Z.leb_gt|Hb%Z.eqb_neq]; [lia|].
    assert (digits_ok 58 ((carry + 256 * x) `mod` 58 :: b)) as Hok' by by constructor.
    pose proof (digits_val_range 58 ltac:(done) _ Hok') as Hr. revert Hlt Hr.
    change (digits_val 58 []) with 0. cbn [app]. rw !zlen_cons. nia.
  - destruct (exists_last (l := a)) as (a' & y & ->); [by intros ->|].
    rewrite length_app /= Nat.add_1_r in Ha. injection Ha as Ha. rw -assoc. cbn [app].
    rewrite Heq in Hlt |- *. apply andb_false_iff in Hb.
    destruct (IH a' y ((carry + 256 * x) `mod` 58 :: b) ((carry + 256 * x) / 58) stop)
      as (buf' & j' & He & Hok' & Hl' & Hv' & Hj' & Hz' & Hd'); try done.
    + apply Forall_app in Hoka as [Hoka Hy]. apply Forall_app. split; [done|].
      apply Forall_cons in Hy as [Hy _]. constructor; [done|by constructor].
    + intros i v Hi Hv. apply (Hz i); [done|]. by apply lookup_app_l_Some.
    + rewrite -assoc in Hlt. cbn [app] in Hlt. rewrite zlen_app !zlen_cons in Hlt. by rw zlen_app !zlen_cons.
    + destruct Hb as [Hb%Z.leb_gt|Hb%Z.eqb_neq]; [left; lia|by right].
    + exists buf', j'. split_and!; try (done || lia). rw Hl' -assoc !zlen_app !zlen_cons. done.
Qed.

(** The number of digits that the code reserves for [n] bytes is enough. *)
Definition output_digits (n : Z) : Z := n * 138 / 100 + 1.

Lemma output_digits_enough n : 0 ≤ n ≤ MAX_ENC_INPUT_SIZE → 256 ^ n ≤ 58 ^ output_digits n.
Proof.
  intros Hn. assert (Forall (λ n, 256 ^ n ≤ 58 ^ output_digits n) (seqZ 0 121)) as H.
  { apply (bool_decide_unpack _). vm_compute. exact I. }
  rw Forall_forall in H. apply H, elem_of_seqZ. rw /MAX_ENC_INPUT_SIZE in Hn. lia.
Qed.

Lemma output_digits_mono k n : 0 ≤ k → k < n → output_digits k + 1 ≤ output_digits n.
Proof. rw /output_digits. intros. pow_lia. Qed.

Lemma encode_loop_spec bytes : ∀ k buf stop,
  bytes_ok bytes → 0 ≤ k → k + zlen bytes ≤ MAX_ENC_INPUT_SIZE →
  let size := output_digits (k + zlen bytes) in
  zlen buf = size → digits_ok 58 buf → digits_val 58 buf < 256 ^ k →
  0 ≤ stop < size → zero_before stop buf → size - stop ≤ output_digits k →
  ∃ buf', encode_loop bytes buf size stop = Val buf' ∧ digits_ok 58 buf' ∧ zlen buf' = size ∧
    digits_val 58 buf' = digits_val 58 buf * 256 ^ zlen bytes + digits_val 256 bytes.
Proof.
  induction bytes as [|c bytes IH]; intros k buf stop Hb Hk Hn size Hl Hok Hv Hs Hz Hd.
  { exists buf. split_and!; [done..|]. rw zlen_nil Z.pow_0_r. cbn. lia. }
  apply Forall_cons in Hb as [Hc Hb]. pose proof (zlen_nonneg bytes) as Hbl.
  assert (size = output_digits (k + (1 + zlen bytes))) as Hsz by (rw /size zlen_cons //).
  rewrite zlen_cons in Hn. clearbody size.
  assert (1 ≤ stop) as Hstop.
  { pose proof (output_digits_mono k (k + (1 + zlen bytes)) Hk ltac:(lia)). lia. }
  destruct (exists_last (l := buf)) as (a & x & ->); [intros ->; rewrite zlen_nil in Hl; lia|].
  assert (256 * digits_val 58 (a ++ [x]) + c < 256 ^ (k + 1)) as Hlt.
  { rw Z.pow_add_r; [|lia..]. rw /byte_ok in Hc. change (256 ^ 1) with 256. lia. }
  pose proof (output_digits_enough (k + 1) ltac:(lia)) as Hp.
  assert (output_digits (k + 1) ≤ size) as Hks.
  { rw Hsz. destruct (decide (zlen bytes = 0)) as [->|]; [by rw Z.add_0_r|].
    pose proof (output_digits_mono (k + 1) (k + (1 + zlen bytes)) ltac:(lia) ltac:(lia)). lia. }
  pose proof (Z.pow_le_mono_r 58 (output_digits (k + 1)) size ltac:(lia) Hks).
  destruct (encode_pass_spec (length a) a x [] c stop) as (buf' & j' & He & Hok' & Hl' & Hv' & Hj' & Hz' & Hd'); try done.
  { assert (size < 2 ^ 32); [|lia]. rw Hsz /output_digits. rw /MAX_ENC_INPUT_SIZE in Hn. pow_lia. }
  { rw Hl zlen_nil Z.pow_0_r. change (digits_val 58 []) with 0. lia. }
  { left. rewrite zlen_app zlen_cons zlen_nil in Hl. unfold zlen in *. lia. }
  cbn [encode_loop]. replace (Z.to_nat (size - 1)) with (length a).
  2: { rewrite zlen_app zlen_cons zlen_nil in Hl. unfold zlen in *. lia. }
  rw He. cbn [mbind outcome_bind].
  assert (digits_val 58 buf' = 256 * digits_val 58 (a ++ [x]) + c) as Hv2.
  { rw Hv' zlen_nil Z.pow_0_r. change (digits_val 58 []) with 0. lia. }
  assert (size = output_digits (k + 1 + zlen bytes)) as Hsize by (rw Hsz; f_equal; lia).
  destruct (IH (k + 1) buf' j') as (buf'' & He' & Hok'' & Hl'' & Hv''); rewrite -?Hsize; try done; try lia.
  { destruct Hd' as [->|Hd']; [pose proof (output_digits_mono k (k + 1)); lia|].
    rewrite Hl' Hl in Hd'. assert (size - 1 - j' < output_digits (k + 1)); [|lia].
    apply (Z.pow_lt_mono_r_iff 58); lia || (rw /output_digits; pow_lia). }
  rewrite -Hsize in He' Hl''. exists buf''. split_and!; [done..|].
  rw Hv'' Hv2 digits_val_cons zlen_cons Z.pow_add_r; [|lia..]. change (256 ^ 1) with 256. lia.
Qed.

Lemma to_alphabet_text ds : digits_ok 58 ds → to_alphabet ds = Val (map alpha ds).
Proof.
  induction 1 as [|d ds Hd Hds IH]; [done|]. cbn [to_alphabet]. rw load_alpha; [|done].
  cbn [mbind outcome_bind]. by rw IH.
Qed.

(** Encoding at most 120 bytes yields the text of the base-58 digits of the
    number they are, with a leading 1 for each zero byte (or -1 when the text
    does not fit the output).  In particular the digits reserved for the result
    are enough, and the early exits of the inner loop skip only zeros. *)
Lemma encode_bytes bs out_len :
  bytes_ok bs → zlen bs ≤ MAX_ENC_INPUT_SIZE →
  ∃ ds, same_number ds bs ∧
    base58_encode bs (zlen bs) out_len =
      Val (if decide (zlen ds ≤ out_len) then Some (map alpha ds) else None).
Proof.
  intros Hbs Hlen. rw /base58_encode. rw (proj2 (Z.ltb_ge _ _)); [|lia].
  pose proof (leading_zeros_range bs) as Hz. pose proof (strip_zlen bs) as Hsl.
  rw loads_in_range; [|lia..]. rw drop_0 zlen_length firstn_all. cbn [mbind outcome_bind].
  set (zc := leading_zeros bs) in *. rw -/(strip bs) -Hsl -/(output_digits (zlen (strip bs))).
  pose proof (zlen_nonneg (strip bs)) as Hs0. set (size := output_digits (zlen (strip bs))).
  assert (1 ≤ size) as Hsize by (rw /size /output_digits; pow_lia).
  destruct (encode_loop_spec (strip bs) 0 (replicate (Z.to_nat size) 0) (size - 1))
    as (buf & He & Hok & Hl & Hv); rewrite ?Z.add_0_l -/size; try done; try lia.
  - by apply Forall_drop.
  - rw /zlen length_replicate. lia.
  - by apply Forall_replicate.
  - rw digits_val_zeros. done.
  - intros i v _ Hi. by apply lookup_replicate in Hi as [-> _].
  - change (output_digits 0) with 1. lia.
  - rewrite Z.add_0_l -/size in He Hl. rw He. cbn [mbind outcome_bind].
    pose proof (leading_zeros_range buf). pose proof (strip_zlen buf) as Hbl.
    exists (replicate (Z.to_nat zc) 0 ++ strip buf).
    assert (zlen (replicate (Z.to_nat zc) 0 ++ strip buf) = zc + size - leading_zeros buf) as Hol.
    { rw zlen_app Hbl {1}/zlen length_replicate. lia. }
    split.
    + split_and!; [|done| |].
      * apply Forall_app. split; [by apply Forall_replicate|by apply Forall_drop].
      * rw leading_zeros_app strip_leading. lia.
      * rw digits_val_app digits_val_zeros strip_val Hv digits_val_zeros strip_val. lia.
    + rw Hol. case_decide; [|by rw (proj2 (Z.ltb_lt _ _)); [|lia]]. rw (proj2 (Z.ltb_ge _ _)); [|lia].
      rw -/(strip buf) to_alphabet_text; [|by apply Forall_drop].
      rw (load_alpha 0); [|done]. cbn [mbind outcome_bind]. rw map_app. do 3 f_equal. symmetry. apply (fmap_replicate alpha).
Qed.

(** Decoding a text of 2 to 164 characters yields the bytes of the number
    that its characters are the base-58 digits of, with one zero byte for each
    leading 1 (or -1 when they do not fit the output); a text with a character
    outside of the alphabet is refused.  No access leaves the arrays and the
    loops terminate. *)
Lemma base58_decode_correct text out_len :
  2 ≤ zlen text ≤ MAX_DEC_INPUT_SIZE →
  (∀ ds, digits_ok 58 ds → text = map alpha ds →
     ∃ out, same_number ds out ∧
       base58_decode text (zlen text) out_len =
         Val (if decide (zlen out ≤ out_len) then Some out else None)) ∧
  ((∀ ds, digits_ok 58 ds → text ≠ map alpha ds) → base58_decode text (zlen text) out_len = Val None).
Proof.
  intros Hlen. split.
  - intros ds Hds ->. assert (zlen (map alpha ds) = zlen ds) as Hm by rw /zlen length_map //.
    rewrite Hm in Hlen |- *. by apply decode_digits.
  - intros Hno. rw /base58_decode. rw (_ : _ || _ = false); [|lia].
    rw loads_in_range; [|lia..]. rw drop_0 zlen_length firstn_all. cbn [mbind outcome_bind].
    destruct (translate_total text) as [[ds|] Ht]; rw Ht; [|done].
    apply translate_inv in Ht as [-> Hds]. by destruct (Hno ds).
Qed.

(** Decoding the text that [base58_encode] returned gives back the bytes
    it was given, whenever the text has a length that the decoder accepts. *)
Lemma base58_round_trip bs text out_len :
  bytes_ok bs → zlen bs ≤ MAX_ENC_INPUT_SIZE →
  base58_encode bs (zlen bs) out_len = Val (Some text) →
  2 ≤ zlen text ≤ MAX_DEC_INPUT_SIZE →
  base58_decode text (zlen text) (zlen bs) = Val (Some bs).
Proof.
  intros Hbs Hlen He Htl. destruct (encode_bytes bs out_len Hbs Hlen) as (ds & Hs & He').
  rewrite He' in He. destruct (decide (zlen ds ≤ out_len)); [|done]. injection He as <-.
  assert (zlen (map alpha ds) = zlen ds) as Hm by rw /zlen length_map //. rewrite Hm in Htl |- *.
  destruct (decode_digits ds (zlen bs)) as (out & Ho & ->); [apply Hs|done|].
  assert (out = bs) as -> by by eapply (same_number_inj ds ds). by rw decide_True.
Qed.
