(* ===== verification/Segwit.v ===== *)
(** * Segwit addresses

    Models src/src/common/segwit_addr.c: the bech32 and bech32m texts of BIP-173
    and BIP-350, the regrouping of bits, and the addresses of witness programs.

    The step of the checksum is linear for the exclusive or; this gives that
    the decoder accepts what the encoder writes.  The regrouping of bits is a
    change of base.  Both give the round trip of the addresses. *)

From Stdlib Require Btauto.
From S2P Require Import Prelude Script Base58.

(** ** The checksum *)
Definition bech32_polymod_step (pre : Z) : Z :=
  let b := u8 (Z.shiftr pre 25) in
  Z.lxor (Z.lxor (Z.lxor (Z.lxor (Z.lxor
    (u32 (Z.shiftl (Z.land pre 0x1FFFFFF) 5))
    (Z.land (- Z.land (Z.shiftr b 0) 1) 0x3b6a57b2))
    (Z.land (- Z.land (Z.shiftr b 1) 1) 0x26508e6d))
    (Z.land (- Z.land (Z.shiftr b 2) 1) 0x1ea119fa))
    (Z.land (- Z.land (Z.shiftr b 3) 1) 0x3d4233dd))
    (Z.land (- Z.land (Z.shiftr b 4) 1) 0x2a1462b3).

Inductive bech32_encoding :=
| BECH32_ENCODING_NONE
| BECH32_ENCODING_BECH32
| BECH32_ENCODING_BECH32M.
Global Instance bech32_encoding_eq_dec : EqDecision bech32_encoding.
Proof. solve_decision. Defined.

Definition bech32_final_constant (enc : bech32_encoding) : Z :=
  match enc with
  | BECH32_ENCODING_BECH32 => 1
  | BECH32_ENCODING_BECH32M => 0x2bc830a3
  | BECH32_ENCODING_NONE => 0
  end.

(** The string "qpzry9x8gf2tvdw0s3jn54khce6mua7l". *)
Definition charset : list Z :=
  [113; 112; 122; 114; 121; 57; 120; 56; 103; 102; 50; 116; 118; 100; 119; 48;
   115; 51; 106; 110; 53; 52; 107; 104; 99; 101; 54; 109; 117; 97; 55; 108].

Definition charset_rev : list Z :=
  [-1; -1; -1; -1; -1; -1; -1; -1; -1; -1; -1; -1; -1; -1; -1; -1;
   -1; -1; -1; -1; -1; -1; -1; -1; -1; -1; -1; -1; -1; -1; -1; -1;
   -1; -1; -1; -1; -1; -1; -1; -1; -1; -1; -1; -1; -1; -1; -1; -1;
   15; -1; 10; 17; 21; 20; 26; 30;  7;  5; -1; -1; -1; -1; -1; -1;
   -1; 29; -1; 24; 13; 25;  9;  8; 23; -1; 18; 22; 31; 27; 19; -1;
    1;  0;  3; 16; 11; 28; 12; 14;  6;  4;  2; -1; -1; -1; -1; -1;
   -1; 29; -1; 24; 13; 25;  9;  8; 23; -1; 18; 22; 31; 27; 19; -1;
    1;  0;  3; 16; 11; 28; 12; 14;  6;  4;  2; -1; -1; -1; -1; -1].

(** ** Encoding

    A text is a C string without its terminator.  The output is the array and
    the position that is written next. *)

(** The first loop over [hrp]; [None] is a [return 0]. *)
Fixpoint hrp_check (hrp : list Z) (chk : Z) : option Z :=
  match hrp with
  | [] => Some chk
  | ch :: hrp' =>
      if (ch <? 33) || (126 <? ch) then None
      else if (65 <=? ch) && (ch <=? 90) then None
      else hrp_check hrp' (Z.lxor (bech32_polymod_step chk) (Z.shiftr ch 5))
  end.

Fixpoint write_hrp (hrp : list Z) (chk : Z) (o : list Z * Z) : outcome (Z * (list Z * Z)) :=
  match hrp with
  | [] => mret (chk, o)
  | ch :: hrp' =>
      o ← put o ch;
      write_hrp hrp' (Z.lxor (bech32_polymod_step chk) (Z.land ch 0x1f)) o
  end.

(** The loop over the data; [None] is the [return 0], with the array so far. *)
Fixpoint write_data (data : list Z) (chk : Z) (o : list Z * Z) : outcome (option Z * (list Z * Z)) :=
  match data with
  | [] => mret (Some chk, o)
  | d :: data' =>
      if negb (Z.shiftr d 5 =? 0) then mret (None, o)
      else
        c ← load charset d;
        o ← put o c;
        write_data data' (Z.lxor (bech32_polymod_step chk) d) o
  end.

Fixpoint polymod_steps (n : nat) (chk : Z) : Z :=
  match n with
  | O => chk
  | S n' => polymod_steps n' (bech32_polymod_step chk)
  end.

(** The loop that writes the checksum; [n] characters are left. *)
Fixpoint write_checksum (n : nat) (chk : Z) (o : list Z * Z) : outcome (list Z * Z) :=
  match n with
  | O => mret o
  | S n' =>
      c ← load charset (Z.land (Z.shiftr chk (Z.of_nat n' * 5)) 0x1f);
      o ← put o c;
      write_checksum n' chk o
  end.

(** The result and the output array. *)
Definition bech32_encode (output hrp data : list Z) (enc : bech32_encoding) : outcome (Z * list Z) :=
  match hrp_check hrp 1 with
  | None => mret (0, output)
  | Some chk =>
      if 90 <? zlen hrp + 7 + zlen data then mret (0, output)
      else
        '(chk, o) ← write_hrp hrp (bech32_polymod_step chk) (output, 0);
        o ← put o 49;
        '(r, o) ← write_data data chk o;
        match r with
        | None => mret (0, o.1)
        | Some chk =>
            let chk := Z.lxor (polymod_steps 6 chk) (bech32_final_constant enc) in
            o ← write_checksum 6 chk o;
            o ← put o 0;
            mret (1, o.1)
        end
  end.

(** ** Decoding *)

(** The characters after the last '1'; [n] characters are before those. *)
Fixpoint count_data (n : nat) (input : list Z) (data_len : Z) : outcome Z :=
  match n with
  | O => mret data_len
  | S n' =>
      c ← load input (Z.of_nat n');
      if c =? 49 then mret data_len else count_data n' input (data_len + 1)
  end.

Definition is_lower (c : Z) : bool := (97 <=? c) && (c <=? 122).
Definition is_upper (c : Z) : bool := (65 <=? c) && (c <=? 90).

Record decode_state := mk_decode_state {
  chk : Z;
  have_lower : bool;
  have_upper : bool;
  written : list Z  (* the array [hrp] or [data] *)
}.

(** The first loop over the human-readable part. *)
Fixpoint read_hrp (chars : list Z) (i : Z) (s : decode_state) : outcome (option decode_state) :=
  match chars with
  | [] => mret (Some s)
  | c :: chars' =>
      if (c <? 33) || (126 <? c) then mret None
      else
        let ch := if is_lower c then c else if is_upper c then (c - 65) + 97 else c in
        hrp ← store (written s) i ch;
        read_hrp chars' (i + 1)
          (mk_decode_state (Z.lxor (bech32_polymod_step (chk s)) (Z.shiftr ch 5))
             (have_lower s || is_lower c) (have_upper s || (negb (is_lower c) && is_upper c)) hrp)
  end.

(** The second one. *)
Fixpoint hrp_low_bits (chars : list Z) (chk : Z) : Z :=
  match chars with
  | [] => chk
  | c :: chars' => hrp_low_bits chars' (Z.lxor (bech32_polymod_step chk) (Z.land c 0x1f))
  end.

(** The loop over the data and the checksum: [chars] are the characters from
    the position [i] on. *)
Fixpoint read_data (chars : list Z) (i input_len hrp_len : Z) (s : decode_state) : outcome (option decode_state) :=
  match chars with
  | [] => mret (Some s)
  | c :: chars' =>
      v ← (if negb (Z.land c 0x80 =? 0) then mret (-1) else load charset_rev c);
      if v =? -1 then mret None
      else
        data ← (if i + 6 <? input_len then store (written s) (i - (1 + hrp_len)) v else mret (written s));
        read_data chars' (i + 1) input_len hrp_len
          (mk_decode_state (Z.lxor (bech32_polymod_step (chk s)) v)
             (have_lower s || is_lower c) (have_upper s || is_upper c) data)
  end.

(** [None] is BECH32_ENCODING_NONE; otherwise the encoding, the arrays [hrp] and
    [data], and the length of the data. *)
Definition bech32_decode (hrp data input : list Z)
    : outcome (option (bech32_encoding * list Z * list Z * Z)) :=
  let input_len := zlen input in
  if (input_len <? 8) || (90 <? input_len) then mret None
  else
    data_len ← count_data (Z.to_nat input_len) input 0;
    let hrp_len := size_t (input_len - (1 + data_len)) in
    if (input_len <=? 1 + data_len) || (data_len <? 6) then mret None
    else
      let data_len := data_len - 6 in
      let hrp_chars := take (Z.to_nat hrp_len) input in
      r ← read_hrp hrp_chars 0 (mk_decode_state 1 false false hrp);
      match r with
      | None => mret None
      | Some s =>
          hrp ← store (written s) hrp_len 0;
          let c := hrp_low_bits hrp_chars (bech32_polymod_step (chk s)) in
          r ← read_data (drop (Z.to_nat (hrp_len + 1)) input) (hrp_len + 1) input_len hrp_len
                (mk_decode_state c (have_lower s) (have_upper s) data);
          match r with
          | None => mret None
          | Some s =>
              if have_lower s && have_upper s then mret None
              else if chk s =? bech32_final_constant BECH32_ENCODING_BECH32
              then mret (Some (BECH32_ENCODING_BECH32, hrp, written s, data_len))
              else if chk s =? bech32_final_constant BECH32_ENCODING_BECH32M
              then mret (Some (BECH32_ENCODING_BECH32M, hrp, written s, data_len))
              else mret None
          end
      end.

(** ** Bits *)

(** The inner loop: groups of [outbits] bits are written while there are
    enough bits. *)
Fixpoint emit_groups (fuel : nat) (outbits val bits : Z) (o : list Z * Z) : outcome (Z * (list Z * Z)) :=
  match fuel with
  | O => OutOfFuel
  | S fuel' =>
      if outbits <=? bits then
        let bits := bits - outbits in
        o ← put o (u8 (Z.land (Z.shiftr val bits) (u32 (Z.shiftl 1 outbits) - 1)));
        emit_groups fuel' outbits val bits o
      else mret (bits, o)
  end.

(** At most [bits] groups are written. *)
Fixpoint convert_loop (outbits inbits : Z) (in_ : list Z) (val bits : Z) (o : list Z * Z)
    : outcome (Z * Z * (list Z * Z)) :=
  match in_ with
  | [] => mret (val, bits, o)
  | b :: in' =>
      let val := Z.lor (u32 (Z.shiftl val inbits)) b in
      let bits := bits + inbits in
      '(bits, o) ← emit_groups (S (Z.to_nat bits)) outbits val bits o;
      convert_loop outbits inbits in' val bits o
  end.

(** The result and the output array with the number of groups in it. *)
Definition convert_bits (o : list Z * Z) (outbits : Z) (in_ : list Z) (inbits : Z) (pad : bool)
    : outcome (Z * (list Z * Z)) :=
  let maxv := u32 (Z.shiftl 1 outbits) - 1 in
  '(val, bits, o) ← convert_loop outbits inbits in_ 0 0 o;
  let rest := Z.land (u32 (Z.shiftl val (outbits - bits))) maxv in
  if pad then
    if negb (bits =? 0) then o ← put o (u8 rest); mret (1, o) else mret (1, o)
  else if negb (rest =? 0) || (inbits <=? bits) then mret (0, o)
  else mret (1, o).

(** ** Addresses of witness programs

    [uninit] is the contents of the local arrays. *)
Definition segwit_addr_encode (uninit output hrp : list Z) (witver : Z) (witprog : list Z) : outcome (Z * list Z) :=
  let witprog_len := zlen witprog in
  if 16 <? witver then mret (0, output)
  else if (witver =? 0) && negb (witprog_len =? 20) && negb (witprog_len =? 32) then mret (0, output)
  else if (witprog_len <? 2) || (40 <? witprog_len) then mret (0, output)
  else
    let enc := if 0 <? witver then BECH32_ENCODING_BECH32M else BECH32_ENCODING_BECH32 in
    data ← store (take 65 uninit) 0 (u8 witver);
    '(_, (rest, datalen)) ← convert_bits (drop 1 data, 0) 5 witprog 8 true;
    data ← loads (take 1 data ++ rest) 0 (datalen + 1);
    bech32_encode output hrp data enc.

(** [None] is the result 0; otherwise the version, the array [witdata] and the
    length of the program. *)
Definition segwit_addr_decode (uninit_data uninit_hrp witdata hrp addr : list Z)
    : outcome (option (Z * list Z * Z)) :=
  r ← bech32_decode (take 84 uninit_hrp) (take 84 uninit_data) addr;
  match r with
  | None => mret None
  | Some (enc, hrp_actual, data, data_len) =>
      if (data_len =? 0) || (65 <? data_len) then mret None
      else if negb (bool_decide (take 84 (hrp ++ [0]) = take (Z.to_nat (Z.min 84 (zlen hrp + 1))) hrp_actual)) then mret None
      else
        v ← load data 0;
        if 16 <? v then mret None
        else if (v =? 0) && negb (bool_decide (enc = BECH32_ENCODING_BECH32)) then mret None
        else if (0 <? v) && negb (bool_decide (enc = BECH32_ENCODING_BECH32M)) then mret None
        else
          prog ← loads data 1 (data_len - 1);
          '(ok, (witdata, witdata_len)) ← convert_bits (witdata, 0) 8 prog 5 false;
          if ok =? 0 then mret None
          else if (witdata_len <? 2) || (40 <? witdata_len) then mret None
          else if (v =? 0) && negb (witdata_len =? 20) && negb (witdata_len =? 32) then mret None
          else mret (Some (v, witdata, witdata_len))
  end.

(** ** The step of the checksum is linear *)
Lemma mask_bit b k : 0 ≤ k → - Z.land (Z.shiftr b k) 1 = if Z.testbit b k then -1 else 0.
Proof.
  intros Hk. change 1 with (Z.ones 1). rw Z.land_ones; [|done]. change (2 ^ 1) with 2.
  rw -(Z.bit0_mod) Z.shiftr_spec; [|done]. rw Z.add_0_l. by destruct (Z.testbit b k).
Qed.

Lemma mask_testbit (b : bool) c n : Z.testbit (Z.land (if b then -1 else 0) c) n = b && Z.testbit c n.
Proof. destruct b; [by rw Z.land_m1_l|by rw Z.land_0_l Z.bits_0]. Qed.

Lemma high_bit pre i : 0 ≤ pre < 2 ^ 32 → 0 ≤ i < 5 → Z.testbit (u8 (Z.shiftr pre 25)) i = Z.testbit pre (25 + i).
Proof.
  intros Hp Hi. rw u8_small; [by rw Z.shiftr_spec; [f_equal; lia|lia]|].
  rw Z.shiftr_div_pow2; [|done]. split; [apply Z.div_pos; lia|apply Z.div_lt_upper_bound; lia].
Qed.

Lemma step_testbit pre n :
  0 ≤ pre < 2 ^ 32 → 0 ≤ n →
  Z.testbit (bech32_polymod_step pre) n =
  xorb (xorb (xorb (xorb (xorb
    ((n <? 30) && Z.testbit pre (n - 5))
    (Z.testbit pre 25 && Z.testbit 0x3b6a57b2 n)) (Z.testbit pre 26 && Z.testbit 0x26508e6d n))
    (Z.testbit pre 27 && Z.testbit 0x1ea119fa n)) (Z.testbit pre 28 && Z.testbit 0x3d4233dd n))
    (Z.testbit pre 29 && Z.testbit 0x2a1462b3 n).
Proof.
  intros Hp Hn. rw /bech32_polymod_step !Z.lxor_spec !mask_bit; [|lia..].
  rw !mask_testbit !high_bit; [|lia..]. do 5 f_equal.
  change 0x1FFFFFF with (Z.ones 25). rw Z.land_ones; [|done]. rw /u32.
  rw Z.shiftl_mul_pow2; [|done].
  assert (0 ≤ pre `mod` 2 ^ 25 * 2 ^ 5 < 2 ^ 32) as Hr.
  { pose proof (Z.mod_pos_bound pre (2 ^ 25) ltac:(done)). lia. }
  rw Z.mod_small; [|done]. rw -Z.shiftl_mul_pow2; [|done]. rw Z.shiftl_spec; [|done].
  destruct (Z.ltb_spec n 30).
  - destruct (decide (n < 5)); [rw !Z.testbit_neg_r; lia|]. rw Z.mod_pow2_bits_low //. lia.
  - rw Z.mod_pow2_bits_high //. lia.
Qed.

Lemma high_false k c m : 0 ≤ c < 2 ^ k → k ≤ m → Z.testbit c m = false.
Proof.
  intros [Hc Hk] Hm. destruct (decide (0 ≤ k)); [|rewrite Z.pow_neg_r in Hk; lia].
  by apply (proj1 (Z.bounded_iff_bits_nonneg k c ltac:(done) Hc) Hk).
Qed.

Lemma step_high pre m : 0 ≤ pre < 2 ^ 32 → 30 ≤ m → Z.testbit (bech32_polymod_step pre) m = false.
Proof.
  intros Hp Hm. rw step_testbit //; [|lia]. rw (proj2 (Z.ltb_ge _ _)) //.
  rw !(high_false 30 _ m); [|done..]. by rw !andb_false_r.
Qed.

Lemma step_range pre : 0 ≤ pre < 2 ^ 32 → 0 ≤ bech32_polymod_step pre < 2 ^ 30.
Proof.
  intros Hp. assert (0 ≤ bech32_polymod_step pre) as Hpos.
  { apply Z.bits_iff_nonneg_ex. exists 30. intros m Hm. apply step_high; [done|lia]. }
  split; [done|]. apply Z.bounded_iff_bits_nonneg; [done..|]. intros m. by apply step_high.
Qed.

Lemma lxor_range k a b : 0 ≤ k → 0 ≤ a < 2 ^ k → 0 ≤ b < 2 ^ k → 0 ≤ Z.lxor a b < 2 ^ k.
Proof.
  intros Hk Ha Hb. assert (0 ≤ Z.lxor a b) by (apply Z.lxor_nonneg; lia). split; [done|].
  apply Z.bounded_iff_bits_nonneg; [done..|]. intros m Hm. rw Z.lxor_spec !(high_false k _ m) //.
Qed.

Lemma step_lxor a b :
  0 ≤ a < 2 ^ 32 → 0 ≤ b < 2 ^ 32 →
  bech32_polymod_step (Z.lxor a b) = Z.lxor (bech32_polymod_step a) (bech32_polymod_step b).
Proof.
  intros Ha Hb. apply Z.bits_inj'. intros n Hn. rw Z.lxor_spec !step_testbit //; [|by apply lxor_range].
  rw !Z.lxor_spec. Btauto.btauto.
Qed.

Lemma step_small v : 0 ≤ v < 2 ^ 25 → bech32_polymod_step v = v * 32.
Proof.
  intros Hv. apply Z.bits_inj'. intros n Hn. rw step_testbit //; [|lia].
  rw (high_false 25 v 25) // (high_false 25 v 26) // (high_false 25 v 27) // (high_false 25 v 28) // (high_false 25 v 29) //. cbn [andb]. rewrite !xorb_false_r.
  change (v * 32) with (v * 2 ^ 5). rw -Z.shiftl_mul_pow2 // Z.shiftl_spec //.
  destruct (Z.ltb_spec n 30); [done|]. symmetry. apply (high_false 25 v); [done|lia].
Qed.

Lemma lxor_shiftl_add a b k : 0 ≤ k → 0 ≤ a < 2 ^ k → Z.lxor a (Z.shiftl b k) = a + b * 2 ^ k.
Proof.
  intros Hk Ha. rw -lor_shiftl_add //. apply Z.lxor_lor, Z.bits_inj'. intros n Hn.
  rw Z.land_spec Z.bits_0 Z.shiftl_spec //. destruct (decide (n < k)).
  - rw (Z.testbit_neg_r b); [|lia]. apply andb_false_r.
  - by rw (high_false k a n); [|done|lia].
Qed.

#[local] Opaque bech32_polymod_step.

(** ** Checksums *)
Definition feed (chk : Z) (vs : list Z) : Z := foldl (λ c v, Z.lxor (bech32_polymod_step c) v) chk vs.

Lemma feed_cons chk v vs : feed chk (v :: vs) = feed (Z.lxor (bech32_polymod_step chk) v) vs.
Proof. done. Qed.

Lemma feed_app chk vs vs' : feed chk (vs ++ vs') = feed (feed chk vs) vs'.
Proof. apply foldl_app. Qed.

Lemma feed_range chk vs : 0 ≤ chk < 2 ^ 30 → Forall (λ v, 0 ≤ v < 2 ^ 30) vs → 0 ≤ feed chk vs < 2 ^ 30.
Proof.
  intros Hc Hvs. revert chk Hc. induction Hvs as [|v vs Hv Hvs IH]; intros chk Hc; [done|].
  rw feed_cons. apply IH. apply lxor_range; [done| |done]. apply step_range. lia.
Qed.

Lemma polymod_steps_S n chk : polymod_steps (S n) chk = bech32_polymod_step (polymod_steps n chk).
Proof. revert chk. induction n as [|n IH]; intros chk; [done|]. exact (IH (bech32_polymod_step chk)). Qed.

Lemma polymod_steps_range n chk : 0 ≤ chk < 2 ^ 30 → 0 ≤ polymod_steps n chk < 2 ^ 30.
Proof. revert chk. induction n as [|n IH]; intros chk Hc; [done|]. cbn. apply IH, step_range. lia. Qed.

(** The values of a checksum, as one number, are added to the steps without them. *)
Lemma feed_checksum chk vs :
  0 ≤ chk < 2 ^ 30 → digits_ok 32 vs → (length vs ≤ 6)%nat →
  feed chk vs = Z.lxor (polymod_steps (length vs) chk) (digits_val 32 vs).
Proof.
  intros Hc. induction vs as [|v vs IH] using rev_ind; intros Hvs Hl; [by rw Z.lxor_0_r|].
  apply Forall_app in Hvs as [Hvs Hv]. apply Forall_cons in Hv as [Hv _]. unfold digit_ok in Hv.
  rewrite length_app in Hl. cbn in Hl. rw /feed foldl_app /= -/(feed chk vs) IH //; [|lia].
  pose proof (digits_val_range 32 ltac:(done) vs Hvs) as Hr.
  assert (32 ^ zlen vs ≤ 32 ^ 5) by (apply Z.pow_le_mono_r; unfold zlen; lia).
  pose proof (polymod_steps_range (length vs) chk Hc).
  rw step_lxor; [|lia..]. rw (step_small (digits_val 32 vs)); [|lia].
  rw length_app Nat.add_1_r polymod_steps_S Z.lxor_assoc digits_val_app. do 2 f_equal.
  change (digits_val 32 [v]) with (0 * 32 + v). change (32 ^ zlen [v]) with 32.
  rw Z.lxor_comm. rw -{1}(Z.shiftl_mul_pow2 _ 5) // lxor_shiftl_add //. lia.
Qed.

(** The groups of five bits of a checksum, most significant first. *)
Fixpoint groups (n : nat) (chk : Z) : list Z :=
  match n with
  | O => []
  | S n' => Z.land (Z.shiftr chk (Z.of_nat n' * 5)) 0x1f :: groups n' chk
  end.

Lemma length_groups n chk : length (groups n chk) = n.
Proof. induction n as [|n IH]; [done|]. cbn. by rw IH. Qed.

Lemma group_val n chk : Z.land (Z.shiftr chk (Z.of_nat n * 5)) 0x1f = (chk / 32 ^ Z.of_nat n) `mod` 32.
Proof.
  change 0x1f with (Z.ones 5). rw Z.land_ones // Z.shiftr_div_pow2; [|lia].
  by rw Z.mul_comm Z.pow_mul_r; [|lia..].
Qed.

Lemma groups_ok n chk : digits_ok 32 (groups n chk).
Proof.
  induction n as [|n IH]; constructor; [|done]. rw group_val. unfold digit_ok. apply Z.mod_pos_bound. done.
Qed.

Lemma groups_val n chk : 0 ≤ chk → digits_val 32 (groups n chk) = chk `mod` 32 ^ Z.of_nat n.
Proof.
  intros Hc. induction n as [|n IH]; [by rw Z.mod_1_r|]. cbn [groups]. rw digits_val_cons IH group_val.
  rw /zlen length_groups Nat2Z.inj_succ Z.pow_succ_r; [|lia]. rw (Z.mul_comm 32).
  rw Z.rem_mul_r; [|lia|lia]. lia.
Qed.

(** The values after which the checksum is right. *)
Definition checksum (chk : Z) (enc : bech32_encoding) : list Z :=
  groups 6 (Z.lxor (polymod_steps 6 chk) (bech32_final_constant enc)).

Lemma final_constant_range enc : 0 ≤ bech32_final_constant enc < 2 ^ 30.
Proof. by destruct enc. Qed.

Lemma checksum_valid chk enc : 0 ≤ chk < 2 ^ 30 → feed chk (checksum chk enc) = bech32_final_constant enc.
Proof.
  intros Hc. pose proof (polymod_steps_range 6 chk Hc) as Hp. pose proof (final_constant_range enc) as He.
  pose proof (lxor_range 30 _ _ ltac:(done) Hp He) as Hx.
  rw /checksum feed_checksum; [|done|apply groups_ok|by rw length_groups].
  rw length_groups groups_val; [|lia]. rw Z.mod_small; [|done].
  by rw -Z.lxor_assoc Z.lxor_nilpotent.
Qed.

(** ** What the encoder writes *)
Definition symbol (d : Z) : Z := default 0 (charset !! Z.to_nat d).

(** The values that the human-readable part contributes to the checksum. *)
Definition hrp_values (hrp : list Z) : list Z :=
  map (λ c, Z.shiftr c 5) hrp ++ [0] ++ map (λ c, Z.land c 0x1f) hrp.
Definition hrp_ok (hrp : list Z) : Prop := Forall (λ c, 33 ≤ c ≤ 126 ∧ ¬ (65 ≤ c ≤ 90)) hrp.

Definition bech32_text (hrp data : list Z) (enc : bech32_encoding) : list Z :=
  hrp ++ [49] ++ map symbol (data ++ checksum (feed 1 (hrp_values hrp ++ data)) enc).

Lemma load_charset d : digit_ok 32 d → load charset d = Val (symbol d).
Proof.
  intros Hd. unfold digit_ok in Hd. apply load_Val. split; [lia|]. rw /symbol.
  destruct (lookup_lt_is_Some_2 charset (Z.to_nat d)) as [c ->]; [|done]. cbn. lia.
Qed.

(** The output with [t] written and [r] left. *)
Definition at_end (t r : list Z) : list Z * Z := (t ++ r, zlen t).

Lemma put_at_end t x r c : put (at_end t (x :: r)) c = Val (at_end (t ++ [c]) r).
Proof. rw /put /at_end /= store_middle /=. by rw zlen_app -app_assoc. Qed.

(** There is room for one more character. *)
Lemma put_room t r c n : (S n ≤ length r)%nat →
  ∃ r', put (at_end t r) c = Val (at_end (t ++ [c]) r') ∧ length r = S (length r').
Proof. destruct r as [|x r]; cbn; [lia|]. intros _. exists r. by rw put_at_end. Qed.

Lemma write_hrp_correct hrp chk t r :
  (length hrp ≤ length r)%nat →
  write_hrp hrp chk (at_end t r) =
  Val (feed chk (map (λ c, Z.land c 0x1f) hrp), at_end (t ++ hrp) (drop (length hrp) r)).
Proof.
  revert chk t r. induction hrp as [|c hrp IH]; intros chk t r Hl; cbn [write_hrp].
  { by rw app_nil_r drop_0. }
  destruct r as [|x r]; cbn in Hl; [lia|]. rw put_at_end. cbn [mbind outcome_bind]. rw IH; [|lia].
  by rw -app_assoc.
Qed.

Lemma write_data_correct data chk t r :
  digits_ok 32 data → (length data ≤ length r)%nat →
  write_data data chk (at_end t r) =
  Val (Some (feed chk data), at_end (t ++ map symbol data) (drop (length data) r)).
Proof.
  intros Hd. revert chk t r. induction Hd as [|d data Hd Hds IH]; intros chk t r Hl; cbn [write_data].
  { by rw app_nil_r drop_0. }
  destruct r as [|x r]; cbn in Hl; [lia|].
  rw Z.shiftr_div_pow2 // (Z.div_small d); [|done]. cbn [negb Z.eqb]. rw load_charset //. cbn [mbind outcome_bind].
  rw put_at_end. cbn [mbind outcome_bind]. rw IH; [|lia]. by rw -app_assoc.
Qed.

Lemma write_checksum_correct n chk t r :
  (n ≤ length r)%nat →
  write_checksum n chk (at_end t r) = Val (at_end (t ++ map symbol (groups n chk)) (drop n r)).
Proof.
  revert t r. induction n as [|n IH]; intros t r Hl; cbn [write_checksum].
  { by rw app_nil_r drop_0. }
  destruct r as [|x r]; cbn in Hl; [lia|]. pose proof (groups_ok (S n) chk) as Hg. cbn in Hg. apply Forall_cons in Hg as [Hg _].
  rw load_charset //. cbn [mbind outcome_bind]. rw put_at_end. cbn [mbind outcome_bind]. rw IH; [|lia].
  by rw -app_assoc.
Qed.

Lemma hrp_check_ok hrp chk : hrp_ok hrp → hrp_check hrp chk = Some (feed chk (map (λ c, Z.shiftr c 5) hrp)).
Proof.
  intros Hh. revert chk. induction Hh as [|c hrp Hc Hh IH]; intros chk; cbn [hrp_check]; [done|].
  destruct (Z.ltb_spec c 33); [lia|]. destruct (Z.ltb_spec 126 c); [lia|]. cbn [orb].
  destruct (Z.leb_spec 65 c), (Z.leb_spec c 90); cbn [andb]; try lia; by rw IH.
Qed.

(** The other human-readable parts are refused. *)
Lemma hrp_check_None hrp chk : ¬ hrp_ok hrp → hrp_check hrp chk = None.
Proof.
  revert chk. induction hrp as [|c hrp IH]; intros chk Hh; [by destruct Hh; constructor|]. cbn [hrp_check].
  destruct (Z.ltb_spec c 33); [done|]. destruct (Z.ltb_spec 126 c); [done|]. cbn [orb].
  destruct (Z.leb_spec 65 c), (Z.leb_spec c 90); cbn [andb]; try done;
    apply IH; intros Hh'; apply Hh; constructor; (lia || done).
Qed.

Lemma feed_hrp hrp vs :
  feed (feed (bech32_polymod_step (feed 1 (map (λ c, Z.shiftr c 5) hrp))) (map (λ c, Z.land c 0x1f) hrp)) vs =
  feed 1 (hrp_values hrp ++ vs).
Proof. rw /hrp_values -!app_assoc !feed_app. by rw (feed_cons _ 0 []) Z.lxor_0_r. Qed.

(** The checksum and the terminator. *)
Definition finish_encode (chk : Z) (enc : bech32_encoding) (o : list Z * Z) : outcome (Z * list Z) :=
  o ← write_checksum 6 (Z.lxor (polymod_steps 6 chk) (bech32_final_constant enc)) o;
  o ← put o 0;
  mret (1, o.1).

Lemma finish_encode_ok chk enc t r :
  (7 ≤ length r)%nat →
  finish_encode chk enc (at_end t r) = Val (1, (t ++ map symbol (checksum chk enc)) ++ [0] ++ drop 7 r).
Proof.
  intros Hr. rw /finish_encode write_checksum_correct; [|lia]. cbn [mbind outcome_bind].
  destruct (drop 6 r) as [|y r'] eqn:Hd.
  { apply (f_equal length) in Hd. rewrite length_drop in Hd. cbn in Hd. lia. }
  rw put_at_end. cbn [mbind outcome_bind at_end fst]. rw -/(checksum chk enc) -app_assoc.
  by rw -(drop_drop r 1 6) Hd.
Qed.

Lemma bech32_encode_ok output hrp data enc :
  hrp_ok hrp → digits_ok 32 data → zlen hrp + 7 + zlen data ≤ 90 → zlen hrp + 8 + zlen data ≤ zlen output →
  ∃ r, bech32_encode output hrp data enc = Val (1, bech32_text hrp data enc ++ [0] ++ r) ∧
    zlen hrp + 8 + zlen data + zlen r = zlen output.
Proof.
  intros Hh Hd H90 Ho. rw /bech32_encode hrp_check_ok //. rw (proj2 (Z.ltb_ge _ _)); [|lia].
  unfold zlen in H90, Ho. change (output, 0) with (at_end [] output).
  rw write_hrp_correct; [|lia]. cbn [mbind outcome_bind].
  destruct (drop (length hrp) output) as [|x r] eqn:Hr;
    apply (f_equal length) in Hr; rewrite length_drop in Hr; cbn in Hr; [lia|].
  rw put_at_end. cbn [mbind outcome_bind]. rw write_data_correct //; [|lia]. cbn [mbind outcome_bind].
  rw -/(finish_encode _ _ _) finish_encode_ok; [|rw length_drop; lia]. rw feed_hrp drop_drop.
  eexists. split.
  - rw /bech32_text map_app -!app_assoc. reflexivity.
  - rw /zlen length_drop. lia.
Qed.

(** ** What the decoder reads *)
Lemma symbol_facts d : digit_ok 32 d →
  load charset_rev (symbol d) = Val d ∧ Z.land (symbol d) 0x80 = 0 ∧ is_upper (symbol d) = false ∧ symbol d ≠ 49.
Proof.
  intros Hd. unfold digit_ok in Hd. assert (d ∈ seqZ 0 32) as H by (apply elem_of_seqZ; lia). clear Hd. revert d H.
  apply Forall_forall. let l := eval vm_compute in (seqZ 0 32) in change (seqZ 0 32) with l.
  repeat (apply Forall_cons; split; [repeat split; by vm_compute|]). done.
Qed.

Lemma count_data_correct pre suf acc :
  Forall (λ c, c ≠ 49) suf →
  count_data (length (pre ++ [49] ++ suf)) (pre ++ [49] ++ suf) acc = Val (acc + zlen suf).
Proof.
  intros Hs.
  assert (∀ k, (k ≤ length suf)%nat →
    count_data (length pre + 1 + k) (pre ++ [49] ++ suf) acc = Val (acc + Z.of_nat k)) as H.
  { clear -Hs. intros k. revert acc. induction k as [|k IH]; intros acc Hk.
    - rw Nat.add_0_r Nat.add_1_r. cbn [count_data]. rw load_middle. cbn. by rw Z.add_0_r.
    - rw Nat.add_succ_r. cbn [count_data].
      destruct (lookup_lt_is_Some_2 suf k) as [c Hc]; [lia|].
      assert (load (pre ++ [49] ++ suf) (Z.of_nat (length pre + 1 + k)) = Val c) as ->.
      { apply load_Val. split; [lia|]. rw Nat2Z.id lookup_app_r; [|lia].
        by replace (length pre + 1 + k - length pre)%nat with (S k) by lia. }
      cbn [mbind outcome_bind]. rw (proj2 (Z.eqb_neq _ _)); [|by apply (Forall_lookup_1 _ _ _ _ Hs Hc)].
      rw IH; [f_equal; lia|lia]. }
  rw !length_app. change (length [49]) with 1%nat. rw Nat.add_assoc. by apply H.
Qed.

Lemma read_hrp_correct hrp t r s :
  hrp_ok hrp → (length hrp ≤ length r)%nat → written s = t ++ r →
  ∃ low, read_hrp hrp (zlen t) s =
  Val (Some (mk_decode_state (feed (chk s) (map (λ c, Z.shiftr c 5) hrp)) low (have_upper s)
               (t ++ hrp ++ drop (length hrp) r))).
Proof.
  intros Hh. revert t r s. induction Hh as [|c hrp [Hc Hu] Hh IH]; intros t r [k lo up w] Hl Hw; cbn in Hw; subst w.
  { exists lo. by rw drop_0. }
  cbn [read_hrp]. destruct (Z.ltb_spec c 33); [lia|]. destruct (Z.ltb_spec 126 c); [lia|]. cbn [orb].
  assert (is_upper c = false) as Hup.
  { rw /is_upper. destruct (Z.leb_spec 65 c), (Z.leb_spec c 90); cbn; try done. lia. }
  rw Hup. replace (if is_lower c then c else c) with c by (by destruct (is_lower c)).
  destruct r as [|x r]; cbn in Hl; [lia|]. cbn [written]. rw store_middle. cbn [mbind outcome_bind chk have_upper have_lower].
  rewrite andb_false_r orb_false_r. replace (zlen t + 1) with (zlen (t ++ [c])) by (by rw zlen_app).
  destruct (IH (t ++ [c]) r (mk_decode_state (Z.lxor (bech32_polymod_step k) (Z.shiftr c 5)) (lo || is_lower c) up (t ++ c :: r)))
    as [low ->]; [lia|by rw -app_assoc|].
  exists low. cbn [chk have_upper]. by rw -app_assoc.
Qed.

Lemma hrp_low_bits_feed hrp chk : hrp_low_bits hrp chk = feed chk (map (λ c, Z.land c 0x1f) hrp).
Proof. revert chk. induction hrp as [|c hrp IH]; intros chk; [done|]. apply IH. Qed.

Lemma read_data_app a b i input_len hrp_len s :
  read_data (a ++ b) i input_len hrp_len s =
  (r ← read_data a i input_len hrp_len s;
   match r with Some s => read_data b (i + zlen a) input_len hrp_len s | None => mret None end).
Proof.
  revert i s. induction a as [|c a IH]; intros i s.
  { cbn. by rw Z.add_0_r. }
  cbn [app read_data]. destruct (if negb _ then _ else _); cbn [mbind outcome_bind]; [|done..].
  destruct (_ =? -1); [done|]. destruct (if _ <? _ then _ else _); cbn [mbind outcome_bind]; [|done..].
  rw IH zlen_cons. by replace (i + 1 + zlen a) with (i + (1 + zlen a)) by lia.
Qed.

(** The characters of the data are stored. *)
Lemma read_data_stored ds t r input_len hrp_len s :
  digits_ok 32 ds → (length ds ≤ length r)%nat → written s = t ++ r →
  1 + hrp_len + zlen t + zlen ds + 6 ≤ input_len →
  ∃ low, read_data (map symbol ds) (1 + hrp_len + zlen t) input_len hrp_len s =
    Val (Some (mk_decode_state (feed (chk s) ds) low (have_upper s) (t ++ ds ++ drop (length ds) r))).
Proof.
  intros Hd. revert t r s. induction Hd as [|d ds Hd Hds IH]; intros t r [k lo up w] Hr Hw Hi; cbn in Hw; subst w.
  { exists lo. by rw drop_0. }
  destruct (symbol_facts d Hd) as (Hl & H80 & Hu & _). cbn [map read_data].
  rewrite zlen_cons in Hi. pose proof (zlen_nonneg ds).
  rw H80. cbn [Z.eqb negb]. rw Hl. cbn [mbind outcome_bind].
  rw (proj2 (Z.eqb_neq d (-1))); [|unfold digit_ok in Hd; lia]. rw Hu orb_false_r.
  rw (proj2 (Z.ltb_lt _ _)); [|lia]. destruct r as [|x r]; cbn in Hr; [lia|]. cbn [written].
  replace (1 + hrp_len + zlen t - (1 + hrp_len)) with (zlen t) by lia. rw store_middle. cbn [mbind outcome_bind chk have_lower have_upper].
  replace (1 + hrp_len + zlen t + 1) with (1 + hrp_len + zlen (t ++ [d])) by (rw zlen_app; change (zlen [d]) with 1; lia).
  destruct (IH (t ++ [d]) r (mk_decode_state (Z.lxor (bech32_polymod_step k) d) (lo || is_lower (symbol d)) up (t ++ d :: r)))
    as [low ->]; [lia|by rw -app_assoc|rw zlen_app; change (zlen [d]) with 1; lia|].
  exists low. cbn [chk have_upper]. by rw -app_assoc.
Qed.

(** Those of the checksum are not. *)
Lemma read_data_checksum ds i input_len hrp_len s :
  digits_ok 32 ds → input_len ≤ i + 6 →
  ∃ low, read_data (map symbol ds) i input_len hrp_len s =
    Val (Some (mk_decode_state (feed (chk s) ds) low (have_upper s) (written s))).
Proof.
  intros Hd. revert i s. induction Hd as [|d ds Hd Hds IH]; intros i [k lo up w] Hi; [by exists lo|].
  destruct (symbol_facts d Hd) as (Hl & H80 & Hu & _). cbn [map read_data].
  rw H80. cbn [Z.eqb negb]. rw Hl. cbn [mbind outcome_bind].
  rw (proj2 (Z.eqb_neq d (-1))); [|unfold digit_ok in Hd; lia]. rw Hu orb_false_r.
  rw (proj2 (Z.ltb_ge _ _)); [|lia]. rw outcome_ret_bind. cbn [chk have_lower have_upper written].
  destruct (IH (i + 1) (mk_decode_state (Z.lxor (bech32_polymod_step k) d) (lo || is_lower (symbol d)) up w)) as [low ->]; [lia|].
  by exists low.
Qed.

Lemma checksum_ok chk enc : digits_ok 32 (checksum chk enc).
Proof. apply groups_ok. Qed.
Lemma length_checksum chk enc : length (checksum chk enc) = 6%nat.
Proof. apply length_groups. Qed.

Lemma hrp_values_range hrp data : hrp_ok hrp → digits_ok 32 data → 0 ≤ feed 1 (hrp_values hrp ++ data) < 2 ^ 30.
Proof.
  intros Hh Hd. apply feed_range; [done|]. rw /hrp_values !Forall_app. repeat split.
  - apply Forall_map, (Forall_impl _ _ _ Hh). intros c [Hc _]. cbn. rw Z.shiftr_div_pow2 //.
    split; [apply Z.div_pos; lia|apply Z.div_lt_upper_bound; lia].
  - by repeat constructor.
  - apply Forall_map, (Forall_impl _ _ _ Hh). intros c [Hc _]. cbn. change 31 with (Z.ones 5). rw Z.land_ones //.
    pose proof (Z.mod_pos_bound c (2 ^ 5) ltac:(done)). lia.
  - apply (Forall_impl _ _ _ Hd). unfold digit_ok. lia.
Qed.

Lemma zlen_bech32_text hrp data enc : zlen (bech32_text hrp data enc) = zlen hrp + 7 + zlen data.
Proof. rw /bech32_text !zlen_app {3}/zlen length_map length_app length_checksum. change (zlen [49]) with 1. unfold zlen. lia. Qed.

Lemma read_data_text data cs hrp_len s :
  digits_ok 32 data → digits_ok 32 cs → length cs = 6%nat → zlen data ≤ zlen (written s) →
  ∃ low, read_data (map symbol (data ++ cs)) (hrp_len + 1) (hrp_len + 7 + zlen data) hrp_len s =
    Val (Some (mk_decode_state (feed (chk s) (data ++ cs)) low (have_upper s)
                 (data ++ drop (length data) (written s)))).
Proof.
  intros Hd Hc Hl Hw. rw map_app read_data_app.
  destruct (read_data_stored data [] (written s) (hrp_len + 7 + zlen data) hrp_len s) as [low Hr]; [done| |done| |].
  { unfold zlen in Hw. lia. }
  { rw zlen_nil. lia. }
  rewrite zlen_nil Z.add_0_r Z.add_comm in Hr. rw Hr. cbn [mbind outcome_bind].
  destruct (read_data_checksum cs (hrp_len + 1 + zlen (map symbol data)) (hrp_len + 7 + zlen data) hrp_len
    (mk_decode_state (feed (chk s) data) low (have_upper s) ([] ++ data ++ drop (length data) (written s)))) as [low' Hr']; [done| |].
  { rw /zlen length_map. unfold zlen. lia. }
  exists low'. rw Hr' feed_app. done.
Qed.

Lemma bech32_decode_text hrp_buf data_buf hrp data enc :
  hrp_ok hrp → hrp ≠ [] → digits_ok 32 data → zlen hrp + 7 + zlen data ≤ 90 →
  enc ≠ BECH32_ENCODING_NONE → zlen hrp < zlen hrp_buf → zlen data ≤ zlen data_buf →
  ∃ r r', bech32_decode hrp_buf data_buf (bech32_text hrp data enc) =
    Val (Some (enc, hrp ++ [0] ++ r, data ++ r', zlen data)).
Proof.
  intros Hh Hne Hd H90 Henc Hb Hdb. rw /bech32_decode zlen_bech32_text.
  assert (1 ≤ zlen hrp) by (destruct hrp; [done|rw zlen_cons; pose proof (zlen_nonneg hrp); lia]).
  pose proof (zlen_nonneg data). destruct (Z.ltb_spec (zlen hrp + 7 + zlen data) 8); [lia|].
  rw (proj2 (Z.ltb_ge _ _)) //. cbn [orb].
  pose proof (checksum_valid _ enc (hrp_values_range hrp data Hh Hd)) as Hvalid.
  pose proof (checksum_ok (feed 1 (hrp_values hrp ++ data)) enc) as Hcok.
  pose proof (length_checksum (feed 1 (hrp_values hrp ++ data)) enc) as Hcs.
  pose proof (zlen_bech32_text hrp data enc) as Hlen.
  replace (Z.to_nat (zlen hrp + 7 + zlen data)) with (length (bech32_text hrp data enc)) by (rewrite -Hlen zlen_length //).
  clear Hlen. revert Hvalid Hcok Hcs. rw /bech32_text. generalize (checksum (feed 1 (hrp_values hrp ++ data)) enc) as cs.
  intros cs Hvalid Hcok Hcs. rw count_data_correct.
  2: { apply Forall_map, Forall_app; split; [apply (Forall_impl _ _ _ Hd)|apply (Forall_impl _ _ _ Hcok)]; intros d Hdd; by apply symbol_facts. }
  assert (zlen (map symbol (data ++ cs)) = zlen data + 6) as -> by (rw /zlen length_map length_app Hcs; lia).
  cbn [mbind outcome_bind]. rw Z.add_0_l. destruct (Z.leb_spec (zlen hrp + 7 + zlen data) (1 + (zlen data + 6))); [lia|].
  rw (proj2 (Z.ltb_ge (zlen data + 6) 6)); [|lia]. cbn [orb].
  replace (zlen hrp + 7 + zlen data - (1 + (zlen data + 6))) with (zlen hrp) by lia. rw u32_small; [|lia].
  rw zlen_length take_app_length.
  destruct (read_hrp_correct hrp [] hrp_buf (mk_decode_state 1 false false hrp_buf)) as [low Hrh]; [done|unfold zlen in *; lia|done|].
  rewrite zlen_nil in Hrh. rw Hrh. cbn [mbind outcome_bind chk have_lower have_upper written app]. clear Hrh.
  destruct (drop (length hrp) hrp_buf) as [|x r] eqn:Hr.
  { apply (f_equal length) in Hr. rewrite length_drop in Hr. cbn in Hr. unfold zlen in *. lia. }
  rw store_middle. cbn [mbind outcome_bind]. rw hrp_low_bits_feed.
  replace (Z.to_nat (zlen hrp + 1)) with (length (hrp ++ [49])) by (rw length_app /zlen; cbn; lia).
  rw (cons_middle 49 hrp (map symbol (data ++ cs))) (app_assoc hrp [49]) drop_app_length.
  match goal with |- context [read_data _ _ _ _ ?s] =>
    destruct (read_data_text data cs (zlen hrp) s) as [low' ->]; [done..|] end.
  cbn [mbind outcome_bind chk have_lower have_upper written]. rewrite andb_false_r feed_hrp app_assoc feed_app Hvalid.
  exists r, (drop (length data) data_buf). replace (zlen data + 6 - 6) with (zlen data) by lia. by destruct enc.
Qed.

(** ** Regrouping bits is a change of base *)
Section convert.
Context (outbits inbits : Z) (Hout : 1 ≤ outbits ≤ 8) (Hin : 1 ≤ inbits ≤ 8).

(** The digits [t] written so far and the last [bits] bits of [val], as one number. *)
Definition pending (t : list Z) (val bits : Z) : Z := digits_val (2 ^ outbits) t * 2 ^ bits + val `mod` 2 ^ bits.

Lemma group_bits val bits : 0 ≤ val → 0 ≤ bits →
  u8 (Z.land (Z.shiftr val bits) (u32 (Z.shiftl 1 outbits) - 1)) = (val / 2 ^ bits) `mod` 2 ^ outbits.
Proof.
  intros Hv Hb. assert (2 ≤ 2 ^ outbits ≤ 2 ^ 8) as Hp.
  { split; [apply (Z.pow_le_mono_r 2 1); lia|apply Z.pow_le_mono_r; lia]. }
  rw Z.shiftl_mul_pow2; [|lia]. rw Z.mul_1_l u32_small; [|lia].
  replace (2 ^ outbits - 1) with (Z.ones outbits) by (rw Z.ones_equiv; lia).
  rw Z.land_ones; [|lia]. rw Z.shiftr_div_pow2 //. apply u8_small.
  pose proof (Z.mod_pos_bound (val / 2 ^ bits) (2 ^ outbits) ltac:(lia)). lia.
Qed.

Lemma emit_groups_correct fuel val bits t r :
  0 ≤ val → 0 ≤ bits → (Z.to_nat bits < fuel)%nat → digits_ok (2 ^ outbits) t →
  bits ≤ outbits * zlen r →
  ∃ bits' t' r', emit_groups fuel outbits val bits (at_end t r) = Val (bits', at_end t' r') ∧
    digits_ok (2 ^ outbits) t' ∧ 0 ≤ bits' < outbits ∧ pending t' val bits' = pending t val bits ∧
    zlen t' * outbits + bits' = zlen t * outbits + bits ∧ zlen t' + zlen r' = zlen t + zlen r.
Proof.
  intros Hv. revert bits t r. induction fuel as [|fuel IH]; intros bits t r Hb Hf Ht Hr; [lia|]. cbn [emit_groups].
  destruct (Z.leb_spec outbits bits) as [Hle|Hlt]; [|by exists bits, t, r].
  destruct r as [|x r]; [rewrite zlen_nil in Hr; lia|]. rewrite zlen_cons in Hr |- *.
  rw put_at_end group_bits; [|lia..]. cbn [mbind outcome_bind].
  set (d := (val / 2 ^ (bits - outbits)) `mod` 2 ^ outbits).
  assert (0 < 2 ^ outbits) by (apply Z.pow_pos_nonneg; lia).
  assert (0 < 2 ^ (bits - outbits)) by (apply Z.pow_pos_nonneg; lia).
  assert (digit_ok (2 ^ outbits) d) as Hd by (apply Z.mod_pos_bound; lia).
  destruct (IH (bits - outbits) (t ++ [d]) r) as (bits' & t' & r' & He & Hok & Hb' & Hp & Hn & Hlen).
  { lia. }
  { lia. }
  { apply Forall_app. split; [done|by constructor]. }
  { lia. }
  exists bits', t', r'. rewrite zlen_app in Hn, Hlen. change (zlen [d]) with 1 in Hn, Hlen.
  split_and!; [done|done|lia|lia| |lia|lia]. rw Hp /pending digits_val_app. change (zlen [d]) with 1.
  change (digits_val (2 ^ outbits) [d]) with (0 * 2 ^ outbits + d). rw Z.pow_1_r.
  replace (2 ^ bits) with (2 ^ (bits - outbits) * 2 ^ outbits) by (rw -Z.pow_add_r; [f_equal; lia|lia..]).
  rw (Z.rem_mul_r val); [|lia|lia]. rw -/d. nia.
Qed.

(** A group of [inbits] bits is added to [val], whose high bits may be lost. *)
Lemma push_bits val b bits :
  0 ≤ val → 0 ≤ b < 2 ^ inbits → 0 ≤ bits ≤ 8 →
  let val2 := Z.lor (u32 (Z.shiftl val inbits)) b in
  0 ≤ val2 < 2 ^ 32 ∧ val2 `mod` 2 ^ (bits + inbits) = val `mod` 2 ^ bits * 2 ^ inbits + b.
Proof.
  intros Hv Hb Hbits val2. set (q := val `mod` 2 ^ (32 - inbits)).
  assert (2 ^ 32 = 2 ^ (32 - inbits) * 2 ^ inbits) as E by (rw -Z.pow_add_r; [f_equal; lia|lia..]).
  assert (0 ≤ q < 2 ^ (32 - inbits)) as Hq by (apply Z.mod_pos_bound, Z.pow_pos_nonneg; lia).
  assert (val2 = q * 2 ^ inbits + b) as ->.
  { unfold val2. rw Z.shiftl_mul_pow2; [|lia]. rw /u32 E Z.mul_mod_distr_r; [|apply Z.pow_nonzero; lia..].
    rw -/q Z.lor_comm -Z.shiftl_mul_pow2; [|lia]. rw lor_shiftl_add; [|lia..]. rw Z.shiftl_mul_pow2; lia. }
  split; [nia|]. assert (q `mod` 2 ^ bits = val `mod` 2 ^ bits) as <-.
  { apply Z.mod_mod_divide. exists (2 ^ (32 - inbits - bits)). rw -Z.pow_add_r; [f_equal; lia|lia..]. }
  assert (0 < 2 ^ bits) by (apply Z.pow_pos_nonneg; lia).
  pose proof (Z.mod_pos_bound q (2 ^ bits) ltac:(lia)). pose proof (Z.div_mod q (2 ^ bits) ltac:(lia)).
  symmetry. apply (Z.mod_unique_pos _ _ (q / 2 ^ bits)); (rw Z.pow_add_r; [nia|lia|lia]).
Qed.

Lemma convert_loop_correct in_ done_ val bits t r :
  digits_ok (2 ^ inbits) in_ → 0 ≤ val → 0 ≤ bits < outbits → digits_ok (2 ^ outbits) t →
  pending t val bits = digits_val (2 ^ inbits) done_ → zlen t * outbits + bits = zlen done_ * inbits →
  bits + zlen in_ * inbits ≤ outbits * zlen r →
  ∃ val' bits' t' r', convert_loop outbits inbits in_ val bits (at_end t r) = Val (val', bits', at_end t' r') ∧
    0 ≤ val' ∧ 0 ≤ bits' < outbits ∧ digits_ok (2 ^ outbits) t' ∧
    pending t' val' bits' = digits_val (2 ^ inbits) (done_ ++ in_) ∧
    zlen t' * outbits + bits' = zlen (done_ ++ in_) * inbits ∧ zlen t' + zlen r' = zlen t + zlen r.
Proof.
  intros Hin_. revert done_ val bits t r. induction Hin_ as [|b in_ Hb Hin_ IH]; intros done_ val bits t r Hv Hbits Ht Hp Hn Hr.
  { exists val, bits, t, r. by rw app_nil_r. }
  cbn [convert_loop]. rewrite zlen_cons in Hr. pose proof (zlen_nonneg in_). pose proof (zlen_nonneg r).
  destruct (push_bits val b bits Hv Hb ltac:(lia)) as [Hv2 Hm2]. set (val2 := Z.lor _ b) in *.
  destruct (emit_groups_correct (S (Z.to_nat (bits + inbits))) val2 (bits + inbits) t r)
    as (bits' & t' & r' & -> & Hok & Hb' & Hp' & Hn' & Hl'); [lia|lia|lia|done|nia|].
  cbn [mbind outcome_bind].
  destruct (IH (done_ ++ [b]) val2 bits' t' r') as (v3 & b3 & t3 & r3 & He & ? & ? & ? & Hp3 & Hn3 & ?);
    [lia|lia|done| |rw zlen_app; change (zlen [b]) with 1; lia|nia|].
  { rw Hp' /pending digits_val_app. change (zlen [b]) with 1. change (digits_val (2 ^ inbits) [b]) with (0 * 2 ^ inbits + b).
    rw Z.pow_1_r -Hp /pending Hm2 Z.pow_add_r; [|lia..]. lia. }
  exists v3, b3, t3, r3. rewrite -!app_assoc in Hp3, Hn3. split_and!; try done; lia.
Qed.
Lemma rest_bits val bits : 0 ≤ val → 0 ≤ bits ≤ outbits →
  Z.land (u32 (Z.shiftl val (outbits - bits))) (u32 (Z.shiftl 1 outbits) - 1) = val `mod` 2 ^ bits * 2 ^ (outbits - bits).
Proof.
  intros Hv Hb. assert (2 ≤ 2 ^ outbits ≤ 2 ^ 8) as Hp.
  { split; [apply (Z.pow_le_mono_r 2 1); lia|apply Z.pow_le_mono_r; lia]. }
  rw !Z.shiftl_mul_pow2; [|lia..]. rw Z.mul_1_l (u32_small (2 ^ outbits)); [|lia].
  replace (2 ^ outbits - 1) with (Z.ones outbits) by (rw Z.ones_equiv; lia). rw Z.land_ones; [|lia].
  rw /u32 Z.mod_mod_divide; [|exists (2 ^ (32 - outbits)); rw -Z.pow_add_r; [f_equal; lia|lia..]].
  replace (2 ^ outbits) with (2 ^ bits * 2 ^ (outbits - bits)) by (rw -Z.pow_add_r; [f_equal; lia|lia..]).
  rw Z.mul_mod_distr_r; [done|apply Z.pow_nonzero; lia..].
Qed.

(** With padding, the number is multiplied by a power of two less than the
    base, so that it has a whole number of digits. *)
Lemma convert_pad out in_ :
  digits_ok (2 ^ inbits) in_ → zlen in_ * inbits ≤ outbits * zlen out →
  ∃ ds r p, convert_bits (out, 0) outbits in_ inbits true = Val (1, at_end ds r) ∧
    digits_ok (2 ^ outbits) ds ∧ 0 ≤ p < outbits ∧ zlen ds * outbits = zlen in_ * inbits + p ∧
    digits_val (2 ^ outbits) ds = digits_val (2 ^ inbits) in_ * 2 ^ p ∧ zlen ds + zlen r = zlen out.
Proof.
  intros Hok Hl. rw /convert_bits. change (out, 0) with (at_end [] out).
  destruct (convert_loop_correct in_ [] 0 0 [] out) as (val & bits & t & r & -> & Hv & Hb & Ht & Hp & Hn & Hlen);
    [done|lia|lia|done|done|done|lia|].
  cbn [mbind outcome_bind app] in *. rewrite zlen_nil in Hlen. rw rest_bits; [|lia..].
  destruct (Z.eqb_spec bits 0) as [->|Hb0]; cbn [negb].
  - exists t, r, 0. rewrite /pending Z.mod_1_r in Hp. split_and!; try done; lia.
  - destruct r as [|x r]; [rewrite zlen_nil in Hlen; nia|].
    assert (0 < 2 ^ bits ∧ 0 < 2 ^ (outbits - bits) ∧ 2 ^ outbits = 2 ^ bits * 2 ^ (outbits - bits)) as (Hp1 & Hp2 & Hsplit).
    { split_and!; [apply Z.pow_pos_nonneg; lia..|]. rw -Z.pow_add_r; [f_equal; lia|lia..]. }
    pose proof (Z.mod_pos_bound val (2 ^ bits) Hp1) as Hm.
    set (d := val `mod` 2 ^ bits * 2 ^ (outbits - bits)).
    assert (digit_ok (2 ^ outbits) d) as Hd by (unfold digit_ok, d; nia).
    assert (2 ^ outbits ≤ 2 ^ 8) by (apply Z.pow_le_mono_r; lia).
    rw u8_small; [|unfold digit_ok in Hd; lia]. rw put_at_end. cbn [mbind outcome_bind].
    exists (t ++ [d]), r, (outbits - bits). rewrite zlen_cons in Hlen. rw zlen_app. change (zlen [d]) with 1.
    split_and!; [done|apply Forall_app; split; [done|by constructor]|lia|lia|lia| |lia].
    rw digits_val_app -Hp /pending. change (zlen [d]) with 1. change (digits_val (2 ^ outbits) [d]) with (0 * 2 ^ outbits + d).
    rw Z.pow_1_r /d Hsplit. lia.
Qed.

(** Without padding, such a number is converted back. *)
Lemma convert_nopad out in_ bs p :
  digits_ok (2 ^ inbits) in_ → digits_ok (2 ^ outbits) bs → zlen in_ * inbits ≤ outbits * zlen out →
  0 ≤ p < outbits → p < inbits → zlen in_ * inbits = zlen bs * outbits + p →
  digits_val (2 ^ inbits) in_ = digits_val (2 ^ outbits) bs * 2 ^ p →
  ∃ r, convert_bits (out, 0) outbits in_ inbits false = Val (1, at_end bs r).
Proof.
  intros Hok Hbs Hl Hp Hpi Hn Hv. rw /convert_bits. change (out, 0) with (at_end [] out).
  destruct (convert_loop_correct in_ [] 0 0 [] out) as (val & bits & t & r & -> & Hval & Hb & Ht & Hpe & Hne & Hlen);
    [done|lia|lia|done|done|done|lia|].
  cbn [mbind outcome_bind app] in *. rw rest_bits; [|lia..].
  assert (zlen t = zlen bs) as Ht' by nia. assert (bits = p) as -> by nia.
  assert (0 < 2 ^ p) by (apply Z.pow_pos_nonneg; lia). pose proof (Z.mod_pos_bound val (2 ^ p) ltac:(lia)) as Hm.
  rewrite /pending Hv in Hpe.
  assert (digits_val (2 ^ outbits) t = digits_val (2 ^ outbits) bs) as Heq.
  { apply (f_equal (λ x, x / 2 ^ p)) in Hpe. rewrite Z.div_add_l ?Z.div_mul ?(Z.div_small (_ `mod` _)) in Hpe; lia. }
  rewrite Heq in Hpe. assert (val `mod` 2 ^ p = 0) as -> by lia.
  assert (t = bs) as -> by (apply (digits_val_inj (2 ^ outbits)); [apply (Z.pow_gt_1 2); lia|done..]).
  rw Z.mul_0_l. cbn [Z.eqb negb orb]. rw (proj2 (Z.leb_gt _ _)); [|lia]. by exists r.
Qed.
End convert.

(** ** Addresses *)

(** The witness versions and sizes of programs that have an address. *)
Definition witness_ok (witver len : Z) : Prop :=
  0 ≤ witver ≤ 16 ∧ 2 ≤ len ≤ 40 ∧ (witver = 0 → len = 20 ∨ len = 32).

Definition encoding_of (witver : Z) : bech32_encoding :=
  if 0 <? witver then BECH32_ENCODING_BECH32M else BECH32_ENCODING_BECH32.

Lemma encode_guards witver len :
  witness_ok witver len →
  (16 <? witver) = false ∧ (witver =? 0) && negb (len =? 20) && negb (len =? 32) = false ∧
  (len <? 2) || (40 <? len) = false.
Proof.
  intros (Hv & Hl & H0). split_and!; [lia| |lia].
  destruct (Z.eqb_spec witver 0); [|done]. destruct H0 as [-> | ->]; done.
Qed.

(** The five-bit groups of a program. *)
Definition groups_of (prog ds : list Z) (p : Z) : Prop :=
  digits_ok 32 ds ∧ 0 ≤ p < 5 ∧ zlen ds * 5 = zlen prog * 8 + p ∧ digits_val 32 ds = digits_val 256 prog * 2 ^ p.

Lemma segwit_addr_encode_text uninit output hrp witver prog :
  65 ≤ zlen uninit → hrp_ok hrp → zlen hrp ≤ 18 → bytes_ok prog → witness_ok witver (zlen prog) →
  73 + zlen hrp ≤ zlen output →
  ∃ ds p r, groups_of prog ds p ∧
    segwit_addr_encode uninit output hrp witver prog =
      Val (1, bech32_text hrp (witver :: ds) (encoding_of witver) ++ [0] ++ r) ∧
    zlen (bech32_text hrp (witver :: ds) (encoding_of witver) ++ [0] ++ r) = zlen output.
Proof.
  intros Hu Hh Hlh Hp Hw Ho. destruct (encode_guards _ _ Hw) as (H1 & H2 & H3). destruct Hw as (Hv & Hl & H0).
  rw /segwit_addr_encode H1 H2 H3 u8_small; [|lia].
  destruct uninit as [|x u]; [rewrite zlen_nil in Hu; lia|]. rewrite zlen_cons in Hu.
  change (take 65 (x :: u)) with ([] ++ x :: take 64 u). change (store ([] ++ x :: take 64 u) 0) with (store ([] ++ x :: take 64 u) (zlen (@nil Z))).
  rw store_middle. cbn [mbind outcome_bind app drop take]. rw drop_0 take_0.
  assert (zlen (take 64 u) = 64) as Hu64 by (apply (zlen_take 64); lia).
  destruct (convert_pad 5 8 ltac:(lia) ltac:(lia) (take 64 u) prog) as (ds & r & p & -> & Hok & Hpp & Hn & Hval & Hlen).
  { apply (Forall_impl _ _ _ Hp). done. }
  { lia. }
  cbn [mbind outcome_bind at_end app].
  replace (zlen ds + 1) with (zlen (witver :: ds)) by (rw zlen_cons; lia).
  change (witver :: ds ++ r) with ((witver :: ds) ++ r).
  rw loads_in_range; [|lia|apply zlen_nonneg|rw zlen_app; pose proof (zlen_nonneg r); lia].
  rw drop_0 zlen_length take_app_length. cbn [mbind outcome_bind]. rw -/(encoding_of witver).
  destruct (bech32_encode_ok output hrp (witver :: ds) (encoding_of witver)) as (r' & He & Hr'); rewrite ?zlen_cons; try lia; try done.
  { constructor; [unfold digit_ok; lia|done]. }
  exists ds, p, r'. split_and!; [exact (conj Hok (conj Hpp (conj Hn Hval)))|done|]. rewrite zlen_cons in Hr'.
  rw (zlen_app (bech32_text _ _ _)) zlen_bech32_text. cbn [app]. rw !zlen_cons. lia.
Qed.

Lemma segwit_addr_decode_text ud uh witdata hrp witver prog ds p :
  84 ≤ zlen ud → 84 ≤ zlen uh → 40 ≤ zlen witdata → hrp_ok hrp → hrp ≠ [] → zlen hrp ≤ 18 →
  bytes_ok prog → witness_ok witver (zlen prog) → groups_of prog ds p →
  ∃ r, segwit_addr_decode ud uh witdata hrp (bech32_text hrp (witver :: ds) (encoding_of witver)) =
    Val (Some (witver, prog ++ r, zlen prog)).
Proof.
  intros Hud Huh Hwd Hh Hne Hlh Hp Hw (Hds & Hpp & Hn & Hval).
  destruct (encode_guards _ _ Hw) as (H1 & H2 & H3). destruct Hw as (Hv & Hl & H0).
  pose proof (zlen_nonneg hrp).
  destruct (bech32_decode_text (take 84 uh) (take 84 ud) hrp (witver :: ds) (encoding_of witver)) as (r & r' & He);
    try done; rewrite ?zlen_cons ?(zlen_take 84) ; try lia.
  { constructor; [unfold digit_ok; lia|done]. }
  { rw /encoding_of. by destruct (0 <? witver). }
  rw /segwit_addr_decode He. cbn [mbind outcome_bind].
  rw zlen_cons. destruct (Z.eqb_spec (1 + zlen ds) 0); [lia|]. rw (proj2 (Z.ltb_ge 65 _)); [|lia]. cbn [orb].
  rw bool_decide_true.
  2: { rw Z.min_r; [|lia]. rw take_ge; [|rw length_app; unfold zlen in *; cbn; lia].
       replace (Z.to_nat (zlen hrp + 1)) with (length (hrp ++ [0])) by (rw length_app /zlen; cbn; lia).
       by rw app_assoc take_app_length. }
  cbn [negb app]. change (load (witver :: ds ++ r') 0) with (load ([] ++ witver :: ds ++ r') (zlen (@nil Z))). rw load_middle.
  cbn [mbind outcome_bind]. rw H1.
  assert ((witver =? 0) && negb (bool_decide (encoding_of witver = BECH32_ENCODING_BECH32)) = false) as ->.
  { rw /encoding_of. destruct (Z.eqb_spec witver 0) as [->|]; done. }
  assert ((0 <? witver) && negb (bool_decide (encoding_of witver = BECH32_ENCODING_BECH32M)) = false) as ->.
  { rw /encoding_of. by destruct (0 <? witver). }
  rw loads_in_range; [|lia|pose proof (zlen_nonneg ds); lia|rw zlen_cons zlen_app; pose proof (zlen_nonneg r'); lia].
  change (drop (Z.to_nat 1) (witver :: ds ++ r')) with (ds ++ r').
  replace (Z.to_nat (1 + zlen ds - 1)) with (length ds) by (rw /zlen; lia). rw take_app_length. cbn [mbind outcome_bind].
  destruct (convert_nopad 8 5 ltac:(lia) ltac:(lia) witdata ds prog p) as [r2 ->]; try lia; try done.
  cbn [mbind outcome_bind at_end Z.eqb]. rw H3 H2. by exists r2.
Qed.

(** C27: the addresses of witness programs.  For every witness version and
    program that has an address, [segwit_addr_encode] writes a text of the
    human-readable part, inside of its output, from which
    [segwit_addr_decode] gives back the version and the program: the checksum
    is accepted, bech32m is used exactly for the versions from 1 on, and the
    bits are regrouped without loss.  Everything else is refused. *)
Theorem segwit_addr_round_trip uninit output hrp witver prog :
  65 ≤ zlen uninit → hrp_ok hrp → hrp ≠ [] → zlen hrp ≤ 18 → bytes_ok prog → 0 ≤ witver →
  73 + zlen hrp ≤ zlen output →
  (witness_ok witver (zlen prog) →
   ∃ addr r, segwit_addr_encode uninit output hrp witver prog = Val (1, addr ++ [0] ++ r) ∧
     zlen (addr ++ [0] ++ r) = zlen output ∧
     ∀ ud uh witdata, 84 ≤ zlen ud → 84 ≤ zlen uh → 40 ≤ zlen witdata →
       ∃ r', segwit_addr_decode ud uh witdata hrp addr = Val (Some (witver, prog ++ r', zlen prog))) ∧
  (¬ witness_ok witver (zlen prog) → segwit_addr_encode uninit output hrp witver prog = Val (0, output)).
Proof.
  intros Hu Hh Hne Hlh Hp Hv Ho. split.
  - intros Hw. destruct (segwit_addr_encode_text uninit output hrp witver prog) as (ds & p & r & Hg & He & Hl); [done..|].
    eexists _, r. split_and!; [done|done|]. intros. by apply (segwit_addr_decode_text _ _ _ _ _ _ ds p).
  - intros Hw. rw /segwit_addr_encode. destruct (Z.ltb_spec 16 witver); [done|].
    destruct ((witver =? 0) && _ && _) eqn:H2; [done|]. destruct ((zlen prog <? 2) || _) eqn:H3; [done|].
    destruct Hw. split_and!; [lia..|]. intros ->. cbn in H2.
    destruct (Z.eqb_spec (zlen prog) 20), (Z.eqb_spec (zlen prog) 32); cbn in H2; auto. done.
Qed.

Lemma segwit_addr_round_trip_witness :
  ∃ addr r, segwit_addr_encode (replicate 65 7) (replicate 80 9) [115; 121; 115] 1 (replicate 32 255) = Val (1, addr ++ [0] ++ r) ∧
    zlen (addr ++ [0] ++ r) = 80 ∧
    ∀ ud uh witdata, 84 ≤ zlen ud → 84 ≤ zlen uh → 40 ≤ zlen witdata →
      ∃ r', segwit_addr_decode ud uh witdata [115; 121; 115] addr = Val (Some (1, replicate 32 255 ++ r', 32)).
Proof.
  apply (segwit_addr_round_trip (replicate 65 7) (replicate 80 9) [115; 121; 115] 1 (replicate 32 255)); try done.
  - repeat constructor; lia.
  - by apply (bool_decide_unpack _).
Defined.
