(* ===== verification/Crypto.v ===== *)
(** * Keys, hashes and taproot tweaks

    Models src/src/crypto.c and the wrappers of crypto.h.  The operating
    system's functions (hashes, arithmetic on 32-byte numbers, operations on
    the points of secp256k1, derivation from the seed) are the fields of a
    record [sdk]; a failing call is [None].  The 32-byte numbers are
    big-endian, and points are the 65 bytes 04 || x || y. *)

From S2P Require Import Prelude Bytes Bip32 Buffer Base58.

(** ** Hash contexts

    A hash context is the list of the bytes hashed so far. *)
Definition crypto_hash_update_varint (ctx : list Z) (data : Z) : outcome (list Z) :=
  '(len, buf) ← varint_write (replicate 9 0) 0 data;
  l ← loads buf 0 len;
  mret (ctx ++ l).

(** [crypto_hash_update] with the first [len] bytes of an array. *)
Definition crypto_hash_update (ctx data : list Z) (len : Z) : outcome (list Z) :=
  l ← loads data 0 len; mret (ctx ++ l).

Lemma crypto_hash_update_varint_spec ctx v :
  0 ≤ v < 2 ^ 64 → crypto_hash_update_varint ctx v = Val (ctx ++ varint_enc v).
Proof.
  intros Hv. rw /crypto_hash_update_varint varint_write_stores //. pose proof (varint_enc_zlen v) as Hz.
  pose proof (varint_size_le v).
  assert (zlen (replicate 9 0) = 9) as H9 by done.
  rw stores_in_range; [|lia..]. rw !outcome_ret_bind /=. rw -Hz.
  rw loads_in_range; [|lia|apply zlen_nonneg|rw zlen_app; pose proof (zlen_nonneg (drop (length (varint_enc v)) (replicate 9 0))); cbn in *; lia].
  rw outcome_ret_bind /= drop_0 zlen_length take_app_length. done.
Qed.

Lemma crypto_hash_update_spec ctx d n : zlen d = n → crypto_hash_update ctx d n = Val (ctx ++ d).
Proof.
  intros <-. rw /crypto_hash_update loads_in_range; [|lia|apply zlen_nonneg|lia].
  by rw outcome_ret_bind /= drop_0 zlen_length take_ge.
Qed.

(** ** The operating system *)
Record sdk := mk_sdk {
  cx_sha256 : list Z → list Z;
  cx_ripemd160 : list Z → list Z;
  cx_hmac_sha512 : list Z → list Z → list Z;
  cx_hmac_sha256 : list Z → list Z → list Z;
  (** a negative, zero or positive number *)
  cx_math_cmp : list Z → list Z → option Z;
  (** base, exponent, modulus *)
  cx_math_powm : list Z → list Z → list Z → option (list Z);
  cx_math_addm : list Z → list Z → list Z → option (list Z);
  cx_math_sub : list Z → list Z → option (list Z);
  cx_ecfp_scalar_mult : list Z → list Z → option (list Z);
  cx_ecfp_add_point : list Z → list Z → option (list Z);
  (** the public key and the chain code at a path *)
  bip32_derive_get_pubkey_256 : list Z → option (list Z * list Z);
  os_derive_slip21 : list Z → option (list Z)
}.

(** ** Constants *)
Definition secp256k1_generator : list Z :=
  [0x04;
   0x79; 0xBE; 0x66; 0x7E; 0xF9; 0xDC; 0xBB; 0xAC; 0x55; 0xA0; 0x62; 0x95; 0xCE; 0x87; 0x0B; 0x07;
   0x02; 0x9B; 0xFC; 0xDB; 0x2D; 0xCE; 0x28; 0xD9; 0x59; 0xF2; 0x81; 0x5B; 0x16; 0xF8; 0x17; 0x98;
   0x48; 0x3A; 0xDA; 0x77; 0x26; 0xA3; 0xC4; 0x65; 0x5D; 0xA4; 0xFB; 0xFC; 0x0E; 0x11; 0x08; 0xA8;
   0xFD; 0x17; 0xB4; 0x48; 0xA6; 0x85; 0x54; 0x19; 0x9C; 0x47; 0xD0; 0x8F; 0xFB; 0x10; 0xD4; 0xB8].
Definition secp256k1_p : list Z :=
  [0xff; 0xff; 0xff; 0xff; 0xff; 0xff; 0xff; 0xff; 0xff; 0xff; 0xff; 0xff; 0xff; 0xff; 0xff; 0xff;
   0xff; 0xff; 0xff; 0xff; 0xff; 0xff; 0xff; 0xff; 0xff; 0xff; 0xff; 0xfe; 0xff; 0xff; 0xfc; 0x2f].
Definition secp256k1_n : list Z :=
  [0xff; 0xff; 0xff; 0xff; 0xff; 0xff; 0xff; 0xff; 0xff; 0xff; 0xff; 0xff; 0xff; 0xff; 0xff; 0xfe;
   0xba; 0xae; 0xdc; 0xe6; 0xaf; 0x48; 0xa0; 0x3b; 0xbf; 0xd2; 0x5e; 0x8c; 0xd0; 0x36; 0x41; 0x41].
Definition secp256k1_sqr_exponent : list Z :=
  [0x3f; 0xff; 0xff; 0xff; 0xff; 0xff; 0xff; 0xff; 0xff; 0xff; 0xff; 0xff; 0xff; 0xff; 0xff; 0xff;
   0xff; 0xff; 0xff; 0xff; 0xff; 0xff; 0xff; 0xff; 0xff; 0xff; 0xff; 0xff; 0xbf; 0xff; 0xff; 0x0c].

(** "TapTweak", "TapBranch" and "TapLeaf". *)
Definition BIP0341_taptweak_tag : list Z := [0x54; 0x61; 0x70; 0x54; 0x77; 0x65; 0x61; 0x6b].
Definition BIP0341_tapbranch_tag : list Z := [0x54; 0x61; 0x70; 0x42; 0x72; 0x61; 0x6e; 0x63; 0x68].
Definition BIP0341_tapleaf_tag : list Z := [0x54; 0x61; 0x70; 0x4c; 0x65; 0x61; 0x66].

Definition BIP32_PUBKEY_VERSION_MAINNET : Z := 0x0488B21E.
Definition BIP32_PUBKEY_VERSION_TESTNET : Z := 0x043587CF.

(** ** Extended public keys *)
Record serialized_extended_pubkey := mk_xpub {
  xpub_version : list Z;
  depth : Z;
  parent_fingerprint : list Z;
  child_number : list Z;
  chain_code : list Z;
  compressed_pubkey : list Z
}.

(** The 78 bytes of the structure. *)
Definition xpub_bytes (k : serialized_extended_pubkey) : list Z :=
  xpub_version k ++ [depth k] ++ parent_fingerprint k ++ child_number k ++ chain_code k ++
  compressed_pubkey k.
Definition xpub_of_bytes (l : list Z) : serialized_extended_pubkey :=
  mk_xpub (slice l 0 4) (nth 4 l 0) (slice l 5 4) (slice l 9 4) (slice l 13 32) (slice l 45 33).

(** A number written with [write_u32_be]. *)
Definition u32_be (n : Z) : list Z := reverse (le_bytes 4 (u32 n)).

Section crypto.
Context (S : sdk).

(** ** Hashes *)
Definition crypto_ripemd160 (in_ : list Z) : list Z := cx_ripemd160 S in_.

Definition crypto_hash160 (in_ : list Z) : list Z := crypto_ripemd160 (cx_sha256 S in_).

(** [read_u32_be] of the first bytes of the hash. *)
Definition crypto_get_key_fingerprint (pub_key : list Z) : Z := be_val (take 4 (crypto_hash160 pub_key)).

(** A hash context is the list of the bytes hashed so far. *)
Definition crypto_tr_tagged_hash_init (tag : list Z) : list Z :=
  let hashtag := cx_sha256 S tag in hashtag ++ hashtag.

Definition crypto_tr_tapleaf_hash_init : list Z := crypto_tr_tagged_hash_init BIP0341_tapleaf_tag.

(** [data2] is used when its length is positive. *)
Definition crypto_tr_tagged_hash (tag data data2 : list Z) : list Z :=
  cx_sha256 S (crypto_tr_tagged_hash_init tag ++ data ++ data2).

(** The order of [memcmp] on arrays of the same length. *)
Fixpoint memcmp_lt (a b : list Z) : bool :=
  match a, b with
  | x :: a', y :: b' => if x =? y then memcmp_lt a' b' else x <? y
  | _, _ => false
  end.

Definition crypto_tr_combine_taptree_hashes (left_h right_h : list Z) : list Z :=
  if memcmp_lt left_h right_h then crypto_tr_tagged_hash BIP0341_tapbranch_tag left_h right_h
  else crypto_tr_tagged_hash BIP0341_tapbranch_tag right_h left_h.

(** ** Points *)
Definition secp256k1_point (k : list Z) : option (list Z) := cx_ecfp_scalar_mult S secp256k1_generator k.

Definition crypto_get_compressed_pubkey (uncompressed_key : list Z) : option (list Z) :=
  if negb (nth 0 uncompressed_key 0 =? 0x04) then None
  else Some ((if nth 64 uncompressed_key 0 `mod` 2 =? 1 then 0x03 else 0x02) :: slice uncompressed_key 1 32).

(** The number 7 in 32 bytes. *)
Definition scalar_7 : list Z := replicate 31 0 ++ [7].

Definition crypto_get_uncompressed_pubkey (compressed_key : list Z) : option (list Z) :=
  let prefix := nth 0 compressed_key 0 in
  if negb (prefix =? 0x02) && negb (prefix =? 0x03) then None
  else
    let x := slice compressed_key 1 32 in
    y ← cx_math_powm S x [3] secp256k1_p;
    y ← cx_math_addm S y scalar_7 secp256k1_p;
    y ← cx_math_powm S y secp256k1_sqr_exponent secp256k1_p;
    y ← (if negb (Z.land (Z.lxor prefix (nth 31 y 0)) 1 =? 0) then cx_math_sub S secp256k1_p y else Some y);
    Some (0x04 :: x ++ y).

Definition crypto_tr_lift_x (x : list Z) : option (list Z) :=
  c ← cx_math_powm S x [3] secp256k1_p;
  c ← cx_math_addm S c scalar_7 secp256k1_p;
  y ← cx_math_powm S c secp256k1_sqr_exponent secp256k1_p;
  y_2 ← cx_math_powm S y [2] secp256k1_p;
  diff ← cx_math_cmp S y_2 c;
  if negb (diff =? 0) then None
  else
    y ← (if negb (Z.land (nth 31 y 0) 1 =? 0) then cx_math_sub S secp256k1_p y else Some y);
    Some (0x04 :: x ++ y).

(** ** Derivation of public keys

    [uninit] is the uninitialised array [K_par]: the result of
    [crypto_get_uncompressed_pubkey] is not checked.  The result is the
    returned code and the contents of [child], which may be the same object as
    [parent]. *)
Definition bip32_CKDpub (uninit : list Z) (parent : serialized_extended_pubkey) (index : Z)
    (child : serialized_extended_pubkey) : Z * serialized_extended_pubkey :=
  if BIP32_FIRST_HARDENED_CHILD <=? index then (-1, child)
  else if depth parent =? 255 then (-1, child)
  else
    let I := cx_hmac_sha512 S (chain_code parent) (compressed_pubkey parent ++ u32_be index) in
    let I_L := take 32 I in
    let I_R := slice I 32 32 in
    match cx_math_cmp S I_L secp256k1_n with
    | None => (-1, child)
    | Some diff =>
        if 0 <=? diff then (-1, child)
        else
          match secp256k1_point I_L with
          | None => (-1, child)
          | Some P =>
              let K_par := default uninit (crypto_get_uncompressed_pubkey (compressed_pubkey parent)) in
              match cx_ecfp_add_point S P K_par with
              | None => (-1, child)
              | Some child_uncompressed_pubkey =>
                  (0, mk_xpub (xpub_version parent) (u8 (depth parent + 1))
                        (u32_be (crypto_get_key_fingerprint (compressed_pubkey parent))) (u32_be index) I_R
                        (default (compressed_pubkey child)
                           (crypto_get_compressed_pubkey child_uncompressed_pubkey)))
              end
          end
    end.

(** ** Keys of the device *)
Definition crypto_get_compressed_pubkey_at_path (bip32_path : list Z) : option (list Z * list Z) :=
  '(raw_public_key, cc) ← bip32_derive_get_pubkey_256 S bip32_path;
  pubkey ← crypto_get_compressed_pubkey raw_public_key;
  Some (pubkey, cc).

(** [BIP32_PUBKEY_VERSION] is fixed when the application is built. *)
Definition crypto_get_master_fingerprint_path (BIP32_PUBKEY_VERSION : Z) : list Z :=
  if BIP32_PUBKEY_VERSION =? BIP32_PUBKEY_VERSION_MAINNET then [0x8000002c; 0x80000039]
  else if BIP32_PUBKEY_VERSION =? BIP32_PUBKEY_VERSION_TESTNET then [0x8000002c; 0x80000001]
  else [].

(** [uninit]: the key that was not computed. *)
Definition crypto_get_master_key_fingerprint (BIP32_PUBKEY_VERSION : Z) (uninit : list Z) : Z :=
  crypto_get_key_fingerprint
    (default uninit (fst <$> crypto_get_compressed_pubkey_at_path
                               (crypto_get_master_fingerprint_path BIP32_PUBKEY_VERSION))).

(** The label is copied into an array of 32 bytes. *)
Definition crypto_derive_symmetric_key (label : list Z) : outcome (option (list Z)) :=
  _ ← stores (replicate 32 0) 0 label;
  mret (os_derive_slip21 S label).

Definition get_extended_pubkey_at_path (bip32_path : list Z) (bip32_pubkey_version : Z)
    : option serialized_extended_pubkey :=
  '(fpr, number) ←
    (if 0 <? zlen bip32_path then
       '(parent_pubkey, _) ← crypto_get_compressed_pubkey_at_path (take (length bip32_path - 1) bip32_path);
       Some (crypto_get_key_fingerprint parent_pubkey, List.last bip32_path 0)
     else Some (0, 0));
  '(pubkey, cc) ← crypto_get_compressed_pubkey_at_path bip32_path;
  Some (mk_xpub (u32_be bip32_pubkey_version) (u8 (zlen bip32_path)) (u32_be fpr) (u32_be number) cc pubkey).

(** ** Addresses

    The bytes of the version prefix. *)
Definition version_bytes (version : Z) : list Z :=
  if version <? 256 then [version]
  else if version <? 65536 then reverse (le_bytes 2 version)
  else u32_be version.

Definition base58_encode_address (in_ : list Z) (version out_len : Z) : outcome (option (list Z)) :=
  let tmp := version_bytes version ++ take 20 in_ in
  let tmp := tmp ++ take 4 (cx_sha256 S (cx_sha256 S tmp)) in
  base58_encode tmp (zlen tmp) out_len.

(** ** Taproot *)

(** The parity and the x coordinate of the tweaked key. *)
Definition crypto_tr_tweak_pubkey (pubkey h : list Z) : option (Z * list Z) :=
  let t := crypto_tr_tagged_hash BIP0341_taptweak_tag pubkey h in
  diff ← cx_math_cmp S t secp256k1_n;
  if 0 <=? diff then None
  else
    lifted_pubkey ← crypto_tr_lift_x pubkey;
    Q ← secp256k1_point t;
    Q ← cx_ecfp_add_point S Q lifted_pubkey;
    Some (Z.land (nth 64 Q 0) 1, slice Q 1 32).

Definition crypto_tr_tweak_seckey (seckey h : list Z) : option (list Z) :=
  P ← secp256k1_point seckey;
  out ← (if negb (Z.land (nth 64 P 0) 1 =? 0) then cx_math_sub S secp256k1_n seckey else Some seckey);
  let t := crypto_tr_tagged_hash BIP0341_taptweak_tag (slice P 1 32) h in
  diff ← cx_math_cmp S t secp256k1_n;
  if 0 <=? diff then None
  else cx_math_addm S out t secp256k1_n.
End crypto.
