(* ===== verification/Address.v ===== *)
(** * Addresses of output scripts

    Models [get_script_address] of src/src/common/script.c: the text that the
    device shows for an output.  The theorems state that a script has an address
    exactly if it is of a standard type, and that two scripts never have the
    same address: what the user compares determines where the money goes. *)

From S2P Require Import Prelude Bytes Script Base58 Segwit Crypto.

(** The macros of the Makefile that depend on the coin. *)
Record coin := mk_coin {
  COIN_P2PKH_VERSION : Z;
  COIN_P2SH_VERSION : Z;
  COIN_NATIVE_SEGWIT_PREFIX : list Z
}.

(** The variants of the application: prefixes "sys" and "tb". *)
Definition syscoin : coin := mk_coin 63 5 [115; 121; 115].
Definition syscoin_test : coin := mk_coin 111 196 [116; 98].

Section address.
Context (os : sdk) (c : coin).

(** The cases of base 58; [out] is the output array. *)
Definition legacy_address (hash : list Z) (version : Z) (out : list Z) : outcome (Z * list Z) :=
  r ← base58_encode_address os hash version (size_t (zlen out - 1));
  match r with
  | None => mret (-1, out)
  | Some text =>
      out ← stores out 0 text;
      out ← store out (zlen text) 0;
      mret (zlen text, out)
  end.

(** The cases of segwit; [uninit] is the contents of a local array of
    [segwit_addr_encode]. *)
Definition segwit_address (uninit script out : list Z) : outcome (Z * list Z) :=
  prog_len ← load script 1;
  v ← load script 0;
  let version := if v =? 0 then 0 else v - 80 in
  if zlen out <? 73 + zlen (COIN_NATIVE_SEGWIT_PREFIX c) then mret (-1, out)
  else
    prog ← loads script 2 prog_len;
    '(ret, out) ← segwit_addr_encode uninit out (COIN_NATIVE_SEGWIT_PREFIX c) version prog;
    if negb (ret =? 1) then mret (-1, out)
    else
      let addr_len := zlen (c_string out) in
      out ← store out addr_len 0;
      mret (addr_len, out).

Definition get_script_address (uninit script : list Z) (script_len : Z) (out : list Z) : outcome (Z * list Z) :=
  t ← get_script_type script script_len;
  match t with
  | Some SCRIPT_TYPE_P2PKH => h ← loads script 3 20; legacy_address h (COIN_P2PKH_VERSION c) out
  | Some SCRIPT_TYPE_P2SH => h ← loads script 2 20; legacy_address h (COIN_P2SH_VERSION c) out
  | Some (SCRIPT_TYPE_P2WPKH | SCRIPT_TYPE_P2WSH | SCRIPT_TYPE_P2TR | SCRIPT_TYPE_UNKNOWN_SEGWIT) =>
      segwit_address uninit script out
  | None => mret (-1, out)
  end.
End address.

(** ** Texts of base 58 *)

(** The number of characters after the first one of the address of a version. *)
Definition tail_chars (version : Z) : Z := if (version + 1) * 256 ^ 24 <=? 58 ^ 34 then 33 else 34.

(** The conditions on the macros: versions of one byte, different from each
    other, whose addresses have a fixed number of characters and do not start
    like a segwit address. *)
Definition version_ok (c : coin) (version : Z) : Prop :=
  let unit := 58 ^ tail_chars version in
  let lo := version * 256 ^ 24 / unit in
  let hi := ((version + 1) * 256 ^ 24 - 1) / unit in
  unit ≤ version * 256 ^ 24 ∧ (version + 1) * 256 ^ 24 ≤ 58 * unit ∧ 0 ≤ version < 256 ∧
  Forall (λ d, head (COIN_NATIVE_SEGWIT_PREFIX c) ≠ Some (alpha d)) (seqZ lo (hi - lo + 1)).
Definition coin_ok (c : coin) : Prop :=
  version_ok c (COIN_P2PKH_VERSION c) ∧ version_ok c (COIN_P2SH_VERSION c) ∧
  COIN_P2PKH_VERSION c ≠ COIN_P2SH_VERSION c ∧
  hrp_ok (COIN_NATIVE_SEGWIT_PREFIX c) ∧ COIN_NATIVE_SEGWIT_PREFIX c ≠ [] ∧
  zlen (COIN_NATIVE_SEGWIT_PREFIX c) ≤ 18.

Global Instance coin_ok_dec c : Decision (coin_ok c).
Proof. unfold coin_ok, version_ok, hrp_ok. apply _. Defined.

Lemma syscoin_ok : coin_ok syscoin ∧ coin_ok syscoin_test.
Proof. apply (bool_decide_unpack _). vm_compute. exact I. Qed.

(** The text of a version and 24 bytes starts with a digit of the version. *)
Lemma legacy_digits c v bs ds :
  version_ok c v → bytes_ok bs → zlen bs = 24 → same_number ds (v :: bs) →
  ∃ d ds', ds = d :: ds' ∧ zlen ds' = tail_chars v ∧ head (COIN_NATIVE_SEGWIT_PREFIX c) ≠ Some (alpha d).
Proof.
  intros (Hlo & Hhi & Hv & Hhead) Hbs Hlen (Hds & _ & Hz & Hval).
  set (unit := 58 ^ tail_chars v) in *.
  assert (0 ≤ tail_chars v) as Ht by (unfold tail_chars; case_match; lia).
  assert (0 < unit) as Hu by (apply Z.pow_pos_nonneg; lia).
  assert (v ≠ 0) as Hv0 by lia.
  rewrite digits_val_cons Hlen in Hval.
  pose proof (digits_val_range 256 ltac:(lia) bs Hbs) as Hr. rewrite Hlen in Hr.
  assert (leading_zeros (v :: bs) = 0) as Hz0 by (clear -Hv0; by destruct v). rewrite Hz0 in Hz.
  destruct ds as [|d ds'].
  { change (digits_val 58 []) with 0 in Hval. lia. }
  assert (d ≠ 0) as Hd0.
  { intros ->. cbn [leading_zeros] in Hz. pose proof (leading_zeros_range ds'). lia. }
  pose proof (digits_val_nonzero 58 ltac:(lia) d ds' Hds Hd0) as Hn.
  pose proof (digits_val_range 58 ltac:(lia) _ Hds) as Hr2. rewrite zlen_cons Z.pow_add_r in Hr2; [|lia|apply zlen_nonneg].
  pose proof (zlen_nonneg ds') as Hnn.
  assert (zlen ds' = tail_chars v) as Hl.
  { destruct (Z.lt_trichotomy (zlen ds') (tail_chars v)) as [H|[H|H]]; [exfalso|done|exfalso].
    - assert (58 ^ (1 + zlen ds') ≤ unit) by (apply Z.pow_le_mono_r; lia). rewrite Z.pow_add_r in H0; lia.
    - assert (58 ^ (1 + tail_chars v) ≤ 58 ^ zlen ds') by (apply Z.pow_le_mono_r; lia).
      rewrite Z.pow_add_r -/unit in H0; lia. }
  exists d, ds'. split_and!; [done|done|]. rewrite Forall_forall in Hhead. apply Hhead. apply elem_of_seqZ.
  apply Forall_cons in Hds as [Hd Hds']. pose proof (digits_val_range 58 ltac:(lia) _ Hds') as Hr3. rewrite Hl -/unit in Hr3.
  rewrite digits_val_cons Hl -/unit in Hval.
  assert (d = (v * 256 ^ 24 + digits_val 256 bs) / unit) as ->.
  { rewrite Hval Z.div_add_l; [|lia]. rewrite Z.div_small; lia. }
  split.
  - apply Z.div_le_mono; lia.
  - assert ((v * 256 ^ 24 + digits_val 256 bs) / unit ≤ ((v + 1) * 256 ^ 24 - 1) / unit) by (apply Z.div_le_mono; lia). lia.
Qed.

Lemma alpha_inj ds ds' : digits_ok 58 ds → digits_ok 58 ds' → map alpha ds = map alpha ds' → ds = ds'.
Proof.
  intros Hd Hd' He. pose proof (translate_text ds Hd) as H. rewrite He (translate_text ds' Hd') in H. by simplify_eq.
Qed.

(** ** The address of a script *)
Section spec.
Context (os : sdk) (c : coin).

(** The four bytes that end the base-58 text of a payload. *)
Definition payload_checksum (payload : list Z) : list Z := take 4 (cx_sha256 os (cx_sha256 os payload)).
Definition witness_opcode (v : Z) : Z := if v =? 0 then 0 else 80 + v.

(** The scripts that have an address, with its text. *)
Inductive address_of : list Z → list Z → Prop :=
| address_P2PKH h ds :
    zlen h = 20 → bytes_ok h →
    same_number ds (COIN_P2PKH_VERSION c :: h ++ payload_checksum (COIN_P2PKH_VERSION c :: h)) →
    address_of ([OP_DUP; OP_HASH160; 20] ++ h ++ [OP_EQUALVERIFY; OP_CHECKSIG]) (map alpha ds)
| address_P2SH h ds :
    zlen h = 20 → bytes_ok h →
    same_number ds (COIN_P2SH_VERSION c :: h ++ payload_checksum (COIN_P2SH_VERSION c :: h)) →
    address_of ([OP_HASH160; 20] ++ h ++ [OP_EQUAL]) (map alpha ds)
| address_segwit v prog ds p :
    bytes_ok prog → witness_ok v (zlen prog) → groups_of prog ds p →
    address_of ([witness_opcode v; zlen prog] ++ prog)
      (bech32_text (COIN_NATIVE_SEGWIT_PREFIX c) (v :: ds) (encoding_of v)).

Context (Hc : coin_ok c).
Context (Hsha : ∀ l, bytes_ok (cx_sha256 os l) ∧ zlen (cx_sha256 os l) = 32).

Lemma payload_ok version h : bytes_ok h → zlen h = 20 →
  bytes_ok (h ++ payload_checksum (version :: h)) ∧ zlen (h ++ payload_checksum (version :: h)) = 24.
Proof.
  intros Hh Hl. destruct (Hsha (cx_sha256 os (version :: h))) as [Hok Hlen]. split.
  - apply Forall_app. split; [done|by apply Forall_take].
  - rw zlen_app Hl /payload_checksum (zlen_take 4); lia.
Qed.

(** Different scripts have different addresses. *)
Lemma legacy_inj v v' h h' ds ds' :
  version_ok c v → version_ok c v' → bytes_ok h → bytes_ok h' → zlen h = 20 → zlen h' = 20 →
  same_number ds (v :: h ++ payload_checksum (v :: h)) →
  same_number ds' (v' :: h' ++ payload_checksum (v' :: h')) →
  map alpha ds = map alpha ds' → v = v' ∧ h = h'.
Proof.
  intros Hv Hv' Hh Hh' Hl Hl' Hs Hs' He.
  assert (ds = ds') as -> by (apply alpha_inj; [apply Hs|apply Hs'|done]).
  pose proof (proj1 (same_number_inj _ _ _ _ Hs Hs') eq_refl) as [= -> E].
  split; [done|]. apply app_inj_1 in E as [-> _]; [done|unfold zlen in *; lia].
Qed.

Lemma legacy_not_segwit v h ds data enc :
  version_ok c v → bytes_ok h → zlen h = 20 → same_number ds (v :: h ++ payload_checksum (v :: h)) →
  map alpha ds = bech32_text (COIN_NATIVE_SEGWIT_PREFIX c) data enc → False.
Proof.
  intros Hv Hh Hl Hs He. destruct (payload_ok v h Hh Hl) as [Hok H24].
  destruct (legacy_digits c v _ ds Hv Hok H24 Hs) as (d & ds' & -> & _ & Hhead).
  destruct Hc as (_ & _ & _ & _ & Hne & _). apply (f_equal head) in He.
  rewrite /bech32_text in He. destruct (COIN_NATIVE_SEGWIT_PREFIX c) as [|x hrp]; [done|]. cbn in He, Hhead. congruence.
Qed.

Lemma segwit_inj v v' prog prog' ds ds' p p' :
  bytes_ok prog → bytes_ok prog' → witness_ok v (zlen prog) → witness_ok v' (zlen prog') →
  groups_of prog ds p → groups_of prog' ds' p' →
  bech32_text (COIN_NATIVE_SEGWIT_PREFIX c) (v :: ds) (encoding_of v) =
  bech32_text (COIN_NATIVE_SEGWIT_PREFIX c) (v' :: ds') (encoding_of v') → v = v' ∧ prog = prog'.
Proof.
  intros Hp Hp' Hw Hw' Hg Hg' He. destruct Hc as (_ & _ & _ & Hh & Hne & H18).
  destruct (segwit_addr_decode_text (replicate 84 0) (replicate 84 0) (replicate 40 0) _ v prog ds p
    ltac:(done) ltac:(done) ltac:(done) Hh Hne H18 Hp Hw Hg) as [r Hr].
  destruct (segwit_addr_decode_text (replicate 84 0) (replicate 84 0) (replicate 40 0) _ v' prog' ds' p'
    ltac:(done) ltac:(done) ltac:(done) Hh Hne H18 Hp' Hw' Hg') as [r' Hr'].
  rewrite He Hr' in Hr. injection Hr as -> E Hl. split; [done|].
  apply app_inj_1 in E as [-> _]; [done|unfold zlen in *; lia].
Qed.

Lemma address_of_inj s s' text text' : address_of s text → address_of s' text' → text = text' → s = s'.
Proof.
  destruct Hc as (Hpkh & Hsh & Hneq & _).
  intros [h ds Hl Hh Hs|h ds Hl Hh Hs|v prog ds p Hp Hw Hg] [h' ds' Hl' Hh' Hs'|h' ds' Hl' Hh' Hs'|v' prog' ds' p' Hp' Hw' Hg'] Ht.
  - by destruct (legacy_inj _ _ h h' ds ds' Hpkh Hpkh) as [_ ->].
  - by destruct (legacy_inj _ _ h h' ds ds' Hpkh Hsh) as [? _].
  - by destruct (legacy_not_segwit _ h ds _ _ Hpkh Hh Hl Hs Ht).
  - by destruct (legacy_inj _ _ h h' ds ds' Hsh Hpkh) as [? _].
  - by destruct (legacy_inj _ _ h h' ds ds' Hsh Hsh) as [_ ->].
  - by destruct (legacy_not_segwit _ h ds _ _ Hsh Hh Hl Hs Ht).
  - by destruct (legacy_not_segwit _ h' ds' _ _ Hpkh Hh' Hl' Hs' (eq_sym Ht)).
  - by destruct (legacy_not_segwit _ h' ds' _ _ Hsh Hh' Hl' Hs' (eq_sym Ht)).
  - by destruct (segwit_inj v v' prog prog' ds ds' p p') as [-> ->].
Qed.

(** ** What [get_script_address] writes *)
Lemma digit_texts ds : digits_ok 58 ds → Forall (λ x, x ≠ 0) (map alpha ds).
Proof.
  intros Hds. apply Forall_map, (Forall_impl _ _ _ Hds). intros d Hd. cbn.
  destruct (translate_alpha d Hd) as [Hr _]. lia.
Qed.

Lemma bech32_nonzero hrp data enc : hrp_ok hrp → digits_ok 32 data → Forall (λ x, x ≠ 0) (bech32_text hrp data enc).
Proof.
  intros Hh Hd. rw /bech32_text !Forall_app. repeat split.
  - apply (Forall_impl _ _ _ Hh). lia.
  - by repeat constructor.
  - apply Forall_map. assert (digits_ok 32 (data ++ checksum (feed 1 (hrp_values hrp ++ data)) enc)) as Ha.
    { apply Forall_app. split; [done|apply checksum_ok]. }
    apply (Forall_impl _ _ _ Ha). intros d Hdd. cbn. destruct (symbol_facts d Hdd) as [Hl _]. intros E. rewrite E in Hl.
    apply load_Val in Hl as [_ Hl]. cbn in Hl. injection Hl as <-. done.
Qed.

(** The outcome of a run: an address with its terminator, or -1. *)
Definition writes_address (out : list Z) (s : list Z) (r : outcome (Z * list Z)) : Prop :=
  ∃ text rest, r = Val (zlen text, text ++ 0 :: rest) ∧ zlen (text ++ 0 :: rest) = zlen out ∧
    Forall (λ x, x ≠ 0) text ∧ address_of s text.

Lemma legacy_writes v h out s :
  version_ok c v → bytes_ok h → zlen h = 20 → 73 ≤ zlen out < 2 ^ 32 →
  (∀ ds, same_number ds (v :: h ++ payload_checksum (v :: h)) → address_of s (map alpha ds)) →
  writes_address out s (legacy_address os h v out).
Proof.
  intros Hv Hh Hl Ho Ha. destruct (payload_ok v h Hh Hl) as [Hok H24]. destruct (Hv) as (_ & _ & Hv256 & _).
  rw /legacy_address /base58_encode_address /version_bytes (proj2 (Z.ltb_lt _ _)); [|lia].
  rw take_ge; [|unfold zlen in Hl; lia]. rw -/(payload_checksum ([v] ++ h)) -app_assoc. cbn [app].
  destruct (encode_bytes (v :: h ++ payload_checksum (v :: h)) (size_t (zlen out - 1))) as (ds & Hs & ->).
  { by constructor. }
  { rw zlen_cons H24. unfold MAX_ENC_INPUT_SIZE. lia. }
  destruct (legacy_digits c v _ ds Hv Hok H24 Hs) as (d & ds' & E & Ht & _).
  assert (zlen ds ≤ 35) as H35 by (rewrite E zlen_cons Ht /tail_chars; case_match; lia).
  rw u32_small; [|lia]. rw decide_True; [|lia]. cbn [mbind outcome_bind].
  assert (zlen (map alpha ds) = zlen ds) as Hm by rw /zlen length_map //.
  rw stores_in_range; [|lia|lia]. cbn [mbind outcome_bind]. change (Z.to_nat 0) with O. rw take_0. cbn [app].
  destruct (drop (0 + length (map alpha ds)) out) as [|x r] eqn:Hd;
    apply (f_equal zlen) in Hd; rewrite Nat.add_0_l -(zlen_length (map alpha ds)) zlen_drop in Hd; try (unfold zlen in *; lia).
  { rewrite zlen_nil in Hd. lia. }
  rewrite zlen_cons in Hd. rw store_middle. cbn [mbind outcome_bind].
  exists (map alpha ds), r. split_and!; [done|rw zlen_app zlen_cons; lia|apply digit_texts, Hs|by apply Ha].
Qed.

Lemma segwit_writes uninit v prog out :
  65 ≤ zlen uninit → bytes_ok prog → 0 ≤ v ≤ 16 → 2 ≤ zlen prog ≤ 40 →
  73 + zlen (COIN_NATIVE_SEGWIT_PREFIX c) ≤ zlen out →
  let s := [witness_opcode v; zlen prog] ++ prog in
  (witness_ok v (zlen prog) → writes_address out s (segwit_address c uninit s out)) ∧
  (¬ witness_ok v (zlen prog) → segwit_address c uninit s out = Val (-1, out)).
Proof.
  intros Hu Hp Hv Hl Ho s. destruct Hc as (_ & _ & _ & Hh & _ & H18).
  assert (segwit_address c uninit s out =
    ('(ret, out) ← segwit_addr_encode uninit out (COIN_NATIVE_SEGWIT_PREFIX c) v prog;
     if negb (ret =? 1) then mret (-1, out)
     else out2 ← store out (zlen (c_string out)) 0; mret (zlen (c_string out), out2))) as ->.
  { rw /segwit_address.
    assert (load s 1 = Val (zlen prog)) as -> by apply (load_middle [_]).
    assert (load s 0 = Val (witness_opcode v)) as -> by apply (load_middle []).
    assert (loads s 2 (zlen prog) = Val prog) as Hprog.
    { rw loads_in_range; [|lia|lia|unfold s; rw zlen_app; change (zlen [_; _]) with 2; lia].
      unfold s. change (drop (Z.to_nat 2) ([witness_opcode v; zlen prog] ++ prog)) with prog. by rw zlen_length firstn_all. }
    cbn [mbind outcome_bind]. rw Hprog.
    assert ((if witness_opcode v =? 0 then 0 else witness_opcode v - 80) = v) as ->.
    { rw /witness_opcode. destruct (Z.eqb_spec v 0) as [->|]; [done|]. rw (proj2 (Z.eqb_neq _ _)); lia. }
    by rw (proj2 (Z.ltb_ge _ _)); [|lia]. }
  split.
  - intros Hw. destruct (segwit_addr_encode_text uninit out _ v prog Hu Hh H18 Hp Hw Ho) as (ds & p & r & Hg & -> & Hlen).
    cbn [mbind outcome_bind app Z.eqb negb]. set (text := bech32_text _ _ _) in *.
    assert (Forall (λ x, x ≠ 0) text) as Hnz.
    { apply bech32_nonzero; [done|]. constructor; [unfold digit_ok; lia|apply Hg]. }
    rw c_string_app // store_middle. cbn [mbind outcome_bind].
    exists text, r. split_and!; [done|done|done|]. by apply (address_segwit v prog ds p).
  - intros Hw. rw /segwit_addr_encode. rw (proj2 (Z.ltb_ge _ _)); [|lia].
    destruct ((v =? 0) && _ && _) eqn:H2; [done|].
    destruct Hw. split_and!; [lia..|]. intros ->. cbn in H2.
    destruct (Z.eqb_spec (zlen prog) 20), (Z.eqb_spec (zlen prog) 32); cbn in H2; auto. done.
Qed.

(** A script has an address if it is of a standard type, or a witness program of
    a future version. *)
Definition has_address (s : list Z) : Prop :=
  ∃ t, has_type s t ∧ (t = SCRIPT_TYPE_UNKNOWN_SEGWIT → head s ≠ Some OP_0).

Definition result_ok (s out : list Z) (r : outcome (Z * list Z)) : Prop :=
  (has_address s ∧ writes_address out s r) ∨ (¬ has_address s ∧ r = Val (-1, out)).

Lemma known_result s t out r :
  has_type s t → t ≠ SCRIPT_TYPE_UNKNOWN_SEGWIT → writes_address out s r → result_ok s out r.
Proof. intros Ht Hn Hw. left. split; [by exists t|done]. Qed.

(** The witness programs of the known types. *)
Lemma known_segwit uninit s t v n out :
  65 ≤ zlen uninit → bytes_ok s → 73 + zlen (COIN_NATIVE_SEGWIT_PREFIX c) ≤ zlen out →
  has_type s t → t ≠ SCRIPT_TYPE_UNKNOWN_SEGWIT → template [witness_opcode v; n] n [] s → witness_ok v n →
  result_ok s out (segwit_address c uninit s out).
Proof.
  intros Hu Hs Ho Ht Hn (h & Hh & ->) Hw. apply (known_result _ t); [done..|]. rewrite app_nil_r in Hs |- *. subst n.
  apply Forall_app in Hs as [_ Hs]. destruct (Hw) as (Hv & Hl & _).
  by apply (segwit_writes uninit v h out Hu Hs Hv Hl Ho).
Qed.

Lemma unknown_segwit uninit s out :
  65 ≤ zlen uninit → bytes_ok s → 73 + zlen (COIN_NATIVE_SEGWIT_PREFIX c) ≤ zlen out →
  has_type s SCRIPT_TYPE_UNKNOWN_SEGWIT → result_ok s out (segwit_address c uninit s out).
Proof.
  intros Hu Hs Ho Ht. destruct (Ht) as ((op & n & Hop & Hn & h & Hh & E) & H1 & H2 & _). rewrite app_nil_r in E.
  assert (∃ v, 0 ≤ v ≤ 16 ∧ op = witness_opcode v ∧ (v = 0 ↔ op = OP_0)) as (v & Hv & -> & Hv0).
  { destruct Hop as [-> |Hop]; [by exists 0|]. exists (op - 80). unfold OP_0, OP_1, OP_16, witness_opcode in *.
    split; [lia|]. rw (proj2 (Z.eqb_neq _ _)); lia. }
  subst n s. apply Forall_app in Hs as [_ Hs]. destruct (segwit_writes uninit v h out Hu Hs Hv Hn Ho) as [Hw Hnw].
  destruct (decide (v = 0)) as [-> |Hne].
  - right. assert (¬ witness_ok 0 (zlen h)) as Hnot.
    { intros (_ & _ & [E|E]); try done; [apply H1|apply H2]; exists h; (split; [done|]); by rewrite app_nil_r E. }
    split; [|by apply Hnw]. intros (t & Ht' & Himp). assert (t = SCRIPT_TYPE_UNKNOWN_SEGWIT) as -> by (by eapply has_type_unique).
    by apply Himp.
  - left. split.
    + exists SCRIPT_TYPE_UNKNOWN_SEGWIT. split; [done|]. intros _ [= E]. naive_solver.
    + apply Hw. split_and!; [lia..|done].
Qed.

Lemma get_script_address_spec uninit s out :
  65 ≤ zlen uninit → bytes_ok s → 73 + zlen (COIN_NATIVE_SEGWIT_PREFIX c) ≤ zlen out < 2 ^ 32 →
  result_ok s out (get_script_address os c uninit s (zlen s) out).
Proof.
  intros Hu Hs Ho. pose proof (zlen_nonneg (COIN_NATIVE_SEGWIT_PREFIX c)). destruct Hc as (Hpkh & Hsh & _).
  rw /get_script_address. destruct (get_script_type_correct s Hs) as (r & -> & Hr). cbn [mbind outcome_bind].
  destruct r as [t|].
  2: { right. split; [|done]. intros (t & Ht & _). by apply Hr in Ht. }
  pose proof (proj1 (Hr t) eq_refl) as Ht. clear Hr. destruct t.
  - destruct (Ht) as (h & Hl & ->). apply (known_result _ SCRIPT_TYPE_P2PKH); [done..|].
    apply Forall_app in Hs as [_ Hs]. apply Forall_app in Hs as [Hs _].
    pose proof (loads_middle [OP_DUP; OP_HASH160; 20] h [OP_EQUALVERIFY; OP_CHECKSIG]) as E. rewrite Hl in E. rw E. cbn [mbind outcome_bind]. apply legacy_writes; [done..|lia|]. intros ds Hds. by apply address_P2PKH.
  - destruct (Ht) as (h & Hl & ->). apply (known_result _ SCRIPT_TYPE_P2SH); [done..|].
    apply Forall_app in Hs as [_ Hs]. apply Forall_app in Hs as [Hs _].
    pose proof (loads_middle [OP_HASH160; 20] h [OP_EQUAL]) as E. rewrite Hl in E. rw E. cbn [mbind outcome_bind]. apply legacy_writes; [done..|lia|]. intros ds Hds. by apply address_P2SH.
  - apply (known_segwit uninit s SCRIPT_TYPE_P2WPKH 0 20); first [done|lia|unfold witness_ok; lia].
  - apply (known_segwit uninit s SCRIPT_TYPE_P2WSH 0 32); first [done|lia|unfold witness_ok; lia].
  - apply (known_segwit uninit s SCRIPT_TYPE_P2TR 1 32); first [done|lia|unfold witness_ok; lia].
  - apply unknown_segwit; first [done|lia].
Qed.
End spec.

(** C26: the address that the device shows determines the output script.
    [get_script_address] stays inside of its output and succeeds exactly for
    the scripts that have an address: P2PKH, P2SH, P2WPKH, P2WSH, P2TR and
    witness programs of future versions.  Two scripts for which it writes the
    same text are the same script: neither the base-58 nor the bech32 texts
    collide, within their types or across them. *)
Theorem script_address_unambiguous os c uninit s out :
  coin_ok c → (∀ l, bytes_ok (cx_sha256 os l) ∧ zlen (cx_sha256 os l) = 32) → 65 ≤ zlen uninit →
  bytes_ok s → 73 + zlen (COIN_NATIVE_SEGWIT_PREFIX c) ≤ zlen out < 2 ^ 32 →
  ∃ n o, get_script_address os c uninit s (zlen s) out = Val (n, o) ∧ zlen o = zlen out ∧
    (has_address s → n = zlen (c_string o)) ∧ (¬ has_address s → n = -1) ∧
    ∀ s' n' o', bytes_ok s' → get_script_address os c uninit s' (zlen s') out = Val (n', o') →
      0 ≤ n → 0 ≤ n' → c_string o = c_string o' → s = s'.
Proof.
  intros Hc Hsha Hu Hs Ho. destruct (get_script_address_spec os c Hc Hsha uninit s out Hu Hs Ho) as [[Ha Hw]|[Hn Hr]].
  - destruct Hw as (text & r & Hr & Hl & Hnz & Haddr). exists (zlen text), (text ++ 0 :: r).
    rw c_string_app //. split_and!; try done. intros s' n' o' Hs' Hr' _ Hn' Heq.
    destruct (get_script_address_spec os c Hc Hsha uninit s' out Hu Hs' Ho) as [[_ Hw']|[_ Hr'']].
    + destruct Hw' as (text' & r' & Hr'' & _ & Hnz' & Haddr'). rewrite Hr'' in Hr'. injection Hr' as <- <-.
      rewrite c_string_app // in Heq. by apply (address_of_inj os c Hc Hsha s s' text text').
    + rewrite Hr'' in Hr'. injection Hr' as <- <-. lia.
  - exists (-1), out. split_and!; done.
Qed.

Lemma script_address_unambiguous_witness :
  ∃ n o, get_script_address (mk_sdk (λ _, replicate 32 7) (λ _, []) (λ _ _, []) (λ _ _, []) (λ _ _, None) (λ _ _ _, None)
      (λ _ _ _, None) (λ _ _, None) (λ _ _, None) (λ _ _, None) (λ _, None) (λ _, None)) syscoin (replicate 65 0)
      ([OP_1; 32] ++ replicate 32 9) 34 (replicate 76 0) = Val (n, o) ∧ n = zlen (c_string o).
Proof.
  destruct (script_address_unambiguous (mk_sdk (λ _, replicate 32 7) (λ _, []) (λ _ _, []) (λ _ _, []) (λ _ _, None) (λ _ _ _, None)
      (λ _ _ _, None) (λ _ _, None) (λ _ _, None) (λ _ _, None) (λ _, None) (λ _, None)) syscoin (replicate 65 0)
      ([OP_1; 32] ++ replicate 32 9) (replicate 76 0)) as (n & o & Hr & _ & Ha & _).
  - apply syscoin_ok.
  - intros l. split; [by apply (bool_decide_unpack _)|done].
  - done.
  - by apply (bool_decide_unpack _).
  - done.
  - exists n, o. split; [exact Hr|]. apply Ha. exists SCRIPT_TYPE_P2TR. split; [|done].
    exists (replicate 32 9). split; reflexivity.
Defined.
