(* ===== verification/RawTx.v ===== *)
(** * Previous transactions

    Models src/src/handler/lib/psbt_parse_rawtx.c: the parser of a raw
    transaction that the host streams in chunks.  It computes the transaction id
    and extracts the value and the script of one output, from which the device
    takes the amount of a legacy input.

    The parser is resumable: a step that finds too few bytes returns 0 and is
    called again with the bytes that were left and the next chunk.  The steps
    keep their positions in the state; the subparsers of inputs and outputs have
    a position of their own.

    The members of the union of the state are the constructors of [stage];
    reading a member other than the one that was written is undefined.  [uninit]
    is the value of members that are not initialised.  [hash_context] is the data
    that has been added to the hash. *)

From S2P Require Import Prelude Bytes Buffer Merkle Dispatcher MerkleClient Crypto.

Definition MAX_PREVOUT_SCRIPTPUBKEY_LEN : Z := 34.

Record txid_parser_outputs := mk_outputs {
  vout_value : Z;
  vout_scriptpubkey_len : Z;
  vout_scriptpubkey : list Z;
  txid : list Z
}.

Record input_stage := mk_input_stage {
  in_counter : Z;
  in_step : Z;  (* input_parser_context.cur_step *)
  scriptsig_size : Z;
  scriptsig_counter : Z
}.

Record output_stage := mk_output_stage {
  out_counter : Z;
  out_step : Z;  (* output_parser_context.cur_step *)
  scriptpubkey_size : Z;
  scriptpubkey_counter : Z
}.

Record witness_stage := mk_witness_stage {
  wit_counter : Z;
  wit_stack_el_counter : Z;
  cur_wit_stack_elements : Z;
  cur_wit_elem_len : Z;
  cur_wit_el_bytes_read : Z;
  is_cur_wit_stack_elements_read : bool;
  is_cur_wit_elem_len_read : bool
}.

Inductive stage :=
| NoStage
| Inputs (i : input_stage)
| Outputs (o : output_stage)
| Witnesses (w : witness_stage).

Record parse_rawtx_state := mk_rawtx_state {
  hash_context : list Z;
  is_segwit : bool;
  n_inputs : Z;
  n_outputs : Z;
  the_stage : stage;
  output_index : Z;
  parser_outputs : txid_parser_outputs
}.

Definition set_hash (st : parse_rawtx_state) (h : list Z) : parse_rawtx_state :=
  mk_rawtx_state h (is_segwit st) (n_inputs st) (n_outputs st) (the_stage st) (output_index st) (parser_outputs st).
Definition set_stage (st : parse_rawtx_state) (s : stage) : parse_rawtx_state :=
  mk_rawtx_state (hash_context st) (is_segwit st) (n_inputs st) (n_outputs st) s (output_index st) (parser_outputs st).
Definition set_outputs (st : parse_rawtx_state) (o : txid_parser_outputs) : parse_rawtx_state :=
  mk_rawtx_state (hash_context st) (is_segwit st) (n_inputs st) (n_outputs st) (the_stage st) (output_index st) o.
Definition set_segwit (st : parse_rawtx_state) (b : bool) : parse_rawtx_state :=
  mk_rawtx_state (hash_context st) b (n_inputs st) (n_outputs st) (the_stage st) (output_index st) (parser_outputs st).
Definition set_n_inputs (st : parse_rawtx_state) (n : Z) : parse_rawtx_state :=
  mk_rawtx_state (hash_context st) (is_segwit st) n (n_outputs st) (the_stage st) (output_index st) (parser_outputs st).
Definition set_n_outputs (st : parse_rawtx_state) (n : Z) : parse_rawtx_state :=
  mk_rawtx_state (hash_context st) (is_segwit st) (n_inputs st) n (the_stage st) (output_index st) (parser_outputs st).

Definition step : Type := parsing_step parse_rawtx_state.

(** A step that reads [n] bytes and hashes them. *)
Definition read_and_hash (n : Z) : step := λ st bs,
  '(r, bs) ← dbuffer_read_bytes bs n;
  match r with
  | None => mret (0, st, bs)
  | Some data =>
      h ← crypto_hash_update (hash_context st) data n;
      mret (1, set_hash st h, bs)
  end.

(** A step that reads a varint, hashes its encoding, and stores it. *)
Definition read_varint_and_hash (k : Z → parse_rawtx_state → outcome parse_rawtx_state) : step := λ st bs,
  '(r, bs) ← dbuffer_read_varint bs;
  match r with
  | None => mret (0, st, bs)
  | Some v =>
      h ← crypto_hash_update_varint (hash_context st) v;
      st ← k v (set_hash st h);
      mret (1, st, bs)
  end.

(** Every iteration of a loop but the first and the last consumes a byte. *)
Definition bytes_fuel (bs : dbuffer) : nat := S (S (Z.to_nat (dbuffer_get_length bs))).

Section rawtx.
Context (uninit : Z).

(** ** Inputs *)
Definition parse_rawtxinput_txid : step := read_and_hash 32.
Definition parse_rawtxinput_vout : step := read_and_hash 4.

Definition parse_rawtxinput_scriptsig_size : step :=
  read_varint_and_hash (λ v st,
    match the_stage st with
    | Inputs i => mret (set_stage st (Inputs (mk_input_stage (in_counter i) (in_step i) (u32 v) (scriptsig_counter i))))
    | _ => Undef
    end).

Definition parse_rawtxinput_scriptsig_init : step := λ st bs,
  match the_stage st with
  | Inputs i => mret (1, set_stage st (Inputs (mk_input_stage (in_counter i) (in_step i) (scriptsig_size i) 0)), bs)
  | _ => Undef
  end.

Fixpoint scriptsig_loop (fuel : nat) : step := λ st bs,
  match fuel, the_stage st with
  | O, _ => OutOfFuel
  | S fuel', Inputs i =>
      let remaining_len := i32 (u32 (scriptsig_size i - scriptsig_counter i)) in
      let data_len := Z.min 32 remaining_len in
      '(r, bs) ← dbuffer_read_bytes bs (size_t data_len);
      match r with
      | None => mret (0, st, bs)
      | Some data =>
          h ← crypto_hash_update (hash_context st) data data_len;
          let counter := u32 (scriptsig_counter i + data_len) in
          let st := set_stage (set_hash st h)
                      (Inputs (mk_input_stage (in_counter i) (in_step i) (scriptsig_size i) counter)) in
          if counter =? scriptsig_size i then mret (1, st, bs) else scriptsig_loop fuel' st bs
      end
  | S _, _ => Undef
  end.
Definition parse_rawtxinput_scriptsig : step := λ st bs, scriptsig_loop (bytes_fuel bs) st bs.

Definition parse_rawtxinput_sequence : step := read_and_hash 4.

Definition parse_rawtxinput_steps : list step :=
  [parse_rawtxinput_txid; parse_rawtxinput_vout; parse_rawtxinput_scriptsig_size;
   parse_rawtxinput_scriptsig_init; parse_rawtxinput_scriptsig; parse_rawtxinput_sequence].

(** ** Outputs *)

(** Whether the output that is parsed is the requested one. *)
Definition is_relevant (st : parse_rawtx_state) (o : output_stage) : bool :=
  negb (output_index st =? -1) && (out_counter o =? u32 (output_index st)).

Definition parse_rawtxoutput_value : step := λ st bs,
  '(r, bs) ← dbuffer_read_bytes bs 8;
  match r with
  | None => mret (0, st, bs)
  | Some value_bytes =>
      value ← read_u64_le value_bytes 0;
      h ← crypto_hash_update (hash_context st) value_bytes 8;
      match the_stage st with
      | Outputs o =>
          let st := set_hash st h in
          let p := parser_outputs st in
          mret (1, if is_relevant st o
                   then set_outputs st (mk_outputs value (vout_scriptpubkey_len p) (vout_scriptpubkey p) (txid p))
                   else st, bs)
      | _ => Undef
      end
  end.

Definition parse_rawtxoutput_scriptpubkey_size : step :=
  read_varint_and_hash (λ v st,
    match the_stage st with
    | Outputs o =>
        let st := set_stage st (Outputs (mk_output_stage (out_counter o) (out_step o) (u32 v) (scriptpubkey_counter o))) in
        let p := parser_outputs st in
        mret (if is_relevant st o
              then set_outputs st (mk_outputs (vout_value p) (u32 v) (vout_scriptpubkey p) (txid p))
              else st)
    | _ => Undef
    end).

Definition parse_rawtxoutput_scriptpubkey_init : step := λ st bs,
  match the_stage st with
  | Outputs o =>
      mret (1, set_stage st (Outputs (mk_output_stage (out_counter o) (out_step o) (scriptpubkey_size o) 0)), bs)
  | _ => Undef
  end.

Fixpoint scriptpubkey_loop (fuel : nat) : step := λ st bs,
  match fuel, the_stage st with
  | O, _ => OutOfFuel
  | S fuel', Outputs o =>
      let remaining_len := i32 (u32 (scriptpubkey_size o - scriptpubkey_counter o)) in
      let data_len := Z.min 32 remaining_len in
      '(r, bs) ← dbuffer_read_bytes bs (size_t data_len);
      match r with
      | None => mret (0, st, bs)
      | Some data =>
          h ← crypto_hash_update (hash_context st) data data_len;
          let st := set_hash st h in
          let p := parser_outputs st in
          if is_relevant st o && (MAX_PREVOUT_SCRIPTPUBKEY_LEN <? vout_scriptpubkey_len p)
          then mret (-1, st, bs)
          else
            st ← (if is_relevant st o then
                    src ← loads data 0 data_len;
                    dst ← stores (vout_scriptpubkey p) (scriptpubkey_counter o) src;
                    mret (set_outputs st (mk_outputs (vout_value p) (vout_scriptpubkey_len p) dst (txid p)))
                  else mret st);
            let counter := u32 (scriptpubkey_counter o + data_len) in
            let st := set_stage st (Outputs (mk_output_stage (out_counter o) (out_step o) (scriptpubkey_size o) counter)) in
            if counter =? scriptpubkey_size o then mret (1, st, bs) else scriptpubkey_loop fuel' st bs
      end
  | S _, _ => Undef
  end.
Definition parse_rawtxoutput_scriptpubkey : step := λ st bs, scriptpubkey_loop (bytes_fuel bs) st bs.

Definition parse_rawtxoutput_steps : list step :=
  [parse_rawtxoutput_value; parse_rawtxoutput_scriptpubkey_size;
   parse_rawtxoutput_scriptpubkey_init; parse_rawtxoutput_scriptpubkey].

(** ** The transaction *)

(** [bool result = parser_run(...)]: every number but 0 becomes 1, also those of
    errors. *)
Definition to_bool (result : Z) : Z := if result =? 0 then 0 else 1.

Definition parse_rawtx_version : step := read_and_hash 4.

Definition parse_rawtx_check_segwit : step := λ st bs,
  if negb (dbuffer_can_read bs 1) then mret (0, st, bs)
  else
    first_byte ← (if buffer_can_read bs.1 1 then load (ptr bs.1) (offset bs.1)
                  else load (ptr bs.2) (offset bs.2));
    if negb (first_byte =? 0) then mret (1, set_segwit st false, bs)
    else if negb (dbuffer_can_read bs 2) then mret (0, st, bs)
    else
      '(_, bs) ← dbuffer_read_u8 bs;
      '(flag, bs) ← dbuffer_read_u8 bs;
      if negb (default uninit flag =? 0x01) then mret (-1, st, bs)
      else mret (1, set_segwit st true, bs).

Definition parse_rawtx_input_count : step := read_varint_and_hash (λ v st, mret (set_n_inputs st (u32 v))).

Definition parse_rawtx_inputs_init : step := λ st bs,
  mret (1, set_stage st (Inputs (mk_input_stage 0 0 uninit uninit)), bs).

Fixpoint inputs_loop (fuel : nat) : step := λ st bs,
  match fuel, the_stage st with
  | O, _ => OutOfFuel
  | S fuel', Inputs i =>
      if in_counter i <? n_inputs st then
        '(r, ctx, bs) ← parser_run parse_rawtxinput_steps (mk_parser_context (in_step i) st) bs;
        let result := to_bool r in
        let st := pstate ctx in
        match the_stage st with
        | Inputs i =>
            let at_step k n :=
              set_stage st (Inputs (mk_input_stage n k (scriptsig_size i) (scriptsig_counter i))) in
            if negb (result =? 1) then mret (result, at_step (cur_step ctx) (in_counter i), bs)
            else inputs_loop fuel' (at_step 0 (u32 (in_counter i + 1))) bs
        | _ => Undef
        end
      else mret (1, st, bs)
  | S _, _ => Undef
  end.
Definition parse_rawtx_inputs : step := λ st bs, inputs_loop (bytes_fuel bs) st bs.

Definition parse_rawtx_output_count : step := read_varint_and_hash (λ v st, mret (set_n_outputs st (u32 v))).

Definition parse_rawtx_outputs_init : step := λ st bs,
  mret (1, set_stage st (Outputs (mk_output_stage 0 0 uninit uninit)), bs).

Fixpoint outputs_loop (fuel : nat) : step := λ st bs,
  match fuel, the_stage st with
  | O, _ => OutOfFuel
  | S fuel', Outputs o =>
      if out_counter o <? n_outputs st then
        '(r, ctx, bs) ← parser_run parse_rawtxoutput_steps (mk_parser_context (out_step o) st) bs;
        let result := to_bool r in
        let st := pstate ctx in
        match the_stage st with
        | Outputs o =>
            let at_step k n :=
              set_stage st (Outputs (mk_output_stage n k (scriptpubkey_size o) (scriptpubkey_counter o))) in
            if negb (result =? 1) then mret (result, at_step (cur_step ctx) (out_counter o), bs)
            else outputs_loop fuel' (at_step 0 (u32 (out_counter o + 1))) bs
        | _ => Undef
        end
      else mret (1, st, bs)
  | S _, _ => Undef
  end.
Definition parse_rawtx_outputs : step := λ st bs, outputs_loop (bytes_fuel bs) st bs.

(** *** Witnesses

    [is_cur_wit_elem_len_read] is written before it is read. *)
Definition parse_rawtx_witnesses_init : step := λ st bs,
  mret (1, set_stage st (Witnesses (mk_witness_stage 0 uninit uninit uninit uninit false false)), bs).

Definition set_bytes_read (w : witness_stage) (n : Z) : witness_stage :=
  mk_witness_stage (wit_counter w) (wit_stack_el_counter w) (cur_wit_stack_elements w) (cur_wit_elem_len w)
    n (is_cur_wit_stack_elements_read w) (is_cur_wit_elem_len_read w).

(** The bytes of a stack element; [true] is the end of the loop. *)
Fixpoint wit_bytes_loop (fuel : nat) (w : witness_stage) (bs : dbuffer) : outcome (bool * witness_stage * dbuffer) :=
  match fuel with
  | O => OutOfFuel
  | S fuel' =>
      if cur_wit_el_bytes_read w <? cur_wit_elem_len w then
        let remaining_len := i32 (u32 (cur_wit_elem_len w - cur_wit_el_bytes_read w)) in
        let data_len := Z.min 32 remaining_len in
        '(r, bs) ← dbuffer_read_bytes bs (size_t data_len);
        match r with
        | None => mret (false, w, bs)
        | Some _ =>
            wit_bytes_loop fuel' (set_bytes_read w (u32 (cur_wit_el_bytes_read w + data_len))) bs
        end
      else mret (true, w, bs)
  end.

(** The length of a stack element, if not already read. *)
Definition read_wit_elem_len (w : witness_stage) (bs : dbuffer) : outcome (bool * witness_stage * dbuffer) :=
  if is_cur_wit_elem_len_read w then mret (true, w, bs)
  else
    '(r, bs) ← dbuffer_read_varint bs;
    match r with
    | None => mret (false, w, bs)
    | Some len =>
        mret (true, mk_witness_stage (wit_counter w) (wit_stack_el_counter w) (cur_wit_stack_elements w)
                      (u32 len) 0 (is_cur_wit_stack_elements_read w) true, bs)
    end.

Definition next_wit_elem (w : witness_stage) : witness_stage :=
  mk_witness_stage (wit_counter w) (u32 (wit_stack_el_counter w + 1)) (cur_wit_stack_elements w) (cur_wit_elem_len w)
    (cur_wit_el_bytes_read w) (is_cur_wit_stack_elements_read w) false.

(** The stack elements of a witness. *)
Fixpoint wit_elements_loop (fuel : nat) (w : witness_stage) (bs : dbuffer) : outcome (bool * witness_stage * dbuffer) :=
  match fuel with
  | O => OutOfFuel
  | S fuel' =>
      if wit_stack_el_counter w <? cur_wit_stack_elements w then
        '(ok, w, bs) ← read_wit_elem_len w bs;
        if negb ok then mret (false, w, bs)
        else
          '(ok, w, bs) ← wit_bytes_loop (bytes_fuel bs) w bs;
          if negb ok then mret (false, w, bs) else wit_elements_loop fuel' (next_wit_elem w) bs
      else mret (true, w, bs)
  end.

(** The number of stack elements, if not already read. *)
Definition read_wit_stack_elements (w : witness_stage) (bs : dbuffer) : outcome (bool * witness_stage * dbuffer) :=
  if is_cur_wit_stack_elements_read w then mret (true, w, bs)
  else
    '(r, bs) ← dbuffer_read_varint bs;
    match r with
    | None => mret (false, w, bs)
    | Some n =>
        mret (true, mk_witness_stage (wit_counter w) 0 (u32 n) (cur_wit_elem_len w) (cur_wit_el_bytes_read w)
                      true false, bs)
    end.

Definition next_witness (w : witness_stage) : witness_stage :=
  mk_witness_stage (u32 (wit_counter w + 1)) (wit_stack_el_counter w) (cur_wit_stack_elements w) (cur_wit_elem_len w)
    (cur_wit_el_bytes_read w) false (is_cur_wit_elem_len_read w).

(** The witnesses of the [n_inputs] inputs. *)
Fixpoint witnesses_loop (fuel : nat) (n_inputs : Z) (w : witness_stage) (bs : dbuffer) : outcome (bool * witness_stage * dbuffer) :=
  match fuel with
  | O => OutOfFuel
  | S fuel' =>
      if wit_counter w <? n_inputs then
        '(ok, w, bs) ← read_wit_stack_elements w bs;
        if negb ok then mret (false, w, bs)
        else
          '(ok, w, bs) ← wit_elements_loop (bytes_fuel bs) w bs;
          if negb ok then mret (false, w, bs) else witnesses_loop fuel' n_inputs (next_witness w) bs
      else mret (true, w, bs)
  end.

Definition parse_rawtx_witnesses : step := λ st bs,
  if negb (is_segwit st) then mret (1, st, bs)
  else
    match the_stage st with
    | Witnesses w =>
        '(ok, w, bs) ← witnesses_loop (bytes_fuel bs) (n_inputs st) w bs;
        mret (if (ok : bool) then 1 else 0, set_stage st (Witnesses w), bs)
    | _ => Undef
    end.

Definition parse_rawtx_locktime : step := read_and_hash 4.

Definition parse_rawtx_steps : list step :=
  [parse_rawtx_version; parse_rawtx_check_segwit; parse_rawtx_input_count; parse_rawtx_inputs_init;
   parse_rawtx_inputs; parse_rawtx_output_count; parse_rawtx_outputs_init; parse_rawtx_outputs;
   parse_rawtx_witnesses_init; parse_rawtx_witnesses; parse_rawtx_locktime].

(** ** The stream *)
Record psbt_parse_rawtx_state := mk_psbt_state {
  store_mem : list Z;  (* store, 32 bytes *)
  store_data_length : Z;
  parser_context_ : parser_context parse_rawtx_state;
  parser_error : bool
}.

Definition cb_process_data (data : buffer) (s : psbt_parse_rawtx_state) : outcome psbt_parse_rawtx_state :=
  if parser_error s then mret s
  else
    let store_buf := buffer_create (store_mem s) (store_data_length s) in
    '(result, ctx, bs) ← parser_run parse_rawtx_steps (parser_context_ s) (store_buf, data);
    if result =? 0 then
      '(_, bs) ← parser_consolidate_buffers bs 32;
      mret (mk_psbt_state (ptr bs.1) (size bs.1) ctx false)
    else mret (mk_psbt_state (ptr bs.1) (store_data_length s) ctx (result <? 0)).

(** The state at the start; [store0] and [outputs0] are not initialised. *)
Definition initial_state (store0 : list Z) (index : Z) (outputs0 : txid_parser_outputs) : psbt_parse_rawtx_state :=
  mk_psbt_state store0 0
    (parser_init_context (mk_rawtx_state [] false uninit uninit NoStage index outputs0)) false.

Definition call_psbt_parse_rawtx (sha256 : list Z → list Z) (store0 : list Z) (map : merkleized_map_commitment)
    (key : list Z) (index : Z) (outputs0 : txid_parser_outputs) : io (Z * txid_parser_outputs) :=
  '(res, value_hash) ← call_get_merkleized_map_value_hash sha256 map key;
  if res <? 0 then mret (-1, outputs0)
  else
    '(res, s) ← call_stream_preimage sha256 None cb_process_data (default [] value_hash)
                  (initial_state store0 index outputs0);
    let st := pstate (parser_context_ s) in
    let p := parser_outputs st in
    if (res <? 0) || parser_error s then mret (-1, p)
    else mret (0, mk_outputs (vout_value p) (vout_scriptpubkey_len p) (vout_scriptpubkey p)
                    (sha256 (sha256 (hash_context st)))).
End rawtx.
