(* ===== verification/RawTxProof.v ===== *)
(** * Correctness of the parser of previous transactions

    The parser of RawTx.v is memory safe and ends for every sequence of chunks;
    what it records of the requested output is determined by the data it
    hashes; and it accepts the serialization of every transaction, with or
    without witnesses, in every division into chunks.

    The three follow from one invariant of the steps.  [TX] is a transaction and
    [V] the assumption that the stream is its serialization.  The invariant says
    that, when what has been hashed can be completed to the serialization of
    [TX] without witnesses, the state is the one of a position in [TX]. *)

From S2P Require Import Prelude Bytes Buffer Merkle Dispatcher MerkleClient MerkleProof Preimage Crypto RawTx.

(** ** Transactions *)
Record txin := mk_txin { prev_txid : list Z; prev_vout : list Z; script_sig : list Z; sequence : list Z }.
Record txout := mk_txout { value : Z; script_pubkey : list Z }.
Record transaction := mk_tx {
  version : list Z;
  tx_ins : list txin;
  tx_outs : list txout;
  witnesses : option (list (list (list Z)));
  locktime : list Z
}.

Definition ser_string (l : list Z) : list Z := varint_enc (zlen l) ++ l.
Definition ser_vector {A} (f : A → list Z) (l : list A) : list Z :=
  varint_enc (Z.of_nat (length l)) ++ concat (f <$> l).
Definition ser_txin (i : txin) : list Z := prev_txid i ++ prev_vout i ++ ser_string (script_sig i) ++ sequence i.
Definition ser_txout (o : txout) : list Z := le_bytes 8 (value o) ++ ser_string (script_pubkey o).

(** The legacy serialization, of which the transaction id is the hash. *)
Definition ser_body (t : transaction) : list Z := ser_vector ser_txin (tx_ins t) ++ ser_vector ser_txout (tx_outs t).
Definition ser_legacy (t : transaction) : list Z := version t ++ ser_body t ++ locktime t.

(** The serialization: BIP-144 when there are witnesses. *)
Definition ser_witnesses (w : list (list (list Z))) : list Z := concat (ser_vector ser_string <$> w).
Definition ser_tx (t : transaction) : list Z :=
  match witnesses t with
  | None => ser_legacy t
  | Some w => version t ++ [0; 1] ++ ser_body t ++ ser_witnesses w ++ locktime t
  end.

Definition wf_txin (i : txin) : Prop :=
  zlen (prev_txid i) = 32 ∧ zlen (prev_vout i) = 4 ∧ zlen (sequence i) = 4 ∧ zlen (script_sig i) < 2 ^ 31.
Definition wf_txout (o : txout) : Prop := 0 ≤ value o < 2 ^ 64 ∧ zlen (script_pubkey o) < 2 ^ 31.
Definition wf_witness (stack : list (list Z)) : Prop :=
  Z.of_nat (length stack) < 2 ^ 31 ∧ Forall (λ e, zlen e < 2 ^ 31) stack.

(** Sizes within the limits of the parser, at least one input (a legacy
    serialization without inputs starts like one with witnesses). *)
Record wf_tx (t : transaction) : Prop := {
  wf_version : zlen (version t) = 4;
  wf_locktime : zlen (locktime t) = 4;
  wf_ins : Forall wf_txin (tx_ins t);
  wf_n_ins : 0 < Z.of_nat (length (tx_ins t)) < 2 ^ 31;
  wf_outs : Forall wf_txout (tx_outs t);
  wf_n_outs : Z.of_nat (length (tx_outs t)) < 2 ^ 31;
  wf_witnesses : ∀ w, witnesses t = Some w → length w = length (tx_ins t) ∧ Forall wf_witness w
}.

(** ** Reads *)

(** [bs'] is [bs] after some bytes have been read. *)
Definition read_from (bs bs' : dbuffer) : Prop :=
  wf_dbuffer bs' ∧ ptr bs'.1 = ptr bs.1 ∧ size bs'.1 = size bs.1 ∧ ∃ d, drest bs = d ++ drest bs'.

Lemma read_from_refl bs : wf_dbuffer bs → read_from bs bs.
Proof. intros. split_and!; [done..|]. by exists []. Qed.

Lemma read_from_trans bs1 bs2 bs3 : read_from bs1 bs2 → read_from bs2 bs3 → read_from bs1 bs3.
Proof.
  intros (_ & Hp1 & Hs1 & d1 & H1) (? & Hp2 & Hs2 & d2 & H2). split_and!; [done|congruence..|].
  exists (d1 ++ d2). by rw H1 H2 app_assoc.
Qed.

Lemma read_from_le bs bs' : read_from bs bs' → zlen (drest bs') ≤ zlen (drest bs).
Proof. intros (_ & _ & _ & d & ->). rw zlen_app. zlia. Qed.

Lemma seek_mem b n : ptr (buffer_seek_cur b n).2 = ptr b ∧ size (buffer_seek_cur b n).2 = size b.
Proof. rw /buffer_seek_cur. by case_match. Qed.

Lemma buffer_read_bytes_mem b n r b' :
  buffer_read_bytes b n = Val (r, b') → ptr b' = ptr b ∧ size b' = size b.
Proof.
  rw /buffer_read_bytes. case_match; [by intros [= _ <-]|]. intros H0. inv_bind H0.
  injection H0 as _ <-. apply seek_mem.
Qed.

Lemma dbuffer_read_bytes_mem bs n r bs' :
  dbuffer_read_bytes bs n = Val (r, bs') → ptr bs'.1 = ptr bs.1 ∧ size bs'.1 = size bs.1.
Proof.
  rw /dbuffer_read_bytes. case_match; [by intros [= _ <-]|]. intros H0.
  inv_bind H0. destruct a as [o0 b0]. inv_bind H0. destruct a as [o1 b1]. injection H0 as _ <-. simpl.
  clear Ha0. case_match; [by eapply buffer_read_bytes_mem|by injection Ha as _ <-].
Qed.

Lemma dbuffer_read_u8_mem bs r bs' :
  dbuffer_read_u8 bs = Val (r, bs') → ptr bs'.1 = ptr bs.1 ∧ size bs'.1 = size bs.1.
Proof.
  rw /dbuffer_read_u8. intros H0. inv_bind H0. destruct a. injection H0 as _ <-.
  by eapply dbuffer_read_bytes_mem.
Qed.

Lemma dbuffer_read_varint_mem bs r bs' :
  dbuffer_read_varint bs = Val (r, bs') → ptr bs'.1 = ptr bs.1 ∧ size bs'.1 = size bs.1.
Proof.
  rw /dbuffer_read_varint. case_match; [by intros [= _ <-]|]. intros H0. inv_bind H0.
  case_match; [by injection H0 as _ <-|]. inv_bind H0. destruct a0 as [o bs1].
  apply dbuffer_read_u8_mem in Ha0 as [<- <-]. case_match; [by injection H0 as _ <-|].
  inv_bind H0. destruct a0 as [d bs2]. apply dbuffer_read_bytes_mem in Ha0 as [<- <-].
  inv_bind H0. inv_bind H0. by injection H0 as _ <-.
Qed.

(** A read of [n] bytes fails and changes nothing, or takes them. *)
Lemma read_bytes_cases bs n :
  wf_dbuffer bs → 0 ≤ n →
  (zlen (drest bs) < n ∧ dbuffer_read_bytes bs n = Val (None, bs)) ∨
  ∃ d bs', dbuffer_read_bytes bs n = Val (Some d, bs') ∧ zlen d = n ∧ bytes_ok d ∧
    drest bs = d ++ drest bs' ∧ read_from bs bs'.
Proof.
  intros Hbs Hn. pose proof (dbuffer_read_bytes_implements n Hn bs Hbs) as H. revert H. simpl.
  rw /bytes_dec. destruct (Z.ltb_spec (zlen (drest bs)) n) as [|Hle]; [intros; by left|].
  intros (bs' & Hrd & Hwf & Hr). right. pose proof (dbuffer_read_bytes_mem _ _ _ _ Hrd) as [??].
  assert (drest bs = take (Z.to_nat n) (drest bs) ++ drest bs') as Heq by (by rw Hr take_drop).
  assert (read_from bs bs') by (split; [done|]; eauto).
  exists (take (Z.to_nat n) (drest bs)), bs'. split; [done|]. split; [apply zlen_take; lia|].
  split; [by apply bytes_ok_take, drest_bytes_ok|done].
Qed.

Lemma varint_dec_None l : varint_dec l = None → zlen l < 9.
Proof.
  destruct l as [|p l]; [done|]. cbn [varint_dec]. pose proof (varint_payload_range p). rw zlen_cons.
  repeat case_match; try done. lia.
Qed.

Lemma read_varint_cases bs :
  wf_dbuffer bs →
  (zlen (drest bs) < 9 ∧ varint_dec (drest bs) = None ∧ dbuffer_read_varint bs = Val (None, bs)) ∨
  ∃ v bs', dbuffer_read_varint bs = Val (Some v, bs') ∧ 0 ≤ v < 2 ^ 64 ∧
    varint_dec (drest bs) = Some (v, drest bs') ∧ zlen (drest bs') < zlen (drest bs) ∧ read_from bs bs'.
Proof.
  intros Hbs. pose proof (dbuffer_read_varint_implements bs Hbs) as H. revert H. simpl.
  pose proof (drest_bytes_ok bs Hbs) as Hok.
  destruct (varint_dec (drest bs)) as [[v r]|] eqn:Hv; [|intros; left; split_and!; [by apply varint_dec_None|done..]].
  intros (bs' & Hrd & Hwf & Hr). right. pose proof (dbuffer_read_varint_mem _ _ _ Hrd) as [??].
  pose proof (varint_dec_drop _ _ _ Hv) as [Hd Hl]. subst r.
  assert (read_from bs bs').
  { split; [done|]. split_and!; [done..|]. eexists. rewrite {1}Hd. symmetry. apply take_drop. }
  exists v, bs'. split; [done|]. split; [by eapply varint_dec_range|]. split; [done|]. split; [lia|done].
Qed.

(** The chunks of at most 32 bytes in which the bytes from [counter] to [size]
    are read; more than 2^31 - 1 of them are never read. *)
Lemma read_chunk_cases bs sz counter :
  wf_dbuffer bs → zlen (drest bs) < 2 ^ 31 → 0 ≤ counter ≤ sz → sz < 2 ^ 32 →
  let data_len := Z.min 32 (i32 (u32 (sz - counter))) in
  (dbuffer_read_bytes bs (size_t data_len) = Val (None, bs) ∧
   (sz - counter < 2 ^ 31 → zlen (drest bs) < Z.min 32 (sz - counter))) ∨
  ∃ d bs', dbuffer_read_bytes bs (size_t data_len) = Val (Some d, bs') ∧ data_len = Z.min 32 (sz - counter) ∧
    zlen d = Z.min 32 (sz - counter) ∧ drest bs = d ++ drest bs' ∧ read_from bs bs'.
Proof.
  intros Hbs Hlen Hc Hsz. cbv zeta. rw (u32_small (sz - counter)); [|lia].
  destruct (decide (sz - counter < 2 ^ 31)) as [Hlt|Hge].
  - rw i32_small; [|lia]. rw u32_small; [|lia].
    destruct (read_bytes_cases bs (Z.min 32 (sz - counter)) Hbs) as [[? ->]|(d & bs' & -> & ? & _ & ? & ?)];
      [lia|by left|right]. by exists d, bs'.
  - left. split; [|lia].
    assert (i32 (sz - counter) = sz - counter - 2 ^ 32) as ->.
    { rw /i32 /wrap_signed. change (32 - 1) with 31.
      rw -(Z.mod_unique (sz - counter + 2 ^ 31) (2 ^ 32) 1 (sz - counter - 2 ^ 31)); lia. }
    assert (u32 (Z.min 32 (sz - counter - 2 ^ 32)) = sz - counter) as ->.
    { rw Z.min_r; [|lia]. rw /u32. symmetry. apply (Z.mod_unique _ _ (-1)); lia. }
    destruct (read_bytes_cases bs (sz - counter) Hbs) as [[? ->]|(d & bs' & _ & Hd & _ & Heq & _)]; [lia|done|].
    rewrite Heq zlen_app in Hlen. zlia.
Qed.

(** A varint is not changed by what follows it. *)
Lemma varint_dec_app l v r fut : varint_dec l = Some (v, r) → varint_dec (l ++ fut) = Some (v, r ++ fut).
Proof.
  destruct l as [|p l]; [done|]. cbn [varint_dec app]. case_match; [by intros [= <- <-]|].
  destruct (Z.ltb_spec (zlen l) (varint_payload p)) as [|Hle]; [done|]. intros [= <- <-].
  pose proof (varint_payload_range p).
  assert ((Z.to_nat (varint_payload p) ≤ length l)%nat) by (unfold zlen in Hle; lia).
  rw (proj2 (Z.ltb_ge _ _)); [|rw zlen_app; zlia]. by rw take_app_le // drop_app_le.
Qed.

Lemma varint_enc_inj_app v n y y' :
  0 ≤ v < 2 ^ 64 → 0 ≤ n < 2 ^ 64 → varint_enc v ++ y = varint_enc n ++ y' → v = n ∧ y = y'.
Proof.
  intros Hv Hn Heq. pose proof (varint_dec_enc v y Hv) as H1. rewrite Heq varint_dec_enc // in H1.
  by injection H1 as -> ->.
Qed.

Lemma zlen_le_bytes n v : zlen (le_bytes n v) = Z.of_nat n.
Proof. by rw /zlen length_le_bytes. Qed.

Lemma zlen_app_inj (d e y y' : list Z) : d ++ y = e ++ y' → zlen d = zlen e → d = e ∧ y = y'.
Proof. intros Heq Hz. apply app_inj_1 in Heq; [done|]. unfold zlen in Hz. lia. Qed.

Section parser.
Context (uninit : Z) (TX : transaction) (V : Prop) (oi : Z).

(** ** Specifications of steps

    An assertion is about the state and the bytes that are still to come, in
    the buffers and in later chunks. *)
Definition assn : Type := parse_rawtx_state → list Z → Prop.

(** A step that waits for data has left few bytes, and there are more. *)
Definition waiting (bs : dbuffer) (fut : list Z) : Prop := V → zlen (drest bs) < 32 ∧ fut ≠ [].

Definition step_post (P Q E : assn) (fut : list Z) (bs : dbuffer) (r : Z) (st' : parse_rawtx_state) (bs' : dbuffer) : Prop :=
  read_from bs bs' ∧
  (r = 1 ∧ Q st' (drest bs' ++ fut) ∨
   r = 0 ∧ P st' (drest bs' ++ fut) ∧ waiting bs' fut ∨
   r = -1 ∧ E st' (drest bs' ++ fut)).

Definition step_spec (f : step) (P Q E : assn) : Prop := ∀ fut st bs,
  wf_dbuffer bs → zlen (drest bs) < 2 ^ 31 → P st (drest bs ++ fut) →
  ∃ r st' bs', f st bs = Val (r, st', bs') ∧ step_post P Q E fut bs r st' bs'.

(** *** Runs of parsers *)
Definition run_post (Ps : Z → assn) (n : Z) (E : assn) (fut : list Z) (bs : dbuffer)
    (r : Z) (ctx : parser_context parse_rawtx_state) (bs' : dbuffer) : Prop :=
  read_from bs bs' ∧
  (r = 1 ∧ cur_step ctx = n ∧ Ps n (pstate ctx) (drest bs' ++ fut) ∨
   r = 0 ∧ 0 ≤ cur_step ctx < n ∧ Ps (cur_step ctx) (pstate ctx) (drest bs' ++ fut) ∧ waiting bs' fut ∨
   r = -1 ∧ E (pstate ctx) (drest bs' ++ fut)).

Lemma run_loop_spec (Ps : Z → assn) E steps k fut st bs :
  0 ≤ k →
  (∀ j f, steps !! j = Some f → step_spec f (Ps (k + Z.of_nat j)) (Ps (k + Z.of_nat j + 1)) E) →
  wf_dbuffer bs → zlen (drest bs) < 2 ^ 31 → Ps k st (drest bs ++ fut) →
  ∃ r ctx bs', parser_run_loop steps k st bs = Val (r, ctx, bs') ∧
    run_post Ps (k + Z.of_nat (length steps)) E fut bs r ctx bs'.
Proof.
  revert k st bs. induction steps as [|f steps IH]; intros k st bs Hk Hsteps Hbs Hlen HP.
  { exists 1, (mk_parser_context k st), bs. split; [done|]. split; [by apply read_from_refl|left].
    by rw /= Z.add_0_r. }
  destruct (Hsteps 0%nat f eq_refl fut st bs) as (r & st' & bs' & Hf & Hrd & Hpost); [done|done|by rw Z.add_0_r|].
  cbn [parser_run_loop]. rw Hf outcome_ret_bind. cbv beta iota. rewrite !Z.add_0_r in Hpost.
  destruct Hpost as [[-> HQ]|[(-> & HP' & Hw)|[-> HE]]].
  - cbn [Z.leb Z.compare]. pose proof (read_from_le _ _ Hrd).
    destruct (IH (k + 1) st' bs') as (r & ctx & bs2 & Hr & Hrd2 & Hpost); [lia| |apply Hrd|lia|done|].
    { intros j g Hj. replace (k + 1 + Z.of_nat j) with (k + Z.of_nat (S j)) by lia. by apply Hsteps. }
    exists r, ctx, bs2. split; [done|]. split; [by eapply read_from_trans|].
    replace (k + Z.of_nat (length (f :: steps))) with (k + 1 + Z.of_nat (length steps)) by (simpl; lia).
    destruct Hpost as [?|[?|?]]; [by left|by right; left|by right; right].
  - eexists _, _, _. split; [done|]. split; [done|]. right. left. cbn. split_and!; [done|lia|lia|done..].
  - eexists _, _, _. split; [done|]. split; [done|]. by right; right.
Qed.

Lemma run_spec (Ps : Z → assn) E steps k fut st bs :
  0 ≤ k ≤ Z.of_nat (length steps) →
  (∀ j f, steps !! j = Some f → step_spec f (Ps (Z.of_nat j)) (Ps (Z.of_nat j + 1)) E) →
  wf_dbuffer bs → zlen (drest bs) < 2 ^ 31 → Ps k st (drest bs ++ fut) →
  ∃ r ctx bs', parser_run steps (mk_parser_context k st) bs = Val (r, ctx, bs') ∧
    run_post Ps (Z.of_nat (length steps)) E fut bs r ctx bs'.
Proof.
  intros Hk Hsteps Hbs Hlen HP. rw /parser_run /=.
  destruct (run_loop_spec Ps E (drop (Z.to_nat k) steps) k fut st bs) as (r & ctx & bs' & Hr & Hpost);
    [lia| |done|done|done|].
  - intros j f Hj. rewrite lookup_drop in Hj. replace (k + Z.of_nat j) with (Z.of_nat (Z.to_nat k + j)) by lia.
    by apply Hsteps.
  - exists r, ctx, bs'. split; [done|]. rewrite length_drop in Hpost.
    by replace (k + Z.of_nat (length steps - Z.to_nat k)) with (Z.of_nat (length steps)) in Hpost by lia.
Qed.

(** ** The position in the transaction

    [rel] relates what is still to be hashed and what is still to be read.  The
    invariant: the first is [sfx] when what has been hashed and [sfx] make up the
    serialization; in a stream that is the serialization, there is such a
    [sfx]. *)
Definition rel : Type := list Z → list Z → Prop.
Definition at_pos (A : rel) (h s : list Z) : Prop :=
  (∀ sfx, h ++ sfx = ser_legacy TX → A sfx s) ∧ (V → ∃ sfx, h ++ sfx = ser_legacy TX).

Definition inv (W : parse_rawtx_state → Prop) (A : parse_rawtx_state → rel) : assn :=
  λ st s, W st ∧ at_pos (A st) (hash_context st) s.

(** From [A], [n] bytes are read; [A'] holds of them and of what follows. *)
Definition reads (n : Z) (A : rel) (A' : list Z → rel) : Prop := ∀ sfx s, A sfx s →
  ∃ e y, sfx = e ++ y ∧ zlen e = n ∧ (V → ∃ s', s = e ++ s') ∧ ∀ s', (V → s = e ++ s') → A' e y s'.

Definition reads_varint (A : rel) (A' : Z → rel) : Prop := ∀ sfx s, A sfx s →
  ∃ v y, sfx = varint_enc v ++ y ∧ 0 ≤ v < 2 ^ 64 ∧ (V → ∃ s', s = varint_enc v ++ s') ∧
    ∀ s', (V → s = varint_enc v ++ s') → A' v y s'.

Lemma at_pos_read n A A' h d s' :
  at_pos A h (d ++ s') → reads n A A' → zlen d = n → at_pos (A' d) (h ++ d) s'.
Proof.
  intros [Hall Hex] Hr Hz. split.
  - intros sfx Hsfx. rewrite -app_assoc in Hsfx. destruct (Hr _ _ (Hall _ Hsfx)) as (e & y & Heq & He & _ & HA).
    apply zlen_app_inj in Heq as [<- <-]; [|lia]. by apply HA.
  - intros HV. destruct (Hex HV) as [sfx Hsfx]. destruct (Hr _ _ (Hall _ Hsfx)) as (e & y & -> & He & Hs & _).
    destruct (Hs HV) as [s'' Heq]. apply zlen_app_inj in Heq as [<- _]; [|lia]. exists y. by rw -app_assoc.
Qed.

Lemma at_pos_short n A A' h bs fut :
  at_pos A h (drest bs ++ fut) → reads n A A' → zlen (drest bs) < n → n ≤ 32 → waiting bs fut.
Proof.
  intros [Hall Hex] Hr Hlt Hn HV. split; [lia|]. destruct (Hex HV) as [sfx Hsfx].
  destruct (Hr _ _ (Hall _ Hsfx)) as (e & y & _ & He & Hs & _). destruct (Hs HV) as [s' Heq].
  intros ->. rewrite app_nil_r in Heq. rewrite Heq zlen_app in Hlt. zlia.
Qed.

Lemma at_pos_varint A A' h s v s' :
  at_pos A h s → reads_varint A A' → 0 ≤ v < 2 ^ 64 → varint_dec s = Some (v, s') →
  at_pos (A' v) (h ++ varint_enc v) s'.
Proof.
  intros [Hall Hex] Hr Hv Hd.
  assert (∀ n s'', V → 0 ≤ n < 2 ^ 64 → s = varint_enc n ++ s'' → n = v ∧ s'' = s') as Hu.
  { intros n s'' _ Hn ->. rewrite varint_dec_enc // in Hd. by injection Hd as -> ->. }
  split.
  - intros sfx Hsfx. rewrite -app_assoc in Hsfx. destruct (Hr _ _ (Hall _ Hsfx)) as (n & y & Heq & Hn & Hs & HA).
    apply varint_enc_inj_app in Heq as [<- <-]; [|done..]. apply HA. intros HV. destruct (Hs HV) as [s'' Heq].
    destruct (Hu _ _ HV Hn Heq) as [_ ->]. done.
  - intros HV. destruct (Hex HV) as [sfx Hsfx]. destruct (Hr _ _ (Hall _ Hsfx)) as (n & y & -> & Hn & Hs & _).
    destruct (Hs HV) as [s'' Heq]. destruct (Hu _ _ HV Hn Heq) as [-> _]. exists y. by rw -app_assoc.
Qed.

Lemma at_pos_varint_short A A' h bs fut :
  wf_dbuffer bs → at_pos A h (drest bs ++ fut) → reads_varint A A' → varint_dec (drest bs) = None → waiting bs fut.
Proof.
  intros Hbs [Hall Hex] Hr Hd HV. split; [by apply varint_dec_None in Hd; lia|].
  destruct (Hex HV) as [sfx Hsfx]. destruct (Hr _ _ (Hall _ Hsfx)) as (n & y & _ & Hn & Hs & _).
  destruct (Hs HV) as [s' Heq]. intros ->. rewrite app_nil_r in Heq. by rewrite Heq varint_dec_enc in Hd.
Qed.

Lemma at_pos_mono (A A' : rel) h s : at_pos A h s → (∀ sfx, A sfx s → A' sfx s) → at_pos A' h s.
Proof. intros [Hall Hex] HA. split; [auto|done]. Qed.

(** A position that cannot be. *)
Lemma at_pos_absurd (A A' : rel) h s h' s' d :
  at_pos A h s → (∀ sfx, A sfx s → False) → h' = h ++ d → at_pos A' h' s'.
Proof.
  intros [Hall Hex] HA ->. split.
  - intros sfx Hsfx. rewrite -app_assoc in Hsfx. destruct (HA _ (Hall _ Hsfx)).
  - intros HV. destruct (Hex HV) as [sfx Hsfx]. destruct (HA _ (Hall _ Hsfx)).
Qed.

(** *** The steps that read and hash *)
Lemma read_and_hash_spec n W W' A A' E :
  0 ≤ n ≤ 32 → (∀ st h, W st → W' (set_hash st h)) →
  (∀ st h, W st → reads n (A st) (λ _, A' (set_hash st h))) →
  step_spec (read_and_hash n) (inv W A) (inv W' A') E.
Proof.
  intros Hn HW HA fut st bs Hbs Hlen [HWst Hpos]. rw /read_and_hash.
  destruct (read_bytes_cases bs n Hbs) as [[Hlt ->]|(d & bs' & -> & Hd & Hok & Heq & Hrd)]; [lia|..].
  - rw outcome_ret_bind. eexists _, _, _. split; [done|]. split; [by apply read_from_refl|].
    right. left. split_and!; [done..|]. eapply (at_pos_short n); [done|by apply (HA st [])|done|lia].
  - rw !outcome_ret_bind crypto_hash_update_spec // !outcome_ret_bind. eexists _, _, _. split; [done|].
    split; [done|]. left. split; [done|]. split; [by apply HW|]. rewrite Heq -app_assoc in Hpos.
    apply (at_pos_read n _ _ _ _ _ Hpos (HA st (hash_context st ++ d) HWst) Hd).
Qed.

Lemma read_varint_and_hash_spec k W W' A A' E :
  (∀ st v h, W st → 0 ≤ v < 2 ^ 64 →
    ∃ st', k v (set_hash st h) = Val st' ∧ hash_context st' = h ∧ W' st') →
  (∀ st, W st → reads_varint (A st) (λ v y s', ∀ st', (∃ h, k v (set_hash st h) = Val st') → A' st' y s')) →
  step_spec (read_varint_and_hash k) (inv W A) (inv W' A') E.
Proof.
  intros Hk HA fut st bs Hbs Hlen [HWst Hpos]. rw /read_varint_and_hash.
  destruct (read_varint_cases bs Hbs) as [(Hlt & Hd & ->)|(v & bs' & -> & Hv & Hd & _ & Hrd)].
  - rw outcome_ret_bind. eexists _, _, _. split; [done|]. split; [by apply read_from_refl|].
    right. left. split_and!; [done..|]. by eapply at_pos_varint_short; [|done|by apply HA|].
  - rw !outcome_ret_bind crypto_hash_update_varint_spec // !outcome_ret_bind.
    destruct (Hk st v (hash_context st ++ varint_enc v) HWst Hv) as (st' & Hst' & Hh & HW').
    rw Hst' outcome_ret_bind. eexists _, _, _. split; [done|]. split; [done|]. left. split; [done|].
    split; [done|]. rw Hh. eapply at_pos_mono; [eapply at_pos_varint; [done|by apply HA|done|by apply varint_dec_app]|].
    intros sfx HA'. apply HA'. by eexists.
Qed.

(** *** Progress *)
Definition consumes (f : step) : Prop := ∀ st bs r st' bs',
  wf_dbuffer bs → f st bs = Val (r, st', bs') → r ≠ 0 → zlen (drest bs') < zlen (drest bs).

Lemma step_spec_le l f P Q E :
  step_spec f P Q E →
  step_spec f (λ st s, P st s ∧ zlen s < l) (λ st s, Q st s ∧ zlen s < l) (λ st s, E st s ∧ zlen s < l).
Proof.
  intros Hf fut st bs Hbs Hlen [HP Hl]. destruct (Hf fut st bs) as (r & st' & bs' & Hr & Hrd & Hpost); [done..|].
  assert (zlen (drest bs' ++ fut) < l).
  { pose proof (read_from_le _ _ Hrd). rewrite zlen_app. rewrite zlen_app in Hl. lia. }
  exists r, st', bs'. split; [done|]. split; [done|]. tauto.
Qed.

Lemma step_spec_lt l f P Q E :
  step_spec f P Q E → consumes f →
  step_spec f (λ st s, P st s ∧ zlen s ≤ l) (λ st s, Q st s ∧ zlen s < l) (λ st s, E st s ∧ zlen s < l).
Proof.
  intros Hf Hc fut st bs Hbs Hlen [HP Hl]. destruct (Hf fut st bs) as (r & st' & bs' & Hr & Hrd & Hpost); [done..|].
  pose proof (read_from_le _ _ Hrd). pose proof (Hc _ _ _ _ _ Hbs Hr). rewrite zlen_app in Hl.
  assert (zlen (drest bs' ++ fut) ≤ l) by (rewrite zlen_app; lia).
  assert (r ≠ 0 → zlen (drest bs' ++ fut) < l) by (rewrite zlen_app; intros; lia).
  exists r, st', bs'. split; [done|]. split; [done|].
  destruct Hpost as [[-> ?]|[(-> & ? & ?)|[-> ?]]]; [left|right; left|right; right]; auto.
Qed.

Lemma run_progress (Ps : Z → assn) E f steps fut st bs :
  (∀ j g, (f :: steps) !! j = Some g → step_spec g (Ps (Z.of_nat j)) (Ps (Z.of_nat j + 1)) E) →
  consumes f → wf_dbuffer bs → zlen (drest bs) < 2 ^ 31 → Ps 0 st (drest bs ++ fut) →
  ∃ r ctx bs', parser_run (f :: steps) (mk_parser_context 0 st) bs = Val (r, ctx, bs') ∧
    run_post Ps (Z.of_nat (length (f :: steps))) E fut bs r ctx bs' ∧
    (r ≠ 0 → zlen (drest bs') < zlen (drest bs)).
Proof.
  intros Hsteps Hc Hbs Hlen HP. set (l := zlen (drest bs ++ fut)).
  destruct (run_spec (λ k st s, Ps k st s ∧ if k =? 0 then zlen s ≤ l else zlen s < l)
    (λ st s, E st s ∧ zlen s < l) (f :: steps) 0 fut st bs) as (r & ctx & bs' & Hr & Hrd & Hpost);
    [simpl; lia| |done|done|split; [done|simpl; lia]|].
  - intros [|j] g Hj; [apply step_spec_lt; [by apply (Hsteps 0%nat)|by injection Hj as <-]|].
    rw (proj2 (Z.eqb_neq (Z.of_nat (S j)) 0)); [|lia]. rw (proj2 (Z.eqb_neq (Z.of_nat (S j) + 1) 0)); [|lia].
    by apply step_spec_le, Hsteps.
  - exists r, ctx, bs'. split; [done|].
    assert (∀ n, zlen (drest bs' ++ fut) < l → n ≠ 0 → zlen (drest bs') < zlen (drest bs)) as Hl.
    { intros _ Hl _. revert Hl. rw /l !zlen_app. lia. }
    destruct Hpost as [(-> & Hcur & HPs & Hlt)|[(-> & Hcur & [HPs _] & Hw)|(-> & HE & Hlt)]].
    + split; [split; [done|by left]|]. by apply Hl.
    + split; [split; [done|by right; left]|]. done.
    + split; [split; [done|by right; right]|]. by apply Hl.
Qed.

Lemma read_and_hash_consumes n : 0 < n → consumes (read_and_hash n).
Proof.
  intros Hn st bs r st' bs' Hbs. rw /read_and_hash.
  destruct (read_bytes_cases bs n Hbs) as [[_ ->]|(d & bs2 & -> & Hd & _ & -> & _)]; [lia|..].
  - rw outcome_ret_bind. by intros [= <- _ _].
  - rw !outcome_ret_bind crypto_hash_update_spec // !outcome_ret_bind. intros [= _ _ <-] _.
    rw zlen_app. lia.
Qed.

(** ** Before the witnesses

    What is still to be hashed ends with the lock time, what is still to be read
    with the witnesses and the lock time. *)
Definition tail_raw : list Z := default [] (ser_witnesses <$> witnesses TX) ++ locktime TX.
Definition body (X : list Z → Prop) : rel := λ sfx s,
  ∃ x, X x ∧ sfx = x ++ locktime TX ∧ (V → s = x ++ tail_raw).

Lemma body_reads n X (X' : list Z → list Z → Prop) :
  (∀ x, X x → ∃ e x', x = e ++ x' ∧ zlen e = n ∧ X' e x') → reads n (body X) (λ d, body (X' d)).
Proof.
  intros HX sfx s (x & Hx & -> & Hs). destruct (HX x Hx) as (e & x' & -> & He & HX'). rewrite -app_assoc in Hs.
  exists e, (x' ++ locktime TX). rw -app_assoc. split_and!; [done..|eauto|].
  intros s' Hs'. exists x'. split_and!; [done..|]. intros HV. apply (app_inv_head e). by rw -Hs' // -Hs.
Qed.

Lemma at_pos_body_read n X X' h d s' :
  at_pos (body X) h (d ++ s') → (∀ x, X x → ∃ e x', x = e ++ x' ∧ zlen e = n ∧ (e = d → X' x')) → zlen d = n →
  at_pos (body X') (h ++ d) s'.
Proof.
  intros Hpos HX Hz. eapply at_pos_mono.
  - eapply (at_pos_read n _ _ _ _ _ Hpos); [|done]. eapply (body_reads _ _ (λ e x', e = d → X' x')). exact HX.
  - intros sfx (x & Hx & Hs). exists x. auto.
Qed.

Lemma at_pos_body_short n X h bs fut :
  at_pos (body X) h (drest bs ++ fut) → (∀ x, X x → ∃ e x', x = e ++ x' ∧ zlen e = n) →
  zlen (drest bs) < n → n ≤ 32 → waiting bs fut.
Proof.
  intros Hpos HX. eapply at_pos_short; [done|]. apply (body_reads n X (λ _ _, True)). intros x Hx.
  destruct (HX x Hx) as (e & x' & ? & ?). eauto.
Qed.

Lemma body_varint {I} X (K : Z → I → Prop) (X' : I → list Z → Prop) :
  (∀ x, X x → ∃ v x', x = varint_enc v ++ x' ∧ 0 ≤ v < 2 ^ 64 ∧ ∀ i, K v i → X' i x') →
  reads_varint (body X) (λ v y s', ∀ i, K v i → body (X' i) y s').
Proof.
  intros HX sfx s (x & Hx & -> & Hs). destruct (HX x Hx) as (v & x' & -> & Hv & HX'). rewrite -app_assoc in Hs.
  exists v, (x' ++ locktime TX). rw -app_assoc. split_and!; [done|lia|lia|eauto|].
  intros s' Hs' i Hi. exists x'. split_and!; [by apply HX'|done|]. intros HV.
  apply (app_inv_head (varint_enc v)). by rw -Hs' // -Hs.
Qed.

Lemma body_mono (X X' : list Z → Prop) sfx s : body X sfx s → (∀ x, X x → X' x) → body X' sfx s.
Proof. intros (x & Hx & Hs) HX. exists x. auto. Qed.

Context (HTX : wf_tx TX).

Definition outs_ser : list Z := ser_vector ser_txout (tx_outs TX).

(** The array for the script has its size, and the requested index does not
    change. *)
Definition common (st : parse_rawtx_state) : Prop :=
  output_index st = oi ∧ zlen (vout_scriptpubkey (parser_outputs st)) = MAX_PREVOUT_SCRIPTPUBKEY_LEN.
Definition frame (st : parse_rawtx_state) : Prop :=
  n_inputs st = Z.of_nat (length (tx_ins TX)) ∧ (V → is_segwit st = bool_decide (is_Some (witnesses TX))).

(** *** Inputs *)
Definition in_part (s : Z) (i : input_stage) (t : txin) : list Z :=
  match s with
  | 0 => ser_txin t
  | 1 => prev_vout t ++ ser_string (script_sig t) ++ sequence t
  | 2 => ser_string (script_sig t) ++ sequence t
  | 3 => script_sig t ++ sequence t
  | 4 => drop (Z.to_nat (scriptsig_counter i)) (script_sig t) ++ sequence t
  | 5 => sequence t
  | _ => []
  end.

Definition in_wf (s : Z) (st : parse_rawtx_state) : Prop :=
  common st ∧ ∃ i, the_stage st = Inputs i ∧ 0 ≤ in_counter i < n_inputs st ∧ n_inputs st < 2 ^ 32 ∧
    (s = 3 ∨ s = 4 → 0 ≤ scriptsig_size i < 2 ^ 32) ∧
    (s = 4 → 0 ≤ scriptsig_counter i ≤ scriptsig_size i).

Definition in_pos (s : Z) (st : parse_rawtx_state) (x : list Z) : Prop :=
  frame st ∧ ∃ i t rest, the_stage st = Inputs i ∧ drop (Z.to_nat (in_counter i)) (tx_ins TX) = t :: rest ∧
    (s = 3 ∨ s = 4 → scriptsig_size i = zlen (script_sig t)) ∧
    x = in_part s i t ++ concat (ser_txin <$> rest) ++ outs_ser.

Definition in_inv (s : Z) : assn := inv (in_wf s) (λ st, body (in_pos s st)).

Lemma drop_txin k t rest : drop k (tx_ins TX) = t :: rest → wf_txin t.
Proof. intros Hd. pose proof (Forall_drop _ k _ (wf_ins _ HTX)) as Hf. rewrite Hd in Hf. by inversion Hf. Qed.

(** A step that reads a field of fixed size. *)
Lemma in_field_spec n s (field : txin → list Z) E :
  0 ≤ n ≤ 32 → (s = 0 ∨ s = 1 ∨ s = 5) → (∀ t, wf_txin t → zlen (field t) = n) →
  (∀ i t, in_part s i t = field t ++ in_part (s + 1) i t) →
  step_spec (read_and_hash n) (in_inv s) (in_inv (s + 1)) E.
Proof.
  intros Hn Hs Hf Hpart. apply read_and_hash_spec; [done|..].
  - intros st h (Hc & i & Hi & Hcnt & Hlt & _). split; [done|]. exists i. cbn [the_stage n_inputs set_hash]. split_and!; [done|lia..].
  - intros st h _. apply (body_reads n _ (λ _, in_pos (s + 1) (set_hash st h))).
    intros x (Hfr & i & t & rest & Hi & Hd & _ & ->). exists (field t). rw Hpart -app_assoc.
    eexists. split; [done|]. split; [by eapply Hf, drop_txin|]. split; [done|].
    exists i, t, rest. split_and!; [done..|lia|done].
Qed.

Lemma at_pos_valid A h s : at_pos A h s → V → ∃ sfx, A sfx s.
Proof. intros [Hall Hex] HV. destruct (Hex HV) as [sfx Hsfx]. eauto. Qed.

Lemma scriptsig_size_spec E : step_spec parse_rawtxinput_scriptsig_size (in_inv 2) (in_inv 3) E.
Proof.
  apply read_varint_and_hash_spec.
  - intros st v h (Hc & i & Hi & Hcnt & Hlt & _) Hv. cbn [the_stage set_hash]. rw Hi. eexists. split; [done|].
    split; [done|]. split; [done|]. eexists. split; [done|]. cbn [in_counter n_inputs set_stage set_hash scriptsig_size].
    pose proof (u32_range v). split_and!; lia.
  - intros st _. apply body_varint. intros x (Hfr & i & t & rest & Hi & Hd & _ & ->).
    pose proof (drop_txin _ _ _ Hd) as (_ & _ & _ & Hsig). pose proof (zlen_nonneg (script_sig t)).
    exists (zlen (script_sig t)). eexists. rw /in_part /ser_string -!app_assoc. split; [done|]. split; [lia|].
    intros st' [h Hk]. cbn [the_stage set_hash] in Hk. rewrite Hi in Hk. injection Hk as <-.
    split; [done|]. eexists _, t, rest. split; [done|]. split; [done|]. split; [|by rw -!app_assoc].
    cbn [scriptsig_size]. intros _. rw u32_small; lia.
Qed.

Lemma scriptsig_init_spec E : step_spec parse_rawtxinput_scriptsig_init (in_inv 3) (in_inv 4) E.
Proof.
  intros fut st bs Hbs Hlen [(Hc & i & Hi & Hcnt & Hlt & Hsz & _) Hpos]. rw /parse_rawtxinput_scriptsig_init Hi.
  eexists _, _, _. split; [done|]. split; [by apply read_from_refl|]. left. split; [done|]. split.
  - split; [done|]. eexists. split; [done|]. cbn [in_counter n_inputs set_stage scriptsig_size scriptsig_counter].
    split_and!; lia.
  - eapply at_pos_mono; [done|]. intros sfx Hb. eapply body_mono; [done|].
    intros x (Hfr & i' & t & rest & Hi' & Hd & Hs & ->). rewrite Hi in Hi'. injection Hi' as <-.
    split; [done|]. eexists _, t, rest. split; [done|]. split; [done|]. cbn [scriptsig_size]. split; [auto|].
    by rw /in_part /= drop_0.
Qed.

(** The state of the loop after a chunk. *)
Lemma scriptsig_chunk st i d h s' :
  the_stage st = Inputs i → in_wf 4 st → zlen d = Z.min 32 (scriptsig_size i - scriptsig_counter i) →
  at_pos (body (in_pos 4 st)) (hash_context st) (d ++ s') → h = hash_context st ++ d →
  in_inv 4 (set_stage (set_hash st h)
    (Inputs (mk_input_stage (in_counter i) (in_step i) (scriptsig_size i) (scriptsig_counter i + zlen d)))) s'.
Proof.
  intros Hi (Hc & i' & Hi' & Hcnt & Hlt & Hsz & Hct) Hd Hpos ->. rewrite Hi in Hi'. injection Hi' as <-.
  pose proof (zlen_nonneg d). specialize (Hsz ltac:(lia)). specialize (Hct eq_refl). split.
  - split; [done|]. eexists. split; [done|]. cbn [in_counter n_inputs set_stage set_hash scriptsig_size scriptsig_counter].
    split_and!; lia.
  - change (hash_context (set_stage _ _)) with (hash_context st ++ d).
    apply (at_pos_body_read (zlen d) _ _ _ _ _ Hpos); [|done]. intros x (Hfr & i' & t & rest & Hi' & Hdr & Hs & ->).
    rewrite Hi in Hi'. injection Hi' as <-. specialize (Hs ltac:(lia)).
    set (sig := drop (Z.to_nat (scriptsig_counter i)) (script_sig t)).
    exists (take (Z.to_nat (zlen d)) sig). eexists. rw /in_part -/sig -{1}(take_drop (Z.to_nat (zlen d)) sig) -!app_assoc. split; [done|].
    split; [apply zlen_take; rw /sig zlen_drop; lia|]. split; [done|].
    eexists _, t, rest. split; [done|]. split; [done|]. split; [done|].
    rw /sig drop_drop -!app_assoc. do 2 f_equal. simpl. lia.
Qed.

Lemma scriptsig_done st i s :
  the_stage st = Inputs i → scriptsig_counter i = scriptsig_size i → in_inv 4 st s → in_inv 5 st s.
Proof.
  intros Hi Heq [(Hc & i' & Hi' & Hcnt & Hlt & _) Hpos]. rewrite Hi in Hi'. injection Hi' as <-. split.
  - split; [done|]. exists i. split_and!; [done|lia..].
  - eapply at_pos_mono; [done|]. intros sfx Hb. eapply body_mono; [done|].
    intros x (Hfr & i' & t & rest & Hi' & Hd & Hs & ->). rewrite Hi in Hi'. injection Hi' as <-.
    split; [done|]. exists i, t, rest. split_and!; [done..|lia|].
    rw /in_part Heq Hs; [|lia]. by rw zlen_length drop_all.
Qed.

(** A loop that waits for the next chunk of a script. *)
Lemma scriptsig_waiting st i bs fut :
  the_stage st = Inputs i → in_inv 4 st (drest bs ++ fut) →
  (scriptsig_size i - scriptsig_counter i < 2 ^ 31 → zlen (drest bs) < Z.min 32 (scriptsig_size i - scriptsig_counter i)) →
  waiting bs fut.
Proof.
  intros Hi [(Hc & i' & Hi' & Hcnt & Hlt & Hsz & Hct) Hpos] Hshort HV.
  rewrite Hi in Hi'. injection Hi' as <-. specialize (Hct eq_refl).
  destruct (at_pos_valid _ _ _ Hpos HV) as (sfx & x & (Hfr & i' & t & rest & Hi' & Hd & Hs & ->) & _ & Hraw).
  rewrite Hi in Hi'. injection Hi' as <-. specialize (Hs ltac:(lia)). specialize (Hraw HV).
  pose proof (drop_txin _ _ _ Hd) as (_ & _ & _ & Hsig). specialize (Hshort ltac:(lia)).
  split; [lia|]. intros ->. rewrite app_nil_r in Hraw. rewrite Hraw /in_part !zlen_app zlen_drop in Hshort; [|lia].
  zlen_facts. lia.
Qed.

Lemma scriptsig_loop_spec E fuel fut st bs :
  wf_dbuffer bs → zlen (drest bs) < 2 ^ 31 → zlen (drest bs) < Z.of_nat fuel → in_inv 4 st (drest bs ++ fut) →
  ∃ r st' bs', scriptsig_loop fuel st bs = Val (r, st', bs') ∧ step_post (in_inv 4) (in_inv 5) E fut bs r st' bs'.
Proof.
  revert st bs. induction fuel as [|fuel IH]; intros st bs Hbs Hlen Hfuel Hinv; [zlia|].
  pose proof Hinv as [Hwf Hpos]. pose proof Hwf as (Hc & i & Hi & Hcnt & Hlt & Hsz & Hct).
  specialize (Hsz ltac:(lia)). specialize (Hct eq_refl). cbn [scriptsig_loop]. rw Hi. cbv beta iota zeta.
  destruct (read_chunk_cases bs (scriptsig_size i) (scriptsig_counter i) Hbs Hlen)
    as [[-> Hshort]|(d & bs' & -> & -> & Hd & Heq & Hrd)]; [lia..| |]; rw outcome_ret_bind.
  { eexists _, _, _. split; [done|]. split; [by apply read_from_refl|]. right. left.
    split_and!; [done..|]. by eapply scriptsig_waiting. }
  rw crypto_hash_update_spec // outcome_ret_bind -Hd u32_small; [|zlia]. rewrite Heq -app_assoc in Hpos.
  set (st1 := set_stage _ _).
  assert (in_inv 4 st1 (drest bs' ++ fut)) as Hinv1 by (by eapply scriptsig_chunk).
  pose proof (read_from_le _ _ Hrd). rewrite Heq zlen_app in Hfuel. pose proof (zlen_nonneg (drest bs')).
  destruct (Z.eqb_spec (scriptsig_counter i + zlen d) (scriptsig_size i)) as [Hdone|Hmore].
  - eexists _, _, _. split; [done|]. split; [done|]. left. split; [done|]. by eapply scriptsig_done.
  - destruct (IH st1 bs') as (r & st' & bs2 & Hr & Hrd2 & Hpost); [apply Hrd|lia|lia|done|].
    eexists _, _, _. split; [done|]. split; [by eapply read_from_trans|done].
Qed.

Lemma bytes_fuel_ge bs : wf_dbuffer bs → Z.of_nat (bytes_fuel bs) = zlen (drest bs) + 2.
Proof. intros Hbs. rw /bytes_fuel dbuffer_length //. zlia. Qed.

Lemma input_steps_spec E j f :
  parse_rawtxinput_steps !! j = Some f → step_spec f (in_inv (Z.of_nat j)) (in_inv (Z.of_nat j + 1)) E.
Proof.
  intros Hj. destruct j as [|[|[|[|[|[|j]]]]]]; [injection Hj as <-..|done].
  - apply (in_field_spec 32 0 prev_txid); [lia|lia|by intros t (?&?)|]. intros. by rw /= /ser_txin.
  - apply (in_field_spec 4 1 prev_vout); [lia|lia|by intros t (?&?&?)|done].
  - apply scriptsig_size_spec.
  - apply scriptsig_init_spec.
  - intros fut st bs Hbs Hlen Hinv. apply scriptsig_loop_spec; [done..| |done]. rw bytes_fuel_ge //. lia.
  - apply (in_field_spec 4 5 sequence); [lia|lia|by intros t (?&?&?&?)|]. intros. by rw /= app_nil_r.
Qed.

(** The state before the number of outputs, and in the loop over the inputs. *)
Definition counted (st : parse_rawtx_state) : Prop := common st ∧ 0 ≤ n_inputs st < 2 ^ 32.
Definition out_count_inv : assn := inv counted (λ st, body (λ x, frame st ∧ x = outs_ser)).

Definition inputs_inv : assn := λ st s, ∃ i, the_stage st = Inputs i ∧ 0 ≤ in_step i < 6 ∧
  (in_counter i < n_inputs st → in_inv (in_step i) st s) ∧ (n_inputs st ≤ in_counter i → out_count_inv st s).

Lemma in_restage k s st i strm :
  the_stage st = Inputs i → in_inv s st strm →
  in_inv s (set_stage st (Inputs (mk_input_stage (in_counter i) k (scriptsig_size i) (scriptsig_counter i)))) strm.
Proof.
  intros Hi [(Hc & i' & Hi' & Hwf) Hpos]. rewrite Hi in Hi'. injection Hi' as <-. split.
  - split; [done|]. by eexists.
  - eapply at_pos_mono; [done|]. intros sfx Hb. eapply body_mono; [done|].
    intros x (Hfr & i' & t & rest & Hi' & Hd & Hs & ->). rewrite Hi in Hi'. injection Hi' as <-.
    split; [done|]. eexists _, t, rest. by split_and!.
Qed.

Lemma in_next st i strm :
  the_stage st = Inputs i → in_inv 6 st strm →
  inputs_inv (set_stage st (Inputs (mk_input_stage (u32 (in_counter i + 1)) 0 (scriptsig_size i) (scriptsig_counter i)))) strm.
Proof.
  intros Hi [(Hc & i' & Hi' & Hcnt & Hlt & _) Hpos]. rewrite Hi in Hi'. injection Hi' as <-.
  rw u32_small; [|lia]. eexists. split; [done|]. cbn [in_step in_counter n_inputs set_stage]. split; [lia|].
  assert (∀ x, in_pos 6 st x → frame st ∧ ∃ rest, drop (Z.to_nat (in_counter i + 1)) (tx_ins TX) = rest ∧
    x = concat (ser_txin <$> rest) ++ outs_ser ∧ Z.of_nat (length rest) = n_inputs st - (in_counter i + 1)) as Hx.
  { intros x (Hfr & i' & t & rest & Hi' & Hd & _ & ->). rewrite Hi in Hi'. injection Hi' as <-. split; [done|].
    exists rest. pose proof (f_equal length Hd) as Hl. rewrite length_drop /= in Hl. destruct Hfr as [Hn _].
    split_and!; [|done|lia]. rw Z2Nat.inj_add; [|lia..]. by rw -drop_drop Hd. }
  split; intros Hcmp; (split; [|eapply at_pos_mono; [done|]; intros sfx Hb; eapply body_mono; [done|];
    intros x Hpx; destruct (Hx _ Hpx) as (Hfr & rest & Hd & -> & Hl)]).
  - split; [done|]. eexists. split; [done|]. cbn [in_counter n_inputs set_stage]. split_and!; lia.
  - destruct rest as [|t rest]; [simpl in Hl; lia|]. split; [done|]. eexists _, t, rest.
    split_and!; [done..|lia|]. by rw /in_part /= -app_assoc.
  - split; [done|]. simpl. lia.
  - destruct rest as [|t rest]; [done|simpl in Hl; lia].
Qed.

Lemma inputs_loop_spec E fuel fut st bs i :
  wf_dbuffer bs → zlen (drest bs) < 2 ^ 31 → the_stage st = Inputs i →
  zlen (drest bs) + (if in_step i =? 0 then 0 else 1) < Z.of_nat fuel → inputs_inv st (drest bs ++ fut) →
  ∃ r st' bs', inputs_loop fuel st bs = Val (r, st', bs') ∧ step_post inputs_inv out_count_inv E fut bs r st' bs'.
Proof.
  revert st bs i. induction fuel as [|fuel IH]; intros st bs i Hbs Hlen Hi Hfuel Hinv.
  { pose proof (zlen_nonneg (drest bs)). revert Hfuel. case_match; lia. }
  destruct Hinv as (i' & Hi' & Hstep & Hin & Hout). rewrite Hi in Hi'. injection Hi' as <-.
  cbn [inputs_loop]. rw Hi. destruct (Z.ltb_spec (in_counter i) (n_inputs st)) as [Hlt|Hge]; last first.
  { eexists _, _, _. split; [done|]. split; [by apply read_from_refl|]. left. auto. }
  assert (∃ r ctx bs', parser_run parse_rawtxinput_steps (mk_parser_context (in_step i) st) bs = Val (r, ctx, bs') ∧
    run_post in_inv 6 (λ _ _, False) fut bs r ctx bs' ∧
    (r ≠ 0 → zlen (drest bs') < zlen (drest bs) + (if in_step i =? 0 then 0 else 1))) as
    (r & ctx & bs' & -> & [Hrd Hpost] & Hprog).
  { destruct (Z.eqb_spec (in_step i) 0) as [H0|H0].
    - rewrite H0 in Hin |- *.
      destruct (run_progress in_inv (λ _ _, False) parse_rawtxinput_txid (tail parse_rawtxinput_steps) fut st bs)
        as (r & ctx & bs' & ? & ? & ?); [apply input_steps_spec|by apply read_and_hash_consumes|auto..|].
      exists r, ctx, bs'. rw Z.add_0_r. auto.
    - destruct (run_spec in_inv (λ _ _, False) parse_rawtxinput_steps (in_step i) fut st bs)
        as (r & ctx & bs' & Hr & Hpost); [simpl; lia|apply input_steps_spec|auto..|].
      exists r, ctx, bs'. split_and!; [done..|]. pose proof (read_from_le _ _ (proj1 Hpost)). lia. }
  rw outcome_ret_bind. destruct Hpost as [(-> & _ & Hdone)|[(-> & Hcur & Hwait & Hw)|[_ []]]].
  - pose proof Hdone as [(_ & i2 & Hi2 & _) _]. cbv zeta. rw Hi2. cbn [to_bool Z.eqb negb].
    pose proof (read_from_le _ _ Hrd).
    pose proof (in_next _ _ _ Hi2 Hdone) as Hnext. set (st1 := set_stage _ _) in *.
    destruct (IH st1 bs' _ (proj1 Hrd) ltac:(lia) eq_refl) as (r & st' & bs2 & Hr & Hrd2 & Hpost); [|done|].
    { cbn [in_step Z.eqb]. specialize (Hprog ltac:(done)). lia. }
    eexists _, _, _. split; [exact Hr|]. split; [by eapply read_from_trans|done].
  - assert (∃ i2, the_stage (pstate ctx) = Inputs i2 ∧ in_counter i2 < n_inputs (pstate ctx)) as (i2 & Hi2 & Hc2).
    { destruct Hwait as [(_ & i2 & Hi2 & ? & _) _]. exists i2. split; [done|lia]. }
    cbv zeta. rw Hi2. cbn [to_bool Z.eqb negb]. eexists _, _, _. split; [done|]. split; [done|]. right. left.
    split; [done|]. split; [|done]. eexists. split; [done|]. cbn [in_step in_counter n_inputs set_stage].
    split; [lia|]. split; [|lia]. intros _. by apply in_restage.
Qed.

(** *** Outputs *)
Definition idx : Z := u32 oi.
Context (Hsmall : ∀ u, tx_outs TX !! Z.to_nat idx = Some u → zlen (script_pubkey u) ≤ MAX_PREVOUT_SCRIPTPUBKEY_LEN).

(** The value and the script of [u] are in the outputs of the parser. *)
Definition recorded (p : txid_parser_outputs) (u : txout) : Prop :=
  vout_value p = value u ∧ vout_scriptpubkey_len p = zlen (script_pubkey u) ∧
  take (length (script_pubkey u)) (vout_scriptpubkey p) = script_pubkey u.
Definition recorded_before (c : Z) (p : txid_parser_outputs) : Prop :=
  ∀ u, tx_outs TX !! Z.to_nat idx = Some u → idx < c → recorded p u.

(** Those fields of the output [t] that have been read before step [s]. *)
Definition recorded_part (s : Z) (o : output_stage) (p : txid_parser_outputs) (t : txout) : Prop :=
  (1 ≤ s → vout_value p = value t) ∧ (2 ≤ s → vout_scriptpubkey_len p = zlen (script_pubkey t)) ∧
  (s = 3 → take (Z.to_nat (scriptpubkey_counter o)) (vout_scriptpubkey p) =
           take (Z.to_nat (scriptpubkey_counter o)) (script_pubkey t)) ∧
  (s = 4 → take (length (script_pubkey t)) (vout_scriptpubkey p) = script_pubkey t).

Definition out_part (s : Z) (o : output_stage) (t : txout) : list Z :=
  match s with
  | 0 => ser_txout t
  | 1 => ser_string (script_pubkey t)
  | 2 => script_pubkey t
  | 3 => drop (Z.to_nat (scriptpubkey_counter o)) (script_pubkey t)
  | _ => []
  end.

Definition out_wf (s : Z) (st : parse_rawtx_state) : Prop :=
  counted st ∧ ∃ o, the_stage st = Outputs o ∧ 0 ≤ out_counter o < n_outputs st ∧ n_outputs st < 2 ^ 32 ∧
    (s = 2 ∨ s = 3 → 0 ≤ scriptpubkey_size o < 2 ^ 32 ∧
       (is_relevant st o = true → vout_scriptpubkey_len (parser_outputs st) = scriptpubkey_size o)) ∧
    (s = 3 → 0 ≤ scriptpubkey_counter o ≤ scriptpubkey_size o).

Definition out_frame (st : parse_rawtx_state) : Prop :=
  frame st ∧ n_outputs st = Z.of_nat (length (tx_outs TX)).

Definition out_pos (s : Z) (st : parse_rawtx_state) (x : list Z) : Prop :=
  out_frame st ∧ ∃ o t rest, the_stage st = Outputs o ∧ drop (Z.to_nat (out_counter o)) (tx_outs TX) = t :: rest ∧
    (s = 2 ∨ s = 3 → scriptpubkey_size o = zlen (script_pubkey t)) ∧
    x = out_part s o t ++ concat (ser_txout <$> rest) ∧
    recorded_before (out_counter o) (parser_outputs st) ∧
    (out_counter o = idx → recorded_part s o (parser_outputs st) t).

Definition out_inv (s : Z) : assn := inv (out_wf s) (λ st, body (out_pos s st)).

Lemma drop_txout k t rest : drop k (tx_outs TX) = t :: rest → wf_txout t ∧ tx_outs TX !! k = Some t.
Proof.
  intros Hd. split.
  - pose proof (Forall_drop _ k _ (wf_outs _ HTX)) as Hf. rewrite Hd in Hf. by inversion Hf.
  - by rw -(Nat.add_0_r k) -lookup_drop Hd.
Qed.

(** In the transaction, the current output is the requested one when the indices
    are equal. *)
Lemma relevant_idx st o :
  output_index st = oi → out_counter o < n_outputs st → out_frame st → is_relevant st o = bool_decide (out_counter o = idx).
Proof.
  intros Ho Hlt [_ Hn]. rw /is_relevant Ho -/idx. pose proof (wf_n_outs _ HTX).
  case_bool_decide as Hc; [|by rw (proj2 (Z.eqb_neq (out_counter o) idx)) // andb_false_r].
  rw Hc Z.eqb_refl andb_true_r. destruct (Z.eqb_spec oi (-1)) as [H1|]; [|done].
  rewrite /idx H1 in Hc. change (u32 (-1)) with (2 ^ 32 - 1) in Hc. lia.
Qed.

Lemma output_value_spec E : step_spec parse_rawtxoutput_value (out_inv 0) (out_inv 1) E.
Proof.
  intros fut st bs Hbs Hlen [Hwf Hpos]. pose proof Hwf as (Hc & o & Ho & Hcnt & Hlt & _). rw /parse_rawtxoutput_value.
  destruct (read_bytes_cases bs 8 Hbs) as [[Hs ->]|(d & bs' & -> & Hd & Hok & Heq & Hrd)]; [lia|..]; rw outcome_ret_bind.
  { eexists _, _, _. split; [done|]. split; [by apply read_from_refl|]. right. left. split_and!; [done..|].
    eapply (at_pos_body_short 8); [done| |done|lia]. intros x (_ & o' & t & rest & _ & _ & _ & -> & _).
    exists (le_bytes 8 (value t)). eexists. rw /out_part /ser_txout -!app_assoc. split; [done|]. by rw zlen_le_bytes. }
  rw read_u64_le_val // ?Hd; [|lia..]. rw outcome_ret_bind crypto_hash_update_spec // outcome_ret_bind Ho -Hd slice_all.
  rewrite Heq -app_assoc in Hpos. eexists _, _, _. split; [done|]. split; [done|]. left. split; [done|].
  match goal with |- out_inv 1 ?s _ => set (st1 := s) end.
  assert (the_stage st1 = Outputs o ∧ hash_context st1 = hash_context st ++ d ∧ n_outputs st1 = n_outputs st ∧
    (counted st → counted st1) ∧ (out_frame st → out_frame st1)) as (Ho1 & Hh1 & Hn1 & Hc1 & Hf1).
  { rw /st1. by case_match. }
  split; [split; [auto|]; exists o; rw Hn1; split_and!; [done|lia..]|]. rw Hh1.
  apply (at_pos_body_read 8 _ _ _ _ _ Hpos); [|done].
  intros x (Hfr & o' & t & rest & Ho' & Hdr & _ & -> & Hbefore & _). rewrite Ho in Ho'. injection Ho' as <-.
  pose proof (drop_txout _ _ _ Hdr) as [[Hval _] _].
  exists (le_bytes 8 (value t)). eexists. change (out_part 0 o t) with (le_bytes 8 (value t) ++ ser_string (script_pubkey t)).
  rw -app_assoc. split; [done|]. split; [by rw zlen_le_bytes|]. intros He. split; [auto|]. exists o, t, rest.
  pose proof (relevant_idx (set_hash st (hash_context st ++ d)) o (proj1 (proj1 Hc)) (proj2 Hcnt) Hfr) as Hrel.
  split_and!; [done|done|lia|done|..].
  - intros u Hu Hlt'. specialize (Hbefore u Hu Hlt'). rw /st1 Hrel bool_decide_eq_false_2 //. lia.
  - intros Hcur. rw /recorded_part /st1 Hrel bool_decide_eq_true_2 //. cbn [parser_outputs set_outputs vout_value]. split_and!; [|lia..].
    intros _. by rw -He le_val_le_bytes.
Qed.

Lemma scriptpubkey_size_spec E : step_spec parse_rawtxoutput_scriptpubkey_size (out_inv 1) (out_inv 2) E.
Proof.
  apply read_varint_and_hash_spec.
  - intros st v h (Hc & o & Ho & Hcnt & Hlt & _) Hv. cbn [the_stage set_hash]. rw Ho. eexists. split; [done|].
    pose proof (u32_range v). split; [by case_match|]. case_match eqn:Hrel.
    + split; [done|]. eexists. split; [done|].
      cbn [out_counter n_outputs set_outputs set_stage set_hash scriptpubkey_size vout_scriptpubkey_len parser_outputs].
      split_and!; [lia..| |lia]. intros _. split; [lia|done].
    + split; [done|]. eexists. split; [done|].
      cbn [out_counter n_outputs set_outputs set_stage set_hash scriptpubkey_size]. split_and!; [lia..| |lia].
      intros _. split; [lia|]. by intros Hrel'; revert Hrel; rewrite /is_relevant /= in Hrel' |- *; rewrite Hrel'.
  - intros st (Hc & o & Ho & Hcnt & _). apply body_varint.
    intros x (Hfr & o' & t & rest & Ho' & Hd & _ & -> & Hbefore & Hcur). rewrite Ho in Ho'. injection Ho' as <-.
    pose proof (drop_txout _ _ _ Hd) as [[_ Hsz] _]. pose proof (zlen_nonneg (script_pubkey t)).
    exists (zlen (script_pubkey t)), (script_pubkey t ++ concat (ser_txout <$> rest)).
    split; [by rw app_assoc|]. split; [lia|]. intros st' [h Hk]. cbn [the_stage set_hash] in Hk. rewrite Ho in Hk.
    injection Hk as <-. rw u32_small; [|lia]. set (st1 := set_stage _ _).
    pose proof (relevant_idx st1 o (proj1 (proj1 Hc)) (proj2 Hcnt) Hfr) as Hrel. rw Hrel.
    split; [by case_match|]. eexists _, t, rest. split; [by case_match|]. split; [done|].
    split; [done|]. split; [done|]. case_bool_decide as Heq; cbn [out_counter].
    + split; [|intros _; rw /recorded_part; split_and!; [|done|lia..]; intros _; by apply Hcur]. intros u Hu Hu'. lia.
    + split; [done|lia].
Qed.

Lemma scriptpubkey_init_spec E : step_spec parse_rawtxoutput_scriptpubkey_init (out_inv 2) (out_inv 3) E.
Proof.
  intros fut st bs Hbs Hlen [(Hc & o & Ho & Hcnt & Hlt & Hsz & _) Hpos]. rw /parse_rawtxoutput_scriptpubkey_init Ho.
  specialize (Hsz ltac:(lia)) as [Hsz Hrel].
  eexists _, _, _. split; [done|]. split; [by apply read_from_refl|]. left. split; [done|]. split.
  - split; [done|]. eexists. split; [done|]. cbn [out_counter n_outputs set_stage scriptpubkey_size scriptpubkey_counter].
    split_and!; [lia..| |lia]. intros _. split; [lia|exact Hrel].
  - eapply at_pos_mono; [done|]. intros sfx Hb. eapply body_mono; [done|].
    intros x (Hfr & o' & t & rest & Ho' & Hd & Hs & -> & Hbefore & Hcur). rewrite Ho in Ho'. injection Ho' as <-.
    split; [done|]. eexists _, t, rest. split; [done|]. split; [done|]. cbn [scriptpubkey_size]. split; [auto|].
    split; [by rw /out_part /= drop_0|]. split; [done|]. intros Hi. destruct (Hcur Hi) as (Hv & Hl & _).
    split_and!; [intros _; by apply Hv|intros _; by apply Hl|done|lia].
Qed.

(** The outputs after a chunk has been copied, and the state of the loop. *)
Definition copy_chunk (c : Z) (d : list Z) (p : txid_parser_outputs) : txid_parser_outputs :=
  let arr := vout_scriptpubkey p in
  mk_outputs (vout_value p) (vout_scriptpubkey_len p)
    (take (Z.to_nat c) arr ++ d ++ drop (Z.to_nat c + length d) arr) (txid p).
Definition chunk_outputs (st : parse_rawtx_state) (o : output_stage) (d : list Z) : txid_parser_outputs :=
  if is_relevant st o then copy_chunk (scriptpubkey_counter o) d (parser_outputs st) else parser_outputs st.
Definition after_chunk (st : parse_rawtx_state) (o : output_stage) (d : list Z) : parse_rawtx_state :=
  set_stage (set_outputs (set_hash st (hash_context st ++ d)) (chunk_outputs st o d))
    (Outputs (mk_output_stage (out_counter o) (out_step o) (scriptpubkey_size o) (scriptpubkey_counter o + zlen d))).

Lemma copy_chunk_zlen c d p :
  0 ≤ c → c + zlen d ≤ zlen (vout_scriptpubkey p) → zlen (vout_scriptpubkey (copy_chunk c d p)) = zlen (vout_scriptpubkey p).
Proof. intros ??. rw /copy_chunk /= /zlen !length_app length_take length_drop. unfold zlen in *. lia. Qed.

Lemma copy_chunk_take c d p spk :
  0 ≤ c → c + zlen d ≤ zlen (vout_scriptpubkey p) → c + zlen d ≤ zlen spk →
  take (Z.to_nat c) (vout_scriptpubkey p) = take (Z.to_nat c) spk → d = take (Z.to_nat (zlen d)) (drop (Z.to_nat c) spk) →
  take (Z.to_nat (c + zlen d)) (vout_scriptpubkey (copy_chunk c d p)) = take (Z.to_nat (c + zlen d)) spk.
Proof.
  intros Hc Hfit Hspk Htake Hd. rw /copy_chunk /= Htake Z2Nat.inj_add //; [|zlia].
  rw -(take_take_drop spk) -Hd app_assoc. apply take_app_length'. rw length_app length_take zlen_length.
  unfold zlen in *. lia.
Qed.

Lemma scriptpubkey_chunk st o d s' :
  the_stage st = Outputs o → out_wf 3 st → zlen d = Z.min 32 (scriptpubkey_size o - scriptpubkey_counter o) →
  (is_relevant st o = true → vout_scriptpubkey_len (parser_outputs st) ≤ MAX_PREVOUT_SCRIPTPUBKEY_LEN) →
  at_pos (body (out_pos 3 st)) (hash_context st) (d ++ s') → out_inv 3 (after_chunk st o d) s'.
Proof.
  intros Ho (Hc & o' & Ho' & Hcnt & Hlt & Hsz & Hct) Hd Hmax Hpos. rewrite Ho in Ho'. injection Ho' as <-.
  specialize (Hsz ltac:(lia)) as [Hsz Hrel]. specialize (Hct eq_refl). pose proof (zlen_nonneg d).
  assert (is_relevant st o = true →
    scriptpubkey_counter o + zlen d ≤ zlen (vout_scriptpubkey (parser_outputs st))) as Hfit.
  { intros Hr. specialize (Hmax Hr). specialize (Hrel Hr). destruct Hc as [[_ ->] _]. lia. }
  split.
  - split.
    + destruct Hc as [[? Hz] ?]. split; [|done]. split; [done|]. rw -Hz /after_chunk /= /chunk_outputs.
      case_match; [|done]. apply copy_chunk_zlen; [lia|auto].
    + eexists. split; [done|]. cbn [out_counter n_outputs scriptpubkey_size scriptpubkey_counter after_chunk set_stage set_outputs set_hash].
      split_and!; [lia..| |lia]. intros _. split; [lia|].
      intros Hr. change (is_relevant st o = true) in Hr. rw -Hrel // /= /chunk_outputs Hr. done.
  - apply (at_pos_body_read (zlen d) _ _ _ _ _ Hpos); [|done].
    intros x (Hfr & o' & t & rest & Ho' & Hdr & Hs & -> & Hbefore & Hcur). rewrite Ho in Ho'. injection Ho' as <-.
    specialize (Hs ltac:(lia)). pose proof (relevant_idx st o (proj1 (proj1 Hc)) (proj2 Hcnt) Hfr) as Hidx.
    set (spk := drop (Z.to_nat (scriptpubkey_counter o)) (script_pubkey t)).
    exists (take (Z.to_nat (zlen d)) spk), (drop (Z.to_nat (zlen d)) spk ++ concat (ser_txout <$> rest)).
    split; [by rw app_assoc take_drop|]. split; [apply zlen_take; rw /spk zlen_drop; lia|]. intros He.
    split; [done|]. eexists _, t, rest. split; [done|]. split; [done|]. split; [done|].
    cbn [out_counter parser_outputs after_chunk set_stage set_outputs]. split_and!.
    + rw /spk drop_drop. f_equal. rw /out_part /=. f_equal. lia.
    + intros u Hu Hu'. rw /chunk_outputs Hidx bool_decide_eq_false_2; [|lia]. by apply Hbefore.
    + intros Hi. rewrite Hi bool_decide_eq_true_2 // in Hidx. rw /chunk_outputs Hidx. destruct (Hcur Hi) as (Hv & Hl & Ht & _).
      split_and!; [done|done| |lia]. intros _. cbn [scriptpubkey_counter]. apply copy_chunk_take; [lia|auto|lia|auto|done].
Qed.

Lemma scriptpubkey_done st o s :
  the_stage st = Outputs o → scriptpubkey_counter o = scriptpubkey_size o → out_inv 3 st s → out_inv 4 st s.
Proof.
  intros Ho Heq [(Hc & o' & Ho' & Hcnt & Hlt & _) Hpos]. rewrite Ho in Ho'. injection Ho' as <-. split.
  - split; [done|]. exists o. split_and!; [done|lia..].
  - eapply at_pos_mono; [done|]. intros sfx Hb. eapply body_mono; [done|].
    intros x (Hfr & o' & t & rest & Ho' & Hd & Hs & -> & Hbefore & Hcur). rewrite Ho in Ho'. injection Ho' as <-.
    specialize (Hs ltac:(lia)). split; [done|]. exists o, t, rest. split_and!; [done|done|lia| |done|].
    + by rw /out_part Heq Hs zlen_length drop_all.
    + intros Hi. destruct (Hcur Hi) as (Hv & Hl & Ht & _). split_and!; [intros; apply Hv; lia|intros; apply Hl; lia|lia|].
      intros _. specialize (Ht eq_refl). rewrite Heq Hs zlen_length in Ht. by rw Ht firstn_all.
Qed.

(** An oversized script of the requested output contradicts the transaction. *)
Lemma scriptpubkey_oversized st o d s' :
  the_stage st = Outputs o → out_wf 3 st → is_relevant st o = true →
  MAX_PREVOUT_SCRIPTPUBKEY_LEN < vout_scriptpubkey_len (parser_outputs st) →
  at_pos (body (out_pos 3 st)) (hash_context st) (d ++ s') → out_inv 4 (set_hash st (hash_context st ++ d)) s'.
Proof.
  intros Ho (Hc & o' & Ho' & Hcnt & Hlt & _) Hrel Hmax Hpos. rewrite Ho in Ho'. injection Ho' as <-. split.
  - split; [done|]. exists o. cbn [out_counter n_outputs set_hash]. split_and!; [done|lia..].
  - eapply at_pos_absurd; [done| |done].
    intros sfx (x & (Hfr & o' & t & rest & Ho' & Hdr & Hs & _ & _ & Hcur) & _). rewrite Ho in Ho'. injection Ho' as <-.
    rewrite (relevant_idx st o (proj1 (proj1 Hc)) (proj2 Hcnt) Hfr) in Hrel. apply bool_decide_eq_true_1 in Hrel.
    destruct (Hcur Hrel) as (_ & Hl & _). specialize (Hl ltac:(lia)).
    pose proof (drop_txout _ _ _ Hdr) as [_ Ht]. rewrite Hrel in Ht. specialize (Hsmall t Ht). lia.
Qed.

Lemma scriptpubkey_waiting st o bs fut :
  the_stage st = Outputs o → out_inv 3 st (drest bs ++ fut) →
  (scriptpubkey_size o - scriptpubkey_counter o < 2 ^ 31 →
     zlen (drest bs) < Z.min 32 (scriptpubkey_size o - scriptpubkey_counter o)) →
  waiting bs fut.
Proof.
  intros Ho [(Hc & o' & Ho' & Hcnt & Hlt & Hsz & Hct) Hpos] Hshort HV.
  rewrite Ho in Ho'. injection Ho' as <-. specialize (Hct eq_refl).
  destruct (at_pos_valid _ _ _ Hpos HV) as (sfx & x & (Hfr & o' & t & rest & Ho' & Hd & Hs & -> & _) & _ & Hraw).
  rewrite Ho in Ho'. injection Ho' as <-. specialize (Hs ltac:(lia)). specialize (Hraw HV).
  pose proof (drop_txout _ _ _ Hd) as [[_ Hspk] _]. specialize (Hshort ltac:(lia)).
  split; [lia|]. intros ->. rewrite app_nil_r in Hraw. rewrite Hraw /out_part !zlen_app zlen_drop in Hshort; [|lia].
  zlen_facts. lia.
Qed.

Lemma scriptpubkey_loop_spec fuel fut st bs :
  wf_dbuffer bs → zlen (drest bs) < 2 ^ 31 → zlen (drest bs) < Z.of_nat fuel → out_inv 3 st (drest bs ++ fut) →
  ∃ r st' bs', scriptpubkey_loop fuel st bs = Val (r, st', bs') ∧
    step_post (out_inv 3) (out_inv 4) (out_inv 4) fut bs r st' bs'.
Proof.
  revert st bs. induction fuel as [|fuel IH]; intros st bs Hbs Hlen Hfuel Hinv; [zlia|].
  pose proof Hinv as [Hwf Hpos]. pose proof Hwf as (Hc & o & Ho & Hcnt & Hlt & Hsz & Hct).
  specialize (Hsz ltac:(lia)) as [Hsz Hrel]. specialize (Hct eq_refl). cbn [scriptpubkey_loop]. rw Ho. cbv beta iota zeta.
  destruct (read_chunk_cases bs (scriptpubkey_size o) (scriptpubkey_counter o) Hbs Hlen)
    as [[-> Hshort]|(d & bs' & -> & -> & Hd & Heq & Hrd)]; [lia..| |]; rw outcome_ret_bind.
  { eexists _, _, _. split; [done|]. split; [by apply read_from_refl|]. right. left.
    split_and!; [done..|]. by eapply scriptpubkey_waiting. }
  rw crypto_hash_update_spec // outcome_ret_bind -Hd u32_small; [|zlia]. rewrite Heq -app_assoc in Hpos.
  change (is_relevant (set_hash st _) o) with (is_relevant st o). cbn [parser_outputs set_hash].
  destruct (is_relevant st o && (MAX_PREVOUT_SCRIPTPUBKEY_LEN <? vout_scriptpubkey_len (parser_outputs st))) eqn:Hmax.
  { apply andb_true_iff in Hmax as [Hr Hmax%Z.ltb_lt]. eexists _, _, _. split; [done|]. split; [done|].
    right. right. split; [done|]. by eapply scriptpubkey_oversized. }
  assert (is_relevant st o = true → vout_scriptpubkey_len (parser_outputs st) ≤ MAX_PREVOUT_SCRIPTPUBKEY_LEN) as Hle.
  { intros Hr. rewrite Hr in Hmax. by apply Z.ltb_ge in Hmax. }
  match goal with |- context [mbind _ ?m] => assert (m = Val (set_outputs (set_hash st (hash_context st ++ d)) (chunk_outputs st o d))) as -> end.
  { rw /chunk_outputs. case_match eqn:Hr; [|by destruct st]. rw loads_in_range; [|zlia..]. rw outcome_ret_bind.
    rw /= drop_0 zlen_length firstn_all stores_in_range; [done|lia|].
    specialize (Hle eq_refl). specialize (Hrel eq_refl). destruct Hc as [[_ ->] _]. lia. }
  rw outcome_ret_bind. change (set_stage _ _) with (after_chunk st o d).
  assert (out_inv 3 (after_chunk st o d) (drest bs' ++ fut)) as Hinv1 by (by eapply scriptpubkey_chunk).
  pose proof (read_from_le _ _ Hrd). rewrite Heq zlen_app in Hfuel. pose proof (zlen_nonneg (drest bs')).
  destruct (Z.eqb_spec (scriptpubkey_counter o + zlen d) (scriptpubkey_size o)) as [Hdone|Hmore].
  - eexists _, _, _. split; [done|]. split; [done|]. left. split; [done|]. by eapply scriptpubkey_done.
  - destruct (IH (after_chunk st o d) bs') as (r & st' & bs2 & Hr & Hrd2 & Hpost); [apply Hrd|lia|lia|done|].
    eexists _, _, _. split; [done|]. split; [by eapply read_from_trans|done].
Qed.

Lemma output_steps_spec j f :
  parse_rawtxoutput_steps !! j = Some f → step_spec f (out_inv (Z.of_nat j)) (out_inv (Z.of_nat j + 1)) (out_inv 4).
Proof.
  intros Hj. destruct j as [|[|[|[|j]]]]; [injection Hj as <-..|done].
  - apply output_value_spec.
  - apply scriptpubkey_size_spec.
  - apply scriptpubkey_init_spec.
  - intros fut st bs Hbs Hlen Hinv. apply scriptpubkey_loop_spec; [done..| |done]. rw bytes_fuel_ge //. lia.
Qed.

(** The state after the outputs, and in the loop over them. *)
Definition outputs_recorded (p : txid_parser_outputs) : Prop :=
  ∀ u, tx_outs TX !! Z.to_nat idx = Some u → recorded p u.
Definition outs_done_inv : assn := inv counted (λ st, body (λ x, frame st ∧ x = [] ∧ outputs_recorded (parser_outputs st))).

Definition outputs_inv : assn := λ st s, ∃ o, the_stage st = Outputs o ∧ 0 ≤ out_step o < 4 ∧
  (out_counter o < n_outputs st → out_inv (out_step o) st s) ∧ (n_outputs st ≤ out_counter o → outs_done_inv st s).

Lemma out_restage k s st o strm :
  the_stage st = Outputs o → out_inv s st strm →
  out_inv s (set_stage st (Outputs (mk_output_stage (out_counter o) k (scriptpubkey_size o) (scriptpubkey_counter o)))) strm.
Proof.
  intros Ho [(Hc & o' & Ho' & Hwf) Hpos]. rewrite Ho in Ho'. injection Ho' as <-. split.
  - split; [done|]. by eexists.
  - eapply at_pos_mono; [done|]. intros sfx Hb. eapply body_mono; [done|].
    intros x (Hfr & o' & t & rest & Ho' & Hd & Hs & -> & Hrec & Hcur). rewrite Ho in Ho'. injection Ho' as <-.
    split; [done|]. eexists _, t, rest. by split_and!.
Qed.

Lemma out_next st o strm :
  the_stage st = Outputs o → out_inv 4 st strm →
  outputs_inv (set_stage st
    (Outputs (mk_output_stage (u32 (out_counter o + 1)) 0 (scriptpubkey_size o) (scriptpubkey_counter o)))) strm.
Proof.
  intros Ho [(Hc & o' & Ho' & Hcnt & Hlt & _) Hpos]. rewrite Ho in Ho'. injection Ho' as <-.
  rw u32_small; [|lia]. eexists. split; [done|]. cbn [out_step out_counter n_outputs set_stage]. split; [lia|].
  assert (∀ x, out_pos 4 st x → out_frame st ∧ ∃ rest, drop (Z.to_nat (out_counter o + 1)) (tx_outs TX) = rest ∧
    x = concat (ser_txout <$> rest) ∧ Z.of_nat (length rest) = n_outputs st - (out_counter o + 1) ∧
    recorded_before (out_counter o + 1) (parser_outputs st)) as Hx.
  { intros x (Hfr & o' & t & rest & Ho' & Hd & _ & -> & Hbefore & Hcur). rewrite Ho in Ho'. injection Ho' as <-.
    split; [done|]. exists rest. pose proof (f_equal length Hd) as Hl. rewrite length_drop /= in Hl.
    pose proof Hfr as [_ Hn]. split_and!; [|done|lia|].
    - rw Z2Nat.inj_add; [|lia..]. by rw -drop_drop Hd.
    - intros u Hu Hle. destruct (decide (idx < out_counter o)); [by apply Hbefore|].
      assert (out_counter o = idx) as Hi by lia. pose proof (drop_txout _ _ _ Hd) as [_ Ht]. rewrite Hi Hu in Ht.
      injection Ht as ->. destruct (Hcur Hi) as (Hv & Hlen & _ & Hs).
      split_and!; [apply Hv; lia|apply Hlen; lia|by apply Hs]. }
  split; intros Hcmp; (split; [|eapply at_pos_mono; [done|]; intros sfx Hb; eapply body_mono; [done|];
    intros x Hpx; destruct (Hx _ Hpx) as (Hfr & rest & Hd & -> & Hl & Hrec)]).
  - split; [done|]. eexists. split; [done|]. cbn [out_counter n_outputs set_stage]. split_and!; lia.
  - destruct rest as [|t rest]; [simpl in Hl; lia|]. split; [done|]. eexists _, t, rest.
    split_and!; [done..|lia|done|done|]. intros _. split_and!; lia.
  - done.
  - destruct rest as [|t rest]; [|simpl in Hl; lia]. split; [apply Hfr|]. split; [done|].
    intros u Hu. apply Hrec; [done|]. apply lookup_lt_Some in Hu. destruct Hfr as [_ Hn].
    pose proof (u32_range oi). unfold idx in *. lia.
Qed.

Lemma output_value_consumes : consumes parse_rawtxoutput_value.
Proof.
  intros st bs r st' bs' Hbs. rw /parse_rawtxoutput_value.
  destruct (read_bytes_cases bs 8 Hbs) as [[_ ->]|(d & bs2 & -> & Hd & _ & -> & _)]; [lia|..]; rw outcome_ret_bind.
  - by intros [= <- _ _].
  - intros H0. inv_bind H0. inv_bind H0. case_match; try done. injection H0 as _ _ <-. rw zlen_app. lia.
Qed.

Lemma outputs_loop_spec E fuel fut st bs o :
  wf_dbuffer bs → zlen (drest bs) < 2 ^ 31 → the_stage st = Outputs o →
  zlen (drest bs) + (if out_step o =? 0 then 0 else 1) < Z.of_nat fuel → outputs_inv st (drest bs ++ fut) →
  ∃ r st' bs', outputs_loop fuel st bs = Val (r, st', bs') ∧ step_post outputs_inv outs_done_inv E fut bs r st' bs'.
Proof.
  revert st bs o. induction fuel as [|fuel IH]; intros st bs o Hbs Hlen Ho Hfuel Hinv.
  { pose proof (zlen_nonneg (drest bs)). revert Hfuel. case_match; lia. }
  destruct Hinv as (o' & Ho' & Hstep & Hin & Hout). rewrite Ho in Ho'. injection Ho' as <-.
  cbn [outputs_loop]. rw Ho. destruct (Z.ltb_spec (out_counter o) (n_outputs st)) as [Hlt|Hge]; last first.
  { eexists _, _, _. split; [done|]. split; [by apply read_from_refl|]. left. auto. }
  assert (∃ r ctx bs', parser_run parse_rawtxoutput_steps (mk_parser_context (out_step o) st) bs = Val (r, ctx, bs') ∧
    run_post out_inv 4 (out_inv 4) fut bs r ctx bs' ∧
    (r ≠ 0 → zlen (drest bs') < zlen (drest bs) + (if out_step o =? 0 then 0 else 1))) as
    (r & ctx & bs' & -> & [Hrd Hpost] & Hprog).
  { destruct (Z.eqb_spec (out_step o) 0) as [H0|H0].
    - rewrite H0 in Hin |- *.
      destruct (run_progress out_inv (out_inv 4) parse_rawtxoutput_value (tail parse_rawtxoutput_steps) fut st bs)
        as (r & ctx & bs' & ? & ? & ?); [apply output_steps_spec|apply output_value_consumes|auto..|].
      exists r, ctx, bs'. rw Z.add_0_r. auto.
    - destruct (run_spec out_inv (out_inv 4) parse_rawtxoutput_steps (out_step o) fut st bs)
        as (r & ctx & bs' & Hr & Hpost); [simpl; lia|apply output_steps_spec|auto..|].
      exists r, ctx, bs'. split_and!; [done..|]. pose proof (read_from_le _ _ (proj1 Hpost)). lia. }
  rw outcome_ret_bind.
  assert ((r = 1 ∨ r = -1) ∧ out_inv 4 (pstate ctx) (drest bs' ++ fut) ∨
    r = 0 ∧ 0 ≤ cur_step ctx < 4 ∧ out_inv (cur_step ctx) (pstate ctx) (drest bs' ++ fut) ∧ waiting bs' fut)
    as [[Hr1 Hdone]|(-> & Hcur & Hwait & Hw)] by tauto; clear Hpost.
  - pose proof Hdone as [(_ & o2 & Ho2 & _) _]. cbv zeta. rw Ho2.
    assert (to_bool r = 1) as -> by (by destruct Hr1 as [-> | ->]). cbn [Z.eqb Pos.eqb negb].
    pose proof (read_from_le _ _ Hrd). pose proof (out_next _ _ _ Ho2 Hdone) as Hnext. set (st1 := set_stage _ _) in *.
    destruct (IH st1 bs' _ (proj1 Hrd) ltac:(lia) eq_refl) as (r' & st' & bs2 & Hr & Hrd2 & Hpost); [|done|].
    { cbn [out_step Z.eqb]. specialize (Hprog ltac:(lia)). lia. }
    eexists _, _, _. split; [exact Hr|]. split; [by eapply read_from_trans|done].
  - assert (∃ o2, the_stage (pstate ctx) = Outputs o2 ∧ out_counter o2 < n_outputs (pstate ctx)) as (o2 & Ho2 & Hc2).
    { destruct Hwait as [(_ & o2 & Ho2 & ? & _) _]. exists o2. split; [done|lia]. }
    cbv zeta. rw Ho2. cbn [to_bool Z.eqb negb]. eexists _, _, _. split; [done|]. split; [done|]. right. left.
    split; [done|]. split; [|done]. eexists. split; [done|]. cbn [out_step out_counter n_outputs set_stage].
    split; [lia|]. split; [|lia]. intros _. by apply out_restage.
Qed.

(** ** Witnesses

    [K] is what follows in the stream. *)
Lemma wit_bytes_loop_spec fuel fut w bs e K :
  wf_dbuffer bs → zlen (drest bs) < 2 ^ 31 → zlen (drest bs) < Z.of_nat fuel →
  0 ≤ cur_wit_el_bytes_read w ≤ cur_wit_elem_len w → cur_wit_elem_len w < 2 ^ 32 →
  (V → cur_wit_elem_len w = zlen e ∧ zlen e < 2 ^ 31 ∧
       drest bs ++ fut = drop (Z.to_nat (cur_wit_el_bytes_read w)) e ++ K) →
  ∃ ok n bs', wit_bytes_loop fuel w bs = Val (ok, set_bytes_read w n, bs') ∧ read_from bs bs' ∧
    0 ≤ n ≤ cur_wit_elem_len w ∧ (ok = true → n = cur_wit_elem_len w) ∧
    (V → drest bs' ++ fut = drop (Z.to_nat n) e ++ K) ∧ (ok = false → waiting bs' fut).
Proof.
  revert w bs. induction fuel as [|fuel IH]; intros w bs Hbs Hlen Hfuel Hn Hl HV; [zlia|]. cbn [wit_bytes_loop].
  destruct (Z.ltb_spec (cur_wit_el_bytes_read w) (cur_wit_elem_len w)) as [Hlt|Hge]; last first.
  { exists true, (cur_wit_el_bytes_read w), bs. split; [by destruct w|]. split_and!; [by apply read_from_refl|lia..| |done].
    intros v. by apply HV. }
  cbv zeta. destruct (read_chunk_cases bs (cur_wit_elem_len w) (cur_wit_el_bytes_read w) Hbs Hlen)
    as [[-> Hshort]|(d & bs' & -> & -> & Hd & Heq & Hrd)]; [lia..| |]; rw outcome_ret_bind.
  { exists false, (cur_wit_el_bytes_read w), bs. split; [by destruct w|]. split_and!; [by apply read_from_refl|lia..|done|by apply HV|].
    intros _ v. destruct (HV v) as (He & Hs & Heq). specialize (Hshort ltac:(lia)). split; [lia|]. intros ->.
    rewrite app_nil_r in Heq. rewrite Heq zlen_app zlen_drop in Hshort; [|lia]. zlen_facts. lia. }
  rw -Hd u32_small; [|zlia]. rewrite Heq zlen_app in Hfuel. pose proof (read_from_le _ _ Hrd).
  destruct (IH (set_bytes_read w (cur_wit_el_bytes_read w + zlen d)) bs')
    as (ok & n & bs2 & Hr & Hrd2 & Hn2 & Hok & HV2 & Hw); [apply Hrd|lia|lia|simpl; zlia|done| |].
  { intros v. destruct (HV v) as (He & Hs & Heq2). split_and!; [done..|]. cbn [set_bytes_read cur_wit_el_bytes_read].
    rewrite Heq -app_assoc -(take_drop (Z.to_nat (zlen d)) (drop (Z.to_nat (cur_wit_el_bytes_read w)) e)) -app_assoc in Heq2.
    apply zlen_app_inj in Heq2 as [_ ->]; [|rw zlen_take //; rw zlen_drop; zlia].
    rw drop_drop. do 2 f_equal. zlia. }
  exists ok, n, bs2. split; [done|]. split; [by eapply read_from_trans|]. done.
Qed.

Definition els_wf (w : witness_stage) : Prop :=
  0 ≤ wit_stack_el_counter w ∧ cur_wit_stack_elements w < 2 ^ 32 ∧
  (is_cur_wit_elem_len_read w = true → 0 ≤ cur_wit_el_bytes_read w ≤ cur_wit_elem_len w ∧ cur_wit_elem_len w < 2 ^ 32).

(** The position in the stack [stk]. *)
Definition els_at (stk : list (list Z)) (K : list Z) (w : witness_stage) (s : list Z) : Prop :=
  cur_wit_stack_elements w = Z.of_nat (length stk) ∧
  if is_cur_wit_elem_len_read w
  then ∃ e es, drop (Z.to_nat (wit_stack_el_counter w)) stk = e :: es ∧ cur_wit_elem_len w = zlen e ∧
    s = drop (Z.to_nat (cur_wit_el_bytes_read w)) e ++ concat (ser_string <$> es) ++ K
  else s = concat (ser_string <$> drop (Z.to_nat (wit_stack_el_counter w)) stk) ++ K.

Definition same_witness (w w' : witness_stage) : Prop :=
  wit_counter w' = wit_counter w ∧ is_cur_wit_stack_elements_read w' = is_cur_wit_stack_elements_read w.

Lemma drop_cons_lt {A} (k : Z) (l : list A) : 0 ≤ k < Z.of_nat (length l) → ∃ x r, drop (Z.to_nat k) l = x :: r.
Proof.
  intros Hk. destruct (drop (Z.to_nat k) l) as [|x r] eqn:Hd; [|by eexists _, _].
  apply (f_equal length) in Hd. rewrite length_drop /= in Hd. lia.
Qed.

Lemma varint_waiting bs fut v K :
  varint_dec (drest bs) = None → 0 ≤ v < 2 ^ 64 → drest bs ++ fut = varint_enc v ++ K →
  zlen (drest bs) < 32 ∧ fut ≠ [].
Proof.
  intros Hd Hv Heq. split; [apply varint_dec_None in Hd; lia|]. intros ->. rewrite app_nil_r in Heq.
  by rewrite Heq varint_dec_enc in Hd.
Qed.

Lemma read_wit_elem_len_spec fut w bs stk K :
  wf_dbuffer bs → els_wf w → wit_stack_el_counter w < cur_wit_stack_elements w →
  (V → els_at stk K w (drest bs ++ fut) ∧ wf_witness stk) →
  ∃ ok w' bs', read_wit_elem_len w bs = Val (ok, w', bs') ∧ read_from bs bs' ∧ els_wf w' ∧ same_witness w w' ∧
    wit_stack_el_counter w' = wit_stack_el_counter w ∧ cur_wit_stack_elements w' = cur_wit_stack_elements w ∧
    (V → els_at stk K w' (drest bs' ++ fut)) ∧ (ok = false → waiting bs' fut) ∧
    (ok = true → is_cur_wit_elem_len_read w' = true ∧
       zlen (drest bs') + 1 ≤ zlen (drest bs) + (if is_cur_wit_elem_len_read w then 1 else 0)).
Proof.
  intros Hbs Hwf Hlt HV. rw /read_wit_elem_len. destruct (is_cur_wit_elem_len_read w) eqn:Hr.
  { exists true, w, bs. split; [done|]. split; [by apply read_from_refl|]. split_and!; try done. by apply HV. }
  assert (V → ∃ e es, drop (Z.to_nat (wit_stack_el_counter w)) stk = e :: es ∧ 0 ≤ zlen e < 2 ^ 31 ∧
    cur_wit_stack_elements w = Z.of_nat (length stk) ∧
    drest bs ++ fut = varint_enc (zlen e) ++ e ++ concat (ser_string <$> es) ++ K) as HV'.
  { intros v. destruct (HV v) as [[Hn Hs] [_ Hall]]. rewrite Hr in Hs.
    destruct (drop_cons_lt (wit_stack_el_counter w) stk) as (e & es & Hd); [destruct Hwf; lia|].
    exists e, es. rewrite Hd in Hs. split_and!; [done|zlia| |done|by rw Hs /= /ser_string -!app_assoc].
    apply (Forall_drop _ (Z.to_nat (wit_stack_el_counter w))) in Hall. rewrite Hd in Hall. by inversion Hall. }
  destruct (read_varint_cases bs Hbs) as [(_ & Hd & ->)|(v & bs' & -> & Hv & Hd & Hless & Hrd)]; rw outcome_ret_bind.
  - exists false, w, bs. split; [done|]. split; [by apply read_from_refl|]. split_and!; try done. { by apply HV. }
    intros _ v. destruct (HV' v) as (e & es & _ & He & _ & Heq). eapply (varint_waiting _ _ (zlen e)); [done|lia|done].
  - eexists true, _, bs'. split; [done|]. split; [done|]. pose proof (u32_range v) as Hu.
    split; [destruct Hwf as (?&?&_); split_and!; simpl; lia|].
    split; [done|]. split; [done|]. split; [done|]. split; [|split; [done|simpl; lia]]. intros HV2.
    destruct (HV' HV2) as (e & es & Hdr & He & Hn & Heq). apply (varint_dec_app _ _ _ fut) in Hd.
    rewrite Heq varint_dec_enc in Hd; [|lia]. injection Hd as <- <-. split; [done|].
    cbn [is_cur_wit_elem_len_read]. exists e, es. split; [done|]. cbn [cur_wit_elem_len cur_wit_el_bytes_read].
    split; [rw u32_small; lia|done].
Qed.

Lemma wit_elements_loop_spec fuel fut w bs stk K :
  wf_dbuffer bs → zlen (drest bs) < 2 ^ 31 → els_wf w →
  zlen (drest bs) + (if is_cur_wit_elem_len_read w then 1 else 0) < Z.of_nat fuel →
  (V → els_at stk K w (drest bs ++ fut) ∧ wf_witness stk) →
  (is_cur_wit_elem_len_read w = true → wit_stack_el_counter w < cur_wit_stack_elements w) →
  ∃ ok w' bs', wit_elements_loop fuel w bs = Val (ok, w', bs') ∧ read_from bs bs' ∧ els_wf w' ∧ same_witness w w' ∧
    (ok = true → V → drest bs' ++ fut = K) ∧
    (ok = false → waiting bs' fut ∧ (V → els_at stk K w' (drest bs' ++ fut)) ∧ wit_stack_el_counter w' < cur_wit_stack_elements w').
Proof.
  revert w bs. induction fuel as [|fuel IH]; intros w bs Hbs Hlen Hwf Hfuel HV Hmid.
  { pose proof (zlen_nonneg (drest bs)). revert Hfuel. case_match; lia. }
  cbn [wit_elements_loop]. destruct (Z.ltb_spec (wit_stack_el_counter w) (cur_wit_stack_elements w)) as [Hlt|Hge]; last first.
  { exists true, w, bs. split_and!; try done. { by apply read_from_refl. } intros _ v. destruct (HV v) as [[Hn Hs] _].
    case_match; [specialize (Hmid eq_refl); lia|]. rw Hs drop_ge //. lia. }
  destruct (read_wit_elem_len_spec fut w bs stk K Hbs Hwf Hlt HV)
    as ([] & w1 & bs1 & -> & Hrd1 & Hwf1 & Hsame1 & Hc1 & Hn1 & HV1 & Hw1 & Hok1); rw outcome_ret_bind; cbn [negb]; last first.
  { exists false, w1, bs1. split_and!; try done. intros _. split_and!; [by apply Hw1|done|lia]. }
  specialize (Hok1 eq_refl) as [Hr1 Hl1]. pose proof (read_from_le _ _ Hrd1).
  pose proof Hwf1 as (Hc0 & Hn0 & Hb). specialize (Hb Hr1) as [Hb Hb'].
  destruct (wit_bytes_loop_spec (bytes_fuel bs1) fut w1 bs1 (default [] (head (drop (Z.to_nat (wit_stack_el_counter w1)) stk)))
    (concat (ser_string <$> tail (drop (Z.to_nat (wit_stack_el_counter w1)) stk)) ++ K))
    as (ok & n & bs2 & -> & Hrd2 & Hn2 & Hokn & HV2 & Hw2); [apply Hrd1|lia|rw bytes_fuel_ge; [lia|apply Hrd1]|done..| |].
  { intros v. destruct (HV1 v) as [_ Hat]. destruct (HV v) as [_ [_ Hall]]. rewrite Hr1 in Hat.
    destruct Hat as (e & es & Hd & He & Heq). rw Hd /=. split_and!; [done| |done].
    apply (Forall_drop _ (Z.to_nat (wit_stack_el_counter w1))) in Hall. rewrite Hd in Hall. by inversion Hall. }
  rw outcome_ret_bind. pose proof (read_from_trans _ _ _ Hrd1 Hrd2) as Hrd. pose proof (read_from_le _ _ Hrd2).
  assert (V → ∃ e es, drop (Z.to_nat (wit_stack_el_counter w1)) stk = e :: es ∧ cur_wit_elem_len w1 = zlen e ∧
    cur_wit_stack_elements w1 = Z.of_nat (length stk) ∧
    drest bs2 ++ fut = drop (Z.to_nat n) e ++ concat (ser_string <$> es) ++ K) as HVe.
  { intros v. destruct (HV1 v) as [Hlen1 Hat]. rewrite Hr1 in Hat. destruct Hat as (e & es & Hd & He & _).
    specialize (HV2 v). rewrite Hd in HV2. eauto 10. }
  destruct ok; cbn [negb]; last first.
  { exists false, (set_bytes_read w1 n), bs2. split_and!; try done.
    intros _. split_and!; [by apply Hw2| |simpl; lia]. intros v. destruct (HVe v) as (e & es & Hd & He & Hs & Heq).
    split; [done|]. cbn [is_cur_wit_elem_len_read set_bytes_read]. rw Hr1. by exists e, es. }
  specialize (Hokn eq_refl) as ->.
  destruct (IH (next_wit_elem (set_bytes_read w1 (cur_wit_elem_len w1))) bs2) as (ok & w2 & bs3 & Hr & Hrd3 & Hpost);
    [apply Hrd2|lia|split_and!; simpl; [rw u32_small; lia|lia|done]|simpl; lia| |done|].
  { intros v. split; [|by apply HV]. destruct (HVe v) as (e & es & Hd & He & Hs & Heq). split; [done|]. cbn.
    rw Heq He zlen_length drop_all u32_small; [|lia]. rw Z2Nat.inj_add; [|lia..]. by rw -drop_drop Hd. }
  exists ok, w2, bs3. split; [done|]. split; [by eapply read_from_trans|]. destruct Hsame1, Hpost as (? & [??] & ?).
  split; [done|]. split; [split; simpl in *; congruence|done].
Qed.

Definition wits_wf (n : Z) (w : witness_stage) : Prop :=
  0 ≤ wit_counter w < 2 ^ 32 ∧
  (is_cur_wit_stack_elements_read w = true → wit_counter w < n ∧ els_wf w ∧
     (is_cur_wit_elem_len_read w = true → wit_stack_el_counter w < cur_wit_stack_elements w)).

Definition wits_at (w : witness_stage) (s : list Z) : Prop :=
  ∃ ws, witnesses TX = Some ws ∧
  if is_cur_wit_stack_elements_read w
  then ∃ stk rest, drop (Z.to_nat (wit_counter w)) ws = stk :: rest ∧ els_at stk (ser_witnesses rest ++ locktime TX) w s
  else s = ser_witnesses (drop (Z.to_nat (wit_counter w)) ws) ++ locktime TX.

Lemma drop_witness ws k stk rest : witnesses TX = Some ws → drop k ws = stk :: rest → wf_witness stk.
Proof.
  intros Hws Hd. destruct (wf_witnesses _ HTX ws Hws) as [_ Hall]. apply (Forall_drop _ k) in Hall.
  rewrite Hd in Hall. by inversion Hall.
Qed.

Lemma read_wit_stack_elements_spec n fut w bs :
  wf_dbuffer bs → wits_wf n w → wit_counter w < n →
  (V → wits_at w (drest bs ++ fut) ∧ n = Z.of_nat (length (tx_ins TX))) →
  ∃ ok w' bs', read_wit_stack_elements w bs = Val (ok, w', bs') ∧ read_from bs bs' ∧ wits_wf n w' ∧
    wit_counter w' = wit_counter w ∧ (V → wits_at w' (drest bs' ++ fut)) ∧ (ok = false → waiting bs' fut) ∧
    (ok = true → is_cur_wit_stack_elements_read w' = true ∧
       zlen (drest bs') + 1 ≤ zlen (drest bs) + (if is_cur_wit_stack_elements_read w then 1 else 0)).
Proof.
  intros Hbs Hwf Hlt HV. rw /read_wit_stack_elements. destruct (is_cur_wit_stack_elements_read w) eqn:Hr.
  { exists true, w, bs. split; [done|]. split; [by apply read_from_refl|]. split_and!; try done. by apply HV. }
  pose proof Hwf as [Hc _].
  assert (V → ∃ ws stk rest, witnesses TX = Some ws ∧ drop (Z.to_nat (wit_counter w)) ws = stk :: rest ∧ wf_witness stk ∧
    drest bs ++ fut = varint_enc (Z.of_nat (length stk)) ++ concat (ser_string <$> stk) ++ ser_witnesses rest ++ locktime TX) as HV'.
  { intros v. destruct (HV v) as [(ws & Hws & Hs) Hn]. rewrite Hr in Hs. destruct (wf_witnesses _ HTX ws Hws) as [Hl _].
    destruct (drop_cons_lt (wit_counter w) ws) as (stk & rest & Hd); [lia|]. exists ws, stk, rest. rewrite Hd in Hs.
    split; [done|]. split; [done|]. split; [by eapply drop_witness|]. by rw Hs /ser_witnesses /= {1}/ser_vector -!app_assoc. }
  destruct (read_varint_cases bs Hbs) as [(_ & Hd & ->)|(v & bs' & -> & Hv & Hd & Hless & Hrd)]; rw outcome_ret_bind.
  - exists false, w, bs. split; [done|]. split; [by apply read_from_refl|]. split_and!; try done. { by apply HV. }
    intros _ v. destruct (HV' v) as (ws & stk & rest & _ & _ & [Hl _] & Heq).
    eapply (varint_waiting _ _ (Z.of_nat (length stk))); [done|lia|done].
  - eexists true, _, bs'. split; [done|]. split; [done|]. pose proof (u32_range v) as Hu. split.
    { split; [done|]. intros _. split; [done|]. split; [split_and!; simpl; [lia..|done]|done]. }
    split; [done|]. split; [|split; [done|simpl; lia]]. intros HV2.
    destruct (HV' HV2) as (ws & stk & rest & Hws & Hdr & [Hl _] & Heq). apply (varint_dec_app _ _ _ fut) in Hd.
    rewrite Heq varint_dec_enc in Hd; [|lia]. injection Hd as <- <-. exists ws. split; [done|].
    cbn [is_cur_wit_stack_elements_read wit_counter]. exists stk, rest. split; [done|].
    split; [simpl; rw u32_small; lia|]. cbn [is_cur_wit_elem_len_read wit_stack_el_counter]. by rw /= drop_0.
Qed.

Lemma witnesses_loop_spec fuel n fut w bs :
  wf_dbuffer bs → zlen (drest bs) < 2 ^ 31 → wits_wf n w → n < 2 ^ 32 →
  zlen (drest bs) + (if is_cur_wit_stack_elements_read w then 1 else 0) < Z.of_nat fuel →
  (V → wits_at w (drest bs ++ fut) ∧ n = Z.of_nat (length (tx_ins TX))) →
  ∃ ok w' bs', witnesses_loop fuel n w bs = Val (ok, w', bs') ∧ read_from bs bs' ∧ wits_wf n w' ∧
    (ok = true → V → drest bs' ++ fut = locktime TX) ∧
    (ok = false → waiting bs' fut ∧ (V → wits_at w' (drest bs' ++ fut))).
Proof.
  intros Hbs Hlen Hwf Hn Hfuel HV. revert w bs Hbs Hlen Hwf Hfuel HV.
  induction fuel as [|fuel IH]; intros w bs Hbs Hlen Hwf Hfuel HV.
  { pose proof (zlen_nonneg (drest bs)). revert Hfuel. case_match; lia. }
  cbn [witnesses_loop]. pose proof Hwf as [Hc Hmid]. destruct (Z.ltb_spec (wit_counter w) n) as [Hlt|Hge]; last first.
  { exists true, w, bs. split_and!; try done. { by apply read_from_refl. } intros _ v.
    destruct (HV v) as [(ws & Hws & Hs) Hn']. case_match; [destruct (Hmid eq_refl); lia|].
    rw Hs drop_ge //. destruct (wf_witnesses _ HTX ws Hws). lia. }
  destruct (read_wit_stack_elements_spec n fut w bs Hbs Hwf Hlt HV)
    as ([] & w1 & bs1 & -> & Hrd1 & Hwf1 & Hc1 & HV1 & Hw1 & Hok1); rw outcome_ret_bind; cbn [negb]; last first.
  { exists false, w1, bs1. split_and!; try done. intros _. split; [by apply Hw1|done]. }
  specialize (Hok1 eq_refl) as [Hr1 Hl1]. pose proof (read_from_le _ _ Hrd1). destruct Hwf1 as [Hc1' Hmid1].
  specialize (Hmid1 Hr1) as (_ & Hels & Hmid1).
  set (ws := default [] (witnesses TX)). set (cur := drop (Z.to_nat (wit_counter w1)) ws).
  assert (V → witnesses TX = Some ws ∧ ∃ stk rest, cur = stk :: rest ∧ wf_witness stk ∧
    els_at stk (ser_witnesses rest ++ locktime TX) w1 (drest bs1 ++ fut)) as HV2.
  { intros v. destruct (HV1 v) as (ws' & Hws & Hat). rewrite Hr1 in Hat. destruct Hat as (stk & rest & Hd & Hat).
    rw /cur /ws Hws /=. split; [done|]. exists stk, rest.
    split; [done|]. split; [by eapply drop_witness|done]. }
  destruct (wit_elements_loop_spec (bytes_fuel bs1) fut w1 bs1 (default [] (head cur)) (ser_witnesses (tail cur) ++ locktime TX))
    as (ok & w2 & bs2 & -> & Hrd2 & Hels2 & [Hc2 Hs2] & Hdone & Hwait); [apply Hrd1|lia|done| | |done|].
  { rw bytes_fuel_ge; [|apply Hrd1]. destruct (is_cur_wit_elem_len_read w1); lia. }
  { intros v. destruct (HV2 v) as (_ & stk & rest & Hcur & Hw & Hat). by rw Hcur. }
  rw outcome_ret_bind. pose proof (read_from_trans _ _ _ Hrd1 Hrd2) as Hrd. pose proof (read_from_le _ _ Hrd2).
  destruct ok; cbn [negb]; last first.
  { specialize (Hwait eq_refl) as (Hw & Hat & Hlt2). exists false, w2, bs2. split; [done|]. split; [done|].
    split; [split; [lia|]; intros _; split_and!; [lia|apply Hels2..|done]|]. split; [done|]. intros _. split; [done|].
    intros v. specialize (Hat v). destruct (HV2 v) as (Hws & stk & rest & Hcur & _). exists ws. split; [done|].
    rw Hs2 Hr1 Hc2 -/cur Hcur. exists stk, rest. by rewrite Hcur in Hat. }
  destruct (IH (next_witness w2) bs2) as (ok & w3 & bs3 & Hr & Hrd3 & Hpost); [apply Hrd2|lia| |simpl; lia| |].
  { split; [simpl; rw u32_small; lia|done]. }
  { intros v. split; [|by apply HV]. specialize (Hdone eq_refl v). destruct (HV2 v) as (Hws & stk & rest & Hcur & _).
    exists ws. split; [done|]. cbn. rw Hdone Hcur u32_small; [|lia]. rw Z2Nat.inj_add; [|lia..].
    by rw -drop_drop Hc2 -/cur Hcur. }
  exists ok, w3, bs3. split; [done|]. split; [by eapply read_from_trans|done].
Qed.

(** ** The transaction *)
Definition marker : list Z := match witnesses TX with None => [] | Some _ => [0; 1] end.
Definition segwit_known (st : parse_rawtx_state) : Prop := V → is_segwit st = bool_decide (is_Some (witnesses TX)).
Definition out_counted (st : parse_rawtx_state) : Prop := counted st ∧ 0 ≤ n_outputs st < 2 ^ 32.
Definition wit_wf (st : parse_rawtx_state) : Prop :=
  counted st ∧ ∃ w, the_stage st = Witnesses w ∧ wits_wf (n_inputs st) w.
Definition wit_pos (st : parse_rawtx_state) : rel := λ sfx s,
  sfx = locktime TX ∧ outputs_recorded (parser_outputs st) ∧
  (V → frame st ∧ if is_segwit st then ∃ w, the_stage st = Witnesses w ∧ wits_at w s else s = locktime TX).

Definition main_inv (k : Z) : assn :=
  match k with
  | 0 => inv common (λ _ sfx s, sfx = ser_legacy TX ∧ (V → s = ser_tx TX))
  | 1 => inv common (λ _ sfx s, sfx = ser_body TX ++ locktime TX ∧ (V → s = marker ++ ser_body TX ++ tail_raw))
  | 2 => inv common (λ st, body (λ x, segwit_known st ∧ x = ser_body TX))
  | 3 => inv counted (λ st, body (λ x, frame st ∧ x = concat (ser_txin <$> tx_ins TX) ++ outs_ser))
  | 4 => inputs_inv
  | 5 => out_count_inv
  | 6 => inv out_counted (λ st, body (λ x, out_frame st ∧ x = concat (ser_txout <$> tx_outs TX)))
  | 7 => outputs_inv
  | 8 => outs_done_inv
  | 9 => inv wit_wf wit_pos
  | 10 => inv common (λ st sfx s, sfx = locktime TX ∧ outputs_recorded (parser_outputs st) ∧ (V → s = locktime TX))
  | _ => inv common (λ st sfx s, sfx = [] ∧ outputs_recorded (parser_outputs st) ∧ (V → s = []))
  end.

Lemma version_spec E : step_spec parse_rawtx_version (main_inv 0) (main_inv 1) E.
Proof.
  apply read_and_hash_spec; [lia|done|]. intros st h _ sfx s [-> Hs].
  exists (version TX), (ser_body TX ++ locktime TX). split; [done|]. split; [apply HTX|].
  assert (ser_tx TX = version TX ++ marker ++ ser_body TX ++ tail_raw) as Htx.
  { rw /ser_tx /ser_legacy /marker /tail_raw. by destruct (witnesses TX). }
  rewrite Htx in Hs. split; [eauto|]. intros s' Hs'. split; [done|]. intros HV. specialize (Hs HV).
  rewrite Hs' // in Hs. by apply app_inv_head in Hs.
Qed.

Lemma locktime_spec E : step_spec parse_rawtx_locktime (main_inv 10) (main_inv 11) E.
Proof.
  apply read_and_hash_spec; [lia|done|]. intros st h _ sfx s (-> & Hrec & Hs).
  exists (locktime TX), []. rw app_nil_r. split; [done|]. split; [apply HTX|]. split.
  { intros HV. exists []. rw app_nil_r. auto. }
  intros s' Hs'. split_and!; [done..|]. intros HV. specialize (Hs HV). rewrite Hs' // in Hs.
  apply (app_inv_head (locktime TX)). by rw app_nil_r.
Qed.

Lemma input_count_spec E : step_spec parse_rawtx_input_count (main_inv 2) (main_inv 3) E.
Proof.
  apply read_varint_and_hash_spec.
  - intros st v h Hc Hv. eexists. split; [done|]. split; [done|]. split; [done|]. apply u32_range.
  - intros st Hc. apply body_varint. intros x [Hseg ->]. pose proof (wf_n_ins _ HTX) as Hn.
    exists (Z.of_nat (length (tx_ins TX))), (concat (ser_txin <$> tx_ins TX) ++ outs_ser).
    split; [by rw /ser_body {1}/ser_vector -app_assoc|]. split; [lia|]. intros st' [h [= <-]].
    split; [|done]. split; [simpl; rw u32_small; lia|done].
Qed.

Lemma output_count_spec E : step_spec parse_rawtx_output_count (main_inv 5) (main_inv 6) E.
Proof.
  apply read_varint_and_hash_spec.
  - intros st v h Hc Hv. eexists. split; [done|]. split; [done|]. split; [done|]. apply u32_range.
  - intros st Hc. apply body_varint. intros x [Hfr ->]. pose proof (wf_n_outs _ HTX) as Hn.
    exists (Z.of_nat (length (tx_outs TX))), (concat (ser_txout <$> tx_outs TX)).
    split; [done|]. split; [lia|]. intros st' [h [= <-]]. split; [|done]. split; [done|]. simpl. rw u32_small; lia.
Qed.

(** The steps that read nothing. *)
Lemma silent_spec (f : step) P Q E :
  (∀ st bs, ∃ st', f st bs = Val (1, st', bs) ∧ ∀ s, P st s → Q st' s) → step_spec f P Q E.
Proof.
  intros Hf fut st bs Hbs Hlen HP. destruct (Hf st bs) as (st' & Hst & HQ). eexists _, _, _. split; [done|].
  split; [by apply read_from_refl|]. left. auto.
Qed.

Lemma inputs_init_spec E : step_spec (parse_rawtx_inputs_init uninit) (main_inv 3) (main_inv 4) E.
Proof.
  apply silent_spec. intros st bs. eexists. split; [done|]. intros s [[Hc Hn] Hpos]. eexists. split; [done|].
  cbn [in_step in_counter n_inputs set_stage]. split; [lia|]. split; intros Hlt.
  - split; [split; [done|]; eexists; split; [done|]; cbn [in_counter n_inputs set_stage]; split_and!; lia|].
    eapply at_pos_mono; [done|]. intros sfx Hb. eapply body_mono; [done|]. intros x [Hfr ->].
    split; [done|]. destruct (tx_ins TX) as [|t rest] eqn:Hins; [pose proof (wf_n_ins _ HTX) as Hl; rewrite Hins /= in Hl; lia|].
    eexists _, t, rest. split_and!; [done|by rw ?Hins|lia|by rw /= -app_assoc].
  - split; [done|]. eapply at_pos_mono; [done|]. intros sfx Hb. eapply body_mono; [done|]. intros x [[Hfr _] ->].
    pose proof (wf_n_ins _ HTX). lia.
Qed.

Lemma outputs_init_spec E : step_spec (parse_rawtx_outputs_init uninit) (main_inv 6) (main_inv 7) E.
Proof.
  apply silent_spec. intros st bs. eexists. split; [done|]. intros s [[Hc Hn] Hpos]. eexists. split; [done|].
  cbn [out_step out_counter n_outputs set_stage]. split; [lia|]. split; intros Hlt.
  - split; [split; [done|]; eexists; split; [done|]; cbn [out_counter n_outputs set_stage]; split_and!; lia|].
    eapply at_pos_mono; [done|]. intros sfx Hb. eapply body_mono; [done|]. intros x [Hfr ->].
    split; [done|]. destruct (tx_outs TX) as [|t rest] eqn:Houts; [destruct Hfr as [_ Hl]; rewrite Houts /= in Hl; lia|].
    eexists _, t, rest. split_and!; [done|by rw ?Houts|lia|done|..].
    + intros u _ Hu. pose proof (u32_range oi). unfold idx in Hu. simpl in Hu. lia.
    + intros _. split_and!; lia.
  - split; [done|]. eapply at_pos_mono; [done|]. intros sfx Hb. eapply body_mono; [done|]. intros x [[Hfr Hl] ->].
    assert (tx_outs TX = []) as Hnil by (apply nil_length_inv; lia). split; [done|].
    rw /outputs_recorded Hnil. split; [done|]. intros u. by rw lookup_nil.
Qed.

Lemma witnesses_init_spec E : step_spec (parse_rawtx_witnesses_init uninit) (main_inv 8) (main_inv 9) E.
Proof.
  apply silent_spec. intros st bs. eexists. split; [done|]. intros s [Hc Hpos]. split.
  - split; [done|]. eexists. split; [done|]. split; [simpl; lia|done].
  - eapply at_pos_mono; [done|]. intros sfx (x & (Hfr & -> & Hrec) & -> & Hs). split; [done|]. split; [done|].
    intros HV. split; [done|]. cbn [is_segwit set_stage]. destruct Hfr as [_ Hseg]. rw Hseg // Hs // /tail_raw.
    case_bool_decide as Hw; [|by destruct (witnesses TX); [destruct Hw; eauto|]].
    destruct Hw as [ws Hws]. eexists. split; [done|]. exists ws. split; [done|]. cbn. by rw Hws drop_0.
Qed.

Lemma varint_enc_first n : 0 < n → ∃ b l, varint_enc n = b :: l ∧ b ≠ 0.
Proof. intros Hn. rw /varint_enc. repeat case_match; eexists _, _; (split; [done|]); lia. Qed.

(** In a stream that is the serialization, a first byte 0 is the marker. *)
Lemma marker_first b l :
  b :: l = marker ++ ser_body TX ++ tail_raw →
  (b ≠ 0 ∧ witnesses TX = None) ∨ (b = 0 ∧ is_Some (witnesses TX) ∧ l = 1 :: ser_body TX ++ tail_raw).
Proof.
  rw /marker. destruct (witnesses TX) as [ws|]; [intros [= -> ->]; right; by eauto|]. left.
  destruct (varint_enc_first (Z.of_nat (length (tx_ins TX)))) as (b' & l' & Hv & Hb); [apply HTX|].
  rewrite /ser_body {1}/ser_vector Hv /= in H. by injection H as -> _.
Qed.

Lemma read_u8_head bs v r :
  wf_dbuffer bs → drest bs = v :: r → ∃ bs', dbuffer_read_u8 bs = Val (Some v, bs') ∧ read_from bs bs' ∧ drest bs' = r.
Proof.
  intros Hbs Hr. pose proof (dbuffer_read_u8_implements bs Hbs) as H. revert H. simpl. rw Hr /=.
  intros (bs' & Hrd & Hwf & Hr'). exists bs'. split; [done|]. split; [|done].
  destruct (dbuffer_read_u8_mem _ _ _ Hrd). split_and!; [done..|]. exists [v]. by rw Hr Hr'.
Qed.

Lemma check_segwit_spec : step_spec (parse_rawtx_check_segwit uninit) (main_inv 1) (main_inv 2) (λ _ _, ¬ V).
Proof.
  intros fut st bs Hbs Hlen [Hc Hpos]. rw /parse_rawtx_check_segwit /dbuffer_can_read dbuffer_length //.
  assert (V → drest bs ++ fut = marker ++ ser_body TX ++ tail_raw) as HV.
  { intros HV. destruct (at_pos_valid _ _ _ Hpos HV) as (sfx & _ & Hs). auto. }
  assert (zlen (drest bs) < 2 → waiting bs fut) as Hshort.
  { intros Hl v. split; [lia|]. intros ->. specialize (HV v). rewrite app_nil_r in HV. rewrite HV in Hl.
    unfold tail_raw in Hl. rewrite !zlen_app (wf_locktime _ HTX) in Hl. zlen_facts. lia. }
  destruct (Z.leb_spec 1 (zlen (drest bs))) as [H1|H1]; cbn [negb]; last first.
  { eexists _, _, _. split; [done|]. split; [by apply read_from_refl|]. right. left. split_and!; [done..|]. apply Hshort. lia. }
  rw drest_first //. destruct (drest bs) as [|b l] eqn:Hr; [done|]. change (load (b :: l) 0) with (Val b).
  rw outcome_ret_bind. destruct (Z.eqb_spec b 0) as [->|Hb]; cbn [negb]; last first.
  { eexists _, _, _. split; [done|]. split; [by apply read_from_refl|]. left. split; [done|]. split; [done|].
    rw Hr. eapply at_pos_mono; [done|]. intros sfx [-> Hs]. exists (ser_body TX).
    assert (V → witnesses TX = None) as Hnone.
    { intros v. by destruct (marker_first _ _ (Hs v)) as [[_ ?]|[? _]]. }
    split; [|split; [done|]; intros v; rewrite /marker Hnone // in Hs; auto]. split; [|done].
    intros v. by rw Hnone. }
  destruct (Z.leb_spec 2 (zlen (0 :: l))) as [H2|H2]; cbn [negb]; last first.
  { eexists _, _, _. split; [done|]. split; [by apply read_from_refl|]. right. left. rw Hr. split_and!; [done..|].
    apply Hshort. lia. }
  destruct (read_u8_head bs 0 l Hbs Hr) as (bs1 & -> & Hrd1 & Hr1). rw outcome_ret_bind.
  destruct l as [|flag l]; [by rewrite zlen_cons zlen_nil in H2|].
  destruct (read_u8_head bs1 flag l (proj1 Hrd1) Hr1) as (bs2 & -> & Hrd2 & Hr2). rw outcome_ret_bind.
  change (default uninit (Some flag)) with flag.
  pose proof (read_from_trans _ _ _ Hrd1 Hrd2) as Hrd.
  assert (V → flag = 1 ∧ is_Some (witnesses TX) ∧ drest bs2 ++ fut = ser_body TX ++ tail_raw) as HV'.
  { intros v. destruct (marker_first _ _ (HV v)) as [[? _]|(_ & ? & Heq)]; [done|]. injection Heq as -> <-. by rw Hr2. }
  destruct (Z.eqb_spec flag 1) as [->|Hf]; cbn [negb]; last first.
  { eexists _, _, _. split; [done|]. split; [done|]. right. right. split; [done|]. intros v. by destruct (HV' v). }
  eexists _, _, _. split; [done|]. split; [done|]. left. split; [done|]. split; [done|].
  destruct Hpos as [Hall Hex]. split; [|done]. intros sfx Hsfx. destruct (Hall sfx Hsfx) as [-> _].
  exists (ser_body TX). split; [|split; [done|]; intros v; apply (HV' v)]. split; [|done].
  intros v. destruct (HV' v) as (_ & Hw & _). by rw bool_decide_eq_true_2.
Qed.

Lemma inputs_spec E : step_spec parse_rawtx_inputs (main_inv 4) (main_inv 5) E.
Proof.
  intros fut st bs Hbs Hlen Hinv. pose proof Hinv as (i & Hi & _).
  apply (inputs_loop_spec E (bytes_fuel bs) fut st bs i); [done..| |done]. rw bytes_fuel_ge //. case_match; lia.
Qed.

Lemma outputs_spec E : step_spec parse_rawtx_outputs (main_inv 7) (main_inv 8) E.
Proof.
  intros fut st bs Hbs Hlen Hinv. pose proof Hinv as (o & Ho & _).
  apply (outputs_loop_spec E (bytes_fuel bs) fut st bs o); [done..| |done]. rw bytes_fuel_ge //. case_match; lia.
Qed.

Lemma witnesses_spec E : step_spec parse_rawtx_witnesses (main_inv 9) (main_inv 10) E.
Proof.
  intros fut st bs Hbs Hlen [(Hc & w & Hw & Hwf) Hpos]. rw /parse_rawtx_witnesses.
  destruct (is_segwit st) eqn:Hseg; cbn [negb]; last first.
  { eexists _, _, _. split; [done|]. split; [by apply read_from_refl|]. left. split; [done|]. split; [apply Hc|].
    eapply at_pos_mono; [done|]. intros sfx (-> & Hrec & Hs). split_and!; [done..|]. intros v. rewrite Hseg in Hs. by apply Hs. }
  rw Hw. destruct (witnesses_loop_spec (bytes_fuel bs) (n_inputs st) fut w bs)
    as (ok & w' & bs' & -> & Hrd & Hwf' & Hdone & Hwait); [done..|apply Hc| | |].
  { rw bytes_fuel_ge //. case_match; lia. }
  { intros v. destruct (at_pos_valid _ _ _ Hpos v) as (sfx & _ & _ & Hs). destruct (Hs v) as [[Hn _] Hat].
    rewrite Hseg in Hat. destruct Hat as (w2 & Hw2 & Hat). rewrite Hw in Hw2. by injection Hw2 as <-. }
  rw outcome_ret_bind. destruct Hpos as [Hall Hex]. destruct ok.
  - eexists _, _, _. split; [done|]. split; [done|]. left. split; [done|]. split; [apply Hc|]. split; [|done].
    intros sfx Hsfx. destruct (Hall sfx Hsfx) as (-> & Hrec & _). split_and!; [done..|]. by apply Hdone.
  - eexists _, _, _. split; [done|]. split; [done|]. right. left. destruct (Hwait eq_refl) as [Hw1 Hat].
    split; [done|]. split; [|done]. split; [split; [done|]; by eexists|]. split; [|done].
    intros sfx Hsfx. destruct (Hall sfx Hsfx) as (-> & Hrec & Hs). split; [done|]. split; [done|].
    intros v. split; [by apply Hs|]. cbn [is_segwit set_stage]. rw Hseg. eexists. split; [done|]. auto.
Qed.

Lemma main_steps_spec j f :
  parse_rawtx_steps uninit !! j = Some f → step_spec f (main_inv (Z.of_nat j)) (main_inv (Z.of_nat j + 1)) (λ _ _, ¬ V).
Proof.
  intros Hj. destruct j as [|[|[|[|[|[|[|[|[|[|[|j]]]]]]]]]]]; [injection Hj as <-..|done].
  - apply version_spec. - apply check_segwit_spec. - apply input_count_spec. - apply inputs_init_spec.
  - apply inputs_spec. - apply output_count_spec. - apply outputs_init_spec. - apply outputs_spec.
  - apply witnesses_init_spec. - apply witnesses_spec. - apply locktime_spec.
Qed.

(** ** The stream *)

(** Only a valid stream is described by the invariant. *)
Definition stream_free (P : assn) : Prop := ∀ st s s', (V → s = s') → P st s → P st s'.

Lemma inv_stream_free W (A : parse_rawtx_state → rel) :
  (∀ st sfx s s', (V → s = s') → A st sfx s → A st sfx s') → stream_free (inv W A).
Proof.
  intros HA st s s' Hs [HW [Hall Hex]]. split; [done|]. split; [|done]. intros sfx Hsfx. eapply HA; [done|]. auto.
Qed.

Lemma body_stream_free W (X : parse_rawtx_state → list Z → Prop) : stream_free (inv W (λ st, body (X st))).
Proof.
  apply inv_stream_free. intros st sfx s s' Hs (x & Hx & Hsfx & Hv). exists x. split_and!; [done..|].
  intros v. rw -Hs //. auto.
Qed.

Lemma inputs_stream_free : stream_free inputs_inv.
Proof.
  intros st s s' Hs (i & Hi & Hst & H1 & H2). exists i. split; [done|]. split; [done|].
  split; intros Hc; apply (body_stream_free _ _ st s s' Hs); first [exact (H1 Hc)|exact (H2 Hc)].
Qed.

Lemma outputs_stream_free : stream_free outputs_inv.
Proof.
  intros st s s' Hs (o & Ho & Hst & H1 & H2). exists o. split; [done|]. split; [done|].
  split; intros Hc; apply (body_stream_free _ _ st s s' Hs); first [exact (H1 Hc)|exact (H2 Hc)].
Qed.

Lemma main_inv_stream_free k : 0 ≤ k ≤ 11 → stream_free (main_inv k).
Proof.
  intros Hk. assert (k = 0 ∨ k = 1 ∨ k = 2 ∨ k = 3 ∨ k = 4 ∨ k = 5 ∨ k = 6 ∨ k = 7 ∨ k = 8 ∨ k = 9 ∨ k = 10 ∨ k = 11)
    as Hcases by lia.
  repeat destruct Hcases as [->|Hcases]; try subst k; try apply body_stream_free;
    try apply inputs_stream_free; try apply outputs_stream_free; apply inv_stream_free; intros st sfx s s' Hs.
  1,2: intros [-> Hv]; split; [done|]; intros v; rw -Hs //; auto.
  - intros (-> & Hrec & Hv). split_and!; [done..|]. intros v. rw -Hs //. auto.
  - intros (-> & Hrec & Hv). split_and!; [done..|]. intros v. rw -Hs //. auto.
  - intros (-> & Hrec & Hv). split_and!; [done..|]. intros v. rw -Hs //. auto.
Qed.

Definition wf_store (s : psbt_parse_rawtx_state) : Prop :=
  zlen (store_mem s) = 32 ∧ bytes_ok (store_mem s) ∧ 0 ≤ store_data_length s ≤ 32.

(** The bytes that are left in the store. *)
Definition leftover (s : psbt_parse_rawtx_state) : list Z :=
  if cur_step (parser_context_ s) =? 11 then [] else take (Z.to_nat (store_data_length s)) (store_mem s).

Definition stream_inv (s : psbt_parse_rawtx_state) (fut : list Z) : Prop :=
  wf_store s ∧
  if parser_error s then ¬ V
  else
    let k := cur_step (parser_context_ s) in
    0 ≤ k ≤ 11 ∧ main_inv k (pstate (parser_context_ s)) (leftover s ++ fut) ∧ (k < 11 → V → fut ≠ []).

Lemma store_buf_wf s : wf_store s → wf_buffer (buffer_create (store_mem s) (store_data_length s)).
Proof. intros (? & ? & ?). split_and!; simpl; done || lia. Qed.

Lemma rest_create m n : rest (buffer_create m n) = take (Z.to_nat n) m.
Proof. by rw /rest /buffer_create /slice /= Z.sub_0_r drop_0. Qed.

Lemma rest_offset_0 b : offset b = 0 → rest b = take (Z.to_nat (size b)) (ptr b).
Proof. intros H0. by rw /rest /slice H0 Z.sub_0_r drop_0. Qed.

(** When the parser is done it ignores the data; there is none in a valid
    stream. *)
Lemma done_stream st c fut : main_inv 11 st (c ++ fut) → main_inv 11 st fut.
Proof.
  intros Hinv. eapply (main_inv_stream_free 11 ltac:(lia) st (c ++ fut)); [|done]. intros v. destruct Hinv as [_ Hpos].
  destruct (at_pos_valid _ _ _ Hpos v) as (sfx & _ & _ & Hnil). specialize (Hnil v). rw Hnil.
  by apply app_eq_nil in Hnil as [_ ->].
Qed.

(** The leftover bytes are moved to the store, when they fit. *)
Lemma consolidate_store bs :
  wf_dbuffer bs → zlen (ptr bs.1) = 32 →
  ∃ ok b, parser_consolidate_buffers bs 32 = Val (ok, (b, bs.2)) ∧ zlen (ptr b) = 32 ∧ bytes_ok (ptr b) ∧
    0 ≤ size b ≤ 32 ∧ (zlen (drest bs) ≤ 32 → take (Z.to_nat (size b)) (ptr b) = drest bs).
Proof.
  intros Hbs Hz. destruct (decide (zlen (drest bs) ≤ 32)) as [Hle|Hgt].
  - destruct (parser_consolidate_spec bs 32 Hbs Hle) as (b & Hb & Hwf & Hr & Ho); [lia|]. exists true, b.
    assert (zlen (ptr b) = 32) as Hzb.
    { revert Hb. rw /parser_consolidate_buffers. case_match; [done|]. intros Hb. inv_bind Hb. inv_bind Hb. inv_bind Hb. inv_bind Hb.
      injection Hb as <-. simpl. apply stores_length in Ha2, Ha0. congruence. }
    pose proof Hwf as (? & ? & ? & ?). split_and!; [done..|lia|lia|]. intros _. by rw -Hr rest_offset_0.
  - exists false, bs.1. pose proof (dbuffer_length bs Hbs) as Hlen. unfold dbuffer_get_length in Hlen.
    rw /parser_consolidate_buffers Hlen (proj2 (Z.ltb_lt _ _)); [|lia]. destruct Hbs as ((? & ? & ? & ?) & _).
    split_and!; [by destruct bs|done|done|lia|lia|lia].
Qed.

Lemma cb_process_data_spec data s fut :
  wf_buffer data → zlen (rest data) < 2 ^ 31 - 32 → stream_inv s (rest data ++ fut) →
  ∃ s', cb_process_data uninit data s = Val s' ∧ stream_inv s' fut.
Proof.
  intros Hdata Hlen [Hst Hinv]. rw /cb_process_data. destruct (parser_error s) eqn:Herr.
  { exists s. split; [done|]. split; [done|]. by rw Herr. }
  destruct Hinv as (Hk & Hinv & Hmore). pose proof (store_buf_wf _ Hst) as Hbuf. pose proof Hst as (Hz & Hok & Hl).
  destruct s as [m len [k st] err]. cbn in *. subst err. set (bs := (buffer_create m len, data)).
  assert (zlen (rest bs.1) = len) as Hz1 by (rw rest_zlen // /=; lia).
  assert (wf_dbuffer bs) as Hbs by (split_and!; [done..|]; rw Hz1 /=; lia).
  assert (zlen (drest bs) < 2 ^ 31) as Hlen2 by (rw /drest zlen_app Hz1 /=; lia).
  destruct (Z.eqb_spec k 11) as [->|Hk11].
  { eexists. split; [done|]. split; [done|]. split; [simpl; lia|]. split; [|done]. by apply (done_stream _ (rest data)). }
  rewrite /leftover /= (proj2 (Z.eqb_neq _ _)) // app_assoc in Hinv.
  rewrite -(rest_create m len) -/(drest bs) in Hinv.
  destruct (run_spec main_inv (λ _ _, ¬ V) (parse_rawtx_steps uninit) k fut st bs) as (r & [k' st'] & bs' & -> & Hrd & Hpost);
    [simpl; lia|apply main_steps_spec|done..|]. rw outcome_ret_bind. cbn [cur_step pstate] in Hpost.
  change (Z.of_nat (length (parse_rawtx_steps uninit))) with 11 in Hpost.
  pose proof Hrd as (Hbs' & Hp & Hs & _). cbn in Hp, Hs.
  destruct Hpost as [(-> & -> & Hdone)|[(-> & Hk' & Hwait & Hw)|[-> HE]]]; cbn [Z.eqb Z.ltb Z.compare].
  - eexists. split; [done|]. split; [by rw /wf_store /= Hp|]. split; [simpl; lia|]. split; [|done].
    by apply (done_stream _ (drest bs')).
  - destruct (consolidate_store bs' Hbs') as (ok & b & -> & Hzb & Hokb & Hsb & Heq); [by rw Hp|]. rw outcome_ret_bind.
    eexists. split; [done|]. split; [done|]. cbn [parser_error parser_context_ cur_step pstate]. split; [lia|].
    split; [|intros _ v; by apply Hw]. apply (main_inv_stream_free k' ltac:(lia) st' (drest bs' ++ fut)); [|exact Hwait].
    intros v. destruct (Hw v) as [Hlt _]. rw /leftover /= (proj2 (Z.eqb_neq _ _)); [|lia]. rw Heq //. lia.
  - eexists. split; [done|]. split; [by rw /wf_store /= Hp|done].
Qed.

(** *** The end of the stream *)
Lemma initial_stream store0 outputs0 fut :
  zlen store0 = 32 → bytes_ok store0 → zlen (vout_scriptpubkey outputs0) = MAX_PREVOUT_SCRIPTPUBKEY_LEN →
  (V → fut = ser_tx TX) → stream_inv (initial_state uninit store0 oi outputs0) fut.
Proof.
  intros Hz Hok Ho HV. split; [by split_and!|]. cbn. split; [lia|]. split.
  - split; [done|]. split; [|intros _; by exists (ser_legacy TX)]. intros sfx Hsfx. split; [done|]. intros v. rw /leftover /=. by apply HV.
  - intros _ v Hnil. specialize (HV v). rewrite Hnil /ser_tx /ser_legacy in HV.
    pose proof (wf_version _ HTX) as Hv. destruct (version TX); [done|]. by destruct (witnesses TX).
Qed.

Lemma body_not_nil X s : ¬ body X [] s.
Proof.
  intros (x & _ & Heq & _). pose proof (wf_locktime _ HTX) as Hl. symmetry in Heq. apply app_eq_nil in Heq as [_ Heq].
  by rewrite Heq in Hl.
Qed.

(** All has been hashed only at the end. *)
Lemma main_inv_end k st s :
  0 ≤ k ≤ 11 → main_inv k st s → hash_context st = ser_legacy TX → outputs_recorded (parser_outputs st).
Proof.
  intros Hk Hinv Hh. assert (∀ W A, inv W A st s → A st [] s) as Hend.
  { intros W A [_ [Hall _]]. apply Hall. by rw app_nil_r. }
  assert (∀ W X, inv W (λ st, body (X st)) st s → False) as Hbody.
  { intros W X Hb. by apply Hend, body_not_nil in Hb. }
  pose proof (wf_locktime _ HTX) as Hl. pose proof (wf_version _ HTX) as Hv.
  assert (k = 0 ∨ k = 1 ∨ k = 2 ∨ k = 3 ∨ k = 4 ∨ k = 5 ∨ k = 6 ∨ k = 7 ∨ k = 8 ∨ k = 9 ∨ k = 10 ∨ k = 11) as Hc by lia.
  repeat destruct Hc as [->|Hc]; try subst k;
    cbv beta iota delta [main_inv out_count_inv outs_done_inv] in Hinv; try (by apply Hbody in Hinv).
  - apply Hend in Hinv as [Hnil _]. unfold ser_legacy in Hnil. by destruct (version TX).
  - apply Hend in Hinv as [Hnil _]. symmetry in Hnil. apply app_eq_nil in Hnil as [_ Hnil]. by rewrite Hnil in Hl.
  - destruct Hinv as (i & _ & _ & H1 & H2). destruct (decide (in_counter i < n_inputs st)).
    + specialize (H1 ltac:(done)). by apply Hbody in H1.
    + specialize (H2 ltac:(lia)). by apply Hbody in H2.
  - destruct Hinv as (o & _ & _ & H1 & H2). destruct (decide (out_counter o < n_outputs st)).
    + specialize (H1 ltac:(done)). by apply Hbody in H1.
    + specialize (H2 ltac:(lia)). by apply Hbody in H2.
  - apply Hend in Hinv as (_ & ? & _). done.
  - apply Hend in Hinv as (_ & ? & _). done.
  - apply Hend in Hinv as (_ & ? & _). done.
Qed.

Lemma stream_recorded s fut :
  stream_inv s fut → parser_error s = false → hash_context (pstate (parser_context_ s)) = ser_legacy TX →
  outputs_recorded (parser_outputs (pstate (parser_context_ s))).
Proof. intros [_ Hinv] He. rewrite He in Hinv. destruct Hinv as (Hk & Hinv & _). by eapply main_inv_end. Qed.

Lemma stream_finished s :
  stream_inv s [] → V →
  parser_error s = false ∧ cur_step (parser_context_ s) = 11 ∧
  hash_context (pstate (parser_context_ s)) = ser_legacy TX.
Proof.
  intros [_ Hinv] v. destruct (parser_error s); [done|]. destruct Hinv as (Hk & Hinv & Hmore).
  destruct (decide (cur_step (parser_context_ s) < 11)) as [Hlt|]; [by destruct (Hmore Hlt v)|].
  assert (cur_step (parser_context_ s) = 11) as H11 by lia. rewrite H11 in Hinv. split_and!; [done..|].
  destruct Hinv as [_ [Hall Hex]]. destruct (Hex v) as [sfx Hsfx]. destruct (Hall sfx Hsfx) as (-> & _).
  by rewrite app_nil_r in Hsfx.
Qed.

(** The chunks one after the other. *)
Fixpoint feed (chunks : list buffer) (s : psbt_parse_rawtx_state) : outcome psbt_parse_rawtx_state :=
  match chunks with
  | [] => mret s
  | c :: chunks => s ← cb_process_data uninit c s; feed chunks s
  end.

Definition wf_chunk (c : buffer) : Prop := wf_buffer c ∧ zlen (rest c) ≤ 255.

Lemma feed_spec chunks s fut :
  Forall wf_chunk chunks → stream_inv s (concat (rest <$> chunks) ++ fut) → ∃ s', feed chunks s = Val s' ∧ stream_inv s' fut.
Proof.
  revert s. induction chunks as [|c chunks IH]; intros s Hwf Hinv; [by exists s|].
  apply Forall_cons in Hwf as [[Hc Hl] Hwf]. rewrite fmap_cons /= -app_assoc in Hinv.
  destruct (cb_process_data_spec c s _ Hc ltac:(lia) Hinv) as (s1 & Hs1 & Hinv1).
  cbn [feed]. rw Hs1 outcome_ret_bind. by apply IH.
Qed.
End parser.
