(* ===== verification/RawTxStream.v ===== *)
(** * Properties of the parser of previous transactions

    The theorems that follow from the invariant of RawTxProof.v, for the parser
    fed with chunks and for [call_psbt_parse_rawtx], which gets the chunks from
    the host; and what the parser does with an oversized script. *)

From S2P Require Import Prelude Bytes Buffer Merkle Dispatcher MerkleClient MerkleProof Preimage Crypto RawTx RawTxProof.

(** ** Samples *)
Definition sample_txin : txin := mk_txin (replicate 32 7) [1; 0; 0; 0] [] (replicate 4 255).
Definition sample_out0 : txout := mk_txout 5000 (0 :: 20 :: replicate 20 9).
Definition sample_out1 : txout := mk_txout 70000 (118 :: replicate 24 3).
Definition sample_tx (w : option (list (list (list Z)))) : transaction :=
  mk_tx [2; 0; 0; 0] [sample_txin] [sample_out0; sample_out1] w [0; 0; 0; 0].

Lemma sample_tx_wf w : w = None ∨ w = Some [[[1; 2; 3]; []]] → wf_tx (sample_tx w).
Proof.
  intros Hw. split; try done.
  - by repeat constructor.
  - repeat constructor; simpl; lia.
  - intros ws. destruct Hw as [-> | ->]; [done|]. intros [= <-]. split; [done|]. by repeat constructor.
Qed.

Definition sample_outputs : txid_parser_outputs := mk_outputs 0 0 (replicate 34 0) (replicate 32 0).

(** The chunks of [n] bytes of a list. *)
Fixpoint cut (fuel n : nat) (l : list Z) : list buffer :=
  match fuel, l with
  | S fuel', _ :: _ => buffer_create (take n l) (zlen (take n l)) :: cut fuel' n (drop n l)
  | _, _ => []
  end.

(** ** Streams of chunks *)
Section stream.
Context (uninit : Z) (store0 : list Z) (index : Z) (outputs0 : txid_parser_outputs).
Context (Hstore : zlen store0 = 32) (Hbytes : bytes_ok store0).
Context (Hout : zlen (vout_scriptpubkey outputs0) = MAX_PREVOUT_SCRIPTPUBKEY_LEN).

(** C25: the parser is memory safe and ends.  For every sequence of chunks, of
    every content, the callback accesses no memory outside of the buffers, the
    store and the array for the script, and its loops end; the state is
    well-formed after each chunk. *)
Theorem rawtx_parser_safe chunks :
  Forall wf_chunk chunks →
  ∃ s, feed uninit chunks (initial_state uninit store0 index outputs0) = Val s ∧ wf_store s.
Proof.
  intros Hwf. pose proof (sample_tx_wf None (or_introl eq_refl)) as Ht.
  assert (∀ u, tx_outs (sample_tx None) !! Z.to_nat (idx index) = Some u →
    zlen (script_pubkey u) ≤ MAX_PREVOUT_SCRIPTPUBKEY_LEN) as Hsmall.
  { intros u Hu. apply list_elem_of_lookup_2 in Hu. set_unfold in Hu. by destruct Hu as [-> | [-> | []]]. }
  destruct (feed_spec uninit _ False index Ht Hsmall chunks (initial_state uninit store0 index outputs0) [])
    as (s & Hs & Hinv & _); [done|by apply initial_stream|]. by exists s.
Qed.

(** C24: the parser accepts every transaction in which the script of the
    requested output, if there is such an output, fits in the array for it.  When
    the chunks, of whatever sizes, make up the serialization of such a
    transaction, with or without witnesses, the parser ends without an error,
    what it has hashed is the serialization without witnesses, and the outputs
    are the value and the script of the requested output, if it exists.  The
    other scripts have any size; when the script of the requested output is too
    large, what is parsed after it depends on its bytes, as
    [oversized_script_accepted] shows. *)
Theorem rawtx_parser_complete t chunks :
  wf_tx t → Forall wf_chunk chunks → concat (rest <$> chunks) = ser_tx t →
  (∀ u, tx_outs t !! Z.to_nat (u32 index) = Some u → zlen (script_pubkey u) ≤ MAX_PREVOUT_SCRIPTPUBKEY_LEN) →
  ∃ s, feed uninit chunks (initial_state uninit store0 index outputs0) = Val s ∧
    let st := pstate (parser_context_ s) in
    parser_error s = false ∧ cur_step (parser_context_ s) = zlen (parse_rawtx_steps uninit) ∧
    hash_context st = ser_legacy t ∧
    ∀ u, tx_outs t !! Z.to_nat (u32 index) = Some u → recorded (parser_outputs st) u.
Proof.
  intros Ht Hwf Heq Hsmall.
  destruct (feed_spec uninit t True index Ht Hsmall chunks (initial_state uninit store0 index outputs0) [])
    as (s & Hs & Hinv); [done|by apply initial_stream; try done; rw app_nil_r|]. exists s. split; [done|].
  destruct (stream_finished _ _ _ _ Hinv I) as (Herr & Hk & Hh). split_and!; [done..|].
  by eapply stream_recorded.
Qed.
End stream.

(** The transaction with witnesses, in chunks of 10 bytes. *)
Definition sample_chunks : list buffer := cut 100 10 (ser_tx (sample_tx (Some [[[1; 2; 3]; []]]))).

Lemma rawtx_parser_safe_witness :
  ∃ s, feed 0 sample_chunks (initial_state 0 (replicate 32 0) 1 sample_outputs) = Val s ∧ wf_store s.
Proof.
  apply (rawtx_parser_safe 0 (replicate 32 0) 1 sample_outputs eq_refl ltac:(by apply (bool_decide_unpack _)) eq_refl).
  repeat constructor; by apply (bool_decide_unpack _).
Defined.

Lemma rawtx_parser_complete_witness :
  ∃ s, feed 0 sample_chunks (initial_state 0 (replicate 32 0) 1 sample_outputs) = Val s ∧
    let st := pstate (parser_context_ s) in
    parser_error s = false ∧ cur_step (parser_context_ s) = zlen (parse_rawtx_steps 0) ∧
    hash_context st = ser_legacy (sample_tx (Some [[[1; 2; 3]; []]])) ∧
    ∀ u, tx_outs (sample_tx (Some [[[1; 2; 3]; []]])) !! Z.to_nat (u32 1) = Some u → recorded (parser_outputs st) u.
Proof.
  apply (rawtx_parser_complete 0 (replicate 32 0) 1 sample_outputs eq_refl ltac:(by apply (bool_decide_unpack _)) eq_refl).
  - apply sample_tx_wf. by right.
  - repeat constructor; by apply (bool_decide_unpack _).
  - by vm_compute.
  - intros u [= <-]. by vm_compute.
Defined.

(** ** The flow with the host *)
Section flow.
Context (sha256 : list Z → list Z) (sha256_length : ∀ x, zlen (sha256 x) = 32) (sha256_bytes : ∀ x, bytes_ok (sha256 x)).
Context (uninit : Z) (store0 : list Z) (outputs0 : txid_parser_outputs).
Context (Hstore : zlen store0 = 32) (Hbytes : bytes_ok store0).
Context (Hout : zlen (vout_scriptpubkey outputs0) = MAX_PREVOUT_SCRIPTPUBKEY_LEN).

(** What is known of the parser for an arbitrary stream. *)
Definition any_stream (t : transaction) (index : Z) (s : psbt_parse_rawtx_state) : Prop :=
  ∀ fut, stream_inv t False index s fut.

(** The data [h] that the parser has hashed in the run from [st] to [st'], in
    which the host has streamed the value of the key. *)
Definition hashed_in (map : merkleized_map_commitment) (key : list Z) (index : Z) (st : dstate) (h : list Z) (st' : dstate) : Prop :=
  ∃ value_hash st1 res s,
    call_get_merkleized_map_value_hash sha256 map key st = Val ((0, Some value_hash), st1) ∧
    call_stream_preimage sha256 None (cb_process_data uninit) value_hash (initial_state uninit store0 index outputs0) st1 =
      Val ((res, s), st') ∧
    0 ≤ res ∧ h = hash_context (pstate (parser_context_ s)).

Section any.
Context (t : transaction) (index : Z) (Ht : wf_tx t).
Context (Hsmall : ∀ u, tx_outs t !! Z.to_nat (idx index) = Some u → zlen (script_pubkey u) ≤ MAX_PREVOUT_SCRIPTPUBKEY_LEN).

Lemma any_stream_callback buf s :
  wf_buffer buf → zlen (rest buf) ≤ 255 → any_stream t index s →
  ∃ s', cb_process_data uninit buf s = Val s' ∧ any_stream t index s'.
Proof.
  intros Hbuf Hlen Hinv.
  assert (∀ fut, ∃ s', cb_process_data uninit buf s = Val s' ∧ stream_inv t False index s' fut) as Hcb.
  { intros fut. apply cb_process_data_spec; [done..|lia|apply Hinv]. }
  destruct (Hcb []) as (s' & Hs & _). exists s'. split; [done|]. intros fut. destruct (Hcb fut) as (s2 & Hs2 & Hinv2).
  rewrite Hs in Hs2. by injection Hs2 as <-.
Qed.

Lemma parse_rawtx_spec map key st Q :
  idle st → zlen (keys_root map) = 32 → bytes_ok (keys_root map) → zlen (values_root map) = 32 → bytes_ok (values_root map) →
  u32 (map_size map) ≤ 2 ^ 31 →
  (∀ r st1, call_get_merkleized_map_value_hash sha256 map key st = Val (r, st1) → first_chunk_nonempty (rx st1)) →
  (∀ st' p, idle st' → Q (-1, p) st') →
  (∀ st' s, idle st' → any_stream t index s → parser_error s = false →
     hashed_in map key index st (hash_context (pstate (parser_context_ s))) st' →
     let pst := pstate (parser_context_ s) in let p := parser_outputs pst in
     Q (0, mk_outputs (vout_value p) (vout_scriptpubkey_len p) (vout_scriptpubkey p) (sha256 (sha256 (hash_context pst)))) st') →
  wp True (call_psbt_parse_rawtx uninit sha256 store0 map key index outputs0) Q st.
Proof.
  intros Hi Hkz Hkok Hvz Hvok Hs Hne Hfail Hdone. rw /call_psbt_parse_rawtx. wp_step. apply wp_remember.
  apply map_value_hash_spec; [done..|apply sha256_length|apply sha256_bytes|done|].
  intros [res h] st1 Hi1 Hr Heq. destruct Hr as [Hr|(h' & i & rx1 & rx1' & rx2 & rx2' & [= -> ->] & Hz & Hok & _)].
  { simpl in Hr. subst res. cbn [Z.ltb Z.compare]. wp_steps. by apply Hfail. }
  cbn [Z.ltb Z.compare default from_option]. wp_step. apply wp_remember.
  apply (stream_preimage_spec sha256 True None (cb_process_data uninit) (λ _ _, any_stream t index));
    [|done|done|done|by left|by eapply Hne| |].
  - intros len d buf cs Hbuf Hlen Hcs. by apply any_stream_callback.
  - intros len _. eexists. split; [done|]. intros fut. by apply initial_stream.
  - intros st2 [res s] Hi2 _ Hres Hrun. cbv beta iota zeta.
    destruct (Z.ltb_spec res 0) as [|Hge]; [wp_steps; by apply Hfail|].
    destruct (parser_error s) eqn:Herr; [wp_steps; by apply Hfail|]. wp_steps.
    apply Hdone; [done| |done|by eexists h', st1, res, s; split_and!].
    destruct (preimage_chunks (rx st1)) as [[[[len d0] l] rx']|]; [by destruct Hres|simpl in Hres; lia].
Qed.
End any.

(** C17: the device is not deceived about a previous output.  For every
    behaviour of the host, [call_psbt_parse_rawtx] performs no undefined access
    and ends, provided that the first chunk of the stream is not empty.  When it
    succeeds and the transaction id is that of a transaction whose output at the
    requested index has a script that fits, the amount and the script that it
    returns are those of this output, unless the data that it has hashed in this
    run is not the serialization of the transaction and has the same double
    SHA-256: then the host knows this second preimage. *)
Theorem parse_rawtx_sound map key index t u st :
  idle st → zlen (keys_root map) = 32 → bytes_ok (keys_root map) → zlen (values_root map) = 32 → bytes_ok (values_root map) →
  u32 (map_size map) ≤ 2 ^ 31 →
  (∀ r st1, call_get_merkleized_map_value_hash sha256 map key st = Val (r, st1) → first_chunk_nonempty (rx st1)) →
  wf_tx t → tx_outs t !! Z.to_nat (u32 index) = Some u → zlen (script_pubkey u) ≤ MAX_PREVOUT_SCRIPTPUBKEY_LEN →
  wp True (call_psbt_parse_rawtx uninit sha256 store0 map key index outputs0)
    (λ r st', idle st' ∧
       (r.1 = -1 ∨ r.1 = 0 ∧
          (txid r.2 = sha256 (sha256 (ser_legacy t)) →
             recorded r.2 u ∨
             ∃ h, hashed_in map key index st h st' ∧ h ≠ ser_legacy t ∧ sha256 (sha256 h) = sha256 (sha256 (ser_legacy t))))) st.
Proof.
  intros Hi Hkz Hkok Hvz Hvok Hs Hne Ht Hu Hsmall.
  apply (parse_rawtx_spec t index Ht); [|done..|by intros; split; [|left]|].
  { intros u' Hu'. rewrite Hu in Hu'. by injection Hu' as <-. }
  intros st' s Hi' Hany Herr Hrun. split; [done|]. right. split; [done|]. cbn [txid fst snd]. intros Hid.
  destruct (decide (hash_context (pstate (parser_context_ s)) = ser_legacy t)) as [Hh|Hh].
  - left. by eapply (stream_recorded t False index Ht s []).
  - right. by eexists.
Qed.
End flow.

(** A host that proves the key 0 and its value in a map with one key, and sends
    the value in two chunks, the first of [n] bytes. *)
Definition sample_key : list Z := [0].
Definition sample_map (data : list Z) : merkleized_map_commitment :=
  mk_commitment 1 (merkle_compute_element_hash toy_hash sample_key) (toy_hash data).
Definition sample_host (n : nat) (data : list Z) : list exchange :=
  [reply [1; 0];
   reply (merkle_compute_element_hash toy_hash sample_key ++ [0; 0]);
   reply (toy_hash data ++ [0; 0]);
   reply (varint_enc (zlen data) ++ [Z.of_nat n] ++ take n data);
   reply ([zlen (drop n data); 1] ++ drop n data)].

Lemma toy_hash_bytes x : bytes_ok (toy_hash x).
Proof. apply le_bytes_ok. Qed.

Definition sample_data : list Z := 0 :: ser_tx (sample_tx None).

Lemma parse_rawtx_sound_witness :
  wp True (call_psbt_parse_rawtx 0 toy_hash (replicate 32 0) (sample_map sample_data) sample_key 1 sample_outputs)
    (λ r st', idle st' ∧
       (r.1 = -1 ∨ r.1 = 0 ∧ (txid r.2 = toy_hash (toy_hash (ser_legacy (sample_tx None))) →
          recorded r.2 sample_out1 ∨
          ∃ h, hashed_in toy_hash 0 (replicate 32 0) sample_outputs (sample_map sample_data) sample_key 1
                 (sample_state 0 (sample_host 100 sample_data)) h st' ∧
               h ≠ ser_legacy (sample_tx None) ∧ toy_hash (toy_hash h) = toy_hash (toy_hash (ser_legacy (sample_tx None))))))
    (sample_state 0 (sample_host 100 sample_data)).
Proof.
  apply (parse_rawtx_sound toy_hash toy_hash_length toy_hash_bytes 0 (replicate 32 0) sample_outputs eq_refl
    ltac:(by apply (bool_decide_unpack _)) eq_refl).
  - split; [|done]. apply sample_state_wf; [done|]. by apply (bool_decide_unpack _); vm_compute.
  - by apply toy_hash_length.
  - by apply toy_hash_bytes.
  - by apply toy_hash_length.
  - by apply toy_hash_bytes.
  - done.
  - vm_compute. intros r st1 [= <- <-]. done.
  - apply sample_tx_wf. by left.
  - done.
  - done.
Defined.

(** ** Oversized scripts

    A transaction whose first script has 41 bytes, of which the last one, read as
    a length, is that of the second output. *)
Definition oversized_tx : transaction :=
  mk_tx [2; 0; 0; 0] [sample_txin] [mk_txout 5000 (replicate 40 81 ++ [10]); mk_txout 1 [81]] None [0; 0; 0; 0].

(** C38: the error for an oversized script is lost.  The subparser of the outputs
    returns -1 for the script of the requested output, which is larger than the
    array for it; [parse_rawtx_outputs] stores the result in a [bool] and takes
    it for success.  The parser goes on, ends without an error, has hashed the
    whole transaction, so that the transaction id is the right one, and returns
    a length of 41 bytes for a script of which it has copied none. *)
Theorem oversized_script_accepted uninit :
  wf_tx oversized_tx ∧
  ∃ s, feed uninit (cut 10 100 (ser_tx oversized_tx)) (initial_state uninit (replicate 32 0) 0 sample_outputs) = Val s ∧
    let st := pstate (parser_context_ s) in
    parser_error s = false ∧ cur_step (parser_context_ s) = zlen (parse_rawtx_steps uninit) ∧
    hash_context st = ser_legacy oversized_tx ∧
    vout_scriptpubkey_len (parser_outputs st) = 41 ∧ MAX_PREVOUT_SCRIPTPUBKEY_LEN < 41 ∧
    vout_scriptpubkey (parser_outputs st) = vout_scriptpubkey sample_outputs.
Proof.
  split; [split; try done; repeat constructor; simpl; lia|]. eexists. split; [vm_compute; reflexivity|].
  vm_compute. by split_and!.
Qed.
