(* ===== verification/PolicySyntax.v ===== *)
(** * Wallet policies: syntax

    Models the data of src/src/common/wallet.h (the syntax tree of a
    descriptor template and the type flags of its miniscript nodes) and the
    first part of src/src/common/wallet.c: the header of a wallet policy, the
    character-level readers, key expressions and key placeholders.

    A parser takes the state of the input and output buffers; [None] is the
    negative result of the C functions, after which every caller returns a
    negative result as well. *)

From Stdlib Require Ascii String.
Import String.StringSyntax Ascii.AsciiSyntax.
From S2P Require Import Prelude Bytes Bip32 Buffer Base58 Crypto.

(** Character constants and string literals of the source. *)
Definition chr (c : Ascii.ascii) : Z := Z.of_N (Ascii.N_of_ascii c).
Arguments chr c%_char_scope.
Fixpoint str (s : String.string) : list Z :=
  match s with
  | String.EmptyString => []
  | String.String c s' => chr c :: str s'
  end.
Arguments str s%_string_scope.

(** ** common/wallet.h *)
Definition MAX_PUBKEYS_PER_MULTISIG : Z := 16.
Definition WALLET_POLICY_VERSION_V1 : Z := 1.
Definition WALLET_POLICY_VERSION_V2 : Z := 2.
Definition MAX_WALLET_NAME_LENGTH : Z := 64.
Definition MAX_DESCRIPTOR_TEMPLATE_LENGTH_V1 : Z := 40.
Definition MAX_TAPTREE_POLICY_DEPTH : Z := 4.
Definition MAX_SERIALIZED_PUBKEY_LENGTH : Z := 113.

(** The tokens; the ones of the wrappers have no name in the source. *)
Inductive token : Set :=
| TOKEN_SH | TOKEN_WSH | TOKEN_PK | TOKEN_PKH | TOKEN_WPKH
| TOKEN_MULTI | TOKEN_MULTI_A | TOKEN_SORTEDMULTI | TOKEN_SORTEDMULTI_A | TOKEN_TR
| TOKEN_0 | TOKEN_1 | TOKEN_PK_K | TOKEN_PK_H | TOKEN_OLDER | TOKEN_AFTER
| TOKEN_SHA256 | TOKEN_HASH256 | TOKEN_RIPEMD160 | TOKEN_HASH160
| TOKEN_ANDOR | TOKEN_AND_V | TOKEN_AND_B | TOKEN_AND_N
| TOKEN_OR_B | TOKEN_OR_C | TOKEN_OR_D | TOKEN_OR_I | TOKEN_THRESH
| TOKEN_A | TOKEN_S | TOKEN_C | TOKEN_T | TOKEN_D | TOKEN_V | TOKEN_J | TOKEN_N
| TOKEN_L | TOKEN_U.

Global Instance token_eq_dec : EqDecision token.
Proof. solve_decision. Defined.

Inductive ms_type : Set :=
| MINISCRIPT_TYPE_B | MINISCRIPT_TYPE_V | MINISCRIPT_TYPE_K | MINISCRIPT_TYPE_W.

Global Instance ms_type_eq_dec : EqDecision ms_type.
Proof. solve_decision. Defined.

(** The type and the modifiers z, o, n, d, u of a miniscript node. *)
Record ms_flags := mk_flags {
  ty : ms_type;
  mod_z : bool;
  mod_o : bool;
  mod_n : bool;
  mod_d : bool;
  mod_u : bool
}.

Global Instance ms_flags_eq_dec : EqDecision ms_flags.
Proof. solve_decision. Defined.

Record policy_node_key_placeholder := mk_placeholder {
  num_first : Z;
  num_second : Z;
  key_index : Z
}.

(** The nodes, one constructor for each C structure, with the node that a
    (relative) pointer points to in its place.  The flags are [None] for a
    node with [is_miniscript = 0]. *)
Inductive policy_node : Type :=
| policy_node_constant (t : token) (f : option ms_flags)
| policy_node_with_script (t : token) (f : option ms_flags) (script : policy_node)
| policy_node_with_script2 (t : token) (f : option ms_flags) (x y : policy_node)
| policy_node_with_script3 (t : token) (f : option ms_flags) (x y z : policy_node)
| policy_node_with_key (t : token) (f : option ms_flags) (kp : policy_node_key_placeholder)
| policy_node_with_uint32 (t : token) (f : option ms_flags) (n : Z)
| policy_node_multisig (t : token) (f : option ms_flags) (k : Z)
    (key_placeholders : list policy_node_key_placeholder)
| policy_node_thresh (t : token) (f : option ms_flags) (k : Z) (scriptlist : list policy_node)
| policy_node_with_hash_160 (t : token) (f : option ms_flags) (h : list Z)
| policy_node_with_hash_256 (t : token) (f : option ms_flags) (h : list Z)
| policy_node_tr (t : token) (f : option ms_flags) (kp : policy_node_key_placeholder)
    (tree : option policy_node_tree)
with policy_node_tree : Type :=
| tree_leaf (script : policy_node)
| tree_node (left_tree right_tree : policy_node_tree).

Definition node_type (n : policy_node) : token :=
  match n with
  | policy_node_constant t _ | policy_node_with_script t _ _ | policy_node_with_script2 t _ _ _
  | policy_node_with_script3 t _ _ _ _ | policy_node_with_key t _ _ | policy_node_with_uint32 t _ _
  | policy_node_multisig t _ _ _ | policy_node_thresh t _ _ _ | policy_node_with_hash_160 t _ _
  | policy_node_with_hash_256 t _ _ | policy_node_tr t _ _ _ => t
  end.

Definition node_flags (n : policy_node) : option ms_flags :=
  match n with
  | policy_node_constant _ f | policy_node_with_script _ f _ | policy_node_with_script2 _ f _ _
  | policy_node_with_script3 _ f _ _ _ | policy_node_with_key _ f _ | policy_node_with_uint32 _ f _
  | policy_node_multisig _ f _ _ | policy_node_thresh _ f _ _ | policy_node_with_hash_160 _ f _
  | policy_node_with_hash_256 _ f _ | policy_node_tr _ f _ _ => f
  end.

(** ** The parser monad *)
Record parse_state := mk_parse_state { in_buf : buffer; out_buf : buffer }.

Definition parser (A : Type) : Type := parse_state → outcome (option (A * parse_state)).

Global Instance parser_ret : MRet parser := λ A a st, Val (Some (a, st)).
Global Instance parser_bind : MBind parser := λ A B f m st,
  match m st with
  | Val (Some (a, st')) => f a st'
  | Val None => Val None
  | Undef => Undef
  | Throw e => Throw e
  | OutOfFuel => OutOfFuel
  end.

(** [return -1], and a [return -1] under a condition. *)
Definition fail {A} : parser A := λ _, Val None.
Definition ensure (b : bool) : parser unit := if b then mret tt else fail.

Definition lift_outcome {A} (m : outcome A) : parser A := λ st, a ← m; Val (Some (a, st)).
Definition on_input {A} (f : buffer → outcome (A * buffer)) : parser A := λ st,
  '(a, b) ← f (in_buf st); Val (Some (a, mk_parse_state b (out_buf st))).
Definition input : parser buffer := λ st, Val (Some (in_buf st, st)).

(** Operations of the buffer as parsers; [seek_cur] ignores the result as the
    calls of the source do. *)
Definition peek : parser (option Z) := b ← input; lift_outcome (buffer_peek b).
Definition peek_n (n : Z) : parser (option Z) := b ← input; lift_outcome (buffer_peek_n b n).
Definition seek_cur (n : Z) : parser unit := on_input (λ b, Val (tt, (buffer_seek_cur b n).2)).
Definition can_read (n : Z) : parser bool := b ← input; mret (buffer_can_read b n).
Definition read_u8 : parser (option Z) :=
  on_input (λ b, '(ok, v, b) ← buffer_read_u8 b; Val ((if ok : bool then Some v else None), b)).
Definition read_bytes (n : Z) : parser (option (list Z)) := on_input (λ b, buffer_read_bytes b n).
Definition read_varint : parser (option Z) :=
  on_input (λ b, '(ok, v, b) ← buffer_read_varint b; Val ((if ok : bool then Some v else None), b)).

(** A read whose failure is a [return -1]. *)
Definition need {A} (m : parser (option A)) : parser A :=
  r ← m; match r with Some a => mret a | None => fail end.

(** ** Tokens of common/wallet.c *)
Definition KNOWN_TOKENS : list (token * list Z) :=
  [(TOKEN_SH, str "sh"); (TOKEN_WSH, str "wsh"); (TOKEN_PKH, str "pkh"); (TOKEN_WPKH, str "wpkh");
   (TOKEN_MULTI, str "multi"); (TOKEN_MULTI_A, str "multi_a");
   (TOKEN_SORTEDMULTI, str "sortedmulti"); (TOKEN_SORTEDMULTI_A, str "sortedmulti_a");
   (TOKEN_TR, str "tr");
   (TOKEN_0, str "0"); (TOKEN_1, str "1"); (TOKEN_PK, str "pk"); (TOKEN_PK_K, str "pk_k");
   (TOKEN_PK_H, str "pk_h"); (TOKEN_OLDER, str "older"); (TOKEN_AFTER, str "after");
   (TOKEN_SHA256, str "sha256"); (TOKEN_HASH256, str "hash256");
   (TOKEN_RIPEMD160, str "ripemd160"); (TOKEN_HASH160, str "hash160");
   (TOKEN_ANDOR, str "andor"); (TOKEN_AND_V, str "and_v"); (TOKEN_AND_B, str "and_b");
   (TOKEN_AND_N, str "and_n"); (TOKEN_OR_B, str "or_b"); (TOKEN_OR_C, str "or_c");
   (TOKEN_OR_D, str "or_d"); (TOKEN_OR_I, str "or_i"); (TOKEN_THRESH, str "thresh")].

(** The entries of the table for the letters from a to z. *)
Definition is_valid_miniscript_wrapper : list bool :=
  [true; false; true; true; false; false; false; false; false; true; false; true; false;
   true; false; false; false; false; true; true; true; true; false; false; false; false].

Definition MAX_TOKEN_LENGTH : Z := 13.

Definition is_digit (c : Z) : bool := (chr "0" <=? c) && (c <=? chr "9").
Definition is_alpha (c : Z) : bool :=
  ((chr "a" <=? c) && (c <=? chr "z")) || ((chr "A" <=? c) && (c <=? chr "Z")).
Definition is_alphanumeric (c : Z) : bool := is_alpha c || is_digit c.
Definition is_lowercase_hex (c : Z) : bool := is_digit c || ((chr "a" <=? c) && (c <=? chr "f")).
Definition lowercase_hex_to_int (c : Z) : Z :=
  u8 (if is_digit c then c - chr "0" else c - chr "a" + 10).

Definition consume_character (expected : Z) : parser bool :=
  c ← peek;
  match c with
  | Some c => if c =? expected then seek_cur 1;; mret true else mret false
  | None => mret false
  end.

(** The loop of [consume_characters] over the positions from [i]. *)
Fixpoint match_characters (expected : list Z) (i : Z) : parser bool :=
  match expected with
  | [] => mret true
  | e :: expected' =>
      c ← peek_n i;
      match c with
      | Some c => if c =? e then match_characters expected' (i + 1) else mret false
      | None => mret false
      end
  end.

Definition consume_characters (expected : list Z) (len : Z) : parser bool :=
  ok ← match_characters (take (Z.to_nat len) expected) 0;
  if (ok : bool) then seek_cur len;; mret true else mret false.

(** Reads at most [out_len] characters. *)
Fixpoint read_token (out_len : nat) : parser (list Z) :=
  match out_len with
  | O => mret []
  | S out_len' =>
      c ← peek;
      match c with
      | Some c =>
          if is_alphanumeric c || (c =? chr "_")
          then seek_cur 1;; word ← read_token out_len'; mret (c :: word)
          else mret []
      | None => mret []
      end
  end.

(** [None] is TOKEN_INVALID.  The words have no NUL character and are at most
    as long as the comparison of the source looks at, so it is an equality. *)
Definition lookup_token (word : list Z) : option token :=
  fst <$> List.find (λ '(_, name), bool_decide (name = word)) KNOWN_TOKENS.

Definition parse_token : parser (option token) :=
  word ← read_token (Z.to_nat MAX_TOKEN_LENGTH); mret (lookup_token word).

(** The loop of [parse_unsigned_decimal]; [result] is a [size_t]. *)
Fixpoint decimal_loop (fuel : nat) (result digits_read : Z) : parser (Z * Z) :=
  match fuel with
  | O => λ _, OutOfFuel
  | S fuel' =>
      c ← peek;
      match c with
      | Some c =>
          if is_digit c then
            let digits_read := digits_read + 1 in
            let next_digit := c - chr "0" in
            ensure (negb ((digits_read =? 2) && (result =? 0)));;
            ensure (negb (size_t (10 * result + next_digit) <? result));;
            seek_cur 1;;
            decimal_loop fuel' (size_t (10 * result + next_digit)) digits_read
          else mret (result, digits_read)
      | None => mret (result, digits_read)
      end
  end.

(** The characters left bound the number of iterations. *)
Definition remaining (b : buffer) : nat := Z.to_nat (size b - offset b).

Definition parse_unsigned_decimal : parser Z :=
  b ← input;
  '(result, digits_read) ← decimal_loop (S (remaining b)) 0 0;
  ensure (negb (digits_read =? 0));;
  mret result.

(** The loop of [buffer_read_hex_hash], also the one over the fingerprint of a
    key origin. *)
Fixpoint read_hex (n : nat) : parser (list Z) :=
  match n with
  | O => mret []
  | S n' =>
      c1 ← read_u8;
      c2 ← read_u8;
      let c1 := default 0 c1 in
      let c2 := default 0 c2 in
      ensure (is_lowercase_hex c1 && is_lowercase_hex c2);;
      h ← read_hex n';
      mret (u8 (16 * lowercase_hex_to_int c1 + lowercase_hex_to_int c2) :: h)
  end.

Definition buffer_read_hex_hash (n : Z) : parser (list Z) :=
  ok ← can_read (2 * n);
  ensure ok;;
  read_hex (Z.to_nat n).

Definition buffer_read_derivation_step : parser Z :=
  der_step ← parse_unsigned_decimal;
  ensure (negb (BIP32_FIRST_HARDENED_CHILD <=? der_step));;
  h ← consume_character (chr "'");
  mret (if (h : bool) then Z.lor der_step BIP32_FIRST_HARDENED_CHILD else der_step).

(** ** Key placeholders *)

(** The derivation [/**] or [/<M;N>/*] of a key placeholder in V2: the two
    numbers. *)
Definition parse_derivation : parser (Z * Z) :=
  slash ← consume_character (chr "/");
  ensure slash;;
  next_character ← need peek;
  ensure ((next_character =? chr "*") || (next_character =? chr "<"));;
  if next_character =? chr "*" then
    ok ← consume_characters (str "**") 2;
    ensure ok;;
    mret (0, 1)
  else
    seek_cur 1;;
    num_first ← parse_unsigned_decimal;
    ensure (negb (0x80000000 <? num_first));;
    ok ← consume_character (chr ";");
    ensure ok;;
    num_second ← parse_unsigned_decimal;
    ensure (negb (0x80000000 <? num_second));;
    ensure (negb (num_first =? num_second));;
    ok ← consume_characters (str ">/*") 3;
    ensure ok;;
    mret (num_first, num_second).

Definition parse_placeholder (version : Z) : parser policy_node_key_placeholder :=
  c ← need read_u8;
  ensure (c =? chr "@");;
  k ← parse_unsigned_decimal;
  ensure (negb (INT16_MAX <? k));;
  if version =? WALLET_POLICY_VERSION_V1 then mret (mk_placeholder 0 1 k)
  else if version =? WALLET_POLICY_VERSION_V2 then
    '(num_first, num_second) ← parse_derivation;
    mret (mk_placeholder num_first num_second k)
  else fail.

(** ** Key expressions *)
Record policy_map_key_info := mk_key_info {
  master_key_derivation : list Z;
  master_key_fingerprint : list Z;
  master_key_derivation_len : Z;
  has_key_origin : bool;
  has_wildcard : bool;
  ext_pubkey : list Z
}.

(** The structure after the [memset]. *)
Definition empty_key_info : policy_map_key_info :=
  mk_key_info (replicate (Z.to_nat MAX_BIP32_PATH_STEPS) 0) (replicate 4 0) 0 false false (replicate 78 0).

(** Writes an element of the array [master_key_derivation]. *)
Definition store_step (steps : list Z) (i step : Z) : parser (list Z) := lift_outcome (store steps i step).

Fixpoint derivation_loop (fuel : nat) (steps : list Z) (len : Z) : parser (list Z * Z) :=
  match fuel with
  | O => λ _, OutOfFuel
  | S fuel' =>
      slash ← consume_character (chr "/");
      if (slash : bool) then
        ensure (negb (MAX_BIP32_PATH_STEPS <? len));;
        step ← buffer_read_derivation_step;
        steps ← store_step steps len step;
        derivation_loop fuel' steps (len + 1)
      else mret (steps, len)
  end.

(** The key origin after its opening bracket. *)
Definition parse_key_origin (info : policy_map_key_info) : parser policy_map_key_info :=
  ok ← can_read 9;
  ensure ok;;
  fingerprint ← read_hex 4;
  b ← input;
  '(steps, len) ← derivation_loop (S (remaining b)) (master_key_derivation info) 0;
  close ← consume_character (chr "]");
  ensure close;;
  mret (mk_key_info steps fingerprint len true (has_wildcard info) (ext_pubkey info)).

(** The loop that reads the characters of the public key into
    [ext_pubkey_str]; [n] is the number of characters that still fit. *)
Fixpoint pubkey_loop (n : nat) : parser (list Z) :=
  match n with
  | O => mret []
  | S n' =>
      c ← peek;
      match c with
      | Some c =>
          if is_alphanumeric c then seek_cur 1;; l ← pubkey_loop n'; mret (c :: l) else mret []
      | None => mret []
      end
  end.

Section key_info.
(** [uninit] is the contents of the uninitialised [ext_pubkey_check]. *)
Context (sha256 : list Z → list Z) (uninit : list Z).

Definition crypto_get_checksum (in_ : list Z) : list Z := take 4 (sha256 (sha256 in_)).

Definition decode_pubkey (text : list Z) : parser (list Z) :=
  let len := zlen text in
  _ ← lift_outcome (store (take (Z.to_nat MAX_SERIALIZED_PUBKEY_LENGTH)
                             (text ++ replicate (Z.to_nat (MAX_SERIALIZED_PUBKEY_LENGTH - len)) 0)) len 0);
  ensure (negb ((len <? 111) || (112 <? len)));;
  r ← lift_outcome (base58_decode text len 82);
  match r with
  | None => fail
  | Some out =>
      ext_pubkey_check ← lift_outcome (stores uninit 0 out);
      ensure (bool_decide (take 4 (drop 78 ext_pubkey_check) =
                           crypto_get_checksum (take 78 ext_pubkey_check)));;
      mret (take 78 ext_pubkey_check)
  end.

Definition parse_policy_map_key_info (version : Z) : parser policy_map_key_info :=
  ensure ((version =? WALLET_POLICY_VERSION_V1) || (version =? WALLET_POLICY_VERSION_V2));;
  bracket ← consume_character (chr "[");
  out ← (if (bracket : bool) then parse_key_origin empty_key_info else mret empty_key_info);
  text ← pubkey_loop (Z.to_nat MAX_SERIALIZED_PUBKEY_LENGTH);
  pubkey ← decode_pubkey text;
  let out := mk_key_info (master_key_derivation out) (master_key_fingerprint out)
               (master_key_derivation_len out) (has_key_origin out) false pubkey in
  more ← can_read 1;
  if negb more then
    if version =? WALLET_POLICY_VERSION_V1 then fail else mret out
  else if version =? WALLET_POLICY_VERSION_V2 then fail
  else
    wildcard ← need (read_bytes 3);
    more ← can_read 1;
    ensure (negb more && bool_decide (wildcard = str "/**"));;
    mret (mk_key_info (master_key_derivation out) (master_key_fingerprint out)
            (master_key_derivation_len out) (has_key_origin out) true pubkey).
End key_info.

(** ** The header of a wallet policy *)
Record policy_map_wallet_header := mk_header {
  version : Z;
  name_len : Z;
  descriptor_template_len : Z;
  name : list Z;
  (** the template itself in V1, its hash in V2 *)
  descriptor_template : list Z;
  n_keys : Z;
  keys_info_merkle_root : list Z
}.

Section header.
(** The limit depends on the device. *)
Context (MAX_DESCRIPTOR_TEMPLATE_LENGTH_V2 : Z).

Definition read_wallet_policy_header : parser policy_map_wallet_header :=
  version ← need read_u8;
  ensure ((version =? WALLET_POLICY_VERSION_V1) || (version =? WALLET_POLICY_VERSION_V2));;
  name_len ← need read_u8;
  ensure (negb (MAX_WALLET_NAME_LENGTH <? name_len));;
  name ← need (read_bytes name_len);
  template_len ← need read_varint;
  let descriptor_template_len := u16 template_len in
  descriptor_template ←
    (if version =? WALLET_POLICY_VERSION_V1 then
       ensure (negb (MAX_DESCRIPTOR_TEMPLATE_LENGTH_V1 <? template_len));;
       need (read_bytes descriptor_template_len)
     else
       ensure (negb (MAX_DESCRIPTOR_TEMPLATE_LENGTH_V2 <? template_len));;
       need (read_bytes 32));
  n_keys ← need read_varint;
  ensure (negb (252 <? n_keys));;
  keys_info_merkle_root ← need (read_bytes 32);
  mret (mk_header version name_len descriptor_template_len name descriptor_template
          (u16 n_keys) keys_info_merkle_root).
End header.

(** ** The identifier of a wallet policy *)
Definition get_policy_wallet_id (sha256 : list Z → list Z) (wallet_header : policy_map_wallet_header)
    : outcome (list Z) :=
  let ctx := [version wallet_header; name_len wallet_header] in
  ctx ← crypto_hash_update ctx (name wallet_header) (name_len wallet_header);
  ctx ← crypto_hash_update_varint ctx (descriptor_template_len wallet_header);
  ctx ← (if version wallet_header =? WALLET_POLICY_VERSION_V1 then
           crypto_hash_update ctx (descriptor_template wallet_header) (descriptor_template_len wallet_header)
         else crypto_hash_update ctx (descriptor_template wallet_header) 32);
  ctx ← crypto_hash_update_varint ctx (n_keys wallet_header);
  ctx ← crypto_hash_update ctx (keys_info_merkle_root wallet_header) 32;
  mret (sha256 ctx).
