(* ===== verification/PolicyParser.v ===== *)
(** * Wallet policies: the parser of descriptor templates

    Models [parse_script], [parse_child_scripts], [parse_tree] and
    [parse_descriptor_template] of src/src/common/wallet.c, with one
    definition for each group of tokens.

    The memory that the nodes are allocated in is the output buffer: [alloc]
    fails when the structure does not fit.  The sizes of the structures depend
    on the compiler and are the parameter [abi]; [base] is the address of the
    output buffer.  The nodes that the relative pointers of the code point to
    are in the place of the pointers.

    The recursion of the code is bounded by [fuel]. *)

From Stdlib Require Ascii String.
Import String.StringSyntax Ascii.AsciiSyntax.
From S2P Require Import Prelude Bytes Bip32 Buffer PolicySyntax.

Definition CONTEXT_WITHIN_SH : Z := 1.
Definition CONTEXT_WITHIN_WSH : Z := 2.
Definition CONTEXT_WITHIN_TR : Z := 4.

Definition has_context (context_flags flag : Z) : bool := negb (Z.land context_flags flag =? 0).

(** [sizeof] of the structures. *)
Record abi := mk_abi {
  sizeof_constant : Z;
  sizeof_with_script : Z;
  sizeof_with_script2 : Z;
  sizeof_with_script3 : Z;
  sizeof_with_key : Z;
  sizeof_key_placeholder : Z;
  sizeof_with_uint32 : Z;
  sizeof_multisig : Z;
  sizeof_thresh : Z;
  sizeof_scriptlist : Z;
  sizeof_with_hash_160 : Z;
  sizeof_with_hash_256 : Z;
  sizeof_tree : Z;
  sizeof_tr : Z
}.

(** ** Types of miniscript nodes

    The conditions on the types of the children and the flags of the node, for
    each token; [None] is the error "invalid type". *)
Section types.
Notation B := MINISCRIPT_TYPE_B.
Notation V := MINISCRIPT_TYPE_V.
Notation K := MINISCRIPT_TYPE_K.
Notation W := MINISCRIPT_TYPE_W.

Definition is_ty (f : ms_flags) (t : ms_type) : bool := bool_decide (ty f = t).

Definition andor_flags (X Y Z : ms_flags) : option ms_flags :=
  if negb (is_ty X B) || negb (mod_d X) || negb (mod_u X) then None
  else if negb (is_ty Y (ty Z)) then None
  else if is_ty Y W then None
  else Some (mk_flags (ty Y)
    (mod_z X && mod_z Y && mod_z Z)
    ((mod_z X && mod_o Y && mod_o Z) || (mod_o X && mod_z Y && mod_z Z))
    false (mod_d Z) (mod_u Y && mod_u Z)).

Definition and_v_flags (X Y : ms_flags) : option ms_flags :=
  if negb (is_ty X V) then None
  else if is_ty Y W then None
  else Some (mk_flags (ty Y)
    (mod_z X && mod_z Y)
    ((mod_z X && mod_o Y) || (mod_o X && mod_z Y))
    (mod_n X || (mod_z X && mod_n Y))
    false (mod_u Y)).

Definition and_b_flags (X Y : ms_flags) : option ms_flags :=
  if negb (is_ty X B) || negb (is_ty Y W) then None
  else Some (mk_flags B
    (mod_z X && mod_z Y)
    ((mod_z X && mod_o Y) || (mod_o X && mod_z Y))
    (mod_n X || (mod_z X && mod_n Y))
    (mod_d X && mod_d Y) true).

Definition and_n_flags (X Y : ms_flags) : option ms_flags :=
  if negb (is_ty X B) || negb (mod_d X) || negb (mod_u X) then None
  else if negb (is_ty Y B) then None
  else Some (mk_flags B
    (mod_z X && mod_z Y) (mod_o X && mod_z Y) false true (mod_u Y)).

Definition or_b_flags (X Z : ms_flags) : option ms_flags :=
  if negb (is_ty X B) || negb (mod_d X) then None
  else if negb (is_ty Z W) || negb (mod_d Z) then None
  else Some (mk_flags B
    (mod_z X && mod_z Z)
    ((mod_z X && mod_o Z) || (mod_o X && mod_z Z))
    false true true).

Definition or_c_flags (X Z : ms_flags) : option ms_flags :=
  if negb (is_ty X B) || negb (mod_d X) || negb (mod_u X) then None
  else if negb (is_ty Z V) then None
  else Some (mk_flags V (mod_z X && mod_z Z) (mod_o X && mod_z Z) false false false).

Definition or_d_flags (X Z : ms_flags) : option ms_flags :=
  if negb (is_ty X B) || negb (mod_d X) || negb (mod_u X) then None
  else if negb (is_ty Z B) then None
  else Some (mk_flags B (mod_z X && mod_z Z) (mod_o X && mod_z Z) false (mod_d Z) (mod_u Z)).

Definition or_i_flags (X Z : ms_flags) : option ms_flags :=
  if is_ty X W then None
  else if negb (is_ty X (ty Z)) then None
  else Some (mk_flags (ty X) false (mod_z X && mod_z Z) false (mod_d X || mod_d Z) (mod_u X && mod_u Z)).

(** The checks on a child of thresh, [n] being its number counted from 1. *)
Definition thresh_child_ok (n : Z) (X : ms_flags) : bool :=
  (if n =? 1 then is_ty X B else is_ty X W) && mod_d X && mod_u X.

Definition thresh_flags (n count_z count_o : Z) : ms_flags :=
  mk_flags B (count_z =? n) ((count_z =? n - 1) && (count_o =? 1)) false true true.

Definition key_flags (t : token) : option ms_flags :=
  match t with
  | TOKEN_PK => Some (mk_flags B false true true true true)
  | TOKEN_PKH => Some (mk_flags B false false true true true)
  | TOKEN_PK_K => Some (mk_flags K false true true true true)
  | TOKEN_PK_H => Some (mk_flags K false false true true true)
  | _ => None
  end.

(** The [switch] on the wrapper of the final loop of [parse_script]. *)
Definition wrapper_flags (t : token) (X : ms_flags) : option ms_flags :=
  match t with
  | TOKEN_A => if negb (is_ty X B) then None else Some (mk_flags W false false false (mod_d X) (mod_u X))
  | TOKEN_S =>
      if negb (is_ty X B) || negb (mod_o X) then None
      else Some (mk_flags W false false false (mod_d X) (mod_u X))
  | TOKEN_C => if negb (is_ty X K) then None else Some (mk_flags B false (mod_o X) (mod_n X) (mod_d X) true)
  | TOKEN_T => if negb (is_ty X V) then None else Some (mk_flags B (mod_z X) (mod_o X) (mod_n X) false true)
  | TOKEN_D =>
      if negb (is_ty X V) || negb (mod_z X) then None
      else Some (mk_flags B false true true true false)
  | TOKEN_V => if negb (is_ty X B) then None else Some (mk_flags V (mod_z X) (mod_o X) (mod_n X) false false)
  | TOKEN_J =>
      if negb (is_ty X B) || negb (mod_n X) then None
      else Some (mk_flags B false (mod_o X) true true (mod_u X))
  | TOKEN_N => if negb (is_ty X B) then None else Some (mk_flags B (mod_z X) (mod_o X) (mod_n X) (mod_d X) true)
  | TOKEN_L => if negb (is_ty X B) then None else Some (mk_flags B false (mod_z X) false true (mod_u X))
  | TOKEN_U => if negb (is_ty X B) then None else Some (mk_flags B false (mod_z X) false true (mod_u X))
  | _ => None
  end.
End types.

(** ** Parsing *)
Section parser.
Context (sizeof : abi) (base : Z).

(** [buffer_alloc(out_buf, sz, true)], with a [return -1] when it is NULL. *)
Definition alloc (sz : Z) : parser unit := λ st,
  match buffer_alloc base (out_buf st) sz true with
  | (Some _, b) => Val (Some (tt, mk_parse_state (in_buf st) b))
  | (None, _) => Val None
  end.

(** [buffer_alloc(out_buf, 0, true)], whose result is ignored. *)
Definition align : parser unit := λ st,
  Val (Some (tt, mk_parse_state (in_buf st) (buffer_alloc base (out_buf st) 0 true).2)).

(** [consume_character] with a [return -1] when it is another character. *)
Definition expect (c : Z) : parser unit := ok ← consume_character c; ensure ok.

(** The flags of a child; [return -1] when it is not miniscript. *)
Definition miniscript (X : policy_node) : parser ms_flags :=
  match node_flags X with Some f => mret f | None => fail end.

Definition valid_type (f : option ms_flags) : parser ms_flags :=
  match f with Some f => mret f | None => fail end.

(** *** Wrappers *)
Definition wrapper_token (c : Z) : option token :=
  if c =? chr "a" then Some TOKEN_A
  else if c =? chr "s" then Some TOKEN_S
  else if c =? chr "c" then Some TOKEN_C
  else if c =? chr "t" then Some TOKEN_T
  else if c =? chr "d" then Some TOKEN_D
  else if c =? chr "v" then Some TOKEN_V
  else if c =? chr "j" then Some TOKEN_J
  else if c =? chr "n" then Some TOKEN_N
  else if c =? chr "l" then Some TOKEN_L
  else if c =? chr "u" then Some TOKEN_U
  else None.

(** The look-ahead loop: the number of wrapper characters from position
    [n_wrappers] on, and the character after them if there is one. *)
Fixpoint count_wrappers (fuel : nat) (n_wrappers : Z) : parser (Z * option Z) :=
  match fuel with
  | O => λ _, OutOfFuel
  | S fuel' =>
      c ← peek_n n_wrappers;
      match c with
      | None => mret (n_wrappers, None)
      | Some c =>
          if (chr "a" <=? c) && (c <=? chr "z") &&
             default false (is_valid_miniscript_wrapper !! Z.to_nat (c - chr "a"))
          then count_wrappers fuel' (n_wrappers + 1)
          else mret (n_wrappers, Some c)
      end
  end.

(** The loop that allocates the nodes of the wrappers and reads their letters. *)
Fixpoint read_wrappers (n : nat) : parser (list token) :=
  match n with
  | O => mret []
  | S n' =>
      alloc (sizeof_with_script sizeof);;
      c ← read_u8;
      match wrapper_token (default 0 c) with
      | None => fail
      | Some t => ts ← read_wrappers n'; mret (t :: ts)
      end
  end.

Definition parse_wrappers (context_flags : Z) : parser (list token) :=
  if has_context context_flags CONTEXT_WITHIN_WSH && negb (has_context context_flags CONTEXT_WITHIN_SH) then
    b ← input;
    '(n_wrappers, c) ← count_wrappers (S (remaining b)) 0;
    if bool_decide (c = Some (chr ":")) then
      ts ← read_wrappers (Z.to_nat n_wrappers);
      seek_cur 1;;
      mret ts
    else mret []
  else mret [].

(** The loop over the wrappers, the innermost first. *)
Fixpoint apply_wrappers (wrappers : list token) (node : policy_node) : parser policy_node :=
  match wrappers with
  | [] => mret node
  | t :: wrappers' =>
      node ← apply_wrappers wrappers' node;
      X ← miniscript node;
      f ← valid_type (wrapper_flags t X);
      mret (policy_node_with_script t (Some f) node)
  end.

(** *** The tokens allowed in a context *)
Definition allowed_in_context (t : option token) (depth context_flags : Z) : bool :=
  (negb (has_context context_flags CONTEXT_WITHIN_TR) ||
     match t with Some (TOKEN_PK | TOKEN_MULTI_A | TOKEN_SORTEDMULTI_A) => true | _ => false end) &&
  (negb (has_context context_flags CONTEXT_WITHIN_SH) ||
     match t with
     | Some (TOKEN_PK | TOKEN_PKH | TOKEN_MULTI | TOKEN_SORTEDMULTI | TOKEN_WPKH | TOKEN_WSH) => true
     | _ => false
     end) &&
  (negb (has_context context_flags CONTEXT_WITHIN_SH && has_context context_flags CONTEXT_WITHIN_WSH &&
         (depth =? 2)) ||
     match t with Some (TOKEN_PK | TOKEN_PKH | TOKEN_MULTI | TOKEN_SORTEDMULTI) => true | _ => false end).

Definition has_parentheses (t : option token) : bool :=
  match t with Some (TOKEN_0 | TOKEN_1) => false | _ => true end.

(** *** The cases of the [switch] on the token *)
Definition parse_constant (t : token) : parser policy_node :=
  alloc (sizeof_constant sizeof);;
  mret (policy_node_constant t (Some
    (if decide (t = TOKEN_0) then mk_flags MINISCRIPT_TYPE_B true false false true true
     else mk_flags MINISCRIPT_TYPE_B true false false false true))).

Definition parse_hash_256 (t : token) : parser policy_node :=
  alloc (sizeof_with_hash_256 sizeof);;
  h ← buffer_read_hex_hash 32;
  mret (policy_node_with_hash_256 t (Some (mk_flags MINISCRIPT_TYPE_B false true true true true)) h).

Definition parse_hash_160 (t : token) : parser policy_node :=
  alloc (sizeof_with_hash_160 sizeof);;
  h ← buffer_read_hex_hash 20;
  mret (policy_node_with_hash_160 t (Some (mk_flags MINISCRIPT_TYPE_B false true true true true)) h).

Definition parse_key (version : Z) (t : token) (depth context_flags : Z) : parser policy_node :=
  alloc (sizeof_with_key sizeof);;
  alloc (sizeof_key_placeholder sizeof);;
  ensure (negb (bool_decide (t = TOKEN_WPKH) && (0 <? depth) &&
                negb (has_context context_flags CONTEXT_WITHIN_SH)));;
  kp ← parse_placeholder version;
  mret (policy_node_with_key t (key_flags t) kp).

Definition parse_timelock (t : token) : parser policy_node :=
  alloc (sizeof_with_uint32 sizeof);;
  n ← parse_unsigned_decimal;
  ensure (negb ((n <? 1) || (2 ^ 31 <=? n)));;
  mret (policy_node_with_uint32 t (Some (mk_flags MINISCRIPT_TYPE_B true false false false false)) n).

(** The loop over the key placeholders of a multisig. *)
Fixpoint multisig_loop (fuel : nat) (version : Z) : parser (list policy_node_key_placeholder) :=
  match fuel with
  | O => λ _, OutOfFuel
  | S fuel' =>
      c ← peek;
      if bool_decide (c = Some (chr ")")) then mret []
      else
        expect (chr ",");;
        alloc (sizeof_key_placeholder sizeof);;
        kp ← parse_placeholder version;
        kps ← multisig_loop fuel' version;
        mret (kp :: kps)
  end.

(** The counter of the keys is an int16_t; a template, of less than 2^16
    characters, has too few keys for a wrap-around. *)
Definition parse_multisig (version : Z) (t : token) (depth context_flags : Z) : parser policy_node :=
  alloc (sizeof_multisig sizeof);;
  let n_sh_wrappers :=
    Z.b2z (has_context context_flags CONTEXT_WITHIN_SH) + Z.b2z (has_context context_flags CONTEXT_WITHIN_WSH) in
  ensure (negb (bool_decide (t = TOKEN_SORTEDMULTI) && negb (depth =? n_sh_wrappers)));;
  k ← parse_unsigned_decimal;
  ensure (negb (INT16_MAX <? k));;
  align;;
  b ← input;
  kps ← multisig_loop (S (remaining b)) version;
  ensure ((1 <=? k) && (k <=? zlen kps) && (zlen kps <=? MAX_PUBKEYS_PER_MULTISIG));;
  mret (policy_node_multisig t
    (if decide (t = TOKEN_SORTEDMULTI) then None
     else Some (mk_flags MINISCRIPT_TYPE_B false false true true true)) k kps).

(** *** The recursive cases

    [parse_script] and [parse_tree] are the functions for the parts of the
    expression, at a given depth and with given context flags. *)
Section cases.
Context (version : Z).
Context (parse_script : Z → Z → parser policy_node) (parse_tree : Z → parser policy_node_tree).

Fixpoint parse_child_scripts (n_children : nat) (depth context_flags : Z) : parser (list policy_node) :=
  match n_children with
  | O => mret []
  | S n' =>
      align;;
      child ← parse_script (depth + 1) context_flags;
      match n' with O => mret tt | S _ => expect (chr ",") end;;
      children ← parse_child_scripts n' depth context_flags;
      mret (child :: children)
  end.

Definition parse_child_scripts2 (depth context_flags : Z) : parser (policy_node * policy_node) :=
  l ← parse_child_scripts 2 depth context_flags;
  match l with [x; y] => mret (x, y) | _ => fail end.

Definition parse_sh_wsh (t : token) (depth context_flags : Z) : parser policy_node :=
  ensure (if decide (t = TOKEN_SH) then depth =? 0
          else (depth =? 0) || has_context context_flags CONTEXT_WITHIN_SH);;
  alloc (sizeof_with_script sizeof);;
  align;;
  script ← parse_script (depth + 1)
             (Z.lor context_flags (if decide (t = TOKEN_SH) then CONTEXT_WITHIN_SH else CONTEXT_WITHIN_WSH));
  mret (policy_node_with_script t None script).

Definition parse_andor (depth context_flags : Z) : parser policy_node :=
  alloc (sizeof_with_script3 sizeof);;
  l ← parse_child_scripts 3 depth context_flags;
  match l with
  | [x; y; z] =>
      X ← miniscript x;
      Y ← miniscript y;
      Z ← miniscript z;
      f ← valid_type (andor_flags X Y Z);
      mret (policy_node_with_script3 TOKEN_ANDOR (Some f) x y z)
  | _ => fail
  end.

(** The cases with two children share their code, except for the types. *)
Definition parse_binary (t : token) (flags : ms_flags → ms_flags → option ms_flags) (depth context_flags : Z)
    : parser policy_node :=
  alloc (sizeof_with_script2 sizeof);;
  '(x, y) ← parse_child_scripts2 depth context_flags;
  X ← miniscript x;
  Y ← miniscript y;
  f ← valid_type (flags X Y);
  mret (policy_node_with_script2 t (Some f) x y).

Definition parse_and_v := parse_binary TOKEN_AND_V and_v_flags.
Definition parse_and_b := parse_binary TOKEN_AND_B and_b_flags.
Definition parse_and_n := parse_binary TOKEN_AND_N and_n_flags.
Definition parse_or_b := parse_binary TOKEN_OR_B or_b_flags.
Definition parse_or_c := parse_binary TOKEN_OR_C or_c_flags.
Definition parse_or_d := parse_binary TOKEN_OR_D or_d_flags.
Definition parse_or_i := parse_binary TOKEN_OR_I or_i_flags.

(** The loop over the children of thresh: the ones before the current one are
    counted by [n], [count_z] and [count_o]. *)
Fixpoint thresh_loop (fuel : nat) (depth context_flags n count_z count_o : Z)
    : parser (list policy_node * Z * Z) :=
  match fuel with
  | O => λ _, OutOfFuel
  | S fuel' =>
      let n := n + 1 in
      align;;
      script ← parse_script (depth + 1) context_flags;
      X ← miniscript script;
      ensure (thresh_child_ok n X);;
      let count_z := count_z + Z.b2z (mod_z X) in
      let count_o := count_o + Z.b2z (mod_o X) in
      comma ← consume_character (chr ",");
      if (comma : bool) then
        alloc (sizeof_scriptlist sizeof);;
        '(scripts, count_z, count_o) ← thresh_loop fuel' depth context_flags n count_z count_o;
        mret (script :: scripts, count_z, count_o)
      else mret ([script], count_z, count_o)
  end.

Definition parse_thresh (depth context_flags : Z) : parser policy_node :=
  alloc (sizeof_thresh sizeof);;
  k ← parse_unsigned_decimal;
  ensure (negb (INT16_MAX <? k));;
  expect (chr ",");;
  ensure (negb (k <? 1));;
  alloc (sizeof_scriptlist sizeof);;
  b ← input;
  '(scripts, count_z, count_o) ← thresh_loop (S (remaining b)) depth context_flags 0 0 0;
  mret (policy_node_thresh TOKEN_THRESH (Some (thresh_flags (zlen scripts) count_z count_o)) k scripts).

Definition parse_tr (depth : Z) : parser policy_node :=
  ensure (negb (1 <? depth));;
  alloc (sizeof_tr sizeof);;
  alloc (sizeof_key_placeholder sizeof);;
  kp ← parse_placeholder version;
  c ← need peek;
  if c =? chr "," then
    seek_cur 1;;
    align;;
    tree ← parse_tree (depth + 1);
    mret (policy_node_tr TOKEN_TR None kp (Some tree))
  else
    ensure (c =? chr ")");;
    mret (policy_node_tr TOKEN_TR None kp None).

(** The [switch] on the token. *)
Definition parse_fragment (t : option token) (depth context_flags : Z) : parser policy_node :=
  match t with
  | Some (TOKEN_0 as t) | Some (TOKEN_1 as t) => parse_constant t
  | Some (TOKEN_SH as t) | Some (TOKEN_WSH as t) => parse_sh_wsh t depth context_flags
  | Some (TOKEN_SHA256 as t) | Some (TOKEN_HASH256 as t) => parse_hash_256 t
  | Some (TOKEN_RIPEMD160 as t) | Some (TOKEN_HASH160 as t) => parse_hash_160 t
  | Some TOKEN_ANDOR => parse_andor depth context_flags
  | Some TOKEN_AND_V => parse_and_v depth context_flags
  | Some TOKEN_AND_B => parse_and_b depth context_flags
  | Some TOKEN_AND_N => parse_and_n depth context_flags
  | Some TOKEN_OR_B => parse_or_b depth context_flags
  | Some TOKEN_OR_C => parse_or_c depth context_flags
  | Some TOKEN_OR_D => parse_or_d depth context_flags
  | Some TOKEN_OR_I => parse_or_i depth context_flags
  | Some TOKEN_THRESH => parse_thresh depth context_flags
  | Some (TOKEN_PK as t) | Some (TOKEN_PKH as t) | Some (TOKEN_PK_K as t) | Some (TOKEN_PK_H as t)
  | Some (TOKEN_WPKH as t) => parse_key version t depth context_flags
  | Some TOKEN_TR => parse_tr depth
  | Some (TOKEN_OLDER as t) | Some (TOKEN_AFTER as t) => parse_timelock t
  | Some (TOKEN_MULTI as t) | Some (TOKEN_MULTI_A as t) | Some (TOKEN_SORTEDMULTI as t)
  | Some (TOKEN_SORTEDMULTI_A as t) => parse_multisig version t depth context_flags
  | _ => fail
  end.

Definition parse_script_body (depth context_flags : Z) : parser policy_node :=
  wrappers ← parse_wrappers context_flags;
  t ← parse_token;
  ensure (allowed_in_context t depth context_flags);;
  (if has_parentheses t then expect (chr "(") else mret tt);;
  node ← parse_fragment t depth context_flags;
  (if has_parentheses t then expect (chr ")") else mret tt);;
  more ← can_read 1;
  ensure (negb ((depth =? 0) && more));;
  apply_wrappers wrappers node.

Definition parse_tree_body (depth : Z) : parser policy_node_tree :=
  ensure (negb (MAX_TAPTREE_POLICY_DEPTH <? depth));;
  (λ st, ensure (buffer_is_cur_aligned base (out_buf st)) st);;
  alloc (sizeof_tree sizeof);;
  c ← need peek;
  if negb (c =? chr "{") then
    align;;
    script ← parse_script (depth + 1) CONTEXT_WITHIN_TR;
    mret (tree_leaf script)
  else
    seek_cur 1;;
    align;;
    left_tree ← parse_tree (depth + 1);
    expect (chr ",");;
    align;;
    right_tree ← parse_tree (depth + 1);
    expect (chr "}");;
    mret (tree_node left_tree right_tree).
End cases.

(** *** The recursive functions *)
Fixpoint parse_script (fuel : nat) (version depth context_flags : Z) : parser policy_node :=
  match fuel with
  | O => λ _, OutOfFuel
  | S fuel' =>
      parse_script_body version (parse_script fuel' version) (parse_tree fuel' version) depth context_flags
  end
with parse_tree (fuel : nat) (version depth : Z) : parser policy_node_tree :=
  match fuel with
  | O => λ _, OutOfFuel
  | S fuel' => parse_tree_body (parse_script fuel' version) (parse_tree fuel' version) depth
  end.

(** Every call of [parse_script] or [parse_tree] below another one has fewer
    characters left, except for the script of a leaf of a tree. *)
Definition enough_fuel (b : buffer) : nat := 2 * remaining b + 2.

(** [None] is a negative result; otherwise the syntax tree. *)
Definition parse_descriptor_template (in_ : buffer) (out : list Z) (out_len version : Z)
    : outcome (option policy_node) :=
  if negb (base `mod` 4 =? 0) then Val None
  else if negb ((version =? WALLET_POLICY_VERSION_V1) || (version =? WALLET_POLICY_VERSION_V2)) then Val None
  else
    mbind (M := outcome) (λ r : option (policy_node * parse_state), Val (fst <$> r))
      (parse_script (enough_fuel in_) version 0 0 (mk_parse_state in_ (buffer_create out out_len))).
End parser.

Definition get_policy_segwit_version (policy : policy_node) : Z :=
  match node_type policy with
  | TOKEN_TR => 1
  | TOKEN_SH =>
      match policy with
      | policy_node_with_script _ _ inner =>
          match node_type inner with TOKEN_WPKH | TOKEN_WSH => 0 | _ => -1 end
      | _ => -1
      end
  | TOKEN_WPKH | TOKEN_WSH => 0
  | _ => -1
  end.

(** ** Evaluation on concrete templates *)
Definition sample_abi : abi := mk_abi 4 4 6 8 8 12 8 12 12 8 24 36 6 12.

Definition parse_string (s : String.string) : outcome (option policy_node) :=
  let l := str s in
  parse_descriptor_template sample_abi 0 (buffer_create l (zlen l)) (replicate 768 0) 768 2.
Arguments parse_string s%_string_scope.
