(* ===== verification/PolicyScript.v ===== *)
(** * Wallet policies: scripts

    Models the generation of scripts of src/src/handler/lib/policy.c: the
    public keys of a policy, obtained from the host and derived; the stack
    machine that emits the script of an expression without recursion
    ([get_wallet_internal_script_hash] and its processors); the taptrees and
    the output script of a policy ([get_wallet_script]).

    A hash context is the list of the bytes hashed so far.  Arrays that are not
    initialised hold the values of the record [junk]. *)

From S2P Require Import Prelude Bytes Bip32 Buffer Merkle Dispatcher MerkleClient Script Base58 Crypto PolicySyntax PolicyParser.

(** ** More opcodes of common/script.h *)
Definition OP_IF : Z := 0x63.
Definition OP_NOTIF : Z := 0x64.
Definition OP_ELSE : Z := 0x67.
Definition OP_ENDIF : Z := 0x68.
Definition OP_VERIFY : Z := 0x69.
Definition OP_TOALTSTACK : Z := 0x6b.
Definition OP_FROMALTSTACK : Z := 0x6c.
Definition OP_IFDUP : Z := 0x73.
Definition OP_SWAP : Z := 0x7c.
Definition OP_SIZE : Z := 0x82.
Definition OP_0NOTEQUAL : Z := 0x92.
Definition OP_ADD : Z := 0x93.
Definition OP_BOOLAND : Z := 0x9a.
Definition OP_BOOLOR : Z := 0x9b.
Definition OP_NUMEQUAL : Z := 0x9c.
Definition OP_RIPEMD160 : Z := 0xa6.
Definition OP_SHA256 : Z := 0xa8.
Definition OP_HASH256 : Z := 0xaa.
Definition OP_CHECKMULTISIG : Z := 0xae.
Definition OP_CLTV : Z := 0xb1.
Definition OP_CSV : Z := 0xb2.
Definition OP_CHECKSIGADD : Z := 0xba.

Definition MAX_POLICY_DEPTH : Z := 10.
Definition MAX_POLICY_KEY_INFO_LEN : Z := 46 + MAX_SERIALIZED_PUBKEY_LENGTH + 3.

(** ** Structures *)
Record wallet_derivation_info := mk_wdi {
  wallet_version : Z;
  keys_merkle_root : list Z;
  wdi_n_keys : Z;
  wdi_address_index : Z;
  wdi_change : bool
}.

Inductive internal_script_type : Set :=
| WRAPPED_SCRIPT_TYPE_SH
| WRAPPED_SCRIPT_TYPE_WSH
| WRAPPED_SCRIPT_TYPE_SH_WSH
| WRAPPED_SCRIPT_TYPE_TAPSCRIPT.

Global Instance internal_script_type_eq_dec : EqDecision internal_script_type.
Proof. solve_decision. Defined.

(** The contents of the uninitialised arrays [key_info_str],
    [ext_pubkey_check], [K_par] and of the second byte of [used]. *)
Record junk := mk_junk {
  junk_key_info : list Z;
  junk_check : list Z;
  junk_point : list Z;
  junk_used : Z
}.

(** ** The commands of the generic processor *)
Inductive generic_processor_command : Set :=
| CMD_CODE_OP (data : Z)
| CMD_CODE_OP_V (data : Z)
| CMD_CODE_PUSH_PK
| CMD_CODE_PUSH_PKH
| CMD_CODE_PUSH_UINT32
| CMD_CODE_PUSH_HASH20
| CMD_CODE_PUSH_HASH32
| CMD_CODE_PROCESS_CHILD (data : nat)
| CMD_CODE_PROCESS_CHILD_V (data : nat)
| CMD_CODE_PROCESS_CHILD_VV (data : nat).

Definition commands_0 := [CMD_CODE_OP_V OP_0].
Definition commands_1 := [CMD_CODE_OP_V OP_1].
Definition commands_pk_k := [CMD_CODE_PUSH_PK].
Definition commands_pk_h :=
  [CMD_CODE_OP OP_DUP; CMD_CODE_OP OP_HASH160; CMD_CODE_PUSH_PKH; CMD_CODE_OP OP_EQUALVERIFY].
Definition commands_pk := [CMD_CODE_PUSH_PK; CMD_CODE_OP_V OP_CHECKSIG].
Definition commands_older := [CMD_CODE_PUSH_UINT32; CMD_CODE_OP_V OP_CSV].
Definition commands_after := [CMD_CODE_PUSH_UINT32; CMD_CODE_OP_V OP_CLTV].
Definition commands_sha256 :=
  [CMD_CODE_OP OP_SIZE; CMD_CODE_OP 1; CMD_CODE_OP 32; CMD_CODE_OP OP_EQUALVERIFY;
   CMD_CODE_OP OP_SHA256; CMD_CODE_PUSH_HASH32; CMD_CODE_OP_V OP_EQUAL].
Definition commands_hash256 :=
  [CMD_CODE_OP OP_SIZE; CMD_CODE_OP 1; CMD_CODE_OP 32; CMD_CODE_OP OP_EQUALVERIFY;
   CMD_CODE_OP OP_HASH256; CMD_CODE_PUSH_HASH32; CMD_CODE_OP_V OP_EQUAL].
Definition commands_ripemd160 :=
  [CMD_CODE_OP OP_SIZE; CMD_CODE_OP 1; CMD_CODE_OP 32; CMD_CODE_OP OP_EQUALVERIFY;
   CMD_CODE_OP OP_RIPEMD160; CMD_CODE_PUSH_HASH20; CMD_CODE_OP_V OP_EQUAL].
Definition commands_hash160 :=
  [CMD_CODE_OP OP_SIZE; CMD_CODE_OP 1; CMD_CODE_OP 32; CMD_CODE_OP OP_EQUALVERIFY;
   CMD_CODE_OP OP_HASH160; CMD_CODE_PUSH_HASH20; CMD_CODE_OP_V OP_EQUAL].
Definition commands_andor :=
  [CMD_CODE_PROCESS_CHILD 0; CMD_CODE_OP OP_NOTIF; CMD_CODE_PROCESS_CHILD 2; CMD_CODE_OP OP_ELSE;
   CMD_CODE_PROCESS_CHILD 1; CMD_CODE_OP_V OP_ENDIF].
Definition commands_and_v := [CMD_CODE_PROCESS_CHILD 0; CMD_CODE_PROCESS_CHILD_V 1].
Definition commands_and_b :=
  [CMD_CODE_PROCESS_CHILD 0; CMD_CODE_PROCESS_CHILD 1; CMD_CODE_OP_V OP_BOOLAND].
Definition commands_and_n :=
  [CMD_CODE_PROCESS_CHILD 0; CMD_CODE_OP OP_NOTIF; CMD_CODE_OP OP_0; CMD_CODE_OP OP_ELSE;
   CMD_CODE_PROCESS_CHILD 1; CMD_CODE_OP_V OP_ENDIF].
Definition commands_or_b :=
  [CMD_CODE_PROCESS_CHILD 0; CMD_CODE_PROCESS_CHILD 1; CMD_CODE_OP_V OP_BOOLOR].
Definition commands_or_c :=
  [CMD_CODE_PROCESS_CHILD 0; CMD_CODE_OP OP_NOTIF; CMD_CODE_PROCESS_CHILD 1; CMD_CODE_OP_V OP_ENDIF].
Definition commands_or_d :=
  [CMD_CODE_PROCESS_CHILD 0; CMD_CODE_OP OP_IFDUP; CMD_CODE_OP OP_NOTIF; CMD_CODE_PROCESS_CHILD 1;
   CMD_CODE_OP_V OP_ENDIF].
Definition commands_or_i :=
  [CMD_CODE_OP OP_IF; CMD_CODE_PROCESS_CHILD 0; CMD_CODE_OP OP_ELSE; CMD_CODE_PROCESS_CHILD 1;
   CMD_CODE_OP_V OP_ENDIF].
Definition commands_a :=
  [CMD_CODE_OP OP_TOALTSTACK; CMD_CODE_PROCESS_CHILD 0; CMD_CODE_OP OP_FROMALTSTACK].
Definition commands_s := [CMD_CODE_OP OP_SWAP; CMD_CODE_PROCESS_CHILD 0].
Definition commands_c := [CMD_CODE_PROCESS_CHILD 0; CMD_CODE_OP_V OP_CHECKSIG].
Definition commands_t := [CMD_CODE_PROCESS_CHILD 0; CMD_CODE_OP_V OP_1].
Definition commands_d :=
  [CMD_CODE_OP OP_DUP; CMD_CODE_OP OP_IF; CMD_CODE_PROCESS_CHILD 0; CMD_CODE_OP_V OP_ENDIF].
Definition commands_v := [CMD_CODE_PROCESS_CHILD_VV 0].
Definition commands_j :=
  [CMD_CODE_OP OP_SIZE; CMD_CODE_OP OP_0NOTEQUAL; CMD_CODE_OP OP_IF; CMD_CODE_PROCESS_CHILD 0;
   CMD_CODE_OP_V OP_ENDIF].
Definition commands_n := [CMD_CODE_PROCESS_CHILD 0; CMD_CODE_OP_V OP_0NOTEQUAL].
Definition commands_l :=
  [CMD_CODE_OP OP_IF; CMD_CODE_OP OP_0; CMD_CODE_OP OP_ELSE; CMD_CODE_PROCESS_CHILD 0;
   CMD_CODE_OP_V OP_ENDIF].
Definition commands_u :=
  [CMD_CODE_OP OP_IF; CMD_CODE_PROCESS_CHILD 0; CMD_CODE_OP OP_ELSE; CMD_CODE_OP OP_0;
   CMD_CODE_OP_V OP_ENDIF].

(** The [switch]: the commands of the nodes that the generic processor
    handles. *)
Definition commands_of (t : token) : option (list generic_processor_command) :=
  match t with
  | TOKEN_0 => Some commands_0
  | TOKEN_1 => Some commands_1
  | TOKEN_PK_K => Some commands_pk_k
  | TOKEN_PK_H => Some commands_pk_h
  | TOKEN_PK => Some commands_pk
  | TOKEN_OLDER => Some commands_older
  | TOKEN_AFTER => Some commands_after
  | TOKEN_SHA256 => Some commands_sha256
  | TOKEN_HASH256 => Some commands_hash256
  | TOKEN_RIPEMD160 => Some commands_ripemd160
  | TOKEN_HASH160 => Some commands_hash160
  | TOKEN_ANDOR => Some commands_andor
  | TOKEN_AND_V => Some commands_and_v
  | TOKEN_AND_B => Some commands_and_b
  | TOKEN_AND_N => Some commands_and_n
  | TOKEN_OR_B => Some commands_or_b
  | TOKEN_OR_C => Some commands_or_c
  | TOKEN_OR_D => Some commands_or_d
  | TOKEN_OR_I => Some commands_or_i
  | TOKEN_A => Some commands_a
  | TOKEN_S => Some commands_s
  | TOKEN_C => Some commands_c
  | TOKEN_T => Some commands_t
  | TOKEN_D => Some commands_d
  | TOKEN_V => Some commands_v
  | TOKEN_J => Some commands_j
  | TOKEN_N => Some commands_n
  | TOKEN_L => Some commands_l
  | TOKEN_U => Some commands_u
  | _ => None
  end.

(** ** The whitelists *)
Definition fragment_whitelist_sh : list token := [TOKEN_WPKH; TOKEN_MULTI; TOKEN_SORTEDMULTI].
Definition fragment_whitelist_sh_wsh : list token := [TOKEN_MULTI; TOKEN_SORTEDMULTI].
Definition fragment_whitelist_wsh : list token :=
  [TOKEN_0; TOKEN_1; TOKEN_PK; TOKEN_PKH; TOKEN_PK_K; TOKEN_PK_H; TOKEN_OLDER; TOKEN_AFTER;
   TOKEN_SHA256; TOKEN_HASH256; TOKEN_RIPEMD160; TOKEN_HASH160; TOKEN_ANDOR; TOKEN_AND_V;
   TOKEN_AND_B; TOKEN_AND_N; TOKEN_MULTI; TOKEN_OR_B; TOKEN_OR_C; TOKEN_OR_D; TOKEN_OR_I;
   TOKEN_SORTEDMULTI; TOKEN_THRESH; TOKEN_A; TOKEN_S; TOKEN_C; TOKEN_T; TOKEN_D; TOKEN_V; TOKEN_J;
   TOKEN_N; TOKEN_L; TOKEN_U].
Definition fragment_whitelist_tapscript : list token := [TOKEN_PK; TOKEN_MULTI_A; TOKEN_SORTEDMULTI_A].

Definition whitelist_of (script_type : internal_script_type) : list token :=
  match script_type with
  | WRAPPED_SCRIPT_TYPE_SH => fragment_whitelist_sh
  | WRAPPED_SCRIPT_TYPE_SH_WSH => fragment_whitelist_sh_wsh
  | WRAPPED_SCRIPT_TYPE_WSH => fragment_whitelist_wsh
  | WRAPPED_SCRIPT_TYPE_TAPSCRIPT => fragment_whitelist_tapscript
  end.

(** ** State of the machine

    The stack of nodes has the node being processed first; [ps_out] is the hash
    context, or [None] when only the length of the script is wanted. *)
Record policy_parser_node_state := mk_node_state {
  ns_node : policy_node;
  ns_length : Z;
  ns_step : Z;
  ns_flags : Z
}.

Record policy_parser_state := mk_parser_state {
  ps_nodes : list policy_parser_node_state;
  ps_out : option (list Z)
}.

Definition PROCESSOR_FLAG_V : Z := 1.

(** Code that changes the state of the machine and exchanges data with the
    host. *)
Definition gen (A : Type) : Type := policy_parser_state → io (A * policy_parser_state).
Global Instance gen_ret : MRet gen := λ A a s, mret (a, s).
Global Instance gen_bind : MBind gen := λ A B f m s, r ← m s; f r.1 r.2.

Definition gen_undef {A} : gen A := λ _ _, Undef.
Definition from_io {A} (m : io A) : gen A := λ s, a ← m; mret (a, s).
Definition get_state : gen policy_parser_state := λ s, mret (s, s).
Definition put_state (s : policy_parser_state) : gen () := λ _, mret ((), s).

(** The node being processed; there is always one. *)
Definition top : gen policy_parser_node_state :=
  s ← get_state; match ps_nodes s with n :: _ => mret n | [] => gen_undef end.
Definition set_top (n : policy_parser_node_state) : gen () :=
  s ← get_state;
  match ps_nodes s with _ :: ns => put_state (mk_parser_state (n :: ns) (ps_out s)) | [] => gen_undef end.

Definition state_stack_push (n : policy_node) (f : Z) : gen Z :=
  s ← get_state;
  if MAX_POLICY_DEPTH <=? zlen (ps_nodes s) then mret (-1)
  else put_state (mk_parser_state (mk_node_state n 0 0 f :: ps_nodes s) (ps_out s));; mret 0.

Definition state_stack_pop : gen Z :=
  s ← get_state;
  match ps_nodes s with
  | [] => mret (-1)
  | [n] => put_state (mk_parser_state [] (ps_out s));; mret (ns_length n)
  | n :: p :: ns =>
      put_state (mk_parser_state
        (mk_node_state (ns_node p) (u16 (ns_length p + ns_length n)) (ns_step p) (ns_flags p) :: ns) (ps_out s));;
      mret (ns_length n)
  end.

(** ** Output *)
Definition update_output (data : list Z) : gen () :=
  n ← top;
  set_top (mk_node_state (ns_node n) (u16 (ns_length n + zlen data)) (ns_step n) (ns_flags n));;
  s ← get_state;
  put_state (mk_parser_state (ps_nodes s) ((λ o, o ++ data) <$> ps_out s)).

Definition update_output_u8 (data : Z) : gen () := update_output [u8 data].

Definition update_output_push_u32 (n : Z) : gen () :=
  if n =? 0 then update_output_u8 OP_0
  else if n <=? 16 then update_output_u8 (0x50 + n)
  else
    let n_le := le_bytes 4 n in
    let byte_size := if n <=? 0x7f then 1 else if n <=? 0x7fff then 2 else if n <=? 0x7fffff then 3
                     else if n <=? 0x7fffffff then 4 else 5 in
    update_output_u8 byte_size;;
    if byte_size <? 5 then update_output (take (Z.to_nat byte_size) n_le)
    else update_output n_le;; update_output_u8 0.

Definition update_output_op_v (op : Z) : gen () :=
  n ← top;
  if negb (Z.land (ns_flags n) PROCESSOR_FLAG_V =? 0) then
    if (op =? OP_CHECKSIG) || (op =? OP_CHECKMULTISIG) || (op =? OP_NUMEQUAL) || (op =? OP_EQUAL)
    then update_output_u8 (op + 1)
    else update_output_u8 op;; update_output_u8 OP_VERIFY
  else update_output_u8 op.

(** [++node->step] for the node that is at depth [d] of the stack. *)
Fixpoint bump_at (d : nat) (ns : list policy_parser_node_state) : list policy_parser_node_state :=
  match d, ns with
  | _, [] => []
  | O, n :: ns' => mk_node_state (ns_node n) (ns_length n) (u8 (ns_step n + 1)) (ns_flags n) :: ns'
  | S d', n :: ns' => n :: bump_at d' ns'
  end.
Definition bump_step (d : nat) : gen () :=
  s ← get_state; put_state (mk_parser_state (bump_at d (ps_nodes s)) (ps_out s)).

(** [policy->scripts[i]]. *)
Definition child_script (n : policy_node) (i : nat) : option policy_node :=
  match n, i with
  | policy_node_with_script _ _ x, O => Some x
  | policy_node_with_script2 _ _ x _, O => Some x
  | policy_node_with_script2 _ _ _ y, S O => Some y
  | policy_node_with_script3 _ _ x _ _, O => Some x
  | policy_node_with_script3 _ _ _ y _, S O => Some y
  | policy_node_with_script3 _ _ _ _ z, S (S O) => Some z
  | _, _ => None
  end.

(** The byte-wise comparison of arrays of length [n]. *)
Fixpoint cmp_arrays (a b : list Z) : Z :=
  match a, b with
  | x :: a', y :: b' => if negb (x - y =? 0) then x - y else cmp_arrays a' b'
  | _, _ => 0
  end.

Section script.
Context (os : sdk) (J : junk).
Local Notation sha256 := (cx_sha256 os).

(** ** Public keys *)

(** [None] is the result -1; otherwise the key and whether it has a wildcard.
    A negative length other than -1 is used as the size of the buffer. *)
Definition get_extended_pubkey (wdi : wallet_derivation_info) (key_index : Z)
    : io (option (serialized_extended_pubkey * bool)) :=
  '(key_info_len, key_info_str) ←
    call_get_merkle_leaf_element sha256 (keys_merkle_root wdi) (wdi_n_keys wdi) key_index (junk_key_info J);
  if key_info_len =? -1 then mret None
  else
    r ← lift (parse_policy_map_key_info sha256 (junk_check J) (wallet_version wdi)
                (mk_parse_state (buffer_create key_info_str (size_t key_info_len)) (buffer_create [] 0)));
    mret ((λ '(key_info, _), (xpub_of_bytes (ext_pubkey key_info), has_wildcard key_info)) <$> r).

(** The results of the derivations are not checked. *)
Definition get_derived_pubkey (wdi : wallet_derivation_info) (kp : policy_node_key_placeholder)
    : io (option (list Z)) :=
  r ← get_extended_pubkey wdi (key_index kp);
  match r with
  | None => mret None
  | Some (ext_pubkey, _) =>
      let '(_, ext_pubkey) := bip32_CKDpub os (junk_point J) ext_pubkey
                                (if wdi_change wdi then num_second kp else num_first kp) ext_pubkey in
      let '(_, ext_pubkey) := bip32_CKDpub os (junk_point J) ext_pubkey (wdi_address_index wdi) ext_pubkey in
      mret (Some (compressed_pubkey ext_pubkey))
  end.

(** ** The processors

    They return a negative number for an error, 0 when the node is not done and
    1 when it is.  [derive_key] is the derivation of a key of the wallet,
    [get_derived_pubkey] for the parameters [wdi] of the state. *)
Section machine.
Context (derive_key : policy_node_key_placeholder → io (option (list Z))) (is_taproot : bool).

Definition derive (kp : policy_node_key_placeholder) : gen (option (list Z)) := from_io (derive_key kp).

(** One command; a negative number is an error. *)
Definition run_command (c : generic_processor_command) : gen Z :=
  n ← top;
  match c with
  | CMD_CODE_OP data => update_output_u8 data;; mret 0
  | CMD_CODE_OP_V data => update_output_op_v data;; mret 0
  | CMD_CODE_PUSH_PK =>
      match ns_node n with
      | policy_node_with_key _ _ kp =>
          r ← derive kp;
          match r with
          | None => mret (-1)
          | Some compressed_pubkey =>
              (if negb is_taproot
               then update_output_u8 33;; update_output compressed_pubkey
               else update_output_u8 32;; update_output (drop 1 compressed_pubkey));;
              mret 0
          end
      | _ => gen_undef
      end
  | CMD_CODE_PUSH_PKH =>
      match ns_node n with
      | policy_node_with_key _ _ kp =>
          r ← derive kp;
          match r with
          | None => mret (-1)
          | Some compressed_pubkey =>
              update_output_u8 20;; update_output (crypto_hash160 os compressed_pubkey);; mret 0
          end
      | _ => gen_undef
      end
  | CMD_CODE_PUSH_UINT32 =>
      match ns_node n with
      | policy_node_with_uint32 _ _ v => update_output_push_u32 v;; mret 0
      | _ => gen_undef
      end
  | CMD_CODE_PUSH_HASH20 =>
      match ns_node n with
      | policy_node_with_hash_160 _ _ h => update_output_u8 20;; update_output h;; mret 0
      | _ => gen_undef
      end
  | CMD_CODE_PUSH_HASH32 =>
      match ns_node n with
      | policy_node_with_hash_256 _ _ h => update_output_u8 32;; update_output h;; mret 0
      | _ => gen_undef
      end
  | CMD_CODE_PROCESS_CHILD i =>
      match child_script (ns_node n) i with
      | Some x => state_stack_push x 0
      | None => gen_undef
      end
  | CMD_CODE_PROCESS_CHILD_V i =>
      match child_script (ns_node n) i with
      | Some x => state_stack_push x (ns_flags n)
      | None => gen_undef
      end
  | CMD_CODE_PROCESS_CHILD_VV i =>
      match child_script (ns_node n) i with
      | Some x => state_stack_push x (Z.lor (ns_flags n) PROCESSOR_FLAG_V)
      | None => gen_undef
      end
  end.

(** Whether the command pushes a node above the one being processed. *)
Definition pushes (c : generic_processor_command) : nat :=
  match c with
  | CMD_CODE_PROCESS_CHILD _ | CMD_CODE_PROCESS_CHILD_V _ | CMD_CODE_PROCESS_CHILD_VV _ => 1
  | _ => 0
  end.

Definition process_generic_node (commands : list generic_processor_command) : gen Z :=
  n ← top;
  if zlen commands <? ns_step n then mret (-1)
  else
    match commands !! Z.to_nat (ns_step n) with
    | None => mret 1
    | Some c =>
        ret ← run_command c;
        if ret <? 0 then mret ret else bump_step (pushes c);; mret 0
    end.

Definition process_pkh_wpkh_node : gen Z :=
  n ← top;
  if negb (ns_step n =? 0) then mret (-1)
  else
    match ns_node n with
    | policy_node_with_key t _ kp =>
        r ← derive kp;
        match r with
        | None => mret (-1)
        | Some compressed_pubkey =>
            (if bool_decide (t = TOKEN_PKH) then
               update_output_u8 OP_DUP;; update_output_u8 OP_HASH160;; update_output_u8 20;;
               update_output (crypto_hash160 os compressed_pubkey);; update_output_u8 OP_EQUALVERIFY;;
               update_output_op_v OP_CHECKSIG
             else
               update_output_u8 OP_0;; update_output_u8 20;;
               update_output (crypto_hash160 os compressed_pubkey));;
            mret 1
        end
    | _ => gen_undef
    end.

Definition process_thresh_node : gen Z :=
  n ← top;
  match ns_node n with
  | policy_node_thresh _ _ k l =>
      if ns_step n <? zlen l then
        match l !! Z.to_nat (ns_step n) with
        | Some script =>
            (if 1 <? ns_step n then update_output_u8 OP_ADD else mret ());;
            ret ← state_stack_push script 0;
            if ret =? -1 then mret (-1) else bump_step 1;; mret 0
        | None => gen_undef
        end
      else
        (if 2 <=? zlen l then update_output_u8 OP_ADD else mret ());;
        update_output_push_u32 k;;
        update_output_op_v OP_EQUAL;;
        mret 1
  | _ => gen_undef
  end.

(** *** Multisig

    The search for the smallest key that is not in [used]: [cmp] compares the
    best key so far with a key. *)
Fixpoint smallest_key (cmp : list Z → list Z → Z) (used : list Z) (kps : list policy_node_key_placeholder)
    (j : Z) (best : list Z) (index : Z) : gen (option (list Z * Z)) :=
  match kps with
  | [] => mret (Some (best, index))
  | kp :: kps' =>
      u ← from_io (lift (bitvector_get used j));
      if (u : bool) then smallest_key cmp used kps' (j + 1) best index
      else
        r ← derive kp;
        match r with
        | None => mret None
        | Some cur_pubkey =>
            if 0 <? cmp best cur_pubkey then smallest_key cmp used kps' (j + 1) cur_pubkey j
            else smallest_key cmp used kps' (j + 1) best index
        end
  end.

(** The loop over the [n] keys; [emit i key] outputs the [i]-th one.  The index
    of a search that found nothing is -1, as an unsigned number. *)
Fixpoint multisig_loop (sorted : bool) (cmp : list Z → list Z → Z) (emit : Z → list Z → gen ())
    (all kps : list policy_node_key_placeholder) (i : Z) (used : list Z) : gen Z :=
  match kps with
  | [] => mret 1
  | kp :: kps' =>
      r ← (if sorted then
             s ← smallest_key cmp used all 0 (replicate 33 0xFF) (-1);
             match s with
             | None => mret None
             | Some (key, index) =>
                 used ← from_io (lift (bitvector_set used (u32 index) true)); mret (Some (key, used))
             end
           else key ← derive kp; mret ((λ k, (k, used)) <$> key));
      match r with
      | None => mret (-1)
      | Some (key, used) => emit i key;; multisig_loop sorted cmp emit all kps' (i + 1) used
      end
  end.

Definition process_multi_sortedmulti_node : gen Z :=
  n ← top;
  match ns_node n with
  | policy_node_multisig t _ k kps =>
      if 16 <? zlen kps then mret (-1)
      else
        update_output_u8 (0x50 + k);;
        ret ← multisig_loop (negb (bool_decide (t = TOKEN_MULTI))) cmp_arrays
                (λ _ key, update_output_u8 0x21;; update_output key) kps kps 0 (replicate 2 0);
        if ret <? 0 then mret ret
        else
          update_output_u8 (0x50 + zlen kps);;
          update_output_op_v OP_CHECKMULTISIG;;
          mret 1
  | _ => gen_undef
  end.

(** [memset(used, 0, sizeof(memset))] clears one byte of the two. *)
Definition process_multi_a_sortedmulti_a_node : gen Z :=
  n ← top;
  match ns_node n with
  | policy_node_multisig t _ k kps =>
      if 16 <? k then mret (-1)
      else
        ret ← multisig_loop (negb (bool_decide (t = TOKEN_MULTI_A)))
                (λ best key, cmp_arrays (drop 1 best) (drop 1 key))
                (λ i key, update_output_u8 0x20;; update_output (drop 1 key);;
                          update_output_u8 (if i =? 0 then OP_CHECKSIG else OP_CHECKSIGADD))
                kps kps 0 [0; junk_used J];
        if ret <? 0 then mret ret
        else
          update_output_u8 (0x50 + k);;
          update_output_op_v OP_NUMEQUAL;;
          mret 1
  | _ => gen_undef
  end.

(** ** The loop *)
Definition execute_processor (proc : gen Z) : gen Z :=
  ret ← proc; if 0 <? ret then state_stack_pop else mret ret.

(** The [switch]: the processor of a type of node. *)
Definition processor_of (t : token) : option (gen Z) :=
  match commands_of t with
  | Some commands => Some (process_generic_node commands)
  | None =>
      match t with
      | TOKEN_PKH | TOKEN_WPKH => Some process_pkh_wpkh_node
      | TOKEN_THRESH => Some process_thresh_node
      | TOKEN_MULTI | TOKEN_SORTEDMULTI => Some process_multi_sortedmulti_node
      | TOKEN_MULTI_A | TOKEN_SORTEDMULTI_A => Some process_multi_a_sortedmulti_a_node
      | _ => None
      end
  end.

(** One iteration. *)
Definition loop_body (whitelist : list token) : gen Z :=
  n ← top;
  if negb (bool_decide (node_type (ns_node n) ∈ whitelist)) then mret (-1)
  else
    match processor_of (node_type (ns_node n)) with
    | Some proc => execute_processor proc
    | None => mret (-1)
    end.

Fixpoint script_loop (fuel : nat) (whitelist : list token) : gen Z :=
  match fuel with
  | O => λ _ _, OutOfFuel
  | S fuel' =>
      ret ← loop_body whitelist;
      s ← get_state;
      if (0 <=? ret) && bool_decide (ps_nodes s ≠ []) then script_loop fuel' whitelist else mret ret
  end.
End machine.

(** A node takes at most 8 iterations, and one for each of the children of a
    thresh. *)
Fixpoint enough_steps (n : policy_node) : nat :=
  match n with
  | policy_node_with_script _ _ x => 8 + enough_steps x
  | policy_node_with_script2 _ _ x y => 8 + enough_steps x + enough_steps y
  | policy_node_with_script3 _ _ x y z => 8 + enough_steps x + enough_steps y + enough_steps z
  | policy_node_thresh _ _ _ l => 8 + sum_list_with (λ x, 1 + enough_steps x) l
  | _ => 8
  end%nat.

(** The returned code and the hash context. *)
Definition get_wallet_internal_script_hash (policy : policy_node) (wdi : wallet_derivation_info)
    (script_type : internal_script_type) (hash_context : option (list Z)) : io (Z * option (list Z)) :=
  '(ret, s) ← script_loop (get_derived_pubkey wdi) (bool_decide (script_type = WRAPPED_SCRIPT_TYPE_TAPSCRIPT)) (enough_steps policy)
                (whitelist_of script_type) (mk_parser_state [mk_node_state policy 0 0 0] hash_context);
  mret (ret, ps_out s).

(** ** Taptrees *)
Definition compute_tapleaf_hash (wdi : wallet_derivation_info) (script_policy : policy_node)
    : io (option (list Z)) :=
  let hash_context := crypto_tr_tapleaf_hash_init os in
  '(tapscript_len, _) ← get_wallet_internal_script_hash script_policy wdi WRAPPED_SCRIPT_TYPE_TAPSCRIPT None;
  if tapscript_len <? 0 then mret None
  else
    hash_context ← lift (crypto_hash_update_varint (hash_context ++ [0xC0]) tapscript_len);
    '(ret, hash_context) ← get_wallet_internal_script_hash script_policy wdi WRAPPED_SCRIPT_TYPE_TAPSCRIPT
                             (Some hash_context);
    if ret <? 0 then mret None else mret (sha256 <$> hash_context).

Fixpoint compute_taptree_hash (wdi : wallet_derivation_info) (tree : policy_node_tree) : io (option (list Z)) :=
  match tree with
  | tree_leaf script => compute_tapleaf_hash wdi script
  | tree_node left_tree right_tree =>
      left_h ← compute_taptree_hash wdi left_tree;
      match left_h with
      | None => mret None
      | Some left_h =>
          right_h ← compute_taptree_hash wdi right_tree;
          mret (crypto_tr_combine_taptree_hashes os left_h <$> right_h)
      end
  end.

(** ** Output scripts

    [None] is the result -1; [out] is the array that receives the script. *)
Definition sh_wsh_script (core_policy : policy_node) (wdi : wallet_derivation_info)
    (script_type : internal_script_type) : io (option (list Z)) :=
  '(ret, hash_context) ← get_wallet_internal_script_hash core_policy wdi script_type (Some []);
  if ret <? 0 then mret None
  else
    let script_hash := sha256 (default [] hash_context) in
    mret match script_type with
         | WRAPPED_SCRIPT_TYPE_SH => Some ([OP_HASH160; 20] ++ crypto_ripemd160 os script_hash ++ [OP_EQUAL])
         | WRAPPED_SCRIPT_TYPE_SH_WSH =>
             Some ([OP_HASH160; 20] ++ crypto_ripemd160 os (sha256 ([OP_0; 32] ++ script_hash)) ++ [OP_EQUAL])
         | WRAPPED_SCRIPT_TYPE_WSH => Some ([OP_0; 32] ++ script_hash)
         | WRAPPED_SCRIPT_TYPE_TAPSCRIPT => None
         end.

(** The tweak is computed into the output, which already holds the hash of the
    tree; its failure is not checked. *)
Definition tr_script (out : list Z) (wdi : wallet_derivation_info) (kp : policy_node_key_placeholder)
    (tree : option policy_node_tree) : io (option (list Z)) :=
  key ← get_derived_pubkey wdi kp;
  match key with
  | None => mret None
  | Some compressed_pubkey =>
      h ← match tree with
          | None => mret (Some [])
          | Some tree => compute_taptree_hash wdi tree
          end;
      match h with
      | None => mret None
      | Some h =>
          let rest := match tree with None => slice out 2 32 | Some _ => h end in
          mret (Some ([OP_1; 32] ++
            default rest (snd <$> crypto_tr_tweak_pubkey os (drop 1 compressed_pubkey) h)))
      end
  end.

Definition get_wallet_script (out : list Z) (policy : policy_node) (wdi : wallet_derivation_info)
    : io (option (list Z)) :=
  match policy with
  | policy_node_with_key TOKEN_PKH _ kp =>
      key ← get_derived_pubkey wdi kp;
      mret ((λ k, [OP_DUP; OP_HASH160; 20] ++ crypto_hash160 os k ++ [OP_EQUALVERIFY; OP_CHECKSIG]) <$> key)
  | policy_node_with_key TOKEN_WPKH _ kp =>
      key ← get_derived_pubkey wdi kp;
      mret ((λ k, [OP_0; 20] ++ crypto_hash160 os k) <$> key)
  | policy_node_with_script TOKEN_SH _ (policy_node_with_script TOKEN_WSH _ core_policy) =>
      sh_wsh_script core_policy wdi WRAPPED_SCRIPT_TYPE_SH_WSH
  | policy_node_with_script TOKEN_SH _ core_policy => sh_wsh_script core_policy wdi WRAPPED_SCRIPT_TYPE_SH
  | policy_node_with_script TOKEN_WSH _ core_policy => sh_wsh_script core_policy wdi WRAPPED_SCRIPT_TYPE_WSH
  | policy_node_tr TOKEN_TR _ kp tree => tr_script out wdi kp tree
  | _ => mret None
  end.
End script.
