(* ===== verification/PolicyLogic.v ===== *)
(** * Wallet policies: reasoning about the parsers

    A weakest precondition for the parsers of PolicySyntax.v and
    PolicyParser.v, over the list of the characters that are left: [pwp m Q l]
    states that [m], started with the characters [l] left, neither accesses
    memory outside of the input nor runs out of fuel, and that, when it
    succeeds with the result [a] and the characters [l'] left, [Q a l'] holds.
    Every reader has a rule that states which characters it consumes. *)

From Stdlib Require Ascii String.
Import String.StringSyntax Ascii.AsciiSyntax.
From S2P Require Import Prelude Bytes Bip32 Buffer PolicySyntax PolicyParser.

Definition pwp {A} (m : parser A) (Q : A → list Z → Prop) (l : list Z) : Prop :=
  ∀ st, wf_buffer (in_buf st) → rest (in_buf st) = l →
    match m st with
    | Val None => True
    | Val (Some (a, st')) => wf_buffer (in_buf st') ∧ Q a (rest (in_buf st'))
    | _ => False
    end.

Section rules.
Context {A B : Type}.
Implicit Types (m : parser A) (Q : A → list Z → Prop) (l : list Z).

Lemma pwp_ret (a : A) Q l : Q a l → pwp (mret a) Q l.
Proof. by intros HQ st Hwf <-. Qed.

Lemma pwp_fail Q l : pwp fail Q l.
Proof. done. Qed.

Lemma pwp_mono m Q Q' l : pwp m Q l → (∀ a l', Q a l' → Q' a l') → pwp m Q' l.
Proof.
  intros Hm HQ st Hwf Hl. specialize (Hm st Hwf Hl).
  destruct (m st) as [[[a st']|]| | |]; [|done..]. naive_solver.
Qed.

Lemma pwp_bind m (f : A → parser B) (Q : B → list Z → Prop) l :
  pwp m (λ a l', pwp (f a) Q l') l → pwp (m ≫= f) Q l.
Proof.
  intros Hm st Hwf Hl. specialize (Hm st Hwf Hl). rw /mbind /parser_bind.
  destruct (m st) as [[[a st']|]| | |]; [|done..]. destruct Hm as [Hwf' Hf]. by apply Hf.
Qed.

Lemma pwp_lift (o : outcome A) (a : A) Q l : o = Val a → Q a l → pwp (lift_outcome o) Q l.
Proof. by intros -> HQ st Hwf <-. Qed.

(** A reader of the buffer that implements a decoder. *)
Lemma pwp_implements (rd : buffer → outcome (option A * buffer)) dec (Q : option A → list Z → Prop) l :
  implements rd dec →
  match dec l with Some (a, r) => Q (Some a) r | None => Q None l end →
  pwp (on_input rd) Q l.
Proof.
  intros Hrd HQ st Hwf <-. specialize (Hrd (in_buf st) Hwf). rw /on_input. cbn in Hrd.
  destruct (dec (rest (in_buf st))) as [[a r]|]; [destruct Hrd as (b & -> & Hb & <-)|rw Hrd]; by cbn.
Qed.
End rules.

Lemma pwp_need {A} (m : parser (option A)) (Q : A → list Z → Prop) l :
  pwp m (λ r l', match r with Some a => Q a l' | None => True end) l → pwp (need m) Q l.
Proof.
  intros Hm. rw /need. apply pwp_bind. eapply pwp_mono; [done|]. intros [a|] l' HQ; [by apply pwp_ret|apply pwp_fail].
Qed.


Lemma pwp_ensure (b : bool) (Q : unit → list Z → Prop) l :
  (b = true → Q tt l) → pwp (ensure b) Q l.
Proof. intros HQ. destruct b; [by apply pwp_ret, HQ|apply pwp_fail]. Qed.

(** The conjunction of two facts about a parser. *)
Lemma pwp_and {A} (m : parser A) (Q Q' : A → list Z → Prop) l :
  pwp m Q l → pwp m Q' l → pwp m (λ a l', Q a l' ∧ Q' a l') l.
Proof.
  intros Hm Hm' st Hwf Hl. specialize (Hm st Hwf Hl). specialize (Hm' st Hwf Hl).
  destruct (m st) as [[[a st']|]| | |]; [|done..]. naive_solver.
Qed.

Section readers.
Implicit Types l : list Z.

Lemma pwp_input (Q : buffer → list Z → Prop) l :
  (∀ b, remaining b = length l → zlen l < 2 ^ 32 → Q b l) → pwp input Q l.
Proof.
  intros HQ st Hwf <-. split; [done|].
  pose proof (rest_zlen _ Hwf) as Hl. destruct Hwf as (?&?&?&?).
  apply HQ; [rw /remaining; unfold zlen in Hl; lia|lia].
Qed.

(** [buffer_peek_n] computes [n + 1] in 32 bits. *)
Lemma pwp_peek_n n (Q : option Z → list Z → Prop) l :
  0 ≤ n < 2 ^ 32 - 1 → Q (l !! Z.to_nat n) l → pwp (peek_n n) Q l.
Proof.
  intros Hn HQ st Hwf <-. rw /peek_n /mbind /parser_bind /input /lift_outcome /buffer_peek_n.
  rw u32_small; [|lia]. rw can_read_rest; [|done].
  destruct (Z.leb_spec (n + 1) (zlen (rest (in_buf st)))) as [Hlt|Hge]; cbn.
  - rw rest_lookup; [|done|lia]. destruct (load_in_range (rest (in_buf st)) n) as (c & -> & Hc); [lia|].
    cbn. rewrite Hc in HQ. done.
  - split; [done|]. rewrite lookup_ge_None_2 in HQ; [done|]. unfold zlen in *. lia.
Qed.

Lemma pwp_peek (Q : option Z → list Z → Prop) l : Q (head l) l → pwp peek Q l.
Proof. intros HQ. apply (pwp_peek_n 0); [done|]. by destruct l. Qed.

Lemma pwp_seek_cur n (Q : unit → list Z → Prop) l :
  0 ≤ n ≤ zlen l → Q tt (drop (Z.to_nat n) l) → pwp (seek_cur n) Q l.
Proof.
  intros Hn HQ st Hwf <-. rw /seek_cur /on_input. cbn. rw seek_cur_advance; [|done..]. cbn.
  split; [by apply advance_wf|]. by rw rest_advance.
Qed.

Lemma pwp_seek_1 c (Q : unit → list Z → Prop) l : Q tt l → pwp (seek_cur 1) Q (c :: l).
Proof.
  intros HQ. apply pwp_seek_cur; [rw zlen_cons; pose proof (zlen_nonneg l); lia|]. by rw /= drop_0.
Qed.

Lemma pwp_can_read n (Q : bool → list Z → Prop) l : Q (n <=? zlen l) l → pwp (can_read n) Q l.
Proof. intros HQ st Hwf <-. split; [done|]. by rw (can_read_rest _ Hwf). Qed.

Lemma pwp_read_u8 (Q : option Z → list Z → Prop) l :
  match l with [] => Q None [] | c :: l' => Q (Some c) l' end → pwp read_u8 Q l.
Proof.
  intros HQ. assert (pwp (on_input (λ b, as_read (buffer_read_u8 b))) Q l) as H.
  { eapply pwp_implements; [apply buffer_read_u8_implements|]. by destruct l. }
  intros st Hwf Hl. specialize (H st Hwf Hl). revert H. rw /read_u8 /on_input /as_read.
  by destruct (buffer_read_u8 (in_buf st)) as [[[[|] ?] ?]| | |].
Qed.

Lemma pwp_read_varint (Q : option Z → list Z → Prop) l :
  match varint_dec l with Some (v, r) => Q (Some v) r | None => Q None l end → pwp read_varint Q l.
Proof.
  intros HQ. assert (pwp (on_input (λ b, as_read (buffer_read_varint b))) Q l) as H.
  { eapply pwp_implements; [apply buffer_read_varint_implements|done]. }
  intros st Hwf Hl. specialize (H st Hwf Hl). revert H. rw /read_varint /on_input /as_read.
  by destruct (buffer_read_varint (in_buf st)) as [[[[|] ?] ?]| | |].
Qed.

Lemma pwp_read_bytes n (Q : option (list Z) → list Z → Prop) l :
  0 ≤ n →
  (if zlen l <? n then Q None l else Q (Some (take (Z.to_nat n) l)) (drop (Z.to_nat n) l)) →
  pwp (read_bytes n) Q l.
Proof.
  intros Hn HQ. eapply pwp_implements; [by apply buffer_read_bytes_implements|].
  rw /bytes_dec. by destruct (zlen l <? n).
Qed.
End readers.

(** ** Tactics *)
Ltac pwp_step :=
  lazymatch goal with
  | |- pwp (mbind _ _) _ _ => apply pwp_bind
  | |- pwp (mret _) _ _ => apply pwp_ret
  | |- pwp fail _ _ => apply pwp_fail
  | |- pwp (ensure _) _ _ => apply pwp_ensure; intros ?
  | |- pwp (need _) _ _ => apply pwp_need
  | |- pwp peek _ _ => apply pwp_peek
  | |- pwp (seek_cur 1) _ (_ :: _) => apply pwp_seek_1
  | |- pwp read_u8 _ _ => apply pwp_read_u8
  | |- pwp read_varint _ _ => apply pwp_read_varint
  | |- pwp (can_read _) _ _ => apply pwp_can_read
  | |- pwp input _ _ => apply pwp_input; intros ???
  end; cbn beta iota.
Ltac pwp_steps := repeat pwp_step.

(** ** Character-level readers *)
Section lexer.
Implicit Types l : list Z.

Lemma pwp_consume_character c (Q : bool → list Z → Prop) l :
  (∀ l', l = c :: l' → Q true l') → (head l ≠ Some c → Q false l) → pwp (consume_character c) Q l.
Proof.
  intros Ht Hf. rw /consume_character. pwp_steps. destruct l as [|x l]; cbn; [by apply pwp_ret, Hf|].
  destruct (Z.eqb_spec x c) as [->|Hne].
  - pwp_steps. by apply Ht.
  - apply pwp_ret, Hf. cbn. congruence.
Qed.

Lemma pwp_expect c (Q : unit → list Z → Prop) l : (∀ l', l = c :: l' → Q tt l') → pwp (expect c) Q l.
Proof.
  intros HQ. rw /expect. pwp_step. apply pwp_consume_character; [|done].
  intros l' Hl. pwp_step. by apply HQ.
Qed.

Lemma pwp_match_characters e i (Q : bool → list Z → Prop) l :
  0 ≤ i → i + zlen e < 2 ^ 32 - 1 →
  (∀ ok, ok = bool_decide (take (length e) (drop (Z.to_nat i) l) = e) → Q ok l) →
  pwp (match_characters e i) Q l.
Proof.
  revert i. induction e as [|c e IH]; intros i Hi Hie HQ; cbn [match_characters]; [by apply pwp_ret, HQ|].
  rewrite zlen_cons in Hie. pose proof (zlen_nonneg e). pwp_step. apply pwp_peek_n; [lia|].
  destruct (l !! Z.to_nat i) as [x|] eqn:Hx.
  - assert (drop (Z.to_nat i) l = x :: drop (Z.to_nat (i + 1)) l) as Hdrop.
    { rw (drop_S _ x); [|done]. by replace (Z.to_nat (i + 1)) with (S (Z.to_nat i)) by lia. }
    destruct (Z.eqb_spec x c) as [->|Hne].
    + apply IH; [lia..|]. intros ok ->. apply HQ. rw Hdrop. cbn [length take]. apply bool_decide_ext. split; congruence.
    + apply pwp_ret, HQ. symmetry. apply bool_decide_eq_false. rw Hdrop. cbn. congruence.
  - apply pwp_ret, HQ. symmetry. apply bool_decide_eq_false. apply lookup_ge_None in Hx.
    rw drop_ge; [done|lia].
Qed.

Lemma pwp_consume_characters e n (Q : bool → list Z → Prop) l :
  zlen e = n → n < 2 ^ 32 - 1 →
  (∀ l', l = e ++ l' → Q true l') → Q false l → pwp (consume_characters e n) Q l.
Proof.
  intros He Hn Ht Hf. rw /consume_characters. pwp_step. rw take_ge; [|unfold zlen in He; lia].
  apply pwp_match_characters; [done|lia|]. intros ok ->. rw drop_0. case_bool_decide as Heq.
  - pwp_step. assert (zlen e ≤ zlen l) as Hle.
    { apply (f_equal length) in Heq. rewrite length_take in Heq. unfold zlen. lia. }
    apply pwp_seek_cur; [pose proof (zlen_nonneg e); lia|]. apply pwp_ret, Ht.
    rw -{1}(take_drop (length e) l) Heq. f_equal. f_equal. unfold zlen in He. lia.
  - by apply pwp_ret.
Qed.

Lemma pwp_read_token n (Q : list Z → list Z → Prop) l :
  (∀ w l', l = w ++ l' → Q w l') → pwp (read_token n) Q l.
Proof.
  revert l Q. induction n as [|n IH]; intros l Q HQ; cbn [read_token]; [by apply pwp_ret, HQ|].
  pwp_steps. destruct l as [|c l]; cbn; [by apply pwp_ret, HQ|].
  destruct (is_alphanumeric c || (c =? chr "_")); [|by apply pwp_ret, HQ].
  pwp_step. pwp_step. pwp_step. apply IH. intros w l' ->. by apply pwp_ret, HQ.
Qed.

Lemma pwp_parse_token (Q : option token → list Z → Prop) l :
  (∀ w l', l = w ++ l' → Q (lookup_token w) l') → pwp parse_token Q l.
Proof. intros HQ. rw /parse_token. pwp_step. apply pwp_read_token. intros w l' ->. by apply pwp_ret, HQ. Qed.

(** *** Decimal numbers *)

(** The value that the code computes from the digits [ds]: a 32-bit number. *)
Definition decimal_from (r : Z) (ds : list Z) : Z := foldl (λ r c, u32 (10 * r + (c - chr "0"))) r ds.

Lemma decimal_from_range r ds : 0 ≤ r < 2 ^ 32 → 0 ≤ decimal_from r ds < 2 ^ 32.
Proof.
  revert r. induction ds as [|c ds IH]; intros r Hr; cbn; [done|]. apply IH, u32_range.
Qed.

Lemma pwp_decimal_loop fuel r n (Q : Z * Z → list Z → Prop) l :
  (length l < fuel)%nat →
  (∀ ds l', l = ds ++ l' → Forall (λ c, is_digit c = true) ds →
     (∀ c, head l' = Some c → is_digit c = false) → Q (decimal_from r ds, n + zlen ds) l') →
  pwp (decimal_loop fuel r n) Q l.
Proof.
  revert r n l Q. induction fuel as [|fuel IH]; intros r n l Q Hf HQ; [lia|]. cbn [decimal_loop].
  pwp_step. pwp_step. destruct l as [|c l]; cbn.
  { apply pwp_ret. rewrite -(Z.add_0_r n). apply (HQ [] []); done. }
  destruct (is_digit c) eqn:Hc.
  - do 3 (pwp_step; pwp_step).
    apply IH; [cbn in Hf; lia|]. intros ds l' -> Hds Hh.
    replace (n + 1 + zlen ds) with (n + zlen (c :: ds)) by (rw zlen_cons; lia).
    apply (HQ (c :: ds) l'); [done|by constructor|done].
  - apply pwp_ret. rewrite -(Z.add_0_r n). apply (HQ [] (c :: l)); [done..|]. cbn. congruence.
Qed.

Lemma pwp_parse_unsigned_decimal (Q : Z → list Z → Prop) l :
  (∀ ds l', l = ds ++ l' → ds ≠ [] → Forall (λ c, is_digit c = true) ds →
     (∀ c, head l' = Some c → is_digit c = false) → Q (decimal_from 0 ds) l') →
  pwp parse_unsigned_decimal Q l.
Proof.
  intros HQ. rw /parse_unsigned_decimal. pwp_step. pwp_step. pwp_step.
  apply pwp_decimal_loop; [lia|]. intros ds l' -> Hds Hh. pwp_step. pwp_step. pwp_step.
  apply HQ; [done| |done..]. intros ->. done.
Qed.
End lexer.

(** *** Lengths

    What the recursion of the parser needs: characters are only consumed. *)
Lemma pwp_decimal_shrinks (Q : Z → list Z → Prop) l :
  (∀ n l', 0 ≤ n < 2 ^ 32 → (length l' < length l)%nat → Q n l') → pwp parse_unsigned_decimal Q l.
Proof.
  intros HQ. apply pwp_parse_unsigned_decimal. intros ds l' -> Hds _ _. apply HQ.
  - by apply decimal_from_range.
  - rw length_app. destruct ds; [done|]. cbn. lia.
Qed.

Definition placeholder_ok (kp : policy_node_key_placeholder) : Prop :=
  0 ≤ key_index kp ≤ INT16_MAX ∧ 0 ≤ num_first kp ≤ 2 ^ 31 ∧ 0 ≤ num_second kp ≤ 2 ^ 31 ∧
  num_first kp ≠ num_second kp.

Lemma pwp_parse_derivation (Q : Z * Z → list Z → Prop) l :
  (∀ a b l', 0 ≤ a ≤ 2 ^ 31 → 0 ≤ b ≤ 2 ^ 31 → a ≠ b → (length l' < length l)%nat → Q (a, b) l') →
  pwp parse_derivation Q l.
Proof.
  intros HQ. rw /parse_derivation. pwp_step. apply pwp_consume_character; [|by intros _; pwp_steps].
  intros l1 ->. pwp_steps. destruct l1 as [|c l1]; cbn; [done|]. pwp_steps.
  destruct (Z.eqb_spec c (chr "*")) as [->|Hc].
  - pwp_step. apply pwp_consume_characters; [done..| |by pwp_steps]. intros l2 Hl2. pwp_steps.
    apply HQ; [done..|]. cbn in Hl2. injection Hl2 as ->. cbn. lia.
  - pwp_steps. apply pwp_decimal_shrinks. intros a l2 Ha Hl2. pwp_steps.
    apply pwp_consume_character; [|by intros _; pwp_steps]. intros l3 ->. pwp_steps.
    apply pwp_decimal_shrinks. intros b l4 Hb Hl4. pwp_steps.
    apply pwp_consume_characters; [done..| |by pwp_steps]. intros l5 ->. pwp_steps.
    apply HQ; [lia..|by apply Z.eqb_neq, negb_true_iff|]. rewrite length_app in Hl4. cbn in Hl2. cbn. lia.
Qed.

Lemma pwp_parse_placeholder v (Q : policy_node_key_placeholder → list Z → Prop) l :
  (∀ kp l', placeholder_ok kp → (length l' < length l)%nat → Q kp l') → pwp (parse_placeholder v) Q l.
Proof.
  intros HQ. rw /parse_placeholder. pwp_steps. destruct l as [|c l]; [done|]. pwp_steps.
  apply pwp_decimal_shrinks. intros k l1 Hk Hl1. pwp_steps.
  assert (0 ≤ k ≤ INT16_MAX) by lia.
  destruct (v =? WALLET_POLICY_VERSION_V1).
  { pwp_step. apply HQ; [done|]. cbn. lia. }
  destruct (v =? WALLET_POLICY_VERSION_V2); [|pwp_step].
  pwp_step. apply pwp_parse_derivation. intros a b l2 Ha Hb Hab Hl2. pwp_step. apply HQ; [done|]. cbn. lia.
Qed.

Lemma pwp_read_hex n (Q : list Z → list Z → Prop) l :
  (∀ h l', length h = n → bytes_ok h → (length l' ≤ length l)%nat → Q h l') → pwp (read_hex n) Q l.
Proof.
  revert Q l. induction n as [|n IH]; intros Q l HQ; cbn [read_hex]; [by apply pwp_ret, HQ|].
  do 2 pwp_step. destruct l as [|c1 l]; do 2 pwp_step; [|destruct l as [|c2 l]];
    do 3 pwp_step; apply IH; intros h l' Hh Hok Hl; pwp_step;
    (apply HQ; [by rw /= Hh|by constructor; [apply u8_range|]|cbn in *; lia]).
Qed.

Lemma pwp_read_hex_hash n (Q : list Z → list Z → Prop) l :
  (∀ h l', zlen h = n → bytes_ok h → (length l' ≤ length l)%nat → Q h l') → 0 ≤ n →
  pwp (buffer_read_hex_hash n) Q l.
Proof.
  intros HQ Hn. rw /buffer_read_hex_hash. pwp_steps. apply pwp_read_hex. intros h l' Hh. apply HQ.
  rw /zlen. lia.
Qed.

(** ** Allocation and wrappers *)
Section alloc.
Context (sizeof : abi) (base : Z).

Lemma pwp_alloc sz (Q : unit → list Z → Prop) l : Q tt l → pwp (alloc base sz) Q l.
Proof. intros HQ st Hwf <-. rw /alloc. by destruct (buffer_alloc _ _ _ _) as [[|] ?]. Qed.

Lemma pwp_align (Q : unit → list Z → Prop) l : Q tt l → pwp (align base) Q l.
Proof. by intros HQ st Hwf <-. Qed.

Lemma pwp_count_wrappers fuel n (Q : Z * option Z → list Z → Prop) l :
  0 ≤ n → n ≤ zlen l → zlen l < 2 ^ 32 - 1 → zlen l - n < Z.of_nat fuel →
  (∀ k, n ≤ k → k ≤ zlen l → Q (k, l !! Z.to_nat k) l) →
  pwp (count_wrappers fuel n) Q l.
Proof.
  revert n. induction fuel as [|fuel IH]; intros n Hn Hnl Hl Hf HQ; [lia|]. cbn [count_wrappers].
  pwp_step. apply pwp_peek_n; [lia|]. pose proof (HQ n) as HQn.
  destruct (l !! Z.to_nat n) as [c|] eqn:Hc; [|pwp_step; by apply HQn].
  destruct (_ && _ && _); [|pwp_step; by apply HQn].
  apply lookup_lt_Some in Hc. unfold zlen in *. apply IH; [lia..|]. intros k Hk Hkl. apply HQ; lia.
Qed.

Lemma pwp_read_wrappers n (Q : list token → list Z → Prop) l :
  (n ≤ length l)%nat →
  (∀ ts, Q ts (drop n l)) → pwp (read_wrappers sizeof base n) Q l.
Proof.
  revert Q l. induction n as [|n IH]; intros Q l Hn HQ; cbn [read_wrappers]; [by apply pwp_ret, HQ|].
  pwp_step. apply pwp_alloc. do 2 pwp_step. destruct l as [|c l]; cbn in Hn; [lia|].
  destruct (wrapper_token _); [|pwp_step]. pwp_step. apply IH; [lia|]. intros ts. pwp_step. apply HQ.
Qed.

Lemma pwp_parse_wrappers ctx (Q : list token → list Z → Prop) l :
  zlen l < 2 ^ 32 - 1 →
  (∀ ts l', (length l' ≤ length l)%nat → Q ts l') → pwp (parse_wrappers sizeof base ctx) Q l.
Proof.
  intros Hl HQ. rw /parse_wrappers. destruct (_ && _); [|by pwp_step; apply HQ].
  do 3 pwp_step. apply pwp_count_wrappers; [done|apply zlen_nonneg|done|unfold zlen in *; lia|].
  intros k Hk Hkl. case_bool_decide as Hc; [|by pwp_step; apply HQ].
  apply lookup_lt_Some in Hc as Hlt. pwp_step. apply pwp_read_wrappers; [unfold zlen in *; lia|]. intros ts.
  rw (drop_S _ (chr ":")); [|done]. pwp_steps. apply HQ. rw length_drop. lia.
Qed.
End alloc.
