(* ===== verification/PolicyHeader.v ===== *)
(** * Wallet policies: headers and identifiers

    Theorems on [read_wallet_policy_header] and [get_policy_wallet_id] of
    wallet.c, modelled in PolicySyntax.v: reading a serialized header gives it
    back, and the identifier of a wallet policy, which the user approves when
    the policy is registered, commits to every field of its header. *)

From S2P Require Import Prelude Bytes Bip32 Buffer Merkle Crypto PolicySyntax PolicyParser PolicyLogic.

(** ** Successful parsers

    [parses m l a l']: started with the characters [l] left, [m] returns [a]
    and leaves [l']. *)
Definition parses {A} (m : parser A) (l : list Z) (a : A) (l' : list Z) : Prop :=
  ∀ st, wf_buffer (in_buf st) → rest (in_buf st) = l →
    ∃ st', m st = Val (Some (a, st')) ∧ wf_buffer (in_buf st') ∧ rest (in_buf st') = l'.

Lemma parses_ret {A} (a : A) l : parses (mret a) l a l.
Proof. intros st Hwf Hl. by exists st. Qed.

Lemma parses_bind {A B} (m : parser A) (f : A → parser B) l a l1 b l2 :
  parses m l a l1 → parses (f a) l1 b l2 → parses (m ≫= f) l b l2.
Proof.
  intros Hm Hf st Hwf Hl. destruct (Hm st Hwf Hl) as (st1 & Hst1 & Hwf1 & Hl1).
  destruct (Hf st1 Hwf1 Hl1) as (st2 & Hst2 & ?). exists st2. split; [|done].
  by rw /mbind /parser_bind Hst1.
Qed.

Lemma parses_implements {A} (rd : buffer → outcome (option A * buffer)) dec l a l' :
  implements rd dec → dec l = Some (a, l') → parses (on_input rd) l (Some a) l'.
Proof.
  intros Hrd Hdec st Hwf Hl. specialize (Hrd (in_buf st) Hwf). cbn in Hrd. rewrite Hl Hdec in Hrd.
  destruct Hrd as (b & Hb & ? & ?). rw /on_input Hb. by eexists.
Qed.

Lemma parses_need {A} (m : parser (option A)) l a l' : parses m l (Some a) l' → parses (need m) l a l'.
Proof. intros Hm. rw /need. eapply parses_bind; [done|]. apply parses_ret. Qed.

Lemma parses_ensure b l : b = true → parses (ensure b) l tt l.
Proof. intros ->. apply parses_ret. Qed.

Lemma parses_read_bytes d l : parses (read_bytes (zlen d)) (d ++ l) (Some d) l.
Proof.
  eapply parses_implements; [apply buffer_read_bytes_implements, zlen_nonneg|].
  rw /bytes_dec zlen_app. destruct (Z.ltb_spec (zlen d + zlen l) (zlen d)); [pose proof (zlen_nonneg l); lia|].
  by rw zlen_length take_app_length drop_app_length.
Qed.

(** The readers that return a flag and a value. *)
Lemma parses_as_read (rd : buffer → outcome (bool * Z * buffer)) dec l v l' :
  implements (λ b, as_read (rd b)) dec → dec l = Some (v, l') →
  parses (on_input (λ b, '(ok, v, b) ← rd b; Val ((if ok : bool then Some v else None), b))) l (Some v) l'.
Proof.
  intros Hrd Hdec st Hwf Hl. destruct (parses_implements _ _ _ _ _ Hrd Hdec st Hwf Hl) as (st' & Hst' & ?).
  exists st'. split; [|done]. revert Hst'. rw /on_input /as_read.
  by destruct (rd (in_buf st)) as [[[[|] ?] ?]| | |].
Qed.

Lemma parses_read_u8 v l : parses read_u8 (v :: l) (Some v) l.
Proof. by eapply parses_as_read; [apply buffer_read_u8_implements|]. Qed.

Lemma parses_read_varint v l : 0 ≤ v < 2 ^ 64 → parses read_varint (varint_enc v ++ l) (Some v) l.
Proof. intros Hv. eapply parses_as_read; [apply buffer_read_varint_implements|]. by apply varint_dec_enc. Qed.

(** ** The serialization of a header *)
Section header.
Context (MAX_DESCRIPTOR_TEMPLATE_LENGTH_V2 : Z).
Local Notation read_header := (read_wallet_policy_header MAX_DESCRIPTOR_TEMPLATE_LENGTH_V2).

Definition serialize_header (h : policy_map_wallet_header) : list Z :=
  [version h; name_len h] ++ name h ++ varint_enc (descriptor_template_len h) ++ descriptor_template h ++
  varint_enc (n_keys h) ++ keys_info_merkle_root h.

(** Headers within the limits of the code. *)
Record header_ok (h : policy_map_wallet_header) : Prop := {
  ok_version : version h = WALLET_POLICY_VERSION_V1 ∨ version h = WALLET_POLICY_VERSION_V2;
  ok_name : zlen (name h) = name_len h ∧ name_len h ≤ MAX_WALLET_NAME_LENGTH;
  ok_template_len : 0 ≤ descriptor_template_len h < 2 ^ 16;
  ok_template_max : descriptor_template_len h ≤
    (if version h =? WALLET_POLICY_VERSION_V1 then MAX_DESCRIPTOR_TEMPLATE_LENGTH_V1
     else MAX_DESCRIPTOR_TEMPLATE_LENGTH_V2);
  ok_template : zlen (descriptor_template h) =
    (if version h =? WALLET_POLICY_VERSION_V1 then descriptor_template_len h else 32);
  ok_n_keys : 0 ≤ n_keys h ≤ 252;
  ok_root : zlen (keys_info_merkle_root h) = 32;
  ok_bytes : bytes_ok (name h) ∧ bytes_ok (descriptor_template h) ∧ bytes_ok (keys_info_merkle_root h)
}.

Lemma negb_ltb a b : b ≤ a → negb (a <? b) = true.
Proof. intros. apply negb_true_iff, Z.ltb_ge. done. Qed.

Lemma parses_header h l : header_ok h → parses read_header (serialize_header h ++ l) h l.
Proof.
  destruct h as [v nl dl nm dt nk root]. intros [Hv [Hnl Hnm] Hdl Hdm Hdt Hnk Hroot _]. cbn in *.
  rw /serialize_header /= -!app_assoc /=. subst nl.
  eapply parses_bind; [apply parses_need, parses_read_u8|].
  eapply parses_bind; [apply parses_ensure; destruct Hv as [-> | ->]; done|].
  eapply parses_bind; [apply parses_need, parses_read_u8|].
  eapply parses_bind; [apply parses_ensure; by apply negb_ltb|].
  eapply parses_bind; [apply parses_need, parses_read_bytes|].
  eapply parses_bind; [apply parses_need, parses_read_varint; lia|].
  eapply (parses_bind _ _ _ dt (varint_enc nk ++ root ++ l)).
  { rw u16_small //. destruct (v =? WALLET_POLICY_VERSION_V1);
      (eapply parses_bind; [apply parses_ensure; by apply negb_ltb|]); rw -Hdt; apply parses_need, parses_read_bytes. }
  eapply parses_bind; [apply parses_need, parses_read_varint; lia|].
  eapply parses_bind; [apply parses_ensure; apply negb_ltb; lia|].
  eapply parses_bind; [apply parses_need; rw -Hroot; apply parses_read_bytes|].
  rw !u16_small; [|lia..]. apply parses_ret.
Qed.
(** What the reader accepts. *)
Lemma pwp_take_bytes n (Q : option (list Z) → list Z → Prop) l :
  bytes_ok l → 0 ≤ n → Q None l →
  (∀ d l', zlen d = n → bytes_ok d → bytes_ok l' → Q (Some d) l') →
  pwp (read_bytes n) Q l.
Proof.
  intros Hl Hn Hno HQ. apply pwp_read_bytes; [done|]. destruct (Z.ltb_spec (zlen l) n); [done|].
  apply HQ; [apply zlen_take; lia|by apply Forall_take|by apply Forall_drop].
Qed.

Lemma pwp_take_varint (Q : option Z → list Z → Prop) l :
  bytes_ok l → Q None l → (∀ v l', 0 ≤ v < 2 ^ 64 → bytes_ok l' → Q (Some v) l') → pwp read_varint Q l.
Proof.
  intros Hl Hno HQ. apply pwp_read_varint. destruct (varint_dec l) as [[v r]|] eqn:Hv; [|done].
  apply varint_dec_range in Hv as (? & ? & _); [|done]. by apply HQ.
Qed.

Lemma negb_ltb_true a b : negb (a <? b) = true → b ≤ a.
Proof. by intros ?%negb_true_iff%Z.ltb_ge. Qed.

Lemma pwp_header l :
  0 ≤ MAX_DESCRIPTOR_TEMPLATE_LENGTH_V2 < 2 ^ 16 → bytes_ok l → pwp read_header (λ h _, header_ok h) l.
Proof.
  intros Hmax Hl. rw /read_wallet_policy_header. do 3 pwp_step. destruct l as [|v l]; [done|].
  do 5 pwp_step. destruct l as [|nl l]; [done|]. do 4 pwp_step. apply Forall_cons in Hl as [Hv [Hnl Hl]%Forall_cons].
  apply pwp_take_bytes; [done|by destruct Hnl|done|]. intros nm l1 Hnm Hbn Hl1.
  do 2 pwp_step. apply pwp_take_varint; [done..|]. intros dl l2 Hdl Hl2. pwp_step.
  apply (pwp_mono _ (λ dt l3, zlen dt = (if v =? WALLET_POLICY_VERSION_V1 then u16 dl else 32) ∧
    dl ≤ (if v =? WALLET_POLICY_VERSION_V1 then MAX_DESCRIPTOR_TEMPLATE_LENGTH_V1
          else MAX_DESCRIPTOR_TEMPLATE_LENGTH_V2) ∧ bytes_ok dt ∧ bytes_ok l3)).
  { destruct (v =? WALLET_POLICY_VERSION_V1); do 3 pwp_step;
      (apply pwp_take_bytes; [done|try apply u16_range; lia|done|]); intros d l3 ? ? ?;
      (split; [done|]); (split; [by apply negb_ltb_true|done]). }
  intros dt l3 (Hdt & Hdm & Hbd & Hl3). do 2 pwp_step. apply pwp_take_varint; [done..|]. intros nk l4 Hnk Hl4.
  do 4 pwp_step. apply pwp_take_bytes; [done..|]. intros root l5 Hroot Hbr _. pwp_step.
  assert (0 ≤ dl < 2 ^ 16) as Hdl'.
  { unfold MAX_DESCRIPTOR_TEMPLATE_LENGTH_V1 in Hdm. destruct (v =? WALLET_POLICY_VERSION_V1); lia. }
  rewrite u16_small in Hdt; [|done]. rewrite !u16_small; [|lia..].
  constructor; cbn; try done; [lia|split; [done|by apply negb_ltb_true]|split; [lia|by apply negb_ltb_true]].
Qed.

Lemma serialize_header_ok h : header_ok h → bytes_ok (serialize_header h) ∧ zlen (serialize_header h) < 2 ^ 32.
Proof.
  destruct h as [v nl dl nm dt nk root]. intros [Hv [Hnl Hnm] Hdl Hdm Hdt Hnk Hroot (? & ? & ?)]. cbn in *.
  pose proof (zlen_nonneg nm). rw /serialize_header /=. split.
  - apply Forall_cons_2; [destruct Hv as [-> | ->]; done|].
    apply Forall_cons_2; [rw /byte_ok; unfold MAX_WALLET_NAME_LENGTH in *; lia|].
    repeat apply Forall_app_2; try done; apply varint_enc_ok; lia.
  - rw !zlen_cons !zlen_app !varint_enc_zlen. unfold MAX_WALLET_NAME_LENGTH in *.
    assert (zlen dt < 2 ^ 16) by (rw Hdt; destruct (v =? WALLET_POLICY_VERSION_V1); lia).
    pose proof (varint_size_le dl). pose proof (varint_size_le nk). lia.
Qed.

(** Headers with the same serialization are the same: reading it gives both. *)
Lemma serialize_header_inj h h' :
  header_ok h → header_ok h' → serialize_header h = serialize_header h' → h = h'.
Proof.
  intros Hh Hh' Heq. destruct (serialize_header_ok h Hh) as [Hb Hz].
  pose (st := mk_parse_state (buffer_create (serialize_header h) (zlen (serialize_header h))) (buffer_create [] 0)).
  assert (wf_buffer (in_buf st)) as Hwf.
  { repeat split; cbn; try lia; try done; apply zlen_nonneg. }
  assert (rest (in_buf st) = serialize_header h ++ []) as Hrest.
  { rw app_nil_r /rest /slice. cbn [in_buf st ptr size offset buffer_create].
    by rw Z.sub_0_r zlen_length drop_0 take_ge. }
  destruct (parses_header h [] Hh st Hwf Hrest) as (st1 & H1 & _).
  rewrite Heq in Hrest. destruct (parses_header h' [] Hh' st Hwf Hrest) as (st2 & H2 & _). congruence.
Qed.
End header.

(** The identifier is the hash of the serialization. *)
Lemma wallet_id_spec sha256 max h :
  header_ok max h → get_policy_wallet_id sha256 h = Val (sha256 (serialize_header h)).
Proof.
  intros [Hv [Hnl Hnm] Hdl Hdm Hdt Hnk Hroot _]. rw /get_policy_wallet_id.
  rw crypto_hash_update_spec // outcome_ret_bind crypto_hash_update_varint_spec; [|lia]. rw outcome_ret_bind.
  assert (∀ ctx, (if version h =? WALLET_POLICY_VERSION_V1 then
      crypto_hash_update ctx (descriptor_template h) (descriptor_template_len h)
    else crypto_hash_update ctx (descriptor_template h) 32) = Val (ctx ++ descriptor_template h)) as ->.
  { intros ctx. destruct (version h =? _); by apply crypto_hash_update_spec. }
  rw outcome_ret_bind crypto_hash_update_varint_spec; [|lia]. rw outcome_ret_bind.
  rw crypto_hash_update_spec // outcome_ret_bind /serialize_header -!app_assoc. done.
Qed.

(** C22: the identifier of a wallet policy commits to its header.  For any two
    inputs that [read_wallet_policy_header] accepts, [get_policy_wallet_id]
    returns identifiers without reading outside of the arrays of a header, and
    two equal identifiers belong to equal headers, or two inputs with the same
    SHA-256 hash are known: version, name, template (or its hash and length),
    number of keys and Merkle root of the keys cannot be changed without
    changing the identifier. *)
Theorem wallet_id_binding sha256 max st1 st2 h1 h2 st1' st2' :
  0 ≤ max < 2 ^ 16 → wf_buffer (in_buf st1) → wf_buffer (in_buf st2) →
  read_wallet_policy_header max st1 = Val (Some (h1, st1')) →
  read_wallet_policy_header max st2 = Val (Some (h2, st2')) →
  ∃ id1 id2, get_policy_wallet_id sha256 h1 = Val id1 ∧ get_policy_wallet_id sha256 h2 = Val id2 ∧
    (id1 = id2 → h1 = h2 ∨ collision sha256).
Proof.
  intros Hmax Hwf1 Hwf2 H1 H2.
  pose proof (pwp_header max _ Hmax (rest_bytes_ok _ Hwf1) st1 Hwf1 eq_refl) as Hok1. rewrite H1 in Hok1.
  pose proof (pwp_header max _ Hmax (rest_bytes_ok _ Hwf2) st2 Hwf2 eq_refl) as Hok2. rewrite H2 in Hok2.
  destruct Hok1 as [_ Hok1], Hok2 as [_ Hok2].
  do 2 eexists. split; [by apply (wallet_id_spec _ max)|]. split; [by apply (wallet_id_spec _ max)|].
  intros Heq. destruct (decide (serialize_header h1 = serialize_header h2)) as [Hs|Hs].
  - left. by eapply serialize_header_inj.
  - right. by do 2 eexists.
Qed.

(** Reading the serialization of a header within the limits returns the
    header and leaves the bytes after it; and reading any input returns,
    without an access outside of it. *)
Lemma wallet_header_round_trip max h l st :
  0 ≤ max < 2 ^ 16 → wf_buffer (in_buf st) →
  (∃ r, read_wallet_policy_header max st = Val r) ∧
  (header_ok max h → rest (in_buf st) = serialize_header h ++ l →
   ∃ st', read_wallet_policy_header max st = Val (Some (h, st')) ∧ rest (in_buf st') = l).
Proof.
  intros Hmax Hwf. split.
  - pose proof (pwp_header max _ Hmax (rest_bytes_ok _ Hwf) st Hwf eq_refl) as H.
    by destruct (read_wallet_policy_header max st); try done; eexists.
  - intros Hh Hl. destruct (parses_header max h l Hh st Hwf Hl) as (st' & ? & _ & ?). by exists st'.
Qed.

(** Two headers that differ in their names. *)
Definition sample_header (c : Z) : policy_map_wallet_header :=
  mk_header 2 1 13 [c] (replicate 32 7) 1 (replicate 32 9).
Definition header_state (h : policy_map_wallet_header) : parse_state :=
  mk_parse_state (buffer_create (serialize_header h) (zlen (serialize_header h))) (buffer_create [] 0).

Lemma wallet_id_binding_witness :
  ∃ id1 id2, get_policy_wallet_id (λ l, l) (sample_header 65) = Val id1 ∧
    get_policy_wallet_id (λ l, l) (sample_header 66) = Val id2 ∧ id1 ≠ id2.
Proof.
  destruct (wallet_id_binding (λ l, l) 512 (header_state (sample_header 65)) (header_state (sample_header 66))
    (sample_header 65) (sample_header 66)
    (mk_parse_state (mk_buffer (serialize_header (sample_header 65)) 69 69) (buffer_create [] 0))
    (mk_parse_state (mk_buffer (serialize_header (sample_header 66)) 69 69) (buffer_create [] 0)))
    as (id1 & id2 & H1 & H2 & Hid).
  - done.
  - by apply (bool_decide_unpack _).
  - by apply (bool_decide_unpack _).
  - vm_compute. reflexivity.
  - vm_compute. reflexivity.
  - exists id1, id2. split; [exact H1|]. split; [exact H2|]. intros Heq.
    destruct (Hid Heq) as [[=]|(x & y & Hne & Hxy)]. by apply Hne.
Defined.
