(* ===== verification/PolicyTypes.v ===== *)
(** * Wallet policies: the parser accepts only well-typed miniscript

    [miniscript_typed] is the type system of miniscript (the correctness
    properties of BIP-379) on the syntax trees of PolicySyntax.v, inside of wsh
    and inside of tr, with the abbreviations (pk, pkh, and_n and the wrappers t,
    l, u) typed through what they stand for; [typed] has the types that the code
    computes, which differ for multi_a and sortedmulti_a.  The theorems show that the parser of wallet.c terminates on every
    input without reading outside of it, and that every node of a tree it
    returns carries the flags of its type and respects the bounds on keys,
    thresholds, timelocks and hashes. *)

From Stdlib Require Ascii String.
Import String.StringSyntax Ascii.AsciiSyntax.
From S2P Require Import Prelude Bytes Bip32 Buffer PolicySyntax PolicyParser PolicyLogic.

Local Notation B := MINISCRIPT_TYPE_B.
Local Notation V := MINISCRIPT_TYPE_V.
Local Notation K := MINISCRIPT_TYPE_K.
Local Notation W := MINISCRIPT_TYPE_W.

(** ** The type system *)

(** "All children are z, except one that is o." *)
Definition one_o (fs : list ms_flags) : Prop :=
  ∃ fs1 f fs2, fs = fs1 ++ f :: fs2 ∧ mod_o f = true ∧ Forall (λ f, mod_z f = true) (fs1 ++ fs2).

Definition Bdu (f : ms_flags) : Prop := ty f = B ∧ mod_d f = true ∧ mod_u f = true.
Definition Wdu (f : ms_flags) : Prop := ty f = W ∧ mod_d f = true ∧ mod_u f = true.

(** The modifiers in the order z, o, n, d, u; the flags that a node stores are
    ignored.  [multi] and [multi_a] are the types of the two kinds of multisig,
    which depend on where the expression is. *)
Section types.
Context (multi multi_a : ms_flags → Prop).

Inductive typed_with : policy_node → ms_flags → Prop :=
| T_0 f : typed_with (policy_node_constant TOKEN_0 f) (mk_flags B true false false true true)
| T_1 f : typed_with (policy_node_constant TOKEN_1 f) (mk_flags B true false false false true)
| T_pk_k f kp : typed_with (policy_node_with_key TOKEN_PK_K f kp) (mk_flags K false true true true true)
| T_pk_h f kp : typed_with (policy_node_with_key TOKEN_PK_H f kp) (mk_flags K false false true true true)
| T_older f n : typed_with (policy_node_with_uint32 TOKEN_OLDER f n) (mk_flags B true false false false false)
| T_after f n : typed_with (policy_node_with_uint32 TOKEN_AFTER f n) (mk_flags B true false false false false)
| T_sha256 f h : typed_with (policy_node_with_hash_256 TOKEN_SHA256 f h) (mk_flags B false true true true true)
| T_hash256 f h : typed_with (policy_node_with_hash_256 TOKEN_HASH256 f h) (mk_flags B false true true true true)
| T_ripemd160 f h : typed_with (policy_node_with_hash_160 TOKEN_RIPEMD160 f h) (mk_flags B false true true true true)
| T_hash160 f h : typed_with (policy_node_with_hash_160 TOKEN_HASH160 f h) (mk_flags B false true true true true)
| T_multi f k kps F : multi F → typed_with (policy_node_multisig TOKEN_MULTI f k kps) F
| T_multi_a f k kps F : multi_a F → typed_with (policy_node_multisig TOKEN_MULTI_A f k kps) F
| T_sortedmulti_a f k kps F : multi_a F → typed_with (policy_node_multisig TOKEN_SORTEDMULTI_A f k kps) F
| T_andor f x y z X Y Z : typed_with x X → typed_with y Y → typed_with z Z →
    Bdu X → ty Y = ty Z → ty Y ≠ W →
    typed_with (policy_node_with_script3 TOKEN_ANDOR f x y z)
      (mk_flags (ty Y) (mod_z X && mod_z Y && mod_z Z)
         ((mod_z X && mod_o Y && mod_o Z) || (mod_o X && mod_z Y && mod_z Z))
         false (mod_d Z) (mod_u Y && mod_u Z))
| T_and_v f x y X Y : typed_with x X → typed_with y Y → ty X = V → ty Y ≠ W →
    typed_with (policy_node_with_script2 TOKEN_AND_V f x y)
      (mk_flags (ty Y) (mod_z X && mod_z Y) ((mod_z X && mod_o Y) || (mod_o X && mod_z Y))
         (mod_n X || (mod_z X && mod_n Y)) false (mod_u Y))
| T_and_b f x y X Y : typed_with x X → typed_with y Y → ty X = B → ty Y = W →
    typed_with (policy_node_with_script2 TOKEN_AND_B f x y)
      (mk_flags B (mod_z X && mod_z Y) ((mod_z X && mod_o Y) || (mod_o X && mod_z Y))
         (mod_n X || (mod_z X && mod_n Y)) (mod_d X && mod_d Y) true)
| T_or_b f x z X Z : typed_with x X → typed_with z Z → ty X = B → mod_d X = true → ty Z = W → mod_d Z = true →
    typed_with (policy_node_with_script2 TOKEN_OR_B f x z)
      (mk_flags B (mod_z X && mod_z Z) ((mod_z X && mod_o Z) || (mod_o X && mod_z Z)) false true true)
| T_or_c f x z X Z : typed_with x X → typed_with z Z → Bdu X → ty Z = V →
    typed_with (policy_node_with_script2 TOKEN_OR_C f x z)
      (mk_flags V (mod_z X && mod_z Z) (mod_o X && mod_z Z) false false false)
| T_or_d f x z X Z : typed_with x X → typed_with z Z → Bdu X → ty Z = B →
    typed_with (policy_node_with_script2 TOKEN_OR_D f x z)
      (mk_flags B (mod_z X && mod_z Z) (mod_o X && mod_z Z) false (mod_d Z) (mod_u Z))
| T_or_i f x z X Z : typed_with x X → typed_with z Z → ty X = ty Z → ty X ≠ W →
    typed_with (policy_node_with_script2 TOKEN_OR_I f x z)
      (mk_flags (ty X) false (mod_z X && mod_z Z) false (mod_d X || mod_d Z) (mod_u X && mod_u Z))
| T_thresh f k l x X fs o : typed_with x X → typed_list_with l fs → Bdu X → Forall Wdu fs →
    (o = true ↔ one_o (X :: fs)) →
    typed_with (policy_node_thresh TOKEN_THRESH f k (x :: l))
      (mk_flags B (forallb mod_z (X :: fs)) o false true true)
| T_a f x X : typed_with x X → ty X = B →
    typed_with (policy_node_with_script TOKEN_A f x) (mk_flags W false false false (mod_d X) (mod_u X))
| T_s f x X : typed_with x X → ty X = B → mod_o X = true →
    typed_with (policy_node_with_script TOKEN_S f x) (mk_flags W false false false (mod_d X) (mod_u X))
| T_c f x X : typed_with x X → ty X = K →
    typed_with (policy_node_with_script TOKEN_C f x) (mk_flags B false (mod_o X) (mod_n X) (mod_d X) true)
| T_d f x X : typed_with x X → ty X = V → mod_z X = true →
    typed_with (policy_node_with_script TOKEN_D f x) (mk_flags B false true true true false)
| T_v f x X : typed_with x X → ty X = B →
    typed_with (policy_node_with_script TOKEN_V f x) (mk_flags V (mod_z X) (mod_o X) (mod_n X) false false)
| T_j f x X : typed_with x X → ty X = B → mod_n X = true →
    typed_with (policy_node_with_script TOKEN_J f x) (mk_flags B false (mod_o X) true true (mod_u X))
| T_n f x X : typed_with x X → ty X = B →
    typed_with (policy_node_with_script TOKEN_N f x)
      (mk_flags B (mod_z X) (mod_o X) (mod_n X) (mod_d X) true)
(** Abbreviations: pk(K) is c:pk_k(K), pkh(K) is c:pk_h(K), and_n(X,Y) is
    andor(X,Y,0), t:X is and_v(X,1), l:X is or_i(0,X) and u:X is or_i(X,0). *)
| T_pk f f1 f2 kp t :
    typed_with (policy_node_with_script TOKEN_C f1 (policy_node_with_key TOKEN_PK_K f2 kp)) t →
    typed_with (policy_node_with_key TOKEN_PK f kp) t
| T_pkh f f1 f2 kp t :
    typed_with (policy_node_with_script TOKEN_C f1 (policy_node_with_key TOKEN_PK_H f2 kp)) t →
    typed_with (policy_node_with_key TOKEN_PKH f kp) t
| T_and_n f f1 f2 x y t :
    typed_with (policy_node_with_script3 TOKEN_ANDOR f1 x y (policy_node_constant TOKEN_0 f2)) t →
    typed_with (policy_node_with_script2 TOKEN_AND_N f x y) t
| T_t f f1 f2 x t :
    typed_with (policy_node_with_script2 TOKEN_AND_V f1 x (policy_node_constant TOKEN_1 f2)) t →
    typed_with (policy_node_with_script TOKEN_T f x) t
| T_l f f1 f2 x t :
    typed_with (policy_node_with_script2 TOKEN_OR_I f1 (policy_node_constant TOKEN_0 f2) x) t →
    typed_with (policy_node_with_script TOKEN_L f x) t
| T_u f f1 f2 x t :
    typed_with (policy_node_with_script2 TOKEN_OR_I f1 x (policy_node_constant TOKEN_0 f2)) t →
    typed_with (policy_node_with_script TOKEN_U f x) t
with typed_list_with : list policy_node → list ms_flags → Prop :=
| T_nil : typed_list_with [] []
| T_cons x l X fs : typed_with x X → typed_list_with l fs → typed_list_with (x :: l) (X :: fs).
End types.

#[global] Arguments T_0 {_ _}.
#[global] Arguments T_1 {_ _}.
#[global] Arguments T_pk_k {_ _}.
#[global] Arguments T_pk_h {_ _}.
#[global] Arguments T_older {_ _}.
#[global] Arguments T_after {_ _}.
#[global] Arguments T_sha256 {_ _}.
#[global] Arguments T_hash256 {_ _}.
#[global] Arguments T_ripemd160 {_ _}.
#[global] Arguments T_hash160 {_ _}.
#[global] Arguments T_multi {_ _}.
#[global] Arguments T_multi_a {_ _}.
#[global] Arguments T_sortedmulti_a {_ _}.
#[global] Arguments T_andor {_ _}.
#[global] Arguments T_and_v {_ _}.
#[global] Arguments T_and_b {_ _}.
#[global] Arguments T_or_b {_ _}.
#[global] Arguments T_or_c {_ _}.
#[global] Arguments T_or_d {_ _}.
#[global] Arguments T_or_i {_ _}.
#[global] Arguments T_thresh {_ _}.
#[global] Arguments T_a {_ _}.
#[global] Arguments T_s {_ _}.
#[global] Arguments T_c {_ _}.
#[global] Arguments T_d {_ _}.
#[global] Arguments T_v {_ _}.
#[global] Arguments T_j {_ _}.
#[global] Arguments T_n {_ _}.
#[global] Arguments T_pk {_ _}.
#[global] Arguments T_pkh {_ _}.
#[global] Arguments T_and_n {_ _}.
#[global] Arguments T_t {_ _}.
#[global] Arguments T_l {_ _}.
#[global] Arguments T_u {_ _}.
#[global] Arguments T_nil {_ _}.
#[global] Arguments T_cons {_ _}.

(** Bndu, the type of multi, and Bdu, the type of multi_a. *)
Definition flags_ndu : ms_flags := mk_flags B false false true true true.
Definition flags_du : ms_flags := mk_flags B false false false true true.

(** The types of miniscript, inside of wsh, where there is no multi_a, and inside
    of tr, where there is no multi. *)
Definition miniscript_typed (tapscript : bool) : policy_node → ms_flags → Prop :=
  typed_with (λ F, tapscript = false ∧ F = flags_ndu) (λ F, tapscript = true ∧ F = flags_du).

(** The types that the code computes: it gives the type of multi to multi_a and
    sortedmulti_a, and accepts all of them inside of wsh. *)
Abbreviation typed := (typed_with (λ F, F = flags_ndu) (λ F, F = flags_ndu)).
Abbreviation typed_list := (typed_list_with (λ F, F = flags_ndu) (λ F, F = flags_ndu)).

Scheme typed_mut := Induction for typed_with Sort Prop
with typed_list_mut := Induction for typed_list_with Sort Prop.

(** Case analysis on the modifiers that the goal mentions. *)
Ltac mod_cases :=
  repeat match goal with
  | |- context [mod_z ?F] => destruct (mod_z F)
  | |- context [mod_o ?F] => destruct (mod_o F)
  end; try done.

(** No expression consumes both zero and exactly one element of the stack. *)
Lemma typed_exclusive x X : typed x X → mod_z X && mod_o X = false.
Proof.
  revert x X.
  apply (typed_mut _ _ (λ x X _, mod_z X && mod_o X = false)
           (λ l fs _, Forall (λ f, mod_z f && mod_o f = false) fs)); intros; cbn; try done; try (by subst);
    try (by repeat match goal with H : _ && _ = false |- _ => revert H end; mod_cases).
  - destruct o; [|apply andb_false_r]. rw andb_true_r.
    match goal with H : _ ↔ _ |- _ => destruct (proj1 H eq_refl) as (fs1 & g & fs2 & Heq & Ho & _) end.
    assert (Forall (λ f, mod_z f && mod_o f = false) (fs1 ++ g :: fs2)) as Hex by (rw -Heq; by constructor).
    apply Forall_app in Hex as [_ [Hg _]%Forall_cons]. rewrite Ho andb_true_r in Hg.
    change (forallb mod_z (X :: fs) = false). rw Heq forallb_app /= Hg. apply andb_false_r.
  - by constructor.
Qed.

Lemma typed_list_exclusive l fs : typed_list l fs → Forall (λ f, mod_z f && mod_o f = false) fs.
Proof. induction 1; constructor; [by eapply typed_exclusive|done]. Qed.

(** ** Subexpressions *)
Inductive in_tree (n : policy_node) : policy_node_tree → Prop :=
| in_leaf : in_tree n (tree_leaf n)
| in_left t1 t2 : in_tree n t1 → in_tree n (tree_node t1 t2)
| in_right t1 t2 : in_tree n t2 → in_tree n (tree_node t1 t2).

Inductive child : policy_node → policy_node → Prop :=
| child_script t f x : child x (policy_node_with_script t f x)
| child_script2_1 t f x y : child x (policy_node_with_script2 t f x y)
| child_script2_2 t f x y : child y (policy_node_with_script2 t f x y)
| child_script3_1 t f x y z : child x (policy_node_with_script3 t f x y z)
| child_script3_2 t f x y z : child y (policy_node_with_script3 t f x y z)
| child_script3_3 t f x y z : child z (policy_node_with_script3 t f x y z)
| child_thresh t f k l x : x ∈ l → child x (policy_node_thresh t f k l)
| child_tr t f kp tree x : in_tree x tree → child x (policy_node_tr t f kp (Some tree)).

Inductive subnode (m : policy_node) : policy_node → Prop :=
| sub_refl : subnode m m
| sub_child c n : child c n → subnode m c → subnode m n.

(** Induction on the children of a node, from the number of its nodes. *)
Fixpoint node_size (n : policy_node) : nat :=
  match n with
  | policy_node_with_script _ _ x => S (node_size x)
  | policy_node_with_script2 _ _ x y => S (node_size x + node_size y)
  | policy_node_with_script3 _ _ x y z => S (node_size x + node_size y + node_size z)
  | policy_node_thresh _ _ _ l => S (sum_list_with node_size l)
  | policy_node_tr _ _ _ (Some tree) => S (tree_size tree)
  | _ => 1
  end
with tree_size (t : policy_node_tree) : nat :=
  match t with
  | tree_leaf x => node_size x
  | tree_node l r => tree_size l + tree_size r
  end.

Lemma child_smaller c n : child c n → (node_size c < node_size n)%nat.
Proof.
  destruct 1 as [| | | | | |? ? ? l x Hx|? ? ? tree x Hx]; cbn; try lia.
  - enough (node_size x ≤ sum_list_with node_size l)%nat by lia. by apply sum_list_with_in.
  - enough (node_size x ≤ tree_size tree)%nat by lia. induction Hx; cbn; lia.
Qed.

Lemma policy_node_children_ind (P : policy_node → Prop) :
  (∀ n, (∀ c, child c n → P c) → P n) → ∀ n, P n.
Proof.
  intros H n. induction n as [n IH] using (induction_ltof1 _ node_size).
  apply H. intros c Hc. apply IH. by apply child_smaller.
Qed.

(** A condition on every node of an expression. *)
Fixpoint all_nodes (P : policy_node → bool) (n : policy_node) : bool :=
  P n &&
  match n with
  | policy_node_with_script _ _ x => all_nodes P x
  | policy_node_with_script2 _ _ x y => all_nodes P x && all_nodes P y
  | policy_node_with_script3 _ _ x y z => all_nodes P x && all_nodes P y && all_nodes P z
  | policy_node_thresh _ _ _ l => forallb (all_nodes P) l
  | policy_node_tr _ _ _ (Some tree) => all_tree_nodes P tree
  | _ => true
  end
with all_tree_nodes (P : policy_node → bool) (t : policy_node_tree) : bool :=
  match t with
  | tree_leaf x => all_nodes P x
  | tree_node l r => all_tree_nodes P l && all_tree_nodes P r
  end.

Lemma all_nodes_self P n : all_nodes P n = true → P n = true.
Proof. destruct n; cbn; by intros [? _]%andb_true_iff. Qed.

Lemma all_nodes_child P n c : all_nodes P n = true → child c n → all_nodes P c = true.
Proof.
  intros Hn Hc. destruct Hc as [| | | | | |? ? ? l x Hx|? ? ? tree x Hx]; cbn in Hn;
    rewrite ?andb_true_iff in Hn; try naive_solver.
  - destruct Hn as [_ Hl]. rewrite forallb_forall in Hl. apply Hl. by apply list_elem_of_In.
  - destruct Hn as [_ Ht]. induction Hx; cbn in Ht; rewrite ?andb_true_iff in Ht; naive_solver.
Qed.

Lemma all_nodes_spec P n m : all_nodes P n = true → subnode m n → P m = true.
Proof.
  intros Hn Hm. revert Hn. induction Hm as [|c n Hc Hm IH]; intros Hn; [by apply all_nodes_self|].
  apply IH. by eapply all_nodes_child.
Qed.

(** The bounds that the parser checks on the parameters of a node. *)
Definition bounds_ok (n : policy_node) : Prop :=
  match n with
  | policy_node_with_key _ _ kp | policy_node_tr _ _ kp _ => placeholder_ok kp
  | policy_node_with_uint32 _ _ n => 1 ≤ n < 2 ^ 31
  | policy_node_multisig _ _ k kps =>
      1 ≤ k ≤ zlen kps ∧ zlen kps ≤ MAX_PUBKEYS_PER_MULTISIG ∧ Forall placeholder_ok kps
  | policy_node_thresh _ _ k l => 1 ≤ k ≤ INT16_MAX ∧ 1 ≤ zlen l
  | policy_node_with_hash_160 _ _ h => zlen h = 20 ∧ bytes_ok h
  | policy_node_with_hash_256 _ _ h => zlen h = 32 ∧ bytes_ok h
  | _ => True
  end.

Definition node_ok (n : policy_node) : Prop :=
  (∀ f, node_flags n = Some f → typed n f) ∧ bounds_ok n.

(** All the nodes of an expression. *)
Definition policy_ok (n : policy_node) : Prop := ∀ m, subnode m n → node_ok m.
Definition tree_ok (t : policy_node_tree) : Prop := ∀ x, in_tree x t → policy_ok x.

Lemma policy_ok_intro n : node_ok n → (∀ c, child c n → policy_ok c) → policy_ok n.
Proof. intros Hn Hc m Hm. inversion Hm; subst; [done|]. by eapply Hc. Qed.

Lemma policy_ok_typed n f : policy_ok n → node_flags n = Some f → typed n f.
Proof. intros Hn Hf. by apply (Hn n (sub_refl n)). Qed.

(** ** The flags that the code computes are the types

    One lemma for each of the conditions of [parse_script]. *)
Ltac flags_cases H :=
  unfold is_ty in H;
  repeat match type of H with
  | context [bool_decide ?P] => destruct (bool_decide_reflect P) as [?|?]
  | context [negb (mod_d ?F)] => let E := fresh "E" in destruct (mod_d F) eqn:E
  | context [negb (mod_u ?F)] => let E := fresh "E" in destruct (mod_u F) eqn:E
  | context [negb (mod_o ?F)] => let E := fresh "E" in destruct (mod_o F) eqn:E
  | context [negb (mod_z ?F)] => let E := fresh "E" in destruct (mod_z F) eqn:E
  | context [negb (mod_n ?F)] => let E := fresh "E" in destruct (mod_n F) eqn:E
  end; cbn in H; try discriminate H; injection H as <-.

Section flags.
Context (x y z : policy_node) (X Y Z : ms_flags).
Context (Hx : typed x X) (Hy : typed y Y) (Hz : typed z Z).

Lemma andor_typed f g : andor_flags X Y Z = Some f → typed (policy_node_with_script3 TOKEN_ANDOR g x y z) f.
Proof. unfold andor_flags. intros H. flags_cases H. by constructor. Qed.

Lemma and_v_typed f g : and_v_flags X Y = Some f → typed (policy_node_with_script2 TOKEN_AND_V g x y) f.
Proof. unfold and_v_flags. intros H. flags_cases H. by constructor. Qed.

Lemma and_b_typed f g : and_b_flags X Y = Some f → typed (policy_node_with_script2 TOKEN_AND_B g x y) f.
Proof. unfold and_b_flags. intros H. flags_cases H. by constructor. Qed.

Lemma or_b_typed f g : or_b_flags X Y = Some f → typed (policy_node_with_script2 TOKEN_OR_B g x y) f.
Proof. unfold or_b_flags. intros H. flags_cases H. by constructor. Qed.

Lemma or_c_typed f g : or_c_flags X Y = Some f → typed (policy_node_with_script2 TOKEN_OR_C g x y) f.
Proof. unfold or_c_flags. intros H. flags_cases H. by constructor. Qed.

Lemma or_d_typed f g : or_d_flags X Y = Some f → typed (policy_node_with_script2 TOKEN_OR_D g x y) f.
Proof. unfold or_d_flags. intros H. flags_cases H. by constructor. Qed.

Lemma or_i_typed f g : or_i_flags X Y = Some f → typed (policy_node_with_script2 TOKEN_OR_I g x y) f.
Proof. unfold or_i_flags. intros H. flags_cases H. by constructor. Qed.

Lemma and_n_typed f g : and_n_flags X Y = Some f → typed (policy_node_with_script2 TOKEN_AND_N g x y) f.
Proof.
  unfold and_n_flags. intros H. flags_cases H. apply (T_and_n _ None None).
  pose proof (T_andor None x y _ X Y _ Hx Hy (T_0 None)) as Ht. cbn in Ht.
  rewrite !andb_true_r !andb_false_r !orb_false_l in Ht.
  replace B with (ty Y) at 1 by done. apply Ht; [done|congruence..].
Qed.

Lemma wrapper_typed t f g : wrapper_flags t X = Some f → typed (policy_node_with_script t g x) f.
Proof.
  unfold wrapper_flags. intros H. destruct t; try discriminate H; flags_cases H; try by econstructor.
  - apply (T_t _ None None). pose proof (T_and_v None x _ X _ Hx (T_1 None)) as Ht. cbn in Ht.
    rewrite !andb_true_r !andb_false_r orb_false_l orb_false_r in Ht. by apply Ht.
  - apply (T_l _ None None). pose proof (T_or_i None _ x _ X (T_0 None) Hx) as Ht. cbn in Ht. by apply Ht.
  - apply (T_u _ None None). pose proof (T_or_i None x _ X _ Hx (T_0 None)) as Ht. cbn in Ht.
    rewrite !andb_true_r orb_true_r in Ht. replace B with (ty X) at 1 by done. apply Ht; congruence.
Qed.
End flags.

Lemma key_typed t f g kp : key_flags t = Some f → typed (policy_node_with_key t g kp) f.
Proof.
  destruct t; intros [= <-]; try constructor.
  - apply (T_pk _ None None). apply (T_c None _ _ (T_pk_k None kp)). done.
  - apply (T_pkh _ None None). apply (T_c None _ _ (T_pk_h None kp)). done.
Qed.

(** ** Counting the children of thresh *)
Definition zcount (p : ms_flags → bool) (fs : list ms_flags) : Z := foldr (λ f a, Z.b2z (p f) + a) 0 fs.

Lemma zcount_app p fs1 fs2 : zcount p (fs1 ++ fs2) = zcount p fs1 + zcount p fs2.
Proof. induction fs1 as [|f fs1 IH]; [done|]. cbn. rewrite -!/(zcount p _) IH. lia. Qed.

Lemma zcount_range p fs : 0 ≤ zcount p fs ≤ zlen fs.
Proof. induction fs as [|f fs IH]; [done|]. rw zlen_cons /= -/(zcount p fs). destruct (p f); cbn; lia. Qed.

Lemma zcount_all p fs : zcount p fs = zlen fs ↔ Forall (λ f, p f = true) fs.
Proof.
  induction fs as [|f fs IH]; [done|]. rw zlen_cons /= -/(zcount p fs) Forall_cons -IH.
  pose proof (zcount_range p fs). destruct (p f); cbn; naive_solver lia.
Qed.

Lemma forallb_Forall {A} (p : A → bool) (l : list A) : forallb p l = true ↔ Forall (λ x, p x = true) l.
Proof. induction l as [|x l IH]; [done|]. by rw /= andb_true_iff Forall_cons IH. Qed.

Lemma zcount_none p fs : zcount p fs = 0 ↔ Forall (λ f, p f = false) fs.
Proof.
  induction fs as [|f fs IH]; [done|]. rw /= -/(zcount p fs) Forall_cons -IH.
  pose proof (zcount_range p fs). destruct (p f); cbn; naive_solver lia.
Qed.

Lemma one_o_count fs :
  Forall (λ f, mod_z f && mod_o f = false) fs →
  zcount mod_z fs = zlen fs - 1 ∧ zcount mod_o fs = 1 ↔ one_o fs.
Proof.
  intros Hex. split.
  - intros [Hz Ho]. assert (¬ Forall (λ f, mod_o f = false) fs) as Hn.
    { rw -zcount_none. lia. }
    apply not_Forall_Exists in Hn; [|intros ?; apply _].
    apply Exists_exists in Hn as (f & Hf & Hof). apply list_elem_of_split in Hf as (fs1 & fs2 & ->).
    apply not_false_is_true in Hof. exists fs1, f, fs2. split_and!; [done..|].
    apply Forall_app in Hex as [_ [Hfz _]%Forall_cons]. rewrite Hof andb_true_r in Hfz.
    apply zcount_all. rewrite zcount_app zlen_app zlen_cons /= Hfz -/(zcount mod_z fs2) in Hz.
    rw zcount_app zlen_app. cbn in Hz. lia.
  - intros (fs1 & f & fs2 & -> & Ho & Hz). rewrite Forall_app in Hz. destruct Hz as [Hz1 Hz2].
    apply Forall_app in Hex as [Hex1 [Hf Hex2]%Forall_cons]. rewrite Ho andb_true_r in Hf.
    assert (∀ fs, Forall (λ f, mod_z f && mod_o f = false) fs → Forall (λ f, mod_z f = true) fs →
      zcount mod_o fs = 0) as H0.
    { intros gs Hgs1 Hgs2. apply zcount_none. eapply Forall_impl; [apply Forall_and; split; [exact Hgs1|exact Hgs2]|].
      intros g [Hg1 Hg2]. by rewrite Hg2 in Hg1. }
    rw !zcount_app zlen_app zlen_cons /= Ho Hf -!/(zcount _ fs2) (H0 fs1) // (H0 fs2) //.
    rw (proj2 (zcount_all mod_z fs1)) // (proj2 (zcount_all mod_z fs2)) //. cbn. lia.
Qed.

Lemma thresh_typed g k x l X fs :
  typed x X → typed_list l fs → Bdu X → Forall Wdu fs →
  typed (policy_node_thresh TOKEN_THRESH g k (x :: l))
    (thresh_flags (zlen (X :: fs)) (zcount mod_z (X :: fs)) (zcount mod_o (X :: fs))).
Proof.
  intros Hx Hl HX Hfs. rw /thresh_flags.
  assert (Forall (λ f, mod_z f && mod_o f = false) (X :: fs)) as Hex.
  { constructor; [by eapply typed_exclusive|by eapply typed_list_exclusive]. }
  replace (zcount mod_z (X :: fs) =? zlen (X :: fs)) with (forallb mod_z (X :: fs)).
  - apply T_thresh; [done..|]. rw -one_o_count; [|done]. rw andb_true_iff !Z.eqb_eq. done.
  - apply eq_true_iff_eq. by rw Z.eqb_eq zcount_all forallb_Forall.
Qed.

(** What the loop over the children establishes when [n] of them were parsed
    before. *)
Definition thresh_children (n : Z) (fs : list ms_flags) : Prop :=
  if decide (n = 0) then ∃ X fs', fs = X :: fs' ∧ Bdu X ∧ Forall Wdu fs' else Forall Wdu fs.

Lemma thresh_children_cons n X fs :
  0 ≤ n → thresh_child_ok (n + 1) X = true → thresh_children (n + 1) fs ∨ fs = [] →
  thresh_children n (X :: fs).
Proof.
  rw /thresh_child_ok /thresh_children /is_ty. intros Hn HX Hfs.
  rw !andb_true_iff in HX. destruct HX as [[Ht Hd] Hu].
  assert (Forall Wdu fs) as HW by (destruct Hfs as [Hfs| ->]; [|done]; by rewrite decide_False in Hfs; [|lia]).
  clear Hfs. destruct (decide (n = 0)) as [->|H0].
  - cbn in Ht. apply bool_decide_eq_true in Ht. by exists X, fs.
  - rewrite (proj2 (Z.eqb_neq _ _)) in Ht; [|lia]. apply bool_decide_eq_true in Ht. by constructor.
Qed.

(** ** The cases of the parser *)

(** The result satisfies [P] and characters were only consumed. *)
Definition shrinks {A} (P : A → Prop) (l : list Z) (a : A) (l' : list Z) : Prop :=
  P a ∧ (length l' ≤ length l)%nat.

Section cases.
Context (sizeof : abi) (base version : Z).
Context (ps : Z → Z → parser policy_node) (pt : Z → parser policy_node_tree) (N : nat).
Context (Hps : ∀ depth ctx l, (length l < N)%nat → pwp (ps depth ctx) (shrinks policy_ok l) l).
Context (Hpt : ∀ depth l, (length l < N)%nat → pwp (pt depth) (shrinks tree_ok l) l).

Lemma pwp_miniscript x (Q : ms_flags → list Z → Prop) l :
  policy_ok x → (∀ X, typed x X → Q X l) → pwp (miniscript x) Q l.
Proof.
  intros Hx HQ. rw /miniscript. destruct (node_flags x) as [X|] eqn:Hf; [|pwp_step].
  pwp_step. by apply HQ, policy_ok_typed.
Qed.

Lemma pwp_valid_type o (Q : ms_flags → list Z → Prop) l :
  (∀ f, o = Some f → Q f l) → pwp (valid_type o) Q l.
Proof. intros HQ. destruct o; cbn; pwp_step. by apply HQ. Qed.

Lemma children_spec n depth ctx l :
  (length l < N)%nat →
  pwp (parse_child_scripts base ps n depth ctx) (shrinks (λ cs, length cs = n ∧ Forall policy_ok cs) l) l.
Proof.
  revert l. induction n as [|n IH]; intros l Hl; cbn [parse_child_scripts]; [by pwp_step|].
  pwp_step. apply pwp_align. pwp_step. eapply pwp_mono; [by apply Hps|]. intros x l1 [Hx Hl1].
  assert (∀ l2, (length l2 ≤ length l1)%nat →
    pwp (children ← parse_child_scripts base ps n depth ctx; mret (x :: children))
      (shrinks (λ cs, length cs = S n ∧ Forall policy_ok cs) l) l2) as Htail.
  { intros l2 Hl2. pwp_step. eapply pwp_mono; [apply IH; lia|]. intros cs l3 [[Hn Hcs] Hl3]. pwp_step.
    split; [|lia]. split; [by rw /= Hn|by constructor]. }
  pwp_step. destruct n; [pwp_step; by apply Htail|]. apply pwp_expect. intros l2 ->. apply Htail. cbn. lia.
Qed.

Lemma binary_spec t flags depth ctx l :
  (∀ x y X Y f g, typed x X → typed y Y → flags X Y = Some f → typed (policy_node_with_script2 t g x y) f) →
  (length l < N)%nat →
  pwp (parse_binary sizeof base ps t flags depth ctx) (shrinks policy_ok l) l.
Proof.
  intros Ht Hl. rw /parse_binary /parse_child_scripts2. pwp_step. apply pwp_alloc. do 2 pwp_step.
  eapply pwp_mono; [by apply children_spec|]. intros cs l1 [[Hn Hcs] Hl1].
  destruct cs as [|x [|y [|]]]; try done. pwp_step.
  apply Forall_cons in Hcs as [Hx Hcs]. apply Forall_cons in Hcs as [Hy _].
  pwp_step. apply pwp_miniscript; [done|]. intros X HX. pwp_step. apply pwp_miniscript; [done|]. intros Y HY.
  pwp_step. apply pwp_valid_type. intros f Hf. pwp_step. split; [|lia].
  apply policy_ok_intro; [|intros c Hc; by inversion Hc; subst].
  split; [|done]. intros g [= <-]. by eapply Ht.
Qed.

Lemma andor_spec depth ctx l :
  (length l < N)%nat → pwp (parse_andor sizeof base ps depth ctx) (shrinks policy_ok l) l.
Proof.
  intros Hl. rw /parse_andor. pwp_step. apply pwp_alloc. pwp_step.
  eapply pwp_mono; [by apply children_spec|]. intros cs l1 [[Hn Hcs] Hl1].
  destruct cs as [|x [|y [|z [|]]]]; try done.
  apply Forall_cons in Hcs as [Hx Hcs]. apply Forall_cons in Hcs as [Hy Hcs]. apply Forall_cons in Hcs as [Hz _].
  pwp_step. apply pwp_miniscript; [done|]. intros X HX. pwp_step. apply pwp_miniscript; [done|]. intros Y HY.
  pwp_step. apply pwp_miniscript; [done|]. intros Z' HZ.
  pwp_step. apply pwp_valid_type. intros f Hf. pwp_step. split; [|lia].
  apply policy_ok_intro; [|intros c Hc; by inversion Hc; subst].
  split; [|done]. intros g [= <-]. by eapply andor_typed.
Qed.

(** A leaf of the syntax tree. *)
Lemma leaf_ok n : node_ok n → (∀ c, ¬ child c n) → policy_ok n.
Proof. intros Hn Hc. apply policy_ok_intro; [done|]. intros c Hch. by destruct (Hc c). Qed.

(** A node without children whose flags are those of its type. *)
Ltac leaf_node H :=
  apply leaf_ok; [|by intros c Hc; inversion Hc];
  split; [intros f [= <-]; destruct H as [-> | ->]; constructor|].

Lemma constant_spec t l :
  t = TOKEN_0 ∨ t = TOKEN_1 → pwp (parse_constant sizeof base t) (shrinks policy_ok l) l.
Proof.
  intros Ht. rw /parse_constant. pwp_step. apply pwp_alloc. pwp_step. split; [|done].
  by leaf_node Ht.
Qed.

Lemma hash_256_spec t l :
  t = TOKEN_SHA256 ∨ t = TOKEN_HASH256 → pwp (parse_hash_256 sizeof base t) (shrinks policy_ok l) l.
Proof.
  intros Ht. rw /parse_hash_256. pwp_step. apply pwp_alloc. pwp_step. apply pwp_read_hex_hash; [|done].
  intros h l' Hh Hok Hl. pwp_step. split; [|done].
  by leaf_node Ht.
Qed.

Lemma hash_160_spec t l :
  t = TOKEN_RIPEMD160 ∨ t = TOKEN_HASH160 → pwp (parse_hash_160 sizeof base t) (shrinks policy_ok l) l.
Proof.
  intros Ht. rw /parse_hash_160. pwp_step. apply pwp_alloc. pwp_step. apply pwp_read_hex_hash; [|done].
  intros h l' Hh Hok Hl. pwp_step. split; [|done].
  by leaf_node Ht.
Qed.

Lemma key_spec t depth ctx l : pwp (parse_key sizeof base version t depth ctx) (shrinks policy_ok l) l.
Proof.
  rw /parse_key. pwp_step. apply pwp_alloc. pwp_step. apply pwp_alloc. do 3 pwp_step.
  apply pwp_parse_placeholder. intros kp l' Hkp Hl. pwp_step. split; [|lia].
  apply leaf_ok; [|by intros c Hc; inversion Hc]. split; [|done]. intros f Hf. by apply key_typed.
Qed.

Lemma timelock_spec t l :
  t = TOKEN_OLDER ∨ t = TOKEN_AFTER → pwp (parse_timelock sizeof base t) (shrinks policy_ok l) l.
Proof.
  intros Ht. rw /parse_timelock. pwp_step. apply pwp_alloc. pwp_step. apply pwp_decimal_shrinks.
  intros n l' Hn Hl. pwp_steps. split; [|lia].
  leaf_node Ht. cbn. lia.
Qed.

Lemma multisig_loop_spec fuel l :
  (length l < fuel)%nat →
  pwp (multisig_loop sizeof base fuel version) (shrinks (Forall placeholder_ok) l) l.
Proof.
  revert l. induction fuel as [|fuel IH]; intros l Hf; [lia|]. cbn [multisig_loop].
  do 2 pwp_step. case_bool_decide; [by pwp_step|].
  pwp_step. apply pwp_expect. intros l1 ->. pwp_step. apply pwp_alloc. pwp_step.
  apply pwp_parse_placeholder. intros kp l2 Hkp Hl2. pwp_step. cbn in Hf.
  eapply pwp_mono; [apply IH; lia|]. intros kps l3 [Hkps Hl3]. pwp_step. split; [by constructor|cbn; lia].
Qed.

Lemma multisig_spec t depth ctx l :
  t ∈ [TOKEN_MULTI; TOKEN_MULTI_A; TOKEN_SORTEDMULTI; TOKEN_SORTEDMULTI_A] →
  pwp (parse_multisig sizeof base version t depth ctx) (shrinks policy_ok l) l.
Proof.
  intros Ht. rw /parse_multisig. pwp_step. apply pwp_alloc. do 3 pwp_step.
  apply pwp_decimal_shrinks. intros k l1 Hk Hl1. do 3 pwp_step. apply pwp_align. do 3 pwp_step.
  eapply pwp_mono; [apply multisig_loop_spec; lia|]. intros kps l2 [Hkps Hl2]. pwp_steps. split; [|lia].
  apply leaf_ok; [|by intros c Hc; inversion Hc]. split.
  - intros f. cbn [node_flags]. case_decide as Hd; [done|]. intros [= <-].
    rewrite !elem_of_cons elem_of_nil in Ht. destruct Ht as [-> | [-> | [-> | [-> | []]]]]; [by constructor..|done|by constructor].
  - cbn. split; [lia|]. split; [lia|done].
Qed.

Lemma thresh_loop_spec fuel n depth ctx cz co l :
  0 ≤ n → (length l < fuel)%nat → (length l < N)%nat →
  pwp (thresh_loop sizeof base ps fuel depth ctx n cz co)
    (shrinks (λ '(scripts, cz', co'), ∃ fs, typed_list scripts fs ∧ Forall policy_ok scripts ∧
       thresh_children n fs ∧ fs ≠ [] ∧ cz' = cz + zcount mod_z fs ∧ co' = co + zcount mod_o fs) l) l.
Proof.
  revert n cz co l. induction fuel as [|fuel IH]; intros n cz co l Hn Hf HN; [lia|]. cbn [thresh_loop].
  pwp_step. apply pwp_align. pwp_step. eapply pwp_mono; [by apply Hps|]. intros x l1 [Hx Hl1].
  pwp_step. apply pwp_miniscript; [done|]. intros X HX. do 3 pwp_step.
  apply pwp_consume_character.
  - intros l2 ->. pwp_step. apply pwp_alloc. pwp_step. cbn in Hl1.
    eapply pwp_mono; [apply IH; lia|]. intros [[scripts cz'] co'] l3 [(fs & Hfs & Hok & Hch & Hne & -> & ->) Hl3].
    pwp_step. split; [|lia]. exists (X :: fs). split_and!; [by constructor|by constructor| |done|cbn..].
    + apply thresh_children_cons; [done..|by left].
    + rw -/(zcount mod_z fs). lia.
    + rw -/(zcount mod_o fs). lia.
  - intros _. pwp_step. split; [|done]. exists [X].
    split_and!; [by repeat constructor|by constructor| |done|cbn; lia|cbn; lia].
    apply thresh_children_cons; [done..|by right].
Qed.

Lemma typed_list_zlen scripts fs : typed_list scripts fs → zlen scripts = zlen fs.
Proof. induction 1; [done|]. rw !zlen_cons. lia. Qed.

Lemma thresh_spec depth ctx l :
  (length l < N)%nat → pwp (parse_thresh sizeof base ps depth ctx) (shrinks policy_ok l) l.
Proof.
  intros Hl. rw /parse_thresh. pwp_step. apply pwp_alloc. pwp_step. apply pwp_decimal_shrinks.
  intros k l1 Hk Hl1. do 3 pwp_step. apply pwp_expect. intros l2 ->. do 3 pwp_step. apply pwp_alloc. do 3 pwp_step.
  cbn in Hl1. eapply pwp_mono; [apply thresh_loop_spec; [done|lia|lia]|].
  intros [[scripts cz] co] l3 [(fs & Hfs & Hok & Hch & Hne & -> & ->) Hl3]. pwp_step. split; [|lia].
  apply policy_ok_intro.
  - destruct Hch as (X & fs' & -> & HX & Hfs').
    inversion Hfs as [|x scripts' ? ? Hx Hl']; subst. split.
    + intros f [= <-]. rw (typed_list_zlen _ _ Hfs) !Z.add_0_l. by apply thresh_typed.
    + cbn. rw zlen_cons. pose proof (zlen_nonneg scripts'). lia.
  - intros c Hc. inversion Hc; subst. by eapply Forall_forall.
Qed.

Lemma tr_spec depth l :
  (length l < N)%nat → pwp (parse_tr sizeof base version pt depth) (shrinks policy_ok l) l.
Proof.
  intros Hl. rw /parse_tr. do 3 pwp_step. apply pwp_alloc. pwp_step. apply pwp_alloc. pwp_step.
  apply pwp_parse_placeholder. intros kp l1 Hkp Hl1. do 3 pwp_step. destruct l1 as [|c l1]; [done|]. cbn [head].
  cbn in Hl1. destruct (Z.eqb_spec c (chr ",")).
  - do 3 pwp_step. apply pwp_align. pwp_step. eapply pwp_mono; [apply Hpt; lia|].
    intros tree l2 [Ht Hl2]. pwp_step. split; [|lia].
    apply policy_ok_intro; [done|]. intros x Hx. inversion Hx; subst. by apply Ht.
  - pwp_steps. split; [|cbn; lia]. apply leaf_ok; [done|]. intros x Hx. inversion Hx.
Qed.

Lemma sh_wsh_spec t depth ctx l :
  (length l < N)%nat → pwp (parse_sh_wsh sizeof base ps t depth ctx) (shrinks policy_ok l) l.
Proof.
  intros Hl. rw /parse_sh_wsh. do 3 pwp_step. apply pwp_alloc. pwp_step. apply pwp_align. pwp_step.
  eapply pwp_mono; [by apply Hps|]. intros x l1 [Hx Hl1]. pwp_step. split; [|done].
  apply policy_ok_intro; [done|]. intros c Hc. by inversion Hc; subst.
Qed.

Lemma fragment_spec t depth ctx l :
  (length l < N)%nat ∨ has_parentheses t = false →
  pwp (parse_fragment sizeof base version ps pt t depth ctx) (shrinks policy_ok l) l.
Proof.
  intros Hl. destruct t as [t|]; cbn [parse_fragment]; [|pwp_step].
  destruct t; try pwp_step;
    (lazymatch goal with
     | |- pwp (parse_constant _ _ _) _ _ => by apply constant_spec; auto
     | _ => destruct Hl as [Hl|]; [|done]
     end);
    lazymatch goal with
    | |- pwp (parse_sh_wsh _ _ _ _ _ _) _ _ => by apply sh_wsh_spec
    | |- pwp (parse_key _ _ _ _ _ _) _ _ => apply key_spec
    | |- pwp (parse_multisig _ _ _ _ _ _) _ _ => apply multisig_spec; set_solver
    | |- pwp (parse_hash_256 _ _ _) _ _ => apply hash_256_spec; auto
    | |- pwp (parse_hash_160 _ _ _) _ _ => apply hash_160_spec; auto
    | |- pwp (parse_timelock _ _ _) _ _ => apply timelock_spec; auto
    | |- pwp (parse_andor _ _ _ _ _) _ _ => by apply andor_spec
    | |- pwp (parse_thresh _ _ _ _ _) _ _ => by apply thresh_spec
    | |- pwp (parse_tr _ _ _ _ _) _ _ => by apply tr_spec
    | _ => apply binary_spec; [intros x y X Y f g Hx Hy Hf|done]
    end.
  - by eapply and_v_typed.
  - by eapply and_b_typed.
  - by eapply and_n_typed.
  - by eapply or_b_typed.
  - by eapply or_c_typed.
  - by eapply or_d_typed.
  - by eapply or_i_typed.
Qed.
End cases.

(** ** The whole parser *)
Lemma pwp_apply_wrappers ts x (Q : policy_node → list Z → Prop) l :
  policy_ok x → (∀ y, policy_ok y → Q y l) → pwp (apply_wrappers ts x) Q l.
Proof.
  revert Q. induction ts as [|t ts IH]; intros Q Hx HQ; cbn [apply_wrappers]; [by pwp_step; apply HQ|].
  pwp_step. apply IH; [done|]. intros y Hy. pwp_step. apply pwp_miniscript; [done|]. intros Y HY.
  pwp_step. apply pwp_valid_type. intros f Hf. pwp_step. apply HQ.
  apply policy_ok_intro; [|intros c Hc; by inversion Hc; subst].
  split; [|done]. intros g [= <-]. by eapply wrapper_typed.
Qed.

Section body.
Context (sizeof : abi) (base version : Z).
Context (ps : Z → Z → parser policy_node) (pt : Z → parser policy_node_tree).

Lemma script_body_spec depth ctx l :
  zlen l < 2 ^ 32 - 1 →
  (∀ depth ctx l', (length l' < length l)%nat → pwp (ps depth ctx) (shrinks policy_ok l') l') →
  (∀ depth l', (length l' < length l)%nat → pwp (pt depth) (shrinks tree_ok l') l') →
  pwp (parse_script_body sizeof base version ps pt depth ctx) (shrinks policy_ok l) l.
Proof.
  intros Hz Hps Hpt. rw /parse_script_body. pwp_step. apply pwp_parse_wrappers; [done|]. intros ts l1 Hl1.
  pwp_step. apply pwp_parse_token. intros w l2 ->. rewrite length_app in Hl1.
  assert (∀ x l5, policy_ok x → (length l5 ≤ length l)%nat →
    pwp (more ← can_read 1; ensure (negb ((depth =? 0) && more));; apply_wrappers ts x)
      (shrinks policy_ok l) l5) as Hend.
  { intros x l5 Hx Hl5. do 4 pwp_step. by apply pwp_apply_wrappers. }
  do 3 pwp_step. destruct (has_parentheses (lookup_token w)) eqn:Hp.
  - apply pwp_expect. intros l3 ->. cbn in Hl1. pwp_step.
    eapply pwp_mono; [eapply fragment_spec; [exact Hps|exact Hpt|left; lia]|]. intros x l4 [Hx Hl4].
    pwp_step. apply pwp_expect. intros l5 ->. apply Hend; [done|]. cbn in Hl4. lia.
  - do 2 pwp_step. eapply pwp_mono; [eapply (fragment_spec _ _ _ _ _ 0); [lia|lia|by right]|].
    intros x l4 [Hx Hl4]. do 2 pwp_step. apply Hend; [done|lia].
Qed.

Lemma tree_body_spec depth l :
  (∀ depth ctx l', (length l' ≤ length l)%nat → pwp (ps depth ctx) (shrinks policy_ok l') l') →
  (∀ depth l', (length l' < length l)%nat → pwp (pt depth) (shrinks tree_ok l') l') →
  pwp (parse_tree_body sizeof base ps pt depth) (shrinks tree_ok l) l.
Proof.
  intros Hps Hpt. rw /parse_tree_body. do 3 pwp_step.
  intros st Hwf Hl. rw /ensure. destruct (buffer_is_cur_aligned _ _); [|done]. split; [done|]. revert Hwf Hl.
  cut (pwp (alloc base (sizeof_tree sizeof);; c ← need peek; if negb (c =? chr "{") then
      align base;; script ← ps (depth + 1) CONTEXT_WITHIN_TR; mret (tree_leaf script)
    else seek_cur 1;; align base;; left_tree ← pt (depth + 1); expect (chr ",");; align base;;
      right_tree ← pt (depth + 1); expect (chr "}");; mret (tree_node left_tree right_tree))
    (shrinks tree_ok l) l).
  { intros Hbody _ ->. exact Hbody. }
  pwp_step. apply pwp_alloc. do 3 pwp_step. destruct l as [|c l]; [done|]. cbn [head].
  destruct (negb (c =? chr "{")).
  - pwp_step. apply pwp_align. pwp_step. eapply pwp_mono; [by apply Hps|]. intros x l1 [Hx Hl1].
    pwp_step. split; [|done]. intros y Hy. by inversion Hy; subst.
  - do 3 pwp_step. apply pwp_align. pwp_step. eapply pwp_mono; [apply Hpt; cbn; lia|]. intros t1 l1 [Ht1 Hl1].
    pwp_step. apply pwp_expect. intros l2 ->. cbn in Hl1. pwp_step. apply pwp_align. pwp_step.
    eapply pwp_mono; [apply Hpt; cbn; lia|]. intros t2 l3 [Ht2 Hl3].
    pwp_step. apply pwp_expect. intros l4 ->. cbn in Hl3. pwp_step. split; [|cbn; lia].
    intros y Hy. inversion Hy; subst; [by apply Ht1|by apply Ht2].
Qed.
End body.

(** With enough fuel, for the parts of an expression of at most [n] characters. *)
Lemma parse_spec sizeof base version fuel :
  (∀ depth ctx l, zlen l < 2 ^ 32 - 1 → (2 * length l < fuel)%nat →
     pwp (parse_script sizeof base fuel version depth ctx) (shrinks policy_ok l) l) ∧
  (∀ depth l, zlen l < 2 ^ 32 - 1 → (2 * length l + 1 < fuel)%nat →
     pwp (parse_tree sizeof base fuel version depth) (shrinks tree_ok l) l).
Proof.
  induction fuel as [|fuel [IHs IHt]]; [split; lia|]. split.
  - intros depth ctx l Hz Hf. cbn [parse_script]. apply script_body_spec; [done|..].
    + intros d c l' Hl'. apply IHs; unfold zlen in *; lia.
    + intros d l' Hl'. apply IHt; unfold zlen in *; lia.
  - intros depth l Hz Hf. cbn [parse_tree]. apply tree_body_spec.
    + intros d c l' Hl'. apply IHs; unfold zlen in *; lia.
    + intros d l' Hl'. apply IHt; unfold zlen in *; lia.
Qed.

(** The parser of a whole input returns, and what it accepts is well-formed. *)
Lemma parse_script_returns sizeof base in_ out_buf version :
  wf_buffer in_ → size in_ < 2 ^ 32 - 1 →
  ∃ r, parse_script sizeof base (enough_fuel in_) version 0 0 (mk_parse_state in_ out_buf) = Val r ∧
    ∀ policy st, r = Some (policy, st) → policy_ok policy.
Proof.
  intros Hwf Hsize. pose proof (rest_zlen _ Hwf) as Hl. pose proof Hwf as (?&?&?&?).
  assert (remaining in_ = length (rest in_)) as Hr by (rw /remaining; unfold zlen in Hl; lia).
  destruct (parse_spec sizeof base version (enough_fuel in_)) as [Hspec _].
  specialize (Hspec 0 0 (rest in_) ltac:(lia) ltac:(unfold enough_fuel; lia)
    (mk_parse_state in_ out_buf) Hwf eq_refl).
  destruct (parse_script _ _ _ _ _ _ _) as [[[p st]|]| | |]; [|by eexists|done..].
  eexists. split; [done|]. intros policy st' [= <- <-]. apply Hspec.
Qed.

(** ** The types of miniscript

    The code deviates from them on multi_a and sortedmulti_a only. *)
Definition not_multi_a (n : policy_node) : bool :=
  match n with policy_node_multisig (TOKEN_MULTI_A | TOKEN_SORTEDMULTI_A) _ _ _ => false | _ => true end.

(** In the tapscript expressions there is no multi, and the modifier n of multi_a
    does not matter without the wrapper j. *)
Definition not_multi_j (n : policy_node) : bool :=
  match n with
  | policy_node_multisig TOKEN_MULTI _ _ _ | policy_node_with_script TOKEN_J _ _ => false
  | _ => true
  end.

(** The properties of [F] and [F'] are the same, up to some n of [F]. *)
Definition same_but_n (F F' : ms_flags) : Prop :=
  ty F' = ty F ∧ mod_z F' = mod_z F ∧ mod_o F' = mod_o F ∧ mod_d F' = mod_d F ∧ mod_u F' = mod_u F ∧
  (mod_n F' = true → mod_n F = true).

(** The condition on the nodes, for the parts of an expression. *)
Ltac node_parts :=
  repeat match goal with
  | H : all_nodes _ _ = true |- _ => progress cbn in H
  | H : forallb _ (_ :: _) = true |- _ => progress cbn in H
  | H : _ && _ = true |- _ => apply andb_true_iff in H as [? ?]
  | H : ?P → _, H' : ?P |- _ => specialize (H H')
  | H : all_nodes _ _ = true → _ |- _ => specialize (H ltac:(cbn; rewrite ?andb_true_r; by rewrite ?andb_true_iff))
  end.

Lemma typed_miniscript x X : typed x X → all_nodes not_multi_a x = true → miniscript_typed false x X.
Proof.
  revert x X. apply (typed_mut _ _ (λ x X _, all_nodes not_multi_a x = true → miniscript_typed false x X)
    (λ l fs _, forallb (all_nodes not_multi_a) l = true →
       typed_list_with (λ F, false = false ∧ F = flags_ndu) (λ F, false = true ∧ F = flags_du) l fs));
    intros; node_parts; try discriminate; by econstructor.
Qed.

Lemma one_o_same fs fs' :
  Forall2 (λ f f', mod_z f' = mod_z f ∧ mod_o f' = mod_o f) fs fs' → one_o fs → one_o fs'.
Proof.
  intros Hs (fs1 & f & fs2 & -> & Ho & Hz). apply Forall2_app_inv_l in Hs as (fs1' & fs3 & H1 & H2 & ->).
  apply Forall2_cons_inv_l in H2 as (f' & fs2' & [_ Hf] & H2 & ->). exists fs1', f', fs2'. split; [done|].
  split; [by rw Hf|]. assert (Forall2 (λ f f', mod_z f' = mod_z f ∧ mod_o f' = mod_o f) (fs1 ++ fs2) (fs1' ++ fs2')) as Hall
    by (by apply Forall2_app). clear -Hall Hz.
  induction Hall as [|g g' l l' [Hg _] _ IH]; [done|]. apply Forall_cons in Hz as [? ?]. constructor; [by rw Hg|by apply IH].
Qed.

Lemma same_but_n_list fs fs' :
  Forall2 same_but_n fs fs' →
  forallb mod_z fs' = forallb mod_z fs ∧ (Forall Wdu fs → Forall Wdu fs') ∧ (one_o fs' ↔ one_o fs).
Proof.
  intros Hs. split_and!.
  - induction Hs as [|f f' fs fs' (_ & Hz & _) _ IH]; [done|]. cbn. by rw Hz IH.
  - induction Hs as [|f f' fs fs' (Ht & _ & _ & Hd & Hu & _) _ IH]; [done|]. intros [(? & ? & ?) ?]%Forall_cons.
    constructor; [|by apply IH]. by rw /Wdu Ht Hd Hu.
  - split; apply one_o_same; [apply Forall2_flip|]; (eapply Forall2_impl; [exact Hs|]);
      intros f f' (_ & Hz & Ho & _); by rw ?Hz ?Ho.
Qed.

(** A rule whose premises hold for types that are the same up to n. *)
Ltac same_rule :=
  unfold same_but_n, Bdu in *; destruct_and!;
  eexists; split; [econstructor; first [eassumption|congruence|split_and!; congruence]|];
  cbn; split_and!; try congruence; rewrite ?orb_true_iff ?andb_true_iff; intuition congruence.

(** An expression that the code types has the same type in tapscript, up to n. *)
Lemma typed_tapscript x X :
  typed x X → all_nodes not_multi_j x = true → ∃ X', miniscript_typed true x X' ∧ same_but_n X X'.
Proof.
  revert x X. apply (typed_mut _ _ (λ x X _, all_nodes not_multi_j x = true → ∃ X', miniscript_typed true x X' ∧ same_but_n X X')
    (λ l fs _, forallb (all_nodes not_multi_j) l = true → ∃ fs',
       typed_list_with (λ F, true = false ∧ F = flags_ndu) (λ F, true = true ∧ F = flags_du) l fs' ∧ Forall2 same_but_n fs fs'));
    intros; node_parts; try discriminate.
  all: repeat match goal with H : ∃ _, _ ∧ _ |- _ => destruct H as (? & ? & ?) end.
  all: try (by eexists; split; [econstructor|]).
  all: try (by exists flags_du; subst; split; [constructor|]).
  all: try (by match goal with H : Forall2 same_but_n _ _ |- _ => eexists (_ :: _); split; [by constructor|by constructor] end).
  all: try match goal with H : Forall2 same_but_n _ _ |- _ => fail 1 | _ => same_rule end.
  match goal with HX : same_but_n X ?X', Hfs : Forall2 same_but_n fs ?fs' |- _ =>
    destruct (same_but_n_list (X :: fs) (X' :: fs')) as (Hz & _ & Ho); [by constructor|];
    destruct (same_but_n_list fs fs' Hfs) as (_ & Hw & _); destruct HX as (Ht & _ & _ & Hd & Hu & _);
    exists (mk_flags B (forallb mod_z (X' :: fs')) o false true true) end.
  split; [|by rw Hz].
  constructor; [done..| |by apply Hw|by rw Ho]. unfold Bdu in *. destruct_and!. split_and!; congruence.
Qed.


(** The hypotheses hold of a template that is accepted. *)
Definition sample_template : buffer :=
  let l := str "wsh(thresh(2,pk(@0/**),s:pk(@1/**),sln:older(144)))" in buffer_create l (zlen l).


(** An expression that is accepted, and has no type in miniscript. *)
Lemma j_multi_a_accepted :
  ∃ f n, parse_string "wsh(j:multi_a(1,@0/**))" = Val (Some (policy_node_with_script TOKEN_WSH f n)) ∧
    ∀ tapscript F, ¬ miniscript_typed tapscript n F.
Proof.
  do 2 eexists. split; [vm_compute; reflexivity|]. intros tapscript F H. inversion H; subst.
  match goal with H : typed_with _ _ (policy_node_multisig _ _ _ _) _ |- _ => inversion H; subst end.
  match goal with H : _ ∧ _ = flags_du |- _ => destruct H as [_ ->] end. done.
Qed.

(** The parsed templates of examples. *)
Lemma str_bytes_ok s : bytes_ok (str s).
Proof.
  induction s as [|a s IH]; [constructor|]. constructor; [|done]. rw /byte_ok /chr.
  pose proof (Ascii.N_ascii_bounded a). lia.
Qed.

Lemma parse_string_ok s policy :
  zlen (str s) < 2 ^ 32 - 1 → parse_string s = Val (Some policy) → policy_ok policy.
Proof.
  intros Hz H. rewrite /parse_string /parse_descriptor_template /= in H.
  destruct (parse_script_returns sample_abi 0 (buffer_create (str s) (zlen (str s)))
    (buffer_create (replicate 768 0) 768) 2) as (r & Hr & Hok).
  - repeat split; cbn; try lia; [apply zlen_nonneg|apply str_bytes_ok].
  - done.
  - rewrite Hr in H. destruct r as [[p st]|]; [|done]. injection H as <-. by eapply Hok.
Qed.

Lemma policy_ok_child n c : policy_ok n → child c n → policy_ok c.
Proof. intros Hn Hc m Hm. apply Hn. by eapply sub_child. Qed.

(** The script inside of a parsed wsh. *)
Definition inner_of (s : String.string) : policy_node :=
  match parse_string s with
  | Val (Some (policy_node_with_script TOKEN_WSH _ inner)) => inner
  | _ => policy_node_constant TOKEN_0 None
  end.
Arguments inner_of s%_string_scope.

Definition has_inner (s : String.string) : bool :=
  (zlen (str s) <? 2 ^ 32 - 1) &&
  match parse_string s with Val (Some (policy_node_with_script TOKEN_WSH _ _)) => true | _ => false end.

Lemma inner_of_ok s : has_inner s = true → policy_ok (inner_of s).
Proof.
  rw /has_inner /inner_of andb_true_iff Z.ltb_lt. intros [Hz Hp].
  destruct (parse_string s) as [[p|]| | |] eqn:H; [|done..].
  apply parse_string_ok in H; [|done]. destruct p as [| [] f x| | | | | | | | |]; try done.
  apply (policy_ok_child _ _ H). constructor.
Qed.
