(* ===== verification/PolicyExtInfo.v ===== *)
(** * Wallet policies: analysis of miniscript

    Models [compute_miniscript_policy_ext_info] of src/src/common/wallet.c and
    its helpers: the size of the script, the number of opcodes and of stack
    elements of a satisfaction, and the properties (signature required, forced,
    unique dissatisfaction, non-malleable, timelocks) of a miniscript
    expression, with one definition for each case.

    The tables of thresh are arrays of 16-bit numbers.  They are local on most
    devices and are in a memory region shared by all the calls on others
    ([USE_CXRAM_SECTION]); [cells] is the region, and [shared] tells which
    variant is meant. *)

From Stdlib Require Ascii String.
Import String.StringSyntax Ascii.AsciiSyntax.
From S2P Require Import Prelude Bytes Bip32 Buffer Script PolicySyntax PolicyParser PolicyLogic PolicyTypes.

Record miniscript_ops := mk_ops { count : Z; ops_sat : Z; ops_dsat : Z }.
Record miniscript_stacksize := mk_ss { ss_sat : Z; ss_dsat : Z }.

Record policy_node_ext_info := mk_ext_info {
  ops : miniscript_ops;
  ss : miniscript_stacksize;
  script_size : Z;
  ei_s : bool;
  ei_f : bool;
  ei_e : bool;
  ei_m : bool;
  ei_g : bool;
  ei_h : bool;
  ei_i : bool;
  ei_j : bool;
  ei_k : bool;
  ei_x : bool
}.

Definition SEQUENCE_LOCKTIME_TYPE_FLAG : Z := Z.shiftl 1 22.
Definition LOCKTIME_THRESHOLD : Z := 500000000.
Definition MAX_N_IN_THRESH : Z := 128.

(** ** Combining satisfactions *)
Definition sumcheck (a b : Z) : Z :=
  if (a <? 0) || (b <? 0) then -1
  else if INT16_MAX <? u32 (u32 a + u32 b) then INT16_MAX
  else i16 (a + b).

Definition maxcheck (a b : Z) : Z :=
  if a <? 0 then b else if b <? a then a else b.

(** The structures with the conversions to the types of their fields. *)
Definition ops_of (c s d : Z) : miniscript_ops := mk_ops (u16 c) (i16 s) (i16 d).
Definition ss_of (s d : Z) : miniscript_stacksize := mk_ss (i16 s) (i16 d).

(** Two expressions of which both are used mix time and height locks. *)
Definition timelock_mix (x y : policy_node_ext_info) : bool :=
  (ei_g x && ei_h y) || (ei_h x && ei_g y) || (ei_i x && ei_j y) || (ei_j x && ei_i y).

(** ** The cases

    In the order s, f, e, m, g, h, i, j, k, x of the flags. *)
Definition ext_0 : policy_node_ext_info :=
  mk_ext_info (ops_of 0 (-1) 0) (ss_of (-1) 0) 1 true false true true false false false false true true.
Definition ext_1 : policy_node_ext_info :=
  mk_ext_info (ops_of 0 0 (-1)) (ss_of 0 (-1)) 1 false true false true false false false false true true.
Definition ext_pk_k : policy_node_ext_info :=
  mk_ext_info (ops_of 0 0 0) (ss_of 1 1) 34 true false true true false false false false true true.
Definition ext_pk_h : policy_node_ext_info :=
  mk_ext_info (ops_of 3 0 0) (ss_of 2 2) (3 + 21) true false true true false false false false true true.
Definition ext_pk : policy_node_ext_info :=
  mk_ext_info (ops_of 1 0 0) (ss_of 1 1) (34 + 1) true false true true false false false false true false.
Definition ext_pkh : policy_node_ext_info :=
  mk_ext_info (ops_of 4 0 0) (ss_of 2 2) (3 + 21 + 1) true false true true false false false false true false.

Definition ext_multi (k n : Z) : policy_node_ext_info :=
  mk_ext_info (ops_of 1 n n) (ss_of (k + 1) (k + 1))
    (u16 (1 + get_push_script_size k + get_push_script_size n + 34 * n))
    true false true true false false false false true false.

Definition ext_older (n : Z) : policy_node_ext_info :=
  let time := negb (Z.land n SEQUENCE_LOCKTIME_TYPE_FLAG =? 0) in
  mk_ext_info (ops_of 1 0 (-1)) (ss_of 0 (-1)) (u16 (1 + get_push_script_size n))
    false true false true time (negb time) false false true true.

Definition ext_after (n : Z) : policy_node_ext_info :=
  let time := LOCKTIME_THRESHOLD <=? n in
  mk_ext_info (ops_of 1 0 (-1)) (ss_of 0 (-1)) (u16 (1 + get_push_script_size n))
    false true false true false false time (negb time) true true.

Definition ext_hash_256 : policy_node_ext_info :=
  mk_ext_info (ops_of 4 0 (-1)) (ss_of 1 (-1)) (4 + 2 + 33)
    false false false true false false false false true false.
Definition ext_hash_160 : policy_node_ext_info :=
  mk_ext_info (ops_of 4 0 (-1)) (ss_of 1 (-1)) (4 + 2 + 21)
    false false false true false false false false true false.

Section combine.
Context (x y z : policy_node_ext_info).

Definition ext_andor : policy_node_ext_info :=
  mk_ext_info
    (ops_of (3 + count (ops x) + count (ops y) + count (ops z))
       (maxcheck (sumcheck (ops_sat (ops y)) (ops_sat (ops x)))
                 (sumcheck (ops_dsat (ops y)) (ops_sat (ops z))))
       (sumcheck (ops_dsat (ops x)) (ops_dsat (ops z))))
    (ss_of (maxcheck (sumcheck (ss_sat (ss x)) (ss_sat (ss y)))
                     (sumcheck (ss_dsat (ss x)) (ss_sat (ss z))))
           (sumcheck (ss_dsat (ss x)) (ss_dsat (ss z))))
    (u16 (3 + script_size x + script_size y + script_size z))
    (ei_s z && (ei_s x || ei_s y))
    (ei_f z && (ei_s x || ei_f y))
    (ei_e z && (ei_s x || ei_f y))
    (ei_m x && ei_m y && ei_m z && ei_e x && (ei_s x || ei_s y || ei_s z))
    (ei_g x || ei_g y || ei_g z) (ei_h x || ei_h y || ei_h z)
    (ei_i x || ei_i y || ei_i z) (ei_j x || ei_j y || ei_j z)
    (negb (negb (ei_k x && ei_k y && ei_k z) || timelock_mix x y))
    true.

Definition ext_and_v : policy_node_ext_info :=
  mk_ext_info
    (ops_of (count (ops x) + count (ops y)) (sumcheck (ops_sat (ops x)) (ops_sat (ops y))) (-1))
    (ss_of (sumcheck (ss_sat (ss x)) (ss_sat (ss y))) (-1))
    (u16 (script_size x + script_size y))
    (ei_s x || ei_s y) (ei_s x || ei_f y) false (ei_m x && ei_m y)
    (ei_g x || ei_g y) (ei_h x || ei_h y) (ei_i x || ei_i y) (ei_j x || ei_j y)
    (negb (negb (ei_k x && ei_k y) || timelock_mix x y))
    (ei_x y).

Definition ext_and_b : policy_node_ext_info :=
  mk_ext_info
    (ops_of (1 + count (ops x) + count (ops y)) (sumcheck (ops_sat (ops x)) (ops_sat (ops y)))
       (sumcheck (ops_dsat (ops x)) (ops_dsat (ops y))))
    (ss_of (sumcheck (ss_sat (ss x)) (ss_sat (ss y))) (sumcheck (ss_dsat (ss x)) (ss_dsat (ss y))))
    (u16 (1 + script_size x + script_size y))
    (ei_s x || ei_s y)
    ((ei_f x && ei_f y) || (ei_s x && ei_f x) || (ei_s y && ei_f y))
    (ei_e x && ei_e y && ei_s x && ei_s y)
    (ei_m x && ei_m y)
    (ei_g x || ei_g y) (ei_h x || ei_h y) (ei_i x || ei_i y) (ei_j x || ei_j y)
    (negb (negb (ei_k x && ei_k y) || timelock_mix x y))
    true.

Definition ext_and_n : policy_node_ext_info :=
  mk_ext_info
    (ops_of (3 + count (ops x) + count (ops y))
       (maxcheck (sumcheck (ops_sat (ops y)) (ops_sat (ops x))) (ops_dsat (ops y)))
       (ops_dsat (ops x)))
    (ss_of (sumcheck (ss_sat (ss x)) (ss_sat (ss y))) (ss_dsat (ss x)))
    (u16 (4 + script_size x + script_size y))
    (ei_s x || ei_s y) false (ei_s x || ei_f y)
    (ei_m x && ei_m y && ei_e x && (ei_s x || ei_s y))
    (ei_g x || ei_g y) (ei_h x || ei_h y) (ei_i x || ei_i y) (ei_j x || ei_j y)
    (negb (negb (ei_k x && ei_k y) || timelock_mix x y))
    true.
End combine.

Section combine_or.
Context (x z : policy_node_ext_info).

Definition ext_or_b : policy_node_ext_info :=
  mk_ext_info
    (ops_of (1 + count (ops x) + count (ops z))
       (maxcheck (sumcheck (ops_sat (ops x)) (ops_dsat (ops z)))
                 (sumcheck (ops_sat (ops z)) (ops_dsat (ops x))))
       (sumcheck (ops_dsat (ops x)) (ops_dsat (ops z))))
    (ss_of (maxcheck (sumcheck (ss_dsat (ss x)) (ss_sat (ss z)))
                     (sumcheck (ss_sat (ss x)) (ss_dsat (ss z))))
           (sumcheck (ss_dsat (ss x)) (ss_dsat (ss z))))
    (u16 (1 + script_size x + script_size z))
    (ei_s x && ei_s z) false true
    (ei_m x && ei_m z && ei_e x && ei_e z && (ei_s x || ei_s z))
    (ei_g x || ei_g z) (ei_h x || ei_h z) (ei_i x || ei_i z) (ei_j x || ei_j z)
    (ei_k x && ei_k z) true.

Definition ext_or_c : policy_node_ext_info :=
  mk_ext_info
    (ops_of (2 + count (ops x) + count (ops z))
       (maxcheck (ops_sat (ops x)) (sumcheck (ops_sat (ops z)) (ops_dsat (ops x)))) (-1))
    (ss_of (maxcheck (ss_sat (ss x)) (sumcheck (ss_dsat (ss x)) (ss_sat (ss z)))) (-1))
    (u16 (2 + script_size x + script_size z))
    (ei_s x && ei_s z) true false
    (ei_m x && ei_m z && ei_e x && (ei_s x || ei_s z))
    (ei_g x || ei_g z) (ei_h x || ei_h z) (ei_i x || ei_i z) (ei_j x || ei_j z)
    (ei_k x && ei_k z) true.

Definition ext_or_d : policy_node_ext_info :=
  mk_ext_info
    (ops_of (3 + count (ops x) + count (ops z))
       (maxcheck (ops_sat (ops x)) (sumcheck (ops_sat (ops z)) (ops_dsat (ops x))))
       (sumcheck (ops_dsat (ops x)) (ops_dsat (ops z))))
    (ss_of (maxcheck (ss_sat (ss x)) (sumcheck (ss_dsat (ss x)) (ss_sat (ss z))))
           (sumcheck (ss_dsat (ss x)) (ss_dsat (ss z))))
    (u16 (3 + script_size x + script_size z))
    (ei_s x && ei_s z) (ei_f z) (ei_e z)
    (ei_m x && ei_m z && ei_e x && (ei_s x || ei_s z))
    (ei_g x || ei_g z) (ei_h x || ei_h z) (ei_i x || ei_i z) (ei_j x || ei_j z)
    (ei_k x && ei_k z) true.

Definition ext_or_i : policy_node_ext_info :=
  mk_ext_info
    (ops_of (3 + count (ops x) + count (ops z))
       (maxcheck (ops_sat (ops x)) (ops_sat (ops z)))
       (maxcheck (ops_dsat (ops x)) (ops_dsat (ops z))))
    (ss_of (maxcheck (sumcheck (ss_sat (ss x)) 1) (sumcheck (ss_sat (ss z)) 1))
           (maxcheck (sumcheck (ss_dsat (ss x)) 1) (sumcheck (ss_dsat (ss z)) 1)))
    (u16 (3 + script_size x + script_size z))
    (ei_s x && ei_s z) (ei_f x && ei_f z) ((ei_e x && ei_f z) || (ei_e z && ei_f x))
    (ei_m x && ei_m z && (ei_s x || ei_s z))
    (ei_g x || ei_g z) (ei_h x || ei_h z) (ei_i x || ei_i z) (ei_j x || ei_j z)
    (ei_k x && ei_k z) true.
End combine_or.

Section wrappers.
Context (x : policy_node_ext_info).

(** The result with the timelock flags of [x]. *)
Definition wrapped (o : miniscript_ops) (st : miniscript_stacksize) (sz : Z) (s f e xx : bool)
    : policy_node_ext_info :=
  mk_ext_info o st (u16 sz) s f e (ei_m x) (ei_g x) (ei_h x) (ei_i x) (ei_j x) (ei_k x) xx.

Definition ext_a : policy_node_ext_info :=
  wrapped (ops_of (2 + count (ops x)) (ops_sat (ops x)) (ops_dsat (ops x))) (ss x)
    (script_size x + 2) (ei_s x) (ei_f x) (ei_e x) true.
Definition ext_s : policy_node_ext_info :=
  wrapped (ops_of (1 + count (ops x)) (ops_sat (ops x)) (ops_dsat (ops x))) (ss x)
    (script_size x + 1) (ei_s x) (ei_f x) (ei_e x) (ei_x x).
Definition ext_n : policy_node_ext_info :=
  wrapped (ops_of (1 + count (ops x)) (ops_sat (ops x)) (ops_dsat (ops x))) (ss x)
    (script_size x + 1) (ei_s x) (ei_f x) (ei_e x) true.
Definition ext_c : policy_node_ext_info :=
  wrapped (ops_of (1 + count (ops x)) (ops_sat (ops x)) (ops_dsat (ops x))) (ss x)
    (script_size x + 1) true (ei_f x) (ei_e x) false.
Definition ext_d : policy_node_ext_info :=
  wrapped (ops_of (3 + count (ops x)) (ops_sat (ops x)) 0) (ss_of (sumcheck 1 (ss_sat (ss x))) 1)
    (script_size x + 3) (ei_s x) false true true.
Definition ext_t : policy_node_ext_info :=
  wrapped (ops_of (count (ops x)) (ops_sat (ops x)) (-1)) (ss_of (ss_sat (ss x)) (-1))
    (script_size x + 1) (ei_s x) true false true.
Definition ext_v : policy_node_ext_info :=
  wrapped (ops_of (count (ops x) + Z.b2z (ei_x x)) (ops_sat (ops x)) (-1)) (ss_of (ss_sat (ss x)) (-1))
    (script_size x + Z.b2z (ei_x x)) (ei_s x) true false true.
Definition ext_j : policy_node_ext_info :=
  wrapped (ops_of (4 + count (ops x)) (ops_sat (ops x)) 0) (ss_of (ss_sat (ss x)) 1)
    (script_size x + 4) (ei_s x) false (ei_f x) true.
Definition ext_l : policy_node_ext_info :=
  wrapped (ops_of (3 + count (ops x)) (ops_sat (ops x)) (ops_dsat (ops x)))
    (ss_of (sumcheck (ss_sat (ss x)) 1) (maxcheck 1 (sumcheck (ss_dsat (ss x)) 1)))
    (script_size x + 4) (ei_s x) false (ei_f x) true.
End wrappers.

(** ** thresh *)

(** The analysis reads and writes the memory of the tables; [None] is the
    result -1. *)
Definition analysis (A : Type) : Type := list Z → outcome (option (A * list Z)).

Global Instance analysis_ret : MRet analysis := λ A a mem, Val (Some (a, mem)).
Global Instance analysis_bind : MBind analysis := λ A B f m mem,
  match m mem with
  | Val (Some (a, mem')) => f a mem'
  | Val None => Val None
  | Undef => Undef
  | Throw e => Throw e
  | OutOfFuel => OutOfFuel
  end.

(** The size of an array, and the positions of the two arrays in the memory
    of the tables. *)
Definition TABLE_SIZE : Z := MAX_N_IN_THRESH + 1 + 1.
Definition sats : Z := 0.
Definition next_sats : Z := TABLE_SIZE.

Definition get_cell (a i : Z) : analysis Z := λ mem, v ← load mem (a + i); Val (Some (v, mem)).
Definition set_cell (a i v : Z) : analysis unit := λ mem,
  mem ← store mem (a + i) (u16 v); Val (Some (tt, mem)).

(** [memmove(sats, next_sats, n * sizeof(sats[0]))]. *)
Definition move_cells (n : Z) : analysis unit := λ mem,
  l ← loads mem next_sats n; mem ← stores mem sats l; Val (Some (tt, mem)).

(** The loop over [j] from [j] on; [n] iterations are left. *)
Fixpoint row_loop (n : nat) (j sat dsat : Z) : analysis unit :=
  match n with
  | O => mret tt
  | S n' =>
      a ← get_cell sats j;
      b ← get_cell sats (j - 1);
      set_cell next_sats j (maxcheck (sumcheck (i16 a) dsat) (sumcheck (i16 b) sat));;
      row_loop n' (j + 1) sat dsat
  end.

(** One iteration of the loop over the children, after the child's analysis. *)
Definition row_step (sats_size sat dsat : Z) : analysis unit :=
  a ← get_cell sats 0;
  set_cell next_sats 0 (sumcheck (i16 a) dsat);;
  row_loop (Z.to_nat (sats_size - 1)) 1 sat dsat;;
  b ← get_cell sats (sats_size - 1);
  set_cell next_sats sats_size (sumcheck (i16 b) sat);;
  move_cells (sats_size + 1).

Section thresh.
Context (shared : bool) (ext : policy_node → analysis policy_node_ext_info).

Definition analysis_fail {A} : analysis A := λ _, Val None.

(** The arrays of one call: the shared region, or local arrays. *)
Definition with_tables {A} (m : analysis A) : analysis A := λ mem,
  if shared then m mem
  else
    match m (replicate (Z.to_nat (2 * TABLE_SIZE)) 0) with
    | Val (Some (a, _)) => Val (Some (a, mem))
    | Val None => Val None
    | Undef => Undef
    | Throw e => Throw e
    | OutOfFuel => OutOfFuel
    end.

(** [sats[k]], for a [k] that the code does not compare with the size of the
    array. *)
Definition get_sats (k : Z) : analysis Z := λ mem,
  if shared || (k <? TABLE_SIZE) then get_cell sats k mem else Undef.

Fixpoint ops_loop (cur : list policy_node) (cnt sats_size : Z) : analysis Z :=
  match cur with
  | [] => mret cnt
  | script :: cur' =>
      t ← ext script;
      row_step sats_size (ops_sat (ops t)) (ops_dsat (ops t));;
      ops_loop cur' (u16 (cnt + (count (ops t) + 1))) (sats_size + 1)
  end.

Definition compute_thresh_ops (k : Z) (scriptlist : list policy_node) : analysis miniscript_ops :=
  if MAX_N_IN_THRESH <? zlen scriptlist then analysis_fail
  else with_tables (
    set_cell sats 0 0;;
    cnt ← ops_loop scriptlist 0 1;
    sat ← get_sats k;
    dsat ← get_cell sats 0;
    mret (mk_ops cnt (i16 sat) (i16 dsat))).

Fixpoint ss_loop (cur : list policy_node) (sats_size : Z) : analysis unit :=
  match cur with
  | [] => mret tt
  | script :: cur' =>
      t ← ext script;
      row_step sats_size (ss_sat (ss t)) (ss_dsat (ss t));;
      ss_loop cur' (sats_size + 1)
  end.

Definition compute_thresh_stacksize (k : Z) (scriptlist : list policy_node) : analysis miniscript_stacksize :=
  if MAX_N_IN_THRESH <? zlen scriptlist then analysis_fail
  else with_tables (
    set_cell sats 0 0;;
    ss_loop scriptlist 1;;
    sat ← get_sats k;
    dsat ← get_cell sats 0;
    mret (mk_ss (i16 sat) (i16 dsat))).

(** The variables of the loop of the case TOKEN_THRESH. *)
Record thresh_acc := mk_acc {
  count_s : Z; count_e : Z; count_m : Z; children_scriptsize : Z;
  acc_g : bool; acc_h : bool; acc_i : bool; acc_j : bool; acc_k : bool
}.

Definition thresh_acc_step (k : Z) (a : thresh_acc) (t : policy_node_ext_info) : thresh_acc :=
  let g := acc_g a || ei_g t in
  let h := acc_h a || ei_h t in
  let i := acc_i a || ei_i t in
  let j := acc_j a || ei_j t in
  mk_acc (count_s a + Z.b2z (ei_s t)) (count_e a + Z.b2z (ei_e t)) (count_m a + Z.b2z (ei_m t))
    (size_t (children_scriptsize a + script_size t)) g h i j
    (acc_k a && ei_k t &&
     negb ((2 <=? k) && ((ei_g t && h) || (ei_h t && g) || (ei_i t && j) || (ei_j t && i)))).

Fixpoint thresh_scan (k : Z) (cur : list policy_node) (a : thresh_acc) : analysis thresh_acc :=
  match cur with
  | [] => mret a
  | script :: cur' => t ← ext script; thresh_scan k cur' (thresh_acc_step k a t)
  end.

Definition ext_thresh (k : Z) (scriptlist : list policy_node) : analysis policy_node_ext_info :=
  a ← thresh_scan k scriptlist (mk_acc 0 0 0 0 false false false false true);
  let n := zlen scriptlist in
  let count_not_s := n - count_s a in
  o ← compute_thresh_ops k scriptlist;
  s ← compute_thresh_stacksize k scriptlist;
  mret (mk_ext_info o s (u16 (children_scriptsize a + n + get_push_script_size k))
    (count_not_s <=? k - 1) false (count_s a =? n)
    ((count_e a =? n) && (count_not_s <=? k))
    (acc_g a) (acc_h a) (acc_i a) (acc_j a) (acc_k a) false).
End thresh.

(** ** The whole analysis *)
Definition combine1 (f : policy_node_ext_info → policy_node_ext_info)
    (x : analysis policy_node_ext_info) : analysis policy_node_ext_info :=
  x ← x; mret (f x).
Definition combine2 (f : policy_node_ext_info → policy_node_ext_info → policy_node_ext_info)
    (x y : analysis policy_node_ext_info) : analysis policy_node_ext_info :=
  x ← x; y ← y; mret (f x y).

Definition ext_of_constant (t : token) : option policy_node_ext_info :=
  match t with TOKEN_0 => Some ext_0 | TOKEN_1 => Some ext_1 | _ => None end.
Definition ext_of_key (t : token) : option policy_node_ext_info :=
  match t with
  | TOKEN_PK_K => Some ext_pk_k | TOKEN_PK_H => Some ext_pk_h
  | TOKEN_PK => Some ext_pk | TOKEN_PKH => Some ext_pkh | _ => None
  end.
Definition ext_of_uint32 (t : token) (n : Z) : option policy_node_ext_info :=
  match t with TOKEN_OLDER => Some (ext_older n) | TOKEN_AFTER => Some (ext_after n) | _ => None end.
Definition ext_of_hash_256 (t : token) : option policy_node_ext_info :=
  match t with TOKEN_SHA256 | TOKEN_HASH256 => Some ext_hash_256 | _ => None end.
Definition ext_of_hash_160 (t : token) : option policy_node_ext_info :=
  match t with TOKEN_RIPEMD160 | TOKEN_HASH160 => Some ext_hash_160 | _ => None end.
Definition ext_of_binary (t : token)
    : option (policy_node_ext_info → policy_node_ext_info → policy_node_ext_info) :=
  match t with
  | TOKEN_AND_V => Some ext_and_v | TOKEN_AND_B => Some ext_and_b | TOKEN_AND_N => Some ext_and_n
  | TOKEN_OR_B => Some ext_or_b | TOKEN_OR_C => Some ext_or_c | TOKEN_OR_D => Some ext_or_d
  | TOKEN_OR_I => Some ext_or_i | _ => None
  end.
Definition ext_of_wrapper (t : token) : option (policy_node_ext_info → policy_node_ext_info) :=
  match t with
  | TOKEN_A => Some ext_a | TOKEN_S => Some ext_s | TOKEN_N => Some ext_n | TOKEN_C => Some ext_c
  | TOKEN_D => Some ext_d | TOKEN_T => Some ext_t | TOKEN_V => Some ext_v | TOKEN_J => Some ext_j
  | TOKEN_L | TOKEN_U => Some ext_l | _ => None
  end.

Definition analysis_of {A} (o : option A) : analysis A :=
  match o with Some a => mret a | None => analysis_fail end.

(** [policy_node->type] determines the structure of a node, so the cases are
    on both. *)
Fixpoint compute_miniscript_policy_ext_info (shared : bool) (policy_node : policy_node)
    : analysis policy_node_ext_info :=
  match node_flags policy_node with
  | None => analysis_fail
  | Some _ =>
      match policy_node with
      | policy_node_constant t _ => analysis_of (ext_of_constant t)
      | policy_node_with_key t _ _ => analysis_of (ext_of_key t)
      | policy_node_with_uint32 t _ n => analysis_of (ext_of_uint32 t n)
      | policy_node_with_hash_256 t _ _ => analysis_of (ext_of_hash_256 t)
      | policy_node_with_hash_160 t _ _ => analysis_of (ext_of_hash_160 t)
      | policy_node_multisig TOKEN_MULTI _ k kps => mret (ext_multi k (zlen kps))
      | policy_node_with_script3 TOKEN_ANDOR _ x y z =>
          X ← compute_miniscript_policy_ext_info shared x;
          Y ← compute_miniscript_policy_ext_info shared y;
          Z ← compute_miniscript_policy_ext_info shared z;
          mret (ext_andor X Y Z)
      | policy_node_with_script2 t _ x y =>
          match ext_of_binary t with
          | Some f => combine2 f (compute_miniscript_policy_ext_info shared x)
                        (compute_miniscript_policy_ext_info shared y)
          | None => analysis_fail
          end
      | policy_node_with_script t _ x =>
          match ext_of_wrapper t with
          | Some f => combine1 f (compute_miniscript_policy_ext_info shared x)
          | None => analysis_fail
          end
      | policy_node_thresh TOKEN_THRESH _ k l =>
          ext_thresh shared (compute_miniscript_policy_ext_info shared) k l
      | _ => analysis_fail
      end
  end.
