(* ===== verification/PolicyThresh.v ===== *)
(** * Wallet policies: the tables of thresh

    Theorems on [compute_thresh_ops] and [compute_thresh_stacksize] of
    wallet.c, modelled in PolicyExtInfo.v: the dynamic programs compute the
    largest number of operations and of stack elements over all the ways to
    satisfy exactly k of the children, saturating at 32767, without accesses
    outside of their arrays as long as k fits in them. *)

From Stdlib Require Ascii String.
Import String.StringSyntax Ascii.AsciiSyntax.
From S2P Require Import Prelude Bytes Bip32 Buffer Script PolicySyntax PolicyParser PolicyLogic PolicyTypes PolicyExtInfo.

(** ** Specification

    The children are pairs of the costs of a satisfaction and of a
    dissatisfaction; a negative cost means that there is none.  [choice k l t]:
    [t] is the total cost of a way to satisfy [k] children and to dissatisfy
    the others. *)
Inductive choice : nat → list (Z * Z) → Z → Prop :=
| choice_nil : choice 0 [] 0
| choice_dsat k c l t : 0 ≤ c.2 → choice k l t → choice k (c :: l) (c.2 + t)
| choice_sat k c l t : 0 ≤ c.1 → choice k l t → choice (S k) (c :: l) (c.1 + t).

(** The largest of a set of costs, saturated; -1 when the set is empty. *)
Definition largest (costs : Z → Prop) (r : Z) : Prop :=
  (∃ t, costs t ∧ (∀ t', costs t' → t' ≤ t) ∧ r = Z.min t INT16_MAX) ∨
  (r = -1 ∧ ∀ t, ¬ costs t).

(** Numbers of operations and of stack elements: 16-bit numbers that are not
    below -1. *)
Definition cost_ok (v : Z) : Prop := -1 ≤ v ≤ INT16_MAX.

Lemma choice_nonneg k l t : choice k l t → 0 ≤ t.
Proof. induction 1; lia. Qed.

Lemma choice_snoc k l c t :
  choice k (l ++ [c]) t ↔
  (0 ≤ c.2 ∧ choice k l (t - c.2)) ∨ (∃ k', k = S k' ∧ 0 ≤ c.1 ∧ choice k' l (t - c.1)).
Proof.
  revert k t. induction l as [|d l IH]; intros k t; cbn.
  - split.
    + inversion 1 as [|???? Hc H1|???? Hc H1]; subst; inversion H1; subst.
      * left. split; [done|]. replace (_ - _) with 0 by lia. constructor.
      * right. eexists. split; [done|]. split; [done|]. replace (_ - _) with 0 by lia. constructor.
    + intros [[Hc H]|(k' & -> & Hc & H)]; inversion H; subst.
      * replace t with (c.2 + 0) by lia. repeat constructor. done.
      * replace t with (c.1 + 0) by lia. repeat constructor. done.
  - split.
    + inversion 1 as [|k0 c0 l0 t0 Hc H1|k0 c0 l0 t0 Hc H1]; subst; apply IH in H1 as [[? H1]|(k' & -> & ? & H1)].
      * left. split; [done|]. replace (_ - _) with (d.2 + (t0 - c.2)) by lia. by constructor.
      * right. exists k'. split; [done|]. split; [done|].
        replace (_ - _) with (d.2 + (t0 - c.1)) by lia. by constructor.
      * left. split; [done|]. replace (_ - _) with (d.1 + (t0 - c.2)) by lia. by constructor.
      * right. exists (S k'). split; [done|]. split; [done|].
        replace (_ - _) with (d.1 + (t0 - c.1)) by lia. by constructor.
    + intros [[Hc H]|(k' & -> & Hc & H)]; inversion H as [|k0 c0 l0 t0 Hd H1|k0 c0 l0 t0 Hd H1]; subst.
      * replace t with (d.2 + (t0 + c.2)) by lia. constructor; [done|]. apply IH. left.
        split; [done|]. by replace (_ - _) with t0 by lia.
      * replace t with (d.1 + (t0 + c.2)) by lia. constructor; [done|]. apply IH. left.
        split; [done|]. by replace (_ - _) with t0 by lia.
      * replace t with (d.2 + (t0 + c.1)) by lia. constructor; [done|]. apply IH. right.
        exists k'. split; [done|]. split; [done|]. by replace (_ - _) with t0 by lia.
      * replace t with (d.1 + (t0 + c.1)) by lia. constructor; [done|]. apply IH. right.
        eexists. split; [done|]. split; [done|]. by replace (_ - _) with t0 by lia.
Qed.

(** ** The recurrence

    [sumcheck] adds a cost to every element of a set, [maxcheck] is the largest
    of two sets. *)
Lemma sumcheck_spec a b :
  cost_ok a → cost_ok b →
  sumcheck a b = if (a <? 0) || (b <? 0) then -1 else Z.min (a + b) INT16_MAX.
Proof.
  rw /cost_ok /sumcheck. intros Ha Hb. destruct ((a <? 0) || (b <? 0)) eqn:E; [done|].
  assert (0 ≤ a ∧ 0 ≤ b) as [Ha0 Hb0] by lia. revert Ha Hb. rw /INT16_MAX. intros Ha Hb.
  rw (u32_small a) ?(u32_small b) ?(u32_small (a + b)); try lia.
  destruct (Z.ltb_spec 32767 (a + b)); [lia|]. rw i16_small; lia.
Qed.

Lemma largest_cost_ok costs r : (∀ t, costs t → 0 ≤ t) → largest costs r → cost_ok r.
Proof.
  intros Hpos [(t & Ht & _ & ->)|[-> _]]; rw /cost_ok /INT16_MAX; [|lia]. specialize (Hpos t Ht). lia.
Qed.

Lemma largest_ext costs costs' r : (∀ t, costs t ↔ costs' t) → largest costs r → largest costs' r.
Proof.
  intros Heq [(t & Ht & Hub & ->)|[-> Hno]]; [left; exists t; split; [by apply Heq|]|right].
  - split; [|done]. intros t' Ht'%Heq. by apply Hub.
  - split; [done|]. intros t Ht%Heq. by eapply Hno.
Qed.

Lemma largest_sum costs a d :
  (∀ t, costs t → 0 ≤ t) → cost_ok d → largest costs a →
  largest (λ t, 0 ≤ d ∧ costs (t - d)) (sumcheck a d).
Proof.
  intros Hpos Hd Ha. rw sumcheck_spec //; [|by eapply largest_cost_ok].
  destruct (decide (0 ≤ d)) as [Hd0|Hd0]; last first.
  { right. split; [|naive_solver]. destruct (Z.ltb_spec d 0); [by rw orb_true_r|lia]. }
  rw (proj2 (Z.ltb_ge d 0) Hd0) orb_false_r.
  destruct Ha as [(t & Ht & Hub & ->)|[-> Hno]]; [|right; split; [done|]; naive_solver].
  left. exists (t + d). pose proof (Hpos t Ht). split_and!.
  - done.
  - by replace (t + d - d) with t by lia.
  - intros t' [_ Ht'%Hub]. lia.
  - rw /cost_ok /INT16_MAX in Hd |- *. destruct (Z.ltb_spec (t `min` 32767) 0); lia.
Qed.

Lemma largest_max costs costs' a b :
  (∀ t, costs t → 0 ≤ t) → (∀ t, costs' t → 0 ≤ t) → largest costs a → largest costs' b →
  largest (λ t, costs t ∨ costs' t) (maxcheck a b).
Proof.
  intros Hpos Hpos' [(t & Ht & Hub & ->)|[-> Hno]] Hb; rw /maxcheck.
  - pose proof (Hpos t Ht). destruct (Z.ltb_spec (t `min` INT16_MAX) 0); [unfold INT16_MAX in *; lia|].
    left. destruct Hb as [(t' & Ht' & Hub' & ->)|[-> Hno']].
    + pose proof (Hpos' t' Ht'). destruct (decide (t' ≤ t)).
      * exists t. split; [by left|]. split; [intros t1 [?%Hub|?%Hub']; lia|]. destruct (Z.ltb_spec (t' `min` INT16_MAX) (t `min` INT16_MAX)); lia.
      * exists t'. split; [by right|]. split; [intros t1 [?%Hub|?%Hub']; lia|]. destruct (Z.ltb_spec (t' `min` INT16_MAX) (t `min` INT16_MAX)); lia.
    + exists t. split; [by left|]. split; [naive_solver|]. destruct (Z.ltb_spec (-1) (t `min` INT16_MAX)); [done|lia].
  - cbn. eapply largest_ext; [|exact Hb]. intros t. naive_solver.
Qed.

(** ** Tables

    The entries of a table, -1 outside of it, and the table after a child. *)
Definition cell (T : list Z) (j : Z) : Z := if j <? 0 then -1 else default (-1) (T !! Z.to_nat j).
Definition row_cell (T : list Z) (sat dsat j : Z) : Z :=
  maxcheck (sumcheck (cell T j) dsat) (sumcheck (cell T (j - 1)) sat).
Definition row (T : list Z) (sat dsat : Z) : list Z := row_cell T sat dsat <$> seqZ 0 (zlen T + 1).

Definition costs_at (l : list (Z * Z)) (j t : Z) : Prop := 0 ≤ j ∧ choice (Z.to_nat j) l t.
Definition is_table (l : list (Z * Z)) (T : list Z) : Prop :=
  zlen T = zlen l + 1 ∧ ∀ j, largest (costs_at l j) (cell T j).

Lemma cell_in T j v : 0 ≤ j → T !! Z.to_nat j = Some v → cell T j = v.
Proof. intros Hj HT. rw /cell (proj2 (Z.ltb_ge j 0) Hj) HT. done. Qed.

Lemma cell_out T j : j < 0 ∨ zlen T ≤ j → cell T j = -1.
Proof.
  intros Hj. rw /cell. destruct (Z.ltb_spec j 0); [done|]. rw lookup_ge_None_2 //. unfold zlen in *. lia.
Qed.

Lemma zlen_row T sat dsat : zlen (row T sat dsat) = zlen T + 1.
Proof. rw /row {1}/zlen length_fmap length_seqZ. pose proof (zlen_nonneg T). lia. Qed.

Lemma cell_row T sat dsat j : 0 ≤ j ≤ zlen T → cell (row T sat dsat) j = row_cell T sat dsat j.
Proof.
  intros Hj. apply cell_in; [lia|]. rw /row list_lookup_fmap lookup_seqZ_lt; [|lia]. cbn. do 2 f_equal. lia.
Qed.

Lemma costs_at_nonneg l j t : costs_at l j t → 0 ≤ t.
Proof. intros [_ H]. by eapply choice_nonneg. Qed.

Lemma choice_length k l t : choice k l t → (k ≤ length l)%nat.
Proof. induction 1; cbn; lia. Qed.

Lemma is_table_nil : is_table [] [0].
Proof.
  split; [done|]. intros j. destruct (decide (j = 0)) as [->|Hj].
  - left. exists 0. split_and!; [split; [done|constructor]| |done]. intros t' [_ H]. by inversion H.
  - rw cell_out; [|unfold zlen; cbn; lia]. right. split; [done|]. intros t [? H%choice_length]. cbn in H. lia.
Qed.

Lemma costs_at_snoc l sat dsat j t :
  costs_at (l ++ [(sat, dsat)]) j t ↔
  (0 ≤ dsat ∧ costs_at l j (t - dsat)) ∨ (0 ≤ sat ∧ costs_at l (j - 1) (t - sat)).
Proof.
  rw /costs_at choice_snoc /=. split.
  - intros [Hj [[? ?]|(k' & Hk & ? & ?)]]; [by left|]. right. split; [done|]. split; [lia|].
    by replace (Z.to_nat (j - 1)) with k' by lia.
  - intros [(? & ? & ?)|(? & ? & ?)]; (split; [lia|]); [by left|]. right. exists (Z.to_nat (j - 1)).
    split; [lia|done].
Qed.

Lemma is_table_row l T sat dsat :
  is_table l T → cost_ok sat → cost_ok dsat → is_table (l ++ [(sat, dsat)]) (row T sat dsat).
Proof.
  intros [Hlen HT] Hs Hd. split; [by rw zlen_row Hlen zlen_app|]. intros j.
  destruct (decide (0 ≤ j ≤ zlen T)) as [Hj|Hj].
  - rw cell_row //. eapply largest_ext; [intros t; symmetry; apply costs_at_snoc|].
    apply largest_max; try (by apply largest_sum; [apply costs_at_nonneg|..]).
    + intros t [? H%costs_at_nonneg]. lia.
    + intros t [? H%costs_at_nonneg]. lia.
  - rw cell_out; [|rw zlen_row; lia]. right. split; [done|]. intros t [? H%choice_length].
    rewrite length_app in H. cbn in H. unfold zlen in *. lia.
Qed.

(** ** The arrays *)
Lemma i16_u16 v : cost_ok v → i16 (u16 v) = v.
Proof.
  rw /cost_ok /INT16_MAX. intros Hv. destruct (decide (v = -1)) as [->|]; [done|].
  rw u16_small ?i16_small; lia.
Qed.

(** [sats] starts with the entries of the table, [next_sats] with [n] entries of
    the next one; the entries of [sats] from [m] on are those of [mem0]. *)
Definition cells_at (mem : list Z) (a n : Z) (f : Z → Z) : Prop :=
  ∀ j, 0 ≤ j < n → mem !! Z.to_nat (a + j) = Some (u16 (f j)).
Definition holds (mem T : list Z) : Prop :=
  zlen mem = 2 * TABLE_SIZE ∧ cells_at mem sats (zlen T) (cell T).

Ltac unfold_tables := unfold next_sats, sats, TABLE_SIZE, MAX_N_IN_THRESH in *.

Lemma get_cell_spec mem a n f j :
  cells_at mem a n f → 0 ≤ a → 0 ≤ j < n → get_cell a j mem = Val (Some (u16 (f j), mem)).
Proof.
  intros H Ha Hj. rw /get_cell. by (rw (proj2 (load_Val mem (a + j) (u16 (f j)))); [|split; [lia|by apply H]]).
Qed.

Lemma set_cell_spec mem a i v :
  0 ≤ a + i < zlen mem → set_cell a i v mem = Val (Some (tt, <[Z.to_nat (a + i) := u16 v]> mem)).
Proof. intros Hi. rw /set_cell /store decide_True //. Qed.

Lemma cells_at_set mem a n f b i v :
  cells_at mem a n f → 0 ≤ a → 0 ≤ b + i → b + i < a ∨ a + n ≤ b + i →
  cells_at (<[Z.to_nat (b + i) := u16 v]> mem) a n f.
Proof. intros H Ha Hb Hout j Hj. rw list_lookup_insert_ne; [|lia]. by apply H. Qed.

Lemma cells_at_snoc mem a n f :
  cells_at mem a n f → 0 ≤ a → 0 ≤ n → a + n < zlen mem →
  cells_at (<[Z.to_nat (a + n) := u16 (f n)]> mem) a (n + 1) f.
Proof.
  intros H Ha Hn Hl j Hj. destruct (decide (j = n)) as [->|Hne].
  - apply list_lookup_insert_eq. unfold zlen in Hl. lia.
  - rw list_lookup_insert_ne; [|lia]. apply H. lia.
Qed.

(** What a row leaves in the memory. *)
Definition row_done (mem0 mem T : list Z) (n sat dsat : Z) : Prop :=
  holds mem T ∧ cells_at mem next_sats n (row_cell T sat dsat) ∧
  ∀ j, 0 ≤ j < TABLE_SIZE → mem !! Z.to_nat j = mem0 !! Z.to_nat j.

(** One more entry of [next_sats]. *)
Lemma row_done_snoc mem0 mem T n sat dsat :
  row_done mem0 mem T n sat dsat → 0 ≤ n < TABLE_SIZE → zlen T ≤ TABLE_SIZE →
  ∃ mem', set_cell next_sats n (row_cell T sat dsat n) mem = Val (Some (tt, mem')) ∧
    row_done mem0 mem' T (n + 1) sat dsat.
Proof.
  intros ([Hlen HT] & Hn & Hrest) Hnr Hz. rw set_cell_spec; [|unfold_tables; lia].
  eexists. split; [done|]. split_and!.
  - split; [by rw /zlen length_insert|]. apply cells_at_set; [done|unfold_tables; lia..].
  - apply cells_at_snoc; [done|unfold_tables; lia..].
  - intros j Hj. rw list_lookup_insert_ne; [|unfold_tables; lia]. by apply Hrest.
Qed.

Definition table_ok (T : list Z) : Prop := ∀ j, cost_ok (cell T j).

Lemma row_loop_spec mem0 T sat dsat n j mem :
  row_done mem0 mem T j sat dsat → table_ok T → 1 ≤ j → j + Z.of_nat n = zlen T → zlen T ≤ TABLE_SIZE →
  ∃ mem', row_loop n j sat dsat mem = Val (Some (tt, mem')) ∧ row_done mem0 mem' T (zlen T) sat dsat.
Proof.
  intros Hm Hok Hj Hn Hz. revert j mem Hm Hj Hn. induction n as [|n IH]; intros j mem Hm Hj Hn.
  - exists mem. split; [done|]. by replace (zlen T) with j by lia.
  - cbn [row_loop]. pose proof Hm as ([Hlen HT] & _ & _). rw /mbind /analysis_bind.
    rw (get_cell_spec _ _ _ _ j HT) //; [|lia]. rw (get_cell_spec _ _ _ _ (j - 1) HT) //; [|lia].
    rw !i16_u16; [|apply Hok..]. destruct (row_done_snoc _ _ _ _ _ _ Hm) as (mem' & Hset & Hm'); [lia..|].
    rewrite /row_cell in Hset. rw Hset. apply IH; [done|lia..].
Qed.

Lemma sumcheck_cost_ok a b : cost_ok a → cost_ok b → cost_ok (sumcheck a b).
Proof.
  intros Ha Hb. rw sumcheck_spec //. revert Ha Hb. rw /cost_ok /INT16_MAX. intros.
  destruct (_ || _) eqn:E; lia.
Qed.

Lemma row_cell_first T sat dsat :
  table_ok T → cost_ok dsat → row_cell T sat dsat 0 = sumcheck (cell T 0) dsat.
Proof.
  intros HT Hd. pose proof (sumcheck_cost_ok _ _ (HT 0) Hd) as Hx. rw /row_cell (cell_out T (0 - 1)); [|lia].
  rw /maxcheck (_ : sumcheck (-1) sat = -1) //. revert Hx. rw /cost_ok. intros.
  destruct (Z.ltb_spec (sumcheck (cell T 0) dsat) 0); [lia|]. destruct (Z.ltb_spec (-1) (sumcheck (cell T 0) dsat)); lia.
Qed.

Lemma row_cell_last T sat dsat :
  row_cell T sat dsat (zlen T) = sumcheck (cell T (zlen T - 1)) sat.
Proof. by (rw /row_cell (cell_out T (zlen T)); [|lia]). Qed.

(** The copy of [next_sats]. *)
Lemma move_cells_spec mem n f :
  zlen mem = 2 * TABLE_SIZE → 0 ≤ n ≤ TABLE_SIZE → cells_at mem next_sats n f →
  ∃ mem', move_cells n mem = Val (Some (tt, mem')) ∧ zlen mem' = 2 * TABLE_SIZE ∧ cells_at mem' sats n f ∧
    ∀ j, n ≤ j < TABLE_SIZE → mem' !! Z.to_nat j = mem !! Z.to_nat j.
Proof.
  intros Hlen Hn Hf. rw /move_cells loads_in_range; [|unfold_tables; lia..]. rw outcome_ret_bind.
  set (l := take _ _). assert (zlen l = n) as Hl by (rw /l zlen_take ?zlen_drop; unfold_tables; lia).
  assert (stores mem sats l = Val (l ++ drop (length l) mem)) as Hst.
  { rw stores_in_range; [|unfold_tables; lia..]. done. }
  rw Hst outcome_ret_bind. eexists. split; [done|]. split_and!.
  - by rw -(stores_length _ _ _ _ Hst) in Hlen.
  - intros j Hj. unfold zlen in *. rw lookup_app_l; [|unfold_tables; lia].
    rw /l lookup_take_lt; [|unfold_tables; lia]. rw lookup_drop -(Hf j Hj). f_equal. unfold_tables. lia.
  - intros j Hj. unfold zlen in *. rw lookup_app_r; [|lia]. rw lookup_drop. f_equal. lia.
Qed.

(** One child: the arrays hold the next table. *)
Lemma row_step_spec mem T sat dsat :
  holds mem T → table_ok T → cost_ok sat → cost_ok dsat → 1 ≤ zlen T < TABLE_SIZE →
  ∃ mem', row_step (zlen T) sat dsat mem = Val (Some (tt, mem')) ∧ holds mem' (row T sat dsat) ∧
    ∀ j, zlen T + 1 ≤ j < TABLE_SIZE → mem' !! Z.to_nat j = mem !! Z.to_nat j.
Proof.
  intros HT Hok Hs Hd Hz. pose proof HT as [Hlen Hcells]. rw /row_step /mbind /analysis_bind.
  rw (get_cell_spec _ _ _ _ 0 Hcells) //; [|lia]. rw i16_u16; [|apply Hok]. rw -(row_cell_first T sat) //.
  destruct (row_done_snoc mem mem T 0 sat dsat) as (mem1 & -> & H1); [|lia..|].
  { split; [done|]. split; [intros j; lia|done]. }
  destruct (row_loop_spec mem T sat dsat (Z.to_nat (zlen T - 1)) 1 mem1) as (mem2 & -> & H2); [done..|lia|lia|].
  pose proof H2 as ([_ HT2] & _ & _). rw (get_cell_spec _ _ _ _ (zlen T - 1) HT2) //; [|lia].
  rw i16_u16; [|apply Hok]. rw -(row_cell_last T sat dsat).
  destruct (row_done_snoc mem mem2 T (zlen T) sat dsat) as (mem3 & -> & H3); [done|lia..|].
  destruct H3 as ([Hlen3 _] & Hnext & Hrest).
  destruct (move_cells_spec mem3 (zlen T + 1) _ Hlen3 ltac:(lia) Hnext) as (mem4 & -> & Hlen4 & Hc4 & Hr4).
  exists mem4. split; [done|]. split; [split; [done|]|].
  - rw zlen_row. intros j Hj. rw cell_row; [|lia]. by apply Hc4.
  - intros j Hj. rw Hr4 //. apply Hrest. lia.
Qed.

(** ** The loops over the children *)
Fixpoint rows (l : list (Z * Z)) (sats_size : Z) : analysis unit :=
  match l with
  | [] => mret tt
  | c :: l' => row_step sats_size c.1 c.2;; rows l' (sats_size + 1)
  end.

Definition costs_ok (l : list (Z * Z)) : Prop := Forall (λ c, cost_ok c.1 ∧ cost_ok c.2) l.

Lemma is_table_ok l T : is_table l T → table_ok T.
Proof. intros [_ HT] j. eapply largest_cost_ok; [|apply HT]. apply costs_at_nonneg. Qed.

Lemma rows_spec l l0 T mem :
  costs_ok l → is_table l0 T → holds mem T → zlen T + zlen l ≤ TABLE_SIZE →
  ∃ mem' T', rows l (zlen T) mem = Val (Some (tt, mem')) ∧ is_table (l0 ++ l) T' ∧ holds mem' T' ∧
    ∀ j, zlen T' ≤ j < TABLE_SIZE → mem' !! Z.to_nat j = mem !! Z.to_nat j.
Proof.
  intros Hok. revert l0 T mem. induction Hok as [|[s d] l [Hs Hd] Hok IH]; intros l0 T mem HT Hm Hz.
  { exists mem, T. rw app_nil_r. done. }
  rewrite zlen_cons in Hz. pose proof (zlen_nonneg l) as Hl. pose proof HT as [Hlen _].
  pose proof (zlen_nonneg l0) as Hl0. cbn [rows fst snd]. rw /mbind /analysis_bind.
  destruct (row_step_spec mem T s d) as (mem1 & -> & H1 & Hr1); [done|by eapply is_table_ok|done|done|lia|].
  rw -(zlen_row T s d). destruct (IH (l0 ++ [(s, d)]) (row T s d) mem1) as (mem2 & T2 & -> & H2 & Hh2 & Hr2);
    [by apply is_table_row|done|rw zlen_row; lia|].
  rewrite -app_assoc in H2. exists mem2, T2. split; [done|]. split; [done|]. split; [done|].
  intros j Hj. rw Hr2 //. apply Hr1. destruct H2 as [Hlen2 _].
  rewrite zlen_app zlen_cons in Hlen2. lia.
Qed.

(** The arrays at the start. *)
Definition start_tables : list Z := replicate (Z.to_nat (2 * TABLE_SIZE)) 0.

Lemma start_set : set_cell sats 0 0 start_tables = Val (Some (tt, start_tables)).
Proof. by vm_compute. Qed.

Lemma start_holds : holds start_tables [0].
Proof.
  split; [done|]. intros j Hj. replace j with 0; [done|]. unfold zlen in Hj. cbn in Hj. lia.
Qed.

Lemma start_cell j : 0 ≤ j < 2 * TABLE_SIZE → start_tables !! Z.to_nat j = Some 0.
Proof. intros Hj. apply lookup_replicate_2. lia. Qed.

(** The entries that are read at the end. *)
Definition entry (l : list (Z * Z)) (k r : Z) : Prop :=
  if k <=? zlen l then largest (costs_at l k) r else r = 0.

Lemma all_rows_spec l :
  costs_ok l → zlen l ≤ MAX_N_IN_THRESH →
  ∃ mem', rows l 1 start_tables = Val (Some (tt, mem')) ∧
    ∀ k, 0 ≤ k < TABLE_SIZE → ∃ r, get_cell sats k mem' = Val (Some (u16 r, mem')) ∧ entry l k r ∧ cost_ok r.
Proof.
  intros Hok Hz. destruct (rows_spec l [] [0] start_tables) as (mem' & T & Hrows & HT & [Hlen Hh] & Hr).
  - done.
  - apply is_table_nil.
  - apply start_holds.
  - unfold_tables. unfold zlen in *. cbn. lia.
  - exists mem'. split; [done|]. intros k Hk. pose proof HT as [HlenT Hlarge]. cbn in HlenT.
    destruct (decide (k < zlen T)) as [Hin|Hout].
    + exists (cell T k). rw (get_cell_spec _ _ _ _ k Hh) //; [|lia]. split_and!; [done| |by eapply is_table_ok].
      rw /entry. destruct (Z.leb_spec k (zlen l)); [apply Hlarge|cbn in *; lia].
    + exists 0. rw /get_cell. rw (proj2 (load_Val mem' (sats + k) 0)).
      * split_and!; [done| |rw /cost_ok /INT16_MAX; lia]. rw /entry.
        destruct (Z.leb_spec k (zlen l)); [cbn in *; lia|done].
      * split; [unfold_tables; lia|]. rw Hr; [|unfold_tables; lia]. apply start_cell. unfold_tables. lia.
Qed.

(** ** The tables of a thresh with local arrays *)
Section local_tables.
Context (ext : policy_node → analysis policy_node_ext_info).

(** The children and their analyses, which do not use the memory. *)
Definition analyses (x : policy_node) (info : policy_node_ext_info) : Prop :=
  ∀ mem, ext x mem = Val (Some (info, mem)).
Definition ops_costs (info : policy_node_ext_info) : Z * Z := (ops_sat (ops info), ops_dsat (ops info)).
Definition ss_costs (info : policy_node_ext_info) : Z * Z := (ss_sat (ss info), ss_dsat (ss info)).
Definition count_ops (cnt : Z) (info : policy_node_ext_info) : Z := u16 (cnt + (count (ops info) + 1)).

Lemma ops_loop_rows l infos cnt sats_size mem :
  Forall2 analyses l infos →
  ops_loop ext l cnt sats_size mem =
  (rows (ops_costs <$> infos) sats_size;; mret (foldl count_ops cnt infos)) mem.
Proof.
  intros H. revert cnt sats_size mem. induction H as [|x info l infos Hx H IH]; intros cnt sats_size mem; [done|].
  cbn [ops_loop rows fmap list_fmap foldl]. rw /mbind /analysis_bind Hx. cbn [ops_costs fst snd].
  destruct (row_step _ _ _ mem) as [[[[] mem1]|]| | |]; [|done..]. apply IH.
Qed.

Lemma ss_loop_rows l infos sats_size mem :
  Forall2 analyses l infos → ss_loop ext l sats_size mem = rows (ss_costs <$> infos) sats_size mem.
Proof.
  intros H. revert sats_size mem. induction H as [|x info l infos Hx H IH]; intros sats_size mem; [done|].
  cbn [ss_loop rows fmap list_fmap]. rw /mbind /analysis_bind Hx. cbn [ss_costs fst snd].
  destruct (row_step _ _ _ mem) as [[[[] mem1]|]| | |]; [|done..]. apply IH.
Qed.

Lemma scan_steps l infos k a mem :
  Forall2 analyses l infos →
  thresh_scan ext k l a mem = Val (Some (foldl (thresh_acc_step k) a infos, mem)).
Proof.
  intros H. revert a mem. induction H as [|x info l infos Hx H IH]; intros a mem; [done|].
  cbn [thresh_scan foldl]. rw /mbind /analysis_bind Hx. apply IH.
Qed.

Lemma zlen_costs (l : list policy_node) infos (f : policy_node_ext_info → Z * Z) :
  Forall2 analyses l infos → zlen (f <$> infos) = zlen l.
Proof. intros H%Forall2_length. rw /zlen length_fmap. lia. Qed.

(** Both functions, with the costs of the children and their result. *)
Definition run_tables {A} (l : list (Z * Z)) (k : Z) (result : Z → Z → A) : analysis A :=
  with_tables false (
    set_cell sats 0 0;; rows l 1;; sat ← get_sats false k; dsat ← get_cell sats 0;
    mret (result (i16 sat) (i16 dsat))).

Lemma run_tables_spec {A} l k (result : Z → Z → A) :
  costs_ok l → zlen l ≤ MAX_N_IN_THRESH → 0 ≤ k →
  if k <? TABLE_SIZE then
    ∃ s d, (∀ mem, run_tables l k result mem = Val (Some (result s d, mem))) ∧
      entry l k s ∧ entry l 0 d ∧ cost_ok s ∧ cost_ok d
  else ∀ mem, run_tables l k result mem = Undef.
Proof.
  intros Hok Hz Hk. destruct (all_rows_spec l Hok Hz) as (mem' & Hrows & Hcells).
  rw /run_tables /with_tables. fold start_tables. rw /mbind /analysis_bind start_set Hrows /get_sats /=.
  destruct (Z.ltb_spec k TABLE_SIZE); [|done].
  destruct (Hcells k ltac:(lia)) as (s & -> & ? & ?).
  destruct (Hcells 0 ltac:(unfold_tables; lia)) as (d & -> & ? & ?). exists s, d. rw !i16_u16 //.
Qed.

Lemma thresh_ops_run l infos k mem :
  Forall2 analyses l infos → zlen l ≤ MAX_N_IN_THRESH →
  compute_thresh_ops false ext k l mem =
  run_tables (ops_costs <$> infos) k (mk_ops (foldl count_ops 0 infos)) mem.
Proof.
  intros H Hz. rw /compute_thresh_ops (proj2 (Z.ltb_ge _ _) Hz) /run_tables /with_tables. fold start_tables.
  rw /mbind /analysis_bind start_set (ops_loop_rows _ infos) // /mbind /analysis_bind.
  by destruct (rows _ _ _) as [[[[] mem1]|]| | |].
Qed.

Lemma thresh_stacksize_run l infos k mem :
  Forall2 analyses l infos → zlen l ≤ MAX_N_IN_THRESH →
  compute_thresh_stacksize false ext k l mem = run_tables (ss_costs <$> infos) k mk_ss mem.
Proof.
  intros H Hz. rw /compute_thresh_stacksize (proj2 (Z.ltb_ge _ _) Hz) /run_tables /with_tables. fold start_tables.
  by rw /mbind /analysis_bind start_set (ss_loop_rows _ infos).
Qed.

(** Costs in range. *)
Definition info_ok (info : policy_node_ext_info) : Prop :=
  cost_ok (ops_sat (ops info)) ∧ cost_ok (ops_dsat (ops info)) ∧
  cost_ok (ss_sat (ss info)) ∧ cost_ok (ss_dsat (ss info)).

Lemma ops_costs_ok infos : Forall info_ok infos → costs_ok (ops_costs <$> infos).
Proof. intros H. apply Forall_fmap. eapply Forall_impl; [exact H|]. by intros ? (?&?&?&?). Qed.

Lemma ss_costs_ok infos : Forall info_ok infos → costs_ok (ss_costs <$> infos).
Proof. intros H. apply Forall_fmap. eapply Forall_impl; [exact H|]. by intros ? (?&?&?&?). Qed.

(** The whole case of thresh. *)
Definition thresh_result (k : Z) (infos : list policy_node_ext_info) (info : policy_node_ext_info) : Prop :=
  let o := ops info in let s := ss info in
  entry (ops_costs <$> infos) k (ops_sat o) ∧ entry (ops_costs <$> infos) 0 (ops_dsat o) ∧
  entry (ss_costs <$> infos) k (ss_sat s) ∧ entry (ss_costs <$> infos) 0 (ss_dsat s).

Lemma ext_thresh_spec l infos k :
  Forall2 analyses l infos → Forall info_ok infos → zlen l ≤ MAX_N_IN_THRESH → 0 ≤ k →
  if k <? TABLE_SIZE then
    ∃ info, (∀ mem, ext_thresh false ext k l mem = Val (Some (info, mem))) ∧
      thresh_result k infos info ∧ info_ok info
  else ∀ mem, ext_thresh false ext k l mem = Undef.
Proof.
  intros H Hok Hz Hk.
  pose proof (run_tables_spec (ops_costs <$> infos) k (mk_ops (foldl count_ops 0 infos))
    (ops_costs_ok _ Hok) ltac:(by rw (zlen_costs l)) Hk) as Ho.
  pose proof (run_tables_spec (ss_costs <$> infos) k mk_ss
    (ss_costs_ok _ Hok) ltac:(by rw (zlen_costs l)) Hk) as Hs.
  destruct (k <? TABLE_SIZE).
  - destruct Ho as (s & d & Ho & ? & ? & ? & ?), Hs as (s' & d' & Hs & ? & ? & ? & ?).
    eexists. split.
    + intros mem. rw /ext_thresh /mbind /analysis_bind (scan_steps _ infos) //.
      by rw (thresh_ops_run _ infos) // Ho (thresh_stacksize_run _ infos) // Hs.
    + by split.
  - intros mem. rw /ext_thresh /mbind /analysis_bind (scan_steps _ infos) //.
    by rw (thresh_ops_run _ infos) // Ho.
Qed.

(** More children than fit in the tables are refused. *)
Lemma ext_thresh_too_many l infos k mem :
  Forall2 analyses l infos → MAX_N_IN_THRESH < zlen l → ext_thresh false ext k l mem = Val None.
Proof.
  intros H Hz. rw /ext_thresh /mbind /analysis_bind (scan_steps _ infos) //.
  by rw /compute_thresh_ops (proj2 (Z.ltb_lt _ _) Hz).
Qed.
End local_tables.

(** ** The whole analysis

    [runs P m]: with local arrays [m] is defined, does not depend on the
    memory and does not change it; its result satisfies [P]. *)
Definition runs {A} (P : A → Prop) (m : analysis A) : Prop :=
  ∃ o, (∀ mem, m mem = Val ((λ a, (a, mem)) <$> o)) ∧ ∀ a, o = Some a → P a.

Lemma runs_ret {A} (P : A → Prop) a : P a → runs P (mret a).
Proof. intros H. exists (Some a). split; [done|]. by intros ? [= <-]. Qed.

Lemma runs_fail {A} (P : A → Prop) : runs P analysis_fail.
Proof. by exists None. Qed.

Lemma runs_of {A} (P : A → Prop) o : (∀ a, o = Some a → P a) → runs P (analysis_of o).
Proof. intros H. destruct o; [by apply runs_ret, H|apply runs_fail]. Qed.

Lemma runs_bind {A B} (Q : A → Prop) (P : B → Prop) m f :
  runs Q m → (∀ a, Q a → runs P (f a)) → runs P (m ≫= f).
Proof.
  intros ([a|] & Hm & HQ) Hf.
  - destruct (Hf a (HQ a eq_refl)) as (o & Ho & HP). exists o. split; [|done].
    intros mem. by rw /mbind /analysis_bind Hm /= Ho.
  - exists None. split; [|done]. intros mem. by rw /mbind /analysis_bind Hm.
Qed.

Lemma maxcheck_cost_ok a b : cost_ok a → cost_ok b → cost_ok (maxcheck a b).
Proof. rw /maxcheck. intros. by repeat case_match. Qed.

Lemma i16_cost_ok v : cost_ok v → cost_ok (i16 v).
Proof. intros Hv. rw i16_small //. revert Hv. rw /cost_ok /INT16_MAX. lia. Qed.

Lemma small_cost_ok v : -1 ≤ v ≤ 100 → cost_ok v.
Proof. rw /cost_ok /INT16_MAX. lia. Qed.

Create HintDb cost.
#[export] Hint Resolve sumcheck_cost_ok maxcheck_cost_ok i16_cost_ok : cost.
#[export] Hint Extern 5 (cost_ok _) => (apply small_cost_ok; lia) : cost.

(** The costs of a case from those of its parts. *)
Ltac info_ok :=
  repeat match goal with H : info_ok _ |- _ => destruct H as (? & ? & ? & ?) end;
  refine (conj _ (conj _ (conj _ _))); cbn -[sumcheck maxcheck i16 cost_ok]; eauto 8 with cost.

Lemma ext_of_constant_ok t a : ext_of_constant t = Some a → info_ok a.
Proof. destruct t; try done; intros [= <-]; info_ok. Qed.

Lemma ext_of_key_ok t a : ext_of_key t = Some a → info_ok a.
Proof. destruct t; try done; intros [= <-]; info_ok. Qed.

Lemma ext_of_uint32_ok t n a : ext_of_uint32 t n = Some a → info_ok a.
Proof. destruct t; try done; intros [= <-]; info_ok. Qed.

Lemma ext_of_hash_256_ok t a : ext_of_hash_256 t = Some a → info_ok a.
Proof. destruct t; try done; intros [= <-]; info_ok. Qed.

Lemma ext_of_hash_160_ok t a : ext_of_hash_160 t = Some a → info_ok a.
Proof. destruct t; try done; intros [= <-]; info_ok. Qed.

Lemma ext_of_binary_ok t f x y : ext_of_binary t = Some f → info_ok x → info_ok y → info_ok (f x y).
Proof. destruct t; try done; intros [= <-] Hx Hy; info_ok. Qed.

Lemma ext_of_wrapper_ok t f x : ext_of_wrapper t = Some f → info_ok x → info_ok (f x).
Proof. destruct t; try done; intros [= <-] Hx; info_ok. Qed.

Lemma ext_andor_ok x y z : info_ok x → info_ok y → info_ok z → info_ok (ext_andor x y z).
Proof. intros Hx Hy Hz; info_ok. Qed.

Lemma ext_multi_ok k n : 1 ≤ k ≤ n → n ≤ MAX_PUBKEYS_PER_MULTISIG → info_ok (ext_multi k n).
Proof. rw /MAX_PUBKEYS_PER_MULTISIG. intros Hk Hn. info_ok. Qed.

(** The children of a thresh: all of them are analysed, or the loop over them
    fails. *)
Lemma children_analyses ext l :
  (∀ x, x ∈ l → runs info_ok (ext x)) →
  (∃ infos, Forall2 (analyses ext) l infos ∧ Forall info_ok infos) ∨
  ∀ k a mem, thresh_scan ext k l a mem = Val None.
Proof.
  induction l as [|x l IH]; intros H.
  { left. by exists []. }
  destruct (H x ltac:(by left)) as ([info|] & Hx & Hok); last first.
  { right. intros k a mem. by rw /= /mbind /analysis_bind Hx. }
  destruct IH as [(infos & Hl & Hoks)|IH]; [intros y Hy; apply H; by right| |].
  - left. exists (info :: infos). split; constructor; try done. by apply Hok.
  - right. intros k a mem. rw /= /mbind /analysis_bind Hx. apply IH.
Qed.

Lemma thresh_runs ext k l :
  (∀ x, x ∈ l → runs info_ok (ext x)) → 0 ≤ k < TABLE_SIZE → runs info_ok (ext_thresh false ext k l).
Proof.
  intros Hl [Hk Hlt]. destruct (children_analyses ext l Hl) as [(infos & Hinfos & Hok)|Hno]; last first.
  { exists None. split; [|done]. intros mem. by rw /ext_thresh /mbind /analysis_bind Hno. }
  destruct (decide (zlen l ≤ MAX_N_IN_THRESH)) as [Hz|Hz]; last first.
  { exists None. split; [|done]. intros mem. apply (ext_thresh_too_many _ _ infos); [done|lia]. }
  pose proof (ext_thresh_spec ext l infos k Hinfos Hok Hz Hk) as Hspec.
  rewrite (proj2 (Z.ltb_lt _ _) Hlt) in Hspec. destruct Hspec as (info & Heq & _ & Hinfo).
  exists (Some info). split; [done|by intros ? [= <-]].
Qed.

(** The thresholds are indices of the tables. *)
Definition threshold_fits (n : policy_node) : Prop :=
  match n with policy_node_thresh _ _ k _ => k < TABLE_SIZE | _ => True end.
Definition thresholds_fit (n : policy_node) : Prop := ∀ m, subnode m n → threshold_fits m.

Lemma analysis_runs n :
  policy_ok n → thresholds_fit n → runs info_ok (compute_miniscript_policy_ext_info false n).
Proof.
  induction n as [n IH] using policy_node_children_ind. intros Hn Hfit.
  assert (∀ c, child c n → runs info_ok (compute_miniscript_policy_ext_info false c)) as Hc.
  { intros c Hc. apply IH; [done|..].
    - intros m Hm. apply Hn. by eapply sub_child.
    - intros m Hm. apply Hfit. by eapply sub_child. }
  pose proof (Hn n (sub_refl n)) as [_ Hb]. pose proof (Hfit n (sub_refl n)) as Hk. clear IH Hn Hfit.
  destruct n as [t f|t f x|t f x y|t f x y z|t f kp|t f n|t f k kps|t f k l|t f h|t f h|t f kp tree]; cbn;
    (destruct f as [f|]; [|apply runs_fail]); try (apply runs_of; intros).
  - by eapply ext_of_constant_ok.
  - destruct (ext_of_wrapper t) eqn:Et; [|apply runs_fail].
    eapply runs_bind; [apply Hc; constructor|]. intros. apply runs_ret. by eapply ext_of_wrapper_ok.
  - destruct (ext_of_binary t) eqn:Et; [|apply runs_fail].
    eapply runs_bind; [apply Hc; constructor|]. intros.
    eapply runs_bind; [apply Hc; constructor|]. intros. apply runs_ret. by eapply ext_of_binary_ok.
  - destruct t; try apply runs_fail. eapply runs_bind; [apply Hc; constructor|]. intros.
    eapply runs_bind; [apply Hc; constructor|]. intros.
    eapply runs_bind; [apply Hc; constructor|]. intros. apply runs_ret. by apply ext_andor_ok.
  - by eapply ext_of_key_ok.
  - by eapply ext_of_uint32_ok.
  - destruct t; try apply runs_fail. apply runs_ret, ext_multi_ok; apply Hb.
  - destruct t; try apply runs_fail. apply thresh_runs; [|cbn in Hb, Hk; lia].
    intros x Hx. apply Hc. by constructor.
  - by eapply ext_of_hash_160_ok.
  - by eapply ext_of_hash_256_ok.
  - apply runs_fail.
Qed.

Local Notation ext := (compute_miniscript_policy_ext_info false).

(** The analysis of an expression that the parser returned, with the arrays
    of thresh on the stack.  When the thresholds are below 130, the size of
    the arrays, it returns: it does not read or write outside of an array, its
    result does not depend on the contents of the memory that it leaves
    unchanged, and the counts of operations and stack elements it reports are
    between -1 and 32767.  A thresh whose threshold is 130 or more, with at
    most 128 children that are analysed, makes it read outside of the array. *)
Lemma analysis_defined n :
  policy_ok n →
  (thresholds_fit n →
     ∃ o, (∀ mem, ext n mem = Val ((λ info, (info, mem)) <$> o)) ∧ ∀ info, o = Some info → info_ok info) ∧
  ∀ f k l infos, n = policy_node_thresh TOKEN_THRESH (Some f) k l →
     Forall2 (analyses ext) l infos → Forall info_ok infos → zlen l ≤ MAX_N_IN_THRESH → TABLE_SIZE ≤ k →
     ∀ mem, ext n mem = Undef.
Proof.
  intros Hn. split; [by apply analysis_runs|]. intros f k l infos -> Hinfos Hok Hz Hk. cbn.
  pose proof (ext_thresh_spec ext l infos k Hinfos Hok Hz ltac:(unfold_tables; lia)) as H.
  by rewrite (proj2 (Z.ltb_ge _ _) Hk) in H.
Qed.

(** Witnesses: two of three keys, and a threshold of 200. *)
Definition two_of_three : policy_node := inner_of "wsh(thresh(2,pk(@0/**),s:pk(@1/**),s:pk(@2/**)))".
Definition threshold_200 : policy_node := inner_of "wsh(thresh(200,pk(@0/**)))".

Lemma thresholds_fit_all n :
  all_nodes (λ m, match m with policy_node_thresh _ _ k _ => k <? TABLE_SIZE | _ => true end) n = true →
  thresholds_fit n.
Proof.
  intros H m Hm. pose proof (all_nodes_spec _ _ _ H Hm) as Hk. destruct m; try done. cbn in *. lia.
Qed.

(** C23: the tables of thresh, in the builds in which they are local variables
    (all but the one for the Nano S, where a thresh among the children overwrites
    the shared tables, as [analysis_deviations] shows).  For an expression that the parser accepts,
    in which all the thresholds are indices of the tables, when the analysis of
    thresh(k,X1,...,Xn) returns a result, the number of operations and the number of stack elements that
    it reports for a satisfaction are the largest ones over all the ways to
    satisfy exactly k children and to dissatisfy the others (-1 when there is
    no such way, and 32767 when the number is larger than that), and those for
    a dissatisfaction the ones that dissatisfy every child.  With a threshold
    above the number of children, which nothing can satisfy and which the
    parser accepts, 0 is reported instead of -1. *)
Theorem thresh_tables_correct f k l mem info mem' :
  let n := policy_node_thresh TOKEN_THRESH (Some f) k l in
  policy_ok n → thresholds_fit n → ext n mem = Val (Some (info, mem')) →
  mem' = mem ∧ ∃ infos, Forall2 (analyses ext) l infos ∧ thresh_result k infos info.
Proof.
  intros n Hn Hfit H. pose proof (Hn n (sub_refl n)) as [_ Hb]. pose proof (Hfit n (sub_refl n)) as Hk.
  cbn in Hb, Hk, H.
  destruct (children_analyses ext l) as [(infos & Hinfos & Hok)|Hno].
  - intros x Hx. apply analysis_runs.
    + intros m Hm. apply Hn. eapply sub_child; [by constructor|done].
    + intros m Hm. apply Hfit. eapply sub_child; [by constructor|done].
  - destruct (decide (zlen l ≤ MAX_N_IN_THRESH)) as [Hz|Hz]; last first.
    { rewrite (ext_thresh_too_many _ _ infos) // in H. lia. }
    pose proof (ext_thresh_spec ext l infos k Hinfos Hok Hz ltac:(lia)) as Hspec.
    rewrite (proj2 (Z.ltb_lt _ _) Hk) in Hspec. destruct Hspec as (info1 & Heq & Hres & _).
    rewrite Heq in H. injection H as <- <-. split; [done|]. by exists infos.
  - by rewrite /ext_thresh /mbind /analysis_bind Hno in H.
Qed.

(** Two of three keys: 0 counted operations beyond the opcodes, two or three
    elements on the stack. *)
Lemma thresh_tables_correct_witness :
  ∃ infos info, Forall2 (analyses ext)
    match two_of_three with policy_node_thresh _ _ _ l => l | _ => [] end infos ∧ thresh_result 2 infos info.
Proof.
  destruct two_of_three as [| | | | | | |t [f|] k l| | |] eqn:E;
    try (vm_compute in E; discriminate E).
  assert (t = TOKEN_THRESH ∧ k = 2) as [-> ->] by (vm_compute in E; by injection E).
  destruct (ext (policy_node_thresh TOKEN_THRESH (Some f) 2 l) []) as [[[info mem]|]| | |] eqn:H;
    [|exfalso; revert H; vm_compute in E; injection E as <- <-; vm_compute; discriminate..].
  destruct (thresh_tables_correct f 2 l [] info mem) as [_ (infos & H1 & H2)].
  - rw -E. apply inner_of_ok; vm_compute; reflexivity.
  - rw -E. apply thresholds_fit_all; vm_compute; reflexivity.
  - done.
  - exists infos, info. exact (conj H1 H2).
Defined.
