(* ===== verification/PolicyAnalysis.v ===== *)
(** * Wallet policies: correctness of the analysis of miniscript

    Theorems on PolicyExtInfo.v: the flags "a signature is required" and "no
    mix of timelocks" hold on every path of satisfaction of an expression; the
    tables of thresh contain the largest satisfactions with a given number of
    children; the analysis is defined on the expressions that the parser
    returns, except for thresholds that exceed the tables; and the cases of
    the abbreviations against what they stand for. *)

From Stdlib Require Ascii String Btauto.
Import String.StringSyntax Ascii.AsciiSyntax.
From S2P Require Import Prelude Bytes Bip32 Buffer Script PolicySyntax PolicyParser PolicyLogic PolicyTypes PolicyExtInfo PolicyThresh.

(** ** Paths of satisfaction

    What a way to satisfy an expression involves: a signature, relative time
    and height locks (g, h), and absolute time and height locks (i, j). *)
Record path := mk_path { p_sig : bool; p_g : bool; p_h : bool; p_i : bool; p_j : bool }.

Definition no_path : path := mk_path false false false false false.
Definition signed : path := mk_path true false false false false.
Definition path_union (p q : path) : path :=
  mk_path (p_sig p || p_sig q) (p_g p || p_g q) (p_h p || p_h q) (p_i p || p_i q) (p_j p || p_j q).

(** A path that needs both a time lock and a height lock of the same kind. *)
Definition mixed (p : path) : bool := (p_g p && p_h p) || (p_i p && p_j p).

Definition is_key (t : token) : bool :=
  match t with TOKEN_PK | TOKEN_PKH | TOKEN_PK_K | TOKEN_PK_H => true | _ => false end.
Definition is_and (t : token) : bool :=
  match t with TOKEN_AND_V | TOKEN_AND_B | TOKEN_AND_N => true | _ => false end.
Definition is_or (t : token) : bool :=
  match t with TOKEN_OR_B | TOKEN_OR_C | TOKEN_OR_D | TOKEN_OR_I => true | _ => false end.
Definition is_wrapper (t : token) : bool :=
  match t with
  | TOKEN_A | TOKEN_S | TOKEN_T | TOKEN_D | TOKEN_V | TOKEN_J | TOKEN_N | TOKEN_L | TOKEN_U => true
  | _ => false
  end.

(** The paths, from the meaning of each fragment: 0 cannot be satisfied,
    and(X,Y) needs both, or(X,Z) either, andor(X,Y,Z) needs X and Y or Z, c:X
    checks a signature with the key that X leaves, and thresh needs [k] of its
    children. *)
Inductive sat_path : policy_node → path → Prop :=
| P_1 f : sat_path (policy_node_constant TOKEN_1 f) no_path
| P_key t f kp : is_key t = true → sat_path (policy_node_with_key t f kp) signed
| P_multi f k kps : sat_path (policy_node_multisig TOKEN_MULTI f k kps) signed
| P_older f n :
    sat_path (policy_node_with_uint32 TOKEN_OLDER f n)
      (mk_path false (Z.testbit n 22) (negb (Z.testbit n 22)) false false)
| P_after f n :
    sat_path (policy_node_with_uint32 TOKEN_AFTER f n)
      (mk_path false false false (500000000 <=? n) (n <? 500000000))
| P_hash_256 t f h : sat_path (policy_node_with_hash_256 t f h) no_path
| P_hash_160 t f h : sat_path (policy_node_with_hash_160 t f h) no_path
| P_and t f x y p q : is_and t = true → sat_path x p → sat_path y q →
    sat_path (policy_node_with_script2 t f x y) (path_union p q)
| P_or_l t f x z p : is_or t = true → sat_path x p → sat_path (policy_node_with_script2 t f x z) p
| P_or_r t f x z p : is_or t = true → sat_path z p → sat_path (policy_node_with_script2 t f x z) p
| P_andor_xy f x y z p q : sat_path x p → sat_path y q →
    sat_path (policy_node_with_script3 TOKEN_ANDOR f x y z) (path_union p q)
| P_andor_z f x y z p : sat_path z p → sat_path (policy_node_with_script3 TOKEN_ANDOR f x y z) p
| P_thresh f k l p : 0 < k → chosen (Z.to_nat k) l p → sat_path (policy_node_thresh TOKEN_THRESH f k l) p
| P_check f x p : sat_path x p → sat_path (policy_node_with_script TOKEN_C f x) (path_union signed p)
| P_wrapper t f x p : is_wrapper t = true → sat_path x p → sat_path (policy_node_with_script t f x) p
(** Satisfying exactly [n] of the expressions. *)
with chosen : nat → list policy_node → path → Prop :=
| C_nil : chosen 0 [] no_path
| C_skip n x l p : chosen n l p → chosen n (x :: l) p
| C_take n x l p q : sat_path x p → chosen n l q → chosen (S n) (x :: l) (path_union p q).

Scheme sat_path_mut := Induction for sat_path Sort Prop
with chosen_mut := Induction for chosen Sort Prop.

(** What the analysis of an expression says about its paths. *)
Record path_ok (info : policy_node_ext_info) (p : path) : Prop := {
  ok_sig : ei_s info = true → p_sig p = true;
  ok_g : p_g p = true → ei_g info = true;
  ok_h : p_h p = true → ei_h info = true;
  ok_i : p_i p = true → ei_i info = true;
  ok_j : p_j p = true → ei_j info = true;
  ok_mix : ei_k info = true → mixed p = false
}.

(** Success of the steps of an analysis. *)
Lemma analysis_bind_Some {A B} (m : analysis A) (f : A → analysis B) mem b mem' :
  (m ≫= f) mem = Val (Some (b, mem')) →
  ∃ a mem1, m mem = Val (Some (a, mem1)) ∧ f a mem1 = Val (Some (b, mem')).
Proof. rw /mbind /analysis_bind. destruct (m mem) as [[[a mem1]|]| | |]; naive_solver. Qed.

Ltac inv_analysis H :=
  let a := fresh "t" in let mem := fresh "mem" in let Ha := fresh "Ha" in
  apply analysis_bind_Some in H as (a & mem & Ha & H).

(** *** Combining paths

    Two locks of a kind: [p] and [q] use what [x] and [y] announce. *)
Lemma mix_pair (pg ph qg qh xg xh yg yh : bool) :
  (pg = true → xg = true) → (ph = true → xh = true) →
  (qg = true → yg = true) → (qh = true → yh = true) →
  pg && ph = false → qg && qh = false → (xg && yh) || (xh && yg) = false →
  (pg || qg) && (ph || qh) = false.
Proof. destruct pg, ph, qg, qh; cbn; intros; try done; destruct xg, xh, yg, yh; naive_solver. Qed.

Section paths.
Context (x y : policy_node_ext_info) (p q : path) (Hx : path_ok x p) (Hy : path_ok y q).

Lemma union_not_mixed :
  ei_k x = true → ei_k y = true → timelock_mix x y = false → mixed (path_union p q) = false.
Proof.
  intros Hkx Hky Hm. destruct Hx as [_ Hg Hh Hi Hj Hk], Hy as [_ Hg' Hh' Hi' Hj' Hk'].
  specialize (Hk Hkx). specialize (Hk' Hky). rewrite /mixed !orb_false_iff in Hk Hk'.
  rewrite /timelock_mix !orb_false_iff in Hm. destruct Hm as [[[H1 H2] H3] H4], Hk, Hk'.
  rw /mixed /path_union /= orb_false_iff. split.
  - apply (mix_pair _ _ _ _ (ei_g x) (ei_h x) (ei_g y) (ei_h y)); try done. by rw H1 H2.
  - apply (mix_pair _ _ _ _ (ei_i x) (ei_j x) (ei_i y) (ei_j y)); try done. by rw H3 H4.
Qed.

(** An expression that announces the locks of both, is s when one of them is,
    and checks for mixes. *)
Lemma path_ok_union info :
  (ei_s info = true → ei_s x || ei_s y = true) →
  (∀ b, ei_g x || ei_g y = b → b = true → ei_g info = true) →
  (∀ b, ei_h x || ei_h y = b → b = true → ei_h info = true) →
  (∀ b, ei_i x || ei_i y = b → b = true → ei_i info = true) →
  (∀ b, ei_j x || ei_j y = b → b = true → ei_j info = true) →
  (ei_k info = true → ei_k x = true ∧ ei_k y = true ∧ timelock_mix x y = false) →
  path_ok info (path_union p q).
Proof.
  intros Hs Hg Hh Hi Hj Hk. pose proof Hx as [? ? ? ? ? _]. pose proof Hy as [? ? ? ? ? _].
  constructor; cbn; rewrite ?orb_true_iff.
  - intros [?|?]%Hs%orb_true_iff; auto.
  - intros H. apply (Hg _ eq_refl). apply orb_true_iff. naive_solver.
  - intros H. apply (Hh _ eq_refl). apply orb_true_iff. naive_solver.
  - intros H. apply (Hi _ eq_refl). apply orb_true_iff. naive_solver.
  - intros H. apply (Hj _ eq_refl). apply orb_true_iff. naive_solver.
  - intros (? & ? & ?)%Hk. by apply union_not_mixed.
Qed.
End paths.

(** An expression whose paths include those of a part of it. *)
Lemma path_ok_weaken x info p :
  path_ok x p →
  (ei_s info = true → ei_s x = true) →
  (ei_g x = true → ei_g info = true) → (ei_h x = true → ei_h info = true) →
  (ei_i x = true → ei_i info = true) → (ei_j x = true → ei_j info = true) →
  (ei_k info = true → ei_k x = true) → path_ok info p.
Proof. intros [? ? ? ? ? ?] ??????. constructor; auto. Qed.

(** Turns the equations between flags into propositions. *)
Ltac flags :=
  repeat first
    [ rewrite andb_true_iff | rewrite orb_true_iff | rewrite negb_true_iff | rewrite orb_false_iff
    | rewrite negb_false_iff ]; naive_solver.

Lemma path_union_assoc p q r : path_union p (path_union q r) = path_union (path_union p q) r.
Proof. by rw /path_union /= !orb_assoc. Qed.

Lemma path_union_no_path p : path_union p no_path = p.
Proof. destruct p. by rw /path_union /= !orb_false_r. Qed.

Lemma no_path_union p : path_union no_path p = p.
Proof. by destruct p. Qed.

Lemma chosen_0 n l p : chosen n l p → n = 0%nat → p = no_path.
Proof. induction 1; naive_solver. Qed.

Lemma land_type_flag n : negb (Z.land n SEQUENCE_LOCKTIME_TYPE_FLAG =? 0) = Z.testbit n 22.
Proof.
  rw /SEQUENCE_LOCKTIME_TYPE_FLAG. destruct (Z.testbit n 22) eqn:H.
  - apply negb_true_iff, Z.eqb_neq. intros Hz.
    assert (Z.testbit (Z.land n (Z.shiftl 1 22)) 22 = false) as Hf by by rw Hz.
    by rewrite Z.land_spec H in Hf.
  - apply negb_false_iff, Z.eqb_eq. apply Z.bits_inj'. intros i Hi.
    rw Z.land_spec Z.bits_0 Z.shiftl_1_l Z.pow2_bits_eqb //.
    destruct (Z.eqb_spec 22 i) as [<-|]; [by rw H|by rw andb_false_r].
Qed.

(** The flags that the loop of thresh has collected, as an analysis. *)
Definition acc_info (a : thresh_acc) : policy_node_ext_info :=
  mk_ext_info (ops_of 0 0 0) (ss_of 0 0) 0 false false false false
    (acc_g a) (acc_h a) (acc_i a) (acc_j a) (acc_k a) false.

(** A child that is not chosen only adds locks. *)
Lemma acc_skip k a t p : path_ok (acc_info a) p → path_ok (acc_info (thresh_acc_step k a t)) p.
Proof.
  intros H. eapply path_ok_weaken; [exact H|done|..]; cbn; try (intros ->; done).
  intros [[? _]%andb_true_iff _]%andb_true_iff. done.
Qed.

(** A chosen child, when other children may be chosen too, or as the only one. *)
Lemma acc_take k a t p q :
  path_ok (acc_info a) p → path_ok t q → 2 ≤ k ∨ p = no_path →
  path_ok (acc_info (thresh_acc_step k a t)) (path_union p q).
Proof.
  intros Hp Hq Hk. destruct (decide (2 ≤ k)) as [Hk2|Hk2].
  - apply (path_ok_union _ _ _ _ Hp Hq); cbn; try done; try (by intros ? <-).
    rw (proj2 (Z.leb_le 2 k) Hk2) /=. intros [[Ha Ht]%andb_true_iff Hm]%andb_true_iff.
    rewrite negb_true_iff in Hm. split; [done|]. split; [done|]. rw /timelock_mix /=.
    destruct (acc_g a), (acc_h a), (acc_i a), (acc_j a), (ei_g t), (ei_h t), (ei_i t), (ei_j t); done.
  - destruct Hk as [? | ->]; [done|]. rw no_path_union.
    eapply path_ok_weaken; [exact Hq|done|..]; cbn; try (intros ->; by rw orb_true_r).
    intros [[_ ?]%andb_true_iff _]%andb_true_iff. done.
Qed.

(** *** The cases of the analysis *)
Lemma and_path_ok t f x y info p q :
  ext_of_binary t = Some f → is_and t = true → f x y = info → path_ok x p → path_ok y q →
  path_ok info (path_union p q).
Proof.
  intros Hf Ht <- Hp Hq. destruct t; try done; injection Hf as <-;
    (apply (path_ok_union _ _ _ _ Hp Hq); cbn; [done|by intros ? <-..|flags]).
Qed.

Lemma or_path_ok t f x z info p :
  ext_of_binary t = Some f → is_or t = true → f x z = info → path_ok x p ∨ path_ok z p → path_ok info p.
Proof.
  intros Hf Ht <- Hp. destruct t; try done; injection Hf as <-;
    (destruct Hp as [Hp|Hp]; (eapply path_ok_weaken; [exact Hp|..]); cbn; flags).
Qed.

Lemma wrapper_path_ok t f x info p :
  ext_of_wrapper t = Some f → is_wrapper t = true → f x = info → path_ok x p → path_ok info p.
Proof.
  intros Hf Ht <- Hp. destruct t; try done; injection Hf as <-; by (eapply path_ok_weaken; [exact Hp|..]).
Qed.

Lemma check_path_ok x p : path_ok x p → path_ok (ext_c x) (path_union signed p).
Proof. intros [? ? ? ? ? ?]. by constructor. Qed.

Lemma andor_path_ok x y z p q :
  path_ok x p → path_ok y q → path_ok (ext_andor x y z) (path_union p q).
Proof.
  intros Hp Hq. apply (path_ok_union _ _ _ _ Hp Hq); cbn; try flags; intros ? <-; flags.
Qed.

Lemma andor_path_ok_z x y z p : path_ok z p → path_ok (ext_andor x y z) p.
Proof. intros Hp. eapply path_ok_weaken; [exact Hp|..]; cbn; flags. Qed.

(** *** The whole analysis *)
Section all_paths.
Context (shared : bool).
Local Notation ext := (compute_miniscript_policy_ext_info shared).

(** The analysis agrees with the paths of an expression, and the loop of
    thresh with the choices of children. *)
Definition analysed (n : policy_node) (p : path) : Prop :=
  ∀ info mem mem', ext n mem = Val (Some (info, mem')) → path_ok info p.

Definition scanned (n : nat) (l : list policy_node) (q : path) : Prop :=
  ∀ k a a' p mem mem', thresh_scan ext k l a mem = Val (Some (a', mem')) →
  path_ok (acc_info a) p → (n = 0%nat ∨ 2 ≤ k ∨ p = no_path ∧ n = 1%nat) →
  path_ok (acc_info a') (path_union p q) ∧
  (p_sig q = false → count_s a' + Z.of_nat n ≤ count_s a + zlen l).

Lemma scanned_skip n x l q : scanned n l q → scanned n (x :: l) q.
Proof.
  intros IH k a a' p mem mem' H Hp Hn. cbn [thresh_scan] in H. inv_analysis H.
  destruct (IH _ _ _ p _ _ H (acc_skip _ _ _ _ Hp) Hn) as [? Hs]. split; [done|].
  intros Hq. specialize (Hs Hq). rw zlen_cons. cbn in Hs. destruct (ei_s t); cbn in Hs; lia.
Qed.

Lemma scanned_take n x l p q : analysed x p → scanned n l q → scanned (S n) (x :: l) (path_union p q).
Proof.
  intros Hx IH k a a' p0 mem mem' H Hp Hn. cbn [thresh_scan] in H. inv_analysis H.
  pose proof (Hx _ _ _ Ha) as Ht. rw path_union_assoc.
  destruct (IH _ _ _ (path_union p0 p) _ _ H) as [? Hs].
  - apply acc_take; [done..|]. naive_solver.
  - naive_solver.
  - split; [done|]. rw /path_union /=. intros [Hsp Hsq]%orb_false_iff. specialize (Hs Hsq).
    destruct Ht as [Hsig _ _ _ _ _]. cbn in Hs. rw zlen_cons.
    destruct (ei_s t); [by rewrite Hsig in Hsp|]. cbn in Hs. lia.
Qed.

Lemma thresh_path_ok f k l p :
  0 < k → scanned (Z.to_nat k) l p → analysed (policy_node_thresh TOKEN_THRESH f k l) p.
Proof.
  intros Hk Hscan info mem mem' H. cbn in H. destruct f; [|done]. rewrite /ext_thresh in H.
  inv_analysis H. destruct (Hscan _ _ _ no_path _ _ Ha) as [Hok Hs].
  { by constructor. }
  { destruct (decide (k = 1)) as [->|]; [by right; right|]. right. left. lia. }
  rewrite no_path_union in Hok. inv_analysis H. inv_analysis H. injection H as <- <-.
  destruct Hok as [_ ? ? ? ? ?]. constructor; try done. cbn. intros Hle%Z.leb_le.
  destruct (p_sig p) eqn:Hp; [done|]. specialize (Hs eq_refl). cbn in Hs. lia.
Qed.

(** Turns a successful analysis of a node into those of its children. *)
Ltac node_analysis H :=
  cbn in H; match type of H with context [match ?f with Some _ => _ | None => _ end] => destruct f; [|done] end.

Lemma analysis_of_Some {A} (o : option A) mem a mem' :
  analysis_of o mem = Val (Some (a, mem')) → o = Some a.
Proof. destruct o; cbn; [by intros [= -> ->]|done]. Qed.

Lemma all_paths_ok n p : sat_path n p → analysed n p.
Proof.
  revert n p. apply (sat_path_mut (λ n p _, analysed n p) (λ n l q _, scanned n l q)).
  - intros f info mem mem' H. node_analysis H. injection H as <- <-. by constructor.
  - intros t f kp Ht info mem mem' H. node_analysis H. apply analysis_of_Some in H.
    destruct t; try done; injection H as <-; by constructor.
  - intros f k kps info mem mem' H. node_analysis H. injection H as <- <-. by constructor.
  - intros f n info mem mem' H. node_analysis H. injection H as <- <-.
    rw /ext_older land_type_flag. by destruct (Z.testbit n 22).
  - intros f n info mem mem' H. node_analysis H. injection H as <- <-.
    rw /ext_after /LOCKTIME_THRESHOLD Z.ltb_antisym. by destruct (500000000 <=? n).
  - intros t f h info mem mem' H. node_analysis H. apply analysis_of_Some in H.
    destruct t; try done; injection H as <-; by constructor.
  - intros t f h info mem mem' H. node_analysis H. apply analysis_of_Some in H.
    destruct t; try done; injection H as <-; by constructor.
  - intros t f x y p q Ht _ IHx _ IHy info mem mem' H. node_analysis H.
    destruct (ext_of_binary t) eqn:E; [|done]. inv_analysis H. inv_analysis H. injection H as <- <-.
    eapply and_path_ok; [done..|by eapply IHx|by eapply IHy].
  - intros t f x z p Ht _ IHx info mem mem' H. node_analysis H.
    destruct (ext_of_binary t) eqn:E; [|done]. inv_analysis H. inv_analysis H. injection H as <- <-.
    eapply or_path_ok; [done..|left; by eapply IHx].
  - intros t f x z p Ht _ IHz info mem mem' H. node_analysis H.
    destruct (ext_of_binary t) eqn:E; [|done]. inv_analysis H. inv_analysis H. injection H as <- <-.
    eapply or_path_ok; [done..|right; by eapply IHz].
  - intros f x y z p q _ IHx _ IHy info mem mem' H. node_analysis H.
    inv_analysis H. inv_analysis H. inv_analysis H. injection H as <- <-.
    apply andor_path_ok; [by eapply IHx|by eapply IHy].
  - intros f x y z p _ IHz info mem mem' H. node_analysis H.
    inv_analysis H. inv_analysis H. inv_analysis H. injection H as <- <-.
    apply andor_path_ok_z. by eapply IHz.
  - intros f k l p Hk _ Hscan. by apply thresh_path_ok.
  - intros f x p _ IHx info mem mem' H. node_analysis H. inv_analysis H. injection H as <- <-.
    apply check_path_ok. by eapply IHx.
  - intros t f x p Ht _ IHx info mem mem' H. node_analysis H.
    destruct (ext_of_wrapper t) eqn:E; [|done]. inv_analysis H. injection H as <- <-.
    eapply wrapper_path_ok; [done..|by eapply IHx].
  - intros k a a' p mem mem' H Hp _. injection H as <- <-. by rw path_union_no_path.
  - intros n x l p _ IH. by apply scanned_skip.
  - intros n x l p q _ IHx _ IHl. by apply scanned_take.
Qed.
End all_paths.

(** C19: the flags s and k of the analysis hold on every way to satisfy an
    expression.  When the analysis reports s, every way to satisfy the
    expression includes a signature; when it reports k, no way to satisfy it
    needs both a time and a height lock of the same kind (relative or
    absolute).  The ways to satisfy thresh(k,...) are the choices of k of its
    children. *)
Theorem miniscript_paths_correct shared n info mem mem' :
  compute_miniscript_policy_ext_info shared n mem = Val (Some (info, mem')) →
  (ei_s info = true → ∀ p, sat_path n p → p_sig p = true) ∧
  (ei_k info = true → ∀ p, sat_path n p → mixed p = false).
Proof.
  intros H. split; intros Hf p Hp; pose proof (all_paths_ok shared n p Hp info mem mem' H) as [? ? ? ? ? ?]; auto.
Qed.

(** A key or a key with two timelocks: s and k are reported, and there is a path. *)
Definition sample_or : policy_node :=
  inner_of "wsh(andor(pk(@0/**),older(144),pk(@1/**)))".

Lemma miniscript_paths_correct_witness :
  ∃ info, compute_miniscript_policy_ext_info false sample_or [] = Val (Some (info, [])) ∧
    ei_s info = true ∧ ei_k info = true ∧ (∀ p, sat_path sample_or p → p_sig p = true ∧ mixed p = false).
Proof.
  destruct (compute_miniscript_policy_ext_info false sample_or []) as [[[info mem]|]| | |] eqn:E;
    vm_compute in E; try discriminate E.
  assert (mem = [] ∧ ei_s info = true ∧ ei_k info = true) as (-> & Hs & Hk) by (by injection E as <- <-).
  exists info. split; [reflexivity|]. split; [exact Hs|]. split; [exact Hk|].
  intros p Hp. destruct (miniscript_paths_correct false sample_or info [] []) as [H1 H2]; [exact E|].
  split; [exact (H1 Hs p Hp)|exact (H2 Hk p Hp)].
Defined.

(** ** Abbreviations *)

(** Changes of single results of an analysis. *)
Definition set_ops_dsat (d : Z) (i : policy_node_ext_info) : policy_node_ext_info :=
  mk_ext_info (mk_ops (count (ops i)) (ops_sat (ops i)) d) (ss i) (script_size i) (ei_s i) (ei_f i) (ei_e i)
    (ei_m i) (ei_g i) (ei_h i) (ei_i i) (ei_j i) (ei_k i) (ei_x i).
Definition set_ops_sat_m (s : Z) (m : bool) (i : policy_node_ext_info) : policy_node_ext_info :=
  mk_ext_info (mk_ops (count (ops i)) s (ops_dsat (ops i))) (ss i) (script_size i) (ei_s i) (ei_f i) (ei_e i)
    m (ei_g i) (ei_h i) (ei_i i) (ei_j i) (ei_k i) (ei_x i).

Lemma sumcheck_0_r a : cost_ok a → sumcheck a 0 = a.
Proof.
  intros Ha. rw sumcheck_spec //. revert Ha. rw /cost_ok.
  intros. destruct (Z.ltb_spec a 0); cbn; lia.
Qed.

Lemma sumcheck_invalid_l a : sumcheck (-1) a = -1.
Proof. done. Qed.

Lemma sumcheck_invalid_r a : sumcheck a (-1) = -1.
Proof. rw /sumcheck. by destruct (a <? 0). Qed.

Lemma maxcheck_invalid_r a : cost_ok a → maxcheck a (-1) = a.
Proof. rw /cost_ok /maxcheck. intros. destruct (Z.ltb_spec a 0); [lia|]. destruct (Z.ltb_spec (-1) a); lia. Qed.

Lemma maxcheck_invalid_l a : maxcheck (-1) a = a.
Proof. done. Qed.

Lemma i16_cost a : cost_ok a → i16 a = a.
Proof. intros Ha. rw i16_small //. revert Ha. rw /cost_ok /INT16_MAX. lia. Qed.

Lemma one_cost : cost_ok 1.
Proof. rw /cost_ok /INT16_MAX. lia. Qed.

#[local] Hint Resolve one_cost : cost.

Lemma maxcheck_comm a b : cost_ok a → cost_ok b → maxcheck a b = maxcheck b a.
Proof.
  rw /cost_ok /maxcheck. intros.
  destruct (Z.ltb_spec a 0), (Z.ltb_spec b 0), (Z.ltb_spec a b), (Z.ltb_spec b a); lia.
Qed.

Lemma sumcheck_0_1 : sumcheck 0 1 = 1.
Proof. done. Qed.
Lemma u16_0 : u16 0 = 0.
Proof. done. Qed.
Lemma i16_0 : i16 0 = 0.
Proof. done. Qed.
Lemma i16_invalid : i16 (-1) = -1.
Proof. done. Qed.

(** Equality of two analyses: the flags are boolean identities, the costs are
    normalised. *)
Ltac cost_eq :=
  cbn -[sumcheck maxcheck i16 u16 Z.add];
  rewrite ?u16_0 ?i16_0 ?i16_invalid ?sumcheck_0_1 ?sumcheck_invalid_l ?sumcheck_invalid_r ?maxcheck_invalid_l;
  rewrite ?sumcheck_0_r ?maxcheck_invalid_r; [|by auto 6 with cost..];
  rewrite ?i16_cost; [|by auto 6 with cost..]; first [lia | f_equal; lia | apply maxcheck_comm; auto 6 with cost].
Ltac info_eq :=
  f_equal; cbn [ei_s ei_f ei_e ei_m ei_g ei_h ei_i ei_j ei_k ei_x ext_0 ext_1 ops ss script_size];
  first [Btauto.btauto | rw /ops_of /ss_of; f_equal; cost_eq].

(** The abbreviations are analysed as what they stand for, when the costs
    of the parts are in range: pk(K) as c:pk_k(K), pkh(K) as c:pk_h(K), t:X as
    and_v(X,1).  l:X and u:X agree with or_i(0,X) and or_i(X,0) except for the
    operations of a dissatisfaction, which do not take the branch 0 into
    account; and_n(X,Y) agrees with andor(X,Y,0) except for the operations of
    a satisfaction, which are at least those of a dissatisfaction of Y, and
    for m, which additionally asks X or Y to need a signature. *)
Lemma abbreviations_correct x y :
  info_ok x → info_ok y →
  ext_pk = ext_c ext_pk_k ∧ ext_pkh = ext_c ext_pk_h ∧ ext_t x = ext_and_v x ext_1 ∧
  ext_l x = set_ops_dsat (ops_dsat (ops x)) (ext_or_i ext_0 x) ∧
  ext_l x = set_ops_dsat (ops_dsat (ops x)) (ext_or_i x ext_0) ∧
  ext_and_n x y =
    set_ops_sat_m (maxcheck (sumcheck (ops_sat (ops y)) (ops_sat (ops x))) (ops_dsat (ops y)))
      (ei_m x && ei_m y && ei_e x && (ei_s x || ei_s y)) (ext_andor x y ext_0).
Proof.
  intros (? & ? & ? & ?) (? & ? & ? & ?). split; [done|]. split; [done|]. split; [|split; [|split]].
  - rw /ext_t /wrapped /ext_and_v /timelock_mix. info_eq.
  - rw /ext_l /wrapped /set_ops_dsat /ext_or_i. info_eq.
  - rw /ext_l /wrapped /set_ops_dsat /ext_or_i. info_eq.
  - rw /ext_and_n /set_ops_sat_m /ext_andor /timelock_mix. info_eq.
Qed.

(** ** Where the analysis deviates from miniscript *)

(** The analysis of the script inside of a wsh. *)
Definition analyse (shared : bool) (s : String.string) : option policy_node_ext_info :=
  match compute_miniscript_policy_ext_info shared (inner_of s) (replicate 260 0) with
  | Val (Some (info, _)) => Some info
  | _ => None
  end.
Arguments analyse shared s%_string_scope.

(** Three deviations, on templates that the parser accepts.  The operations
    of andor(X,Y,Z) do not include those of the dissatisfaction of X: with two
    multisigs of 8 keys as X and Z a satisfaction takes 16 counted keys, 8 are
    reported.  A thresh is reported as non-malleable although its second child
    is a: around an expression that is reported as malleable, and a: keeps
    this.  On the devices where the tables of thresh are
    shared, the analysis of a thresh with another thresh among its children
    finds the overwritten tables: it reports 2 operations where the analysis
    with local tables reports 0. *)
Lemma analysis_deviations :
  (∃ x z info,
     analyse false "wsh(multi(1,@0/**,@1/**,@2/**,@3/**,@4/**,@5/**,@6/**,@7/**))" = Some x ∧
     analyse false "wsh(multi(1,@9/**,@10/**,@11/**,@12/**,@13/**,@14/**,@15/**,@16/**))" = Some z ∧
     analyse false "wsh(andor(multi(1,@0/**,@1/**,@2/**,@3/**,@4/**,@5/**,@6/**,@7/**),pk(@8/**),multi(1,@9/**,@10/**,@11/**,@12/**,@13/**,@14/**,@15/**,@16/**)))" = Some info ∧
     ops_dsat (ops x) + ops_sat (ops z) = 16 ∧ ops_sat (ops info) = 8) ∧
  (∃ child info,
     analyse false "wsh(or_b(dv:1,adv:1))" = Some child ∧ ei_m child = false ∧
     analyse false "wsh(thresh(2,pk(@0/**),a:or_b(dv:1,adv:1)))" = Some info ∧ ei_m info = true) ∧
  (∃ info info',
     analyse true "wsh(thresh(2,pk(@0/**),s:pk(@1/**),a:thresh(2,pk(@2/**),s:pk(@3/**))))" = Some info ∧
     analyse false "wsh(thresh(2,pk(@0/**),s:pk(@1/**),a:thresh(2,pk(@2/**),s:pk(@3/**))))" = Some info' ∧
     ops_sat (ops info) = 2 ∧ ops_sat (ops info') = 0).
Proof.
  split_and!.
  - do 3 eexists. repeat (split; [vm_compute; reflexivity|]). vm_compute. reflexivity.
  - do 2 eexists. repeat (split; [vm_compute; reflexivity|]). vm_compute. reflexivity.
  - do 2 eexists. repeat (split; [vm_compute; reflexivity|]). vm_compute. reflexivity.
Qed.
