(* ===== verification/PolicyCompile.v ===== *)
(** * Wallet policies: the scripts are those of miniscript

    Theorems on PolicyScript.v.  [translate] is the translation of miniscript
    to script, as the table of BIP-379 gives it: a recursive function on the
    expression, in which v:X replaces the last opcode of X by its VERIFY form
    or adds OP_VERIFY.  The stack machine of policy.c, which keeps a flag
    instead, emits the same opcodes for every fragment; PolicyMachine.v lifts
    this to its runs, and PolicySize.v computes the length of the script. *)

From Stdlib Require Ascii String Btauto.
Import String.StringSyntax Ascii.AsciiSyntax.
From S2P Require Import Prelude Bytes Bip32 Buffer Merkle Dispatcher MerkleClient Script Base58 Crypto PolicySyntax PolicyParser PolicyScript PolicyLogic PolicyTypes PolicyExtInfo PolicyThresh.

(** ** Scripts with symbolic keys

    The keys of an expression are derived while its script is emitted: an item
    of a script is an opcode, a push of data or of a number, or a push of a key
    or of the hash of a key. *)
Inductive item : Set :=
| I_op (op : Z)
| I_push (n : Z) (data : list Z)
| I_num (n : Z)
| I_key (kp : policy_node_key_placeholder)
| I_keyhash (kp : policy_node_key_placeholder).

(** The VERIFY form of a script. *)
Definition has_verify (op : Z) : bool :=
  (op =? OP_CHECKSIG) || (op =? OP_CHECKMULTISIG) || (op =? OP_NUMEQUAL) || (op =? OP_EQUAL).

Fixpoint verify (l : list item) : list item :=
  match l with
  | [] => [I_op OP_VERIFY]
  | [I_op op] => if has_verify op then [I_op (op + 1)] else [I_op op; I_op OP_VERIFY]
  | i :: l' => i :: verify l'
  end.

Arguments verify : simpl never.

(** <k> and <n> of multi. *)
Definition small_num (n : Z) : item := I_op (u8 (0x50 + n)).

Definition hash_check (op n : Z) (h : list Z) : list item :=
  [I_op OP_SIZE; I_op 1; I_op 32; I_op OP_EQUALVERIFY; I_op op; I_push n h; I_op OP_EQUAL].

(** [X1] [X2] ADD ... [Xn] ADD. *)
Definition add_all (l : list (list item)) : list item :=
  match l with
  | [] => []
  | x :: l' => x ++ mjoin ((λ y, y ++ [I_op OP_ADD]) <$> l')
  end.

(** All the results, or none. *)
Fixpoint sequence {A} (l : list (option A)) : option (list A) :=
  match l with
  | [] => Some []
  | x :: l' => a ← x; r ← sequence l'; Some (a :: r)
  end.

(** The translation of miniscript; [None] for what is not miniscript for wsh. *)
Fixpoint translate (n : policy_node) : option (list item) :=
  match n with
  | policy_node_constant TOKEN_0 _ => Some [I_op OP_0]
  | policy_node_constant TOKEN_1 _ => Some [I_op OP_1]
  | policy_node_with_key TOKEN_PK_K _ kp => Some [I_key kp]
  | policy_node_with_key TOKEN_PK_H _ kp =>
      Some [I_op OP_DUP; I_op OP_HASH160; I_keyhash kp; I_op OP_EQUALVERIFY]
  | policy_node_with_key TOKEN_PK _ kp => Some [I_key kp; I_op OP_CHECKSIG]
  | policy_node_with_key TOKEN_PKH _ kp =>
      Some [I_op OP_DUP; I_op OP_HASH160; I_keyhash kp; I_op OP_EQUALVERIFY; I_op OP_CHECKSIG]
  | policy_node_with_uint32 TOKEN_OLDER _ n => Some [I_num n; I_op OP_CSV]
  | policy_node_with_uint32 TOKEN_AFTER _ n => Some [I_num n; I_op OP_CLTV]
  | policy_node_with_hash_256 TOKEN_SHA256 _ h => Some (hash_check OP_SHA256 32 h)
  | policy_node_with_hash_256 TOKEN_HASH256 _ h => Some (hash_check OP_HASH256 32 h)
  | policy_node_with_hash_160 TOKEN_RIPEMD160 _ h => Some (hash_check OP_RIPEMD160 20 h)
  | policy_node_with_hash_160 TOKEN_HASH160 _ h => Some (hash_check OP_HASH160 20 h)
  | policy_node_multisig TOKEN_MULTI _ k kps =>
      Some ([small_num k] ++ (I_key <$> kps) ++ [small_num (zlen kps); I_op OP_CHECKMULTISIG])
  | policy_node_with_script3 TOKEN_ANDOR _ x y z =>
      X ← translate x; Y ← translate y; Z ← translate z;
      Some (X ++ [I_op OP_NOTIF] ++ Z ++ [I_op OP_ELSE] ++ Y ++ [I_op OP_ENDIF])
  | policy_node_with_script2 t _ x y =>
      X ← translate x; Y ← translate y;
      match t with
      | TOKEN_AND_V => Some (X ++ Y)
      | TOKEN_AND_B => Some (X ++ Y ++ [I_op OP_BOOLAND])
      | TOKEN_AND_N => Some (X ++ [I_op OP_NOTIF; I_op OP_0; I_op OP_ELSE] ++ Y ++ [I_op OP_ENDIF])
      | TOKEN_OR_B => Some (X ++ Y ++ [I_op OP_BOOLOR])
      | TOKEN_OR_C => Some (X ++ [I_op OP_NOTIF] ++ Y ++ [I_op OP_ENDIF])
      | TOKEN_OR_D => Some (X ++ [I_op OP_IFDUP; I_op OP_NOTIF] ++ Y ++ [I_op OP_ENDIF])
      | TOKEN_OR_I => Some ([I_op OP_IF] ++ X ++ [I_op OP_ELSE] ++ Y ++ [I_op OP_ENDIF])
      | _ => None
      end
  | policy_node_with_script t _ x =>
      X ← translate x;
      match t with
      | TOKEN_A => Some ([I_op OP_TOALTSTACK] ++ X ++ [I_op OP_FROMALTSTACK])
      | TOKEN_S => Some ([I_op OP_SWAP] ++ X)
      | TOKEN_C => Some (X ++ [I_op OP_CHECKSIG])
      | TOKEN_T => Some (X ++ [I_op OP_1])
      | TOKEN_D => Some ([I_op OP_DUP; I_op OP_IF] ++ X ++ [I_op OP_ENDIF])
      | TOKEN_V => Some (verify X)
      | TOKEN_J => Some ([I_op OP_SIZE; I_op OP_0NOTEQUAL; I_op OP_IF] ++ X ++ [I_op OP_ENDIF])
      | TOKEN_N => Some (X ++ [I_op OP_0NOTEQUAL])
      | TOKEN_L => Some ([I_op OP_IF; I_op OP_0; I_op OP_ELSE] ++ X ++ [I_op OP_ENDIF])
      | TOKEN_U => Some ([I_op OP_IF] ++ X ++ [I_op OP_ELSE; I_op OP_0; I_op OP_ENDIF])
      | _ => None
      end
  | policy_node_thresh TOKEN_THRESH _ k l =>
      ls ← sequence (translate <$> l); Some (add_all ls ++ [I_num k; I_op OP_EQUAL])
  | _ => None
  end.

(** ** What the machine emits

    [op_v v] is the output of [update_output_op_v], [cmd_items] that of a
    command, given the output [ch] of the children. *)
Definition op_v (v : bool) (op : Z) : list item :=
  if v then if has_verify op then [I_op (op + 1)] else [I_op op; I_op OP_VERIFY] else [I_op op].

Definition cmd_items (v : bool) (n : policy_node) (ch : nat → bool → option (list item))
    (c : generic_processor_command) : option (list item) :=
  match c with
  | CMD_CODE_OP data => Some [I_op data]
  | CMD_CODE_OP_V data => Some (op_v v data)
  | CMD_CODE_PUSH_PK => match n with policy_node_with_key _ _ kp => Some [I_key kp] | _ => None end
  | CMD_CODE_PUSH_PKH => match n with policy_node_with_key _ _ kp => Some [I_keyhash kp] | _ => None end
  | CMD_CODE_PUSH_UINT32 => match n with policy_node_with_uint32 _ _ k => Some [I_num k] | _ => None end
  | CMD_CODE_PUSH_HASH20 => match n with policy_node_with_hash_160 _ _ h => Some [I_push 20 h] | _ => None end
  | CMD_CODE_PUSH_HASH32 => match n with policy_node_with_hash_256 _ _ h => Some [I_push 32 h] | _ => None end
  | CMD_CODE_PROCESS_CHILD i => ch i false
  | CMD_CODE_PROCESS_CHILD_V i => ch i v
  | CMD_CODE_PROCESS_CHILD_VV i => ch i true
  end.

Fixpoint generic_items (v : bool) (n : policy_node) (ch : nat → bool → option (list item))
    (cs : list generic_processor_command) : option (list item) :=
  match cs with
  | [] => Some []
  | c :: cs' => a ← cmd_items v n ch c; r ← generic_items v n ch cs'; Some (a ++ r)
  end.

Fixpoint emitted (n : policy_node) (v : bool) : option (list item) :=
  match n with
  | policy_node_with_script t _ x =>
      cs ← commands_of t;
      generic_items v n (λ i b, match i with O => emitted x b | _ => None end) cs
  | policy_node_with_script2 t _ x y =>
      cs ← commands_of t;
      generic_items v n (λ i b, match i with O => emitted x b | S O => emitted y b | _ => None end) cs
  | policy_node_with_script3 t _ x y z =>
      cs ← commands_of t;
      generic_items v n
        (λ i b, match i with O => emitted x b | S O => emitted y b | S (S O) => emitted z b | _ => None end) cs
  | policy_node_thresh TOKEN_THRESH _ k l =>
      ls ← sequence ((λ x, emitted x false) <$> l); Some (add_all ls ++ [I_num k] ++ op_v v OP_EQUAL)
  | policy_node_with_key TOKEN_PKH _ kp =>
      Some ([I_op OP_DUP; I_op OP_HASH160; I_keyhash kp; I_op OP_EQUALVERIFY] ++ op_v v OP_CHECKSIG)
  | policy_node_multisig TOKEN_MULTI _ k kps =>
      Some ([small_num k] ++ (I_key <$> kps) ++ [small_num (zlen kps)] ++ op_v v OP_CHECKMULTISIG)
  | policy_node_constant t _ | policy_node_with_key t _ _ | policy_node_with_uint32 t _ _
  | policy_node_with_hash_160 t _ _ | policy_node_with_hash_256 t _ _ =>
      cs ← commands_of t; generic_items v n (λ _ _, None) cs
  | _ => None
  end.

(** ** The flag and the VERIFY forms *)
Lemma verify_app l l' : l' ≠ [] → verify (l ++ l') = l ++ verify l'.
Proof.
  intros Hl'. induction l as [|i l IH]; [done|]. cbn [app]. rw -IH. clear IH.
  destruct (l ++ l') as [|j r] eqn:E; [by apply app_nil in E as [_ ->]|by destruct i].
Qed.

Lemma verify_cons_app i l j r : verify (i :: l ++ j :: r) = i :: l ++ verify (j :: r).
Proof. by apply (verify_app (i :: l)). Qed.

Lemma verify_app_cons l j r : verify (l ++ j :: r) = l ++ verify (j :: r).
Proof. by apply verify_app. Qed.

Lemma verify_app2 l l' j r : verify (l ++ l' ++ j :: r) = l ++ l' ++ verify (j :: r).
Proof. rw verify_app; [by rw verify_app_cons|]. by destruct l'. Qed.

Lemma verify_cons2 i j l : verify (i :: j :: l) = i :: verify (j :: l).
Proof. by destruct i. Qed.

Lemma verify_one op : verify [I_op op] = op_v true op.
Proof. done. Qed.

Lemma sequence_eq {A B} (f g : A → option B) l : (∀ x, x ∈ l → f x = g x) → sequence (f <$> l) = sequence (g <$> l).
Proof.
  induction l as [|x l IH]; intros H; [done|]. rw !fmap_cons /= (H x); [|by left].
  rw IH //. intros y Hy. apply H. by right.
Qed.

Lemma verify_nonempty l : verify l ≠ [].
Proof. destruct l as [|[] []]; rw /verify; try done. by destruct (has_verify op). Qed.

Lemma translate_nonempty n l : translate n = Some l → l ≠ [].
Proof.
  revert l. induction n as [n IH] using policy_node_children_ind. intros l.
  destruct n as [t f|t f x|t f x y|t f x y z|t f kp|t f k|t f k kps|t f k ns|t f h|t f h|t f kp tree]; cbn;
    destruct t; try done; try (by intros [= <-]);
    try (destruct (translate x) as [X|] eqn:EX; [|done]); cbn;
    try (destruct (translate y) as [Y|] eqn:EY; [|done]); cbn;
    try (destruct (translate z) as [Z|] eqn:EZ; [|done]); cbn; try done; intros Heq; simplify_eq; try (by destruct X); try (by rewrite !app_nil; intros (_ & _ & ?)).
  - apply verify_nonempty.
  - intros [-> _]%app_nil. eapply IH; [|exact EX|done]. constructor.
  - destruct (sequence _); [|done]. cbn in Heq. simplify_eq. by intros [_ ?]%app_nil.
Qed.

Lemma typed_list_elem l fs x : typed_list l fs → x ∈ l → ∃ F, typed x F.
Proof. induction 1; intros Hx; [by apply not_elem_of_nil in Hx|]. apply elem_of_cons in Hx as [->|]; eauto. Qed.

(** The output without the flag is the translation; with the flag, and for an
    expression of type B, it is the VERIFY form of the translation. *)
Definition emits_translation (n : policy_node) : Prop :=
  ∀ F, typed n F → emitted n false = translate n ∧ (ty F = MINISCRIPT_TYPE_B → emitted n true = verify <$> translate n).

Definition is_unary (t : token) : bool :=
  match t with
  | TOKEN_A | TOKEN_S | TOKEN_C | TOKEN_T | TOKEN_D | TOKEN_V | TOKEN_J | TOKEN_N | TOKEN_L | TOKEN_U => true
  | _ => false
  end.
Definition is_binary (t : token) : bool :=
  match t with
  | TOKEN_AND_V | TOKEN_AND_B | TOKEN_AND_N | TOKEN_OR_B | TOKEN_OR_C | TOKEN_OR_D | TOKEN_OR_I => true
  | _ => false
  end.

(** One arity after the other, from what the children emit. *)
Ltac emitted_cases :=
  repeat match goal with
  | H : emitted ?x ?b = _ |- _ => rewrite ?H; clear H
  end;
  repeat match goal with
  | |- context [translate ?x] => destruct (translate x); cbn
  end; rewrite ?app_nil_r -?app_assoc; try done.

Lemma emitted_script t f x :
  is_unary t = true → emitted x false = translate x → (t = TOKEN_V → emitted x true = verify <$> translate x) →
  emitted (policy_node_with_script t f x) false = translate (policy_node_with_script t f x).
Proof. intros Ht Hx Hv. destruct t; try done; try specialize (Hv eq_refl); cbn; emitted_cases. Qed.

Lemma emitted_script2 t f x y :
  is_binary t = true → emitted x false = translate x → emitted y false = translate y →
  emitted (policy_node_with_script2 t f x y) false = translate (policy_node_with_script2 t f x y).
Proof. intros Ht Hx Hy. destruct t; try done; cbn; emitted_cases. Qed.

Lemma emitted_andor f x y z :
  emitted x false = translate x → emitted y false = translate y → emitted z false = translate z →
  emitted (policy_node_with_script3 TOKEN_ANDOR f x y z) false =
  translate (policy_node_with_script3 TOKEN_ANDOR f x y z).
Proof. intros Hx Hy Hz. cbn. emitted_cases. Qed.

Definition is_b_wrapper (t : token) : bool :=
  match t with TOKEN_C | TOKEN_D | TOKEN_J | TOKEN_N | TOKEN_T | TOKEN_L | TOKEN_U => true | _ => false end.

(** Moves [verify] to the last opcode. *)
Ltac verify_last :=
  repeat first [rewrite verify_cons2 | rewrite verify_cons_app | rewrite verify_app_cons]; rewrite ?verify_one.

Lemma emitted_script_v t f x :
  is_b_wrapper t = true → emitted x false = translate x →
  emitted (policy_node_with_script t f x) true = verify <$> translate (policy_node_with_script t f x).
Proof. intros Ht Hx. destruct t; try done; cbn; emitted_cases; verify_last; by rewrite -?app_assoc. Qed.

Lemma emitted_script2_v t f x y :
  is_binary t = true → emitted x false = translate x → emitted y false = translate y →
  (t = TOKEN_AND_V → emitted y true = verify <$> translate y) →
  emitted (policy_node_with_script2 t f x y) true = verify <$> translate (policy_node_with_script2 t f x y).
Proof.
  intros Ht Hx Hy Hv. pose proof (translate_nonempty y) as Hne. destruct t; try done; try specialize (Hv eq_refl); cbn; emitted_cases; verify_last;
    rewrite -?app_assoc; try done.
  - rw verify_app //. by apply Hne.
  - by rw verify_app2.
  - by rw verify_app2.
Qed.

Lemma emitted_andor_v f x y z :
  emitted x false = translate x → emitted y false = translate y → emitted z false = translate z →
  emitted (policy_node_with_script3 TOKEN_ANDOR f x y z) true =
  verify <$> translate (policy_node_with_script3 TOKEN_ANDOR f x y z).
Proof. intros Hx Hy Hz. cbn. emitted_cases. verify_last. by rewrite -?app_assoc. Qed.

Lemma emitted_thresh f k l :
  (∀ x, x ∈ l → emitted x false = translate x) →
  emitted (policy_node_thresh TOKEN_THRESH f k l) false = translate (policy_node_thresh TOKEN_THRESH f k l) ∧
  emitted (policy_node_thresh TOKEN_THRESH f k l) true =
    verify <$> translate (policy_node_thresh TOKEN_THRESH f k l).
Proof.
  intros Hl. cbn. rw (sequence_eq (λ x, emitted x false) translate) //.
  destruct (sequence _) as [ls|]; [|done]. cbn. split; [done|]. by rw verify_app_cons.
Qed.

(** Multisig. *)
Lemma emitted_multi t f k kps :
  let n := policy_node_multisig t f k kps in
  emitted n false = translate n ∧ emitted n true = verify <$> translate n.
Proof.
  cbn. destruct t; try done. cbn. split; [done|]. rw verify_cons_app. by verify_last.
Qed.

Ltac by_child IH :=
  eapply IH; [first [apply child_script | apply child_script2_1 | apply child_script2_2 | apply child_script3_1
        | apply child_script3_2 | apply child_script3_3]|eassumption..].

Lemma emitted_translate n : emits_translation n.
Proof.
  induction n as [n IH] using policy_node_children_ind. intros F HF.
  assert (∀ c C, child c n → typed c C → emitted c false = translate c) as IHf by (intros; by eapply IH).
  assert (∀ c C, child c n → typed c C → ty C = MINISCRIPT_TYPE_B → emitted c true = verify <$> translate c) as IHv
    by (intros; by eapply IH).
  clear IH. inversion HF; subst; cbn [ty];
    repeat match goal with
    | H : typed (policy_node_with_script3 TOKEN_ANDOR _ _ _ (policy_node_constant _ _)) _ |- _ => inversion H; clear H; subst
    | H : typed (policy_node_with_script2 TOKEN_AND_V _ _ (policy_node_constant _ _)) _ |- _ => inversion H; clear H; subst
    | H : typed (policy_node_with_script2 TOKEN_OR_I _ (policy_node_constant _ _) _) _ |- _ => inversion H; clear H; subst
    | H : typed (policy_node_with_script2 TOKEN_OR_I _ _ (policy_node_constant _ _)) _ |- _ => inversion H; clear H; subst
    end;
    lazymatch goal with
    | |- emitted (policy_node_multisig ?t _ _ _) _ = _ ∧ _ => destruct (emitted_multi t f k kps); auto
    | |- emitted (policy_node_thresh _ _ _ (?x :: ?l)) _ = _ ∧ _ => idtac
    | |- emitted (policy_node_with_script3 _ _ _ _ _) _ = _ ∧ _ =>
        split; [apply emitted_andor|intros _; apply emitted_andor_v]; by_child IHf
    | |- emitted (policy_node_with_script2 _ _ _ _) _ = _ ∧ _ =>
        split; [apply emitted_script2; [done|by_child IHf..]
               |intros Hty; first [done|apply emitted_script2_v; [done|by_child IHf..|intros; try done]]]
    | |- emitted (policy_node_with_script _ _ _) _ = _ ∧ _ =>
        split; [apply emitted_script; [done|by_child IHf|intros; try done]
               |intros Hty; first [done|apply emitted_script_v; [done|by_child IHf]]]
    | |- _ => done
    end.
  - by_child IHv.
  - assert (∀ c, c ∈ x :: l → ∃ C, typed c C) as Hc.
    { intros c [-> | Hc]%elem_of_cons; [by eexists|]. by eapply typed_list_elem. }
    destruct (emitted_thresh f k (x :: l)) as [He Hv]; [|auto].
    intros c Hin. destruct (Hc c Hin) as [C HC]. eapply IHf; [|done]. by apply child_thresh.
  - by_child IHv.
Qed.
