(* ===== verification/PolicyMachine.v ===== *)
(** * Wallet policies: the stack machine emits the translation

    Theorems on the machine of PolicyScript.v.  A run of the machine on a node
    is the derivation of the keys of its script, in their order, with the bytes
    of the script added to the hash context; the script is the one of
    PolicyCompile.v.  A failure to derive a key ends the run with -1. *)

From Stdlib Require Ascii String.
Import String.StringSyntax Ascii.AsciiSyntax.
From S2P Require Import Prelude Bytes Bip32 Buffer Merkle Dispatcher MerkleClient Script Base58 Crypto PolicySyntax PolicyParser PolicyScript PolicyLogic PolicyTypes PolicyExtInfo PolicyThresh PolicyCompile.

(** ** Exchanges that may fail *)
Definition attempt {A B} (m : io (option A)) (err : B) (k : A → io B) : io B :=
  r ← m; match r with Some a => k a | None => mret err end.

Lemma attempt_ext {A B} (m : io (option A)) (err : B) (k k' : A → io B) st :
  (∀ a st', k a st' = k' a st') → attempt m err k st = attempt m err k' st.
Proof.
  intros H. rw /attempt. unfold mbind, io_bind. destruct (m st) as [[[a|] st']| | |]; [apply H|done..].
Qed.

Lemma attempt_attempt {A B C} (m : io (option A)) (k : A → io (option B)) (err : C) (k' : B → io C) st :
  attempt (attempt m None k) err k' st = attempt m err (λ a, attempt (k a) err k') st.
Proof. rw /attempt. unfold mbind, io_bind. by destruct (m st) as [[[a|] st']| | |]. Qed.

Lemma attempt_ret {A B} (a : A) (err : B) (k : A → io B) st : attempt (mret (Some a)) err k st = k a st.
Proof. done. Qed.

(** ** The bytes of a script *)
Section realize.
Context (os : sdk) (J : junk) (wdi : wallet_derivation_info).

Definition realize_item (i : item) : io (option (list Z)) :=
  match i with
  | I_op op => mret (Some [u8 op])
  | I_push n data => mret (Some (u8 n :: data))
  | I_num n => mret (Some (push_script n))
  | I_key kp => attempt (get_derived_pubkey os J wdi kp) None (λ key, mret (Some (33 :: key)))
  | I_keyhash kp =>
      attempt (get_derived_pubkey os J wdi kp) None (λ key, mret (Some (20 :: crypto_hash160 os key)))
  end.

Fixpoint realize (l : list item) : io (option (list Z)) :=
  match l with
  | [] => mret (Some [])
  | i :: l' => attempt (realize_item i) None (λ a, attempt (realize l') None (λ b, mret (Some (a ++ b))))
  end.

Lemma realize_cons {B} i l (err : B) k st :
  attempt (realize (i :: l)) err k st =
  attempt (realize_item i) err (λ a, attempt (realize l) err (λ b, k (a ++ b))) st.
Proof.
  cbn [realize]. rw attempt_attempt. apply attempt_ext. intros a st'. by rw attempt_attempt.
Qed.

Lemma realize_app {B} l l' (err : B) k st :
  attempt (realize (l ++ l')) err k st =
  attempt (realize l) err (λ a, attempt (realize l') err (λ b, k (a ++ b))) st.
Proof.
  revert k st. induction l as [|i l IH]; intros k st; cbn [app]; [done|].
  rw !realize_cons. apply attempt_ext. intros a st'. rw IH. apply attempt_ext. intros b st''.
  apply attempt_ext. intros c st3. by rw app_assoc.
Qed.

Lemma realize_one {B} i (err : B) k st : attempt (realize [i]) err k st = attempt (realize_item i) err k st.
Proof. rw realize_cons. apply attempt_ext. intros a st'. by rw /= attempt_ret app_nil_r. Qed.
End realize.

(** ** The output of the machine *)
Definition emit_top (data : list Z) (n : policy_parser_node_state) : policy_parser_node_state :=
  mk_node_state (ns_node n) (u16 (ns_length n + zlen data)) (ns_step n) (ns_flags n).
Definition emit (data : list Z) (s : policy_parser_state) : policy_parser_state :=
  mk_parser_state match ps_nodes s with n :: ns => emit_top data n :: ns | [] => [] end
    ((λ o, o ++ data) <$> ps_out s).

Lemma u16_add a b : u16 (u16 a + b) = u16 (a + b).
Proof. rw /u16 Zplus_mod_idemp_l //. Qed.
Lemma u8_u8 a : u8 (u8 a) = u8 a.
Proof. rw /u8 Zmod_mod //. Qed.
Lemma u16_add_r a b : u16 (a + u16 b) = u16 (a + b).
Proof. rw /u16 Zplus_mod_idemp_r //. Qed.

Lemma emit_top_emit_top a b n : emit_top b (emit_top a n) = emit_top (a ++ b) n.
Proof. rw /emit_top /= zlen_app u16_add. do 2 f_equal. lia. Qed.

Lemma emit_emit a b s : emit b (emit a s) = emit (a ++ b) s.
Proof.
  destruct s as [[|n ns] out]; rw /emit /=; f_equal; try (by destruct out as [o|]; rw /= ?app_assoc).
  by rw emit_top_emit_top.
Qed.

Lemma update_output_emit data n ns out st :
  update_output data (mk_parser_state (n :: ns) out) st = Val (((), emit data (mk_parser_state (n :: ns) out)), st).
Proof. done. Qed.

(** The bytes that a number of 32 bits is pushed with. *)
Lemma num_bytes_val fuel n :
  0 ≤ n < 256 ^ Z.of_nat fuel → bytes_ok (num_bytes fuel n) ∧ le_val (num_bytes fuel n) = n.
Proof.
  revert n. induction fuel as [|fuel IH]; intros n; [rw Z.pow_0_r; cbn; split; [constructor|lia]|].
  rw Nat2Z.inj_succ Z.pow_succ_r; [|lia]. intros Hn. cbn [num_bytes].
  destruct (Z.eqb_spec n 0) as [->|]; [by split; [constructor|]|].
  destruct (IH (n / 256)) as [Hok Hv]; [split; [apply Z.div_pos; lia|apply Z.div_lt_upper_bound; lia]|].
  cbn [le_val]. rw Hv. split; [|pose proof (Z.div_mod n 256); lia].
  constructor; [by apply Z.mod_pos_bound|done].
Qed.

Lemma script_num_bytes n : 0 ≤ n < 2 ^ 32 → script_num n = le_bytes (length (script_num n)) n.
Proof.
  intros Hn. destruct (num_bytes_val 8 n) as [Hok Hv]; [cbn; lia|]. rw /script_num.
  assert (∀ l, bytes_ok l → le_val l = n → l = le_bytes (length l) n) as H by
    (intros l Hl <-; by rw le_bytes_le_val).
  case_match; apply H; try done; [apply bytes_ok_app; split; [done|by repeat constructor]|].
  rw le_val_app Hv. cbn. lia.
Qed.

Lemma take_le_bytes a b n : (a ≤ b)%nat → take a (le_bytes b n) = le_bytes a n.
Proof.
  revert b n. induction a as [|a IH]; intros b n Hab; [done|]. destruct b as [|b]; [lia|].
  cbn. by rw IH; [|lia].
Qed.

Lemma le_bytes_5 n : 0 ≤ n < 2 ^ 32 → le_bytes 5 n = le_bytes 4 n ++ [0].
Proof.
  intros Hn. cbn [le_bytes app]. do 4 f_equal. rw !Z.shiftr_shiftr; [|lia..].
  rw Z.shiftr_div_pow2; [|lia]. by rw Z.div_small; [|cbn in *; lia].
Qed.

Definition num_size (n : Z) : Z :=
  if n <=? 0x7f then 1 else if n <=? 0x7fff then 2 else if n <=? 0x7fffff then 3
  else if n <=? 0x7fffffff then 4 else 5.

Lemma num_size_range n : 1 ≤ num_size n ≤ 5.
Proof. rw /num_size. repeat case_match; lia. Qed.

Lemma script_num_size n : 16 < n < 2 ^ 32 → zlen (script_num n) = num_size n.
Proof.
  intros Hn. pose proof (push_script_zlen n) as Hz. revert Hz.
  rw /push_script /get_push_script_size /num_size (proj2 (Z.eqb_neq n 0)); [|lia].
  rw (proj2 (Z.leb_gt n 16)); [|lia]. rw zlen_cons. intros Hz. specialize (Hz ltac:(lia)). revert Hz.
  repeat case_match; lia.
Qed.

Definition emits (m : gen ()) (data : list Z) : Prop :=
  ∀ s st, ps_nodes s ≠ [] → m s st = Val (((), emit data s), st).

Lemma emits_bind m1 m2 d1 d2 : emits m1 d1 → emits m2 d2 → emits (m1;; m2) (d1 ++ d2).
Proof.
  intros H1 H2 s st Hs. unfold mbind, gen_bind, mbind, io_bind. rw H1 //. cbn [fst snd]. rw H2.
  - by rw emit_emit.
  - by destruct s as [[|]].
Qed.

Lemma emits_data data : emits (update_output data) data.
Proof. intros [[|n ns] out] st Hs; [done|]. by rw update_output_emit. Qed.

Lemma emits_u8 z : emits (update_output_u8 z) [u8 z].
Proof. apply emits_data. Qed.

Lemma emits_num_bytes n k :
  0 ≤ n < 2 ^ 32 → zlen (script_num n) = k → k < 5 →
  emits (update_output_u8 k;; update_output (take (Z.to_nat k) (le_bytes 4 n))) (k :: script_num n).
Proof.
  intros Hn Hk Hk5. pose proof (zlen_nonneg (script_num n)). rw (script_num_bytes n) //.
  rw take_le_bytes; [|lia]. rw -zlen_length Hk.
  assert (∀ l, k :: l = [u8 k] ++ l) as -> by (intros; by rw u8_small; [|lia]).
  apply emits_bind; [apply emits_u8|apply emits_data].
Qed.

Lemma emits_push_u32 n : 0 ≤ n < 2 ^ 32 → emits (update_output_push_u32 n) (push_script n).
Proof.
  intros Hn. rw /update_output_push_u32 /push_script.
  destruct (Z.eqb_spec n 0); [apply emits_u8|].
  destruct (Z.leb_spec n 16); [rw -{2}(u8_small (0x50 + n)); [|lia]; apply emits_u8|].
  change (if n <=? 0x7f then 1 else _) with (num_size n).
  assert (zlen (script_num n) = num_size n) as Hz by (apply script_num_size; lia).
  destruct (Z.ltb_spec (num_size n) 5); [rw Hz; by apply emits_num_bytes|].
  assert (num_size n = 5) as H5.
  { destruct (num_size_range n); lia. }
  rw Hz script_num_bytes // -zlen_length Hz H5. change (Z.to_nat 5) with 5%nat. rw le_bytes_5 //.
  apply (emits_bind _ _ [u8 5]); [apply emits_u8|]. apply emits_bind; [apply emits_data|apply emits_u8].
Qed.

(** ** Runs

    What a caller uses of a run: the hash context is meaningless after an
    error. *)
Definition observe (r : Z * option (list Z)) : Z * option (list Z) := if r.1 <? 0 then (r.1, None) else r.

(** The nesting of an expression: the size of the stack that it takes. *)
Fixpoint height (n : policy_node) : nat :=
  match n with
  | policy_node_with_script _ _ x => S (height x)
  | policy_node_with_script2 _ _ x y => S (height x `max` height y)
  | policy_node_with_script3 _ _ x y z => S (height x `max` height y `max` height z)
  | policy_node_thresh _ _ _ l => S (max_list_with height l)
  | _ => 1
  end%nat.

Lemma height_pos n : (1 ≤ height n)%nat.
Proof. destruct n; cbn; lia. Qed.

Lemma height_thresh_child x l : x ∈ l → (height x ≤ max_list_with height l)%nat.
Proof.
  induction l as [|y l IH]; intros Hx; [by apply not_elem_of_nil in Hx|]. cbn.
  apply elem_of_cons in Hx as [-> | Hx]; [lia|]. specialize (IH Hx). lia.
Qed.

(** The number of iterations of a run. *)
Definition cmd_iterations (ch : nat → nat) (c : generic_processor_command) : nat :=
  match c with
  | CMD_CODE_PROCESS_CHILD i | CMD_CODE_PROCESS_CHILD_V i | CMD_CODE_PROCESS_CHILD_VV i => S (ch i)
  | _ => 1
  end.
Definition generic_iterations (t : token) (ch : nat → nat) : nat :=
  match commands_of t with Some cs => sum_list_with (cmd_iterations ch) cs | None => 0 end.

Fixpoint iterations (n : policy_node) : nat :=
  match n with
  | policy_node_with_script t _ x => S (generic_iterations t (λ i, match i with O => iterations x | _ => O end))
  | policy_node_with_script2 t _ x y =>
      S (generic_iterations t (λ i, match i with O => iterations x | S O => iterations y | _ => O end))
  | policy_node_with_script3 t _ x y z =>
      S (generic_iterations t (λ i, match i with
                               | O => iterations x | S O => iterations y | S (S O) => iterations z | _ => O
                               end))
  | policy_node_thresh _ _ _ l => S (sum_list_with (λ x, S (iterations x)) l)
  | n => S (generic_iterations (node_type n) (λ _, O))
  end.

Lemma iterations_enough n : (iterations n ≤ enough_steps n)%nat.
Proof.
  induction n as [n IH] using policy_node_children_ind.
  destruct n as [t f|t f x|t f x y|t f x y z|t f kp|t f k|t f k kps|t f k l|t f h|t f h|t f kp tree];
    cbn [iterations enough_steps];
    try (pose proof (IH x ltac:(constructor))); try (pose proof (IH y ltac:(constructor)));
    try (pose proof (IH z ltac:(constructor))); try (destruct t; cbn; lia).
  assert (∀ x, x ∈ l → (iterations x ≤ enough_steps x)%nat) as Hl by (intros; apply IH; by constructor).
  clear IH. induction l as [|x l IHl]; [cbn; lia|]. cbn [sum_list_with].
  pose proof (Hl x ltac:(by left)). specialize (IHl ltac:(intros y Hy; apply Hl; by right)). lia.
Qed.

(** *** The nodes of the generic processor *)
Definition kid (n : policy_node) (i : nat) (b : bool) : option (list item) := x ← PolicyScript.child_script n i; emitted x b.
Definition kid_iterations (n : policy_node) (i : nat) : nat :=
  match PolicyScript.child_script n i with Some x => iterations x | None => O end.

Lemma generic_items_ext v n ch ch' cs :
  (∀ i b, ch i b = ch' i b) → generic_items v n ch cs = generic_items v n ch' cs.
Proof.
  intros H. induction cs as [|c cs IH]; [done|]. cbn [generic_items]. rw IH. f_equal. by destruct c; cbn.
Qed.

Lemma sum_iterations_ext ch ch' cs :
  (∀ i, ch i = ch' i) → sum_list_with (cmd_iterations ch) cs = sum_list_with (cmd_iterations ch') cs.
Proof. intros H. induction cs as [|c cs IH]; [done|]. cbn [sum_list_with]. rw IH. f_equal. by destruct c; cbn; rw ?H. Qed.

Lemma emitted_generic n v items cs :
  emitted n v = Some items → commands_of (node_type n) = Some cs →
  generic_items v n (kid n) cs = Some items ∧ iterations n = S (sum_list_with (cmd_iterations (kid_iterations n)) cs).
Proof.
  intros He Hcs.
  destruct n as [t f|t f x|t f x y|t f x y z|t f kp|t f k|t f k kps|t f k l|t f h|t f h|t f kp tree];
    cbn [node_type] in Hcs; cbn [iterations node_type]; rw /generic_iterations ?Hcs; cbn in He; try rewrite Hcs in He; cbn in He;
    try (destruct t; by cbn in Hcs).
  all: split; [rewrite -He; apply generic_items_ext; by intros [|[|[|i]]] b|].
  all: f_equal; apply sum_iterations_ext; by intros [|[|[|i]]].
Qed.

Section run.
Context (os : sdk) (J : junk) (wdi : wallet_derivation_info).
Local Notation realize := (realize os J wdi).
Local Notation realize_item := (realize_item os J wdi).
Local Notation dk := (get_derived_pubkey os J wdi).
Local Notation body := (loop_body os J dk false fragment_whitelist_wsh).

Definition run (fuel : nat) (s : policy_parser_state) : io (Z * option (list Z)) :=
  r ← script_loop os J dk false fuel fragment_whitelist_wsh s; mret (observe (r.1, ps_out r.2)).

Definition failed : Z * option (list Z) := (-1, None).

(** A node is done: it is removed, and its length is added to that of the node
    that is below it. *)
Definition finish (fuel : nat) (s : policy_parser_state) : io (Z * option (list Z)) :=
  match ps_nodes s with
  | [] => λ _, Undef
  | [n] => mret (ns_length n, ps_out s)
  | n :: p :: ns =>
      run fuel (mk_parser_state
        (mk_node_state (ns_node p) (u16 (ns_length p + ns_length n)) (ns_step p) (ns_flags p) :: ns) (ps_out s))
  end.

(** An iteration that leaves nodes on the stack. *)
Lemma run_step {A} fuel s (m : io (option A)) (k : A → policy_parser_state) st :
  (∀ st, body s st = attempt m (-1, s) (λ a, mret (0, k a)) st) → (∀ a, ps_nodes (k a) ≠ []) →
  run (S fuel) s st = attempt m failed (λ a, run fuel (k a)) st.
Proof.
  intros Hb Hk. rw /run /attempt. cbn [script_loop]. unfold mbind, gen_bind, mbind, io_bind. rw Hb.
  rw /attempt. unfold mbind, io_bind. destruct (m st) as [[[a|] st']| | |]; [|done..]. cbn.
  by rw bool_decide_true.
Qed.

(** An iteration that ends a node. *)
Lemma run_last {A} fuel s (m : io (option A)) (k : A → policy_parser_state) st :
  (∀ st, ∃ s', body s st = attempt m (-1, s') (λ a, state_stack_pop (k a)) st) →
  (∀ a, ∃ n ns, ps_nodes (k a) = n :: ns ∧ 0 ≤ ns_length n) →
  run (S fuel) s st = attempt m failed (λ a, finish fuel (k a)) st.
Proof.
  intros Hb Hk. rw /run /attempt. cbn [script_loop]. unfold mbind, gen_bind, mbind, io_bind.
  destruct (Hb st) as [s' ->].
  rw /attempt. unfold mbind, io_bind. destruct (m st) as [[[a|] st']| | |]; [|done..].
  destruct (Hk a) as (n & [|p ns] & Hn & Hl); destruct (k a) as [nodes out]; cbn in Hn; subst nodes;
    rw /finish /state_stack_pop /=; cbn.
  - rw andb_false_r. cbn. rw /observe /= (proj2 (Z.ltb_ge _ _)) //.
  - by rw (proj2 (Z.leb_le _ _)).
Qed.

(** *** A command *)
Lemma top_bind {A} (f : policy_parser_node_state → gen A) N ns out st :
  (n ← top; f n) (mk_parser_state (N :: ns) out) st = f N (mk_parser_state (N :: ns) out) st.
Proof. done. Qed.

Lemma emits_ret {A} (m : gen ()) d (a : A) s st :
  emits m d → ps_nodes s ≠ [] → (m;; mret a) s st = Val ((a, emit d s), st).
Proof. intros Hm Hs. unfold mbind, gen_bind, mbind, io_bind. by rw Hm. Qed.

Lemma emits_ret2 {A} (m1 m2 : gen ()) d1 d2 (a : A) s st :
  emits m1 d1 → emits m2 d2 → ps_nodes s ≠ [] → (m1;; m2;; mret a) s st = Val ((a, emit (d1 ++ d2) s), st).
Proof.
  intros H1 H2 Hs. unfold mbind, gen_bind, mbind, io_bind. rw H1 //. cbn [fst snd]. rw H2 ?emit_emit //.
  by destruct s as [[|]].
Qed.

(** The output of an opcode with its VERIFY form. *)
Definition op_v_bytes (v : bool) (op : Z) : list Z :=
  if v then if has_verify op then [u8 (op + 1)] else [u8 op; u8 OP_VERIFY] else [u8 op].

Lemma realize_op_v {B} v op (err : B) k st : attempt (realize (op_v v op)) err k st = k (op_v_bytes v op) st.
Proof. rw /op_v /op_v_bytes. by repeat case_match. Qed.

Lemma op_v_emit v op N ns out st :
  ns_flags N = Z.b2z v →
  update_output_op_v op (mk_parser_state (N :: ns) out) st =
  Val (((), emit (op_v_bytes v op) (mk_parser_state (N :: ns) out)), st).
Proof.
  intros Hv. rw /update_output_op_v /op_v_bytes /has_verify top_bind Hv.
  assert (negb (Z.land (Z.b2z v) PROCESSOR_FLAG_V =? 0) = v) as -> by (by destruct v).
  destruct v; [|by rw emits_u8].
  destruct (_ || _); [by rw emits_u8|]. rewrite (emits_bind _ _ [u8 op] [u8 OP_VERIFY]) //; apply emits_u8.
Qed.

(** The derivation of a key, then an output that depends on it. *)
Lemma derive_emit (kp : policy_node_key_placeholder) (cont : list Z → gen Z) (bytes : list Z → list Z) z s st :
  (∀ key st, cont key s st = Val ((z, emit (bytes key) s), st)) →
  (r ← derive dk kp; match r with None => mret (-1) | Some key => cont key end) s st =
  attempt (attempt (get_derived_pubkey os J wdi kp) None (λ key, mret (Some (bytes key))))
    (-1, s) (λ d, mret (z, emit d s)) st.
Proof.
  intros Hout. rw attempt_attempt /derive /from_io /attempt. unfold mbind, gen_bind, mbind, io_bind.
  destruct (get_derived_pubkey os J wdi kp st) as [[[key|] st']| | |]; [|done..]. cbn. by rw Hout.
Qed.

Lemma run_command_items v ch c items N ns out st :
  ns_flags N = Z.b2z v → bounds_ok (ns_node N) → pushes c = 0%nat →
  cmd_items v (ns_node N) ch c = Some items →
  run_command os dk false c (mk_parser_state (N :: ns) out) st =
  attempt (realize items) (-1, mk_parser_state (N :: ns) out)
    (λ d, mret (0, emit d (mk_parser_state (N :: ns) out))) st.
Proof.
  intros Hv Hb Hc Hi. set (s := mk_parser_state (N :: ns) out).
  assert (ps_nodes s ≠ []) as Hs by done.
  rw /run_command /s top_bind -/s.
  destruct c; try done; cbn in Hi;
    try match type of Hi with
    | context [ns_node N] => destruct (ns_node N) as [| | | |t f kp|t f n| | |t f h|t f h|] eqn:En; try done
    end; simplify_eq; rw ?realize_one.
  - by rw (emits_ret _ _ _ _ _ (emits_u8 data)).
  - rw realize_op_v. unfold mbind, gen_bind, mbind, io_bind. by rw /s (op_v_emit v).
  - apply (derive_emit kp _ (λ key, 33 :: key)). intros key st'.
    by apply (emits_ret _ ([u8 33] ++ key)); [apply emits_bind; [apply emits_u8|apply emits_data]|].
  - apply (derive_emit kp _ (λ key, 20 :: crypto_hash160 os key)). intros key st'.
    by apply (emits_ret2 _ _ [u8 20]); [apply emits_u8|apply emits_data|].
  - apply emits_ret; [|done]. apply emits_push_u32. cbn in Hb. lia.
  - by apply (emits_ret2 _ _ [u8 20]); [apply emits_u8|apply emits_data|].
  - by apply (emits_ret2 _ _ [u8 32]); [apply emits_u8|apply emits_data|].
Qed.

(** *** A node of the generic processor *)
Definition node_runs (n : policy_node) : Prop :=
  ∀ v ns out fuel items st,
    emitted n v = Some items → zlen ns + Z.of_nat (height n) ≤ MAX_POLICY_DEPTH →
    let s := mk_parser_state (mk_node_state n 0 0 (Z.b2z v) :: ns) out in
    run (iterations n + fuel) s st = attempt (realize items) failed (λ d, finish fuel (emit d s)) st.

Lemma in_whitelist t cs : commands_of t = Some cs → t ∈ fragment_whitelist_wsh.
Proof. intros H. apply (bool_decide_unpack _). destruct t; done. Qed.

Lemma commands_short t cs : commands_of t = Some cs → zlen cs < 8.
Proof. destruct t; cbn; intros; simplify_eq; done. Qed.

(** The iteration of a node of the generic processor. *)
Lemma body_generic N ns out cs st :
  commands_of (node_type (ns_node N)) = Some cs →
  body (mk_parser_state (N :: ns) out) st =
  execute_processor (process_generic_node os dk false cs) (mk_parser_state (N :: ns) out) st.
Proof.
  intros Hcs. rw /loop_body top_bind bool_decide_true; [|by eapply in_whitelist].
  by rw /processor_of Hcs.
Qed.

Lemma body_generic_step N ns out done c todo st :
  commands_of (node_type (ns_node N)) = Some (done ++ c :: todo) → ns_step N = zlen done →
  body (mk_parser_state (N :: ns) out) st =
  (r ← run_command os dk false c;
   if r <? 0 then mret r else bump_step (pushes c);; mret 0) (mk_parser_state (N :: ns) out) st.
Proof.
  intros Hcs Hstep. rw (body_generic _ _ _ _ _ Hcs) /execute_processor.
  set (s := mk_parser_state (N :: ns) out).
  assert (process_generic_node os dk false (done ++ c :: todo) s st =
    (r ← run_command os dk false c; if r <? 0 then mret r else bump_step (pushes c);; mret 0) s st) as Hp.
  { rw /process_generic_node /s top_bind Hstep (proj2 (Z.ltb_ge _ _)); [|zlia].
    by rw zlen_length list_lookup_middle. }
  unfold mbind at 1, gen_bind at 1, mbind at 1, io_bind at 1. rw Hp. unfold mbind, gen_bind, mbind, io_bind.
  destruct (run_command _ _ _ _ _ _) as [[[r s'] st']| | |]; [|done..]. cbn [fst snd].
  destruct (Z.ltb_spec r 0); [|done]. cbn. by rw (proj2 (Z.ltb_ge _ _)); [|lia].
Qed.

Lemma run_done cs N ns out fuel st :
  commands_of (node_type (ns_node N)) = Some cs → ns_step N = zlen cs → 0 ≤ ns_length N →
  run (S fuel) (mk_parser_state (N :: ns) out) st = finish fuel (mk_parser_state (N :: ns) out) st.
Proof.
  intros Hcs Hstep Hlen.
  rewrite (run_last fuel _ (mret (Some ())) (λ _, mk_parser_state (N :: ns) out)); [done| |by eauto].
  intros st'. exists (mk_parser_state (N :: ns) out). rw (body_generic _ _ _ _ _ Hcs) /execute_processor.
  assert (process_generic_node os dk false cs (mk_parser_state (N :: ns) out) st' =
    Val ((1, mk_parser_state (N :: ns) out), st')) as Hp.
  { rw /process_generic_node top_bind Hstep (proj2 (Z.ltb_ge _ _)); [|lia].
    by rw zlen_length lookup_ge_None_2. }
  unfold mbind, gen_bind, mbind, io_bind. by rw Hp.
Qed.

(** The node after a command that has added [d]. *)
Definition next_top (d : list Z) (N : policy_parser_node_state) : policy_parser_node_state :=
  mk_node_state (ns_node N) (u16 (ns_length N + zlen d)) (ns_step N + 1) (ns_flags N).

Lemma step_u8 N {A} (done : list A) : ns_step N = zlen done → zlen done < 255 → u8 (ns_step N + 1) = ns_step N + 1.
Proof. intros -> H. rw u8_small //. pose proof (zlen_nonneg done). lia. Qed.

Lemma run_output_step v N ns out done c todo items fuel st :
  commands_of (node_type (ns_node N)) = Some (done ++ c :: todo) → ns_step N = zlen done →
  ns_flags N = Z.b2z v → bounds_ok (ns_node N) → pushes c = 0%nat →
  cmd_items v (ns_node N) (kid (ns_node N)) c = Some items →
  run (S fuel) (mk_parser_state (N :: ns) out) st =
  attempt (realize items) failed
    (λ d, run fuel (mk_parser_state (next_top d N :: ns) ((λ o, o ++ d) <$> out))) st.
Proof.
  intros Hcs Hstep Hv Hb Hp Hi. apply run_step; [|done]. intros st'.
  rw (body_generic_step _ _ _ _ _ _ _ Hcs Hstep). unfold mbind at 1, gen_bind at 1, mbind at 1, io_bind at 1.
  rw (run_command_items v _ _ _ _ _ _ _ Hv Hb Hp Hi) Hp /attempt. unfold mbind, io_bind.
  destruct (realize items st') as [[[d|] st'']| | |]; [|done..].
  rw /next_top -(step_u8 N done) //. pose proof (commands_short _ _ Hcs). zlia.
Qed.

Definition child_cmd (c : generic_processor_command) (v : bool) : option (nat * bool) :=
  match c with
  | CMD_CODE_PROCESS_CHILD i => Some (i, false)
  | CMD_CODE_PROCESS_CHILD_V i => Some (i, v)
  | CMD_CODE_PROCESS_CHILD_VV i => Some (i, true)
  | _ => None
  end.

Lemma run_child_step v N ns out done c todo i b x fuel st :
  commands_of (node_type (ns_node N)) = Some (done ++ c :: todo) → ns_step N = zlen done →
  ns_flags N = Z.b2z v → child_cmd c v = Some (i, b) → PolicyScript.child_script (ns_node N) i = Some x →
  zlen ns + 1 < MAX_POLICY_DEPTH →
  run (S fuel) (mk_parser_state (N :: ns) out) st =
  run fuel (mk_parser_state (mk_node_state x 0 0 (Z.b2z b) :: 
    mk_node_state (ns_node N) (ns_length N) (ns_step N + 1) (ns_flags N) :: ns) out) st.
Proof.
  intros Hcs Hstep Hv Hc Hx Hns.
  erewrite (run_step fuel _ (mret (Some ())) (λ _, _)); [done| |done]. intros st'.
  rw (body_generic_step _ _ _ _ _ _ _ Hcs Hstep). rw -(step_u8 N done) //; [|pose proof (commands_short _ _ Hcs); zlia].
  unfold mbind at 1, gen_bind at 1, mbind at 1, io_bind at 1.
  assert (MAX_POLICY_DEPTH <=? zlen (N :: ns) = false) as Hd by (rw zlen_cons Z.leb_gt; lia).
  destruct c; cbn in Hc; simplify_eq; rw /run_command top_bind Hx /state_stack_push; unfold mbind, gen_bind, mbind, io_bind; cbn -[MAX_POLICY_DEPTH Z.leb Z.lor];
    rw Hd; destruct N as [nn nl nt nf]; cbn in *; subst nf; first [done|by destruct v].
Qed.

Lemma emit_nil N ns out :
  u16 (ns_length N) = ns_length N → emit [] (mk_parser_state (N :: ns) out) = mk_parser_state (N :: ns) out.
Proof.
  intros H. destruct N as [n len step fl]. rw /emit /emit_top /= zlen_nil Z.add_0_r. cbn in H. rw H. f_equal.
  destruct out; [|done]. by rw /= app_nil_r.
Qed.

(** Only the length of the node that ends is used. *)
Lemma finish_top fuel N N' ns out :
  ns_length N = ns_length N' →
  finish fuel (mk_parser_state (N :: ns) out) = finish fuel (mk_parser_state (N' :: ns) out).
Proof. intros H. destruct ns; cbn; by rw H. Qed.

(** The end of a child of [N]. *)
Lemma finish_child fuel d x fl N ns out :
  finish fuel (emit d (mk_parser_state (mk_node_state x 0 0 fl :: N :: ns) out)) =
  run fuel (emit d (mk_parser_state (N :: ns) out)).
Proof. rw /finish /emit /emit_top /=. by rw u16_add_r. Qed.

Lemma child_script_child n i x : PolicyScript.child_script n i = Some x → child x n.
Proof. destruct n, i as [|[|[|]]]; intros [= <-]; constructor. Qed.

Lemma child_height c n : child c n → (height c < height n)%nat ∨ ∃ t f kp tree, n = policy_node_tr t f kp tree.
Proof.
  destruct 1; cbn; try (left; lia); [|by right; eauto].
  left. match goal with H : _ ∈ _ |- _ => pose proof (height_thresh_child _ _ H) end. lia.
Qed.

Lemma cmd_cases c v : pushes c = 0%nat ∨ ∃ i b, child_cmd c v = Some (i, b) ∧ ∀ n ch, cmd_items v n ch c = ch i b.
Proof. destruct c; cbn; eauto. Qed.

(** The rest of the commands of a node. *)
Lemma generic_run n cs v ns fuel :
  commands_of (node_type n) = Some cs → bounds_ok n → (∀ x, child x n → node_runs x) →
  zlen ns + Z.of_nat (height n) ≤ MAX_POLICY_DEPTH →
  ∀ todo done items N out st,
    cs = done ++ todo → ns_node N = n → ns_flags N = Z.b2z v → ns_step N = zlen done →
    u16 (ns_length N) = ns_length N → generic_items v n (kid n) todo = Some items →
    run (S (sum_list_with (cmd_iterations (kid_iterations n)) todo) + fuel) (mk_parser_state (N :: ns) out) st =
    attempt (realize items) failed (λ d, finish fuel (emit d (mk_parser_state (N :: ns) out))) st.
Proof.
  intros Hcs Hb Hch Hd. induction todo as [|c todo IH]; intros done items N out st Hdone Hn Hv Hstep Hlen Hi.
  { injection Hi as <-. rewrite app_nil_r in Hdone. subst. cbn [sum_list_with Nat.add].
    rw attempt_ret emit_nil //. apply (run_done done); [done..|]. rw -Hlen. apply u16_range. }
  cbn [generic_items] in Hi. destruct (cmd_items _ _ _ c) as [a|] eqn:Ha; [|done].
  destruct (generic_items _ _ _ todo) as [r|] eqn:Hr; [|done]. injection Hi as <-.
  rw realize_app. subst cs n.
  assert (∀ d out st, run (S (sum_list_with (cmd_iterations (kid_iterations (ns_node N))) todo) + fuel)
      (mk_parser_state (next_top d N :: ns) ((λ o, o ++ d) <$> out)) st =
    attempt (realize r) failed (λ b, finish fuel (emit (d ++ b) (mk_parser_state (N :: ns) out))) st) as Hnext.
  { clear st out. intros d out st. rw (IH (done ++ [c]) r); try done.
    - apply attempt_ext. intros b st'. rw -emit_emit.
      by rw (finish_top _ _ (emit_top b (emit_top d N))).
    - by rw -app_assoc.
    - rw /next_top /= Hstep. zlia.
    - cbn. by rw {1}/u16 Zmod_mod. }
  destruct (cmd_cases c v) as [Hp|(i & b & Hc & Hcmd)].
  - assert (cmd_iterations (kid_iterations (ns_node N)) c = 1%nat) as Hone by (by destruct c).
    cbn [sum_list_with]. rw Hone. cbn [Nat.add].
    rw (run_output_step v _ _ _ done c todo a) //. apply attempt_ext. intros d st'. apply Hnext.
  - rewrite Hcmd in Ha. rewrite /kid in Ha. destruct (PolicyScript.child_script (ns_node N) i) as [x|] eqn:Hx; [|done].
    cbn in Ha. pose proof (child_script_child _ _ _ Hx) as Hchild.
    assert (height x < height (ns_node N))%nat as Hhx.
    { destruct (child_height _ _ Hchild) as [|(t&f&kp&tree&E)]; [done|]. by rewrite E in Hx. }
    assert (cmd_iterations (kid_iterations (ns_node N)) c = S (iterations x)) as Hit.
    { rw /cmd_iterations /kid_iterations. destruct c; cbn in Hc; simplify_eq; by rw Hx. }
    assert (∀ k, S (cmd_iterations (kid_iterations (ns_node N)) c + k) + fuel = S (iterations x + (S k + fuel)))%nat
      as Hfuel by (intros; rw Hit; lia).
    cbn [sum_list_with]. rw Hfuel (run_child_step v _ _ _ done c todo i b x) //; [|pose proof (height_pos x); lia].
    rw (Hch x Hchild b _ _ _ a) //; [|rw zlen_cons; lia].
    apply attempt_ext. intros d st'. rw finish_child. apply Hnext.
Qed.

(** *** The other processors

    They end a node in one iteration. *)
Lemma run_processor proc N ns out items fuel st :
  let s := mk_parser_state (N :: ns) out in
  node_type (ns_node N) ∈ fragment_whitelist_wsh →
  processor_of os J dk false (node_type (ns_node N)) = Some proc →
  (∀ st, ∃ s', proc s st = attempt (realize items) (-1, s') (λ d, mret (1, emit d s)) st) →
  run (S fuel) s st = attempt (realize items) failed (λ d, finish fuel (emit d s)) st.
Proof.
  intros s Hw Hp Hproc. apply run_last.
  - intros st'. destruct (Hproc st') as [s' Hs']. exists s'.
    rw /loop_body /s top_bind bool_decide_true // Hp. cbn [negb]. fold s.
    rw /execute_processor. unfold mbind, gen_bind, mbind, io_bind. rw Hs' /attempt. unfold mbind, io_bind.
    by destruct (realize items st') as [[[d|] st'']| | |].
  - intros d. eexists _, _. split; [done|]. apply u16_range.
Qed.

(** The flag of the node being processed. *)
Definition top_flag (s : policy_parser_state) (v : bool) : Prop :=
  match ps_nodes s with N :: _ => ns_flags N = Z.b2z v | [] => False end.

Lemma top_flag_emit s v d : top_flag s v → top_flag (emit d s) v.
Proof. by destruct s as [[|]]. Qed.

Lemma op_v_then {A} v op (k : gen A) s st :
  top_flag s v → (update_output_op_v op;; k) s st = k (emit (op_v_bytes v op) s) st.
Proof.
  destruct s as [[|N ns] out]; intros Hv; [done|]. unfold mbind, gen_bind, mbind, io_bind. by rw (op_v_emit v).
Qed.

(** An output before an operation. *)
Lemma emits_then {A} (m : gen ()) d (k : gen A) s st : emits m d → ps_nodes s ≠ [] → (m;; k) s st = k (emit d s) st.
Proof. intros Hm Hs. unfold mbind, gen_bind, mbind, io_bind. by rw Hm. Qed.

Lemma gen_assoc {A B C} (m : gen A) (m' : gen B) (k : gen C) s st : ((m;; m');; k) s st = (m;; m';; k) s st.
Proof. unfold mbind, gen_bind, mbind, io_bind. by destruct (m s st) as [[[a s'] st']| | |]. Qed.

Lemma emit_nonempty d s : ps_nodes s ≠ [] → ps_nodes (emit d s) ≠ [].
Proof. by destruct s as [[|]]. Qed.

(** Runs a sequence of outputs. *)
Local Ltac outputs v :=
  repeat first
    [ rw gen_assoc
    | rw (emits_then _ _ _ _ _ (emits_u8 _)); [|by repeat apply emit_nonempty]
    | rw (emits_then _ _ _ _ _ (emits_data _)); [|by repeat apply emit_nonempty]
    | rw (op_v_then v); [|by repeat apply top_flag_emit]
    ]; rw ?emit_emit.

(** The bytes of a script without keys. *)
Definition constant (l : list item) (b : list Z) : Prop := ∀ st, realize l st = Val (Some b, st).

Lemma constant_attempt {B} l b (err : B) k st : constant l b → attempt (realize l) err k st = k b st.
Proof. intros H. rw /attempt. unfold mbind, io_bind. by rw H. Qed.

Lemma constant_op_v v op : constant (op_v v op) (op_v_bytes v op).
Proof. intros st. rw /op_v /op_v_bytes. by repeat case_match. Qed.

Lemma realize_around {B} l1 b1 i l2 b2 (err : B) k st :
  constant l1 b1 → constant l2 b2 →
  attempt (realize (l1 ++ i :: l2)) err k st = attempt (realize_item i) err (λ a, k (b1 ++ a ++ b2)) st.
Proof.
  intros H1 H2. rw realize_app (constant_attempt _ _ _ _ _ H1) realize_cons. apply attempt_ext. intros a st'.
  by rw (constant_attempt _ _ _ _ _ H2).
Qed.

Lemma constant_cons op l b : constant l b → constant (I_op op :: l) (u8 op :: b).
Proof. intros H st. cbn [realize]. rw /attempt. unfold mbind, io_bind. cbn. unfold mbind, io_bind. by rw H. Qed.

Lemma pkh_runs f kp : node_runs (policy_node_with_key TOKEN_PKH f kp).
Proof.
  intros v ns out fuel items st Hi _ s. injection Hi as <-. cbn [iterations Nat.add].
  apply (run_processor (process_pkh_wpkh_node os dk)); [by apply (bool_decide_unpack _)|done|].
  intros st'. exists s. rw /process_pkh_wpkh_node top_bind. cbn [ns_step ns_node Z.eqb negb].
  rw (realize_around [I_op OP_DUP; I_op OP_HASH160] [u8 OP_DUP; u8 OP_HASH160] _ (I_op OP_EQUALVERIFY :: op_v v OP_CHECKSIG)
    (u8 OP_EQUALVERIFY :: op_v_bytes v OP_CHECKSIG)); [|done|by apply constant_cons, constant_op_v].
  rw (derive_emit kp _ (λ key, [u8 OP_DUP; u8 OP_HASH160; u8 20] ++ crypto_hash160 os key ++
    u8 OP_EQUALVERIFY :: op_v_bytes v OP_CHECKSIG) 1).
  - cbn [realize_item]. rw !attempt_attempt. apply attempt_ext. reflexivity.
  - intros key st''. rw bool_decide_true //. outputs v.
    by rw /= -?app_assoc.
Qed.

(** The keys of multi, in their order. *)
Lemma derive_Val kp s st r st' :
  get_derived_pubkey os J wdi kp st = Val (r, st') → derive dk kp s st = Val ((r, s), st').
Proof. intros E. rw /derive /from_io. unfold mbind, io_bind. by rw E. Qed.

Lemma realize_key_Val {B} kp l (err : B) k st key st' :
  get_derived_pubkey os J wdi kp st = Val (Some key, st') →
  attempt (realize (I_key kp :: l)) err k st = attempt (realize l) err (λ d, k ((33 :: key) ++ d)) st'.
Proof.
  intros E. rw realize_cons. cbn [realize_item]. rw attempt_attempt. unfold attempt at 1, mbind at 1, io_bind at 1. by rw E.
Qed.

Lemma multisig_step cmp em all kp kps i used s st :
  multisig_loop dk false cmp em all (kp :: kps) i used s st =
  (r ← derive dk kp;
   match r with
   | None => mret (-1)
   | Some key => em i key;; multisig_loop dk false cmp em all kps (i + 1) used
   end) s st.
Proof.
  cbn [multisig_loop]. unfold mbind, gen_bind, mbind, io_bind.
  by destruct (derive dk kp s st) as [[[[key|] s'] st']| | |].
Qed.

Lemma multi_keys all cmp kps i used d0 s st :
  ps_nodes s ≠ [] →
  ∃ s', multisig_loop dk false cmp (λ _ key, update_output_u8 0x21;; update_output key) all kps i used
      (emit d0 s) st =
    attempt (realize (I_key <$> kps)) (-1, s') (λ d, mret (1, emit (d0 ++ d) s)) st.
Proof.
  intros Hs. revert i d0 st. induction kps as [|kp kps IH]; intros i d0 st.
  { exists s. rewrite attempt_ret app_nil_r. done. }
  rw fmap_cons multisig_step. unfold mbind at 1, gen_bind at 1, mbind at 1, io_bind at 1.
  destruct (get_derived_pubkey os J wdi kp st) as [[[key|] st']| | |] eqn:E;
    try (exists (emit d0 s); rw realize_cons; cbn [realize_item]; rw attempt_attempt;
         unfold attempt at 1, derive, from_io, mbind, io_bind; by rw E).
  destruct (IH (i + 1) (d0 ++ [u8 0x21] ++ key) st') as [s' Hs']. exists s'.
  rw (realize_key_Val _ _ _ _ _ _ _ E) (derive_Val _ _ _ _ _ E). cbn [fst snd].
  outputs false. rw Hs'. apply attempt_ext. intros d st''. by rw -!app_assoc.
Qed.

Lemma then_attempt {A} (m k : gen Z) (p : io (option A)) g s s' st :
  m s st = attempt p (-1, s') (λ d, mret (1, g d)) st →
  (r ← m; if r <? 0 then mret r else k) s st = attempt p (-1, s') (λ d, k (g d)) st.
Proof.
  intros Hm. unfold mbind, gen_bind, mbind, io_bind. rw Hm /attempt. unfold mbind, io_bind.
  by destruct (p st) as [[[d|] st']| | |].
Qed.

Lemma multi_runs f k kps : zlen kps ≤ 16 → node_runs (policy_node_multisig TOKEN_MULTI f k kps).
Proof.
  intros Hz v ns out fuel items st Hi _ s. injection Hi as <-. cbn [iterations Nat.add].
  apply (run_processor (process_multi_sortedmulti_node dk)); [by apply (bool_decide_unpack _)|done|].
  intros st'. rw /process_multi_sortedmulti_node top_bind. cbn [ns_node]. rw (proj2 (Z.ltb_ge _ _)) //.
  rw (emits_then _ _ _ _ _ (emits_u8 _)) //. fold s. rw bool_decide_true //. cbn [negb].
  destruct (multi_keys kps cmp_arrays kps 0 (replicate 2 0) [u8 (0x50 + k)] s st' ltac:(done)) as [s' Hs'].
  exists s'. rw (then_attempt _ _ _ _ _ _ _ Hs') realize_cons. rewrite attempt_ret. rw u8_u8 realize_app.
  apply attempt_ext. intros d st''. outputs v.
  rw (constant_attempt _ (u8 (0x50 + zlen kps) :: op_v_bytes v OP_CHECKMULTISIG)).
  - by rw /= -?app_assoc.
  - rw -u8_u8. by apply constant_cons, constant_op_v.
Qed.

(** *** thresh: an OP_ADD comes before the child that follows it *)
Definition add_before (j : Z) : list item := if 1 <? j then [I_op OP_ADD] else [].

Fixpoint rest_items (j : Z) (ls : list (list item)) : list item :=
  match ls with
  | [] => add_before j
  | x :: ls' => add_before j ++ x ++ rest_items (j + 1) ls'
  end.

Lemma rest_items_all j ls : 2 ≤ j → rest_items j ls = I_op OP_ADD :: mjoin ((λ y, y ++ [I_op OP_ADD]) <$> ls).
Proof.
  revert j. induction ls as [|x ls IH]; intros j Hj; cbn [rest_items]; rw /add_before (proj2 (Z.ltb_lt 1 j)); try lia.
  - done.
  - rw IH; [|lia]. rw fmap_cons. cbn. by rw -app_assoc.
Qed.

Lemma rest_items_add_all ls : rest_items 0 ls = add_all ls.
Proof.
  destruct ls as [|x [|y ls]]; [done|by rw /= app_nil_r|]. cbn [rest_items app]. change (add_before _) with (@nil item).
  cbn. rw rest_items_all //. by rw -app_assoc.
Qed.

Definition add_bytes (j : Z) : list Z := if 1 <? j then [u8 OP_ADD] else [].
Lemma constant_add j : constant (add_before j) (add_bytes j).
Proof. rw /add_before /add_bytes. by destruct (1 <? j). Qed.

Lemma body_thresh N ns out f k l st :
  ns_node N = policy_node_thresh TOKEN_THRESH f k l →
  body (mk_parser_state (N :: ns) out) st =
  execute_processor process_thresh_node (mk_parser_state (N :: ns) out) st.
Proof. intros Hn. rw /loop_body top_bind Hn. done. Qed.

Lemma add_then {A} j (m : gen A) N ns out st :
  u16 (ns_length N) = ns_length N →
  ((if 1 <? j then update_output_u8 OP_ADD else mret ());; m) (mk_parser_state (N :: ns) out) st =
  m (emit (add_bytes j) (mk_parser_state (N :: ns) out)) st.
Proof.
  intros Hlen. rw /add_bytes. destruct (1 <? j); [by rw (emits_then _ _ _ _ _ (emits_u8 _))|]. by rw emit_nil.
Qed.

Lemma thresh_child_step N ns out f k done x todo fuel st :
  ns_node N = policy_node_thresh TOKEN_THRESH f k (done ++ x :: todo) → ns_step N = zlen done →
  u16 (ns_length N) = ns_length N → zlen done < 255 → zlen ns + 1 < MAX_POLICY_DEPTH →
  run (S fuel) (mk_parser_state (N :: ns) out) st =
  run fuel (mk_parser_state (mk_node_state x 0 0 (Z.b2z false) :: next_top (add_bytes (zlen done)) N :: ns)
    ((λ o, o ++ add_bytes (zlen done)) <$> out)) st.
Proof.
  intros Hn Hstep Hlen Hdone Hns.
  erewrite (run_step fuel _ (mret (Some ())) (λ _, _)); [done| |done]. intros st'.
  rw (body_thresh _ _ _ _ _ _ _ Hn) /execute_processor /next_top -(step_u8 N done) //.
  assert (MAX_POLICY_DEPTH <=? zlen (N :: ns) = false) as Hd by (rw zlen_cons Z.leb_gt; lia).
  set (s' := mk_parser_state (_ :: _) (_ <$> _)).
  assert (process_thresh_node (mk_parser_state (N :: ns) out) st' = Val ((0, s'), st')) as Hp.
  { rw /process_thresh_node top_bind Hn Hstep (proj2 (Z.ltb_lt _ _)); [|zlia].
    rw zlen_length list_lookup_middle // add_then // /state_stack_push. unfold mbind, gen_bind, mbind, io_bind.
    cbn -[MAX_POLICY_DEPTH Z.leb add_bytes]. change (zlen (_ :: ns)) with (zlen (N :: ns)). by rw Hd. }
  unfold mbind, gen_bind, mbind, io_bind. by rw Hp.
Qed.

Lemma thresh_last v N ns out f k l fuel st :
  ns_node N = policy_node_thresh TOKEN_THRESH f k l → ns_step N = zlen l → ns_flags N = Z.b2z v →
  u16 (ns_length N) = ns_length N → 0 ≤ k < 2 ^ 32 →
  let s := mk_parser_state (N :: ns) out in
  run (S fuel) s st =
  attempt (realize (add_before (zlen l) ++ I_num k :: op_v v OP_EQUAL)) failed (λ d, finish fuel (emit d s)) st.
Proof.
  intros Hn Hstep Hv Hlen Hk s.
  apply (run_processor process_thresh_node); [rw Hn; by apply (bool_decide_unpack _)|by rw Hn|].
  intros st'. exists s. rw /process_thresh_node /s top_bind Hn Hstep Z.ltb_irrefl.
  assert ((2 <=? zlen l) = (1 <? zlen l)) as -> by (destruct (Z.leb_spec 2 (zlen l)), (Z.ltb_spec 1 (zlen l)); lia).
  rw add_then // realize_app (constant_attempt _ _ _ _ _ (constant_add _)) realize_cons.
  rw (emits_then _ _ _ _ _ (emits_push_u32 k Hk)) // (op_v_then v) // emit_emit.
  rewrite attempt_ret. rw (constant_attempt _ _ _ _ _ (constant_op_v _ _)) emit_emit. by rw -?app_assoc.
Qed.

Lemma thresh_run f k l v ns fuel :
  let n := policy_node_thresh TOKEN_THRESH f k l in
  0 ≤ k < 2 ^ 32 → zlen l ≤ 255 → (∀ x, x ∈ l → node_runs x) →
  zlen ns + Z.of_nat (height n) ≤ MAX_POLICY_DEPTH →
  ∀ todo done ls N out st,
    l = done ++ todo → ns_node N = n → ns_flags N = Z.b2z v → ns_step N = zlen done →
    u16 (ns_length N) = ns_length N → sequence ((λ x, emitted x false) <$> todo) = Some ls →
    run (S (sum_list_with (λ x, S (iterations x)) todo) + fuel) (mk_parser_state (N :: ns) out) st =
    attempt (realize (rest_items (zlen done) ls ++ I_num k :: op_v v OP_EQUAL)) failed
      (λ d, finish fuel (emit d (mk_parser_state (N :: ns) out))) st.
Proof.
  intros n Hk Hz Hch Hd. induction todo as [|x todo IH]; intros done ls N out st Hl Hn Hv Hstep Hlen Hls.
  { injection Hls as <-. rewrite app_nil_r in Hl. subst done. by apply (thresh_last v _ _ _ f). }
  rewrite fmap_cons in Hls. cbn [sequence] in Hls. destruct (emitted x false) as [X|] eqn:EX; [|done].
  cbn [mbind option_bind] in Hls. destruct (sequence _) as [ls'|] eqn:Els; [|done]. injection Hls as <-.
  assert (x ∈ l) as Hx by (rw Hl elem_of_app; right; by left).
  pose proof (height_thresh_child _ _ Hx) as Hhx. unfold n in Hd. cbn [height] in Hd. pose proof (height_pos x).
  assert (∀ j, S (S (iterations x) + j) + fuel = S (iterations x + (S j + fuel)))%nat as Hfuel by lia.
  cbn [sum_list_with rest_items].
  rw Hfuel (thresh_child_step _ _ _ f k done x todo) //; [|by rw Hn /n Hl|rewrite Hl in Hz; zlia|lia].
  rw (Hch x Hx false _ _ _ X) //; [|rw zlen_cons; lia].
  rw -!app_assoc realize_app (constant_attempt _ _ _ _ _ (constant_add _)) realize_app.
  apply attempt_ext. intros d st'. rw finish_child (IH (done ++ [x]) ls') //.
  - rw zlen_app. apply attempt_ext. intros b st''. rw -!emit_emit.
    exact (f_equal (λ g, g st'') (finish_top _ _ _ _ _ eq_refl)).
  - by rw -app_assoc.
  - cbn. rw Hstep. zlia.
  - cbn. by rw {1}/u16 Zmod_mod.
Qed.

Lemma thresh_node_runs f k l :
  0 ≤ k < 2 ^ 32 → zlen l ≤ 255 → (∀ x, x ∈ l → node_runs x) → node_runs (policy_node_thresh TOKEN_THRESH f k l).
Proof.
  intros Hk Hz Hch v ns out fuel items st Hi Hd s. cbn in Hi.
  destruct (sequence _) as [ls|] eqn:Els; [|done]. injection Hi as <-. cbn [iterations].
  rw (thresh_run f k l v ns fuel Hk Hz Hch Hd l [] ls) //. by rw rest_items_add_all.
Qed.

(** *** All the nodes *)
Definition few_children (n : policy_node) : bool :=
  match n with policy_node_thresh _ _ _ l => zlen l <=? 255 | _ => true end.

Lemma node_runs_all n : policy_ok n → all_nodes few_children n = true → node_runs n.
Proof.
  induction n as [n IH] using policy_node_children_ind. intros Hok Hfew.
  assert (∀ c, child c n → node_runs c) as Hch.
  { intros c Hc. apply IH; [done|by eapply policy_ok_child|by eapply all_nodes_child]. }
  destruct (Hok n (sub_refl n)) as [_ Hb]. clear IH Hok.
  destruct (commands_of (node_type n)) as [cs|] eqn:Hcs.
  - intros v ns out fuel items st Hi Hd s. destruct (emitted_generic _ _ _ _ Hi Hcs) as [Hg ->].
    by apply (generic_run n cs v ns fuel Hcs Hb Hch Hd cs []).
  - apply all_nodes_self in Hfew.
    destruct n as [t f|t f x|t f x y|t f x y z|t f kp|t f k|t f k kps|t f k l|t f h|t f h|t f kp tree];
      cbn in Hcs, Hb, Hfew; destruct t; try (intros v ns out fuel items st Hi; done).
    + apply pkh_runs.
    + apply multi_runs. unfold MAX_PUBKEYS_PER_MULTISIG in Hb. lia.
    + apply thresh_node_runs; [unfold INT16_MAX in Hb; lia|lia|]. intros x Hx. apply Hch. by constructor.
Qed.

(** The run of a whole expression. *)
Lemma script_hash_emitted n items out st :
  policy_ok n → all_nodes few_children n = true → Z.of_nat (height n) ≤ MAX_POLICY_DEPTH →
  emitted n false = Some items →
  (r ← get_wallet_internal_script_hash os J n wdi WRAPPED_SCRIPT_TYPE_WSH out; mret (observe r)) st =
  attempt (realize items) failed (λ d, mret (u16 (zlen d), (λ o, o ++ d) <$> out)) st.
Proof.
  intros Hok Hfew Hd Hi.
  pose proof (node_runs_all n Hok Hfew false [] out (enough_steps n - iterations n)%nat items st Hi Hd) as Hrun.
  pose proof (iterations_enough n) as Hit.
  replace (iterations n + (enough_steps n - iterations n))%nat with (enough_steps n) in Hrun by lia.
  etrans; [|exact Hrun]. rw /get_wallet_internal_script_hash /run bool_decide_false //.
  unfold mbind, io_bind. by destruct (script_loop _ _ _ _ _ _ _ _) as [[[r s'] st']| | |].
Qed.
End run.

(** C11: the output script of a wallet policy wsh(M).  For every miniscript
    expression M that the parser accepts, with at most 10 nested fragments and
    at most 255 children in a thresh, [get_wallet_script] derives the keys of M
    in the order of the script and returns the witness program of the script
    that miniscript prescribes for M: OP_0 and the SHA-256 of [translate M],
    with each key and key hash pushed where the translation has it.  It returns
    -1 exactly when a key cannot be derived.  The stack machine, its flag for
    the VERIFY forms and its tables of commands are thus equivalent to the
    recursive translation. *)
Theorem wsh_script_correct os J wdi out n f g items st :
  policy_ok n → node_flags n = Some f → all_nodes few_children n = true →
  Z.of_nat (height n) ≤ MAX_POLICY_DEPTH → translate n = Some items →
  get_wallet_script os J out (policy_node_with_script TOKEN_WSH g n) wdi st =
  attempt (realize os J wdi items) None (λ script, mret (Some ([OP_0; 32] ++ cx_sha256 os script))) st.
Proof.
  intros Hok Hf Hfew Hd Ht. destruct (emitted_translate n f) as [He _]; [by apply policy_ok_typed|].
  rewrite Ht in He. pose proof (script_hash_emitted os J wdi n items (Some []) st Hok Hfew Hd He) as Hrun.
  cbn [get_wallet_script]. rw /sh_wsh_script. revert Hrun. rw /attempt. unfold mbind, io_bind.
  destruct (get_wallet_internal_script_hash _ _ _ _ _ _ st) as [[[r o] st']| | |];
    destruct (realize os J wdi items st) as [[[d|] st'']| | |]; cbn; intros [=]; try done.
  - subst. rewrite /observe /= in H. destruct (r <? 0) eqn:E; by simplify_eq/=.
  - subst. rewrite /observe /failed /= in H. destruct (Z.ltb_spec r 0); [done|]. simplify_eq. lia.
  - by subst.
Qed.

(** A policy with thresh, v: and wrappers, on a device whose functions fail. *)
Definition failing_sdk : sdk :=
  mk_sdk (λ _, replicate 32 0) (λ _, replicate 20 0) (λ _ _, replicate 64 0) (λ _ _, replicate 32 0)
    (λ _ _, None) (λ _ _ _, None) (λ _ _ _, None) (λ _ _, None) (λ _ _, None) (λ _ _, None) (λ _, None) (λ _, None).
Definition sample_policy : policy_node :=
  inner_of "wsh(andor(pk(@0/**),thresh(2,pk(@1/**),s:pk(@2/**),sln:older(144)),and_v(v:pkh(@3/**),after(500))))".
Definition sample_script : list item := default [] (translate sample_policy).
Definition sample_wdi : wallet_derivation_info := mk_wdi 2 (replicate 32 0) 4 0 false.
Definition sample_junk : junk := mk_junk (replicate 200 0) (replicate 82 0) (replicate 65 0) 0.

Lemma wsh_script_correct_witness :
  get_wallet_script failing_sdk sample_junk [] (policy_node_with_script TOKEN_WSH None sample_policy) sample_wdi
    (sample_state 0 []) =
  attempt (realize failing_sdk sample_junk sample_wdi sample_script) None
    (λ script, mret (Some ([OP_0; 32] ++ cx_sha256 failing_sdk script))) (sample_state 0 []).
Proof.
  destruct (node_flags sample_policy) as [f|] eqn:Hf; [|vm_compute in Hf; discriminate Hf].
  apply (wsh_script_correct failing_sdk sample_junk sample_wdi [] sample_policy f None sample_script (sample_state 0 [])).
  - apply inner_of_ok. vm_compute. reflexivity.
  - exact Hf.
  - vm_compute. reflexivity.
  - vm_compute. discriminate.
  - vm_compute. reflexivity.
Defined.
