(* ===== verification/PolicySize.v ===== *)
(** * Wallet policies: the size of a script is the one of the analysis

    The analysis of wallet.c computes the size of the script of a miniscript
    expression and a flag x, whether its VERIFY form is longer, without
    building the script.  They are those of the translation of PolicyCompile.v,
    and so of what the stack machine of policy.c emits. *)

From Stdlib Require Ascii String.
Import String.StringSyntax Ascii.AsciiSyntax.
From S2P Require Import Prelude Bytes Bip32 Buffer Merkle Dispatcher MerkleClient Script Base58 Crypto PolicySyntax PolicyParser PolicyScript PolicyLogic PolicyTypes PolicyExtInfo PolicyThresh PolicyCompile PolicyMachine PolicyAnalysis.

(** ** Sizes of scripts *)
Definition item_size (i : item) : Z :=
  match i with
  | I_op _ => 1
  | I_push _ data => 1 + zlen data
  | I_num n => get_push_script_size n
  | I_key _ => 34
  | I_keyhash _ => 21
  end.
Fixpoint items_size (l : list item) : Z :=
  match l with [] => 0 | i :: l' => item_size i + items_size l' end.

(** Whether the VERIFY form has one more opcode. *)
Definition grows (l : list item) : bool :=
  match last l with Some (I_op op) => negb (has_verify op) | _ => true end.

Lemma items_size_app l l' : items_size (l ++ l') = items_size l + items_size l'.
Proof. induction l as [|i l IH]; cbn [items_size app]; [done|]. rw IH. lia. Qed.

Lemma verify_size l : items_size (verify l) = items_size l + Z.b2z (grows l).
Proof.
  induction l as [|i l IH]; [done|]. destruct l as [|j l].
  - rw /verify /grows. destruct i; cbn; try lia. by destruct (has_verify op).
  - rw verify_cons2. cbn [items_size] in *. rw IH. rw /grows last_cons_cons. lia.
Qed.

Lemma grows_app l l' : l' ≠ [] → grows (l ++ l') = grows l'.
Proof. intros Hl. rw /grows last_app. destruct (last l') eqn:E; [done|]. by apply last_None in E. Qed.

Lemma grows_cons i l : l ≠ [] → grows (i :: l) = grows l.
Proof. apply (grows_app [i]). Qed.

Lemma last_verify l : ∃ op, last (verify l) = Some (I_op op) ∧ has_verify op = false.
Proof.
  induction l as [|i l IH]; [by exists OP_VERIFY|]. destruct l as [|j l].
  - rw /verify. destruct i; cbn; try (by exists OP_VERIFY).
    destruct (has_verify op) eqn:E; [|by exists OP_VERIFY]. exists (op + 1). split; [done|].
    revert E. rw /has_verify !orb_true_iff !Z.eqb_eq. by intros [[[-> | ->] | ->] | ->].
  - rw verify_cons2. destruct (verify (j :: l)) eqn:E; [by apply verify_nonempty in E|]. done.
Qed.

Lemma grows_verify l : grows (verify l) = true.
Proof. rw /grows. destruct (last_verify l) as (op & -> & ->). done. Qed.

Lemma size_add_all ls : items_size (add_all ls) = foldr (λ l n, items_size l + n) 0 ls + Z.max 0 (zlen ls - 1).
Proof.
  destruct ls as [|x ls]; [done|]. cbn [add_all foldr]. rw items_size_app zlen_cons.
  assert (items_size (mjoin ((λ y, y ++ [I_op OP_ADD]) <$> ls)) = foldr (λ l n, items_size l + n) 0 ls + zlen ls) as ->.
  { induction ls as [|y ls IH]; [done|]. rw fmap_cons. cbn [mjoin list_join foldr].
    rw !items_size_app IH zlen_cons. cbn. lia. }
  pose proof (zlen_nonneg ls). lia.
Qed.

(** ** The analysis *)
Section sizes.
Context (shared : bool).
Local Notation ext := (compute_miniscript_policy_ext_info shared).

Definition sized (info : policy_node_ext_info) (items : list item) : Prop :=
  script_size info = u16 (items_size items) ∧ ei_x info = grows items.

Definition sizes_ok (n : policy_node) : Prop :=
  ∀ info mem mem' items, ext n mem = Val (Some (info, mem')) → translate n = Some items → sized info items.

Lemma mod16_eq a b : (∃ k, a = b + k * 65536) → u16 a = u16 b.
Proof. intros [k ->]. rw /u16. change (2 ^ 16) with 65536. by rw Z.mod_add. Qed.

Lemma u16_div a : u16 a = a + (- (a / 65536)) * 65536.
Proof. rw /u16. change (2 ^ 16) with 65536. pose proof (Z.div_mod a 65536). lia. Qed.

Lemma u16_u32 a b : u16 (u32 a + b) = u16 (a + b).
Proof.
  apply mod16_eq. exists (- (a / 2 ^ 32) * 65536). rw /u32. change (2 ^ 32) with 4294967296.
  pose proof (Z.div_mod a 4294967296). lia.
Qed.

(** Removes the truncations inside of a truncated sum. *)
Local Ltac u16_sums :=
  repeat match goal with
  | |- context [u16 ?e] =>
      match e with
      | context C [u16 ?a] =>
          let e' := context C [a] in
          replace (u16 e) with (u16 e') by (apply mod16_eq; exists (a / 65536); rewrite (u16_div a); lia)
      end
  end.

Local Ltac size_eq :=
  cbn [items_size item_size]; rewrite ?items_size_app; cbn [items_size item_size];
  rewrite ?items_size_app; cbn [items_size item_size]; u16_sums; f_equal; lia.
Local Ltac ends_with_op := rewrite /grows; repeat (rewrite last_app || rewrite last_cons); done.

Lemma sized_binary t fl n m f x y X Y items :
  ext_of_binary t = Some f → translate n = Some X → translate m = Some Y →
  translate (policy_node_with_script2 t fl n m) = Some items → sized x X → sized y Y → sized (f x y) items.
Proof.
  intros Hf Hn Hm Ht [Hx Hgx] [Hy Hgy]. pose proof (translate_nonempty _ _ Hm) as HY.
  cbn in Ht. rewrite Hn Hm /= in Ht.
  destruct t; try done; injection Hf as <-; injection Ht as <-; rw /sized;
    cbn [script_size ei_x ext_and_v ext_and_b ext_and_n ext_or_b ext_or_c ext_or_d ext_or_i].
  all: rw ?Hx ?Hy; split; [size_eq|try ends_with_op].
  by rw grows_app.
Qed.

Lemma sized_wrapper t fl n f x X items :
  ext_of_wrapper t = Some f → translate n = Some X →
  translate (policy_node_with_script t fl n) = Some items → sized x X → sized (f x) items.
Proof.
  intros Hf Hn Ht [Hx Hgx]. pose proof (translate_nonempty _ _ Hn) as HX. cbn in Ht. rewrite Hn /= in Ht.
  destruct t; try done; injection Hf as <-; injection Ht as <-; rw /sized;
    cbn [script_size ei_x ext_a ext_s ext_n ext_c ext_d ext_t ext_v ext_j ext_l wrapped].
  all: rw ?Hx; split; [try size_eq|try ends_with_op].
  - by rw grows_cons.
  - rw Hgx u16_add verify_size //.
  - by rw grows_verify.
Qed.

Lemma sized_andor x y z X Y Z :
  sized x X → sized y Y → sized z Z →
  sized (ext_andor x y z) (X ++ [I_op OP_NOTIF] ++ Z ++ [I_op OP_ELSE] ++ Y ++ [I_op OP_ENDIF]).
Proof.
  intros [Hx _] [Hy _] [Hz _]. rw /sized. cbn [script_size ei_x ext_andor]. rw Hx Hy Hz.
  split; [size_eq|ends_with_op].
Qed.

(** The loop over the children of thresh. *)
Lemma scan_size k l a a' ls mem mem' :
  (∀ x, x ∈ l → sizes_ok x) → thresh_scan ext k l a mem = Val (Some (a', mem')) →
  sequence (translate <$> l) = Some ls →
  u16 (children_scriptsize a') = u16 (children_scriptsize a + foldr (λ l n, items_size l + n) 0 ls) ∧ zlen ls = zlen l.
Proof.
  revert a mem ls. induction l as [|x l IH]; intros a mem ls Hl H Hls.
  { injection H as <- <-. injection Hls as <-. by rw Z.add_0_r. }
  cbn [thresh_scan] in H. rewrite /mbind /analysis_bind in H.
  destruct (ext x mem) as [[[t mem1]|]| | |] eqn:Hx; try done.
  rewrite fmap_cons in Hls. cbn [sequence] in Hls.
  destruct (translate x) as [X|] eqn:EX; [|done]. cbn [mbind option_bind] in Hls.
  destruct (sequence _) as [ls'|] eqn:Els; [|done]. injection Hls as <-.
  destruct (Hl x ltac:(by left) _ _ _ _ Hx EX) as [Hs _].
  destruct (IH _ _ _ ltac:(intros y Hy; apply Hl; by right) H eq_refl) as [IHs IHz].
  rw IHs !zlen_cons IHz. split; [|done]. cbn [children_scriptsize thresh_acc_step foldr].
  rw Hs u16_u32. u16_sums. f_equal. lia.
Qed.

Lemma sized_thresh f k l items :
  (∀ x, x ∈ l → sizes_ok x) → 1 ≤ zlen l → 
  translate (policy_node_thresh TOKEN_THRESH f k l) = Some items →
  ∀ info mem mem', ext_thresh shared ext k l mem = Val (Some (info, mem')) → sized info items.
Proof.
  intros Hl Hz Ht info mem mem' H. cbn in Ht. destruct (sequence _) as [ls|] eqn:Els; [|done]. injection Ht as <-.
  rewrite /ext_thresh in H. inv_analysis H. destruct (scan_size _ _ _ _ _ _ _ Hl Ha Els) as [Hs Hn].
  inv_analysis H. inv_analysis H. injection H as <- <-. cbn in Hs. split; [|ends_with_op].
  cbn [script_size]. rw items_size_app size_add_all Hn. cbn [items_size item_size].
  rw -Z.add_assoc -u16_add Hs. u16_sums. f_equal. lia.
Qed.

Local Ltac node_analysis H :=
  cbn in H; match type of H with context [match ?f with Some _ => _ | None => _ end] => destruct f; [|done] end.

Lemma size_multi kps : items_size (I_key <$> kps) = 34 * zlen kps.
Proof. induction kps as [|kp kps IH]; [done|]. rw fmap_cons zlen_cons. cbn [items_size item_size]. lia. Qed.

Lemma sizes_correct n : policy_ok n → sizes_ok n.
Proof.
  induction n as [n IH] using policy_node_children_ind. intros Hok.
  assert (∀ c, child c n → sizes_ok c) as Hch by (intros c Hc; apply IH; [done|by eapply policy_ok_child]).
  destruct (Hok n (sub_refl n)) as [_ Hb]. clear IH Hok. intros info mem mem' items H Ht.
  destruct n as [t f|t f x|t f x y|t f x y z|t f kp|t f k|t f k kps|t f k l|t f h|t f h|t f kp tree]; node_analysis H.
  - apply analysis_of_Some in H. destruct t; cbn in H, Ht; simplify_eq; split; reflexivity.
  - destruct (ext_of_wrapper t) eqn:E; [|done]. inv_analysis H. injection H as <- <-.
    destruct (translate x) as [X|] eqn:EX; [|cbn in Ht; by rewrite EX in Ht].
    eapply sized_wrapper; [exact E|exact EX|exact Ht|]. eapply Hch; [constructor|done..].
  - destruct (ext_of_binary t) eqn:E; [|done]. inv_analysis H. inv_analysis H. injection H as <- <-.
    destruct (translate x) as [X|] eqn:EX; [|cbn in Ht; by rewrite EX in Ht].
    destruct (translate y) as [Y|] eqn:EY; [|cbn in Ht; by rewrite EX EY in Ht].
    eapply sized_binary; [exact E|exact EX|exact EY|exact Ht|eapply Hch; [constructor|done..]|eapply Hch; [|done..]; apply child_script2_2].
  - destruct t; try done. inv_analysis H. inv_analysis H. inv_analysis H. injection H as <- <-. cbn in Ht.
    destruct (translate x) as [X|] eqn:EX; [|done]. destruct (translate y) as [Y|] eqn:EY; [|done].
    destruct (translate z) as [Z|] eqn:EZ; [|done]. injection Ht as <-.
    apply sized_andor; (eapply Hch; [|done..]);
      [apply child_script3_1|apply child_script3_2|apply child_script3_3].
  - apply analysis_of_Some in H. destruct t; cbn in H, Ht; simplify_eq; split; reflexivity.
  - apply analysis_of_Some in H. destruct t; cbn in H, Ht; simplify_eq; (split; [cbn [script_size ext_older ext_after]; size_eq|ends_with_op]).
  - destruct t; try done. injection H as <- <-. injection Ht as <-. cbn in Hb. unfold MAX_PUBKEYS_PER_MULTISIG in Hb.
    split; [|ends_with_op]. rw /ext_multi. cbn [script_size items_size item_size].
    rw items_size_app size_multi. cbn [items_size item_size small_num]. rw /get_push_script_size.
    rw (proj2 (Z.leb_le k 16)); [|lia]. rw (proj2 (Z.leb_le (zlen kps) 16)); [|lia]. f_equal. lia.
  - destruct t; try done. cbn in Hb. eapply (sized_thresh _ k l); [|lia|exact Ht|exact H]. intros x Hx. apply Hch. by constructor.
  - apply analysis_of_Some in H. destruct t; cbn in H, Ht; simplify_eq; cbn in Hb; destruct Hb as [Hh _]; (split; [|done]);
      rw /hash_check; cbn [items_size item_size]; rw Hh; done.
  - apply analysis_of_Some in H. destruct t; cbn in H, Ht; simplify_eq; cbn in Hb; destruct Hb as [Hh _]; (split; [|done]);
      rw /hash_check; cbn [items_size item_size]; rw Hh; done.
  - done.
Qed.
End sizes.

(** ** The lengths of keys *)

(** What an accepting parser returns. *)
Definition returns {A} (m : parser A) (Q : A → Prop) : Prop := ∀ st a st', m st = Val (Some (a, st')) → Q a.

Lemma returns_bind {A B} (m : parser A) (f : A → parser B) Q : (∀ a, returns (f a) Q) → returns (m ≫= f) Q.
Proof.
  intros Hf st b st' H. rewrite /mbind /parser_bind in H.
  destruct (m st) as [[[a st1]|]| | |]; try done. by eapply Hf.
Qed.

Lemma returns_bind_strong {A B} (m : parser A) (f : A → parser B) P Q :
  returns m P → (∀ a, P a → returns (f a) Q) → returns (m ≫= f) Q.
Proof.
  intros Hm Hf st b st' H. rewrite /mbind /parser_bind in H.
  destruct (m st) as [[[a st1]|]| | |] eqn:E; try done. eapply Hf; [by eapply Hm|done].
Qed.

Lemma returns_ret {A} (a : A) (Q : A → Prop) : Q a → returns (mret a) Q.
Proof. intros HQ st b st' H. by injection H as <- <-. Qed.

Lemma returns_fail {A} (Q : A → Prop) : returns fail Q.
Proof. by intros st a st' H. Qed.

Lemma returns_outcome {A} (m : outcome A) (Q : A → Prop) : (∀ a, m = Val a → Q a) → returns (lift_outcome m) Q.
Proof.
  intros HQ st a st' H. rewrite /lift_outcome in H. destruct m; try done. injection H as <- <-. by apply HQ.
Qed.

Lemma decode_pubkey_length sha256 uninit text :
  78 ≤ zlen uninit → returns (decode_pubkey sha256 uninit text) (λ l, zlen l = 78).
Proof.
  intros Hu. rw /decode_pubkey. do 3 (apply returns_bind; intros ?). destruct a1 as [out|]; [|apply returns_fail].
  apply (returns_bind_strong _ _ (λ c, zlen c = zlen uninit)); [by apply returns_outcome; intros ?; apply stores_length|].
  intros check Hc. apply returns_bind. intros _. apply returns_ret.
  change 78%nat with (Z.to_nat 78). rw zlen_take; lia.
Qed.

Lemma key_info_length sha256 uninit version :
  78 ≤ zlen uninit → returns (parse_policy_map_key_info sha256 uninit version) (λ k, zlen (ext_pubkey k) = 78).
Proof.
  intros Hu. rw /parse_policy_map_key_info. do 4 (apply returns_bind; intros ?).
  eapply returns_bind_strong; [by apply decode_pubkey_length|]. intros pubkey Hp. apply returns_bind. intros more.
  destruct (negb more).
  - destruct (_ =? _); [apply returns_fail|by apply returns_ret].
  - destruct (_ =? _); [apply returns_fail|]. do 3 (apply returns_bind; intros ?). by apply returns_ret.
Qed.

Section lengths.
Context (os : sdk) (J : junk) (wdi : wallet_derivation_info).

(** The lengths of the results of the operating system's functions and of an
    array of the code. *)
Record lengths_ok : Prop := mk_lengths_ok {
  ripemd160_length : ∀ l, zlen (cx_ripemd160 os l) = 20;
  point_length : ∀ P Q R, cx_ecfp_add_point os P Q = Some R → zlen R = 65;
  check_length : zlen (junk_check J) = 82
}.
Hypothesis (Hos : lengths_ok).

Lemma compressed_length K k : zlen K = 65 → crypto_get_compressed_pubkey K = Some k → zlen k = 33.
Proof.
  intros HK. rw /crypto_get_compressed_pubkey. case_match; [done|]. intros [= <-].
  rw zlen_cons slice_zlen; lia.
Qed.

Lemma child_key_length parent index child :
  zlen (compressed_pubkey child) = 33 →
  zlen (compressed_pubkey (bip32_CKDpub os (junk_point J) parent index child).2) = 33.
Proof.
  intros Hc. rw /bip32_CKDpub. repeat (case_match; try done). cbn.
  match goal with H : cx_ecfp_add_point _ _ _ = Some ?K |- _ =>
    pose proof (point_length Hos _ _ _ H); destruct (crypto_get_compressed_pubkey K) as [k|] eqn:E end; [|done].
  cbn. by eapply compressed_length.
Qed.

Lemma derived_key_length kp st key st' :
  get_derived_pubkey os J wdi kp st = Val (Some key, st') → zlen key = 33.
Proof.
  rw /get_derived_pubkey /get_extended_pubkey. unfold mbind, io_bind.
  destruct (call_get_merkle_leaf_element _ _ _ _ _ st) as [[[len text] st1]| | |]; try done.
  destruct (len =? -1); [done|]. rw /lift. unfold mbind, outcome_bind.
  destruct (parse_policy_map_key_info _ _ _ _) as [[[k s]|]| | |] eqn:E; try done.
  apply key_info_length in E; [|rw (check_length Hos); lia]. cbn.
  assert (zlen (compressed_pubkey (xpub_of_bytes (ext_pubkey k))) = 33) as Hk by (cbn; rw slice_zlen; lia).
  pose proof (child_key_length (xpub_of_bytes (ext_pubkey k))
    (if wdi_change wdi then num_second kp else num_first kp) _ Hk) as Hk1.
  destruct (bip32_CKDpub _ _ _ _ _) as [r1 c1]. pose proof (child_key_length c1 (wdi_address_index wdi) c1 Hk1) as Hk2.
  destruct (bip32_CKDpub _ _ _ _ _) as [r2 c2]. intros [= <- _]. exact Hk2.
Qed.

(** *** The bytes of a script have its size *)
Definition item_ok (i : item) : Prop := match i with I_num n => 0 ≤ n < 2 ^ 32 | _ => True end.

Lemma realize_item_length i st d st' :
  item_ok i → realize_item os J wdi i st = Val (Some d, st') → zlen d = item_size i.
Proof.
  intros Hi. destruct i as [op|n data|n|kp|kp]; cbn [realize_item]; try (intros [= <- _]; cbn; zlia).
  - intros [= <- _]. by apply push_script_zlen.
  - rw /attempt. unfold mbind, io_bind. destruct (get_derived_pubkey _ _ _ _ _) as [[[key|] st1]| | |] eqn:E; try done.
    intros [= <- _]. apply derived_key_length in E. by rw zlen_cons E.
  - rw /attempt. unfold mbind, io_bind. destruct (get_derived_pubkey _ _ _ _ _) as [[[key|] st1]| | |] eqn:E; try done.
    intros [= <- _]. rw zlen_cons (ripemd160_length Hos). done.
Qed.

Lemma realize_length l st d st' :
  Forall item_ok l → realize os J wdi l st = Val (Some d, st') → zlen d = items_size l.
Proof.
  intros Hl. revert st d. induction Hl as [|i l Hi Hl IH]; intros st d; [by intros [= <- _]|].
  cbn [realize]. rw /attempt. unfold mbind, io_bind.
  destruct (realize_item os J wdi i st) as [[[a|] st1]| | |] eqn:Ea; try done.
  destruct (realize os J wdi l st1) as [[[b|] st2]| | |] eqn:Eb; try done. intros [= <- ->].
  rw zlen_app (realize_item_length i st a st1) // (IH st1 b) //.
Qed.
End lengths.

Lemma verify_item_ok l : Forall item_ok l → Forall item_ok (verify l).
Proof.
  induction 1 as [|i l Hi Hl IH]; [by repeat constructor|]. destruct l as [|j l].
  - rw /verify. destruct i; try destruct (has_verify op); repeat (apply Forall_cons_2 || apply Forall_nil_2); done.
  - rw verify_cons2. by constructor.
Qed.

Ltac items_ok :=
  repeat first [apply Forall_app_2 | apply Forall_cons_2 | apply Forall_nil_2 | apply verify_item_ok]; try done.

Lemma add_all_item_ok ls : Forall (Forall item_ok) ls → Forall item_ok (add_all ls).
Proof.
  destruct 1 as [|x ls Hx Hls]; [constructor|]. cbn. apply Forall_app_2; [done|].
  induction Hls; [constructor|]. rw fmap_cons. cbn. items_ok.
Qed.

Lemma sequence_Forall {A B} (g : A → option B) l ls (P : B → Prop) :
  sequence (g <$> l) = Some ls → (∀ a b, a ∈ l → g a = Some b → P b) → Forall P ls.
Proof.
  revert ls. induction l as [|a l IH]; intros ls H HP; [by injection H as <-|].
  rewrite fmap_cons in H. cbn in H. destruct (g a) as [b|] eqn:Eb; [|done]. cbn in H.
  destruct (sequence _) as [ls'|]; [|done]. injection H as <-.
  constructor; [apply (HP a); [by left|done]|]. apply IH; [done|]. intros a' b' Ha'. apply HP. by right.
Qed.

Lemma translate_item_ok n items : policy_ok n → translate n = Some items → Forall item_ok items.
Proof.
  revert items. induction n as [n IH] using policy_node_children_ind. intros items Hok Ht.
  assert (∀ c X, child c n → translate c = Some X → Forall item_ok X) as Hch
    by (intros c X Hc; apply IH; [done|by eapply policy_ok_child]).
  destruct (Hok n (sub_refl n)) as [_ Hb]. clear IH Hok.
  destruct n as [t f|t f x|t f x y|t f x y z|t f kp|t f k|t f k kps|t f k l|t f h|t f h|t f kp tree];
    cbn in Ht; cbn in Hb.
  - destruct t; simplify_eq; items_ok.
  - destruct (translate x) as [X|] eqn:EX; [|done]. pose proof (Hch x X ltac:(constructor) EX).
    destruct t; simplify_eq/=; items_ok.
  - destruct (translate x) as [X|] eqn:EX; [|done]. pose proof (Hch x X ltac:(constructor) EX).
    destruct (translate y) as [Y|] eqn:EY; [|done]. pose proof (Hch y Y ltac:(apply child_script2_2) EY).
    destruct t; simplify_eq/=; items_ok.
  - destruct t; try done. destruct (translate x) as [X|] eqn:EX; [|done]. pose proof (Hch x X ltac:(constructor) EX).
    destruct (translate y) as [Y|] eqn:EY; [|done]. pose proof (Hch y Y ltac:(apply child_script3_2) EY).
    destruct (translate z) as [Z|] eqn:EZ; [|done]. pose proof (Hch z Z ltac:(apply child_script3_3) EZ).
    simplify_eq/=; items_ok.
  - destruct t; simplify_eq; items_ok.
  - destruct t; simplify_eq; items_ok; cbn; lia.
  - destruct t; simplify_eq; items_ok. apply Forall_fmap, Forall_true. done.
  - destruct t; try done. destruct (sequence _) as [ls|] eqn:Els; [|done]. cbn in Ht. simplify_eq.
    unfold INT16_MAX in Hb. apply Forall_app_2; [|items_ok; cbn; lia]. apply add_all_item_ok.
    apply (sequence_Forall translate _ _ _ Els). intros x X Hx. apply Hch. by constructor.
  - destruct t; simplify_eq; items_ok.
  - destruct t; simplify_eq; items_ok.
  - by destruct t.
Qed.

(** C20: the size of the script.  When the machine of policy.c emits the script
    of a miniscript expression, the length it returns is the size that the
    analysis of wallet.c computed for the expression (both modulo 2^16), with
    keys of 33 bytes and key hashes of 20; and the flag x of the analysis says
    whether the VERIFY form of the script is one byte longer. *)
Theorem script_size_correct os J wdi shared n f items info mem mem' out st r out' st' :
  lengths_ok os J → policy_ok n → node_flags n = Some f → all_nodes few_children n = true →
  Z.of_nat (height n) ≤ MAX_POLICY_DEPTH → translate n = Some items →
  compute_miniscript_policy_ext_info shared n mem = Val (Some (info, mem')) →
  get_wallet_internal_script_hash os J n wdi WRAPPED_SCRIPT_TYPE_WSH out st = Val ((r, out'), st') → 0 ≤ r →
  r = script_size info ∧ items_size (verify items) = items_size items + Z.b2z (ei_x info).
Proof.
  intros Hos Hok Hf Hfew Hd Ht Hext Hrun Hr. destruct (emitted_translate n f) as [He _]; [by apply policy_ok_typed|].
  rewrite Ht in He. destruct (sizes_correct shared n Hok _ _ _ _ Hext Ht) as [-> ->].
  split; [|apply verify_size]. pose proof (script_hash_emitted os J wdi n items out st Hok Hfew Hd He) as H.
  revert H. rw /attempt. unfold mbind, io_bind. rw Hrun /observe /= (proj2 (Z.ltb_ge _ _)) //.
  destruct (realize os J wdi items st) as [[[d|] st1]| | |] eqn:E; cbn; intros [=]; [|lia].
  subst. f_equal. eapply (realize_length os J wdi Hos); [|exact E]. by eapply translate_item_ok.
Qed.

(** A script without keys. *)
Definition timelocked : policy_node := inner_of "wsh(and_v(v:older(1000),after(500000)))".

Lemma script_size_correct_witness :
  ∃ info out' st', get_wallet_internal_script_hash failing_sdk sample_junk timelocked sample_wdi
      WRAPPED_SCRIPT_TYPE_WSH (Some []) (sample_state 0 []) = Val ((script_size info, Some out'), st') ∧
    script_size info = 10 ∧ zlen out' = 10.
Proof.
  destruct (node_flags timelocked) as [f|] eqn:Hf; [|vm_compute in Hf; discriminate Hf].
  destruct (translate timelocked) as [items|] eqn:Ht; [|vm_compute in Ht; discriminate Ht].
  destruct (compute_miniscript_policy_ext_info false timelocked []) as [[[info mem]|]| | |] eqn:He;
    try (vm_compute in He; discriminate He).
  destruct (get_wallet_internal_script_hash failing_sdk sample_junk timelocked sample_wdi
    WRAPPED_SCRIPT_TYPE_WSH (Some []) (sample_state 0 [])) as [[[r [out'|]] st']| | |] eqn:Hr;
    try (vm_compute in Hr; discriminate Hr).
  assert (r = 10 ∧ zlen out' = 10) as [Hr10 Ho] by (vm_compute in Hr; injection Hr as <- <- _; split; vm_compute; reflexivity).
  exists info, out', st'.
  destruct (script_size_correct failing_sdk sample_junk sample_wdi false timelocked f items info [] mem (Some [])
    (sample_state 0 []) r (Some out') st') as [Hsize _];
    [split; [by intros|by intros|done]|apply inner_of_ok; vm_compute; reflexivity|exact Hf|vm_compute; reflexivity
    |vm_compute; discriminate|exact Ht|exact He|exact Hr|rewrite Hr10; done|].
  rewrite -Hsize -Hr10. split; [reflexivity|]. split; [reflexivity|]. by rewrite Ho.
Defined.
