(* ===== verification/PolicySorted.v ===== *)
(** * Wallet policies: sorted multisigs

    Theorems on the multisig processors of PolicyScript.v.  sortedmulti and
    sortedmulti_a do not keep the keys in memory: in each round they derive all
    the keys that are not marked in a bit vector, and output the smallest.  The
    derivations are asked to [derive_key]; the hypothesis on it is that an
    accepted answer is the key of the placeholder, which the Merkle proof of the
    key information guarantees for [get_derived_pubkey]. *)

From Stdlib Require Ascii String.
Import String.StringSyntax Ascii.AsciiSyntax.
From stdpp Require Import sorting.
From S2P Require Import Prelude Bytes Bip32 Buffer Merkle Dispatcher MerkleClient Script Base58 Crypto PolicySyntax PolicyParser PolicyScript PolicyLogic PolicyTypes PolicyExtInfo PolicyThresh PolicyCompile PolicyMachine.

(** ** The order of keys *)
Lemma cmp_arrays_refl a : cmp_arrays a a = 0.
Proof. induction a as [|x a IH]; [done|]. cbn. by rw Z.sub_diag. Qed.

Lemma cmp_arrays_sign a b : Z.sgn (cmp_arrays b a) = - Z.sgn (cmp_arrays a b).
Proof.
  revert b. induction a as [|x a IH]; intros [|y b]; [done..|]. cbn.
  destruct (Z.eqb_spec (x - y) 0), (Z.eqb_spec (y - x) 0); cbn; try lia. apply IH.
Qed.

Lemma cmp_arrays_trans a b c :
  length a = length b → length b = length c → cmp_arrays a b ≤ 0 → cmp_arrays b c ≤ 0 → cmp_arrays a c ≤ 0.
Proof.
  revert b c. induction a as [|x a IH]; intros [|y b] [|z c] Hab Hbc; try done. cbn.
  destruct (Z.eqb_spec (x - y) 0), (Z.eqb_spec (y - z) 0), (Z.eqb_spec (x - z) 0); cbn; try lia.
  injection Hab as Hab. injection Hbc as Hbc. by apply IH.
Qed.

(** The number of differences decides equality. *)
Lemma cmp_arrays_eq a b : length a = length b → cmp_arrays a b = 0 → a = b.
Proof.
  revert b. induction a as [|x a IH]; intros [|y b] Hab; try done. cbn.
  destruct (Z.eqb_spec (x - y) 0); cbn; [|lia]. intros Hc. injection Hab as Hab.
  rw (IH b) //. f_equal. lia.
Qed.

(** ** Asking for keys *)
Section sorted.
Context (derive_key : policy_node_key_placeholder → io (option (list Z))).

Fixpoint ask (kps : list policy_node_key_placeholder) : io (option ()) :=
  match kps with
  | [] => mret (Some ())
  | kp :: kps' => attempt (derive_key kp) None (λ _, ask kps')
  end.

Lemma ask_app {B} kps kps' (err : B) k st :
  attempt (ask (kps ++ kps')) err k st = attempt (ask kps) err (λ _, attempt (ask kps') err k) st.
Proof.
  revert st. induction kps as [|kp kps IH]; intros st; [done|]. cbn [ask app]. rw !attempt_attempt.
  apply attempt_ext. intros a st'. apply IH.
Qed.

Context (key : policy_node_key_placeholder → list Z) (cmp : list Z → list Z → Z).
Hypothesis (Hkey : ∀ kp st k st', derive_key kp st = Val (Some k, st') → k = key kp).

Lemma gen_lift_Val {A B} (m : outcome A) a (g : A → gen B) s st :
  m = Val a → (r ← from_io (lift m); g r) s st = g a s st.
Proof. by intros ->. Qed.

(** *** One round *)

(** The keys that are not marked, with their indices, and the choice of one. *)
Fixpoint unused (f : Z → bool) (kps : list policy_node_key_placeholder) (j : Z)
    : list (Z * policy_node_key_placeholder) :=
  match kps with
  | [] => []
  | kp :: kps' => if f j then unused f kps' (j + 1) else (j, kp) :: unused f kps' (j + 1)
  end.
Fixpoint select (l : list (Z * policy_node_key_placeholder)) (best : list Z) (index : Z) : list Z * Z :=
  match l with
  | [] => (best, index)
  | (j, kp) :: l' => if 0 <? cmp best (key kp) then select l' (key kp) j else select l' best index
  end.

(** The marks of a bit vector. *)
Definition marks (used : list Z) (n : Z) (f : Z → bool) : Prop :=
  ∀ j, 0 ≤ j < n → bitvector_get used j = Val (f j).

Lemma smallest_key_spec used n f kps j best index s st :
  marks used n f → 0 ≤ j → j + zlen kps ≤ n →
  smallest_key derive_key cmp used kps j best index s st =
  attempt (ask (unused f kps j).*2) (None, s) (λ _, mret (Some (select (unused f kps j) best index), s)) st.
Proof.
  intros Hf. revert j best index st. induction kps as [|kp kps IH]; intros j best index st Hj Hn; [done|].
  rewrite zlen_cons in Hn. pose proof (zlen_nonneg kps). cbn [smallest_key unused].
  rw (gen_lift_Val _ _ _ _ _ (Hf j ltac:(lia))). destruct (f j); [rw IH //; lia|].
  rw fmap_cons. cbn [ask snd]. rw attempt_attempt. unfold mbind, gen_bind, derive, from_io, attempt at 1, mbind, io_bind.
  destruct (derive_key kp st) as [[[k|] st']| | |] eqn:E; [|done..]. apply Hkey in E. subst k. cbn [mret io_ret fst snd select].
  destruct (0 <? cmp best (key kp)); rw IH //; lia.
Qed.

Lemma unused_mark f i kps j :
  unused (λ k, if decide (i = k) then true else f k) kps j = filter (λ p, p.1 ≠ i) (unused f kps j).
Proof.
  revert j. induction kps as [|kp kps IH]; intros j; [done|]. cbn [unused]. destruct (decide (i = j)) as [<-|Hij].
  - rw IH. destruct (f i); [done|]. rw filter_cons_False //. naive_solver.
  - destruct (f j); [done|]. rw filter_cons_True //. by rw IH.
Qed.

Lemma unused_index f kps j p : p ∈ unused f kps j → j ≤ p.1 < j + zlen kps.
Proof.
  revert j. induction kps as [|kp kps IH]; intros j; [by intros ?%not_elem_of_nil|]. rw zlen_cons. cbn [unused].
  pose proof (zlen_nonneg kps).
  destruct (f j); [|intros [-> | Hp]%elem_of_cons; [cbn; lia|]]; try (intros Hp); specialize (IH _ Hp); lia.
Qed.

Lemma unused_NoDup f kps j : NoDup (unused f kps j).*1.
Proof.
  revert j. induction kps as [|kp kps IH]; intros j; [constructor|]. cbn [unused]. destruct (f j); [done|].
  rw fmap_cons. constructor; [|done]. intros ([i kp'] & Hi & Hp)%list_elem_of_fmap_1.
  apply unused_index in Hp. cbn in *. lia.
Qed.

Lemma unused_subset f kps j : (unused f kps j).*2 ⊆ kps.
Proof.
  revert j. induction kps as [|kp kps IH]; intros j; [done|]. cbn [unused].
  specialize (IH (j + 1)). destruct (f j); [set_solver|]. rw fmap_cons. set_solver.
Qed.

(** The choice is a key that is not larger than the others. *)
Definition le (a b : list Z) : Prop := cmp a b ≤ 0.
Context (ok : list Z → Prop).
Hypothesis (le_total : ∀ a b, ok a → ok b → 0 < cmp a b → le b a).
Hypothesis (le_trans : ∀ a b c, ok a → ok b → ok c → le a b → le b c → le a c).
Hypothesis (le_refl : ∀ a, ok a → le a a).
Hypothesis (Hok : ∀ kp, ok (key kp)).

Lemma select_spec l best index b i :
  ok best → select l best index = (b, i) →
  ok b ∧ le b best ∧ (∀ p, p ∈ l → le b (key p.2)) ∧
  ((b, i) = (best, index) ∨ ∃ kp, (i, kp) ∈ l ∧ b = key kp).
Proof.
  revert best index. induction l as [|[j kp] l IH]; intros best index Hb H.
  { injection H as <- <-. split_and!; [done|by apply le_refl|by intros ? ?%not_elem_of_nil|by left]. }
  cbn in H. destruct (Z.ltb_spec 0 (cmp best (key kp))) as [Hlt|Hge].
  - destruct (IH _ _ (Hok kp) H) as (Hb' & Hle & Hall & Hin). split_and!; [done|eauto| |].
    + intros p [-> | Hp]%elem_of_cons; [done|by apply Hall].
    + right. destruct Hin as [[= -> ->] | (kp' & ? & ?)]; [exists kp|exists kp']; split; try done; [by left|by right].
  - destruct (IH _ _ Hb H) as (Hb' & Hle & Hall & Hin). split_and!; [done|done| |].
    + intros p [-> | Hp]%elem_of_cons; [|by apply Hall]. by apply (le_trans _ best).
    + destruct Hin as [? | (kp' & ? & ?)]; [by left|right]. exists kp'. split; [by right|done].
Qed.

(** *** All the rounds *)
Lemma filter_all {A} (P : A → Prop) `{∀ x, Decision (P x)} (l : list A) : (∀ x, x ∈ l → P x) → filter P l = l.
Proof.
  induction l as [|x l IH]; intros HP; [done|]. rw filter_cons_True; [|apply HP; by left].
  rw IH //. intros y Hy. apply HP. by right.
Qed.

Lemma remove_Permutation (l : list (Z * policy_node_key_placeholder)) i kp :
  NoDup l.*1 → (i, kp) ∈ l → l ≡ₚ (i, kp) :: filter (λ p, p.1 ≠ i) l.
Proof.
  induction l as [|[j kp'] l IH]; intros Hnd Hin; [by apply not_elem_of_nil in Hin|].
  rewrite fmap_cons in Hnd. apply NoDup_cons in Hnd as [Hj Hnd]. apply elem_of_cons in Hin as [[= -> ->]|Hin].
  - rw filter_cons_False; [|by intros ?]. f_equiv. rw filter_all //.
    intros p Hp Heq. apply Hj. cbn. rw -Heq. by apply list_elem_of_fmap_2.
  - rw filter_cons_True; [|cbn; intros ->; apply Hj; by apply (list_elem_of_fmap_2 fst _ (i, kp))].
    rw {1}(IH Hnd Hin). apply perm_swap.
Qed.

Context (em : Z → list Z → gen ()) (em_bytes : Z → list Z → list Z).
Hypothesis (Hem : ∀ i k, emits (em i k) (em_bytes i k)).
Hypothesis (Hinit : ok (replicate 33 0xFF) ∧ ∀ kp, 0 < cmp (replicate 33 0xFF) (key kp)).

(** The output of keys, from the [i]-th one. *)
Fixpoint keys_bytes (i : Z) (ks : list (list Z)) : list Z :=
  match ks with [] => [] | k :: ks' => em_bytes i k ++ keys_bytes (i + 1) ks' end.

Definition keys_of (l : list (Z * policy_node_key_placeholder)) : list (list Z) := (λ p, key p.2) <$> l.

Lemma select_smallest l b i :
  l ≠ [] → select l (replicate 33 0xFF) (-1) = (b, i) →
  ∃ kp, (i, kp) ∈ l ∧ b = key kp ∧ ∀ p, p ∈ l → le b (key p.2).
Proof.
  destruct Hinit as [Hi Hlt]. intros Hl H. destruct (select_spec _ _ _ _ _ Hi H) as (_ & _ & Hall & [Heq|(kp&?&?)]).
  - assert (b = replicate 33 0xFF) as -> by exact (f_equal fst Heq).
    destruct l as [|p l]; [done|]. specialize (Hall p ltac:(by left)). specialize (Hlt p.2). unfold le in Hall. lia.
  - by exists kp.
Qed.

Lemma set_mark used n f i :
  marks used n f → 0 ≤ i < n → i / 8 < zlen used →
  ∃ used', bitvector_set used i true = Val used' ∧ zlen used' = zlen used ∧
    marks used' n (λ k, if decide (i = k) then true else f k).
Proof.
  intros Hf Hi Hlen. assert (0 ≤ i / 8) by (apply Z.div_pos; lia).
  destruct (load_in_range used (i / 8)) as (b & Hb & _); [lia|].
  assert (∃ used', bitvector_set used i true = Val used' ∧ zlen used' = zlen used) as (used' & Hs & Hz).
  { rw /bitvector_set Hb /= /store decide_True; [|lia]. eexists. split; [done|]. by rw /zlen length_insert. }
  exists used'. split_and!; [done..|]. intros j Hj. rw (bitvector_set_get used used' i j true) //; [|lia..].
  case_decide; [done|]. by apply Hf.
Qed.

Lemma sorted_round all r rounds f used used' b j i d0 s st :
  marks used (zlen all) f → select (unused f all 0) (replicate 33 0xFF) (-1) = (b, j) →
  0 ≤ j < 2 ^ 32 → bitvector_set used j true = Val used' → ps_nodes s ≠ [] →
  multisig_loop derive_key true cmp em all (r :: rounds) i used (emit d0 s) st =
  attempt (ask (unused f all 0).*2) (-1, emit d0 s)
    (λ _, multisig_loop derive_key true cmp em all rounds (i + 1) used' (emit (d0 ++ em_bytes i b) s)) st.
Proof.
  intros Hf Hsel Hj Hset Hs.
  pose proof (smallest_key_spec used (zlen all) f all 0 (replicate 33 0xFF) (-1) (emit d0 s) st Hf
    ltac:(lia) ltac:(lia)) as Hk.
  cbn [multisig_loop]. revert Hk. rw Hsel /attempt. unfold mbind, gen_bind, mbind, io_bind. intros ->.
  destruct (ask (unused f all 0).*2 st) as [[[[]|] st1]| | |]; [|done..]. cbn [fst snd mret io_ret].
  rw u32_small // /from_io /lift Hset. unfold mbind, io_bind, outcome_bind. cbn [fst snd mret io_ret outcome_ret gen_ret].
  rw Hem; [|by apply emit_nonempty]. by rw emit_emit.
Qed.

Lemma sorted_rounds all rounds f used :
  marks used (zlen all) f → zlen used = 2 → zlen all ≤ 16 → length rounds = length (unused f all 0) →
  ∃ Q ks, ks ≡ₚ keys_of (unused f all 0) ∧ StronglySorted le ks ∧ Q ⊆ all ∧
    ∀ i d0 s st, ps_nodes s ≠ [] → ∃ s',
      multisig_loop derive_key true cmp em all rounds i used (emit d0 s) st =
      attempt (ask Q) (-1, s') (λ _, mret (1, emit (d0 ++ keys_bytes i ks) s)) st.
Proof.
  revert f used. induction rounds as [|r rounds IH]; intros f used Hf Hlen Hall Hr.
  { exists [], []. destruct (unused f all 0); [|done]. split_and!; [done|constructor|set_solver|].
    intros i d0 s st Hs. exists s. rewrite app_nil_r. done. }
  destruct (select (unused f all 0) (replicate 33 0xFF) (-1)) as [b j] eqn:Hsel.
  destruct (select_smallest (unused f all 0) b j) as (kp & Hin & -> & Hmin); [by destruct (unused f all 0)|done|].
  pose proof (unused_index _ _ _ _ Hin) as Hj. cbn in Hj.
  destruct (set_mark used (zlen all) f j) as (used' & Hset & Hz & Hf'); [done|lia|apply Z.div_lt_upper_bound; lia|].
  pose proof (remove_Permutation _ _ _ (unused_NoDup f all 0) Hin) as Hperm.
  destruct (IH _ used' Hf') as (Q & ks & Hks & Hsorted & HQ & Hrun); [lia|done| |].
  { rw unused_mark. apply Permutation_length in Hperm. cbn in Hperm, Hr. lia. }
  rewrite unused_mark in Hks.
  exists ((unused f all 0).*2 ++ Q), (key kp :: ks). split_and!.
  - rw Hks {2}/keys_of. rewrite {2}Hperm. done.
  - apply StronglySorted_cons. split; [|done]. apply Forall_forall. intros k Hk.
    rewrite Hks in Hk. apply list_elem_of_fmap_1 in Hk as (p & -> & [_ Hp]%list_elem_of_filter). by apply Hmin.
  - apply list_subseteq_app_iff_l. split; [apply unused_subset|done].
  - intros i d0 s st Hs.
    destruct (ask (unused f all 0).*2 st) as [[[[]|] st1]| | |] eqn:E;
      try (exists (emit d0 s); rw (sorted_round _ _ _ f _ used' (key kp) j) //; [|lia]; rw ask_app;
           unfold attempt at 1 2, mbind at 1 2, io_bind at 1 2; by rw E).
    destruct (Hrun (i + 1) (d0 ++ em_bytes i (key kp)) s st1 Hs) as [s' Hs']. exists s'.
    rw (sorted_round _ _ _ f _ used' (key kp) j) //; [|lia]. rw ask_app.
    unfold attempt at 1 2, mbind at 1 2, io_bind at 1 2. rw E Hs'. cbn [keys_bytes]. by rw app_assoc.
Qed.
End sorted.

(** ** The initial marks and orders *)
Lemma unused_none f kps j : (∀ i, j ≤ i < j + zlen kps → f i = false) →
  (unused f kps j).*2 = kps.
Proof.
  revert j. induction kps as [|kp kps IH]; intros j Hf; [done|]. rewrite zlen_cons in Hf.
  pose proof (zlen_nonneg kps). cbn [unused]. rw Hf; [|lia]. rw fmap_cons IH //. intros i Hi. apply Hf. lia.
Qed.

Lemma keys_of_none key kps : keys_of key (unused (λ _, false) kps 0) = key <$> kps.
Proof.
  rw -{2}(unused_none (λ _, false) kps 0) // /keys_of. rw -list_fmap_compose. done.
Qed.

Lemma marks_zero used n : (∀ j, 0 ≤ j < n → used !! Z.to_nat (j / 8) = Some 0) → marks used n (λ _, false).
Proof. intros Hz j Hj. rw (bitvector_get_testbit _ _ 0); [by rw Z.bits_0|lia|by apply Hz]. Qed.

Lemma marks_fresh n : n ≤ 16 → marks (replicate 2 0) n (λ _, false).
Proof.
  intros Hn. apply marks_zero. intros j Hj. apply lookup_replicate_2.
  assert (j / 8 < 2) by (apply Z.div_lt_upper_bound; lia). assert (0 ≤ j / 8) by (apply Z.div_pos; lia). lia.
Qed.

Lemma marks_first_byte n x : n ≤ 8 ∨ n ≤ 16 ∧ x = 0 → marks [0; x] n (λ _, false).
Proof.
  intros [Hn|[Hn ->]]; [|by apply marks_fresh]. apply marks_zero. intros j Hj. by rw Z.div_small; [|lia].
Qed.

(** The arrays of 33 bytes that the search for the smallest key finds: all but
    the one that it starts from. *)
Definition sortable (k : list Z) : Prop := zlen k = 33 ∧ bytes_ok k ∧ k ≠ replicate 33 0xFF.

(** A compressed public key. *)
Definition compressed (k : list Z) : Prop :=
  ∃ p x, k = p :: x ∧ (p = 2 ∨ p = 3) ∧ zlen x = 32 ∧ bytes_ok x ∧ x ≠ replicate 32 0xFF.

Lemma cmp_max_pos x : bytes_ok x → x ≠ replicate (length x) 0xFF → 0 < cmp_arrays (replicate (length x) 0xFF) x.
Proof.
  induction 1 as [|b x Hb Hx IH]; [done|]. intros Hne. cbn. rw /byte_ok in Hb.
  destruct (Z.eqb_spec (255 - b) 0); cbn; [|lia]. apply IH. intros Heq. apply Hne. cbn. rw -Heq. f_equal. lia.
Qed.

(** The comparison of whole keys and of x-only keys. *)
Definition cmp_x_only (a b : list Z) : Z := cmp_arrays (drop 1 a) (drop 1 b).

Definition good_order (cmp : list Z → list Z → Z) (ok : list Z → Prop) : Prop :=
  (∀ a b, ok a → ok b → 0 < cmp a b → le cmp b a) ∧
  (∀ a b c, ok a → ok b → ok c → le cmp a b → le cmp b c → le cmp a c) ∧ (∀ a, ok a → le cmp a a).

Lemma cmp_arrays_order : good_order cmp_arrays (λ a, zlen a = 33).
Proof.
  rw /good_order /le. split_and!.
  - intros a b _ _ H. pose proof (cmp_arrays_sign a b). lia.
  - intros a b c Ha Hb Hc. unfold zlen in *. apply cmp_arrays_trans; lia.
  - intros a _. by rw cmp_arrays_refl.
Qed.

Lemma cmp_x_only_order : good_order cmp_x_only (λ a, zlen a = 33).
Proof.
  rw /good_order /le /cmp_x_only. split_and!.
  - intros a b _ _ H. pose proof (cmp_arrays_sign (drop 1 a) (drop 1 b)). lia.
  - intros a b c Ha Hb Hc. unfold zlen in *. apply cmp_arrays_trans; rw !length_drop; lia.
  - intros a _. by rw cmp_arrays_refl.
Qed.

Lemma max_key k : sortable k → 0 < cmp_arrays (replicate 33 0xFF) k.
Proof.
  intros (Hz & Hb & Hne). replace 33%nat with (length k) in Hne |- * by (unfold zlen in Hz; lia). by apply cmp_max_pos.
Qed.

Lemma max_key_x_only k : compressed k → 0 < cmp_x_only (replicate 33 0xFF) k.
Proof.
  intros (p & x & -> & Hp & Hz & Hx & Hne). rw /cmp_x_only. cbn [drop]. change (drop 1 (replicate 33 255)) with (replicate 32 255).
  replace 32%nat with (length x) in Hne |- * by (unfold zlen in Hz; lia). by apply cmp_max_pos.
Qed.

Lemma compressed_zlen k : compressed k → zlen k = 33.
Proof. intros (p & x & -> & _ & Hz & _). rw zlen_cons Hz. done. Qed.

Lemma compressed_sortable k : compressed k → sortable k.
Proof.
  intros Hk. split; [by apply compressed_zlen|]. destruct Hk as (p & x & -> & Hp & _ & Hx & _).
  split; [constructor; [|done]|]; destruct Hp as [-> | ->]; done.
Qed.

(** ** The processors *)
Lemma keys_loop derive_key key cmp em em_bytes kps used :
  (∀ kp st a st', derive_key kp st = Val (Some a, st') → a = key kp) →
  (∀ kp, zlen (key kp) = 33) → (∀ kp, 0 < cmp (replicate 33 0xFF) (key kp)) →
  cmp = cmp_arrays ∨ cmp = cmp_x_only → (∀ i k, emits (em i k) (em_bytes i k)) →
  zlen kps ≤ 16 → zlen used = 2 → marks used (zlen kps) (λ _, false) →
  ∃ Q ks, ks ≡ₚ key <$> kps ∧ StronglySorted (le cmp) ks ∧ Q ⊆ kps ∧
    ∀ d0 s st, ps_nodes s ≠ [] → ∃ s',
      multisig_loop derive_key true cmp em kps kps 0 used (emit d0 s) st =
      attempt (ask derive_key Q) (-1, s') (λ _, mret (1, emit (d0 ++ keys_bytes em_bytes 0 ks) s)) st.
Proof.
  intros Hkey Hlen Hmax Hcmp Hem Hz Hu Hm.
  assert (good_order cmp (λ a, zlen a = 33)) as (H1 & H2 & H3)
    by (destruct Hcmp as [-> | ->]; [apply cmp_arrays_order|apply cmp_x_only_order]).
  destruct (sorted_rounds derive_key key cmp Hkey (λ a, zlen a = 33) H1 H2 H3
    Hlen em em_bytes Hem (conj eq_refl Hmax) kps kps (λ _, false) used Hm Hu Hz) as (Q & ks & Hks & Hs & HQ & Hrun).
  { rw -{1}(unused_none (λ _, false) kps 0) // length_fmap //. }
  rewrite keys_of_none in Hks. exists Q, ks. split_and!; [done..|]. intros d0 s st. apply Hrun.
Qed.

Lemma keys_bytes_push i ks : keys_bytes (λ _ k, [u8 0x21] ++ k) i ks = mjoin ((λ k, 0x21 :: k) <$> ks).
Proof. revert i. induction ks as [|k ks IH]; intros i; [done|]. cbn. by rw IH. Qed.

(** A key of 33 bytes 0xFF is not found, and the mark is outside of the bit
    vector. *)
Lemma sortedmulti_largest_key derive_key f k kp v len step ns out st :
  derive_key kp st = Val (Some (replicate 33 0xFF), st) →
  process_multi_sortedmulti_node derive_key
    (mk_parser_state (mk_node_state (policy_node_multisig TOKEN_SORTEDMULTI f k [kp]) len step v :: ns) out) st = Undef.
Proof.
  intros H. rw /process_multi_sortedmulti_node top_bind. cbn [ns_node]. rw (proj2 (Z.ltb_ge _ _)); [|done].
  rw (emits_then _ _ _ _ _ (emits_u8 _)); [|done].
  rw bool_decide_false //. cbn [negb]. set (s := emit _ _). clearbody s.
  assert (smallest_key derive_key cmp_arrays (replicate 2 0) [kp] 0 (replicate 33 0xFF) (-1) s st =
    Val ((Some (replicate 33 0xFF, -1), s), st)) as Hs.
  { cbn [smallest_key]. unfold mbind, gen_bind, mbind, io_bind, derive, from_io, mbind, io_bind, lift.
    change (bitvector_get (replicate 2 0) 0) with (Val false : outcome bool). unfold mret, io_ret. cbn -[cmp_arrays replicate]. rewrite H. done. }
  cbn [multisig_loop]. unfold mbind, gen_bind, mbind, io_bind. rewrite Hs. done.
Qed.

(** C21: sortedmulti sorts its keys.  When every accepted answer to a request
    for a key is the key of its placeholder, and the keys are arrays of 33 bytes
    other than 33 times 0xFF, as all compressed keys are, the processor of
    sortedmulti with at most 16 keys asks for keys of the policy only, fails
    exactly when one of its requests fails, and otherwise outputs OP_k, the
    pushes of all the keys in ascending lexicographical order (BIP-67), OP_n and
    OP_CHECKMULTISIG or its VERIFY form.  The marks in the bit vector neither
    lose nor repeat a key, also when keys are equal.  The array that is excluded
    is the one the search starts from, which it does not find again: then the
    mark is written outside of the bit vector, as [sortedmulti_largest_key]
    shows. *)
Theorem sortedmulti_correct derive_key key f k kps :
  (∀ kp st a st', derive_key kp st = Val (Some a, st') → a = key kp) → (∀ kp, sortable (key kp)) →
  zlen kps ≤ 16 →
  ∃ Q ks, ks ≡ₚ key <$> kps ∧ StronglySorted (λ a b, cmp_arrays a b ≤ 0) ks ∧ Q ⊆ kps ∧
    ∀ v len step ns out st, 
      let s := mk_parser_state (mk_node_state (policy_node_multisig TOKEN_SORTEDMULTI f k kps) len step (Z.b2z v) :: ns) out in
      ∃ s', process_multi_sortedmulti_node derive_key s st =
        attempt (ask derive_key Q) (-1, s')
          (λ _, mret (1, emit ([u8 (0x50 + k)] ++ mjoin ((λ key, 0x21 :: key) <$> ks) ++ [u8 (0x50 + zlen kps)] ++
                              op_v_bytes v OP_CHECKMULTISIG) s)) st.
Proof.
  intros Hkey Hc Hz.
  destruct (keys_loop derive_key key cmp_arrays (λ _ key, update_output_u8 0x21;; update_output key)
    (λ _ key, [u8 0x21] ++ key) kps (replicate 2 0) Hkey (λ kp, proj1 (Hc kp)) (λ kp, max_key _ (Hc kp)) (or_introl eq_refl)) as (Q & ks & Hks & Hs & HQ & Hrun);
    [by intros; apply emits_bind; [apply emits_u8|apply emits_data]|done|done|by apply marks_fresh|].
  exists Q, ks. split_and!; [done..|]. intros v len step ns out st s.
  destruct (Hrun [u8 (0x50 + k)] s st ltac:(done)) as [s' Hs']. exists s'.
  rw /process_multi_sortedmulti_node /s top_bind. cbn [ns_node]. rw (proj2 (Z.ltb_ge _ _)) //.
  rw (emits_then _ _ _ _ _ (emits_u8 _)) // bool_decide_false //. cbn [negb].
  rw (then_attempt _ _ _ _ _ _ _ Hs'). apply attempt_ext. intros [] st'.
  rw (emits_then _ _ _ _ _ (emits_u8 _)); [|done]. rw (op_v_then v); [|done].
  rw !emit_emit keys_bytes_push. by rw -!app_assoc.
Qed.

Definition multi_a_bytes (i : Z) (key : list Z) : list Z :=
  [u8 0x20] ++ drop 1 key ++ [u8 (if i =? 0 then OP_CHECKSIG else OP_CHECKSIGADD)].

(** Sortedmulti_a sorts its keys by their x coordinates, under the same
    hypothesis on the answers, when there are at most 8 keys, or when the byte
    of the bit vector that the code does not clear happens to be 0.  The output
    is the push of each x-only key followed by OP_CHECKSIG for the first and
    OP_CHECKSIGADD for the others, then OP_k and OP_NUMEQUAL. *)
Lemma sortedmulti_a_correct J derive_key key f k kps :
  (∀ kp st a st', derive_key kp st = Val (Some a, st') → a = key kp) → (∀ kp, compressed (key kp)) →
  k ≤ 16 → zlen kps ≤ 8 ∨ zlen kps ≤ 16 ∧ junk_used J = 0 →
  ∃ Q ks, ks ≡ₚ key <$> kps ∧ StronglySorted (λ a b, cmp_arrays (drop 1 a) (drop 1 b) ≤ 0) ks ∧ Q ⊆ kps ∧
    ∀ v len step ns out st,
      let s := mk_parser_state (mk_node_state (policy_node_multisig TOKEN_SORTEDMULTI_A f k kps) len step (Z.b2z v) :: ns) out in
      u16 len = len →
      ∃ s', process_multi_a_sortedmulti_a_node J derive_key s st =
        attempt (ask derive_key Q) (-1, s')
          (λ _, mret (1, emit (keys_bytes multi_a_bytes 0 ks ++ [u8 (0x50 + k)] ++ op_v_bytes v OP_NUMEQUAL) s)) st.
Proof.
  intros Hkey Hc Hk Hz.
  destruct (keys_loop derive_key key cmp_x_only
    (λ i key, update_output_u8 0x20;; update_output (drop 1 key);;
              update_output_u8 (if i =? 0 then OP_CHECKSIG else OP_CHECKSIGADD))
    multi_a_bytes kps [0; junk_used J] Hkey (λ kp, compressed_zlen _ (Hc kp)) (λ kp, max_key_x_only _ (Hc kp)) (or_intror eq_refl)) as (Q & ks & Hks & Hs & HQ & Hrun);
    [|lia|done|by apply marks_first_byte|].
  { intros i key'. apply emits_bind; [apply emits_u8|]. apply emits_bind; [apply emits_data|apply emits_u8]. }
  exists Q, ks. split_and!; [done..|]. intros v len step ns out st s Hlen.
  destruct (Hrun [] s st ltac:(done)) as [s' Hs']. exists s'.
  rw /process_multi_a_sortedmulti_a_node /s top_bind. cbn [ns_node]. rw (proj2 (Z.ltb_ge _ _)) //.
  rw bool_decide_false //. cbn [negb]. rewrite /s emit_nil // in Hs'.
  rw (then_attempt _ _ _ _ _ _ _ Hs'). apply attempt_ext. intros [] st'.
  rw (emits_then _ _ _ _ _ (emits_u8 _)); [|done]. rw (op_v_then v); [|done].
  by rw !emit_emit -!app_assoc.
Qed.

(** A wallet that always answers, with keys in descending order. *)
Definition sample_key (kp : policy_node_key_placeholder) : list Z :=
  2 :: replicate 31 0 ++ [200 - Z.min 100 (Z.max 0 (key_index kp))].
Definition answering (kp : policy_node_key_placeholder) : io (option (list Z)) := mret (Some (sample_key kp)).
Definition sample_keys (n : Z) : list policy_node_key_placeholder := mk_placeholder 0 1 <$> seqZ 0 n.

Lemma sample_key_compressed kp : compressed (sample_key kp).
Proof.
  exists 2, (replicate 31 0 ++ [200 - Z.min 100 (Z.max 0 (key_index kp))]).
  split_and!; [done|by left|by rw zlen_app| |done].
  apply Forall_app_2; [by apply Forall_replicate|]. constructor; [|constructor]. rw /byte_ok. lia.
Qed.

Lemma answering_sound kp st a st' : answering kp st = Val (Some a, st') → a = sample_key kp.
Proof. by intros [= <- <-]. Qed.

Definition multi_state (t : token) (k n : Z) : policy_parser_state :=
  mk_parser_state [mk_node_state (policy_node_multisig t None k (sample_keys n)) 0 0 0] (Some []).

Lemma ask_answering Q st : ask answering Q st = Val (Some (), st).
Proof. by induction Q as [|kp Q IH]. Qed.

Lemma ask_answering_attempt {B} Q (err : B) k st : attempt (ask answering Q) err k st = k () st.
Proof. rw /attempt. unfold mbind, io_bind. by rw ask_answering. Qed.

Lemma sortedmulti_correct_witness :
  ∃ ks, ks ≡ₚ sample_key <$> sample_keys 9 ∧ StronglySorted (λ a b, cmp_arrays a b ≤ 0) ks ∧
    process_multi_sortedmulti_node answering (multi_state TOKEN_SORTEDMULTI 2 9) (sample_state 0 []) =
    Val ((1, emit ([0x52] ++ mjoin ((λ key, 0x21 :: key) <$> ks) ++ [0x59; OP_CHECKMULTISIG])
               (multi_state TOKEN_SORTEDMULTI 2 9)), sample_state 0 []).
Proof.
  destruct (sortedmulti_correct answering sample_key None 2 (sample_keys 9) answering_sound
    (λ kp, compressed_sortable _ (sample_key_compressed kp))) as (Q & ks & Hks & Hs & _ & Hrun); [vm_compute; discriminate|].
  exists ks. split; [exact Hks|]. split; [exact Hs|].
  destruct (Hrun false 0 0 [] (Some []) (sample_state 0 [])) as [s' H].
  rewrite ask_answering_attempt in H. etransitivity; [exact H|]. reflexivity.
Defined.

(** With 9 keys the bits of the byte that sortedmulti_a does not clear
    matter.  The template is accepted by the parser; when the stale byte is 0
    the script is produced, and when it marks the ninth key, the last round
    finds no key and the mark is written at the index -1: outside of the bit
    vector. *)
Lemma sortedmulti_a_uninitialised :
  (∃ f kp t g kps, parse_string
    "tr(@0/**,sortedmulti_a(2,@1/**,@2/**,@3/**,@4/**,@5/**,@6/**,@7/**,@8/**,@9/**))" =
    Val (Some (policy_node_tr t f kp (Some (tree_leaf (policy_node_multisig TOKEN_SORTEDMULTI_A g 2 kps))))) ∧
    zlen kps = 9) ∧
  (∃ s st, process_multi_a_sortedmulti_a_node (mk_junk [] [] [] 0) answering (multi_state TOKEN_SORTEDMULTI_A 2 9)
     (sample_state 0 []) = Val ((1, s), st)) ∧
  process_multi_a_sortedmulti_a_node (mk_junk [] [] [] 0x80) answering (multi_state TOKEN_SORTEDMULTI_A 2 9)
     (sample_state 0 []) = Undef.
Proof.
  split; [|split].
  - vm_compute. do 5 eexists. split; reflexivity.
  - vm_compute. do 2 eexists. reflexivity.
  - lazy. reflexivity.
Qed.
