(* ===== verification/PolicyCheck.v ===== *)
(** * Wallet policies: reading, registration keys and sanity checks

    Models the rest of handler/lib/policy.c: reading a policy of the host,
    recognising the standard policies, the authentication code of a registered
    policy, the enumeration of the key placeholders and the checks that a policy
    passes before it is registered or used. *)

From Stdlib Require Ascii String.
Import String.StringSyntax Ascii.AsciiSyntax.
From S2P Require Import Prelude Bytes Bip32 Buffer Merkle Dispatcher MerkleClient MerkleProof Preimage Script Base58 Crypto PolicySyntax PolicyParser PolicyScript PolicyLogic PolicyHeader PolicyTypes PolicyExtInfo PolicyThresh PolicyAnalysis PolicyCompile.

(** ** Key placeholders

    The returned code, and what is written to [out_placeholder] and to
    [out_tapleaf_ptr] when these are not null. *)
Record placeholder_result := mk_result {
  pr_ret : Z;
  pr_placeholder : option policy_node_key_placeholder;
  pr_tapleaf : option policy_node
}.

Definition no_placeholder (ret : Z) : placeholder_result := mk_result ret None None.

(** A call with null pointers. *)
Definition with_null (r : placeholder_result) : placeholder_result := no_placeholder (pr_ret r).

(** The second of two writes. *)
Definition overwrite {A} (first second : option A) : option A :=
  match second with Some _ => second | None => first end.

(** [r] is the result for the scripts before [script]; the search in [script]
    continues at [i - ret] unless the placeholder was found. *)
Definition search_next (i : Z) (r : placeholder_result) (script : Z → placeholder_result) : placeholder_result :=
  if pr_ret r <? 0 then mk_result (-1) (pr_placeholder r) (pr_tapleaf r)
  else
    let found := i <? pr_ret r in
    let r2 := if found then with_null (script 0) else script (u32 (i - pr_ret r)) in
    let placeholder := overwrite (pr_placeholder r) (pr_placeholder r2) in
    let tapleaf := overwrite (pr_tapleaf r) (pr_tapleaf r2) in
    if pr_ret r2 <? 0 then mk_result (-1) placeholder tapleaf
    else mk_result (pr_ret r + pr_ret r2) placeholder tapleaf.

Definition is_leaf_without_keys (t : token) : bool :=
  match t with
  | TOKEN_0 | TOKEN_1 | TOKEN_OLDER | TOKEN_AFTER | TOKEN_SHA256 | TOKEN_HASH256 | TOKEN_RIPEMD160
  | TOKEN_HASH160 => true
  | _ => false
  end.
Definition is_leaf_with_key (t : token) : bool :=
  match t with TOKEN_PK_K | TOKEN_PK_H | TOKEN_PK | TOKEN_PKH | TOKEN_WPKH => true | _ => false end.
Definition is_multisig (t : token) : bool :=
  match t with TOKEN_MULTI | TOKEN_MULTI_A | TOKEN_SORTEDMULTI | TOKEN_SORTEDMULTI_A => true | _ => false end.
Definition has_one_script (t : token) : bool :=
  match t with
  | TOKEN_SH | TOKEN_WSH | TOKEN_A | TOKEN_S | TOKEN_C | TOKEN_T | TOKEN_D | TOKEN_V | TOKEN_J | TOKEN_N | TOKEN_L
  | TOKEN_U => true
  | _ => false
  end.
Definition has_two_scripts (t : token) : bool :=
  match t with
  | TOKEN_AND_V | TOKEN_AND_B | TOKEN_AND_N | TOKEN_OR_B | TOKEN_OR_C | TOKEN_OR_D | TOKEN_OR_I => true
  | _ => false
  end.

(** [policy->type] determines the structure of a node, so a case is on both;
    the other combinations are the [default] of the [switch]. *)
Fixpoint get_key_placeholder_by_index (policy : policy_node) (i : Z) : placeholder_result :=
  match policy with
  | policy_node_constant t _ | policy_node_with_uint32 t _ _ | policy_node_with_hash_160 t _ _
  | policy_node_with_hash_256 t _ _ => no_placeholder (if is_leaf_without_keys t then 0 else -1)
  | policy_node_with_key t _ kp =>
      if is_leaf_with_key t then mk_result 1 (if i =? 0 then Some kp else None) None else no_placeholder (-1)
  | policy_node_tr TOKEN_TR _ kp tree =>
      let placeholder := if i =? 0 then Some kp else None in
      match tree with
      | None => mk_result 1 placeholder None
      | Some tree =>
          let r := if i =? 0 then with_null (get_key_placeholder_by_index_in_tree tree 0)
                   else get_key_placeholder_by_index_in_tree tree (i - 1) in
          let placeholder := overwrite placeholder (pr_placeholder r) in
          if pr_ret r <? 0 then mk_result (-1) placeholder (pr_tapleaf r)
          else mk_result (1 + pr_ret r) placeholder (pr_tapleaf r)
      end
  | policy_node_multisig t _ _ kps =>
      if is_multisig t then mk_result (zlen kps) (if i <? zlen kps then kps !! Z.to_nat i else None) None
      else no_placeholder (-1)
  | policy_node_with_script t _ script =>
      if has_one_script t then get_key_placeholder_by_index script i else no_placeholder (-1)
  | policy_node_with_script2 t _ x y =>
      if has_two_scripts t
      then search_next i (get_key_placeholder_by_index x i) (get_key_placeholder_by_index y)
      else no_placeholder (-1)
  | policy_node_with_script3 TOKEN_ANDOR _ x y z =>
      search_next i
        (search_next i (get_key_placeholder_by_index x i) (get_key_placeholder_by_index y))
        (get_key_placeholder_by_index z)
  | policy_node_thresh TOKEN_THRESH _ _ scriptlist =>
      foldl (λ r script, search_next i r (get_key_placeholder_by_index script)) (no_placeholder 0) scriptlist
  | _ => no_placeholder (-1)
  end
with get_key_placeholder_by_index_in_tree (tree : policy_node_tree) (i : Z) : placeholder_result :=
  match tree with
  | tree_leaf script =>
      let r := get_key_placeholder_by_index script i in
      mk_result (pr_ret r) (pr_placeholder r)
        (if (0 <=? pr_ret r) && (i <? pr_ret r) then Some script else None)
  | tree_node left_tree right_tree =>
      search_next i (get_key_placeholder_by_index_in_tree left_tree i)
        (get_key_placeholder_by_index_in_tree right_tree)
  end.

(** The loop reads [placeholder] only after it was written. *)
Fixpoint count_loop (fuel : nat) (policy : policy_node) (cur ret : Z) (placeholder : policy_node_key_placeholder) : Z :=
  match fuel with
  | O => ret
  | S fuel' =>
      let r := get_key_placeholder_by_index policy cur in
      let placeholder := default placeholder (pr_placeholder r) in
      if cur <? pr_ret r then
        if pr_ret r <? 0 then -1
        else count_loop fuel' policy (cur + 1) (Z.max ret (key_index placeholder + 1)) placeholder
      else ret
  end.

(** At most one iteration for each placeholder. *)
Definition count_distinct_keys_info (uninit : policy_node_key_placeholder) (policy : policy_node) : Z :=
  count_loop (S (Z.to_nat (pr_ret (get_key_placeholder_by_index policy 0)))) policy 0 (-1) uninit.

(** ** Standard policies *)

(** The purpose and the placeholder, or [None] for -1. *)
Definition purpose_and_key (descriptor_template : policy_node) : option (Z * policy_node_key_placeholder) :=
  match descriptor_template with
  | policy_node_with_key TOKEN_PKH _ kp => Some (44, kp)
  | policy_node_with_key TOKEN_WPKH _ kp => Some (84, kp)
  | policy_node_with_script TOKEN_SH _ (policy_node_with_key TOKEN_WPKH _ kp) => Some (49, kp)
  | policy_node_tr TOKEN_TR _ kp None => Some (86, kp)
  | _ => None
  end.

Definition get_bip44_purpose (descriptor_template : policy_node) : Z :=
  match purpose_and_key descriptor_template with
  | None => -1
  | Some (purpose, kp) =>
      if negb (key_index kp =? 0) || negb (num_first kp =? 0) || negb (num_second kp =? 1) then -1 else purpose
  end.

Definition WALLET_SLIP0021_LABEL : list Z := 0 :: str "LEDGER-Wallet policy".

Definition MAX_STANDARD_P2WSH_STACK_ITEMS : Z := 100.
Definition MAX_STANDARD_P2WSH_SCRIPT_SIZE : Z := 3600.
Definition MAX_OPS_PER_SCRIPT : Z := 201.

Section check.
(** [BIP32_PUBKEY_VERSION], [BIP44_COIN_TYPE] and [MAX_DESCRIPTOR_TEMPLATE_LENGTH_V2]
    are fixed when the application is built; [uninit_key] and [uninit_kp] are
    uninitialised variables. *)
Context (os : sdk) (J : junk) (BIP32_PUBKEY_VERSION BIP44_COIN_TYPE MAX_DESCRIPTOR_TEMPLATE_LENGTH_V2 : Z).
Context (sizeof : abi) (base : Z) (uninit_key : list Z) (uninit_kp : policy_node_key_placeholder).
Local Notation sha256 := (cx_sha256 os).

(** The derivation path of a key, if the key is the one of the device at that
    path. *)
Definition is_wallet_policy_standard (wallet_policy_header : policy_map_wallet_header)
    (descriptor_template : policy_node) : io bool :=
  let bip44_purpose := get_bip44_purpose descriptor_template in
  if bip44_purpose <? 0 then mret false
  else if negb (n_keys wallet_policy_header =? 1) then mret false
  else
    let master_key_fingerprint' := crypto_get_master_key_fingerprint os BIP32_PUBKEY_VERSION uninit_key in
    '(key_info_len, key_info_str) ←
      call_get_merkle_leaf_element sha256 (keys_info_merkle_root wallet_policy_header)
        (n_keys wallet_policy_header) 0 (junk_key_info J);
    if key_info_len <? 0 then mret false
    else
      r ← lift (parse_policy_map_key_info sha256 (junk_check J) (version wallet_policy_header)
                  (mk_parse_state (buffer_create key_info_str key_info_len) (buffer_create [] 0)));
      match r with
      | None => mret false
      | Some (key_info, _) =>
          if negb (has_key_origin key_info) then mret false
          else if negb (be_val (master_key_fingerprint key_info) =? master_key_fingerprint') then mret false
          else
            let path := take (Z.to_nat (master_key_derivation_len key_info)) (master_key_derivation key_info) in
            match get_extended_pubkey_at_path os path BIP32_PUBKEY_VERSION with
            | None => mret false
            | Some derived_pubkey =>
                if negb (bool_decide (ext_pubkey key_info = xpub_bytes derived_pubkey)) then mret false
                else
                  let H := BIP32_FIRST_HARDENED_CHILD in
                  mret (match path with
                        | [purpose; coin_type; account] =>
                            (purpose =? u32 (H + bip44_purpose)) && (coin_type =? u32 (H + BIP44_COIN_TYPE)) &&
                            negb (account <? H) && negb (u32 (H + MAX_BIP44_ACCOUNT_RECOMMENDED) <? account)
                        | _ => false
                        end)
            end
      end.

(** ** The authentication code of a registered policy; [None] is [false]. *)
Definition compute_wallet_hmac (wallet_id : list Z) : outcome (option (list Z)) :=
  key ← crypto_derive_symmetric_key os WALLET_SLIP0021_LABEL;
  Val (match key with None => None | Some key => Some (cx_hmac_sha256 os key wallet_id) end).

Definition check_wallet_hmac (wallet_id wallet_hmac : list Z) : outcome bool :=
  key ← crypto_derive_symmetric_key os WALLET_SLIP0021_LABEL;
  Val (match key with
       | None => false
       | Some key => bool_decide (wallet_hmac = cx_hmac_sha256 os key wallet_id)
       end).

(** ** Reading a policy

    [template] is the array of [MAX_DESCRIPTOR_TEMPLATE_LENGTH] bytes that
    receives the descriptor template.  The length that the host gives for it is
    only compared with 0: what is parsed has the length of the header. *)
Definition read_and_parse_wallet_policy (buf : buffer) (template policy_map_bytes : list Z)
    (policy_map_bytes_len : Z) : io (option (policy_map_wallet_header * list Z * policy_node)) :=
  r ← lift (read_wallet_policy_header MAX_DESCRIPTOR_TEMPLATE_LENGTH_V2
              (mk_parse_state buf (buffer_create [] 0)));
  match r with
  | None => mret None
  | Some (wallet_header, _) =>
      t ← (if version wallet_header =? WALLET_POLICY_VERSION_V1 then
             t ← lift (l ← loads (descriptor_template wallet_header) 0 (descriptor_template_len wallet_header);
                       stores template 0 l);
             mret (Some t)
           else
             '(len, t) ← call_get_preimage sha256 (descriptor_template wallet_header) template;
             mret (if len <? 0 then None else Some t));
      match t with
      | None => mret None
      | Some template =>
          policy ← lift (parse_descriptor_template sizeof base
                           (buffer_create template (descriptor_template_len wallet_header))
                           policy_map_bytes policy_map_bytes_len (version wallet_header));
          mret ((λ policy, (wallet_header, template, policy)) <$> policy)
      end
  end.

(** ** The sanity checks *)
Definition get_pubkey_from_merkle_tree (wallet_version : Z) (keys_merkle_root : list Z) (n_keys index : Z)
    : io (option serialized_extended_pubkey) :=
  '(key_info_len, key_info_str) ←
    call_get_merkle_leaf_element sha256 keys_merkle_root n_keys index (junk_key_info J);
  if key_info_len =? -1 then mret None
  else
    r ← lift (parse_policy_map_key_info sha256 (junk_check J) wallet_version
                (mk_parse_state (buffer_create key_info_str (size_t key_info_len)) (buffer_create [] 0)));
    mret ((λ '(key_info, _), xpub_of_bytes (ext_pubkey key_info)) <$> r).

(** The limits on the analysis of a miniscript expression. *)
Definition within_limits (ext_info : policy_node_ext_info) : bool :=
  ei_m ext_info && ei_s ext_info && ei_k ext_info &&
  negb ((ss_sat (ss ext_info) =? -1) || (MAX_STANDARD_P2WSH_STACK_ITEMS <? u32 (ss_sat (ss ext_info)))) &&
  negb (ops_sat (ops ext_info) =? -1) &&
  negb (MAX_OPS_PER_SCRIPT <? u32 (count (ops ext_info) + u32 (ops_sat (ops ext_info)))) &&
  negb (MAX_STANDARD_P2WSH_SCRIPT_SIZE <? script_size ext_info).

Definition check_miniscript (shared : bool) (mem : list Z) (policy : policy_node) : outcome bool :=
  match policy with
  | policy_node_with_script TOKEN_WSH _ inner =>
      match node_flags inner with
      | None => Val true
      | Some f =>
          if negb (bool_decide (ty f = MINISCRIPT_TYPE_B)) then Val false
          else
            r ← compute_miniscript_policy_ext_info shared inner mem;
            Val (match r with None => false | Some (ext_info, _) => within_limits ext_info end)
      end
  | _ => Val true
  end.

(** The loops over the keys: [get_pubkey j] is the [j]-th key. *)
Section keys.
Context (get_pubkey : Z → io (option serialized_extended_pubkey)) (n_keys : Z).

Fixpoint differs_from (pubkey_i : serialized_extended_pubkey) (n : nat) (j : Z) : io bool :=
  match n with
  | O => mret true
  | S n' =>
      r ← get_pubkey j;
      match r with
      | None => mret false
      | Some pubkey_j =>
          if bool_decide (compressed_pubkey pubkey_i = compressed_pubkey pubkey_j) then mret false
          else differs_from pubkey_i n' (j + 1)
      end
  end.

Fixpoint all_distinct (n : nat) (i : Z) : io bool :=
  match n with
  | O => mret true
  | S n' =>
      r ← get_pubkey i;
      match r with
      | None => mret false
      | Some pubkey_i =>
          ok ← differs_from pubkey_i (Z.to_nat (n_keys - (i + 1))) (i + 1);
          if (ok : bool) then all_distinct n' (i + 1) else mret false
      end
  end.
End keys.

(** The loops over the placeholders. *)
Definition placeholder_at (policy : policy_node) (i : Z) : option policy_node_key_placeholder :=
  let r := get_key_placeholder_by_index policy i in
  if pr_ret r <? 0 then None else Some (default uninit_kp (pr_placeholder r)).

Definition repeated_derivation (kp_i kp_j : policy_node_key_placeholder) : bool :=
  (key_index kp_i =? key_index kp_j) &&
  ((num_first kp_i =? num_first kp_j) || (num_first kp_i =? num_second kp_j) ||
   (num_second kp_i =? num_first kp_j) || (num_second kp_i =? num_second kp_j)).

Fixpoint disjoint_from (policy : policy_node) (kp_i : policy_node_key_placeholder) (n : nat) (j : Z) : bool :=
  match n with
  | O => true
  | S n' =>
      match placeholder_at policy j with
      | None => false
      | Some kp_j => negb (repeated_derivation kp_i kp_j) && disjoint_from policy kp_i n' (j + 1)
      end
  end.

Fixpoint all_disjoint (policy : policy_node) (n_placeholders : Z) (n : nat) (i : Z) : bool :=
  match n with
  | O => true
  | S n' =>
      match placeholder_at policy i with
      | None => false
      | Some kp_i =>
          disjoint_from policy kp_i (Z.to_nat (n_placeholders - (i + 1))) (i + 1) &&
          all_disjoint policy n_placeholders n' (i + 1)
      end
  end.

(** [shared] and [mem] are the tables of the analysis. *)
Definition is_policy_sane (shared : bool) (mem : list Z) (policy : policy_node) (wallet_version : Z)
    (keys_merkle_root : list Z) (n_keys : Z) : io Z :=
  ok ← lift (check_miniscript shared mem policy);
  if negb ok then mret (-1)
  else
    ok ← all_distinct (get_pubkey_from_merkle_tree wallet_version keys_merkle_root n_keys) n_keys
           (Z.to_nat (u32 (n_keys - 1))) 0;
    if negb ok then mret (-1)
    else
      let n_placeholders := pr_ret (get_key_placeholder_by_index policy 0) in
      if n_placeholders <? 0 then mret (-1)
      else if all_disjoint policy n_placeholders (Z.to_nat (n_placeholders - 1)) 0 then mret 0 else mret (-1).
End check.

(** ** The enumeration of the placeholders

    The key placeholders of a policy from left to right, with the leaf of the
    taptree that each of them is in. *)
Fixpoint keys (n : policy_node) : list (policy_node_key_placeholder * option policy_node) :=
  match n with
  | policy_node_with_key _ _ kp => [(kp, None)]
  | policy_node_multisig _ _ _ kps => (λ kp, (kp, None)) <$> kps
  | policy_node_with_script _ _ x => keys x
  | policy_node_with_script2 _ _ x y => keys x ++ keys y
  | policy_node_with_script3 _ _ x y z => keys x ++ keys y ++ keys z
  | policy_node_thresh _ _ _ l => mjoin (keys <$> l)
  | policy_node_tr _ _ kp tree => (kp, None) :: match tree with None => [] | Some tree => tree_keys tree end
  | _ => []
  end
with tree_keys (t : policy_node_tree) : list (policy_node_key_placeholder * option policy_node) :=
  match t with
  | tree_leaf x => (λ p, (p.1, Some x)) <$> keys x
  | tree_node l r => tree_keys l ++ tree_keys r
  end.

(** The structure of a node is the one of its type. *)
Definition token_fits (n : policy_node) : bool :=
  match n with
  | policy_node_constant t _ | policy_node_with_uint32 t _ _ | policy_node_with_hash_160 t _ _
  | policy_node_with_hash_256 t _ _ => is_leaf_without_keys t
  | policy_node_with_key t _ _ => is_leaf_with_key t
  | policy_node_multisig t _ _ _ => is_multisig t
  | policy_node_with_script t _ _ => has_one_script t
  | policy_node_with_script2 t _ _ _ => has_two_scripts t
  | policy_node_with_script3 t _ _ _ _ => bool_decide (t = TOKEN_ANDOR)
  | policy_node_thresh t _ _ _ => bool_decide (t = TOKEN_THRESH)
  | policy_node_tr t _ _ _ => bool_decide (t = TOKEN_TR)
  end.

(** The [i]-th element of an enumeration, as a result. *)
Definition nth_key (l : list (policy_node_key_placeholder * option policy_node)) (i : Z) : placeholder_result :=
  mk_result (zlen l) (fst <$> l !! Z.to_nat i) (l !! Z.to_nat i ≫= snd).

Lemma overwrite_None {A} (o : option A) : overwrite o None = o.
Proof. done. Qed.

Lemma zlen_ltb_0 {A} (l : list A) : (zlen l <? 0) = false.
Proof. apply Z.ltb_ge. apply zlen_nonneg. Qed.

Lemma zlen_fmap {A B} (f : A → B) l : zlen (f <$> l) = zlen l.
Proof. by rw /zlen length_fmap. Qed.

Lemma search_next_spec i l1 l2 script :
  0 ≤ i < 2 ^ 32 → (∀ j, 0 ≤ j < 2 ^ 32 → script j = nth_key l2 j) →
  search_next i (nth_key l1 i) script = nth_key (l1 ++ l2) i.
Proof.
  intros Hi Hs. pose proof (zlen_nonneg l1). rw /search_next. cbn [nth_key pr_ret pr_placeholder pr_tapleaf].
  rw zlen_ltb_0. destruct (Z.ltb_spec i (zlen l1)) as [Hlt|Hge].
  - rw Hs //. cbn. rw zlen_ltb_0 /nth_key zlen_app lookup_app_l //. unfold zlen in *. lia.
  - rw u32_small; [|lia]. rw Hs; [|lia]. cbn. rw zlen_ltb_0 /nth_key zlen_app (lookup_ge_None_2 l1).
    + rw lookup_app_r; [|unfold zlen in *; lia].
      replace (Z.to_nat (i - zlen l1)) with (Z.to_nat i - length l1)%nat by (unfold zlen in *; lia).
      by destruct (l2 !! _) as [[kp [leaf|]]|].
    + unfold zlen in *. lia.
Qed.

Definition enumerates (n : policy_node) : Prop :=
  ∀ i, 0 ≤ i < 2 ^ 32 → get_key_placeholder_by_index n i = nth_key (keys n) i.

Lemma nth_key_nil i : nth_key [] i = no_placeholder 0.
Proof. done. Qed.

Lemma scripts_enumerated i l0 scriptlist :
  0 ≤ i < 2 ^ 32 → (∀ x, x ∈ scriptlist → enumerates x) →
  foldl (λ r script, search_next i r (get_key_placeholder_by_index script)) (nth_key l0 i) scriptlist =
  nth_key (l0 ++ mjoin (keys <$> scriptlist)) i.
Proof.
  intros Hi. revert l0. induction scriptlist as [|x l IH]; intros l0 Hl; [by rw /= app_nil_r|].
  cbn [foldl]. rw (search_next_spec i l0 (keys x)) //; [|apply Hl; by left].
  rw IH; [|intros y Hy; apply Hl; by right]. rw fmap_cons /= app_assoc //.
Qed.

Lemma tree_enumerated t :
  (∀ x, in_tree x t → enumerates x) →
  ∀ i, 0 ≤ i < 2 ^ 32 → get_key_placeholder_by_index_in_tree t i = nth_key (tree_keys t) i.
Proof.
  induction t as [x|l IHl r IHr]; intros Ht i Hi; cbn.
  - rw (Ht x); [|constructor|done]. rw /nth_key zlen_fmap list_lookup_fmap. cbn [pr_ret pr_placeholder].
    rw (proj2 (Z.leb_le _ _)); [|apply zlen_nonneg]. cbn [andb].
    destruct (Z.ltb_spec i (zlen (keys x))) as [Hlt|Hge].
    + destruct (lookup_lt_is_Some_2 (keys x) (Z.to_nat i)) as [p Hp]; [unfold zlen in Hlt; lia|]. by rw Hp.
    + rw lookup_ge_None_2 //. unfold zlen in *. lia.
  - rw IHl //; [|intros x Hx; apply Ht; by constructor]. apply search_next_spec; [done|].
    intros j Hj. apply IHr; [|done]. intros x Hx. apply Ht. by apply in_right.
Qed.

Lemma one_key kp i : 0 ≤ i → mk_result 1 (if i =? 0 then Some kp else None) None = nth_key [(kp, None)] i.
Proof.
  intros Hi. rw /nth_key. destruct (Z.eqb_spec i 0) as [->|]; [done|]. rw lookup_ge_None_2 //. cbn. lia.
Qed.

Lemma keys_enumerated n : all_nodes token_fits n = true → enumerates n.
Proof.
  induction n as [n IH] using policy_node_children_ind. intros Hn.
  assert (∀ c, child c n → enumerates c) as Hch by (intros c Hc; apply IH; [done|by eapply all_nodes_child]).
  apply all_nodes_self in Hn. clear IH. intros i Hi.
  destruct n as [t f|t f x|t f x y|t f x y z|t f kp|t f k|t f k kps|t f k l|t f h|t f h|t f kp tree];
    cbn in Hn; cbn.
  - by rw Hn.
  - rw Hn. apply Hch; [constructor|done].
  - rw Hn (Hch x) //; [|constructor]. apply search_next_spec; [done|]. apply Hch. apply child_script2_2.
  - apply bool_decide_eq_true in Hn as ->. rw (Hch x) //; [|constructor]. rw app_assoc.
    rw (search_next_spec i (keys x) (keys y)) //; [|apply Hch, child_script3_2].
    apply search_next_spec; [done|]. apply Hch. apply child_script3_3.
  - rw Hn. apply one_key. lia.
  - by rw Hn.
  - rw Hn /nth_key zlen_fmap list_lookup_fmap. f_equal.
    + destruct (Z.ltb_spec i (zlen kps)) as [Hlt|Hge]; [by destruct (kps !! _)|].
      rw lookup_ge_None_2 //. unfold zlen in *. lia.
    + by destruct (kps !! _).
  - apply bool_decide_eq_true in Hn as ->. rw -(nth_key_nil i) scripts_enumerated //.
    intros x Hx. apply Hch. by constructor.
  - by rw Hn.
  - by rw Hn.
  - apply bool_decide_eq_true in Hn as ->. destruct tree as [tree|]; [|apply one_key; lia].
    assert (∀ j, 0 ≤ j < 2 ^ 32 → get_key_placeholder_by_index_in_tree tree j = nth_key (tree_keys tree) j) as Ht.
    { apply tree_enumerated. intros x Hx. apply Hch. by constructor. }
    destruct (Z.eqb_spec i 0) as [->|Hi0].
    + rw Ht //. cbn. rw zlen_ltb_0 /nth_key zlen_cons //.
    + rw Ht; [|lia]. cbn. rw zlen_ltb_0 /nth_key zlen_cons lookup_cons_ne_0; [|lia].
      replace (Init.Nat.pred (Z.to_nat i)) with (Z.to_nat (i - 1)) by lia.
      by destruct (tree_keys tree !! _).
Qed.

(** *** Counting keys *)
Definition indices (n : policy_node) : list Z := (λ p, key_index p.1) <$> keys n.

Lemma count_loop_spec fuel n cur ret kp :
  all_nodes token_fits n = true → zlen (keys n) < 2 ^ 32 → 0 ≤ cur ≤ zlen (keys n) →
  zlen (keys n) - cur < Z.of_nat fuel →
  count_loop fuel n cur ret kp = foldl (λ m k, Z.max m (k + 1)) ret (drop (Z.to_nat cur) (indices n)).
Proof.
  intros Hn Hz. revert cur ret kp. induction fuel as [|fuel IH]; intros cur ret kp Hc Hf.
  { cbn. rw drop_ge //. rw /indices length_fmap. unfold zlen in Hf. lia. }
  cbn [count_loop]. destruct (Z.ltb_spec cur (zlen (keys n))) as [Hlt|Hge].
  - rw (keys_enumerated n) //; [|lia]. cbn [nth_key pr_ret pr_placeholder].
    rw (proj2 (Z.ltb_lt _ _)) // zlen_ltb_0.
    destruct (lookup_lt_is_Some_2 (keys n) (Z.to_nat cur)) as [p Hp]; [unfold zlen in Hlt; lia|].
    rw Hp IH; [|lia..]. rw (drop_S (indices n) (key_index p.1) (Z.to_nat cur)) /=.
    + by replace (Z.to_nat (cur + 1)) with (S (Z.to_nat cur)) by lia.
    + by rw /indices list_lookup_fmap Hp.
  - rw drop_ge; [|rw /indices length_fmap; unfold zlen in Hge; lia]. cbn.
    rw (keys_enumerated n) //; [|lia]. cbn. by rw (proj2 (Z.ltb_ge _ _)).
Qed.

Lemma fold_max_spec l m :
  let r := foldl (λ m k, Z.max m (k + 1)) m l in
  m ≤ r ∧ (∀ k, k ∈ l → k < r) ∧ (r = m ∨ r - 1 ∈ l).
Proof.
  revert m. induction l as [|k l IH]; intros m; cbn.
  { split_and!; [lia|by intros ? ?%not_elem_of_nil|by left]. }
  destruct (IH (Z.max m (k + 1))) as (H1 & H2 & H3). split_and!.
  - lia.
  - intros k' [-> | Hk]%elem_of_cons; [lia|by apply H2].
  - destruct H3 as [H3|H3]; [|right; by right]. destruct (decide (m < k + 1)).
    + right. apply elem_of_cons. left. lia.
    + left. lia.
Qed.

(** The enumeration of the key placeholders.  For a policy in which the
    structure of each node is the one of its type,
    [get_key_placeholder_by_index] returns the number of placeholders of the
    policy and, for every index, gives the placeholder at that index of the
    policy read from left to right, internal key of a taproot policy first,
    and the leaf of the taptree that it is in.  [count_distinct_keys_info] is
    one more than the largest key index, and -1 for a policy without keys. *)
Lemma key_placeholders_correct policy i uninit :
  all_nodes token_fits policy = true → zlen (keys policy) < 2 ^ 32 → 0 ≤ i < 2 ^ 32 →
  get_key_placeholder_by_index policy i =
    mk_result (zlen (keys policy)) (fst <$> keys policy !! Z.to_nat i) (keys policy !! Z.to_nat i ≫= snd) ∧
  let r := count_distinct_keys_info uninit policy in
  (∀ p, p ∈ keys policy → key_index p.1 < r) ∧ (r = -1 ∨ ∃ p, p ∈ keys policy ∧ r = key_index p.1 + 1).
Proof.
  intros Hn Hz Hi. split; [by apply keys_enumerated|]. intros r.
  assert (r = foldl (λ m k, Z.max m (k + 1)) (-1) (indices policy)) as Hr.
  { rw /r /count_distinct_keys_info count_loop_spec //; [split; [lia|apply zlen_nonneg]|].
    rw keys_enumerated //. cbn. pose proof (zlen_nonneg (keys policy)). lia. }
  destruct (fold_max_spec (indices policy) (-1)) as (_ & H2 & H3). rewrite -Hr in H2 H3. split.
  - intros p Hp. apply H2. by apply (list_elem_of_fmap_2 (λ p, key_index p.1)).
  - destruct H3 as [|H3]; [by left|]. right. apply list_elem_of_fmap_1 in H3 as (p & Hp & ?). exists p. split; [done|lia].
Qed.

Definition sample_taproot : policy_node :=
  match parse_string "tr(@0/**,{pk(@2/**),multi_a(2,@1/**,@0/<2;3>/*)})" with
  | Val (Some policy) => policy
  | _ => policy_node_constant TOKEN_0 None
  end.

(** ** The sanity checks hold of a sane policy *)
Section distinct.
Context (get_pubkey : Z → io (option serialized_extended_pubkey)) (n_keys : Z).
Context (key : Z → serialized_extended_pubkey).
Hypothesis (Hkey : ∀ j st k st', get_pubkey j st = Val (Some k, st') → k = key j).

Lemma differs_from_sound p n j st st' :
  differs_from get_pubkey p n j st = Val (true, st') →
  ∀ j', j ≤ j' < j + Z.of_nat n → compressed_pubkey p ≠ compressed_pubkey (key j').
Proof.
  revert j st. induction n as [|n IH]; intros j st H j' Hj'; [lia|].
  cbn [differs_from] in H. unfold mbind, io_bind in H.
  destruct (get_pubkey j st) as [[[k|] st1]| | |] eqn:E; try done. apply Hkey in E. subst k.
  case_bool_decide; [done|]. destruct (decide (j' = j)) as [->|]; [done|]. eapply IH; [exact H|lia].
Qed.

Lemma all_distinct_sound n i st st' :
  all_distinct get_pubkey n_keys n i st = Val (true, st') →
  ∀ i' j', i ≤ i' < i + Z.of_nat n → i' < j' < n_keys →
  compressed_pubkey (key i') ≠ compressed_pubkey (key j').
Proof.
  revert i st. induction n as [|n IH]; intros i st H i' j' Hi' Hj'; [lia|].
  cbn [all_distinct] in H. unfold mbind, io_bind in H.
  destruct (get_pubkey i st) as [[[k|] st1]| | |] eqn:E; try done. apply Hkey in E. subst k.
  destruct (differs_from _ _ _ _ st1) as [[[] st2]| | |] eqn:Ed; try done.
  destruct (decide (i' = i)) as [->|]; [|eapply IH; [exact H|lia|lia]].
  eapply differs_from_sound; [exact Ed|]. lia.
Qed.
End distinct.

(** Placeholders of one key, at different positions, have no derivation in
    common. *)
Definition disjoint_derivations (policy : policy_node) : Prop :=
  ∀ i j kp_i kp_j leaf_i leaf_j, (i < j)%nat →
    keys policy !! i = Some (kp_i, leaf_i) → keys policy !! j = Some (kp_j, leaf_j) →
    key_index kp_i = key_index kp_j →
    num_first kp_i ≠ num_first kp_j ∧ num_first kp_i ≠ num_second kp_j ∧
    num_second kp_i ≠ num_first kp_j ∧ num_second kp_i ≠ num_second kp_j.

Section disjoint.
Context (uninit_kp : policy_node_key_placeholder) (policy : policy_node).
Hypothesis (Hn : all_nodes token_fits policy = true) (Hz : zlen (keys policy) < 2 ^ 32).

Lemma placeholder_at_spec i p :
  keys policy !! i = Some p → placeholder_at uninit_kp policy (Z.of_nat i) = Some p.1.
Proof.
  intros Hp. pose proof (lookup_lt_Some _ _ _ Hp). rw /placeholder_at keys_enumerated //; [|unfold zlen in Hz; lia].
  cbn. by rw zlen_ltb_0 Nat2Z.id Hp.
Qed.

Lemma disjoint_from_sound kp n j :
  disjoint_from uninit_kp policy kp n (Z.of_nat j) = true →
  ∀ j' p, (j ≤ j' < j + n)%nat → keys policy !! j' = Some p → repeated_derivation kp p.1 = false.
Proof.
  revert j. induction n as [|n IH]; intros j H j' p Hj' Hp; [lia|]. cbn [disjoint_from] in H.
  destruct (decide (j' = j)) as [->|].
  - rewrite (placeholder_at_spec _ _ Hp) in H. apply andb_true_iff in H as [H _]. by apply negb_true_iff in H.
  - destruct (placeholder_at _ _ _); [|done]. apply andb_true_iff in H as [_ H].
    apply (IH (S j)) with (j' := j'); [|lia|exact Hp]. by replace (Z.of_nat (S j)) with (Z.of_nat j + 1) by lia.
Qed.

Lemma all_disjoint_sound n i :
  all_disjoint uninit_kp policy (zlen (keys policy)) n (Z.of_nat i) = true →
  ∀ i' j' p q, (i ≤ i' < i + n)%nat → (i' < j')%nat → keys policy !! i' = Some p → keys policy !! j' = Some q →
  repeated_derivation p.1 q.1 = false.
Proof.
  revert i. induction n as [|n IH]; intros i H i' j' p q Hi' Hij Hp Hq; [lia|]. cbn [all_disjoint] in H.
  destruct (decide (i' = i)) as [->|].
  - rewrite (placeholder_at_spec _ _ Hp) in H. apply andb_true_iff in H as [H _].
    replace (Z.of_nat i + 1) with (Z.of_nat (S i)) in H by lia.
    apply (disjoint_from_sound _ _ _ H j'); [|exact Hq]. apply lookup_lt_Some in Hq. unfold zlen. lia.
  - destruct (placeholder_at _ _ _); [|done]. apply andb_true_iff in H as [_ H].
    apply (IH (S i)) with (i' := i') (j' := j'); [|lia|exact Hij|exact Hp|exact Hq]. by replace (Z.of_nat (S i)) with (Z.of_nat i + 1) by lia.
Qed.

Lemma disjoint_sound :
  all_disjoint uninit_kp policy (zlen (keys policy)) (Z.to_nat (zlen (keys policy) - 1)) 0 = true →
  disjoint_derivations policy.
Proof.
  intros H i j kp_i kp_j li lj Hij Hi Hj Hk. pose proof (lookup_lt_Some _ _ _ Hj).
  assert (repeated_derivation kp_i kp_j = false) as Hr.
  { eapply (all_disjoint_sound _ 0 H i j (kp_i, li) (kp_j, lj)); try done. unfold zlen. lia. }
  revert Hr. rw /repeated_derivation Hk Z.eqb_refl /=. rewrite !orb_false_iff !Z.eqb_neq. naive_solver.
Qed.
End disjoint.

(** C16: what [is_policy_sane] guarantees.  When it returns 0: a miniscript
    expression inside of wsh has type B and an analysis within the limits, and
    every way to satisfy it includes a signature and needs no mix of time and
    height locks; the public keys of the policy are pairwise different,
    provided that the host cannot give two keys for one index; and two
    placeholders of the same key have no derivation step in common, so that no
    key is used twice in a script. *)
Theorem is_policy_sane_sound os J uninit_kp shared mem policy wallet_version root n_keys st st' :
  all_nodes token_fits policy = true → zlen (keys policy) < 2 ^ 32 → 1 ≤ n_keys < 2 ^ 32 →
  is_policy_sane os J uninit_kp shared mem policy wallet_version root n_keys st = Val (0, st') →
  (∀ g inner f, policy = policy_node_with_script TOKEN_WSH g inner → node_flags inner = Some f →
     ty f = MINISCRIPT_TYPE_B ∧
     (∃ info mem', compute_miniscript_policy_ext_info shared inner mem = Val (Some (info, mem')) ∧
        within_limits info = true) ∧
     ∀ p, sat_path inner p → p_sig p = true ∧ mixed p = false) ∧
  (∀ key, (∀ j st k st', get_pubkey_from_merkle_tree os J wallet_version root n_keys j st = Val (Some k, st') →
                         k = key j) →
     ∀ i j, 0 ≤ i < j → j < n_keys → compressed_pubkey (key i) ≠ compressed_pubkey (key j)) ∧
  disjoint_derivations policy.
Proof.
  intros Hn Hz Hk H. rewrite /is_policy_sane in H. unfold mbind, io_bind, lift, mbind, outcome_bind in H.
  destruct (check_miniscript shared mem policy) as [[]| | |] eqn:Hm; try done. cbn [negb mret io_ret outcome_ret] in H.
  destruct (all_distinct _ _ _ _ st) as [[[] st1]| | |] eqn:Hd; try done. cbn [negb] in H.
  rewrite keys_enumerated // in H. cbn [nth_key pr_ret] in H. rewrite zlen_ltb_0 in H.
  destruct (all_disjoint _ _ _ _ _) eqn:Hdis; [|done]. split_and!.
  - intros g inner f -> Hf. cbn in Hm. rewrite Hf in Hm. case_bool_decide as Hty; [|done]. cbn [negb] in Hm.
    unfold mbind, outcome_bind in Hm.
    destruct (compute_miniscript_policy_ext_info shared inner mem) as [[[info mem']|]| | |] eqn:He; try done.
    injection Hm as Hl. split; [done|]. split; [by eauto|]. intros p Hp.
    pose proof (all_paths_ok shared inner p Hp info mem mem' He) as [Hs _ _ _ _ Hx].
    rewrite /within_limits !andb_true_iff in Hl. destruct Hl as [[[[[[_ ?] ?] _] _] _] _]. auto.
  - intros key Hkey i j Hi Hj. eapply (all_distinct_sound _ _ key Hkey); [exact Hd| |lia].
    rw u32_small; lia.
  - by apply (disjoint_sound uninit_kp policy Hn Hz).
Qed.

(** A policy with one key, on which no key is asked for. *)
Definition sane_policy : policy_node :=
  match parse_string "wsh(and_v(v:pk(@0/**),or_d(pk(@0/<2;3>/*),older(144))))" with
  | Val (Some policy) => policy
  | _ => policy_node_constant TOKEN_0 None
  end.

Lemma is_policy_sane_sound_witness :
  disjoint_derivations sane_policy ∧
  ∀ p, sat_path (inner_of "wsh(and_v(v:pk(@0/**),or_d(pk(@0/<2;3>/*),older(144))))") p →
    p_sig p = true ∧ mixed p = false.
Proof.
  destruct (is_policy_sane_sound
    (mk_sdk (λ _, []) (λ _, []) (λ _ _, []) (λ _ _, []) (λ _ _, None) (λ _ _ _, None) (λ _ _ _, None) (λ _ _, None)
       (λ _ _, None) (λ _ _, None) (λ _, None) (λ _, None)) (mk_junk [] [] [] 0) (mk_placeholder 0 0 0) false []
    sane_policy 2 [] 1 (sample_state 0 []) (sample_state 0 [])) as (H1 & _ & H3);
    [vm_compute; reflexivity|vm_compute; reflexivity|split; [discriminate|reflexivity]|vm_compute; reflexivity|].
  split; [exact H3|].
  destruct sane_policy as [|t g inner| | | | | | | | |] eqn:E; try (vm_compute in E; discriminate E).
  destruct (node_flags inner) as [f|] eqn:Hf; [|vm_compute in E; injection E as _ _ <-; discriminate Hf].
  assert (t = TOKEN_WSH) as -> by (vm_compute in E; by injection E).
  assert (inner_of "wsh(and_v(v:pk(@0/**),or_d(pk(@0/<2;3>/*),older(144))))" = inner) as ->
    by (vm_compute in E; injection E as _ <-; vm_compute; reflexivity).
  exact (proj2 (proj2 (H1 g inner f eq_refl Hf))).
Defined.

(** ** The length of a descriptor template *)

Lemma io_bind_returns {A B} (m : io A) (k : A → io B) st a st' : m st = Val (a, st') → (m ≫= k) st = k a st'.
Proof. unfold mbind, io_bind. by intros ->. Qed.

(** C39: what is parsed as the template of a policy.  For a header of version 2,
    and a host that answers in time with data [d] that has the hash of the
    header and fits in the array, [read_and_parse_wallet_policy] parses as many
    bytes as the header announces of the array that starts with [d] and contains
    behind it what it contained before.  This is the template that was hashed
    when its length is the one of the header.  The lengths are not compared: of a
    longer template only the start is parsed, and a shorter one is continued by
    memory that the host did not send. *)
Theorem template_parsed os max sizeof base buf template bytes len h ps st d0 l rx' n :
  0 ≤ max < 2 ^ 16 → wf_buffer buf →
  read_wallet_policy_header max (mk_parse_state buf (buffer_create [] 0)) = Val (Some (h, ps)) →
  version h ≠ WALLET_POLICY_VERSION_V1 → idle st → bytes_ok template → zlen template < 2 ^ 31 →
  Forall prompt (rx st) → preimage_chunks (rx st) = Some (n, d0, l, rx') →
  let d := d0 ++ chunk_data l in
  let parsed := d ++ drop (length d) template in
  cx_sha256 os d = descriptor_template h → zlen d ≤ zlen template →
  ∃ st', rx st' = rx' ∧
    read_and_parse_wallet_policy os max sizeof base buf template bytes len st =
      (policy ← lift (parse_descriptor_template sizeof base (buffer_create parsed (descriptor_template_len h)) bytes len (version h));
       mret (option_map (λ policy, (h, parsed, policy)) policy) : io _) st' ∧
    (zlen d = descriptor_template_len h → take (Z.to_nat (descriptor_template_len h)) parsed = d).
Proof.
  intros Hmax Hb Hh Hv Hi Ht Hz Hp Hc d parsed Hd Hfit.
  pose proof (pwp_header max _ Hmax (rest_bytes_ok _ Hb) (mk_parse_state buf (buffer_create [] 0)) Hb eq_refl) as Hok.
  rewrite Hh in Hok. destruct Hok as [_ [_ _ _ _ Hdt _ _ (_ & Hbt & _)]]. rewrite (proj2 (Z.eqb_neq _ _) Hv) in Hdt.
  assert (wp False (call_get_preimage (cx_sha256 os) (descriptor_template h) template)
    (λ r st', r.1 = zlen d ∧ r.2 = parsed ∧ rx st' = rx') st) as Hwp.
  { apply get_preimage_spec; [done..|lia|right; split; [done|by eexists]|]. intros st' r _ _ Hr. rewrite Hc in Hr. cbv zeta in Hr.
    rewrite decide_True // in Hr. destruct Hr as (-> & Hr & ->). split_and!; [|by apply Hr|done]. apply i32_small. pose proof (zlen_nonneg d). unfold d in *. lia. }
  rw /wp in Hwp. destruct (call_get_preimage _ _ _ st) as [[[r t] st']| | |] eqn:Hrun; [|by destruct Hwp..].
  cbn in Hwp. destruct Hwp as (-> & -> & Hrx). exists st'. split_and!; [done| |].
  - rw /read_and_parse_wallet_policy. rw (io_bind_returns _ _ _ (Some (h, ps)) st) /lift ?Hh //.
    rw (proj2 (Z.eqb_neq _ _) Hv). rw (io_bind_returns _ _ _ (Some parsed) st'); [done|].
    rw (io_bind_returns _ _ _ _ _ Hrun). rw (proj2 (Z.ltb_ge _ _)) //. apply zlen_nonneg.
  - intros <-. by rw /parsed zlen_length take_app_length.
Qed.

Definition toy_sdk : sdk :=
  mk_sdk toy_hash (λ _, replicate 20 0) (λ _ _, replicate 64 0) (λ _ _, replicate 32 0)
    (λ _ _, None) (λ _ _ _, None) (λ _ _ _, None) (λ _ _, None) (λ _ _, None) (λ _ _, None) (λ _, None) (λ _, None).

(** A header of version 2 that announces a template of 10 characters, and a host
    that has a template of 5 characters with the hash of the header. *)
Definition short_template : list Z := str "pkh(@".
Definition announced_header : list Z := [2; 0; 10] ++ toy_hash short_template ++ [1] ++ replicate 32 0.
Definition short_host : list exchange := [reply (5 :: 5 :: short_template)].
Definition read_short (stale : list Z) : outcome (option (policy_map_wallet_header * list Z * policy_node) * dstate) :=
  read_and_parse_wallet_policy toy_sdk 192 sample_abi 0 (buffer_create announced_header (zlen announced_header))
    (stale ++ replicate 180 0) (replicate 768 0) 768 (sample_state 0 short_host).
Definition announced_read : policy_map_wallet_header * parse_state :=
  match read_wallet_policy_header 192 (mk_parse_state (buffer_create announced_header (zlen announced_header)) (buffer_create [] 0)) with
  | Val (Some r) => r
  | _ => (mk_header 0 0 0 [] [] 0 [], mk_parse_state (buffer_create [] 0) (buffer_create [] 0))
  end.

Lemma template_parsed_witness :
  ∃ st', rx st' = [] ∧
    read_short (str "wpkh(0/**)") =
      (policy ← lift (parse_descriptor_template sample_abi 0 (buffer_create (str "pkh(@0/**)" ++ replicate 180 0) 10) (replicate 768 0) 768 2);
       mret (option_map (λ policy, (announced_read.1, str "pkh(@0/**)" ++ replicate 180 0, policy)) policy) : io _) st' ∧
    (5 = 10 → take 10 (str "pkh(@0/**)" ++ replicate 180 0) = short_template).
Proof.
  apply (template_parsed toy_sdk 192 sample_abi 0 (buffer_create announced_header (zlen announced_header))
    (str "wpkh(0/**)" ++ replicate 180 0) (replicate 768 0) 768 announced_read.1 announced_read.2 (sample_state 0 short_host)
    short_template [] [] 5); try (by vm_compute); try (by apply (bool_decide_unpack _); vm_compute).
  - repeat split; try (by vm_compute); by apply (bool_decide_unpack _); vm_compute.
Defined.

(** The policy depends on what the array contained: the header and the host give
    pkh(@0/<0;1>/star) or pkh(@1/<0;1>/star), where star is the wildcard. *)
Lemma template_from_stale_memory :
  (∃ h t f st, read_short (str "wpkh(0/**)") = Val (Some (h, t, policy_node_with_key TOKEN_PKH f (mk_placeholder 0 1 0)), st)) ∧
  (∃ h t f st, read_short (str "wpkh(1/**)") = Val (Some (h, t, policy_node_with_key TOKEN_PKH f (mk_placeholder 0 1 1)), st)).
Proof. split; vm_compute; do 4 eexists; reflexivity. Qed.
