(* ===== verification/Psbt.v ===== *)
(** * Signing: the data that is signed

    Models the parts of src/src/handler/sign_psbt.c that read the maps of a PSBT
    (version 2) and compute the digests that are signed: the amounts and scripts
    of previous outputs, the hashes shared by the segwit inputs, and the digest
    of an input for legacy, segwit version 0 (BIP-143) and taproot (BIP-341)
    inputs; and src/src/handler/sign_psbt/update_hashes_with_map_value.c.

    The fields of a map are requested from the host, which proves them against
    the Merkle roots of the map.  [junk n] is the contents of an array of [n]
    bytes that is not initialised. *)

From S2P Require Import Prelude Bytes Buffer Merkle Dispatcher MerkleClient Script Crypto RawTx PolicySyntax.

(** ** common/psbt.h and constants.h *)
Definition PSBT_GLOBAL_TX_VERSION : Z := 0x02.
Definition PSBT_GLOBAL_FALLBACK_LOCKTIME : Z := 0x03.
Definition PSBT_IN_NON_WITNESS_UTXO : Z := 0x00.
Definition PSBT_IN_WITNESS_UTXO : Z := 0x01.
Definition PSBT_IN_SIGHASH_TYPE : Z := 0x03.
Definition PSBT_IN_REDEEM_SCRIPT : Z := 0x04.
Definition PSBT_IN_WITNESS_SCRIPT : Z := 0x05.
Definition PSBT_IN_BIP32_DERIVATION : Z := 0x06.
Definition PSBT_IN_PREVIOUS_TXID : Z := 0x0E.
Definition PSBT_IN_OUTPUT_INDEX : Z := 0x0F.
Definition PSBT_IN_SEQUENCE : Z := 0x10.
Definition PSBT_IN_TAP_BIP32_DERIVATION : Z := 0x16.
Definition PSBT_OUT_BIP32_DERIVATION : Z := 0x02.
Definition PSBT_OUT_AMOUNT : Z := 0x03.
Definition PSBT_OUT_SCRIPT : Z := 0x04.
Definition PSBT_OUT_TAP_BIP32_DERIVATION : Z := 0x07.

Definition MAX_OUTPUT_SCRIPTPUBKEY_LEN : Z := 83.
Definition SIGHASH_DEFAULT : Z := 0.
Definition SIGHASH_ALL : Z := 1.
Definition SIGHASH_NONE : Z := 2.
Definition SIGHASH_SINGLE : Z := 3.
Definition SIGHASH_ANYONECANPAY : Z := 0x80.

Definition BIP0341_sighash_tag : list Z := [0x54; 0x61; 0x70; 0x53; 0x69; 0x67; 0x68; 0x61; 0x73; 0x68].

(** ** State *)
Record in_out_info := mk_in_out {
  io_map : merkleized_map_commitment;
  unexpected_pubkey_error : bool;
  placeholder_found : bool;
  is_change : bool;
  address_index : Z;
  scriptPubKey : list Z;
  scriptPubKey_len : Z
}.

Record input_info := mk_input {
  in_out : in_out_info;
  has_witnessUtxo : bool;
  has_nonWitnessUtxo : bool;
  has_redeemScript : bool;
  has_sighash_type : bool;
  prevout_amount : Z;
  script : list Z;
  script_len : Z;
  sighash_type : Z
}.

Record segwit_hashes := mk_hashes {
  sha_prevouts : list Z;
  sha_amounts : list Z;
  sha_scriptpubkeys : list Z;
  sha_sequences : list Z;
  sha_outputs : list Z
}.

Record placeholder_info := mk_placeholder_info {
  placeholder : policy_node_key_placeholder;
  cur_index : Z;
  fingerprint : Z;
  key_derivation_length : Z;
  key_derivation : list Z;
  pubkey : serialized_extended_pubkey;
  is_tapscript : bool;
  tapleaf_hash : list Z
}.

(** The transaction of the state [sign_psbt_state_t]. *)
Record psbt_tx := mk_psbt_tx {
  tx_version : Z;
  tx_locktime : Z;
  tx_n_inputs : Z;
  inputs_root : list Z;
  tx_n_outputs : Z;
  outputs_root : list Z
}.

Definition is_p2wpkh (script : list Z) (script_len : Z) : outcome bool :=
  match_template script script_len 22 [(0, 0x00); (1, 0x14)].
Definition is_p2wsh (script : list Z) (script_len : Z) : outcome bool :=
  match_template script script_len 34 [(0, 0x00); (1, 0x20)].

(** ** Hashes *)
Definition crypto_hash_update_u8 (ctx : list Z) (data : Z) : outcome (list Z) := crypto_hash_update ctx [data] 1.
Definition crypto_hash_update_u16 (ctx : list Z) (data : Z) : outcome (list Z) :=
  buf ← write_u16_be (replicate 2 0) 0 data; crypto_hash_update ctx buf 2.
Definition crypto_hash_update_u32 (ctx : list Z) (data : Z) : outcome (list Z) :=
  buf ← write_u32_be (replicate 4 0) 0 data; crypto_hash_update ctx buf 4.

(** [write_u32_le(tmp, 0, data); crypto_hash_update(ctx, tmp, 4)]. *)
Definition hash_u32_le (tmp ctx : list Z) (data : Z) : outcome (list Z) :=
  tmp ← write_u32_le tmp 0 data; crypto_hash_update ctx tmp 4.

(** *** update_hashes_with_map_value.c: the contexts that are not NULL. *)
Record hashes_state := mk_hashes_state { hash_unprefixed : option (list Z); hash_prefixed : option (list Z) }.

Definition opt_update (f : list Z → outcome (list Z)) (ctx : option (list Z)) : outcome (option (list Z)) :=
  match ctx with None => mret None | Some ctx => ctx ← f ctx; mret (Some ctx) end.

Definition cb_hash_len (len : Z) (s : hashes_state) : outcome hashes_state :=
  p ← opt_update (λ ctx, crypto_hash_update_varint ctx len) (hash_prefixed s);
  mret (mk_hashes_state (hash_unprefixed s) p).

Definition cb_hash_data (data : buffer) (s : hashes_state) : outcome hashes_state :=
  let data_len := size_t (size data - offset data) in
  let data_start_ptr := drop (Z.to_nat (offset data)) (ptr data) in
  p ← opt_update (λ ctx, crypto_hash_update ctx data_start_ptr data_len) (hash_prefixed s);
  u ← opt_update (λ ctx, crypto_hash_update ctx data_start_ptr data_len) (hash_unprefixed s);
  mret (mk_hashes_state u p).

Section psbt.
Context (OS : sdk) (junk : Z → list Z) (uninit : Z).

#[local] Abbreviation sha256 := (cx_sha256 OS).

Definition update_hashes_with_map_value (map : merkleized_map_commitment) (key : Z)
    (hash_unprefixed hash_prefixed : option (list Z)) : io (Z * hashes_state) :=
  call_stream_merkleized_map_value sha256 (Some cb_hash_len) cb_hash_data map [key]
    (mk_hashes_state hash_unprefixed hash_prefixed).

(** ** Maps *)

(** A field of at most [n] bytes. *)
Definition get_value (map : merkleized_map_commitment) (key n : Z) : io (Z * list Z) :=
  call_get_merkleized_map_value sha256 map [key] (junk n).

(** [call_get_merkleized_map]; the commitment is set on success. *)
Definition call_get_merkleized_map (root : list Z) (size index : Z) : io (Z * option merkleized_map_commitment) :=
  '(res, map, _) ← call_get_merkleized_map_with_callback sha256 (CS := ()) None (junk (9 + 2 * 32))
      (junk MAX_CHECK_MERKLE_TREE_SORTED_PREIMAGE_SIZE) root size index ();
  mret (res, map).

(** The commitment of the [i]-th map, when the call succeeds. *)
Definition get_map (root : list Z) (size index : Z) : io (option merkleized_map_commitment) :=
  '(res, map) ← call_get_merkleized_map root size index;
  mret (if res <? 0 then None else map).

(** A sequence field: 0xFFFFFFFF when it is absent. *)
Definition get_sequence (map : merkleized_map_commitment) : io (list Z) :=
  '(len, raw) ← get_value map PSBT_IN_SEQUENCE 4;
  if negb (len =? 4) then lift (stores raw 0 (replicate 4 0xFF)) else mret raw.

(** The failure of a function that sends a status word. *)
Definition fail {A} (sw : Z) : io (option A) := _ ← SEND_SW sw; mret None.

(** ** Outputs *)
Definition hash_output_n (tx : psbt_tx) (ctx : list Z) (index : Z) : io (Z * list Z) :=
  if tx_n_outputs tx <=? index then mret (-1, ctx)
  else
    m ← get_map (outputs_root tx) (i32 (tx_n_outputs tx)) (i32 index);
    match m with
    | None => mret (-1, ctx)
    | Some ith_map =>
        '(len, amount_raw) ← get_value ith_map PSBT_OUT_AMOUNT 8;
        if negb (len =? 8) then mret (-1, ctx)
        else
          ctx ← lift (crypto_hash_update ctx amount_raw 8);
          '(out_script_len, out_script) ← get_value ith_map PSBT_OUT_SCRIPT MAX_OUTPUT_SCRIPTPUBKEY_LEN;
          if out_script_len =? -1 then mret (-1, ctx)
          else
            ctx ← lift (crypto_hash_update_varint ctx (u64 out_script_len));
            ctx ← lift (crypto_hash_update ctx out_script (size_t out_script_len));
            mret (0, ctx)
    end.

Fixpoint hash_outputs_loop (fuel : nat) (tx : psbt_tx) (ctx : list Z) (i : Z) : io (Z * list Z) :=
  match fuel with
  | O => λ _, OutOfFuel
  | S f =>
      if i <? tx_n_outputs tx then
        '(res, ctx) ← hash_output_n tx ctx i;
        if negb (res =? 0) then mret (-1, ctx) else hash_outputs_loop f tx ctx (i + 1)
      else mret (0, ctx)
  end.

(** Every output needs an answer of the host. *)
Definition hash_outputs (tx : psbt_tx) (ctx : list Z) : io (Z * list Z) :=
  fuel ← answers_left; hash_outputs_loop (S fuel) tx ctx 0.

(** ** Previous outputs

    The results are the amount, the contents of the array [spk] that receives
    the script, and the length of the script. *)
Definition amount_script : Type := Z * list Z * Z.

Definition get_amount_scriptpubkey_from_psbt_nonwitness (input_map : merkleized_map_commitment) (spk : list Z)
    (expected_prevout_hash : option (list Z)) : io (option amount_script) :=
  '(len, prevout_n) ← call_get_merkleized_map_value_u32_le sha256 (junk 4) input_map [PSBT_IN_OUTPUT_INDEX];
  if negb (len =? 4) then mret None
  else
    '(res, parser_outputs) ←
      call_psbt_parse_rawtx uninit sha256 (junk 32) input_map [PSBT_IN_NON_WITNESS_UTXO] (i32 (default uninit prevout_n))
        (mk_outputs uninit uninit (junk MAX_PREVOUT_SCRIPTPUBKEY_LEN) (junk 32));
    if res <? 0 then mret None
    else if match expected_prevout_hash with None => false | Some h => negb (bool_decide (txid parser_outputs = h)) end
    then mret None
    else
      src ← lift (loads (vout_scriptpubkey parser_outputs) 0 (vout_scriptpubkey_len parser_outputs));
      spk ← lift (stores spk 0 src);
      mret (Some (vout_value parser_outputs, spk, vout_scriptpubkey_len parser_outputs)).

Definition get_amount_scriptpubkey_from_psbt_witness (input_map : merkleized_map_commitment) (spk : list Z)
    : io (option amount_script) :=
  '(wit_utxo_len, raw_witnessUtxo) ← get_value input_map PSBT_IN_WITNESS_UTXO (8 + 1 + MAX_PREVOUT_SCRIPTPUBKEY_LEN);
  if wit_utxo_len <? 0 then mret None
  else
    wit_utxo_scriptPubkey_len ← lift (load raw_witnessUtxo 8);
    if negb (wit_utxo_len =? 8 + 1 + wit_utxo_scriptPubkey_len) then mret None
    else
      wit_utxo_prevout_amount ← lift (read_u64_le raw_witnessUtxo 0);
      src ← lift (loads raw_witnessUtxo 9 wit_utxo_scriptPubkey_len);
      spk ← lift (stores spk 0 src);
      mret (Some (wit_utxo_prevout_amount, spk, wit_utxo_scriptPubkey_len)).

Definition get_amount_scriptpubkey_from_psbt (input_map : merkleized_map_commitment) (spk : list Z)
    : io (option amount_script) :=
  r ← get_amount_scriptpubkey_from_psbt_witness input_map spk;
  match r with
  | Some _ => mret r
  | None => get_amount_scriptpubkey_from_psbt_nonwitness input_map spk None
  end.

(** ** The hashes of the segwit inputs *)

(** The outpoint of an input, as 32 and 4 bytes. *)
Definition get_outpoint (map : merkleized_map_commitment) : io (option (list Z * list Z)) :=
  '(len, prevout_hash) ← get_value map PSBT_IN_PREVIOUS_TXID 32;
  if negb (len =? 32) then fail SW_INCORRECT_DATA
  else
    '(len, prevout_n_raw) ← get_value map PSBT_IN_OUTPUT_INDEX 4;
    if negb (len =? 4) then fail SW_INCORRECT_DATA else mret (Some (prevout_hash, prevout_n_raw)).

Fixpoint prevouts_loop (fuel : nat) (tx : psbt_tx) (prevouts sequences : list Z) (i : Z) : io (option (list Z * list Z)) :=
  match fuel with
  | O => λ _, OutOfFuel
  | S f =>
      if i <? tx_n_inputs tx then
        m ← get_map (inputs_root tx) (i32 (tx_n_inputs tx)) (i32 i);
        match m with
        | None => fail SW_INCORRECT_DATA
        | Some ith_map =>
            o ← get_outpoint ith_map;
            match o with
            | None => mret None
            | Some (prevout_hash, prevout_n_raw) =>
                prevouts ← lift (crypto_hash_update prevouts prevout_hash 32);
                prevouts ← lift (crypto_hash_update prevouts prevout_n_raw 4);
                sequence ← get_sequence ith_map;
                sequences ← lift (crypto_hash_update sequences sequence 4);
                prevouts_loop f tx prevouts sequences (i + 1)
            end
        end
      else mret (Some (prevouts, sequences))
  end.

Fixpoint amounts_loop (fuel : nat) (tx : psbt_tx) (amounts scriptpubkeys : list Z) (i : Z) : io (option (list Z * list Z)) :=
  match fuel with
  | O => λ _, OutOfFuel
  | S f =>
      if i <? tx_n_inputs tx then
        m ← get_map (inputs_root tx) (i32 (tx_n_inputs tx)) (i32 i);
        match m with
        | None => fail SW_INCORRECT_DATA
        | Some ith_map =>
            r ← get_amount_scriptpubkey_from_psbt ith_map (junk MAX_PREVOUT_SCRIPTPUBKEY_LEN);
            match r with
            | None => fail SW_INCORRECT_DATA
            | Some (in_amount, in_scriptPubKey, in_scriptPubKey_len) =>
                in_amount_le ← lift (write_u64_le (junk 8) 0 in_amount);
                amounts ← lift (crypto_hash_update amounts in_amount_le 8);
                scriptpubkeys ← lift (crypto_hash_update_varint scriptpubkeys in_scriptPubKey_len);
                scriptpubkeys ← lift (crypto_hash_update scriptpubkeys in_scriptPubKey in_scriptPubKey_len);
                amounts_loop f tx amounts scriptpubkeys (i + 1)
            end
        end
      else mret (Some (amounts, scriptpubkeys))
  end.

Definition compute_segwit_hashes (tx : psbt_tx) : io (option segwit_hashes) :=
  fuel ← answers_left;
  r ← prevouts_loop (S fuel) tx [] [] 0;
  match r with
  | None => mret None
  | Some (prevouts, sequences) =>
      '(res, outputs) ← hash_outputs tx [];
      if res =? -1 then fail SW_INCORRECT_DATA
      else
        fuel ← answers_left;
        r ← amounts_loop (S fuel) tx [] [] 0;
        match r with
        | None => mret None
        | Some (amounts, scriptpubkeys) =>
            mret (Some (mk_hashes (sha256 prevouts) (sha256 amounts) (sha256 scriptpubkeys) (sha256 sequences) (sha256 outputs)))
        end
  end.

(** ** Legacy inputs *)

(** The script code of an input: the redeem script when there is one. *)
Definition hash_legacy_script (input : input_info) (ctx : list Z) : io (option (list Z)) :=
  if negb (has_redeemScript input) then
    ctx ← lift (crypto_hash_update_varint ctx (scriptPubKey_len (in_out input)));
    ctx ← lift (crypto_hash_update ctx (scriptPubKey (in_out input)) (scriptPubKey_len (in_out input)));
    mret (Some ctx)
  else
    '(redeemScript_len, hs) ← update_hashes_with_map_value (io_map (in_out input)) PSBT_IN_REDEEM_SCRIPT None (Some ctx);
    if redeemScript_len <? 0 then fail SW_INCORRECT_DATA else mret (hash_prefixed hs).

Fixpoint legacy_inputs_loop (fuel : nat) (tx : psbt_tx) (input : input_info) (cur_input_index : Z) (ctx : list Z) (i : Z)
    : io (option (list Z)) :=
  match fuel with
  | O => λ _, OutOfFuel
  | S f =>
      if i <? tx_n_inputs tx then
        m ← (if negb (i =? cur_input_index) then get_map (inputs_root tx) (i32 (tx_n_inputs tx)) (i32 i)
             else mret (Some (io_map (in_out input))));
        match m with
        | None => fail SW_INCORRECT_DATA
        | Some ith_map =>
            o ← get_outpoint ith_map;
            match o with
            | None => mret None
            | Some (ith_prevout_hash, ith_prevout_n_raw) =>
                ctx ← lift (crypto_hash_update ctx ith_prevout_hash 32);
                ctx ← lift (crypto_hash_update ctx ith_prevout_n_raw 4);
                c ← (if negb (i =? cur_input_index) then ctx ← lift (crypto_hash_update_u8 ctx 0x00); mret (Some ctx)
                     else hash_legacy_script input ctx);
                match c with
                | None => mret None
                | Some ctx =>
                    ith_nSequence_raw ← get_sequence ith_map;
                    ctx ← lift (crypto_hash_update ctx ith_nSequence_raw 4);
                    legacy_inputs_loop f tx input cur_input_index ctx (i + 1)
                end
            end
        end
      else mret (Some ctx)
  end.

Definition compute_sighash_legacy (tx : psbt_tx) (input : input_info) (cur_input_index : Z) : io (option (list Z)) :=
  ctx ← lift (hash_u32_le (junk 4) [] (tx_version tx));
  ctx ← lift (crypto_hash_update_varint ctx (tx_n_inputs tx));
  fuel ← answers_left;
  c ← legacy_inputs_loop (S fuel) tx input cur_input_index ctx 0;
  match c with
  | None => mret None
  | Some ctx =>
      ctx ← lift (crypto_hash_update_varint ctx (tx_n_outputs tx));
      '(res, ctx) ← hash_outputs tx ctx;
      if res =? -1 then fail SW_INCORRECT_DATA
      else
        ctx ← lift (hash_u32_le (junk 4) ctx (tx_locktime tx));
        ctx ← lift (hash_u32_le (junk 4) ctx (sighash_type input));
        mret (Some (sha256 (sha256 ctx)))
  end.

(** ** Segwit version 0 inputs: BIP-143 *)
Definition is_single (sighash_byte : Z) : bool := Z.land sighash_byte 0x1f =? SIGHASH_SINGLE.
Definition is_none (sighash_byte : Z) : bool := Z.land sighash_byte 0x1f =? SIGHASH_NONE.
Definition anyone_can_pay (sighash_byte : Z) : bool := negb (Z.land sighash_byte SIGHASH_ANYONECANPAY =? 0).

(** The script code, prefixed by its length. *)
Definition hash_segwitv0_script (input : input_info) (ctx : list Z) : io (option (list Z)) :=
  p2wpkh ← lift (is_p2wpkh (script input) (script_len input));
  if (p2wpkh : bool) then
    ctx ← lift (crypto_hash_update_u32 ctx 0x1976a914);
    ctx ← lift (crypto_hash_update ctx (drop 2 (script input)) 20);
    ctx ← lift (crypto_hash_update_u16 ctx 0x88ac);
    mret (Some ctx)
  else
    p2wsh ← lift (is_p2wsh (script input) (script_len input));
    if (p2wsh : bool) then
      '(witnessScript_len, hs) ← update_hashes_with_map_value (io_map (in_out input)) PSBT_IN_WITNESS_SCRIPT (Some []) (Some ctx);
      if witnessScript_len <? 0 then fail SW_INCORRECT_DATA
      else
        let witnessScript_hash := sha256 (default [] (hash_unprefixed hs)) in
        s0 ← lift (load (script input) 0);
        s1 ← lift (load (script input) 1);
        program ← lift (loads (script input) 2 32);
        if negb (script_len input =? 2 + 32) || negb (s0 =? 0x00) || negb (s1 =? 0x20) ||
           negb (bool_decide (program = witnessScript_hash))
        then fail SW_INCORRECT_DATA
        else mret (hash_prefixed hs)
    else fail SW_INCORRECT_DATA.

(** [hashOutputs]. *)
Definition segwitv0_hash_outputs (tx : psbt_tx) (hashes : segwit_hashes) (sighash_byte cur_input_index : Z) : io (option (list Z)) :=
  if negb (is_single sighash_byte) && negb (is_none sighash_byte) then mret (Some (sha256 (sha_outputs hashes)))
  else if is_single sighash_byte && (cur_input_index <? tx_n_outputs tx) then
    '(res, ctx) ← hash_output_n tx [] cur_input_index;
    if res =? -1 then fail SW_INCORRECT_DATA else mret (Some (sha256 (sha256 ctx)))
  else mret (Some (replicate 32 0)).

(** What follows the script code. *)
Definition segwitv0_end (tx : psbt_tx) (hashes : segwit_hashes) (input : input_info) (cur_input_index : Z) (ctx : list Z)
    : io (option (list Z)) :=
  '(witness_utxo_len, witness_utxo) ← get_value (io_map (in_out input)) PSBT_IN_WITNESS_UTXO (8 + 1 + MAX_PREVOUT_SCRIPTPUBKEY_LEN);
  if witness_utxo_len <? 8 then fail SW_INCORRECT_DATA
  else
    ctx ← lift (crypto_hash_update ctx witness_utxo 8);
    nSequence_raw ← get_sequence (io_map (in_out input));
    ctx ← lift (crypto_hash_update ctx nSequence_raw 4);
    h ← segwitv0_hash_outputs tx hashes (Z.land (sighash_type input) 0xFF) cur_input_index;
    match h with
    | None => mret None
    | Some hashOutputs =>
        ctx ← lift (crypto_hash_update ctx hashOutputs 32);
        ctx ← lift (hash_u32_le (junk 8) ctx (tx_locktime tx));
        ctx ← lift (hash_u32_le (junk 8) ctx (sighash_type input));
        mret (Some (sha256 (sha256 ctx)))
    end.

Definition compute_sighash_segwitv0 (tx : psbt_tx) (hashes : segwit_hashes) (input : input_info) (cur_input_index : Z)
    : io (option (list Z)) :=
  let sighash_byte := Z.land (sighash_type input) 0xFF in
  ctx ← lift (hash_u32_le (junk 8) [] (tx_version tx));
  let dbl_hash := if negb (anyone_can_pay sighash_byte) then sha256 (sha_prevouts hashes) else replicate 32 0 in
  ctx ← lift (crypto_hash_update ctx dbl_hash 32);
  let dbl_hash :=
    if negb (anyone_can_pay sighash_byte) && negb (is_single sighash_byte) && negb (is_none sighash_byte)
    then sha256 (sha_sequences hashes) else replicate 32 0 in
  ctx ← lift (crypto_hash_update ctx dbl_hash 32);
  o ← get_outpoint (io_map (in_out input));
  match o with
  | None => mret None
  | Some (prevout_hash, prevout_n_raw) =>
      ctx ← lift (crypto_hash_update ctx prevout_hash 32);
      ctx ← lift (crypto_hash_update ctx prevout_n_raw 4);
      c ← hash_segwitv0_script input ctx;
      match c with
      | None => mret None
      | Some ctx => segwitv0_end tx hashes input cur_input_index ctx
      end
  end.

(** ** Taproot inputs: BIP-341 and BIP-342 *)

(** A field of at most [n] bytes, in the first bytes of the array [tmp]. *)
Definition get_value_tmp (map : merkleized_map_commitment) (key n : Z) (tmp : list Z) : io (Z * list Z) :=
  '(len, raw) ← call_get_merkleized_map_value sha256 map [key] (take (Z.to_nat n) tmp);
  mret (len, raw ++ drop (Z.to_nat n) tmp).

(** The data of the input with SIGHASH_ANYONECANPAY. *)
Definition hash_segwitv1_input (input : input_info) (tmp ctx : list Z) : io (option (list Z * list Z)) :=
  let map := io_map (in_out input) in
  '(len, tmp) ← get_value_tmp map PSBT_IN_PREVIOUS_TXID 32 tmp;
  if negb (len =? 32) then fail SW_INCORRECT_DATA
  else
    ctx ← lift (crypto_hash_update ctx tmp 32);
    '(len, tmp) ← get_value_tmp map PSBT_IN_OUTPUT_INDEX 4 tmp;
    if negb (len =? 4) then fail SW_INCORRECT_DATA
    else
      ctx ← lift (crypto_hash_update ctx tmp 4);
      '(len, tmp) ← get_value_tmp map PSBT_IN_WITNESS_UTXO (8 + 1 + MAX_PREVOUT_SCRIPTPUBKEY_LEN) tmp;
      if len <? 8 then fail SW_INCORRECT_DATA
      else
        ctx ← lift (crypto_hash_update ctx tmp 8);
        ctx ← lift (crypto_hash_update_varint ctx (scriptPubKey_len (in_out input)));
        ctx ← lift (crypto_hash_update ctx (scriptPubKey (in_out input)) (scriptPubKey_len (in_out input)));
        '(len, tmp) ← get_value_tmp map PSBT_IN_SEQUENCE 4 tmp;
        tmp ← (if negb (len =? 4) then lift (stores tmp 0 (replicate 4 0xFF)) else mret tmp);
        ctx ← lift (crypto_hash_update ctx tmp 4);
        mret (Some (ctx, tmp)).

(** From the version to the type of spend. *)
Definition segwitv1_start (tx : psbt_tx) (hashes : segwit_hashes) (sighash_byte : Z) (is_tapscript : bool) (tmp : list Z)
    : outcome (list Z * list Z) :=
  let ctx := crypto_tr_tagged_hash_init OS BIP0341_sighash_tag in
  ctx ← crypto_hash_update_u8 ctx 0x00;
  ctx ← crypto_hash_update_u8 ctx sighash_byte;
  tmp ← write_u32_le tmp 0 (tx_version tx);
  ctx ← crypto_hash_update ctx tmp 4;
  tmp ← write_u32_le tmp 0 (tx_locktime tx);
  ctx ← crypto_hash_update ctx tmp 4;
  ctx ← (if negb (Z.land sighash_byte 0x80 =? SIGHASH_ANYONECANPAY) then
           ctx ← crypto_hash_update ctx (sha_prevouts hashes) 32;
           ctx ← crypto_hash_update ctx (sha_amounts hashes) 32;
           ctx ← crypto_hash_update ctx (sha_scriptpubkeys hashes) 32;
           crypto_hash_update ctx (sha_sequences hashes) 32
         else mret ctx);
  ctx ← (if negb (Z.land sighash_byte 3 =? SIGHASH_NONE) && negb (Z.land sighash_byte 3 =? SIGHASH_SINGLE)
         then crypto_hash_update ctx (sha_outputs hashes) 32 else mret ctx);
  let ext_flag := if (is_tapscript : bool) then 1 else 0 in
  ctx ← crypto_hash_update_u8 ctx (u8 (ext_flag * 2 + 0));
  mret (ctx, tmp).

(** The single output, and the extension for a tapscript. *)
Definition segwitv1_end (tx : psbt_tx) (sighash_byte cur_input_index : Z) (info : placeholder_info) (tmp ctx : list Z)
    : io (option (list Z)) :=
  c ← (if Z.land sighash_byte 3 =? SIGHASH_SINGLE then
         '(res, octx) ← hash_output_n tx [] cur_input_index;
         if res =? -1 then fail SW_INCORRECT_DATA
         else
           tmp ← lift (stores tmp 0 (sha256 octx));
           ctx ← lift (crypto_hash_update ctx tmp 32);
           mret (Some ctx)
       else mret (Some ctx));
  match c with
  | None => mret None
  | Some ctx =>
      ctx ← (if is_tapscript info then
               ctx ← lift (crypto_hash_update ctx (tapleaf_hash info) 32);
               ctx ← lift (crypto_hash_update_u8 ctx 0x00);
               lift (crypto_hash_update_u32 ctx 0xffffffff)
             else mret ctx);
      mret (Some (sha256 ctx))
  end.

Definition compute_sighash_segwitv1 (tx : psbt_tx) (hashes : segwit_hashes) (input : input_info) (cur_input_index : Z)
    (info : placeholder_info) : io (option (list Z)) :=
  let sighash_byte := Z.land (sighash_type input) 0xFF in
  '(ctx, tmp) ← lift (segwitv1_start tx hashes sighash_byte (is_tapscript info)
                        (junk (Z.max 32 (8 + 1 + MAX_PREVOUT_SCRIPTPUBKEY_LEN))));
  r ← (if Z.land sighash_byte 0x80 =? SIGHASH_ANYONECANPAY then hash_segwitv1_input input tmp ctx
       else
         tmp ← lift (write_u32_le tmp 0 cur_input_index);
         ctx ← lift (crypto_hash_update ctx tmp 4);
         mret (Some (ctx, tmp)));
  match r with
  | None => mret None
  | Some (ctx, tmp) => segwitv1_end tx sighash_byte cur_input_index info tmp ctx
  end.
End psbt.
