(* ===== verification/HostSample.v ===== *)
(** * A host that answers

    Concrete hosts for the examples of the signing flow: a host keeps the maps of
    a PSBT as lists of keys and values, commits to them with Merkle trees, and
    answers the requests of the client from them, as a wallet would.  The
    hash of the trees is [toy_hash]. *)
From S2P Require Import Prelude Bytes Buffer Merkle Dispatcher MerkleClient MerkleProof Run Crypto Script RawTx RawTxProof Psbt.

(** The answers with the proof of element [i] of a list, and with the element. *)
Definition host_proof (elements : list (list Z)) (i : nat) : exchange :=
  let hashes := merkle_compute_element_hash toy_hash <$> elements in
  let p := path (zlen hashes) (Z.of_nat i) in
  reply (nth i hashes [] ++ [zlen p; zlen p] ++ concat (siblings toy_hash (merkle_tree hashes) p)).
Definition host_element (elements : list (list Z)) (i : nat) : list exchange :=
  let e := nth i elements [] in
  [host_proof elements i; reply (varint_enc (1 + zlen e) ++ [1 + zlen e] ++ 0 :: e)].
Definition sample_root (elements : list (list Z)) : list Z :=
  root toy_hash (merkle_tree (merkle_compute_element_hash toy_hash <$> elements)).

(** A map, as a list of keys and values.  The answers to the lookup of a one-byte
    key; an absent key has no answer but the first. *)
Definition sample_map : Type := list (list Z * list Z).
Definition host_lookup (m : sample_map) (key : Z) : list exchange :=
  match list_find (λ e, e.1 = [key]) m with
  | Some (i, _) => reply [1; Z.of_nat i] :: host_proof (m.*1) i :: host_element (m.*2) i
  | None => [reply [0; 0]]
  end.
Definition host_lookups (m : sample_map) (keys : list Z) : list exchange := concat (host_lookup m <$> keys).
Definition sample_commitment (m : sample_map) : merkleized_map_commitment :=
  mk_commitment (zlen m) (sample_root (m.*1)) (sample_root (m.*2)).
Definition ser_commitment (m : sample_map) : list Z :=
  let c := sample_commitment m in varint_enc (map_size c) ++ keys_root c ++ values_root c.

(** The answers to the request of map [i] of a list, whose keys are then listed;
    the values of the keys for which [more] holds are sent when the key is. *)
Definition host_keys (more : Z → bool) (m : sample_map) : list exchange :=
  concat ((λ j, host_element (m.*1) j ++ if more (List.hd 0 (nth j (m.*1) [])) then host_element (m.*2) j else [])
            <$> seq 0 (length m)).
Definition host_map_with (more : Z → bool) (maps : list sample_map) (i : nat) : list exchange :=
  host_element (ser_commitment <$> maps) i ++ host_keys more (nth i maps []).
Definition host_map : list sample_map → nat → list exchange := host_map_with (λ _, false).

(** A transaction that spends a P2WPKH output. *)
Definition sample_in : sample_map :=
  [([PSBT_IN_WITNESS_UTXO], le_bytes 8 1000 ++ [22; 0; 20] ++ replicate 20 7); ([PSBT_IN_PREVIOUS_TXID], replicate 32 9);
   ([PSBT_IN_OUTPUT_INDEX], [1; 0; 0; 0])].
Definition sample_out : sample_map := [([PSBT_OUT_AMOUNT], le_bytes 8 900); ([PSBT_OUT_SCRIPT], [0; 20] ++ replicate 20 8)].
(** Cryptography that fails, besides the hash, and arrays full of zeros. *)
Definition sample_sdk : sdk := mk_sdk toy_hash toy_hash (λ _ _, []) (λ _ _, []) (λ _ _, None) (λ _ _ _, None) (λ _ _ _, None) (λ _ _, None) (λ _ _, None) (λ _ _, None) (λ _, None) (λ _, None).
Definition sample_array (n : Z) : list Z := replicate (Z.to_nat n) 0.
Definition sample_psbt : psbt_tx := mk_psbt_tx 2 0 1 (sample_root (ser_commitment <$> [sample_in])) 1 (sample_root (ser_commitment <$> [sample_out])).

Lemma sample_array_length n : 0 ≤ n → zlen (sample_array n) = n.
Proof. intros Hn. rw /sample_array /zlen length_replicate. lia. Qed.
