(* ===== verification/Sighash.v ===== *)
(** * Signing: correctness of the digests

    The digests that Psbt.v computes are those of BIP-143, BIP-341 and of legacy
    transactions, for the fields that the host has provided.  Nothing is assumed
    of the host: a run that returns a digest has obtained the fields during the
    run, by the lookups in the maps of the PSBT. *)

From S2P Require Import Prelude Bytes Buffer Merkle Dispatcher MerkleClient MerkleProof Run Crypto Script RawTx RawTxProof Psbt HostSample.

(** ** Reference definitions *)

(** An output, with its amount as 8 bytes. *)
Record out_data := mk_out_data { od_amount : list Z; od_script : list Z }.
Definition ser_out (o : out_data) : list Z := od_amount o ++ ser_string (od_script o).

(** The data of an input, and the previous output that it spends. *)
Record in_data := mk_in_data { id_txid : list Z; id_vout : list Z; id_sequence : list Z }.
Definition outpoint (i : in_data) : list Z := id_txid i ++ id_vout i.

(** The flags of a sighash type: the bit of ANYONECANPAY, and the type of
    signature in the low bits (five in BIP-143, two in BIP-341). *)
Definition acp (t : Z) : bool := Z.testbit t 7.
Definition base_type (bits t : Z) : Z := t `mod` 2 ^ bits.

Section reference.
Context (H : list Z → list Z).

Definition dsha (l : list Z) : list Z := H (H l).

(** The hashes that the inputs share. *)
Definition hashes_of (ins : list in_data) (prevouts outs : list out_data) : segwit_hashes :=
  mk_hashes (H (concat (outpoint <$> ins))) (H (concat (od_amount <$> prevouts)))
    (H (concat ((λ o, ser_string (od_script o)) <$> prevouts))) (H (concat (id_sequence <$> ins)))
    (H (concat (ser_out <$> outs))).

(** BIP-143.  [ins] and [outs] are the inputs and outputs of the transaction,
    [i] the input that is signed and [out] the output with the same index, if
    there is one. *)
Definition bip143 (version locktime hash_type : Z) (ins : list in_data) (outs : list out_data) (i : in_data)
    (out : option out_data) (script_code amount : list Z) : list Z :=
  let single := base_type 5 hash_type =? SIGHASH_SINGLE in
  let none := base_type 5 hash_type =? SIGHASH_NONE in
  let hashPrevouts := if acp hash_type then replicate 32 0 else dsha (concat (outpoint <$> ins)) in
  let hashSequence :=
    if acp hash_type || single || none then replicate 32 0 else dsha (concat (id_sequence <$> ins)) in
  let hashOutputs :=
    if single then match out with Some o => dsha (ser_out o) | None => replicate 32 0 end
    else if none then replicate 32 0
    else dsha (concat (ser_out <$> outs)) in
  dsha (le_bytes 4 version ++ hashPrevouts ++ hashSequence ++ outpoint i ++ script_code ++ amount ++ id_sequence i ++
        hashOutputs ++ le_bytes 4 locktime ++ le_bytes 4 hash_type).

(** BIP-341, with the extension of BIP-342 when there is a leaf; [prevouts] are
    the amounts and scripts of the outputs that are spent, [prevout] the one of
    the input that is signed and [n] its index.  There is no annex. *)
Definition tagged (tag data : list Z) : list Z := H (H tag ++ H tag ++ data).

Definition bip341 (version locktime hash_type n : Z) (ins : list in_data) (prevouts outs : list out_data)
    (i : in_data) (prevout : out_data) (out : option out_data) (leaf : option (list Z)) : option (list Z) :=
  let single := base_type 2 hash_type =? SIGHASH_SINGLE in
  let none := base_type 2 hash_type =? SIGHASH_NONE in
  let common :=
    [hash_type] ++ le_bytes 4 version ++ le_bytes 4 locktime ++
    (if acp hash_type then []
     else H (concat (outpoint <$> ins)) ++ H (concat (od_amount <$> prevouts)) ++
          H (concat ((λ o, ser_string (od_script o)) <$> prevouts)) ++ H (concat (id_sequence <$> ins))) ++
    (if single || none then [] else H (concat (ser_out <$> outs))) in
  let spend_type := match leaf with Some _ => 2 | None => 0 end in
  let input := if acp hash_type then outpoint i ++ ser_out prevout ++ id_sequence i else le_bytes 4 n in
  let ext := match leaf with Some l => l ++ [0] ++ replicate 4 255 | None => [] end in
  let msg output := tagged BIP0341_sighash_tag ([0] ++ common ++ [spend_type] ++ input ++ output ++ ext) in
  if single then (λ o, msg (H (ser_out o))) <$> out else Some (msg []).

(** Legacy inputs, with SIGHASH_ALL: the transaction with the script code in the
    input [n] that is signed, and empty scripts in the others. *)
Definition ser_in (n : Z) (script_code : list Z) (k : Z) (i : in_data) : list Z :=
  outpoint i ++ ser_string (if k =? n then script_code else []) ++ id_sequence i.
Definition legacy_sighash (version locktime hash_type n : Z) (ins : list in_data) (outs : list out_data) (script_code : list Z)
    : list Z :=
  dsha (le_bytes 4 version ++ varint_enc (zlen ins) ++ concat (imap (λ k, ser_in n script_code (Z.of_nat k)) ins) ++
        varint_enc (zlen outs) ++ concat (ser_out <$> outs) ++ le_bytes 4 locktime ++ le_bytes 4 hash_type).
End reference.

(** ** Hash contexts *)
Lemma hash_update_Val ctx d n ctx' :
  crypto_hash_update ctx d n = Val ctx' → 0 ≤ n ≤ zlen d ∧ ctx' = ctx ++ take (Z.to_nat n) d.
Proof.
  rw /crypto_hash_update. intros H. inv_bind H. apply loads_Val in Ha as (? & ? & ? & ->).
  injection H as <-. rw drop_0. split; [lia|done].
Qed.

Lemma hash_update_u8_Val ctx b ctx' : crypto_hash_update_u8 ctx b = Val ctx' → ctx' = ctx ++ [b].
Proof. intros H. by apply hash_update_Val in H as [_ ->]. Qed.

Lemma hash_u32_le_Val tmp ctx v ctx' : hash_u32_le tmp ctx v = Val ctx' → ctx' = ctx ++ le_bytes 4 v.
Proof.
  rw /hash_u32_le write_u32_le_stores. intros H. inv_bind H. apply hash_update_Val in H as [_ ->].
  unfold stores in Ha. case_decide; [|done]. injection Ha as <-. done.
Qed.

Lemma hash_update_varint_Val ctx v ctx' :
  0 ≤ v < 2 ^ 64 → crypto_hash_update_varint ctx v = Val ctx' → ctx' = ctx ++ varint_enc v.
Proof. intros Hv. rw crypto_hash_update_varint_spec //. by intros [= <-]. Qed.

Lemma hash_update_u32_Val ctx v ctx' : crypto_hash_update_u32 ctx v = Val ctx' → ctx' = ctx ++ reverse (le_bytes 4 v).
Proof. rw /crypto_hash_update_u32 write_u32_be_stores. intros H. inv_bind H. injection Ha as <-. by apply hash_update_Val in H as [_ ->]. Qed.

Lemma hash_update_u16_Val ctx v ctx' : crypto_hash_update_u16 ctx v = Val ctx' → ctx' = ctx ++ reverse (le_bytes 2 v).
Proof. rw /crypto_hash_update_u16 write_u16_be_stores. intros H. inv_bind H. injection Ha as <-. by apply hash_update_Val in H as [_ ->]. Qed.

Lemma take_exact n (l : list Z) : zlen l = n → take (Z.to_nat n) l = l.
Proof. intros Hz. rw take_ge //. unfold zlen in Hz. lia. Qed.

(** Replaces the contexts of a run by the bytes that were hashed. *)
Ltac hash_inv :=
  repeat match goal with
  | Hu : crypto_hash_update_u8 _ _ = Val _ |- _ => apply hash_update_u8_Val in Hu as ->
  | Hu : crypto_hash_update_u16 _ _ = Val _ |- _ => apply hash_update_u16_Val in Hu as ->
  | Hu : crypto_hash_update_u32 _ _ = Val _ |- _ => apply hash_update_u32_Val in Hu as ->
  | Hu : hash_u32_le _ _ _ = Val _ |- _ => apply hash_u32_le_Val in Hu as ->
  | Hu : crypto_hash_update _ _ _ = Val _ |- _ => apply hash_update_Val in Hu as [? ->]
  end.

(** ** Arrays that receive a field

    A lookup keeps the size of the array, and its result is an [int]. *)
Lemma buffer_write_zlen b mem n r b' : buffer_write_bytes b mem n = Val (r, b') → zlen (ptr b') = zlen (ptr b).
Proof.
  rw /buffer_write_bytes. case_match; [by intros [= _ <-]|]. intros H0. inv_bind H0. inv_bind H0.
  injection H0 as _ <-. rw (proj1 (seek_mem _ _)). cbn. by eapply stores_length.
Qed.

Definition is_int (v : Z) : Prop := -2 ^ 31 ≤ v < 2 ^ 31.

Lemma i32_is_int v : is_int (i32 v).
Proof. rw /is_int /i32 /wrap_signed. change (32 - 1) with 31. pose proof (Z.mod_pos_bound (v + 2 ^ 31) (2 ^ 32)). lia. Qed.

Lemma size_t_int v n : is_int v → size_t v ≤ n → n < 2 ^ 31 → 0 ≤ v ≤ n ∧ size_t v = v.
Proof. rw /is_int /size_t /u32. intros. Z.to_euclidean_division_equations. lia. Qed.

(** The loop that reads the chunks, for an invariant of the data and the state of
    the caller. *)
Lemma more_bytes_run {S} err (step : Z → S → io S) (J : list Z → S → Prop) N fuel rem data s st e data' s' st' :
  err < 0 → rem ≤ N →
  (∀ n x st x' st' chunk d, n ≤ N → loads (apdu_mem (read_ptr st) st) 0 n = Val chunk → step n x st = Val (x', st') →
     J d x → J (d ++ chunk) x') →
  more_bytes err step fuel rem data s st = Val ((e, data', s'), st') → J data s →
  J data' s' ∧ (e = 0 → zlen data' = zlen data + rem) ∧ (e = 0 ∨ err - 3 ≤ e ≤ err).
Proof.
  intros Herr HN Hstep. revert rem HN data s st. induction fuel as [|f IH]; intros rem HN data s st Hrun HJ; [done|].
  cbn [more_bytes] in Hrun. destruct (Z.eqb_spec rem 0) as [->|Hrem].
  { run_inv Hrun. split; [done|]. split; [lia|by left]. }
  run_inv Hrun. destruct (_ <? 0); run_inv Hrun; [split; [done|]; lia|].
  destruct a0 as [n|e']; [|run_inv Hrun; split; [done|]; case_match; lia].
  destruct (Z.ltb_spec rem n); run_inv Hrun; [split; [done|]; lia|].
  apply gets_Val in Hrun2 as [-> <-]. apply gets_Val in Hrun3 as [-> <-].
  apply loads_Val in Hrun4 as Hn. destruct Hn as (_ & ? & ? & Hchunk).
  apply IH in Hrun as (HJ1 & HJ2 & HJ3); [|lia|by eapply Hstep; [|done..]; lia].
  split; [done|]. split; [|done]. intros He. rewrite Hchunk in HJ2.
  rw HJ2 // zlen_app drop_0 zlen_take; lia.
Qed.

Lemma leaf_hash_run sha256 root n i st r h st' :
  call_get_merkle_leaf_hash sha256 root n i st = Val ((r, h), st') → r = -1 ∨ r = 0 ∧ is_Some h.
Proof.
  rw /call_get_merkle_leaf_hash. intros H. run_inv H. case_match; run_inv H; [by left|].
  destruct a0 as [[[cur ps] k]|]; run_inv H; [|by left]. destruct a1; run_inv H; [|by left].
  case_match; run_inv H; [by right|by left].
Qed.

Lemma merkle_preimage_run sha256 hash out st r out' st' :
  call_get_merkle_preimage sha256 hash out st = Val ((r, out'), st') → is_int r ∧ zlen out' = zlen out.
Proof.
  rw /call_get_merkle_preimage. intros H. run_inv H. destruct (_ <? 0); run_inv H; [done|].
  destruct a0 as [[len n]|]; run_inv H; [|done]. do 3 (case_match; run_inv H; [done|]).
  destruct a3 as [b buf]. run_inv H. destruct a4 as [[e data] buf'].
  match goal with Hw : buffer_write_bytes _ _ _ = _ |- _ => apply buffer_write_zlen in Hw end.
  match goal with Hm : more_bytes _ _ _ _ _ _ _ = _ |- _ =>
    apply (more_bytes_run _ _ (λ _ b, zlen (ptr b) = zlen out) (u32 len - n)) in Hm as (Hz & _ & He); [|lia|lia| |done] end.
  2:{ intros k x sx x' sx' chunk d _ _ Hs Hx. unfold merkle_preimage_step in Hs. run_inv Hs.
      match goal with Hw : buffer_write_bytes x _ _ = Val ?p |- _ => destruct p; run_inv Hs; apply buffer_write_zlen in Hw end.
      congruence. }
  case_match; run_inv H; [split; [rw /is_int; lia|done]|]. case_match; run_inv H; split; try done. apply i32_is_int.
Qed.

Lemma map_value_run sha256 map key out st r out' st' :
  call_get_merkleized_map_value sha256 map key out st = Val ((r, out'), st') → is_int r ∧ zlen out' = zlen out.
Proof.
  rw /call_get_merkleized_map_value /call_get_merkle_leaf_element. intros H. run_inv H. case_match; run_inv H; [done|].
  destruct a0 as [res h]. case_match; run_inv H; [|by eapply merkle_preimage_run].
  split; [|done]. match goal with Hl : call_get_merkle_leaf_hash _ _ _ _ _ = _ |- _ => apply leaf_hash_run in Hl end.
  rw /is_int. lia.
Qed.

Lemma load_take m n i : i < Z.of_nat n → load (take n m) i = load m i.
Proof. intros Hi. rw /load. case_decide; [|done]. by rw lookup_take_lt; [|lia]. Qed.

(** ** What a run has obtained *)
Section obtained.
Context (sha256 : list Z → list Z).

(** In a run that starts in [s0], the lookup of [key] in the map has returned
    [v]. *)
Definition obtained (s0 : dstate) (map : merkleized_map_commitment) (key : Z) (v : list Z) : Prop :=
  ∃ s s' out out', later s0 s ∧
    call_get_merkleized_map_value sha256 map [key] out s = Val ((zlen v, out'), s') ∧ take (length v) out' = v.

(** It has returned at least [v]. *)
Definition obtained_start (s0 : dstate) (map : merkleized_map_commitment) (key : Z) (v : list Z) : Prop :=
  ∃ s s' out out' r, later s0 s ∧
    call_get_merkleized_map_value sha256 map [key] out s = Val ((r, out'), s') ∧ zlen v ≤ r ∧ take (length v) out' = v.

(** It has not returned 4 bytes. *)
Definition no_sequence (s0 : dstate) (map : merkleized_map_commitment) : Prop :=
  ∃ s s' out out' n, later s0 s ∧
    call_get_merkleized_map_value sha256 map [PSBT_IN_SEQUENCE] out s = Val ((n, out'), s') ∧ n ≠ 4.

(** The sequence number of an input: the field, or 0xFFFFFFFF without one. *)
Definition sequence_of (s0 : dstate) (map : merkleized_map_commitment) (v : list Z) : Prop :=
  zlen v = 4 ∧ (obtained s0 map PSBT_IN_SEQUENCE v ∨ no_sequence s0 map ∧ v = replicate 4 0xFF).

Definition outpoint_of (s0 : dstate) (map : merkleized_map_commitment) (txid vout : list Z) : Prop :=
  zlen txid = 32 ∧ obtained s0 map PSBT_IN_PREVIOUS_TXID txid ∧
  zlen vout = 4 ∧ obtained s0 map PSBT_IN_OUTPUT_INDEX vout.

Definition input_of (s0 : dstate) (map : merkleized_map_commitment) (i : in_data) : Prop :=
  outpoint_of s0 map (id_txid i) (id_vout i) ∧ sequence_of s0 map (id_sequence i).

Definition output_of (s0 : dstate) (map : merkleized_map_commitment) (o : out_data) : Prop :=
  zlen (od_amount o) = 8 ∧ obtained s0 map PSBT_OUT_AMOUNT (od_amount o) ∧
  zlen (od_script o) ≤ MAX_OUTPUT_SCRIPTPUBKEY_LEN ∧ obtained s0 map PSBT_OUT_SCRIPT (od_script o).

Lemma obtained_later s0 s1 map key v : later s0 s1 → obtained s1 map key v → obtained s0 map key v.
Proof. intros Hl (s & s' & out & out' & Hs & H). exists s, s', out, out'. split; [by etrans|done]. Qed.

Lemma no_sequence_later s0 s1 map : later s0 s1 → no_sequence s1 map → no_sequence s0 map.
Proof. intros Hl (s & s' & out & out' & n & Hs & H). exists s, s', out, out', n. split; [by etrans|done]. Qed.

Lemma obtained_run map key out s len v s' :
  call_get_merkleized_map_value sha256 map [key] out s = Val ((len, v), s') → 0 ≤ len ≤ zlen out →
  obtained s map key (take (Z.to_nat len) v) ∧ zlen (take (Z.to_nat len) v) = len.
Proof.
  intros Hrun Hlen. destruct (map_value_run _ _ _ _ _ _ _ _ Hrun) as [_ Hz].
  assert (zlen (take (Z.to_nat len) v) = len) as Ht by (apply zlen_take; lia).
  split; [|done]. exists s, s', out, v. split_and!; [reflexivity|by rw Ht|].
  f_equal. unfold zlen in Ht. lia.
Qed.

Lemma outpoint_later s0 s1 map a b : later s0 s1 → outpoint_of s1 map a b → outpoint_of s0 map a b.
Proof. intros Hl (? & ? & ? & ?). split_and!; try done; by eapply obtained_later. Qed.

Lemma sequence_later s0 s1 map v : later s0 s1 → sequence_of s1 map v → sequence_of s0 map v.
Proof.
  intros Hl [? [?|[??]]]; (split; [done|]); [left; by eapply obtained_later|right]. split; [by eapply no_sequence_later|done].
Qed.

Lemma input_later s0 s1 map i : later s0 s1 → input_of s1 map i → input_of s0 map i.
Proof. intros Hl []. split; [by eapply outpoint_later|by eapply sequence_later]. Qed.

Lemma output_later s0 s1 map o : later s0 s1 → output_of s1 map o → output_of s0 map o.
Proof. intros Hl (? & ? & ? & ?). split_and!; try done; by eapply obtained_later. Qed.
End obtained.

(** ** Relations that the functions of Psbt.v respect *)
Section keeps.
Context (R : relation dstate) `{!Protocol R} (OS : sdk) (junk : Z → list Z) (uninit : Z).

Global Instance keeps_fail {A} sw : StatusWord sw → Keeps R (fail sw : io (option A)).
Proof. intros. rw /fail. solve_keeps. Qed.

Global Instance keeps_map root n i : Keeps R (get_map OS junk root n i).
Proof. rw /get_map /call_get_merkleized_map. solve_keeps. by apply keeps_get_map. Qed.

Global Instance keeps_get_value map key n : Keeps R (get_value OS junk map key n).
Proof. rw /get_value. apply _. Qed.

Global Instance keeps_get_sequence map : Keeps R (get_sequence OS junk map).
Proof. rw /get_sequence. solve_keeps. Qed.

Global Instance keeps_get_outpoint map : Keeps R (get_outpoint OS junk map).
Proof. rw /get_outpoint. solve_keeps. Qed.

Global Instance keeps_update_hashes map key u p : Keeps R (update_hashes_with_map_value OS map key u p).
Proof. rw /update_hashes_with_map_value. apply _. Qed.

Global Instance keeps_parse_rawtx sha256 store0 map key index p0 :
  Keeps R (call_psbt_parse_rawtx uninit sha256 store0 map key index p0).
Proof. rw /call_psbt_parse_rawtx. solve_keeps. Qed.

Global Instance keeps_nonwitness map spk h : Keeps R (get_amount_scriptpubkey_from_psbt_nonwitness OS junk uninit map spk h).
Proof. rw /get_amount_scriptpubkey_from_psbt_nonwitness. solve_keeps. Qed.

Global Instance keeps_witness map spk : Keeps R (get_amount_scriptpubkey_from_psbt_witness OS junk map spk).
Proof. rw /get_amount_scriptpubkey_from_psbt_witness. solve_keeps. Qed.

Global Instance keeps_amount_script map spk : Keeps R (get_amount_scriptpubkey_from_psbt OS junk uninit map spk).
Proof. rw /get_amount_scriptpubkey_from_psbt. solve_keeps. Qed.

Global Instance keeps_hash_output_n tx ctx i : Keeps R (hash_output_n OS junk tx ctx i).
Proof. rw /hash_output_n. solve_keeps. Qed.

Global Instance keeps_hash_outputs tx ctx : Keeps R (hash_outputs OS junk tx ctx).
Proof.
  rw /hash_outputs /answers_left. solve_keeps. generalize 0 as i. generalize (S a) as fuel. revert ctx.
  intros ctx fuel. revert ctx. induction fuel; intros; cbn [hash_outputs_loop]; solve_keeps.
Qed.

Global Instance keeps_segwit_hashes tx : Keeps R (compute_segwit_hashes OS junk uninit tx).
Proof.
  assert (∀ fuel a b i, Keeps R (prevouts_loop OS junk fuel tx a b i)) as H1.
  { induction fuel; intros; cbn [prevouts_loop]; solve_keeps. }
  assert (∀ fuel a b i, Keeps R (amounts_loop OS junk uninit fuel tx a b i)) as H2.
  { induction fuel; intros; cbn [amounts_loop]; solve_keeps. }
  rw /compute_segwit_hashes /answers_left. solve_keeps.
Qed.

Global Instance keeps_sighash_legacy tx input i : Keeps R (compute_sighash_legacy OS junk tx input i).
Proof.
  assert (∀ fuel ctx k, Keeps R (legacy_inputs_loop OS junk fuel tx input i ctx k)) as H1.
  { induction fuel; intros; cbn [legacy_inputs_loop]; rw /hash_legacy_script; solve_keeps. }
  rw /compute_sighash_legacy /answers_left. solve_keeps.
Qed.

Global Instance keeps_sighash_segwitv0 tx h input i : Keeps R (compute_sighash_segwitv0 OS junk tx h input i).
Proof. rw /compute_sighash_segwitv0 /hash_segwitv0_script /segwitv0_end /segwitv0_hash_outputs. solve_keeps. Qed.

Global Instance keeps_sighash_segwitv1 tx h input i info : Keeps R (compute_sighash_segwitv1 OS junk tx h input i info).
Proof. rw /compute_sighash_segwitv1 /hash_segwitv1_input /segwitv1_end /get_value_tmp. solve_keeps. Qed.
End keeps.

(** The elements of a list have the property [P] for their index, from [i]. *)
Definition all_at {A} (P : Z → A → Prop) (i : Z) (l : list A) : Prop :=
  ∀ k x, l !! k = Some x → P (i + Z.of_nat k) x.

Lemma all_at_nil {A} (P : Z → A → Prop) i : all_at P i [].
Proof. by intros k x H. Qed.

Lemma all_at_cons {A} (P Q : Z → A → Prop) i x l :
  Q i x → all_at P (i + 1) l → (∀ k y, P k y → Q k y) → all_at Q i (x :: l).
Proof.
  intros Hx Hl HPQ [|k] y Hy; [injection Hy as <-; by rw Z.add_0_r|].
  rw (_ : i + Z.of_nat (S k) = i + 1 + Z.of_nat k); [|lia]. by apply HPQ, Hl.
Qed.

(** ** The functions of Psbt.v *)
Section digests.
Context (OS : sdk) (junk : Z → list Z) (uninit : Z).
Context (Hjunk : ∀ n, 0 ≤ n → zlen (junk n) = n).
#[local] Abbreviation sha256 := (cx_sha256 OS).
Context (sha256_length : ∀ x, zlen (sha256 x) = 32).

Lemma get_value_run map key n s len v s' :
  0 ≤ n → get_value OS junk map key n s = Val ((len, v), s') →
  later s s' ∧ is_int len ∧ zlen v = n ∧
  (0 ≤ len ≤ n → obtained sha256 s map key (take (Z.to_nat len) v) ∧ zlen (take (Z.to_nat len) v) = len).
Proof.
  intros Hn. rw /get_value. intros Hrun. destruct (map_value_run _ _ _ _ _ _ _ _ Hrun) as [Hi Hz].
  assert (zlen v = n) by (by rw Hz Hjunk). splits; [eapply run_keeps; [exact Hrun|apply _]|done|done|].
  intros Hlen. eapply obtained_run; [done|]. by rw Hjunk.
Qed.

(** A field with a fixed size. *)
Lemma get_value_exact map key n s v s' :
  0 ≤ n → get_value OS junk map key n s = Val ((n, v), s') → later s s' ∧ zlen v = n ∧ obtained sha256 s map key v.
Proof.
  intros Hn Hrun. apply get_value_run in Hrun as (Hl & _ & Hz & Ho); [|done]. splits; [done..|].
  destruct Ho as [Ho _]; [lia|]. by rewrite take_ge in Ho; [|unfold zlen in Hz; lia].
Qed.

Lemma fail_run {A} sw s (a : option A) s' : fail sw s = Val (a, s') → a = None.
Proof. rw /fail. intros H. by run_inv H. Qed.

Lemma get_outpoint_run map s txid vout s' :
  get_outpoint OS junk map s = Val (Some (txid, vout), s') → later s s' ∧ outpoint_of sha256 s map txid vout.
Proof.
  rw /get_outpoint. intros H. run_inv H. destruct a as [len h]. destruct (Z.eqb_spec len 32) as [->|]; cbn [negb] in H; [|by apply fail_run in H].
  run_inv H. destruct a as [len n]. destruct (Z.eqb_spec len 4) as [->|]; cbn [negb] in H; [|by apply fail_run in H].
  run_inv H. apply get_value_exact in Hrun as (Hl & Hz & Ho); [|done]. apply get_value_exact in Hrun0 as (Hl0 & Hz0 & Ho0); [|done].
  split; [by etrans|]. rw /outpoint_of. splits; try done. by eapply obtained_later.
Qed.

Lemma get_sequence_run map s v s' :
  get_sequence OS junk map s = Val (v, s') → later s s' ∧ sequence_of sha256 s map v.
Proof.
  rw /get_sequence. intros H. run_inv H. destruct a as [len raw]. destruct (Z.eqb_spec len 4) as [->|Hne]; cbn [negb] in H; run_inv H.
  - apply get_value_exact in Hrun as (Hl & Hz & Ho); [|done]. split; [done|]. split; [done|by left].
  - pose proof Hrun as Hv. apply get_value_run in Hrun as (Hl & _ & Hz & _); [|done].
    rewrite /stores decide_True in H; [|by rw Hz]. injection H as H.
    assert (v = replicate 4 255) as ->.
    { rw -H drop_ge; [done|]. cbn. unfold zlen in Hz. lia. }
    split; [done|]. split; [done|]. right. split; [|done]. eexists s, _, _, _, len. split; [reflexivity|]. by split.
Qed.

(** *** Outputs *)

(** In a run from [s0], the [i]-th map of [n] with the root [root] was [m]. *)
Definition map_at (s0 : dstate) (root : list Z) (n i : Z) (m : merkleized_map_commitment) : Prop :=
  ∃ s s', later s0 s ∧ get_map OS junk root (i32 n) (i32 i) s = Val (Some m, s').

Definition output_at (s0 : dstate) (tx : psbt_tx) (i : Z) (o : out_data) : Prop :=
  i < tx_n_outputs tx ∧ ∃ m, map_at s0 (outputs_root tx) (tx_n_outputs tx) i m ∧ output_of sha256 s0 m o.

Lemma map_at_later s0 s1 root n i m : later s0 s1 → map_at s1 root n i m → map_at s0 root n i m.
Proof. intros Hl (s & s' & Hs & H). exists s, s'. split; [by etrans|done]. Qed.

Lemma output_at_later s0 s1 tx i o : later s0 s1 → output_at s1 tx i o → output_at s0 tx i o.
Proof. intros Hl (? & m & ? & ?). split; [done|]. exists m. split; [by eapply map_at_later|by eapply output_later]. Qed.

Lemma hash_output_n_run tx ctx i s ctx' s' :
  hash_output_n OS junk tx ctx i s = Val ((0, ctx'), s') →
  later s s' ∧ ∃ o, output_at s tx i o ∧ ctx' = ctx ++ ser_out o.
Proof.
  rw /hash_output_n. destruct (Z.leb_spec (tx_n_outputs tx) i) as [Hi|Hi]; intros H; [by run_inv H|].
  run_inv H. destruct a as [m|]; run_inv H. destruct a as [len amount].
  destruct (Z.eqb_spec len 8) as [->|]; cbn [negb] in H; run_inv H.
  destruct a0 as [slen scr]. destruct (slen =? -1); run_inv H.
  assert (later s s0) as Hl0 by (by eapply run_keeps; [exact Hrun|apply _]).
  apply get_value_exact in Hrun0 as (Hl1 & Hz & Ho); [|done].
  apply get_value_run in Hrun2 as (Hl2 & Hint & Hzs & Hos); [|done]. unfold MAX_OUTPUT_SCRIPTPUBKEY_LEN in Hzs, Hos.
  match goal with Hu : crypto_hash_update _ scr _ = _ |- _ => apply hash_update_Val in Hu as [Hle ->] end.
  match goal with Hu : crypto_hash_update _ amount _ = _ |- _ => apply hash_update_Val in Hu as [_ ->] end.
  destruct (size_t_int slen 83) as [Hr Hs]; [done|lia|done|]. rewrite Hs.
  assert (u64 slen = slen) as Hu64 by (apply u64_small; lia). rewrite Hu64 in Hrun3.
  apply hash_update_varint_Val in Hrun3 as ->; [|lia]. destruct Hos as [Hos Hts]; [lia|].
  split; [by etrans; [|etrans]|]. exists (mk_out_data amount (take (Z.to_nat slen) scr)).
  rw /output_at /output_of /ser_out /ser_string /od_amount /od_script Hts. splits.
  - lia.
  - exists m. split; [by eexists s, _|]. splits; [done|by eapply obtained_later|rw /MAX_OUTPUT_SCRIPTPUBKEY_LEN; lia|].
    eapply obtained_later; [by etrans|done].
  - rw (take_ge amount); [by rw -!app_assoc|]. unfold zlen in Hz. lia.
Qed.

Lemma hash_output_n_code tx ctx i s r ctx' s' :
  hash_output_n OS junk tx ctx i s = Val ((r, ctx'), s') → r = 0 ∨ r = -1.
Proof.
  rw /hash_output_n. intros H. case_match; run_inv H; [by right|]. destruct a; run_inv H; [|by right]. destruct a as [len amount].
  case_match; run_inv H; [by right|]. destruct a0. case_match; run_inv H; [by right|by left].
Qed.

Lemma hash_outputs_loop_run fuel tx ctx i s r ctx' s' :
  i ≤ tx_n_outputs tx → hash_outputs_loop OS junk fuel tx ctx i s = Val ((r, ctx'), s') → r ≠ -1 →
  later s s' ∧ ∃ outs, zlen outs = tx_n_outputs tx - i ∧ all_at (output_at s tx) i outs ∧ ctx' = ctx ++ concat (ser_out <$> outs).
Proof.
  revert ctx i s. induction fuel as [|f IH]; intros ctx i s Hi H Hr; [done|]. cbn [hash_outputs_loop] in H.
  destruct (Z.ltb_spec i (tx_n_outputs tx)) as [Hlt|Hge]; run_inv H.
  - destruct a as [c ctx1]. pose proof (hash_output_n_code _ _ _ _ _ _ _ Hrun) as [-> | ->]; cbn in H; [|by run_inv H].
    apply hash_output_n_run in Hrun as (Hl & o & Ho & ->). apply IH in H as (Hl2 & outs & Hn & Hall & ->); [|lia|done].
    split; [by etrans|]. exists (o :: outs). splits.
    + rw zlen_cons. lia.
    + eapply all_at_cons; [done..|]. intros k y. by apply output_at_later.
    + by rw fmap_cons concat_cons app_assoc.
  - split; [reflexivity|]. exists []. splits; [rw zlen_nil; lia|by apply all_at_nil|by rw app_nil_r].
Qed.

Lemma hash_outputs_run tx ctx s r ctx' s' :
  0 ≤ tx_n_outputs tx → hash_outputs OS junk tx ctx s = Val ((r, ctx'), s') → r ≠ -1 →
  later s s' ∧ ∃ outs, zlen outs = tx_n_outputs tx ∧ all_at (output_at s tx) 0 outs ∧ ctx' = ctx ++ concat (ser_out <$> outs).
Proof.
  intros Hn. rw /hash_outputs /answers_left. intros H Hr. run_inv H. apply hash_outputs_loop_run in H; [|done..]. by rewrite Z.sub_0_r in H.
Qed.

(** *** Previous outputs *)

(** The output in the field PSBT_IN_WITNESS_UTXO. *)
Definition witness_prevout (s0 : dstate) (map : merkleized_map_commitment) (o : out_data) : Prop :=
  ∃ raw a, obtained sha256 s0 map PSBT_IN_WITNESS_UTXO raw ∧ read_u64_le raw 0 = Val a ∧
    load raw 8 = Val (zlen (od_script o)) ∧ drop 9 raw = od_script o ∧ od_amount o = le_bytes 8 a.

(** The output of the transaction in the field PSBT_IN_NON_WITNESS_UTXO whose
    index is in the field PSBT_IN_OUTPUT_INDEX.  The parser starts with arrays
    that are not initialised. *)
Definition parsed_prevout (s0 : dstate) (map : merkleized_map_commitment) (o : out_data) : Prop :=
  ∃ s s' vout n p res, zlen vout = 4 ∧ obtained sha256 s0 map PSBT_IN_OUTPUT_INDEX vout ∧ read_u32_le vout 0 = Val n ∧
    later s0 s ∧
    call_psbt_parse_rawtx uninit sha256 (junk 32) map [PSBT_IN_NON_WITNESS_UTXO] (i32 n)
      (mk_outputs uninit uninit (junk MAX_PREVOUT_SCRIPTPUBKEY_LEN) (junk 32)) s = Val ((res, p), s') ∧
    0 ≤ res ∧ od_amount o = le_bytes 8 (vout_value p) ∧ loads (vout_scriptpubkey p) 0 (vout_scriptpubkey_len p) = Val (od_script o).

(** The field PSBT_IN_WITNESS_UTXO was not there, or not well formed. *)
Definition no_witness_prevout (s0 : dstate) (map : merkleized_map_commitment) : Prop :=
  ∃ s s' spk, later s0 s ∧ get_amount_scriptpubkey_from_psbt_witness OS junk map spk s = Val (None, s').

Definition prevout_of (s0 : dstate) (map : merkleized_map_commitment) (o : out_data) : Prop :=
  zlen (od_amount o) = 8 ∧ zlen (od_script o) ≤ MAX_PREVOUT_SCRIPTPUBKEY_LEN ∧
  (witness_prevout s0 map o ∨ no_witness_prevout s0 map ∧ parsed_prevout s0 map o).

Lemma parsed_prevout_later s0 s1 map o : later s0 s1 → parsed_prevout s1 map o → parsed_prevout s0 map o.
Proof.
  intros Hl (s & s' & vout & n & p & r & ? & ? & ? & Hs & ?). exists s, s', vout, n, p, r.
  splits; [done|by eapply obtained_later|done|by etrans|by destruct_and?..].
Qed.

Lemma prevout_later s0 s1 map o : later s0 s1 → prevout_of s1 map o → prevout_of s0 map o.
Proof.
  intros Hl (? & ? & [(raw & a & H1 & H2)|((s & s' & spk & Hs & Hn) & H)]); (split; [done|]); (split; [done|]).
  - left. exists raw, a. split; [by eapply obtained_later|done].
  - right. split; [|by eapply parsed_prevout_later]. exists s, s', spk. split; [by etrans|done].
Qed.

Lemma stores_take m l m' n : stores m 0 l = Val m' → zlen l = n → zlen l ≤ zlen m ∧ take (Z.to_nat n) m' = l.
Proof.
  rw /stores. case_decide; [|done]. intros [= <-] <-. split; [lia|]. rw /= zlen_length. by rw take_app_length.
Qed.

Lemma witness_prevout_run map spk s a spk' n s' :
  get_amount_scriptpubkey_from_psbt_witness OS junk map spk s = Val (Some (a, spk', n), s') →
  later s s' ∧ n = zlen (take (Z.to_nat n) spk') ∧ zlen spk' = zlen spk ∧ 0 ≤ n ≤ zlen spk ∧
  witness_prevout s map (mk_out_data (le_bytes 8 a) (take (Z.to_nat n) spk')).
Proof.
  rw /get_amount_scriptpubkey_from_psbt_witness. intros H. run_inv H. destruct a0 as [len raw].
  destruct (Z.ltb_spec len 0); run_inv H. destruct (Z.eqb_spec len (8 + 1 + a0)) as [->|]; cbn [negb] in H; run_inv H.
  apply get_value_run in Hrun as (Hl & Hint & Hz & Ho); [|done]. change (8 + 1 + MAX_PREVOUT_SCRIPTPUBKEY_LEN) with 43 in *.
  match goal with Hs : loads raw 9 _ = _ |- _ => apply loads_Val in Hs as (_ & Hn & Hle & ->) end.
  destruct Ho as [Ho Hzo]; [lia|].
  assert (zlen (take (Z.to_nat n) (drop (Z.to_nat 9) raw)) = n) as Hzn by (apply zlen_take; rw zlen_drop; lia).
  match goal with Hs : stores spk 0 _ = _ |- _ => pose proof (stores_length _ _ _ _ Hs); apply (stores_take _ _ _ n) in Hs as [? Ht]; [|done] end.
  rewrite Ht. splits; [done|lia|done|lia|lia|]. exists (take (Z.to_nat (8 + 1 + n)) raw), a. splits; cbn [od_script od_amount].
  - done.
  - match goal with Hr : read_u64_le raw 0 = _ |- _ => rw -Hr end. rw /read_u64_le !load_take //; lia.
  - rw load_take; [|lia]. by rw Hzn.
  - rw skipn_firstn_comm. f_equal. lia.
  - done.
Qed.

(** A field that is an integer of 32 bits. *)
Lemma map_u32_run map s r s' :
  call_get_merkleized_map_value_u32_le sha256 (junk 4) map [PSBT_IN_OUTPUT_INDEX] s = Val ((4, r), s') →
  ∃ raw n, zlen raw = 4 ∧ obtained sha256 s map PSBT_IN_OUTPUT_INDEX raw ∧ read_u32_le raw 0 = Val n ∧ r = Some n.
Proof.
  rw /call_get_merkleized_map_value_u32_le. intros H. run_inv H. destruct a as [len raw].
  destruct (Z.eqb_spec len 4) as [-> |]; cbn [negb] in H; run_inv H. apply (get_value_exact _ _ 4) in Hrun as (_ & Hz & Ho); [|done].
  simplify_eq. by exists raw, a.
Qed.

Lemma nonwitness_prevout_run map spk expected s a spk' n s' :
  get_amount_scriptpubkey_from_psbt_nonwitness OS junk uninit map spk expected s = Val (Some (a, spk', n), s') →
  later s s' ∧ n = zlen (take (Z.to_nat n) spk') ∧ zlen spk' = zlen spk ∧ 0 ≤ n ≤ zlen spk ∧
  parsed_prevout s map (mk_out_data (le_bytes 8 a) (take (Z.to_nat n) spk')).
Proof.
  rw /get_amount_scriptpubkey_from_psbt_nonwitness. intros H. run_inv H. destruct a0 as [len vout].
  destruct (Z.eqb_spec len 4) as [-> |]; cbn [negb] in H; run_inv H. destruct a0 as [res p]. pose proof (map_u32_run _ _ _ _ Hrun) as Hvout. destruct (Z.ltb_spec res 0); run_inv H. run_if H.
  assert (later s s0) as Hl0 by (by eapply run_keeps; [exact Hrun|apply _]).
  assert (later s0 s') as Hl1 by (by eapply run_keeps; [exact Hrun0|apply _]).
  match goal with Hs : loads _ 0 _ = Val ?l |- _ => pose proof Hs as Hld; apply loads_Val in Hs as (_ & Hn & Hle & Heq) end.
  assert (zlen a0 = vout_scriptpubkey_len p) as Hz by (rw Heq drop_0; apply zlen_take; lia).
  match goal with Hs : stores spk 0 _ = _ |- _ =>
    pose proof (stores_length _ _ _ _ Hs); destruct (stores_take _ _ _ _ Hs Hz) as [? Ht] end.
  destruct Hvout as (raw & n & Hzr & Ho & Hn4 & ->).
  rewrite Ht. splits; [by etrans|lia|done|lia|lia|]. exists s0, s', raw, n, p, res. splits; cbn [od_script od_amount]; [done..|lia|done|done].
Qed.

Lemma prevout_run map spk s a spk' n s' :
  zlen spk = MAX_PREVOUT_SCRIPTPUBKEY_LEN →
  get_amount_scriptpubkey_from_psbt OS junk uninit map spk s = Val (Some (a, spk', n), s') →
  later s s' ∧ n = zlen (take (Z.to_nat n) spk') ∧ 0 ≤ n ≤ MAX_PREVOUT_SCRIPTPUBKEY_LEN ∧
  prevout_of s map (mk_out_data (le_bytes 8 a) (take (Z.to_nat n) spk')).
Proof.
  intros Hz. rw /get_amount_scriptpubkey_from_psbt. intros H. run_inv H.
  assert (later s s0) as Hl0 by (by eapply run_keeps; [exact Hrun|apply _]).
  assert (0 ≤ n ≤ zlen spk → n = zlen (take (Z.to_nat n) spk') →
    (witness_prevout s map (mk_out_data (le_bytes 8 a) (take (Z.to_nat n) spk')) ∨
     no_witness_prevout s map ∧ parsed_prevout s map (mk_out_data (le_bytes 8 a) (take (Z.to_nat n) spk'))) →
    prevout_of s map (mk_out_data (le_bytes 8 a) (take (Z.to_nat n) spk'))) as Hof.
  { intros ??. rw /prevout_of /zlen /= -/(zlen _). intros ?. splits; [done|lia|done]. }
  destruct a0 as [[[a0 spk0] n0]|].
  - run_inv H. apply witness_prevout_run in Hrun as (Hl & Hn & _ & ? & Hw). splits; [done..|lia|lia|]. apply Hof; [done..|by left].
  - apply nonwitness_prevout_run in H as (Hl & Hn & _ & ? & Hw). splits; [by etrans|done|lia|lia|]. apply Hof; [done..|]. right.
    split; [by exists s, s0, spk|by eapply parsed_prevout_later].
Qed.

(** *** The shared hashes *)
Definition input_at (s0 : dstate) (tx : psbt_tx) (i : Z) (d : in_data) : Prop :=
  ∃ m, map_at s0 (inputs_root tx) (tx_n_inputs tx) i m ∧ input_of sha256 s0 m d.
Definition prevout_at (s0 : dstate) (tx : psbt_tx) (i : Z) (o : out_data) : Prop :=
  ∃ m, map_at s0 (inputs_root tx) (tx_n_inputs tx) i m ∧ prevout_of s0 m o.

Lemma input_at_later s0 s1 tx i d : later s0 s1 → input_at s1 tx i d → input_at s0 tx i d.
Proof. intros Hl (m & ? & ?). exists m. split; [by eapply map_at_later|by eapply input_later]. Qed.

Lemma prevout_at_later s0 s1 tx i o : later s0 s1 → prevout_at s1 tx i o → prevout_at s0 tx i o.
Proof. intros Hl (m & ? & ?). exists m. split; [by eapply map_at_later|by eapply prevout_later]. Qed.

Lemma hash_update_exact ctx d n ctx' : crypto_hash_update ctx d n = Val ctx' → zlen d = n → ctx' = ctx ++ d.
Proof. intros H Hz. apply hash_update_Val in H as [_ ->]. rw take_ge //. unfold zlen in Hz. lia. Qed.

Lemma prevouts_loop_run fuel tx ps qs i s ps' qs' s' :
  i ≤ tx_n_inputs tx → prevouts_loop OS junk fuel tx ps qs i s = Val (Some (ps', qs'), s') →
  later s s' ∧ ∃ ins, zlen ins = tx_n_inputs tx - i ∧ all_at (input_at s tx) i ins ∧
    ps' = ps ++ concat (outpoint <$> ins) ∧ qs' = qs ++ concat (id_sequence <$> ins).
Proof.
  revert ps qs i s. induction fuel as [|f IH]; intros ps qs i s Hi H; [done|]. cbn [prevouts_loop] in H.
  destruct (Z.ltb_spec i (tx_n_inputs tx)) as [Hlt|Hge]; run_inv H; last first.
  { split; [reflexivity|]. exists []. splits; [rw zlen_nil; lia|by apply all_at_nil|by rw app_nil_r..]. }
  destruct a as [m|]; [|by apply fail_run in H]. run_inv H. destruct a as [[txid vout]|]; run_inv H.
  assert (later s s0) as Hl by (by eapply run_keeps; [exact Hrun|apply _]).
  apply get_outpoint_run in Hrun0 as (Hl0 & Ho).
  match goal with Hs : get_sequence _ _ _ _ = Val (?q, _) |- _ => rename q into sq; apply get_sequence_run in Hs as (Hl1 & Hq) end.
  destruct Ho as (Hz1 & Ho1 & Hz2 & Ho2).
  repeat match goal with Hu : crypto_hash_update _ _ _ = _ |- _ => apply hash_update_exact in Hu as ->; [|by first [done|apply Hq]] end.
  apply IH in H as (Hl2 & ins & Hn & Hall & -> & ->); [|lia].
  assert (later s s') as Hls by (etrans; [exact Hl|]; etrans; [exact Hl0|]; by etrans).
  split; [done|]. exists (mk_in_data txid vout sq :: ins). splits; [rw zlen_cons; lia| | |].
  - eapply all_at_cons; [|done|].
    + exists m. split; [by eexists s, _|]. split; [rw /outpoint_of; splits; try done; eapply obtained_later; [exact Hl|done|exact Hl|done]|].
      by apply (sequence_later _ _ _ _ _ (transitivity Hl Hl0)).
    + intros k y. apply input_at_later. etrans; [exact Hl|]. by etrans.
  - by rw fmap_cons concat_cons /outpoint /= -!app_assoc.
  - by rw fmap_cons concat_cons -!app_assoc.
Qed.

Lemma amounts_loop_run fuel tx ps qs i s ps' qs' s' :
  i ≤ tx_n_inputs tx → amounts_loop OS junk uninit fuel tx ps qs i s = Val (Some (ps', qs'), s') →
  later s s' ∧ ∃ os, zlen os = tx_n_inputs tx - i ∧ all_at (prevout_at s tx) i os ∧
    ps' = ps ++ concat (od_amount <$> os) ∧ qs' = qs ++ concat ((λ o, ser_string (od_script o)) <$> os).
Proof.
  revert ps qs i s. induction fuel as [|f IH]; intros ps qs i s Hi H; [done|]. cbn [amounts_loop] in H.
  destruct (Z.ltb_spec i (tx_n_inputs tx)) as [Hlt|Hge]; run_inv H; last first.
  { split; [reflexivity|]. exists []. splits; [rw zlen_nil; lia|by apply all_at_nil|by rw app_nil_r..]. }
  destruct a as [m|]; [|by apply fail_run in H]. run_inv H. destruct a as [[[amount spk] n]|]; [|by apply fail_run in H]. run_inv H.
  assert (later s s0) as Hl by (by eapply run_keeps; [exact Hrun|apply _]).
  apply prevout_run in Hrun0 as (Hl0 & Hn0 & Hr & Ho); [|by apply Hjunk].
  match goal with Hw : write_u64_le _ _ _ = _ |- _ => rewrite write_u64_le_stores in Hw; apply (stores_take _ _ _ 8) in Hw as [_ Hamt]; [|done] end.
  match goal with Hu : crypto_hash_update_varint _ _ = _ |- _ => apply hash_update_varint_Val in Hu as ->; [|unfold MAX_PREVOUT_SCRIPTPUBKEY_LEN in Hr; lia] end.
  repeat match goal with Hu : crypto_hash_update _ _ _ = _ |- _ => apply hash_update_Val in Hu as [_ ->] end.
  apply IH in H as (Hl2 & os & Hn & Hall & -> & ->); [|lia].
  split; [etrans; [exact Hl|]; by etrans|]. exists (mk_out_data (le_bytes 8 amount) (take (Z.to_nat n) spk) :: os).
  splits; [rw zlen_cons; lia| | |].
  - eapply all_at_cons; [|done|].
    + exists m. split; [by eexists s, _|]. by eapply prevout_later.
    + intros k y. apply prevout_at_later. by etrans.
  - rw fmap_cons concat_cons /=. rewrite Hamt. by rw -!app_assoc.
  - rw fmap_cons concat_cons /= /ser_string -Hn0 -!app_assoc. done.
Qed.

(** C7: the hashes that all segwit inputs share are those of the transaction.
    When [compute_segwit_hashes] succeeds, there are data for every input, every
    previous output and every output, which the host has provided during the run
    from the maps under the Merkle roots of the command, in the order of the
    transaction, and the five hashes are the ones BIP-143 and BIP-341 define for
    these data.  A previous output is the one in the field of the witness UTXO
    or, when this field is missing, the output of the previous transaction at the
    index in the map of the input. *)
Theorem segwit_hashes_correct tx s h s' :
  0 ≤ tx_n_inputs tx → 0 ≤ tx_n_outputs tx →
  compute_segwit_hashes OS junk uninit tx s = Val (Some h, s') →
  ∃ ins prevouts outs,
    zlen ins = tx_n_inputs tx ∧ all_at (input_at s tx) 0 ins ∧
    zlen prevouts = tx_n_inputs tx ∧ all_at (prevout_at s tx) 0 prevouts ∧
    zlen outs = tx_n_outputs tx ∧ all_at (output_at s tx) 0 outs ∧
    h = hashes_of sha256 ins prevouts outs.
Proof.
  intros Hi Ho. rw /compute_segwit_hashes /answers_left. intros H. run_inv H.
  destruct a as [[ps qs]|]; run_inv H. destruct a as [r octx]. destruct (Z.eqb_spec r (-1)) as [|Hr]; run_inv H; [by apply fail_run in H|].
  destruct a as [[am sp]|]; run_inv H.
  apply prevouts_loop_run in Hrun as (Hl & ins & Hn & Hall & -> & ->); [|done].
  apply hash_outputs_run in Hrun0 as (Hl1 & outs & Hno & Hallo & ->); [|done..].
  apply amounts_loop_run in Hrun1 as (Hl2 & os & Hnp & Hallp & -> & ->); [|done].
  rewrite Z.sub_0_r in Hn, Hnp. exists ins, os, outs. splits; try done.
  - intros k x Hk. eapply prevout_at_later; [by etrans|by apply Hallp].
  - intros k x Hk. eapply output_at_later; [done|by apply Hallo].
Qed.

(** *** Values that are streamed into hash contexts *)

(** In a run from [s0], the host has proved a hash for the value of [key], and
    [d] follows one byte in the preimage of this hash. *)
Definition streamed (s0 : dstate) (map : merkleized_map_commitment) (key : Z) (d : list Z) : Prop :=
  ∃ s s' h b, later s0 s ∧ call_get_merkleized_map_value_hash sha256 map [key] s = Val ((0, Some h), s') ∧ sha256 (b :: d) = h.

Lemma streamed_later s0 s1 map key d : later s0 s1 → streamed s1 map key d → streamed s0 map key d.
Proof. intros Hl (s & s' & h & b & Hs & H). exists s, s', h, b. split; [by etrans|done]. Qed.

(** The contexts after the data [d]. *)
Definition appended (c0 c : hashes_state) (len : Z) (d : list Z) : Prop :=
  hash_prefixed c = (λ x, x ++ varint_enc len ++ d) <$> hash_prefixed c0 ∧
  hash_unprefixed c = (λ x, x ++ d) <$> hash_unprefixed c0.

Lemma opt_update_Val f ctx ctx' :
  opt_update f ctx = Val ctx' →
  match ctx with None => ctx' = None | Some x => ∃ y, f x = Val y ∧ ctx' = Some y end.
Proof. destruct ctx as [x|]; cbn; intros H; [|by injection H as <-]. inv_bind H. injection H as <-. by exists a. Qed.

Lemma cb_hash_data_run c0 c c' len d mem n chunk :
  0 ≤ n < 2 ^ 32 → loads mem 0 n = Val chunk → cb_hash_data (buffer_create mem n) c = Val c' →
  appended c0 c len d → appended c0 c' len (d ++ chunk).
Proof.
  intros Hn Hld H [Hp Hu]. unfold cb_hash_data in H. cbn [size offset ptr buffer_create] in H.
  rewrite Z.sub_0_r u32_small // in H.
  inv_bind H. inv_bind H. injection H as <-. apply opt_update_Val in Ha, Ha0.
  rewrite Hp in Ha. rewrite Hu in Ha0. unfold appended. cbn. split.
  - destruct (hash_prefixed c0); cbn in *; [|done]. destruct Ha as (y & Hy & ->). unfold crypto_hash_update in Hy.
    rewrite drop_0 Hld in Hy. injection Hy as <-. by rw -!app_assoc.
  - destruct (hash_unprefixed c0); cbn in *; [|done]. destruct Ha0 as (y & Hy & ->). unfold crypto_hash_update in Hy.
    rewrite drop_0 Hld in Hy. injection Hy as <-. by rw -!app_assoc.
Qed.

Lemma cb_hash_len_run c0 c len : 0 ≤ len < 2 ^ 32 → cb_hash_len len c0 = Val c → appended c0 c len [].
Proof.
  intros Hl H. unfold cb_hash_len in H. inv_bind H. injection H as <-. apply opt_update_Val in Ha. unfold appended. cbn. split.
  - destruct (hash_prefixed c0); [|done]. destruct Ha as (y & Hy & ->). apply hash_update_varint_Val in Hy as ->; [|lia]. by rw /= app_nil_r.
  - destruct (hash_unprefixed c0); [|done]. by rw /= app_nil_r.
Qed.

Lemma sized_mem s p : sized s → zlen (apdu_mem p s) ≤ IO_APDU_BUFFER_SIZE.
Proof. intros [Hz _]. rw /apdu_mem. destruct p; [rw /zlen length_drop; unfold zlen in Hz; lia|done]. Qed.

Lemma appended_None c0 c len d : appended c0 c len d → is_Some (hash_prefixed c0) → is_Some (hash_prefixed c).
Proof. intros [-> _] [x ->]. by eexists. Qed.

(** The first chunk is not empty, and the data starts after its first byte. *)
Lemma first_chunk_run c0 c c' len mem n chunk :
  zlen mem ≤ IO_APDU_BUFFER_SIZE → is_Some (hash_prefixed c0) → appended c0 c len [] → loads mem 0 n = Val chunk →
  cb_hash_data (buffer_create (drop 1 mem) (size_t (n - 1))) c = Val c' →
  ∃ b d, chunk = b :: d ∧ appended c0 c' len d.
Proof.
  intros Hz Hsome Happ Hld H. apply loads_Val in Hld as (_ & Hn & Hle & ->). unfold IO_APDU_BUFFER_SIZE in Hz.
  destruct (decide (n = 0)) as [->|Hn0].
  { exfalso. destruct (appended_None _ _ _ _ Happ Hsome) as [x Hx]. unfold cb_hash_data in H. rewrite Hx in H. inv_bind H.
    apply opt_update_Val in Ha as (y & Hy & _). apply hash_update_Val in Hy as [Hy _]. revert Hy. cbn [ptr offset buffer_create size].
    change (size_t (size_t (0 - 1) - 0)) with (2 ^ 32 - 1). rw /zlen !length_drop. unfold zlen in Hz. lia. }
  destruct mem as [|b mem]; [rewrite zlen_nil in Hle; lia|]. rewrite zlen_cons in Hz, Hle. change (drop 1 (b :: mem)) with mem in H.
  exists b, (take (Z.to_nat (n - 1)) mem). split; [rw /= (_ : Z.to_nat n = S (Z.to_nat (n - 1))) //; lia|].
  rewrite u32_small in H; [|lia]. rewrite -(app_nil_l (take _ _)).
  eapply cb_hash_data_run; [| |exact H|done]; [lia|]. rw loads_in_range; [by rw drop_0|lia..].
Qed.

(** A context is present when some data is hashed. *)
Lemma stream_preimage_run h c0 s r c s' :
  sized s → is_Some (hash_prefixed c0) →
  call_stream_preimage sha256 (Some cb_hash_len) cb_hash_data h c0 s = Val ((r, c), s') → 0 ≤ r →
  ∃ b d, sha256 (b :: d) = h ∧ appended c0 c (zlen d) d.
Proof.
  intros Hsz Hsome. rw /call_stream_preimage /answers_left /cur_ptr /apdu_at. intros H Hr. run_inv H.
  run_if H; [lia|]. destruct a0 as [[len n]|]; run_inv H; [|lia]. destruct (Z.ltb_spec (u32 len) 1); run_inv H; [lia|].
  destruct (Z.ltb_spec (u32 len) n); run_inv H; [lia|].
  match goal with Hm : more_bytes _ _ _ _ _ _ _ = Val (?p, _) |- _ => rename Hm into Hmore; destruct p as [[e data] c3] end.
  match goal with Hd : cb_hash_data _ _ = _ |- _ => rename Hd into Hfirst end.
  match goal with Hd : loads _ 0 n = _ |- _ => rename Hd into Hchunk end.
  match goal with Hd : cb_hash_len _ _ = _ |- _ => rename Hd into Hlen end.
  apply cb_hash_len_run in Hlen; [|pose proof (u32_range len); lia].
  assert (sized s1) as Hs1.
  { eapply later_sized, later_sized; [eapply run_keeps; [exact Hrun0|apply _]|eapply run_keeps; [exact Hrun|apply _]|done]. }
  apply loads_Val in Hchunk as Hn. destruct Hn as (_ & Hn & Hle & Hck).
  destruct (first_chunk_run _ _ _ _ _ _ _ (sized_mem _ _ Hs1) Hsome Hlen Hchunk Hfirst) as (b & d & -> & Hd).
  apply (more_bytes_run _ _ (λ data c, ∃ d', data = b :: d' ∧ appended c0 c (u32 len - 1) d') (u32 len - n)) in Hmore
    as ((d' & -> & Happ) & Hz & He); [|lia|lia| |by exists d].
  2:{ intros k x sx x' sx' chunk dd Hk Hch Hstep (d' & -> & Hx). unfold stream_step, cur_ptr, apdu_at in Hstep. run_inv Hstep. exists (d' ++ chunk). split; [done|].
      apply loads_Val in Hch as Hn'. eapply cb_hash_data_run; [|exact Hch|done|done]. pose proof (u32_range len). destruct Hn' as (_ & ? & _). lia. }
  destruct (Z.ltb_spec e 0); run_inv H; [lia|]. case_bool_decide as Hh; run_inv H. exists b, d'. split; [done|].
  assert (zlen (b :: d) = n) as Hbd by (rw Hck drop_0; apply zlen_take; lia).
  specialize (Hz ltac:(lia)). rewrite Hbd zlen_cons in Hz. by rw (_ : zlen d' = u32 len - 1); [|lia].
Qed.

Lemma update_hashes_run map key u p s r hs s' :
  sized s → update_hashes_with_map_value OS map key u (Some p) s = Val ((r, hs), s') → 0 ≤ r →
  later s s' ∧ ∃ d, streamed s map key d ∧ hash_prefixed hs = Some (p ++ ser_string d) ∧ hash_unprefixed hs = (λ x, x ++ d) <$> u.
Proof.
  intros Hsz H Hr. split; [eapply run_keeps; [exact H|apply _]|].
  rewrite /update_hashes_with_map_value /call_stream_merkleized_map_value /call_stream_merkle_leaf_element in H.
  run_inv H. destruct (a <? 0) eqn:Ha; run_inv H; [lia|]. destruct a0 as [res h]. destruct (res <? 0) eqn:Hres; run_inv H; [lia|].
  apply leaf_hash_run in Hrun0 as Hh. destruct Hh as [->|[-> [h' ->]]]; [done|].
  assert (sized s1) as Hs1.
  { eapply later_sized, later_sized; [eapply run_keeps; [exact Hrun0|apply _]|eapply run_keeps; [exact Hrun|apply _]|done]. }
  apply stream_preimage_run in H as (b & d & Hd & Hp & Hu); [|done|by eexists|done]. exists d. splits; [|done|done].
  exists s, s1, h', b. splits; [reflexivity| |done]. rw /call_get_merkleized_map_value_hash /mbind /io_bind Hrun Ha. done.
Qed.

(** *** Segwit version 0 *)

(** The script code of BIP-143: the script for the key hash, or the witness
    script, of which the program is the hash. *)
Definition script_code_of (s0 : dstate) (input : input_info) (sc : list Z) : Prop :=
  let scr := take (Z.to_nat (script_len input)) (script input) in
  (∃ h, zlen h = 20 ∧ scr = [0x00; 0x14] ++ h ∧ sc = [0x19; 0x76; 0xa9; 0x14] ++ h ++ [0x88; 0xac]) ∨
  (∃ ws, scr = [0x00; 0x20] ++ sha256 ws ∧ streamed s0 (io_map (in_out input)) PSBT_IN_WITNESS_SCRIPT ws ∧ sc = ser_string ws).

Lemma script_code_later s0 s1 input sc : later s0 s1 → script_code_of s1 input sc → script_code_of s0 input sc.
Proof.
  intros Hl [?|(ws & ? & ? & ?)]; [by left|right]. exists ws. splits; [done| |done]. by eapply streamed_later.
Qed.

(** A script that starts with two bytes, of which [loads] reads the others. *)
Lemma script_split m a b n l :
  load m 0 = Val a → load m 1 = Val b → loads m 2 n = Val l → take (Z.to_nat (2 + n)) m = [a; b] ++ l.
Proof.
  intros Ha Hb Hl. apply loads_Val in Hl as (_ & Hn & _ & ->). apply load_Val in Ha as [_ Ha]. apply load_Val in Hb as [_ Hb].
  destruct m as [|x [|y m]]; [done..|].
  injection Ha as ->. injection Hb as ->.
  replace (Z.to_nat (2 + n)) with (S (S (Z.to_nat n))) by lia. done.
Qed.

Lemma match_two_Val m len n a b : match_template m len n [(0, a); (1, b)] = Val true → len = n ∧ load m 0 = Val a ∧ load m 1 = Val b.
Proof.
  rw /match_template. destruct (Z.eqb_spec len n) as [->|]; [|done]. cbn [bytes_match]. intros H. inv_bind H.
  case_match eqn:E1; [|done]. inv_bind H. case_match eqn:E2; [|done]. apply Z.eqb_eq in E1, E2. by subst.
Qed.

Lemma segwitv0_script_run input ctx s ctx' s' :
  sized s → hash_segwitv0_script OS input ctx s = Val (Some ctx', s') →
  later s s' ∧ ∃ sc, script_code_of s input sc ∧ ctx' = ctx ++ sc.
Proof.
  intros Hsz H. split; [eapply run_keeps; [exact H|rw /hash_segwitv0_script; solve_keeps]|].
  rewrite /hash_segwitv0_script in H. run_inv H. destruct a; run_inv H.
  - apply match_two_Val in Hrun as (Hl & H0 & H1).
    hash_inv. exists ([0x19; 0x76; 0xa9; 0x14] ++ take 20 (drop 2 (script input)) ++ [0x88; 0xac]). split; [left|].
    + exists (take 20 (drop 2 (script input))). rewrite Hl. unfold zlen in H. rewrite length_drop in H.
      splits; [rw /zlen length_take length_drop; lia| |done].
      apply (script_split _ _ _ 20); [done..|]. apply loads_in_range; [done..|]. rw /zlen. lia.
    + by rw -!app_assoc.
  - destruct a; run_inv H; [|by apply fail_run in H]. destruct a as [r hs]. destruct (Z.ltb_spec r 0); [by apply fail_run in H|]. run_inv H.
    destruct (_ || _) eqn:Hc; [by apply fail_run in H|]. run_inv H. apply orb_false_elim in Hc as [_ Hc].
    apply negb_false_iff, bool_decide_eq_true in Hc.
    apply update_hashes_run in Hrun1 as (_ & ws & Hws & Hp & Hu); [|done..]. rewrite Heq in Hp. injection Hp as ->.
    rewrite Hu in Hc. apply match_two_Val in Hrun0 as (Hl & Hb0 & Hb1).
    exists (ser_string ws). split; [right|done]. exists ws. rewrite Hl. splits; [|done|done].
    apply (script_split _ _ _ 32); [done..|]. cbn in Hc. congruence.
Qed.

Lemma land_flag t : Z.land (Z.land t 255) 128 = if Z.testbit t 7 then 128 else 0.
Proof.
  rw -Z.land_assoc. change (Z.land 255 128) with (2 ^ 7). apply Z.bits_inj'. intros n Hn. rw Z.land_spec Z.pow2_bits_eqb; [|lia].
  destruct (Z.eqb_spec 7 n) as [<-|Hne].
  - by destruct (Z.testbit t 7).
  - rw andb_false_r. destruct (Z.testbit t 7); [|by rw Z.bits_0]. change 128 with (2 ^ 7). rw Z.pow2_bits_false; [done|lia].
Qed.

Lemma land_low t k : 0 ≤ k ≤ 8 → Z.land (Z.land t 255) (Z.ones k) = base_type k t.
Proof.
  intros Hk. rw -Z.land_assoc. change 255 with (Z.ones 8). rw (Z.land_comm (Z.ones 8)) Z.land_ones; [|lia].
  rw Z.mod_small; [rw Z.land_ones //; lia|]. rw Z.ones_equiv. split; [|apply Z.lt_le_trans with (2 ^ k); [lia|]; apply Z.pow_le_mono_r; lia].
  pose proof (Z.pow_pos_nonneg 2 k). lia.
Qed.

Lemma acp_byte t : anyone_can_pay (Z.land t 0xFF) = acp t.
Proof. rw /anyone_can_pay /SIGHASH_ANYONECANPAY land_flag /acp. by destruct (Z.testbit t 7). Qed.

Lemma single_byte t : is_single (Z.land t 0xFF) = (base_type 5 t =? SIGHASH_SINGLE).
Proof. rw /is_single. change 0x1f with (Z.ones 5). by rw land_low. Qed.

Lemma none_byte t : is_none (Z.land t 0xFF) = (base_type 5 t =? SIGHASH_NONE).
Proof. rw /is_none. change 0x1f with (Z.ones 5). by rw land_low. Qed.

(** The output with the index of the input, for SIGHASH_SINGLE. *)
Definition single_output (s0 : dstate) (tx : psbt_tx) (n : Z) (o : option out_data) : Prop :=
  match o with Some o => output_at s0 tx n o | None => tx_n_outputs tx ≤ n end.

Lemma single_output_later s0 s1 tx n o : later s0 s1 → single_output s1 tx n o → single_output s0 tx n o.
Proof. intros Hl. destruct o; [by apply output_at_later|done]. Qed.

Lemma segwitv0_hash_outputs_run tx hashes t n s h s' :
  segwitv0_hash_outputs OS junk tx hashes (Z.land t 255) n s = Val (Some h, s') →
  later s s' ∧ zlen h = 32 ∧
  ∃ o, (base_type 5 t = SIGHASH_SINGLE → single_output s tx n o) ∧
    h = if base_type 5 t =? SIGHASH_SINGLE then match o with Some o => dsha sha256 (ser_out o) | None => replicate 32 0 end
        else if base_type 5 t =? SIGHASH_NONE then replicate 32 0 else sha256 (sha_outputs hashes).
Proof.
  rw /segwitv0_hash_outputs single_byte none_byte. destruct (Z.eqb_spec (base_type 5 t) SIGHASH_SINGLE) as [Hs|Hs]; cbn [negb andb].
  - destruct (Z.ltb_spec n (tx_n_outputs tx)) as [Hn|Hn]; intros H; run_inv H.
    + destruct a as [r ctx]. apply hash_output_n_code in Hrun as Hr. destruct Hr as [-> | ->]; [|by apply fail_run in H].
      cbn [Z.eqb] in H. run_inv H. apply hash_output_n_run in Hrun as (Hl & o & Ho & ->). splits; [done|apply sha256_length|]. by exists (Some o).
    + splits; [reflexivity|done|]. by exists None.
  - intros H. destruct (Z.eqb_spec (base_type 5 t) SIGHASH_NONE); cbn [negb] in H; run_inv H;
      (splits; [reflexivity|by first [done|apply sha256_length]|exists None; by split]).
Qed.

Lemma segwitv0_end_run tx hashes input n ctx s d s' :
  segwitv0_end OS junk tx hashes input n ctx s = Val (Some d, s') →
  ∃ amount sq o hashOutputs, zlen amount = 8 ∧ obtained_start sha256 s (io_map (in_out input)) PSBT_IN_WITNESS_UTXO amount ∧
    sequence_of sha256 s (io_map (in_out input)) sq ∧
    (base_type 5 (sighash_type input) = SIGHASH_SINGLE → single_output s tx n o) ∧
    (hashOutputs = if base_type 5 (sighash_type input) =? SIGHASH_SINGLE then match o with Some o => dsha sha256 (ser_out o) | None => replicate 32 0 end
        else if base_type 5 (sighash_type input) =? SIGHASH_NONE then replicate 32 0 else sha256 (sha_outputs hashes)) ∧
    d = dsha sha256 (ctx ++ amount ++ sq ++ hashOutputs ++ le_bytes 4 (tx_locktime tx) ++ le_bytes 4 (sighash_type input)).
Proof.
  rw /segwitv0_end. intros H. run_inv H. destruct a as [len wu]. destruct (Z.ltb_spec len 8); [by apply fail_run in H|]. run_inv H.
  match goal with Hs : segwitv0_hash_outputs _ _ _ _ _ _ _ = Val (?x, _) |- _ => destruct x as [h|]; run_inv H end.
  match goal with Hs : get_sequence _ _ _ _ = Val (?q, _) |- _ => rename q into sq; apply get_sequence_run in Hs as (Hl1 & Hq) end.
  match goal with Hs : segwitv0_hash_outputs _ _ _ _ _ _ _ = _ |- _ => apply segwitv0_hash_outputs_run in Hs as (Hl2 & Hzh & o & Ho & Hh) end.
  pose proof (run_keeps later _ _ _ _ Hrun _) as Hl. hash_inv.
  exists (take 8 wu), sq, o, h. assert (zlen (take 8 wu) = 8) as Hz8 by (rw /zlen length_take; unfold zlen in *; lia). splits.
  - done.
  - eexists s, _, _, _, len. splits; [reflexivity|exact Hrun|lia|]. f_equal. unfold zlen in Hz8. lia.
  - by eapply sequence_later.
  - intros Hs. apply Ho in Hs. eapply single_output_later; [|exact Hs]. by etrans.
  - exact Hh.
  - rw /dsha -!app_assoc. do 2 f_equal. rw (take_ge sq) ?(take_ge h) //; unfold zlen in *; [lia|]. destruct Hq as [Hq _]. unfold zlen in Hq. lia.
Qed.

(** C4: the digest that is signed for a segwit version 0 input is the one of
    BIP-143, for every sighash type.  Whatever the host does, when
    [compute_sighash_segwitv0] returns a digest for the shared hashes of the
    inputs [ins] and the outputs [outs], it is the BIP-143 digest of an input
    whose outpoint and sequence number the host has provided from the map of the
    input, with the amount at the start of its witness UTXO, and the script code
    that the program commits to: the one of the key hash, or a witness script
    with the hash of the program.  With SIGHASH_SINGLE, the output is the one
    with the index of the input. *)
Theorem segwitv0_digest_correct tx ins prevouts outs input n s d s' :
  sized s →
  compute_sighash_segwitv0 OS junk tx (hashes_of sha256 ins prevouts outs) input n s = Val (Some d, s') →
  ∃ i o sc amount,
    input_of sha256 s (io_map (in_out input)) i ∧ script_code_of s input sc ∧
    zlen amount = 8 ∧ obtained_start sha256 s (io_map (in_out input)) PSBT_IN_WITNESS_UTXO amount ∧
    (base_type 5 (sighash_type input) = SIGHASH_SINGLE → single_output s tx n o) ∧
    d = bip143 sha256 (tx_version tx) (tx_locktime tx) (sighash_type input) ins outs i o sc amount.
Proof.
  intros Hsz. rw /compute_sighash_segwitv0 acp_byte single_byte none_byte. intros H. run_inv H.
  match goal with Ho : get_outpoint _ _ _ _ = Val (?x, _) |- _ =>
    destruct x as [[txid vout]|]; run_inv H; apply get_outpoint_run in Ho as (Hl & Ho') end.
  match goal with Ho : hash_segwitv0_script _ _ _ _ = Val (?x, _) |- _ =>
    destruct x as [ctx|]; run_inv H; apply segwitv0_script_run in Ho as (Hl1 & sc & Hsc & ->); [|by eapply later_sized] end.
  apply segwitv0_end_run in H as (amount & sq & o & hO & Hz & Ha & Hq & Ho & HhO & ->).
  pose proof (transitivity Hl Hl1) as Hl2. destruct Ho' as (Hzt & Hot & Hzv & Hov).
  exists (mk_in_data txid vout sq), o, sc, amount. splits.
  - split; [rw /outpoint_of; by splits|]. by apply (sequence_later _ _ _ _ _ Hl2).
  - by apply (script_code_later _ _ _ _ Hl).
  - done.
  - destruct Ha as (s2 & s3 & o1 & o2 & r & Hla & Ha). exists s2, s3, o1, o2, r. split; [by etrans|done].
  - intros Hs. by apply (single_output_later _ _ _ _ _ Hl2), Ho.
  - rw /bip143 /dsha. hash_inv. do 2 f_equal. rewrite HhO. cbn [sha_prevouts sha_sequences sha_outputs hashes_of id_sequence outpoint].
    rw (take_exact 32 txid) // (take_exact 4 vout) // -!app_assoc app_nil_l.
    destruct (acp _), (_ =? SIGHASH_SINGLE), (_ =? SIGHASH_NONE); cbn [negb andb orb]; by rw ?take_exact.
Qed.

(** *** Taproot *)
Lemma acp_byte1 t : (Z.land (Z.land t 0xFF) 0x80 =? SIGHASH_ANYONECANPAY) = acp t.
Proof. rw land_flag /acp. by destruct (Z.testbit t 7). Qed.

Lemma low_byte1 t : Z.land (Z.land t 0xFF) 3 = base_type 2 t.
Proof. change 3 with (Z.ones 2). by rw land_low. Qed.

(** A field that is read into the first bytes of [tmp]. *)
Lemma get_value_tmp_run map key n tmp s len tmp' s' :
  0 ≤ n ≤ zlen tmp → get_value_tmp OS map key n tmp s = Val ((len, tmp'), s') →
  later s s' ∧ zlen tmp' = zlen tmp ∧
  (len = n → obtained sha256 s map key (take (Z.to_nat n) tmp')) ∧
  (∀ k, 0 ≤ k ≤ n → k ≤ len → obtained_start sha256 s map key (take (Z.to_nat k) tmp')).
Proof.
  intros Hn. rw /get_value_tmp. intros H. run_inv H. destruct a as [r raw]. run_inv H.
  assert (zlen (take (Z.to_nat n) tmp) = n) as Hzt by (apply zlen_take; lia).
  destruct (map_value_run _ _ _ _ _ _ _ _ Hrun) as [_ Hz]. rewrite Hzt in Hz.
  assert (∀ k, 0 ≤ k ≤ n → take (Z.to_nat k) (raw ++ drop (Z.to_nat n) tmp) = take (Z.to_nat k) raw) as Htk.
  { intros k Hk. rw take_app_le //. unfold zlen in Hz. lia. }
  splits.
  - eapply run_keeps; [exact Hrun|apply _].
  - rw zlen_app /zlen length_drop. unfold zlen in *. lia.
  - intros ->. rw Htk; [|lia]. eapply obtained_run; [exact Hrun|]. lia.
  - intros k Hk Hkl. rw Htk //. exists s, s', (take (Z.to_nat n) tmp), raw, len.
    assert (zlen (take (Z.to_nat k) raw) = k) as Hzk by (apply zlen_take; lia). splits; [reflexivity|exact Hrun|lia|].
    f_equal. unfold zlen in Hzk. lia.
Qed.

Lemma obtained_start_later s0 s1 map key v : later s0 s1 → obtained_start sha256 s1 map key v → obtained_start sha256 s0 map key v.
Proof. intros Hl (s & s' & out & out' & r & Hs & H). exists s, s', out, out', r. split; [by etrans|done]. Qed.

Lemma stores_exact m l m' n : stores m 0 l = Val m' → zlen l = n → take (Z.to_nat n) m' = l ∧ zlen m' = zlen m.
Proof. intros H Hz. split; [by eapply stores_take|by eapply stores_length]. Qed.

Lemma tmp_sequence_run map tmp s len t s1 tmp' s' :
  4 ≤ zlen tmp → get_value_tmp OS map PSBT_IN_SEQUENCE 4 tmp s = Val ((len, t), s1) →
  (if negb (len =? 4) then lift (stores t 0 (replicate 4 0xFF)) else mret t) s1 = Val (tmp', s') →
  later s s' ∧ zlen tmp' = zlen tmp ∧ sequence_of sha256 s map (take (Z.to_nat 4) tmp').
Proof.
  intros Hz Hget H. pose proof Hget as Hraw. apply get_value_tmp_run in Hget as (Hl & Hzt & Hex & _); [|lia].
  destruct (Z.eqb_spec len 4) as [->|Hne]; cbn [negb] in H; run_inv H.
  - splits; [done..|]. split; [apply zlen_take; lia|]. left. by apply Hex.
  - apply (stores_exact _ _ _ 4) in H as [Ht Hz']; [|done]. splits; [done|lia|]. rewrite Ht. split; [done|right]. split; [|done].
    unfold get_value_tmp in Hraw. run_inv Hraw. destruct a as [r raw]. run_inv Hraw. eexists s, _, _, _, len. by splits.
Qed.

Lemma segwitv1_input_run input tmp ctx s ctx' tmp' s' :
  zlen tmp = 43 → 0 ≤ scriptPubKey_len (in_out input) ≤ MAX_OUTPUT_SCRIPTPUBKEY_LEN →
  hash_segwitv1_input OS input tmp ctx s = Val (Some (ctx', tmp'), s') →
  later s s' ∧ zlen tmp' = 43 ∧ ∃ i amount, input_of sha256 s (io_map (in_out input)) i ∧
    zlen amount = 8 ∧ obtained_start sha256 s (io_map (in_out input)) PSBT_IN_WITNESS_UTXO amount ∧
    ctx' = ctx ++ outpoint i ++ ser_out (mk_out_data amount (take (Z.to_nat (scriptPubKey_len (in_out input))) (scriptPubKey (in_out input)))) ++ id_sequence i.
Proof.
  intros Htmp Hspk. rw /hash_segwitv1_input. intros H. run_inv H.
  destruct a as [l1 t1]. destruct (Z.eqb_spec l1 32) as [->|]; cbn [negb] in H; [|by apply fail_run in H]. run_inv H.
  match goal with Hs : get_value_tmp _ _ PSBT_IN_OUTPUT_INDEX _ _ _ = Val (?x, _) |- _ => destruct x as [l2 t2] end.
  destruct (Z.eqb_spec l2 4) as [->|]; cbn [negb] in H; [|by apply fail_run in H]. run_inv H.
  match goal with Hs : get_value_tmp _ _ PSBT_IN_WITNESS_UTXO _ _ _ = Val (?x, _) |- _ => destruct x as [l3 t3] end.
  destruct (Z.ltb_spec l3 8) as [|Hl3]; [by apply fail_run in H|]. run_inv H.
  match goal with Hs : get_value_tmp _ _ PSBT_IN_SEQUENCE _ _ _ = Val (?x, _) |- _ => destruct x as [l4 t4]; rename Hs into Hq end. run_inv H.
  match goal with Hs : (if _ then _ else _) _ = _ |- _ => rename Hs into Hq' end.
  apply get_value_tmp_run in Hrun as (H1 & Hz1 & Ho1 & _); [|lia].
  apply get_value_tmp_run in Hrun1 as (H2 & Hz2 & Ho2 & _); [|lia].
  apply get_value_tmp_run in Hrun3 as (H3 & Hz3 & _ & Ho3); [|change (8 + 1 + MAX_PREVOUT_SCRIPTPUBKEY_LEN) with 43; lia].
  assert (4 ≤ zlen t3) as H43 by lia. apply (tmp_sequence_run _ _ _ _ _ _ _ _ H43 Hq) in Hq' as (H4 & Hz4 & Hsq).
  apply hash_update_varint_Val in Hrun5 as ->; [|unfold MAX_OUTPUT_SCRIPTPUBKEY_LEN in Hspk; lia]. hash_inv.
  pose proof (transitivity H1 H2) as H12. pose proof (transitivity H12 H3) as H13.
  assert (zlen (take (Z.to_nat (scriptPubKey_len (in_out input))) (scriptPubKey (in_out input))) = scriptPubKey_len (in_out input)) as Hzs
    by (apply zlen_take; lia).
  splits; [by etrans|lia|]. exists (mk_in_data (take (Z.to_nat 32) t1) (take (Z.to_nat 4) t2) (take (Z.to_nat 4) tmp')), (take (Z.to_nat 8) t3). splits.
  - split; [|by apply (sequence_later _ _ _ _ _ H13)].
    rw /outpoint_of. splits; [apply zlen_take; lia|by apply Ho1|apply zlen_take; lia|]. apply (obtained_later _ _ _ _ _ _ H1). by apply Ho2.
  - apply zlen_take; lia.
  - apply (obtained_start_later _ _ _ _ _ H12). by apply Ho3.
  - rw /outpoint /ser_out /ser_string /od_script /od_amount /id_sequence Hzs -!app_assoc. done.
Qed.

(** What is hashed before the data of the input. *)
Definition segwitv1_common (tx : psbt_tx) (h : segwit_hashes) (t : Z) (is_tapscript : bool) : list Z :=
  [t] ++ le_bytes 4 (tx_version tx) ++ le_bytes 4 (tx_locktime tx) ++
  (if acp t then [] else sha_prevouts h ++ sha_amounts h ++ sha_scriptpubkeys h ++ sha_sequences h) ++
  (if (base_type 2 t =? SIGHASH_SINGLE) || (base_type 2 t =? SIGHASH_NONE) then [] else sha_outputs h) ++
  [if is_tapscript then 2 else 0].

Definition hashes_ok (h : segwit_hashes) : Prop :=
  zlen (sha_prevouts h) = 32 ∧ zlen (sha_amounts h) = 32 ∧ zlen (sha_scriptpubkeys h) = 32 ∧ zlen (sha_sequences h) = 32 ∧
  zlen (sha_outputs h) = 32.

Lemma write_u32_le_take tmp v tmp' : write_u32_le tmp 0 v = Val tmp' → take (Z.to_nat 4) tmp' = le_bytes 4 v ∧ zlen tmp' = zlen tmp.
Proof. rw write_u32_le_stores. intros H. by eapply stores_exact in H. Qed.

Lemma segwitv1_start_run tx h t is_tap tmp ctx tmp' :
  hashes_ok h → 0 ≤ t < 256 → segwitv1_start OS tx h (Z.land t 255) is_tap tmp = Val (ctx, tmp') →
  zlen tmp' = zlen tmp ∧
  ctx = sha256 BIP0341_sighash_tag ++ sha256 BIP0341_sighash_tag ++ [0] ++ segwitv1_common tx h t is_tap.
Proof.
  intros (Hp & Ha & Hs & Hq & Ho) Ht. rw /segwitv1_start acp_byte1 low_byte1. change 255 with (Z.ones 8).
  rw Z.land_ones // Z.mod_small //. intros H. repeat inv_bind H. injection H as -> ->.
  apply write_u32_le_take in Ha2 as [Hv Hzv], Ha4 as [Hlt Hzlt].
  assert (a5 = a4 ++ if acp t then [] else sha_prevouts h ++ sha_amounts h ++ sha_scriptpubkeys h ++ sha_sequences h) as ->.
  { clear Ha7. destruct (acp t); cbn [negb] in Ha6; [injection Ha6 as ->; by rw app_nil_r|]. do 3 inv_bind Ha6.
    repeat match goal with Hu : crypto_hash_update _ (_ h) 32 = _ |- _ => apply hash_update_exact in Hu as ->; [|done] end.
    by rw -!app_assoc. }
  assert (a6 = (a4 ++ if acp t then [] else sha_prevouts h ++ sha_amounts h ++ sha_scriptpubkeys h ++ sha_sequences h) ++
          if (base_type 2 t =? SIGHASH_SINGLE) || (base_type 2 t =? SIGHASH_NONE) then [] else sha_outputs h) as ->.
  { destruct (base_type 2 t =? SIGHASH_SINGLE), (base_type 2 t =? SIGHASH_NONE); cbn [negb andb orb] in *;
      try (injection Ha7 as ->; by rw app_nil_r). apply hash_update_exact in Ha7 as ->; done. }
  split; [congruence|]. clear Ha6 Ha7. hash_inv. rw Hv Hlt /segwitv1_common /crypto_tr_tagged_hash_init -!app_assoc. by destruct is_tap.
Qed.

(** The single output, and the extension for a tapscript. *)
Lemma segwitv1_end_run tx t n info tmp ctx s d s' :
  zlen tmp = 43 → zlen (tapleaf_hash info) = 32 →
  segwitv1_end OS junk tx (Z.land t 255) n info tmp ctx s = Val (Some d, s') →
  ∃ o, (base_type 2 t = SIGHASH_SINGLE → ∃ o', o = Some o' ∧ output_at s tx n o') ∧
    Some d = (λ out, sha256 (ctx ++ out ++ if is_tapscript info then tapleaf_hash info ++ [0] ++ replicate 4 255 else [])) <$>
      (if base_type 2 t =? SIGHASH_SINGLE then (λ o, sha256 (ser_out o)) <$> o else Some []).
Proof.
  intros Hz Hleaf. rw /segwitv1_end low_byte1. intros H. apply io_bind_Val in H as (c & s1 & Hc & H).
  assert (∃ o out, (base_type 2 t = SIGHASH_SINGLE → ∃ o', o = Some o' ∧ output_at s tx n o') ∧ c = Some (ctx ++ out) ∧
    Some out = if base_type 2 t =? SIGHASH_SINGLE then (λ o, sha256 (ser_out o)) <$> o else Some []) as (o & out & Ho & -> & Hout).
  { destruct c as [c|]; [|by run_inv H]. clear H. destruct (Z.eqb_spec (base_type 2 t) SIGHASH_SINGLE) as [Hs|Hs]; run_inv Hc.
    - destruct a as [r octx]. apply hash_output_n_code in Hrun as Hr. destruct Hr as [-> | ->]; [|by apply fail_run in Hc].
      cbn [Z.eqb] in Hc. run_inv Hc. apply hash_output_n_run in Hrun as (_ & o & Ho & ->).
      match goal with Hw : stores _ _ _ = _ |- _ => apply (stores_exact _ _ _ 32) in Hw as [Hw _]; [|done] end. hash_inv.
      exists (Some o), (sha256 (ser_out o)). splits; [by intros _; exists o| |done]. by do 2 f_equal.
    - exists None, []. splits; [done|by rw app_nil_r|done]. }
  exists o. split; [done|]. rw -Hout. run_inv H. cbn. f_equal. destruct (is_tapscript info).
  - match goal with Hr : (_ ≫= _) _ = _ |- _ => run_inv Hr end. clear Hc. hash_inv. by rw take_exact // -!app_assoc.
  - match goal with Hr : mret _ _ = _ |- _ => run_inv Hr end. by rw app_nil_r.
Qed.

Lemma hashes_of_ok ins prevouts outs : hashes_ok (hashes_of sha256 ins prevouts outs).
Proof. rw /hashes_ok /=. by rw !sha256_length. Qed.

(** The data of the input: all of it with ANYONECANPAY, its index otherwise. *)
Definition segwitv1_middle (input : input_info) (n : Z) (i : in_data) (amount : list Z) : list Z :=
  if acp (sighash_type input) then
    outpoint i ++ ser_out (mk_out_data amount (take (Z.to_nat (scriptPubKey_len (in_out input))) (scriptPubKey (in_out input)))) ++
    id_sequence i
  else le_bytes 4 n.

Lemma segwitv1_middle_run input n tmp ctx s ctx' tmp' s' :
  zlen tmp = 43 → 0 ≤ scriptPubKey_len (in_out input) ≤ MAX_OUTPUT_SCRIPTPUBKEY_LEN →
  (if acp (sighash_type input) then hash_segwitv1_input OS input tmp ctx
   else
     tmp ← lift (write_u32_le tmp 0 n);
     ctx ← lift (crypto_hash_update ctx tmp 4);
     mret (Some (ctx, tmp))) s = Val (Some (ctx', tmp'), s') →
  later s s' ∧ zlen tmp' = 43 ∧ ∃ i amount,
    (acp (sighash_type input) = true →
       input_of sha256 s (io_map (in_out input)) i ∧ zlen amount = 8 ∧
       obtained_start sha256 s (io_map (in_out input)) PSBT_IN_WITNESS_UTXO amount) ∧
    ctx' = ctx ++ segwitv1_middle input n i amount.
Proof.
  intros Hz Hspk H. rw /segwitv1_middle. destruct (acp (sighash_type input)).
  - apply segwitv1_input_run in H as (Hl & Hz' & i & amount & Hi & Ha & Ho & ->); [|done..]. splits; [done..|]. by exists i, amount.
  - run_inv H. match goal with Hw : write_u32_le _ _ _ = _ |- _ => apply write_u32_le_take in Hw as [Hv Hzv] end. hash_inv.
    splits; [reflexivity|lia|]. exists (mk_in_data [] [] []), []. by rw Hv.
Qed.

(** C5: the digest that is signed for a taproot input is the one of BIP-341, for
    every sighash type, with the extension of BIP-342 for a script path.  Whatever
    the host does, when [compute_sighash_segwitv1] returns a digest for the shared
    hashes of the inputs [ins], the previous outputs [prevouts] and the outputs
    [outs], it is the digest of BIP-341; with ANYONECANPAY, the outpoint, the
    sequence number and the amount of the input are the ones that the host has
    provided from its map, and with SIGHASH_SINGLE the output with the index of
    the input exists and is the one that is hashed. *)
Theorem segwitv1_digest_correct tx ins prevouts outs input n info s d s' :
  0 ≤ sighash_type input < 256 → 0 ≤ scriptPubKey_len (in_out input) ≤ MAX_OUTPUT_SCRIPTPUBKEY_LEN →
  zlen (tapleaf_hash info) = 32 →
  compute_sighash_segwitv1 OS junk tx (hashes_of sha256 ins prevouts outs) input n info s = Val (Some d, s') →
  ∃ i amount o,
    (acp (sighash_type input) = true →
       input_of sha256 s (io_map (in_out input)) i ∧ zlen amount = 8 ∧
       obtained_start sha256 s (io_map (in_out input)) PSBT_IN_WITNESS_UTXO amount) ∧
    (base_type 2 (sighash_type input) = SIGHASH_SINGLE → ∃ o', o = Some o' ∧ output_at s tx n o') ∧
    bip341 sha256 (tx_version tx) (tx_locktime tx) (sighash_type input) n ins prevouts outs i
      (mk_out_data amount (take (Z.to_nat (scriptPubKey_len (in_out input))) (scriptPubKey (in_out input)))) o
      (if is_tapscript info then Some (tapleaf_hash info) else None) = Some d.
Proof.
  intros Ht Hspk Hleaf. rw /compute_sighash_segwitv1 acp_byte1. intros H. run_inv H. destruct a as [ctx0 tmp]. run_inv H.
  match goal with Hs : (if _ then _ else _) _ = Val (?x, _) |- _ => rename Hs into Hin; destruct x as [[ctx tmp']|]; run_inv H end.
  apply segwitv1_start_run in Hrun as [Hz ->]; [|apply hashes_of_ok|done]. rewrite Hjunk in Hz; [|done].
  apply segwitv1_middle_run in Hin as (Hl & Hz' & i & amount & Hi & ->); [|done..].
  apply segwitv1_end_run in H as (o & Ho & Hd); [|done..]. exists i, amount, o. splits; [done| |].
  - intros Hs. destruct (Ho Hs) as (o' & -> & Ho'). exists o'. split; [done|]. by apply (output_at_later _ _ _ _ _ Hl).
  - rw Hd /bip341 /tagged /segwitv1_middle /segwitv1_common. clear Hd.
    destruct (_ =? SIGHASH_SINGLE), (_ =? SIGHASH_NONE), (acp _), (is_tapscript info), o; cbn; by rw -?app_assoc /= -?app_assoc.
Qed.

(** *** Legacy *)

(** The script code: the redeem script, or the script of the previous output. *)
Definition legacy_script_of (s0 : dstate) (input : input_info) (sc : list Z) : Prop :=
  if has_redeemScript input then streamed s0 (io_map (in_out input)) PSBT_IN_REDEEM_SCRIPT sc
  else sc = take (Z.to_nat (scriptPubKey_len (in_out input))) (scriptPubKey (in_out input)).

(** The data of the input that is signed comes from the map that is known. *)
Definition legacy_input_at (s0 : dstate) (tx : psbt_tx) (input : input_info) (n i : Z) (d : in_data) : Prop :=
  if i =? n then input_of sha256 s0 (io_map (in_out input)) d else input_at s0 tx i d.

Lemma legacy_input_at_later s0 s1 tx input n i d : later s0 s1 → legacy_input_at s1 tx input n i d → legacy_input_at s0 tx input n i d.
Proof. intros Hl. rw /legacy_input_at. case_match; [by apply input_later|by apply input_at_later]. Qed.

Lemma legacy_script_later s0 s1 input sc : later s0 s1 → legacy_script_of s1 input sc → legacy_script_of s0 input sc.
Proof. intros Hl. rw /legacy_script_of. case_match; [by apply streamed_later|done]. Qed.

Lemma legacy_script_run input ctx s ctx' s' :
  sized s → 0 ≤ scriptPubKey_len (in_out input) ≤ MAX_OUTPUT_SCRIPTPUBKEY_LEN →
  hash_legacy_script OS input ctx s = Val (Some ctx', s') →
  later s s' ∧ ∃ sc, legacy_script_of s input sc ∧ ctx' = ctx ++ ser_string sc.
Proof.
  intros Hsz Hspk H. split; [eapply run_keeps; [exact H|rw /hash_legacy_script; solve_keeps]|].
  rewrite /hash_legacy_script in H. rw /legacy_script_of. destruct (has_redeemScript input); cbn [negb] in H; run_inv H.
  - destruct a as [r hs]. destruct (Z.ltb_spec r 0); [by apply fail_run in H|]. run_inv H.
    apply update_hashes_run in Hrun as (_ & d & Hd & Hp & _); [|done..]. exists d. split; [done|]. congruence.
  - match goal with Hu : crypto_hash_update_varint _ _ = _ |- _ => apply hash_update_varint_Val in Hu as ->; [|unfold MAX_OUTPUT_SCRIPTPUBKEY_LEN in Hspk; lia] end.
    hash_inv. eexists. split; [done|]. rw /ser_string zlen_take; [by rw -app_assoc|lia..].
Qed.

Lemma ser_ins_shift n sc sc' (ins : list in_data) i :
  n < i → concat (imap (λ k, ser_in n sc (i + Z.of_nat k)) ins) = concat (imap (λ k, ser_in n sc' (i + Z.of_nat k)) ins).
Proof. intros Hi. f_equal. apply imap_ext. intros k x _. cbn. rw /ser_in. by rw (proj2 (Z.eqb_neq _ _)); [|lia]. Qed.

Lemma ser_ins_cons n sc d (ins : list in_data) i :
  concat (imap (λ k, ser_in n sc (i + Z.of_nat k)) (d :: ins)) =
  ser_in n sc i d ++ concat (imap (λ k, ser_in n sc (i + 1 + Z.of_nat k)) ins).
Proof.
  rw imap_cons concat_cons. f_equal; [by rw Z.add_0_r|]. f_equal. apply imap_ext. intros k x _. cbn. f_equal. lia.
Qed.

(** The map and the script of one input. *)
Lemma legacy_step_run tx input n i ctx s m s1 txid vout s2 c s3 :
  sized s → 0 ≤ scriptPubKey_len (in_out input) ≤ MAX_OUTPUT_SCRIPTPUBKEY_LEN →
  (if negb (i =? n) then get_map OS junk (inputs_root tx) (i32 (tx_n_inputs tx)) (i32 i) else mret (Some (io_map (in_out input)))) s
    = Val (Some m, s1) →
  get_outpoint OS junk m s1 = Val (Some (txid, vout), s2) →
  (if negb (i =? n) then ctx ← lift (crypto_hash_update_u8 ctx 0x00); mret (Some ctx) else hash_legacy_script OS input ctx) s2
    = Val (Some c, s3) →
  later s s3 ∧ zlen txid = 32 ∧ zlen vout = 4 ∧ (∃ sc, c = ctx ++ ser_string (if i =? n then sc else []) ∧ (i = n → legacy_script_of s input sc)) ∧
  (∀ sq, sequence_of sha256 s3 m sq → legacy_input_at s tx input n i (mk_in_data txid vout sq)).
Proof.
  intros Hsz Hspk Hm Ho Hc. apply get_outpoint_run in Ho as (Hl1 & Hz1 & Ho1 & Hz2 & Ho2). rw /legacy_input_at.
  destruct (Z.eqb_spec i n) as [->|Hne]; cbn [negb] in Hm, Hc.
  - run_inv Hm. apply legacy_script_run in Hc as (Hl2 & sc & Hsc & ->); [|by eapply later_sized|done]. pose proof (transitivity Hl1 Hl2) as Hl3.
    splits; [done..| |].
    + exists sc. split; [done|]. intros _. by apply (legacy_script_later _ _ _ _ Hl1).
    + intros sq Hsq. split; [rw /outpoint_of; by splits|]. by apply (sequence_later _ _ _ _ _ Hl3).
  - run_inv Hc. hash_inv. pose proof (run_keeps later _ _ _ _ Hm _) as Hl0. pose proof (transitivity Hl0 Hl1) as Hl2. splits; [done..| |].
    + exists []. done.
    + intros sq Hsq. exists m. split; [by exists s, s1|]. split.
      * rw /outpoint_of. splits; [done|by apply (obtained_later _ _ _ _ _ _ Hl0)|done|by apply (obtained_later _ _ _ _ _ _ Hl0)].
      * by apply (sequence_later _ _ _ _ _ Hl2).
Qed.

Lemma legacy_inputs_run fuel tx input n ctx i s ctx' s' :
  sized s → 0 ≤ scriptPubKey_len (in_out input) ≤ MAX_OUTPUT_SCRIPTPUBKEY_LEN → i ≤ tx_n_inputs tx →
  legacy_inputs_loop OS junk fuel tx input n ctx i s = Val (Some ctx', s') →
  later s s' ∧ ∃ ins sc, zlen ins = tx_n_inputs tx - i ∧ all_at (legacy_input_at s tx input n) i ins ∧
    (i ≤ n < tx_n_inputs tx → legacy_script_of s input sc) ∧ ctx' = ctx ++ concat (imap (λ k, ser_in n sc (i + Z.of_nat k)) ins).
Proof.
  intros Hsz Hspk. revert ctx i s Hsz. induction fuel as [|f IH]; intros ctx i s Hsz Hi H; [done|]. cbn [legacy_inputs_loop] in H.
  destruct (Z.ltb_spec i (tx_n_inputs tx)) as [Hlt|Hge]; last first.
  { run_inv H. split; [reflexivity|]. exists [], []. splits; [rw zlen_nil; lia|by apply all_at_nil|lia|by rw app_nil_r]. }
  apply io_bind_Val in H as (om & s1 & Hm & H). destruct om as [m|]; [|by apply fail_run in H].
  apply io_bind_Val in H as (oo & s2 & Ho & H). destruct oo as [[txid vout]|]; [|by run_inv H].
  apply io_bind_Val in H as (ctx1 & s3 & Hc1 & H). apply lift_Val in Hc1 as [Hc1 <-].
  apply io_bind_Val in H as (ctx2 & s3 & Hc2 & H). apply lift_Val in Hc2 as [Hc2 <-].
  apply io_bind_Val in H as (oc & s3 & Hc & H). destruct oc as [c|]; [|by run_inv H].
  apply io_bind_Val in H as (sq & s4 & Hq & H). apply io_bind_Val in H as (ctx4 & s5 & Hc4 & H). apply lift_Val in Hc4 as [Hc4 <-].
  apply (legacy_step_run _ _ _ _ _ _ _ _ _ _ _ _ _ Hsz Hspk Hm Ho) in Hc as (Hl & Hzt & Hzv & (sc & -> & Hsc) & Hat).
  apply get_sequence_run in Hq as (Hl4 & Hsq). pose proof (transitivity Hl Hl4) as Hl5.
  apply IH in H as (Hl6 & ins & sc' & Hn & Hall & Hsc' & ->); [|by eapply later_sized|lia].
  split; [by etrans|]. hash_inv. rw (take_exact 32 txid) // (take_exact 4 vout) // (take_exact 4 sq); [|apply Hsq].
  exists (mk_in_data txid vout sq :: ins), (if i =? n then sc else sc'). splits.
  - rw zlen_cons. lia.
  - eapply all_at_cons; [by apply Hat|done|]. intros k y. by apply legacy_input_at_later.
  - intros Hin. destruct (Z.eqb_spec i n) as [->|]; [by apply Hsc|]. apply (legacy_script_later _ _ _ _ Hl5), Hsc'. lia.
  - rw ser_ins_cons. set (rest1 := concat (imap _ ins)). set (rest2 := concat (imap _ ins)).
    assert (rest1 = rest2) as ->; [|by rw /ser_in /outpoint -!app_assoc; destruct (i =? n)].
    unfold rest1, rest2. destruct (Z.eqb_spec i n) as [->|]; [apply ser_ins_shift; lia|done].
Qed.

(** C6: the digest that is signed for a legacy input is the hash of the
    transaction in which the input has its script code and the other inputs have
    empty scripts, followed by the sighash type; this is the digest of legacy
    transactions for SIGHASH_ALL, the only type that the flow accepts for them.
    Whatever the host does, the outpoints, the sequence numbers and the outputs
    are the ones that it has provided from the maps, in the order of the
    transaction, and the script code is the redeem script that it has provided,
    or the script of the previous output. *)
Theorem legacy_digest_correct tx input n s d s' :
  sized s → 0 ≤ scriptPubKey_len (in_out input) ≤ MAX_OUTPUT_SCRIPTPUBKEY_LEN →
  0 ≤ n < tx_n_inputs tx → tx_n_inputs tx < 2 ^ 32 → 0 ≤ tx_n_outputs tx < 2 ^ 32 →
  compute_sighash_legacy OS junk tx input n s = Val (Some d, s') →
  ∃ ins outs sc,
    zlen ins = tx_n_inputs tx ∧ all_at (legacy_input_at s tx input n) 0 ins ∧
    zlen outs = tx_n_outputs tx ∧ all_at (output_at s tx) 0 outs ∧
    legacy_script_of s input sc ∧
    d = legacy_sighash sha256 (tx_version tx) (tx_locktime tx) (sighash_type input) n ins outs sc.
Proof.
  intros Hsz Hspk Hn Hni Hno. rw /compute_sighash_legacy /answers_left. intros H. run_inv H.
  match goal with Hs : legacy_inputs_loop _ _ _ _ _ _ _ _ _ = Val (?x, _) |- _ => rename Hs into Hins; destruct x as [c|]; run_inv H end.
  match goal with Hs : hash_outputs _ _ _ _ _ = Val (?x, _) |- _ => rename Hs into Houts; destruct x as [r c2] end.
  destruct (Z.eqb_spec r (-1)) as [|Hr]; run_inv H; [by apply fail_run in H|].
  apply legacy_inputs_run in Hins as (Hl & ins & sc & Hzi & Hi & Hsc & ->); [|done..|lia].
  apply hash_outputs_run in Houts as (_ & outs & Hzo & Ho & ->); [|lia|done].
  repeat match goal with Hu : crypto_hash_update_varint _ _ = _ |- _ => apply hash_update_varint_Val in Hu as ->; [|lia] end. hash_inv.
  rewrite Z.sub_0_r in Hzi. exists ins, outs, sc. splits; [done..| |by apply Hsc|].
  - intros k x Hk. by apply (output_at_later _ _ _ _ _ Hl), Ho.
  - rw /legacy_sighash /dsha Hzi Hzo -!app_assoc app_nil_l. done.
Qed.
End digests.

(** ** Examples

    The digests of the sample transaction, with a host that answers every
    request. *)
Definition output_host : list exchange := host_map [sample_out] 0 ++ host_lookups sample_out [PSBT_OUT_AMOUNT; PSBT_OUT_SCRIPT].
Definition hashes_host : list exchange :=
  host_map [sample_in] 0 ++ host_lookups sample_in [PSBT_IN_PREVIOUS_TXID; PSBT_IN_OUTPUT_INDEX; PSBT_IN_SEQUENCE] ++
  output_host ++ host_map [sample_in] 0 ++ host_lookup sample_in PSBT_IN_WITNESS_UTXO.

Definition sample_ins : list in_data := [mk_in_data (replicate 32 9) [1; 0; 0; 0] (replicate 4 255)].
Definition sample_prevouts : list out_data := [mk_out_data (le_bytes 8 1000) ([0; 20] ++ replicate 20 7)].
Definition sample_outs : list out_data := [mk_out_data (le_bytes 8 900) ([0; 20] ++ replicate 20 8)].

Definition sample_input (sighash : Z) : input_info :=
  mk_input (mk_in_out (sample_commitment sample_in) false false false 0 ([0; 20] ++ replicate 20 7 ++ replicate 12 0) 22)
    true false false true 1000 ([0; 20] ++ replicate 20 7) 22 sighash.

Definition sample_start (rx : list exchange) : dstate := sample_state 0 rx.
Definition sample_digest0 (sighash : Z) : list Z :=
  bip143 toy_hash 2 0 sighash sample_ins sample_outs (nth 0 sample_ins (mk_in_data [] [] [])) (head sample_outs)
    ([25; 0x76; 0xa9; 20] ++ replicate 20 7 ++ [0x88; 0xac]) (le_bytes 8 1000).

(** The size of the buffer of a sample state, and the form of its exchanges. *)
Ltac solve_sized := split; [done|by apply (bool_decide_unpack _); vm_compute].

Lemma segwit_hashes_correct_witness :
  ∃ ins prevouts outs,
    zlen ins = 1 ∧ all_at (input_at sample_sdk sample_array (sample_start hashes_host) sample_psbt) 0 ins ∧
    zlen prevouts = 1 ∧ all_at (prevout_at sample_sdk sample_array 0 (sample_start hashes_host) sample_psbt) 0 prevouts ∧
    zlen outs = 1 ∧ all_at (output_at sample_sdk sample_array (sample_start hashes_host) sample_psbt) 0 outs ∧
    hashes_of toy_hash sample_ins sample_prevouts sample_outs = hashes_of toy_hash ins prevouts outs.
Proof.
  eapply (segwit_hashes_correct sample_sdk sample_array 0 sample_array_length sample_psbt);
    [done..|vm_compute; reflexivity].
Defined.

Definition segwitv0_host : list exchange :=
  host_lookups sample_in [PSBT_IN_PREVIOUS_TXID; PSBT_IN_OUTPUT_INDEX; PSBT_IN_WITNESS_UTXO; PSBT_IN_SEQUENCE] ++ output_host.

Lemma segwitv0_digest_correct_witness :
  ∃ i o sc amount,
    input_of toy_hash (sample_start segwitv0_host) (sample_commitment sample_in) i ∧
    script_code_of sample_sdk (sample_start segwitv0_host) (sample_input SIGHASH_SINGLE) sc ∧
    zlen amount = 8 ∧
    obtained_start toy_hash (sample_start segwitv0_host) (sample_commitment sample_in) PSBT_IN_WITNESS_UTXO amount ∧
    (base_type 5 SIGHASH_SINGLE = SIGHASH_SINGLE → single_output sample_sdk sample_array (sample_start segwitv0_host) sample_psbt 0 o) ∧
    sample_digest0 SIGHASH_SINGLE = bip143 toy_hash 2 0 SIGHASH_SINGLE sample_ins sample_outs i o sc amount.
Proof.
  eapply (segwitv0_digest_correct sample_sdk sample_array sample_array_length toy_hash_length sample_psbt sample_ins
            sample_prevouts sample_outs (sample_input SIGHASH_SINGLE) 0 (sample_start segwitv0_host)); [solve_sized|vm_compute; reflexivity].
Defined.

Definition segwitv1_host : list exchange :=
  host_lookups sample_in [PSBT_IN_PREVIOUS_TXID; PSBT_IN_OUTPUT_INDEX; PSBT_IN_WITNESS_UTXO; PSBT_IN_SEQUENCE] ++ output_host.
Definition sample_placeholder : placeholder_info :=
  mk_placeholder_info (PolicySyntax.mk_placeholder 0 1 0) 0 0 0 [] (mk_xpub [] 0 [] [] [] []) true (replicate 32 5).

Lemma segwitv1_digest_correct_witness :
  ∃ d i amount o,
    (acp 0x83 = true →
       input_of toy_hash (sample_start segwitv1_host) (sample_commitment sample_in) i ∧ zlen amount = 8 ∧
       obtained_start toy_hash (sample_start segwitv1_host) (sample_commitment sample_in) PSBT_IN_WITNESS_UTXO amount) ∧
    (base_type 2 0x83 = SIGHASH_SINGLE → ∃ o', o = Some o' ∧ output_at sample_sdk sample_array (sample_start segwitv1_host) sample_psbt 0 o') ∧
    bip341 toy_hash 2 0 0x83 0 sample_ins sample_prevouts sample_outs i
      (mk_out_data amount ([0; 20] ++ replicate 20 7)) o (Some (replicate 32 5)) = Some d.
Proof.
  eexists _.
  eapply (segwitv1_digest_correct sample_sdk sample_array sample_array_length toy_hash_length sample_psbt sample_ins
            sample_prevouts sample_outs (sample_input 0x83) 0 sample_placeholder); [done..|vm_compute; reflexivity].
Defined.

Definition legacy_host : list exchange :=
  host_lookups sample_in [PSBT_IN_PREVIOUS_TXID; PSBT_IN_OUTPUT_INDEX; PSBT_IN_SEQUENCE] ++ output_host.

Lemma legacy_digest_correct_witness :
  ∃ ins outs sc,
    zlen ins = 1 ∧ all_at (legacy_input_at sample_sdk sample_array (sample_start legacy_host) sample_psbt (sample_input SIGHASH_ALL) 0) 0 ins ∧
    zlen outs = 1 ∧ all_at (output_at sample_sdk sample_array (sample_start legacy_host) sample_psbt) 0 outs ∧
    legacy_script_of sample_sdk (sample_start legacy_host) (sample_input SIGHASH_ALL) sc ∧
    legacy_sighash toy_hash 2 0 SIGHASH_ALL 0 sample_ins sample_outs ([0; 20] ++ replicate 20 7) =
    legacy_sighash toy_hash 2 0 SIGHASH_ALL 0 ins outs sc.
Proof.
  eapply (legacy_digest_correct sample_sdk sample_array sample_array_length sample_psbt
            (sample_input SIGHASH_ALL) 0 (sample_start legacy_host)); [solve_sized|done..|vm_compute; reflexivity].
Defined.
