(* ===== verification/Sign.v ===== *)
(** * Signing: signatures

    Models the parts of src/src/handler/sign_psbt.c that sign the digest of an
    input and send the signature to the host, and the function of
    src/src/crypto.c that signs.  The operations on private keys are the fields
    of a record [signer]; a failing call is [None]. *)

From S2P Require Import Prelude Bytes Bip32 Buffer Merkle Dispatcher MerkleClient Script Crypto RawTx PolicySyntax PolicyParser PolicyScript Psbt.

Definition MAX_DER_SIG_LEN : Z := 72.

(** ** Private keys *)
Record signer := mk_signer {
  bip32_derive_init_privkey_256 : list Z → option (list Z);
  (** the 65 bytes of the public key *)
  cx_ecfp_generate_pair : list Z → option (list Z);
  (** a DER-encoded signature of a hash, and the parity of the nonce point *)
  cx_ecdsa_sign : list Z → list Z → option (list Z * Z);
  cx_ecschnorr_sign : list Z → list Z → option (list Z)
}.

(** The fields of [sign_psbt_state_t] that are used for signing. *)
Record wallet_state := mk_wallet {
  protocol_version : Z;
  wallet_policy_map : policy_node;
  wallet_header_version : Z;
  wallet_header_keys_info_merkle_root : list Z;
  wallet_header_n_keys : Z
}.

Section sign.
Context (OS : sdk) (K : signer) (J : PolicyScript.junk) (arr : Z → list Z) (uninit : Z).

(** What [crypto_tr_tweak_seckey] leaves in the key when it fails. *)
Context (tweak_left : list Z → list Z → list Z).

#[local] Abbreviation sha256 := (cx_sha256 OS).

(** The failure of a function with a boolean result. *)
Definition fail_sw (sw : Z) : io bool := _ ← SEND_SW sw; mret false.

(** ** crypto.c: the signature, the public key when it is wanted, and [info]. *)
Definition crypto_ecdsa_sign_sha256_hash_with_key (bip32_path hash : list Z) (want_pubkey : bool)
    : option (list Z * option (list Z) * Z) :=
  private_key ← bip32_derive_init_privkey_256 K bip32_path;
  '(out, info) ← cx_ecdsa_sign K private_key hash;
  pubkey ← (if want_pubkey then
              W ← cx_ecfp_generate_pair K private_key;
              Some <$> crypto_get_compressed_pubkey W
            else Some None);
  Some (out, pubkey, info).

(** ** Sending a signature

    The pointer [tapleaf_hash] may be NULL. *)
Definition yield_signature (w : wallet_state) (cur_input_index : Z) (pubkey : list Z) (tapleaf_hash : option (list Z))
    (sig : list Z) : io bool :=
  _ ← add_to_response [CCMD_YIELD];
  '(input_index_varint_len, buf) ← lift (varint_write (arr 9) 0 cur_input_index);
  index ← lift (loads buf 0 input_index_varint_len);
  _ ← add_to_response index;
  let augm_pubkey_len := u8 (zlen pubkey + match tapleaf_hash with Some _ => 32 | None => 0 end) in
  _ ← (if 1 <=? protocol_version w then
         _ ← add_to_response [augm_pubkey_len];
         _ ← add_to_response pubkey;
         match tapleaf_hash with Some h => add_to_response h | None => mret () end
       else mret ());
  _ ← add_to_response sig;
  _ ← finalize_response SW_INTERRUPTED_EXECUTION;
  res ← process_interruption;
  if res <? 0 then fail_sw SW_BAD_STATE else mret true.

(** The path of the signing key, in an array of [MAX_BIP32_PATH_STEPS] steps. *)
Definition get_sign_path (info : placeholder_info) (input : input_info) : outcome (list Z) :=
  steps ← loads (key_derivation info) 0 (key_derivation_length info);
  path ← stores (replicate (Z.to_nat MAX_BIP32_PATH_STEPS) uninit) 0 steps;
  path ← stores path (key_derivation_length info)
           [if is_change (in_out input) then num_second (placeholder info) else num_first (placeholder info)];
  path ← stores path (key_derivation_length info + 1) [u32 (address_index (in_out input))];
  loads path 0 (key_derivation_length info + 2).

Definition sign_sighash_ecdsa_and_yield (w : wallet_state) (info : placeholder_info) (input : input_info)
    (cur_input_index : Z) (sighash : list Z) : io bool :=
  sign_path ← lift (get_sign_path info input);
  match crypto_ecdsa_sign_sha256_hash_with_key sign_path sighash true with
  | Some (der, Some pubkey, _) =>
      sig ← lift (stores (arr (MAX_DER_SIG_LEN + 1)) 0 der);
      sig ← lift (stores sig (zlen der) [Z.land (sighash_type input) 0xFF]);
      sig ← lift (loads sig 0 (zlen der + 1));
      yield_signature w cur_input_index pubkey None sig
  | _ => fail_sw SW_BAD_STATE
  end.

(** [input->taptree_hash] shares its memory with [input->script]. *)
Definition taptree_hash (input : input_info) : list Z := take 32 (script input).

(** The key that signs for a taproot input: the result of the tweak is not
    checked. *)
Definition taproot_seckey (tree : option policy_node_tree) (info : placeholder_info) (input : input_info)
    (seckey : list Z) : list Z :=
  if is_tapscript info then seckey
  else
    let h := match tree with None => [] | Some _ => taptree_hash input end in
    match crypto_tr_tweak_seckey OS seckey h with Some k => k | None => tweak_left seckey h end.

Definition sign_sighash_schnorr_and_yield (w : wallet_state) (info : placeholder_info) (input : input_info)
    (cur_input_index : Z) (sighash : list Z) : io bool :=
  match wallet_policy_map w with
  | policy_node_tr TOKEN_TR _ _ tree =>
      sign_path ← lift (get_sign_path info input);
      let r :=
        seckey ← bip32_derive_init_privkey_256 K sign_path;
        let seckey := taproot_seckey tree info input seckey in
        pubkey_tweaked ← cx_ecfp_generate_pair K seckey;
        sig ← cx_ecschnorr_sign K seckey sighash;
        Some (pubkey_tweaked, sig) in
      match r with
      | None => fail_sw SW_BAD_STATE
      | Some (pubkey_tweaked, schnorr) =>
          if negb (zlen schnorr =? 64) then fail_sw SW_BAD_STATE
          else
            sig ← lift (stores (arr (64 + 1)) 0 schnorr);
            let sighash_byte := Z.land (sighash_type input) 0xFF in
            sig ← lift (if negb (sighash_byte =? 0x00) then
                          sig ← stores sig 64 [sighash_byte]; loads sig 0 65
                        else loads sig 0 64);
            x ← lift (loads pubkey_tweaked 1 32);
            yield_signature w cur_input_index x
              (if is_tapscript info then Some (tapleaf_hash info) else None) sig
      end
  | _ => fail_sw SW_BAD_STATE
  end.

(** ** Signing an input *)
Definition set_sighash_type (t : Z) (i : input_info) : input_info :=
  mk_input (in_out i) (has_witnessUtxo i) (has_nonWitnessUtxo i) (has_redeemScript i) (has_sighash_type i)
    (prevout_amount i) (script i) (script_len i) t.
Definition set_script (s : list Z) (n : Z) (i : input_info) : input_info :=
  mk_input (in_out i) (has_witnessUtxo i) (has_nonWitnessUtxo i) (has_redeemScript i) (has_sighash_type i)
    (prevout_amount i) s n (sighash_type i).
Definition set_in_out (io : in_out_info) (i : input_info) : input_info :=
  mk_input io (has_witnessUtxo i) (has_nonWitnessUtxo i) (has_redeemScript i) (has_sighash_type i)
    (prevout_amount i) (script i) (script_len i) (sighash_type i).
Definition set_scriptPubKey (s : list Z) (n : Z) (o : in_out_info) : in_out_info :=
  mk_in_out (io_map o) (unexpected_pubkey_error o) (placeholder_found o) (is_change o) (address_index o) s n.

(** The sighash type of the PSBT, when it has one. *)
Definition read_sighash_type (input : input_info) : io (option input_info) :=
  if has_sighash_type input then
    '(len, t) ← call_get_merkleized_map_value_u32_le sha256 (arr 4) (io_map (in_out input)) [PSBT_IN_SIGHASH_TYPE];
    if negb (len =? 4) then fail SW_INCORRECT_DATA else mret (Some (set_sighash_type (default uninit t) input))
  else mret (Some input).

Definition default_sighash_type (t : Z) (input : input_info) : input_info :=
  if negb (has_sighash_type input) then set_sighash_type t input else input.

(** The script of a segwit input: the redeem script, which must have the hash of
    the previous output, or the script of the previous output. *)
Definition fetch_segwit_script (input : input_info) : io (option input_info) :=
  let map := io_map (in_out input) in
  r ← get_amount_scriptpubkey_from_psbt_witness OS arr map (scriptPubKey (in_out input));
  match r with
  | None => fail SW_INCORRECT_DATA
  | Some (_, spk, spk_len) =>
      let input := set_in_out (set_scriptPubKey spk spk_len (in_out input)) input in
      if has_redeemScript input then
        '(redeemScript_length, redeemScript) ← get_value OS arr map PSBT_IN_REDEEM_SCRIPT MAX_PREVOUT_SCRIPTPUBKEY_LEN;
        if redeemScript_length <? 0 then fail SW_INCORRECT_DATA
        else
          redeem ← lift (loads redeemScript 0 redeemScript_length);
          let p2sh_redeemscript := [0xa9; 0x14] ++ crypto_hash160 OS redeem ++ [0x87] in
          same ← lift (if negb (spk_len =? 23) then mret false
                       else a ← loads spk 0 23; b ← loads p2sh_redeemscript 0 23; mret (bool_decide (a = b)));
          if negb same then fail SW_INCORRECT_DATA
          else
            s ← lift (stores (script input) 0 redeem);
            mret (Some (set_script s redeemScript_length input))
      else
        src ← lift (loads spk 0 spk_len);
        s ← lift (stores (script input) 0 src);
        mret (Some (set_script s spk_len input))
  end.

Definition derivation_info (w : wallet_state) (input : input_info) : wallet_derivation_info :=
  mk_wdi (wallet_header_version w) (wallet_header_keys_info_merkle_root w) (wallet_header_n_keys w)
    (size_t (address_index (in_out input))) (is_change (in_out input)).

(** The hash of the taptree, for a key path spend of a policy with scripts. *)
Definition fill_taptree_hash (w : wallet_state) (info : placeholder_info) (input : input_info) : io (option input_info) :=
  match wallet_policy_map w with
  | policy_node_tr _ _ _ (Some tree) =>
      if negb (is_tapscript info) then
        h ← compute_taptree_hash OS J (derivation_info w input) tree;
        match h with
        | None => fail SW_BAD_STATE
        | Some h => s ← lift (stores (script input) 0 h); mret (Some (set_script s (script_len input) input))
        end
      else mret (Some input)
  | _ => mret (Some input)
  end.

Definition sign_legacy_input (w : wallet_state) (tx : psbt_tx) (info : placeholder_info) (input : input_info)
    (cur_input_index : Z) : io bool :=
  r ← get_amount_scriptpubkey_from_psbt_nonwitness OS arr uninit (io_map (in_out input)) (scriptPubKey (in_out input)) None;
  match r with
  | None => fail_sw SW_INCORRECT_DATA
  | Some (_, spk, spk_len) =>
      let input := default_sighash_type SIGHASH_ALL (set_in_out (set_scriptPubKey spk spk_len (in_out input)) input) in
      d ← compute_sighash_legacy OS arr tx input cur_input_index;
      match d with
      | None => mret false
      | Some sighash => sign_sighash_ecdsa_and_yield w info input cur_input_index sighash
      end
  end.

Definition sign_segwit_input (w : wallet_state) (tx : psbt_tx) (hashes : segwit_hashes) (info : placeholder_info)
    (input : input_info) (cur_input_index : Z) : io bool :=
  r ← fetch_segwit_script input;
  match r with
  | None => mret false
  | Some input =>
      let segwit_version := get_policy_segwit_version (wallet_policy_map w) in
      if segwit_version =? 0 then
        let input := default_sighash_type SIGHASH_ALL input in
        d ← compute_sighash_segwitv0 OS arr tx hashes input cur_input_index;
        match d with
        | None => mret false
        | Some sighash => sign_sighash_ecdsa_and_yield w info input cur_input_index sighash
        end
      else if segwit_version =? 1 then
        let input := default_sighash_type SIGHASH_DEFAULT input in
        d ← compute_sighash_segwitv1 OS arr tx hashes input cur_input_index info;
        match d with
        | None => mret false
        | Some sighash =>
            i ← fill_taptree_hash w info input;
            match i with
            | None => mret false
            | Some input => sign_sighash_schnorr_and_yield w info input cur_input_index sighash
            end
        end
      else fail_sw SW_BAD_STATE
  end.

Definition sign_transaction_input (w : wallet_state) (tx : psbt_tx) (hashes : segwit_hashes) (info : placeholder_info)
    (input : input_info) (cur_input_index : Z) : io bool :=
  i ← read_sighash_type input;
  match i with
  | None => mret false
  | Some input =>
      if negb (has_witnessUtxo input) then sign_legacy_input w tx info input cur_input_index
      else sign_segwit_input w tx hashes info input cur_input_index
  end.

(** ** The hash of the tapleaf that is spent

    [change] is the derivation step, which is converted to the [bool] that tells
    whether the address is a change address. *)
Definition fill_taproot_placeholder_info (w : wallet_state) (input : input_info) (tapleaf_ptr : policy_node)
    (info : placeholder_info) : io (option placeholder_info) :=
  let change := if is_change (in_out input) then num_second (placeholder info) else num_first (placeholder info) in
  let wdi := mk_wdi (wallet_header_version w) (wallet_header_keys_info_merkle_root w) (wallet_header_n_keys w)
               (u32 (address_index (in_out input))) (negb (change =? 0)) in
  h ← compute_tapleaf_hash OS J wdi tapleaf_ptr;
  mret ((λ h, mk_placeholder_info (placeholder info) (cur_index info) (fingerprint info) (key_derivation_length info)
                (key_derivation info) (pubkey info) (is_tapscript info) h) <$> h).
End sign.
