(* ===== verification/Derivation.v ===== *)
(** * Signing: inputs and outputs of the wallet

    Models src/src/handler/sign_psbt/extract_bip32_derivation.c and
    compare_wallet_script_at_path.c, and the functions of
    src/src/handler/sign_psbt.c that recognise the keys, the inputs and the
    outputs of the wallet: the derivation of a public key is read from the map
    of the input or output, and its script is compared with the one of the
    wallet policy at this derivation. *)

From S2P Require Import Prelude Bytes Bip32 Buffer Merkle Dispatcher MerkleClient Script Crypto RawTx Address PolicySyntax PolicyParser PolicyScript PolicyCheck Psbt Sign.

(** ** extract_bip32_derivation.c *)
Record fpt_der_callback_data := mk_fpt_der {
  psbt_key_type : Z;
  fd_out : list Z;
  total_data_length : Z;
  out_data_length : Z;
  fd_result : Z
}.

(** A result of arithmetic on [int]: an overflow is undefined. *)
Definition int_val (v : Z) : outcome Z := if (-2 ^ 31 <=? v) && (v <? 2 ^ 31) then mret v else Undef.

Definition is_tap_derivation (psbt_key_type : Z) : bool :=
  (psbt_key_type =? PSBT_IN_TAP_BIP32_DERIVATION) || (psbt_key_type =? PSBT_OUT_TAP_BIP32_DERIVATION).

Definition fpt_der_data_len_callback (data_length : Z) (cs : fpt_der_callback_data) : outcome fpt_der_callback_data :=
  mret (mk_fpt_der (psbt_key_type cs) (fd_out cs) (i32 data_length) (out_data_length cs) (fd_result cs)).

Definition set_fd_result (r : Z) (cs : fpt_der_callback_data) : fpt_der_callback_data :=
  mk_fpt_der (psbt_key_type cs) (fd_out cs) (total_data_length cs) (out_data_length cs) r.
Definition set_out_data_length (n : Z) (cs : fpt_der_callback_data) : fpt_der_callback_data :=
  mk_fpt_der (psbt_key_type cs) (fd_out cs) (total_data_length cs) n (fd_result cs).
Definition set_fd_out (out : list Z) (cs : fpt_der_callback_data) : fpt_der_callback_data :=
  mk_fpt_der (psbt_key_type cs) out (total_data_length cs) (out_data_length cs) (fd_result cs).

(** The length of the fingerprint and the path, on the first call; [None] when
    it is not the length of a supported derivation. *)
Definition derivation_length (data : buffer) (cs : fpt_der_callback_data) : outcome (option Z * buffer) :=
  if negb (out_data_length cs =? -1) then mret (Some (out_data_length cs), data)
  else if negb (is_tap_derivation (psbt_key_type cs)) then mret (Some (total_data_length cs), data)
  else
    '(n_hashes, data) ← as_read (buffer_read_varint data);
    match n_hashes with
    | None => mret (None, data)
    | Some n_hashes =>
        hashes_len ← int_val (32 * i32 n_hashes);
        prefix_len ← int_val (varint_size n_hashes + hashes_len);
        if total_data_length cs <? prefix_len then mret (None, data)
        else
          out_data_length ← int_val (total_data_length cs - prefix_len);
          if 4 * (1 + MAX_BIP32_PATH_STEPS) <? out_data_length then mret (None, data)
          else mret (Some out_data_length, data)
    end.

(** The last bytes of the stream are kept in [out]. *)
Definition keep_last (out : list Z) (n : Z) (data : buffer) : outcome (list Z) :=
  if size_t n <=? size data then
    let '(_, data) := buffer_seek_end data (size_t n) in
    '(l, _) ← buffer_read_bytes data (size_t n);
    match l with Some l => stores out 0 l | None => mret out end
  else
    let '(_, data) := buffer_seek_set data 0 in
    let d := i32 (n - size data) in
    src ← loads out (n - d + 1) (size_t d);
    out ← stores out 0 src;
    '(l, _) ← buffer_read_bytes data (size data);
    match l with Some l => stores out d l | None => mret out end.

Definition fpt_der_data_callback (data : buffer) (cs : fpt_der_callback_data) : outcome fpt_der_callback_data :=
  if fd_result cs <? 0 then mret cs
  else
    '(n, data) ← derivation_length data cs;
    match n with
    | None => mret (set_fd_result (-1) cs)
    | Some n => out ← keep_last (fd_out cs) n data; mret (set_fd_out out (set_out_data_length n cs))
    end.

(** The fingerprint is big-endian, the steps are little-endian. *)
Fixpoint read_steps (n : nat) (bytes : list Z) (i : Z) : outcome (list Z) :=
  match n with
  | O => mret []
  | S n =>
      v ← (if i =? 0 then read_u32_be bytes (4 * i) else read_u32_le bytes (4 * i));
      l ← read_steps n bytes (i + 1);
      mret (v :: l)
  end.

(** ** The environment

    What the functions below depend on and what does not change: the operating
    system, the contents of uninitialised memory, and the macros of the build. *)
Record env := mk_env {
  os : sdk;
  keys : signer;
  jk : PolicyScript.junk;
  arr : Z → list Z;
  uninit : Z;
  tweak_left : list Z → list Z → list Z;
  the_coin : coin;
  BIP32_PUBKEY_VERSION : Z;
  BIP44_COIN_TYPE : Z;
  MAX_DESCRIPTOR_TEMPLATE_LENGTH_V2 : Z;
  MAX_WALLET_POLICY_BYTES : Z;
  sizeof : abi;
  policy_base : Z;
  (** whether HAVE_NBGL is defined *)
  have_nbgl : bool
}.

Section derivation.
Context (E : env).

#[local] Abbreviation sha256 := (cx_sha256 (os E)).

(** [None] is the result -1; otherwise the fingerprint and the path. *)
Definition extract_bip32_derivation (psbt_key_type : Z) (values_root : list Z) (merkle_tree_size index : Z)
    : io (option (list Z)) :=
  '(len, cs) ← call_stream_merkle_leaf_element sha256 (Some fpt_der_data_len_callback) fpt_der_data_callback
                 values_root merkle_tree_size (u32 index)
                 (mk_fpt_der psbt_key_type (arr E (4 * (1 + MAX_BIP32_PATH_STEPS))) (uninit E) (-1) 0);
  if (len <? 0) || (fd_result cs <? 0) || (out_data_length cs <? 4) || negb (Z.rem (out_data_length cs) 4 =? 0)
  then mret None
  else
    out ← lift (read_steps (Z.to_nat (out_data_length cs / 4)) (fd_out cs) 0);
    _ ← lift (stores (arr E (1 + MAX_BIP32_PATH_STEPS)) 0 out);
    mret (Some out).

(** ** compare_wallet_script_at_path.c *)
Definition compare_wallet_script_at_path (change : bool) (address_index : Z) (w : wallet_state)
    (expected_script : list Z) (expected_script_len : Z) : io Z :=
  r ← get_wallet_script (os E) (jk E) (arr E MAX_PREVOUT_SCRIPTPUBKEY_LEN) (wallet_policy_map w)
        (mk_wdi (wallet_header_version w) (wallet_header_keys_info_merkle_root w) (wallet_header_n_keys w)
           (u32 address_index) change);
  match r with
  | None => mret (-1)
  | Some wallet_script =>
      if zlen wallet_script =? i32 expected_script_len then
        expected ← lift (loads expected_script 0 expected_script_len);
        mret (if bool_decide (wallet_script = expected) then 1 else 0)
      else mret 0
  end.

(** ** The derivation of a key of an input or output *)
Definition set_unexpected (o : in_out_info) : in_out_info :=
  mk_in_out (io_map o) true (placeholder_found o) (is_change o) (address_index o) (scriptPubKey o) (scriptPubKey_len o).
Definition set_found (change : bool) (index : Z) (o : in_out_info) : in_out_info :=
  mk_in_out (io_map o) (unexpected_pubkey_error o) true change index (scriptPubKey o) (scriptPubKey_len o).

(** The key at the steps [change] and [addr_index] below the key of the
    placeholder. *)
Definition derive_two (info : placeholder_info) (change addr_index : Z) : option serialized_extended_pubkey :=
  let '(r, k) := bip32_CKDpub (os E) (junk_point (jk E)) (pubkey info) change (xpub_of_bytes (arr E 78)) in
  if r <? 0 then None
  else
    let '(r, k) := bip32_CKDpub (os E) (junk_point (jk E)) k addr_index k in
    if r <? 0 then None else Some k.

(** The part after the derivation [fpt_der] has been read. *)
Definition match_derivation (info : placeholder_info) (o : in_out_info) (is_tap : bool) (key fpt_der : list Z)
    : Z * in_out_info :=
  let der_len := zlen fpt_der - 1 in
  if (der_len <? 2) || (MAX_BIP32_PATH_STEPS <? der_len) then (-1, o)
  else
    match fpt_der with
    | fpr :: path =>
        if (fpr =? fingerprint info) && (der_len =? key_derivation_length info + 2) then
          let n := Z.to_nat (key_derivation_length info) in
          if negb (bool_decide (take n (key_derivation info) = take n path)) then (0, o)
          else
            let change := nth n path 0 in
            let addr_index := nth (S n) path 0 in
            match derive_two info change addr_index with
            | None => (-1, o)
            | Some k =>
                if negb (bool_decide ((if is_tap then drop 1 (compressed_pubkey k) else compressed_pubkey k) = key)) then (0, o)
                else if change =? num_first (placeholder info) then (1, set_found false (i32 addr_index) o)
                else if change =? num_second (placeholder info) then (1, set_found true (i32 addr_index) o)
                else (0, o)
            end
        else (0, o)
    | [] => (-1, o)
    end.

Definition read_change_and_index_from_psbt_bip32_derivation (info : placeholder_info) (psbt_key_type : Z) (data : buffer)
    (map_commitment : merkleized_map_commitment) (index : Z) (o : in_out_info) : io (Z * in_out_info) :=
  let is_tap := is_tap_derivation psbt_key_type in
  '(key, data) ← lift (buffer_read_bytes data (if is_tap then 32 else 33));
  match key with
  | None => mret (-1, set_unexpected o)
  | Some key =>
      if buffer_can_read data 1 then mret (-1, set_unexpected o)
      else
        r ← extract_bip32_derivation psbt_key_type (values_root map_commitment) (u32 (map_size map_commitment)) index;
        mret match r with
             | None => (-1, o)
             | Some fpt_der => match_derivation info o is_tap key fpt_der
             end
  end.

(** ** The inputs and outputs of the wallet *)
Definition is_in_out_internal (w : wallet_state) (o : in_out_info) (is_input : bool) : io Z :=
  if negb (placeholder_found o) then mret 0
  else if negb is_input && negb (is_change o) then mret 0
  else compare_wallet_script_at_path (is_change o) (address_index o) w (scriptPubKey o) (scriptPubKey_len o).

(** [None] is the result [false].  A status word is sent in the cases that
    should not happen. *)
Definition fill_placeholder_info_if_internal (master_fingerprint : Z) (w : wallet_state) (info : placeholder_info)
    : io (option placeholder_info) :=
  '(key_info_len, key_info_str) ←
    call_get_merkle_leaf_element sha256 (wallet_header_keys_info_merkle_root w) (wallet_header_n_keys w)
      (u32 (key_index (placeholder info))) (arr E MAX_POLICY_KEY_INFO_LEN);
  if key_info_len <? 0 then fail SW_BAD_STATE
  else
    r ← lift (parse_policy_map_key_info sha256 (junk_check (jk E)) (wallet_header_version w)
                (mk_parse_state (buffer_create key_info_str key_info_len) (buffer_create [] 0)));
    match r with
    | None => fail SW_BAD_STATE
    | Some (key_info, _) =>
        fpr ← lift (read_u32_be (master_key_fingerprint key_info) 0);
        if negb (fpr =? master_fingerprint) then mret None
        else
          path ← lift (loads (master_key_derivation key_info) 0 (master_key_derivation_len key_info));
          match get_extended_pubkey_at_path (os E) path (BIP32_PUBKEY_VERSION E) with
          | None => fail SW_BAD_STATE
          | Some k =>
              if negb (bool_decide (ext_pubkey key_info = xpub_bytes k)) then mret None
              else
                derivation ← lift (stores (key_derivation info) 0 path);
                mret (Some (mk_placeholder_info (placeholder info) (cur_index info) fpr
                              (master_key_derivation_len key_info) derivation k (is_tapscript info) (tapleaf_hash info)))
          end
    end.
End derivation.
