(* ===== verification/SignFlow.v ===== *)
(** * Signing: the flow of the command

    Models the flow of src/src/handler/sign_psbt.c, from [init_global_state] to
    [handler_sign_psbt]: the inputs are checked, the warnings and the outputs
    are shown to the user, who confirms the transaction, and the inputs of the
    wallet are signed.

    The decisions of the user are a function [ui] of the screens shown so far
    and the screen that asks for a decision; the screens that only report a
    result are not modelled.  A function that returns [false] in the code, after
    it has sent a status word, returns [None]. *)

From S2P Require Import Prelude Bytes Bip32 Buffer Merkle Dispatcher MerkleClient Script Crypto RawTx Address PolicySyntax PolicyParser PolicyScript PolicyCheck Psbt Sign Derivation.

Definition SW_SECURITY_STATUS_NOT_SATISFIED : Z := 0x6982.
Definition SW_SIGNATURE_FAIL : Z := 0xB008.
Definition MAX_N_INPUTS_CAN_SIGN : Z := 512.
Definition MAX_WALLET_POLICY_SERIALIZED_LENGTH : Z :=
  Z.max (1 + 1 + MAX_WALLET_NAME_LENGTH + 1 + MAX_DESCRIPTOR_TEMPLATE_LENGTH_V1 + 1 + 32)
    (1 + 1 + MAX_WALLET_NAME_LENGTH + 9 + 32 + 9 + 32).

(** ** State *)
Inductive screen : Set :=
| ui_authorize_wallet_spend (wallet_name : list Z)
| ui_warn_external_inputs
| ui_warn_unverified_segwit_inputs
| ui_warn_nondefault_sighash
| ui_transaction_prompt (external_outputs_total_count : Z)
| ui_validate_output (index total_count : Z) (address_or_description : list Z) (amount : Z)
| ui_warn_high_fee
| ui_validate_transaction (fee : Z) (is_self_transfer : bool).

Record swap_globals := mk_swap {
  swap_amount : Z;
  swap_fees : Z;
  destination_address : list Z;
  called_from_swap : bool
}.

Record outputs_info := mk_outputs_info {
  total_amount : Z;
  change_total_amount : Z;
  n_change : Z;
  n_external : Z
}.

Record output_info := mk_output { out_in_out : in_out_info; value : Z }.

(** [sign_psbt_state_t], and the screens that have been shown. *)
Record sign_psbt_state := mk_sign_state {
  st_master_key_fingerprint : Z;
  st_tx : psbt_tx;
  inputs_total_amount : Z;
  outputs : outputs_info;
  is_wallet_default : bool;
  wallet : wallet_state;
  show_missing_nonwitnessutxo_warning : bool;
  show_nondefault_sighash_warning : bool;
  shown : list screen
}.

Definition add_input_amount (a : Z) (st : sign_psbt_state) : sign_psbt_state :=
  mk_sign_state (st_master_key_fingerprint st) (st_tx st) (u64 (inputs_total_amount st + a)) (outputs st)
    (is_wallet_default st) (wallet st) (show_missing_nonwitnessutxo_warning st) (show_nondefault_sighash_warning st) (shown st).
Definition set_outputs (o : outputs_info) (st : sign_psbt_state) : sign_psbt_state :=
  mk_sign_state (st_master_key_fingerprint st) (st_tx st) (inputs_total_amount st) o
    (is_wallet_default st) (wallet st) (show_missing_nonwitnessutxo_warning st) (show_nondefault_sighash_warning st) (shown st).
Definition set_missing_warning (st : sign_psbt_state) : sign_psbt_state :=
  mk_sign_state (st_master_key_fingerprint st) (st_tx st) (inputs_total_amount st) (outputs st)
    (is_wallet_default st) (wallet st) true (show_nondefault_sighash_warning st) (shown st).
Definition set_sighash_warning (st : sign_psbt_state) : sign_psbt_state :=
  mk_sign_state (st_master_key_fingerprint st) (st_tx st) (inputs_total_amount st) (outputs st)
    (is_wallet_default st) (wallet st) (show_missing_nonwitnessutxo_warning st) true (shown st).
Definition add_screen (s : screen) (st : sign_psbt_state) : sign_psbt_state :=
  mk_sign_state (st_master_key_fingerprint st) (st_tx st) (inputs_total_amount st) (outputs st)
    (is_wallet_default st) (wallet st) (show_missing_nonwitnessutxo_warning st) (show_nondefault_sighash_warning st)
    (shown st ++ [s]).

(** The structures after [memset]. *)
Definition empty_in_out : in_out_info :=
  mk_in_out (mk_commitment 0 (replicate 32 0) (replicate 32 0)) false false false 0
    (replicate (Z.to_nat MAX_OUTPUT_SCRIPTPUBKEY_LEN) 0) 0.
Definition empty_input : input_info :=
  mk_input empty_in_out false false false false 0 (replicate (Z.to_nat MAX_PREVOUT_SCRIPTPUBKEY_LEN) 0) 0 0.
Definition empty_placeholder_info : placeholder_info :=
  mk_placeholder_info (mk_placeholder 0 0 0) 0 0 0 (replicate (Z.to_nat MAX_BIP32_PATH_STEPS) 0)
    (xpub_of_bytes (replicate 78 0)) false (replicate 32 0).
Definition set_placeholder (p : policy_node_key_placeholder) (i : placeholder_info) : placeholder_info :=
  mk_placeholder_info p (cur_index i) (fingerprint i) (key_derivation_length i) (key_derivation i) (pubkey i)
    (is_tapscript i) (tapleaf_hash i).
Definition set_cur_index (n : Z) (i : placeholder_info) : placeholder_info :=
  mk_placeholder_info (placeholder i) n (fingerprint i) (key_derivation_length i) (key_derivation i) (pubkey i)
    (is_tapscript i) (tapleaf_hash i).
Definition set_is_tapscript (i : placeholder_info) : placeholder_info :=
  mk_placeholder_info (placeholder i) (cur_index i) (fingerprint i) (key_derivation_length i) (key_derivation i) (pubkey i)
    true (tapleaf_hash i).
Definition set_map (m : merkleized_map_commitment) (o : in_out_info) : in_out_info :=
  mk_in_out m (unexpected_pubkey_error o) (placeholder_found o) (is_change o) (address_index o) (scriptPubKey o) (scriptPubKey_len o).
Definition set_prevout_amount (a : Z) (i : input_info) : input_info :=
  mk_input (in_out i) (has_witnessUtxo i) (has_nonWitnessUtxo i) (has_redeemScript i) (has_sighash_type i)
    a (script i) (script_len i) (sighash_type i).

Section flow.
Context (E : env) (swap : swap_globals) (ui : list screen → screen → bool).

#[local] Abbreviation sha256 := (cx_sha256 (os E)).

(** A screen that asks for a decision; a refusal ends the command. *)
Definition ask (st : sign_psbt_state) (s : screen) : io (option sign_psbt_state) :=
  if ui (shown st) s then mret (Some (add_screen s st)) else fail SW_DENY.

(** ** init_global_state *)

(** The commitments of the command. *)
Definition read_command : io (option (merkleized_map_commitment * Z * list Z * Z * list Z * list Z * list Z)) :=
  sz ← rb_read_varint;
  match sz with
  | None => fail SW_WRONG_DATA_LENGTH
  | Some sz =>
      kr ← rb_read_bytes 32;
      vr ← (match kr with None => mret None | Some _ => rb_read_bytes 32 end);
      match kr, vr with
      | Some kr, Some vr =>
          n_inputs ← rb_read_varint;
          inputs_root ← (match n_inputs with None => mret None | Some _ => rb_read_bytes 32 end);
          match n_inputs, inputs_root with
          | Some n_inputs, Some inputs_root =>
              if MAX_N_INPUTS_CAN_SIGN <? n_inputs then fail SW_NOT_SUPPORTED
              else
                n_outputs ← rb_read_varint;
                outputs_root ← (match n_outputs with None => mret None | Some _ => rb_read_bytes 32 end);
                match n_outputs, outputs_root with
                | Some n_outputs, Some outputs_root =>
                    wallet_id ← rb_read_bytes 32;
                    wallet_hmac ← (match wallet_id with None => mret None | Some _ => rb_read_bytes 32 end);
                    match wallet_id, wallet_hmac with
                    | Some wallet_id, Some wallet_hmac =>
                        mret (Some (mk_commitment sz kr vr, n_inputs, inputs_root, u32 n_outputs, outputs_root,
                                    wallet_id, wallet_hmac))
                    | _, _ => fail SW_WRONG_DATA_LENGTH
                    end
                | _, _ => fail SW_WRONG_DATA_LENGTH
                end
          | _, _ => fail SW_WRONG_DATA_LENGTH
          end
      | _, _ => fail SW_WRONG_DATA_LENGTH
      end
  end.

(** The version and the lock time of the transaction. *)
Definition read_global_map (global_map : merkleized_map_commitment) : io (option (Z * Z)) :=
  r ← call_check_merkle_tree_sorted sha256 (arr E MAX_CHECK_MERKLE_TREE_SORTED_PREIMAGE_SIZE) (keys_root global_map)
        (size_t (map_size global_map));
  if r <? 0 then fail SW_INCORRECT_DATA
  else
    '(result_len, raw_result) ← get_value (os E) (arr E) global_map PSBT_GLOBAL_TX_VERSION 9;
    if negb (result_len =? 4) then fail SW_INCORRECT_DATA
    else
      tx_version ← lift (read_u32_le raw_result 0);
      '(result_len, raw_result) ← call_get_merkleized_map_value sha256 global_map [PSBT_GLOBAL_FALLBACK_LOCKTIME] raw_result;
      if result_len =? -1 then mret (Some (tx_version, 0))
      else if negb (result_len =? 4) then fail SW_INCORRECT_DATA
      else locktime ← lift (read_u32_le raw_result 0); mret (Some (tx_version, locktime)).

(** The wallet policy with the identifier [wallet_id]: its header and itself. *)
Definition read_wallet (wallet_id : list Z) (is_default : bool) : io (option (policy_map_wallet_header * policy_node)) :=
  '(len, serialized) ← call_get_preimage sha256 wallet_id (arr E MAX_WALLET_POLICY_SERIALIZED_LENGTH);
  if len <? 0 then fail SW_INCORRECT_DATA
  else
    r ← read_and_parse_wallet_policy (os E) (MAX_DESCRIPTOR_TEMPLATE_LENGTH_V2 E) (sizeof E) (policy_base E)
          (buffer_create serialized len)
          (arr E (Z.max MAX_DESCRIPTOR_TEMPLATE_LENGTH_V1 (MAX_DESCRIPTOR_TEMPLATE_LENGTH_V2 E)))
          (arr E (MAX_WALLET_POLICY_BYTES E)) (MAX_WALLET_POLICY_BYTES E);
    match r with
    | None => fail SW_INCORRECT_DATA
    | Some (wallet_header, _, policy) =>
        ok ← (if is_default then
                standard ← is_wallet_policy_standard (os E) (jk E) (BIP32_PUBKEY_VERSION E) (BIP44_COIN_TYPE E) (arr E 33)
                             wallet_header policy;
                mret (standard && (name_len wallet_header =? 0))
              else mret true);
        if negb ok then fail SW_INCORRECT_DATA else mret (Some (wallet_header, policy))
    end.

Definition init_global_state (protocol_version : Z) : io (option sign_psbt_state) :=
  c ← read_command;
  match c with
  | None => mret None
  | Some (global_map, n_inputs, inputs_root, n_outputs, outputs_root, wallet_id, wallet_hmac) =>
      g ← read_global_map global_map;
      match g with
      | None => mret None
      | Some (tx_version, locktime) =>
          let is_default := foldl Z.lor 0 wallet_hmac =? 0 in
          ok ← lift (if is_default then mret true else check_wallet_hmac (os E) wallet_id wallet_hmac);
          if negb ok then fail SW_SIGNATURE_FAIL
          else
            r ← read_wallet wallet_id is_default;
            match r with
            | None => mret None
            | Some (wallet_header, policy) =>
                let st screens :=
                  mk_sign_state (crypto_get_master_key_fingerprint (os E) (BIP32_PUBKEY_VERSION E) (arr E 33))
                    (mk_psbt_tx tx_version locktime n_inputs inputs_root n_outputs outputs_root)
                    0 (mk_outputs_info 0 0 0 0) is_default
                    (mk_wallet protocol_version policy (version wallet_header) (keys_info_merkle_root wallet_header)
                       (n_keys wallet_header)) false false screens in
                if called_from_swap swap && negb is_default then fail SW_INCORRECT_DATA
                else if is_default then mret (Some (st []))
                else ask (st []) (ui_authorize_wallet_spend (name wallet_header))
            end
      end
  end.

(** ** Inputs *)

(** The first placeholder whose key is one of the device; every iteration needs
    an answer of the host. *)
Fixpoint find_placeholder_loop (fuel : nat) (st : sign_psbt_state) (info : placeholder_info) : io (option placeholder_info) :=
  match fuel with
  | O => λ _, OutOfFuel
  | S f =>
      let r := get_key_placeholder_by_index (wallet_policy_map (wallet st)) (cur_index info) in
      let info := match pr_placeholder r with Some p => set_placeholder p info | None => info end in
      if pr_ret r <? 0 then fail SW_BAD_STATE
      else if pr_ret r <=? cur_index info then fail SW_INCORRECT_DATA
      else
        found ← fill_placeholder_info_if_internal E (st_master_key_fingerprint st) (wallet st) info;
        match found with
        | Some info => mret (Some info)
        | None => find_placeholder_loop f st (set_cur_index (cur_index info + 1) info)
        end
  end.

Definition find_first_internal_key_placeholder (st : sign_psbt_state) (info : placeholder_info) : io (option placeholder_info) :=
  fuel ← answers_left; find_placeholder_loop (S fuel) st (set_cur_index 0 info).

Definition input_keys_callback (info : placeholder_info) (map_commitment : merkleized_map_commitment) (i : Z) (data : buffer)
    (input : input_info) : io input_info :=
  if size_t (size data - offset data) <? 1 then mret input
  else
    '(key_type, data) ← lift (as_read (buffer_read_u8 data));
    let key_type := default 0 key_type in
    let set w n r s :=
      mk_input (in_out input) (has_witnessUtxo input || w) (has_nonWitnessUtxo input || n) (has_redeemScript input || r)
        (has_sighash_type input || s) (prevout_amount input) (script input) (script_len input) (sighash_type input) in
    if key_type =? PSBT_IN_WITNESS_UTXO then mret (set true false false false)
    else if key_type =? PSBT_IN_NON_WITNESS_UTXO then mret (set false true false false)
    else if key_type =? PSBT_IN_REDEEM_SCRIPT then mret (set false false true false)
    else if key_type =? PSBT_IN_SIGHASH_TYPE then mret (set false false false true)
    else if ((key_type =? PSBT_IN_BIP32_DERIVATION) || (key_type =? PSBT_IN_TAP_BIP32_DERIVATION)) &&
            negb (placeholder_found (in_out input)) then
      '(res, o) ← read_change_and_index_from_psbt_bip32_derivation E info key_type data map_commitment i (in_out input);
      mret (set_in_out (if res <? 0 then set_unexpected o else o) input)
    else mret input.

(** The map of an input, and what its keys say of the input. *)
Definition read_input_map (st : sign_psbt_state) (info : placeholder_info) (i : Z) : io (option input_info) :=
  '(res, map, input) ←
    call_get_merkleized_map_with_callback sha256 (Some (input_keys_callback info)) (arr E (9 + 2 * 32))
      (arr E MAX_CHECK_MERKLE_TREE_SORTED_PREIMAGE_SIZE) (inputs_root (st_tx st)) (i32 (tx_n_inputs (st_tx st))) (i32 i) empty_input;
  mret (if res <? 0 then None
        else (λ map, set_in_out (set_map map (in_out input)) input) <$> map).

(** The previous transaction, when it is present: its hash is compared with the
    one of the outpoint. *)
Definition check_nonwitness_utxo (st : sign_psbt_state) (input : input_info) : io (option (sign_psbt_state * input_info)) :=
  if negb (has_nonWitnessUtxo input) then mret (Some (st, input))
  else
    let o := in_out input in
    '(len, prevout_hash) ← get_value (os E) (arr E) (io_map o) PSBT_IN_PREVIOUS_TXID 32;
    if len <? 0 then fail SW_INCORRECT_DATA
    else
      r ← get_amount_scriptpubkey_from_psbt_nonwitness (os E) (arr E) (uninit E) (io_map o) (scriptPubKey o) (Some prevout_hash);
      match r with
      | None => fail SW_INCORRECT_DATA
      | Some (amount, spk, spk_len) =>
          mret (Some (add_input_amount amount st,
                      set_prevout_amount amount (set_in_out (set_scriptPubKey spk spk_len o) input)))
      end.

(** The previous output, when it is present. *)
Definition check_witness_utxo (st : sign_psbt_state) (input : input_info) : io (option (sign_psbt_state * input_info)) :=
  if negb (has_witnessUtxo input) then mret (Some (st, input))
  else
    let o := in_out input in
    r ← get_amount_scriptpubkey_from_psbt_witness (os E) (arr E) (io_map o) (arr E MAX_PREVOUT_SCRIPTPUBKEY_LEN);
    match r with
    | None => fail SW_INCORRECT_DATA
    | Some (amount, spk, spk_len) =>
        src ← lift (loads spk 0 spk_len);
        if has_nonWitnessUtxo input then
          same ← lift (if negb (scriptPubKey_len o =? spk_len) then mret false
                       else a ← loads (scriptPubKey o) 0 spk_len; mret (bool_decide (a = src)));
          if negb same || negb (prevout_amount input =? amount) then fail SW_INCORRECT_DATA
          else mret (Some (st, input))
        else
          dst ← lift (stores (scriptPubKey o) 0 src);
          mret (Some (add_input_amount amount st,
                      set_prevout_amount amount (set_in_out (set_scriptPubKey dst spk_len o) input)))
    end.

(** The sighash types that are supported. *)
Definition is_default_sighash (segwit_version t : Z) : bool :=
  ((0 <? segwit_version) && (t =? SIGHASH_DEFAULT)) || (t =? SIGHASH_ALL).
Definition is_nondefault_sighash (segwit_version t : Z) : bool :=
  (0 <=? segwit_version) &&
  ((t =? SIGHASH_NONE) || (t =? SIGHASH_SINGLE) || (t =? Z.lor SIGHASH_ANYONECANPAY SIGHASH_ALL) ||
   (t =? Z.lor SIGHASH_ANYONECANPAY SIGHASH_NONE) || (t =? Z.lor SIGHASH_ANYONECANPAY SIGHASH_SINGLE)).

(** The checks of an input of the wallet. *)
Definition check_internal_input (st : sign_psbt_state) (input : input_info) (cur_input_index : Z) : io (option sign_psbt_state) :=
  let segwit_version := get_policy_segwit_version (wallet_policy_map (wallet st)) in
  if (segwit_version =? -1) && negb (has_nonWitnessUtxo input) then fail SW_INCORRECT_DATA
  else
    let st := if (segwit_version =? 0) && negb (has_nonWitnessUtxo input) then set_missing_warning st else st in
    if (0 <=? segwit_version) && negb (has_witnessUtxo input) then fail SW_INCORRECT_DATA
    else if negb (has_sighash_type input) then mret (Some st)
    else
      '(len, t) ← call_get_merkleized_map_value_u32_le sha256 (arr E 4) (io_map (in_out input)) [PSBT_IN_SIGHASH_TYPE];
      if negb (len =? 4) then fail SW_INCORRECT_DATA
      else
        let t := default (uninit E) t in
        let single := (Z.land t SIGHASH_SINGLE =? SIGHASH_SINGLE) && (tx_n_outputs (st_tx st) <=? cur_input_index) in
        if is_default_sighash segwit_version t then if single then fail SW_NOT_SUPPORTED else mret (Some st)
        else if is_nondefault_sighash segwit_version t then
          if single then fail SW_NOT_SUPPORTED else mret (Some (set_sighash_warning st))
        else fail SW_NOT_SUPPORTED.

Definition preprocess_input (info : placeholder_info) (st : sign_psbt_state) (internal_inputs : list Z) (i : Z)
    : io (option (sign_psbt_state * list Z)) :=
  r ← read_input_map st info i;
  match r with
  | None => fail SW_INCORRECT_DATA
  | Some input =>
      if unexpected_pubkey_error (in_out input) then fail SW_INCORRECT_DATA
      else if negb (has_nonWitnessUtxo input) && negb (has_witnessUtxo input) then fail SW_INCORRECT_DATA
      else
        r ← check_nonwitness_utxo st input;
        match r with
        | None => mret None
        | Some (st, input) =>
            r ← check_witness_utxo st input;
            match r with
            | None => mret None
            | Some (st, input) =>
                is_internal ← is_in_out_internal E (wallet st) (in_out input) true;
                if is_internal <? 0 then fail SW_INCORRECT_DATA
                else if is_internal =? 0 then mret (Some (st, internal_inputs))
                else
                  internal_inputs ← lift (bitvector_set internal_inputs i true);
                  r ← check_internal_input st input i;
                  mret ((λ st, (st, internal_inputs)) <$> r)
            end
        end
  end.

Fixpoint preprocess_loop (fuel : nat) (info : placeholder_info) (st : sign_psbt_state) (internal_inputs : list Z) (i : Z)
    : io (option (sign_psbt_state * list Z)) :=
  match fuel with
  | O => λ _, OutOfFuel
  | S f =>
      if i <? tx_n_inputs (st_tx st) then
        r ← preprocess_input info st internal_inputs i;
        match r with
        | None => mret None
        | Some (st, internal_inputs) => preprocess_loop f info st internal_inputs (i + 1)
        end
      else mret (Some (st, internal_inputs))
  end.

Definition preprocess_inputs (st : sign_psbt_state) : io (option (sign_psbt_state * list Z)) :=
  r ← find_first_internal_key_placeholder st empty_placeholder_info;
  match r with
  | None => mret None
  | Some info =>
      preprocess_loop (S (Z.to_nat (tx_n_inputs (st_tx st)))) info st
        (replicate (Z.to_nat ((MAX_N_INPUTS_CAN_SIGN + 7) / 8)) 0) 0
  end.

(** ** Warnings *)
Fixpoint count_external (n : nat) (internal_inputs : list Z) (i : Z) : outcome Z :=
  match n with
  | O => mret 0
  | S n =>
      b ← bitvector_get internal_inputs i;
      c ← count_external n internal_inputs (i + 1);
      mret (c + if (b : bool) then 0 else 1)
  end.

(** A warning that is shown under a condition. *)
Definition ask_if (b : bool) (s : screen) (st : sign_psbt_state) : io (option sign_psbt_state) :=
  if b then ask st s else mret (Some st).

Definition show_alerts (st : sign_psbt_state) (internal_inputs : list Z) : io (option sign_psbt_state) :=
  n ← lift (count_external (Z.to_nat (tx_n_inputs (st_tx st))) internal_inputs 0);
  r ← (if 0 <? n then
         if n =? tx_n_inputs (st_tx st) then fail SW_INCORRECT_DATA
         else if called_from_swap swap then fail SW_INCORRECT_DATA
         else ask st ui_warn_external_inputs
       else mret (Some st));
  match r with
  | None => mret None
  | Some st =>
      r ← ask_if (show_missing_nonwitnessutxo_warning st) ui_warn_unverified_segwit_inputs st;
      match r with
      | None => mret None
      | Some st => ask_if (show_nondefault_sighash_warning st) ui_warn_nondefault_sighash st
      end
  end.

(** ** Outputs *)
Definition output_keys_callback (info : placeholder_info) (map_commitment : merkleized_map_commitment) (i : Z) (data : buffer)
    (o : in_out_info) : io in_out_info :=
  if size_t (size data - offset data) <? 1 then mret o
  else
    '(key_type, data) ← lift (as_read (buffer_read_u8 data));
    let key_type := default 0 key_type in
    if ((key_type =? PSBT_OUT_BIP32_DERIVATION) || (key_type =? PSBT_OUT_TAP_BIP32_DERIVATION)) && negb (placeholder_found o) then
      '(res, o) ← read_change_and_index_from_psbt_bip32_derivation E info key_type data map_commitment i o;
      mret (if res <? 0 then set_unexpected o else o)
    else mret o.

(** The text for an output: its address, or the description of its data; and
    the length of the address, or -1. *)
Definition output_text (o : in_out_info) : outcome (option (Z * list Z)) :=
  let prefix_size := zlen (COIN_NATIVE_SEGWIT_PREFIX (the_coin E)) + 1 in
  '(address_len, output_address) ←
    get_script_address (os E) (the_coin E) (arr E 65) (scriptPubKey o) (scriptPubKey_len o)
      (arr E (Z.max (72 + prefix_size + 1) MAX_OPRETURN_OUTPUT_DESC_SIZE));
  if address_len <? 0 then
    opreturn ← is_opreturn (scriptPubKey o) (scriptPubKey_len o);
    if (opreturn : bool) then
      r ← format_opscript_script (scriptPubKey o) (scriptPubKey_len o);
      mret ((λ '(_, text), (address_len, c_string text)) <$> r)
    else mret None
  else mret (Some (address_len, c_string output_address)).

Definition display_output (st : sign_psbt_state) (external_outputs_count : Z) (output : output_info) : io (option sign_psbt_state) :=
  t ← lift (output_text (out_in_out output));
  match t with
  | None => fail SW_NOT_SUPPORTED
  | Some (address_len, text) =>
      if called_from_swap swap then
        let swap_addr_len := zlen (destination_address swap) in
        if negb (swap_addr_len =? address_len) || negb (bool_decide (destination_address swap = take (Z.to_nat address_len) text))
        then fail SW_INCORRECT_DATA
        else mret (Some st)
      else ask st (ui_validate_output external_outputs_count (n_external (outputs st)) text (value output))
  end.

(** The map of an output. *)
Definition read_output_map (st : sign_psbt_state) (info : placeholder_info) (i : Z) : io (option in_out_info) :=
  '(res, map, o) ←
    call_get_merkleized_map_with_callback sha256 (Some (output_keys_callback info)) (arr E (9 + 2 * 32))
      (arr E MAX_CHECK_MERKLE_TREE_SORTED_PREIMAGE_SIZE) (outputs_root (st_tx st)) (i32 (tx_n_outputs (st_tx st))) (i32 i) empty_in_out;
  mret (if res <? 0 then None else (λ map, set_map map o) <$> map).

(** The amount of an output, added to the total, unless this is a dry run. *)
Definition read_output_amount (dry_run : bool) (st : sign_psbt_state) (o : in_out_info) : io (option (sign_psbt_state * Z)) :=
  if dry_run then mret (Some (st, 0))
  else
    '(result_len, raw_result) ← get_value (os E) (arr E) (io_map o) PSBT_OUT_AMOUNT 8;
    if negb (result_len =? 8) then fail SW_INCORRECT_DATA
    else
      v ← lift (read_u64_le raw_result 0);
      let t := outputs st in
      mret (Some (set_outputs (mk_outputs_info (u64 (total_amount t + v)) (change_total_amount t) (n_change t) (n_external t)) st, v)).

(** One output; the results are the state and the number of external outputs. *)
Definition read_output (dry_run : bool) (info : placeholder_info) (st : sign_psbt_state) (external_outputs_count i : Z)
    : io (option (sign_psbt_state * Z)) :=
  r ← read_output_map st info i;
  match r with
  | None => fail SW_INCORRECT_DATA
  | Some o =>
      if unexpected_pubkey_error o then fail SW_INCORRECT_DATA
      else
        r ← read_output_amount dry_run st o;
        match r with
        | None => mret None
        | Some (st, v) =>
            '(result_len, spk) ← call_get_merkleized_map_value sha256 (io_map o) [PSBT_OUT_SCRIPT] (scriptPubKey o);
            if (result_len =? -1) || (MAX_OUTPUT_SCRIPTPUBKEY_LEN <? result_len) then fail SW_INCORRECT_DATA
            else
              let o := set_scriptPubKey spk (size_t result_len) o in
              is_internal ← is_in_out_internal E (wallet st) o false;
              if is_internal <? 0 then fail SW_INCORRECT_DATA
              else if is_internal =? 0 then
                if dry_run then mret (Some (st, external_outputs_count + 1))
                else
                  r ← display_output st (external_outputs_count + 1) (mk_output o v);
                  mret ((λ st, (st, external_outputs_count + 1)) <$> r)
              else if dry_run then mret (Some (st, external_outputs_count))
              else
                let t := outputs st in
                mret (Some (set_outputs (mk_outputs_info (total_amount t) (u64 (change_total_amount t + v)) (n_change t + 1) (n_external t)) st,
                            external_outputs_count))
        end
  end.

Fixpoint outputs_loop (fuel : nat) (dry_run : bool) (info : placeholder_info) (st : sign_psbt_state) (external_outputs_count i : Z)
    : io (option (sign_psbt_state * Z)) :=
  match fuel with
  | O => λ _, OutOfFuel
  | S f =>
      if i <? tx_n_outputs (st_tx st) then
        r ← read_output dry_run info st external_outputs_count i;
        match r with
        | None => mret None
        | Some (st, external_outputs_count) => outputs_loop f dry_run info st external_outputs_count (i + 1)
        end
      else mret (Some (st, external_outputs_count))
  end.

(** Every output needs an answer of the host. *)
Definition read_outputs (st : sign_psbt_state) (info : placeholder_info) (dry_run : bool) : io (option sign_psbt_state) :=
  fuel ← answers_left;
  r ← outputs_loop (S fuel) dry_run info st 0 0;
  mret ((λ '(st, n), let t := outputs st in
           set_outputs (mk_outputs_info (total_amount t) (change_total_amount t) (n_change t) n) st) <$> r).

Definition process_outputs (st : sign_psbt_state) : io (option sign_psbt_state) :=
  r ← find_first_internal_key_placeholder st empty_placeholder_info;
  match r with
  | None => mret None
  | Some info =>
      let st := set_outputs (mk_outputs_info 0 0 0 0) st in
      r ← (if have_nbgl E then
             r ← read_outputs st info true;
             match r with
             | None => mret None
             | Some st => ask_if (negb (called_from_swap swap)) (ui_transaction_prompt (n_external (outputs st))) st
             end
           else mret (Some st));
      match r with
      | None => mret None
      | Some st => read_outputs st info false
      end
  end.

Definition confirm_transaction (st : sign_psbt_state) : io (option sign_psbt_state) :=
  let t := outputs st in
  if inputs_total_amount st <? total_amount t then fail SW_INCORRECT_DATA
  else if 10 <? n_change t then fail SW_NOT_SUPPORTED
  else
    let fee := u64 (inputs_total_amount st - total_amount t) in
    if called_from_swap swap then
      if negb (n_external t =? 1) then fail SW_INCORRECT_DATA
      else if negb (fee =? swap_fees swap) then fail SW_INCORRECT_DATA
      else if negb (u64 (total_amount t - change_total_amount t) =? swap_amount swap) then fail SW_INCORRECT_DATA
      else mret (Some st)
    else
      r ← ask_if ((inputs_total_amount st <=? u64 (10 * fee)) && (10000 <? inputs_total_amount st)) ui_warn_high_fee st;
      match r with
      | None => mret None
      | Some st => ask st (ui_validate_transaction fee (n_external t =? 0))
      end.

(** ** Signatures *)

(** The inputs of the wallet, for one placeholder. *)
Fixpoint sign_inputs_loop (n : nat) (st : sign_psbt_state) (hashes : segwit_hashes) (internal_inputs : list Z)
    (tapleaf_ptr : option policy_node) (info : placeholder_info) (i : Z) : io bool :=
  match n with
  | O => mret true
  | S n =>
      b ← lift (bitvector_get internal_inputs i);
      if negb b then sign_inputs_loop n st hashes internal_inputs tapleaf_ptr info (i + 1)
      else
        r ← read_input_map st info i;
        match r with
        | None => fail_sw SW_INCORRECT_DATA
        | Some input =>
            f ← (match tapleaf_ptr with
                 | None => mret (Some info)
                 | Some tapleaf => fill_taproot_placeholder_info (os E) (jk E) (wallet st) input tapleaf info
                 end);
            match f with
            | None => mret false
            | Some info =>
                ok ← sign_transaction_input (os E) (keys E) (jk E) (arr E) (uninit E) (tweak_left E) (wallet st) (st_tx st)
                       hashes info input i;
                if negb ok then fail_sw SW_BAD_STATE
                else sign_inputs_loop n st hashes internal_inputs tapleaf_ptr info (i + 1)
            end
        end
  end.

(** The placeholders; every iteration needs an answer of the host. *)
Fixpoint sign_placeholders_loop (fuel : nat) (st : sign_psbt_state) (hashes : segwit_hashes) (internal_inputs : list Z)
    (placeholder_index : Z) : io bool :=
  match fuel with
  | O => λ _, OutOfFuel
  | S f =>
      let r := get_key_placeholder_by_index (wallet_policy_map (wallet st)) placeholder_index in
      if pr_ret r <? 0 then fail_sw SW_BAD_STATE
      else if pr_ret r <=? placeholder_index then mret true
      else
        let info := match pr_placeholder r with Some p => set_placeholder p empty_placeholder_info | None => empty_placeholder_info end in
        let info := match pr_tapleaf r with Some _ => set_is_tapscript info | None => info end in
        found ← fill_placeholder_info_if_internal E (st_master_key_fingerprint st) (wallet st) info;
        ok ← (match found with
              | None => mret true
              | Some info =>
                  sign_inputs_loop (Z.to_nat (tx_n_inputs (st_tx st))) st hashes internal_inputs (pr_tapleaf r) info 0
              end);
        if negb ok then mret false
        else sign_placeholders_loop f st hashes internal_inputs (placeholder_index + 1)
  end.

Definition sign_transaction (st : sign_psbt_state) (internal_inputs : list Z) : io bool :=
  h ← compute_segwit_hashes (os E) (arr E) (uninit E) (st_tx st);
  match h with
  | None => mret false
  | Some hashes =>
      fuel ← answers_left;
      sign_placeholders_loop (S fuel) st hashes internal_inputs 0
  end.

(** ** The command

    [pin_validated]: the device is unlocked.  The result tells whether the
    transaction has been signed; with a swap, the application then exits. *)
Definition handler_sign_psbt (pin_validated : bool) (protocol_version : Z) : io bool :=
  if negb pin_validated then fail_sw SW_SECURITY_STATUS_NOT_SATISFIED
  else
    r ← init_global_state protocol_version;
    match r with
    | None => mret false
    | Some st =>
        r ← preprocess_inputs st;
        match r with
        | None => mret false
        | Some (st, internal_inputs) =>
            r ← show_alerts st internal_inputs;
            match r with
            | None => mret false
            | Some st =>
                r ← process_outputs st;
                match r with
                | None => mret false
                | Some st =>
                    r ← confirm_transaction st;
                    match r with
                    | None => mret false
                    | Some st =>
                        ok ← sign_transaction st internal_inputs;
                        if negb ok then mret false else _ ← SEND_SW SW_OK; mret true
                    end
                end
            end
        end
    end.
End flow.
