(* ===== verification/FlowKeeps.v ===== *)
(** * Signing: what a run respects

    The functions of the signing flow that talk to the host only with the
    requests of the client library respect every relation on states that these
    requests respect ([Protocol] in Run.v): the wallet policy and its scripts,
    the derivations, the checks of the inputs, and the screens.  What remains is
    the message with a signature, of which this is not true. *)

From S2P Require Import Prelude Bytes Bip32 Buffer Merkle Dispatcher MerkleClient Run Script Crypto RawTx PolicySyntax PolicyParser PolicyScript PolicyCheck Psbt HostSample Sighash Sign Derivation SignFlow.

(** ** The machine that writes scripts *)
Class GenKeeps (R : relation dstate) {A} (m : gen A) : Prop := gen_keeps : ∀ s, Keeps R (m s).
#[export] Hint Mode GenKeeps + + + : typeclass_instances.

Section gen.
Context (R : relation dstate) `{!PreOrder R}.

Global Instance gen_keeps_run {A} (m : gen A) s : GenKeeps R m → Keeps R (m s).
Proof. intros H. apply H. Qed.

Global Instance gen_keeps_ret {A} (a : A) : GenKeeps R (mret a : gen A).
Proof. intros s. rw /mret /gen_ret. apply _. Qed.

Global Instance gen_keeps_bind {A B} (m : gen A) (k : A → gen B) : GenKeeps R m → (∀ a, GenKeeps R (k a)) → GenKeeps R (m ≫= k).
Proof. intros Hm Hk s. rw /mbind /gen_bind. apply keeps_bind; [done|apply Hm|]. intros a. apply Hk. Qed.

Global Instance gen_keeps_undef {A} : GenKeeps R (gen_undef : gen A).
Proof. by intros s st a st' H. Qed.

Global Instance gen_keeps_io {A} (m : io A) : Keeps R m → GenKeeps R (from_io m).
Proof. intros Hm s. rw /from_io. apply _. Qed.

Global Instance gen_keeps_get : GenKeeps R get_state.
Proof. intros s. rw /get_state. apply _. Qed.

Global Instance gen_keeps_put s : GenKeeps R (put_state s).
Proof. intros s'. rw /put_state. apply _. Qed.
End gen.

Ltac gen_step :=
  first
    [ match goal with |- GenKeeps _ (_ ≫= _) => apply gen_keeps_bind; [apply _| |intros ?] end
    | match goal with |- GenKeeps _ (match ?x with _ => _ end) => destruct x end
    | apply _
    | progress cbv beta zeta ].
Ltac solve_gen := repeat gen_step.

#[export] Typeclasses Opaque gen get_state put_state from_io top set_top state_stack_push state_stack_pop update_output
  update_output_u8 update_output_push_u32 update_output_op_v bump_step derive smallest_key multisig_loop run_command.

Section machine.
Context (R : relation dstate) `{!PreOrder R} (os : sdk) (J : junk).
Context (derive_key : policy_node_key_placeholder → io (option (list Z))) (is_taproot : bool).
Context (Hderive : ∀ kp, Keeps R (derive_key kp)).

Global Instance gen_keeps_top : GenKeeps R top.
Proof. rw /top. solve_gen. Qed.

Global Instance gen_keeps_set_top n : GenKeeps R (set_top n).
Proof. rw /set_top. solve_gen. Qed.

Global Instance gen_keeps_push n f : GenKeeps R (state_stack_push n f).
Proof. rw /state_stack_push. solve_gen. Qed.

Global Instance gen_keeps_pop : GenKeeps R state_stack_pop.
Proof. rw /state_stack_pop. solve_gen. Qed.

Global Instance gen_keeps_output l : GenKeeps R (update_output l).
Proof. rw /update_output. solve_gen. Qed.

Global Instance gen_keeps_output_u8 b : GenKeeps R (update_output_u8 b).
Proof. rw /update_output_u8. solve_gen. Qed.

Global Instance gen_keeps_push_u32 n : GenKeeps R (update_output_push_u32 n).
Proof. rw /update_output_push_u32. solve_gen. Qed.

Global Instance gen_keeps_op_v op : GenKeeps R (update_output_op_v op).
Proof. rw /update_output_op_v. solve_gen. Qed.

Global Instance gen_keeps_bump d : GenKeeps R (bump_step d).
Proof. rw /bump_step. solve_gen. Qed.

Global Instance gen_keeps_derive kp : GenKeeps R (derive derive_key kp).
Proof. rw /derive. apply _. Qed.

Global Instance gen_keeps_smallest cmp used kps j best index : GenKeeps R (smallest_key derive_key cmp used kps j best index).
Proof. revert j best index. induction kps; intros; cbn [smallest_key]; solve_gen. Qed.

Global Instance gen_keeps_multisig sorted cmp emit all kps i used :
  (∀ i k, GenKeeps R (emit i k)) → GenKeeps R (multisig_loop derive_key sorted cmp emit all kps i used).
Proof. intros He. revert i used. induction kps; intros; cbn [multisig_loop]; solve_gen. Qed.

Global Instance gen_keeps_command c : GenKeeps R (run_command os derive_key is_taproot c).
Proof. rw /run_command. destruct c; solve_gen. Qed.

Global Instance gen_keeps_body whitelist : GenKeeps R (loop_body os J derive_key is_taproot whitelist).
Proof.
  assert (∀ t proc, processor_of os J derive_key is_taproot t = Some proc → GenKeeps R proc) as Hp.
  { intros t proc. rw /processor_of. destruct (commands_of t); [intros [= <-]; rw /process_generic_node; solve_gen|].
    destruct t; intros [= <-]; rw /process_pkh_wpkh_node /process_thresh_node /process_multi_sortedmulti_node
      /process_multi_a_sortedmulti_a_node; solve_gen. }
  rw /loop_body. apply gen_keeps_bind; [done|apply _|]. intros n. destruct (negb _); [apply _|].
  destruct (processor_of _ _ _ _ _) as [proc|] eqn:Hproc; [|apply _]. apply Hp in Hproc. rw /execute_processor. solve_gen.
Qed.

Global Instance gen_keeps_loop fuel whitelist : GenKeeps R (script_loop os J derive_key is_taproot fuel whitelist).
Proof.
  induction fuel; cbn [script_loop]; [|solve_gen]. intros s. apply _.
Qed.
End machine.

(** ** Scripts and policies *)
Section policy.
Context (R : relation dstate) `{!Protocol R} (os : sdk) (J : junk).

Global Instance keeps_derived_pubkey wdi kp : Keeps R (get_derived_pubkey os J wdi kp).
Proof. rw /get_derived_pubkey /get_extended_pubkey. solve_keeps. Qed.

Global Instance keeps_internal_script policy wdi ty ctx : Keeps R (get_wallet_internal_script_hash os J policy wdi ty ctx).
Proof. rw /get_wallet_internal_script_hash. solve_keeps. Qed.

Global Instance keeps_tapleaf_hash wdi policy : Keeps R (compute_tapleaf_hash os J wdi policy).
Proof. rw /compute_tapleaf_hash. solve_keeps. Qed.

Global Instance keeps_taptree_hash wdi tree : Keeps R (compute_taptree_hash os J wdi tree).
Proof. induction tree; cbn [compute_taptree_hash]; solve_keeps. Qed.

Global Instance keeps_wallet_script out policy wdi : Keeps R (get_wallet_script os J out policy wdi).
Proof.
  assert (∀ p ty, Keeps R (sh_wsh_script os J p wdi ty)) as H1 by (intros; rw /sh_wsh_script; solve_keeps).
  assert (∀ kp tree, Keeps R (tr_script os J out wdi kp tree)) as H2 by (intros; rw /tr_script; solve_keeps).
  rw /get_wallet_script. repeat case_match; apply _.
Qed.

Global Instance keeps_standard v c uk header policy : Keeps R (is_wallet_policy_standard os J v c uk header policy).
Proof. rw /is_wallet_policy_standard. solve_keeps. Qed.

Global Instance keeps_parse_wallet n sizeof base buf template bytes len :
  Keeps R (read_and_parse_wallet_policy os n sizeof base buf template bytes len).
Proof. rw /read_and_parse_wallet_policy. solve_keeps. Qed.
End policy.

(** ** The flow, up to the signatures *)
Section flow.
Context (R : relation dstate) `{!Protocol R} (E : env) (swap : swap_globals) (ui : list screen → screen → bool).

Global Instance keeps_extract ty root n i : Keeps R (extract_bip32_derivation E ty root n i).
Proof. rw /extract_bip32_derivation. solve_keeps. Qed.

Global Instance keeps_compare change i w s n : Keeps R (compare_wallet_script_at_path E change i w s n).
Proof. rw /compare_wallet_script_at_path. solve_keeps. Qed.

Global Instance keeps_change_index info ty data m i o : Keeps R (read_change_and_index_from_psbt_bip32_derivation E info ty data m i o).
Proof. rw /read_change_and_index_from_psbt_bip32_derivation. solve_keeps. Qed.

Global Instance keeps_internal w o b : Keeps R (is_in_out_internal E w o b).
Proof. rw /is_in_out_internal. solve_keeps. Qed.

Global Instance keeps_fill_placeholder f w info : Keeps R (fill_placeholder_info_if_internal E f w info).
Proof. rw /fill_placeholder_info_if_internal. solve_keeps. Qed.

Global Instance keeps_ask st s : Keeps R (ask ui st s).
Proof. rw /ask. solve_keeps. Qed.

Global Instance keeps_ask_if b s st : Keeps R (ask_if ui b s st).
Proof. rw /ask_if. solve_keeps. Qed.

Global Instance keeps_read_command : Keeps R read_command.
Proof. rw /read_command /rb_read_varint /rb_read_bytes. solve_keeps. Qed.

Global Instance keeps_read_global_map m : Keeps R (read_global_map E m).
Proof. rw /read_global_map /call_check_merkle_tree_sorted. solve_keeps. by apply keeps_check_sorted. Qed.

Global Instance keeps_read_wallet w d : Keeps R (read_wallet E w d).
Proof. rw /read_wallet. solve_keeps. Qed.

Global Instance keeps_init v : Keeps R (init_global_state E swap ui v).
Proof. rw /init_global_state. solve_keeps. Qed.

Global Instance keeps_find_placeholder st info : Keeps R (find_first_internal_key_placeholder E st info).
Proof.
  rw /find_first_internal_key_placeholder /answers_left. solve_keeps. generalize (set_cur_index 0 info) as i. generalize (S a) as fuel.
  induction fuel; intros; cbn [find_placeholder_loop]; solve_keeps.
Qed.

Global Instance keeps_read_input_map st info i : Keeps R (read_input_map E st info i).
Proof.
  rw /read_input_map. solve_keeps. apply keeps_get_map; [done|]. intros cb m n b s [= <-]. rw /input_keys_callback. solve_keeps.
Qed.

Global Instance keeps_nonwitness_utxo st input : Keeps R (check_nonwitness_utxo E st input).
Proof. rw /check_nonwitness_utxo. solve_keeps. Qed.

Global Instance keeps_witness_utxo st input : Keeps R (check_witness_utxo E st input).
Proof. rw /check_witness_utxo. solve_keeps. Qed.

Global Instance keeps_internal_input st input i : Keeps R (check_internal_input E st input i).
Proof. rw /check_internal_input. solve_keeps. Qed.

Global Instance keeps_preprocess_input info st l i : Keeps R (preprocess_input E info st l i).
Proof. rw /preprocess_input. solve_keeps. Qed.

Global Instance keeps_preprocess st : Keeps R (preprocess_inputs E st).
Proof.
  rw /preprocess_inputs. apply keeps_bind; [apply _..|]. intros [info|]; [|apply _].
  generalize (replicate (Z.to_nat ((MAX_N_INPUTS_CAN_SIGN + 7) / 8)) 0) as l. generalize (S (Z.to_nat (tx_n_inputs (st_tx st)))) as fuel.
  intros fuel l. generalize 0 as i. revert st l. induction fuel; intros; cbn [preprocess_loop]; solve_keeps.
Qed.

Global Instance keeps_alerts st l : Keeps R (show_alerts swap ui st l).
Proof. rw /show_alerts. solve_keeps. Qed.

Global Instance keeps_read_output_map st info i : Keeps R (read_output_map E st info i).
Proof.
  rw /read_output_map. solve_keeps. apply keeps_get_map; [done|]. intros cb m n b s [= <-]. rw /output_keys_callback. solve_keeps.
Qed.

Global Instance keeps_display_output st n o : Keeps R (display_output E swap ui st n o).
Proof. rw /display_output. solve_keeps. Qed.

Global Instance keeps_output_amount dry st o : Keeps R (read_output_amount E dry st o).
Proof. rw /read_output_amount. solve_keeps. Qed.

Global Instance keeps_read_output dry info st n i : Keeps R (read_output E swap ui dry info st n i).
Proof. rw /read_output. solve_keeps. Qed.

Global Instance keeps_outputs_loop fuel dry info st n i : Keeps R (outputs_loop E swap ui fuel dry info st n i).
Proof. revert st n i. induction fuel; intros; cbn [outputs_loop]; solve_keeps. Qed.

Global Instance keeps_read_outputs st info dry : Keeps R (read_outputs E swap ui st info dry).
Proof. rw /read_outputs /answers_left. solve_keeps. Qed.

Global Instance keeps_process_outputs st : Keeps R (process_outputs E swap ui st).
Proof. rw /process_outputs. solve_keeps. Qed.

Global Instance keeps_confirm st : Keeps R (confirm_transaction swap ui st).
Proof. rw /confirm_transaction. solve_keeps. Qed.
End flow.

(** ** Signing

    The functions that sign respect a relation when [yield_signature] does. *)
Section sign.
Context (R : relation dstate) `{!Protocol R} (OS : sdk) (K : signer) (J : junk) (arr : Z → list Z) (uninit : Z).
Context (tweak_left : list Z → list Z → list Z).

Global Instance keeps_fail_sw sw : StatusWord sw → Keeps R (fail_sw sw).
Proof. intros. rw /fail_sw. solve_keeps. Qed.

Global Instance keeps_read_sighash_type input : Keeps R (read_sighash_type OS arr uninit input).
Proof. rw /read_sighash_type. solve_keeps. Qed.

Global Instance keeps_fetch_script input : Keeps R (fetch_segwit_script OS arr input).
Proof. rw /fetch_segwit_script. solve_keeps. Qed.

Global Instance keeps_fill_taptree w info input : Keeps R (fill_taptree_hash OS J w info input).
Proof. rw /fill_taptree_hash. solve_keeps. Qed.

Global Instance keeps_fill_tapleaf w input leaf info : Keeps R (fill_taproot_placeholder_info OS J w input leaf info).
Proof. rw /fill_taproot_placeholder_info. solve_keeps. Qed.
End sign.
