(* ===== verification/Messages.v ===== *)
(** * Messages to the host

    What a run sends.  A message is built in the APDU buffer, starting with the
    byte of its command, and sent by an exchange or with a status word.  The
    relation [quiet] holds between two states when none of the messages sent
    between them starts with the command that carries a signature; the client
    library respects it, so a run that sends a signature sends it with
    [yield_signature]. *)

From S2P Require Import Prelude Bytes Buffer Merkle Dispatcher MerkleClient Run Psbt Sign.

(** Decides the comparison of the run [H]. *)
Ltac run_leb H :=
  lazymatch type of H with (if ?a <=? ?b then _ else _) _ = _ => destruct (Z.leb_spec a b); run_inv H end.

(** ** Building a message *)

(** No response is being built. *)
Definition ready (st : dstate) : Prop := sized st ∧ output_len st = 0.

(** A response that starts with the byte [c] is being built. *)
Definition started (c : Z) (st : dstate) : Prop :=
  sized st ∧ 1 ≤ output_len st ≤ IO_APDU_BUFFER_SIZE ∧ head (apdu_buf st) = Some c.

(** The exchanges with the host are not affected. *)
Definition same_io (st st' : dstate) : Prop := rx st' = rx st ∧ tx st' = tx st.

Lemma stores_head m i l m' c : stores m i l = Val m' → 1 ≤ i → head m = Some c → head m' = Some c.
Proof.
  rw /stores. case_decide; [|done]. intros [= <-] Hi. destruct m as [|x m]; [done|]. intros [= ->].
  by destruct (Z.to_nat i) eqn:Hn; [lia|].
Qed.

Lemma started_store c st l i p n :
  started c st → stores (apdu_buf st) i l = Val p → 1 ≤ i → 1 ≤ n ≤ IO_APDU_BUFFER_SIZE →
  started c (set_output_len n (set_apdu_buf p st)).
Proof.
  intros ((Hz & Hrx) & _ & Hh) Hs Hi Hn. split; [|split; [done|by eapply stores_head]].
  split; [|done]. cbn. by rewrite (stores_length _ _ _ _ Hs).
Qed.

Lemma started_finalize c sw st a st' :
  started c st → io_finalize_response sw st = Val (a, st') → started c st' ∧ same_io st st'.
Proof.
  intros Hst H. rw /io_finalize_response in H. run_inv H. destruct Hst as (? & Hl & ?).
  run_leb H;
    match goal with Hw : write_u16_be _ _ _ = _ |- _ => rewrite write_u16_be_stores in Hw; split; [|done] end.
  - by eapply (started_store _ _ _ _ _ IO_APDU_BUFFER_SIZE).
  - eapply started_store; [by split|done|lia|]. rw /u16 Z.mod_small; unfold IO_APDU_BUFFER_SIZE in *; lia.
Qed.

Lemma started_add c fuel rdata len st a st' :
  started c st → io_add_to_response fuel rdata len st = Val (a, st') → started c st' ∧ same_io st st'.
Proof.
  revert len a st'. induction fuel as [|f IH]; intros len a st' Hst H; [done|]. cbn [io_add_to_response] in H. run_inv H.
  pose proof Hst as ((Hz & _) & Hl & _).
  run_leb H.
  { match goal with Hw : write_u16_be _ _ _ = _ |- _ => rewrite write_u16_be_stores in Hw; split; [|done] end.
    by eapply (started_store _ _ _ _ _ IO_APDU_BUFFER_SIZE). }
  destruct (_ <? _); run_inv H.
  - apply IH in Hrun as [Hst1 [Hr1 Ht1]]; [|done]. apply (started_finalize c) in H as [? [? ?]]; [|done].
    split; [done|]. split; congruence.
  - match goal with Hs : stores _ _ ?l = _, Hd : loads _ _ _ = Val ?l |- _ =>
      apply loads_Val in Hd as (_ & ? & ? & Hd); pose proof Hs as Hs'; rewrite /stores in Hs'; case_decide as Hin; [|done] end.
    split; [|done]. eapply started_store; [done|done|lia|]. subst. rewrite zlen_take in Hin; [|rw drop_0; lia].
    rewrite Hz in Hin. rw /u16 Z.mod_small; unfold IO_APDU_BUFFER_SIZE in *; lia.
Qed.

(** A response that is not a signature is being built. *)
Definition begun (st : dstate) : Prop := ∃ c, c ≠ CCMD_YIELD ∧ started c st.

(** The first bytes of a response. *)
Lemma started_first c l st p n :
  ready st → stores (apdu_buf st) 0 (c :: l) = Val p → 1 ≤ n ≤ IO_APDU_BUFFER_SIZE →
  started c (set_output_len n (set_apdu_buf p st)).
Proof.
  intros [[Hz Hrx] _] Hs Hn. split; [|split; [done|]].
  - split; [|done]. cbn. by rewrite (stores_length _ _ _ _ Hs).
  - rewrite /stores in Hs. case_decide; [|done]. by injection Hs as <-.
Qed.

Lemma ready_finalize sw st a st' :
  ready st → io_finalize_response sw st = Val (a, st') →
  started (u8 (Z.shiftr sw 8)) st' ∧ same_io st st' ∧ output_len st' = 2.
Proof.
  intros Hst H. rw /io_finalize_response in H. run_inv H. pose proof Hst as [_ Ho]. rewrite Ho in H.
  change (IO_APDU_BUFFER_SIZE - 2 <=? 0) with false in H. cbv iota in H. run_inv H.
  match goal with Hw : write_u16_be _ _ _ = _ |- _ => rewrite write_u16_be_stores in Hw end.
  splits; [|done|done]. by apply (started_first _ [u8 sw] _ _ 2 Hst).
Qed.

(** A prefix of the data is copied into an empty response. *)
Lemma ready_copy c rdata len src p st :
  ready st → loads (c :: rdata) 0 len = Val src → stores (apdu_buf st) 0 src = Val p →
  let st' := set_output_len (u16 len) (set_apdu_buf p st) in
  (1 ≤ len ∧ started c st') ∨ (len = 0 ∧ ready st').
Proof.
  intros Hst Hl Hs. cbv zeta. pose proof Hst as [[Hz Hrx] _]. apply loads_Val in Hl as (_ & Hn & Hle & ->). rewrite drop_0 in Hs.
  destruct (decide (len = 0)) as [-> |].
  - right. split; [done|]. split; [|done]. split; [|done]. cbn. by rewrite (stores_length _ _ _ _ Hs).
  - left. split; [lia|]. assert (len ≤ IO_APDU_BUFFER_SIZE) as Hlen.
    { pose proof Hs as Hs'. rewrite /stores in Hs'. case_decide as Hin; [|done]. rewrite zlen_take in Hin; lia. }
    destruct (Z.to_nat len) as [|k] eqn:Hln; [lia|]. cbn in Hs. eapply started_first; [done|exact Hs|].
    rw /u16 Z.mod_small; unfold IO_APDU_BUFFER_SIZE in *; lia.
Qed.

Lemma ready_add c rdata st a st' :
  c ≠ CCMD_YIELD → ready st → add_to_response (c :: rdata) st = Val (a, st') → begun st' ∧ same_io st st'.
Proof.
  intros Hc Hst H. unfold add_to_response in H. remember 1%nat as f eqn:Hf. cbn [io_add_to_response] in H. subst f. run_inv H.
  pose proof Hst as [_ Ho]. rewrite Ho in H. pose proof (zlen_nonneg rdata). rewrite !zlen_cons in H.
  change (IO_APDU_BUFFER_SIZE - 2 <=? 0) with false in H. cbv iota in H. run_inv H. rewrite Z.add_0_l in H.
  destruct (_ <? _); run_inv H.
  - cbn [io_add_to_response] in Hrun. run_inv Hrun. rewrite Ho in Hrun.
    change (IO_APDU_BUFFER_SIZE - 2 <=? 0) with false in Hrun. cbv iota in Hrun. run_inv Hrun.
    destruct (_ <? _); run_inv Hrun; [done|].
    match goal with Hl : loads _ _ _ = _, Hs : stores _ _ _ = _ |- _ => destruct (ready_copy _ _ _ _ _ _ Hst Hl Hs) as [[_ H1]|[_ H1]] end.
    + apply (started_finalize c) in H as [? [? ?]]; [|done]. split; [by exists c|by split].
    + apply ready_finalize in H as (? & [? ?] & _); [|done]. split; [by exists (u8 (Z.shiftr SW_WRONG_RESPONSE_LENGTH 8))|by split].
  - match goal with Hl : loads _ _ _ = _, Hs : stores _ _ _ = _ |- _ => destruct (ready_copy _ _ _ _ _ _ Hst Hl Hs) as [[_ ?]|[? _]] end;
      [|lia].
    split; [by exists c|by split].
Qed.

Lemma begun_add fuel rdata len st a st' :
  begun st → io_add_to_response fuel rdata len st = Val (a, st') → begun st' ∧ same_io st st'.
Proof. intros (c & Hc & Hst) H. apply (started_add c) in H as [? ?]; [|done]. split; [by exists c|done]. Qed.

Lemma begun_finalize sw st a st' :
  begun st → finalize_response sw st = Val (a, st') → begun st' ∧ same_io st st'.
Proof.
  intros (c & Hc & Hst) H. rw /finalize_response in H. run_inv H.
  apply (started_finalize c) in H as [? [? ?]]; [|done]. split; [by exists c|by split].
Qed.

(** ** Sending messages *)

(** A message that does not carry a signature. *)
Definition silent (m : list Z) : Prop := head m ≠ Some CCMD_YIELD.

(** Between ready states, only messages with the property [P] are sent. *)
Definition sends (P : list Z → Prop) (st st' : dstate) : Prop := ready st → ready st' ∧ ∃ l, tx st' = tx st ++ l ∧ Forall P l.
Definition quiet : relation dstate := sends silent.

Global Instance sends_preorder P : PreOrder (sends P).
Proof.
  split.
  - intros st H. split; [done|]. exists []. by rw app_nil_r.
  - intros s1 s2 s3 H1 H2 H. destruct (H1 H) as [Hr (l1 & Ht1 & Hl1)]. destruct (H2 Hr) as [Hr' (l2 & Ht2 & Hl2)].
    split; [done|]. exists (l1 ++ l2). rw Ht2 Ht1 app_assoc. split; [done|]. by apply Forall_app.
Qed.

Global Instance quiet_preorder : PreOrder quiet.
Proof. apply sends_preorder. Qed.

Lemma quiet_sends (P : list Z → Prop) st st' : (∀ m, silent m → P m) → quiet st st' → sends P st st'.
Proof. intros HP H Hst. destruct (H Hst) as [Hr (l & Ht & Hl)]. split; [done|]. exists l. split; [done|]. by eapply Forall_impl. Qed.

(** A change of other fields. *)
Lemma quiet_other st st' :
  apdu_buf st' = apdu_buf st → output_len st' = output_len st → same_io st st' → quiet st st'.
Proof.
  intros Hb Ho [Hrx Htx] [[Hz Hwf] Hl]. split; [|exists []; by rw app_nil_r].
  split; [|congruence]. split; congruence.
Qed.

Lemma head_loads m n l c : loads m 0 n = Val l → 1 ≤ n → head m = Some c → head l = Some c.
Proof.
  intros H Hn Hh. apply loads_Val in H as (_ & _ & _ & ->). rw drop_0. destruct m as [|x m]; [done|].
  by destruct (Z.to_nat n) eqn:Hk; [lia|].
Qed.

Lemma started_confirm c st a st' :
  started c st → io_confirm_response st = Val (a, st') → ready st' ∧ ∃ m, tx st' = tx st ++ [m] ∧ head m = Some c.
Proof.
  intros (Hs & Hl & Hh) H. rw /io_confirm_response in H. run_inv H. split; [by split|]. eexists. split; [reflexivity|].
  eapply head_loads; [done|lia|done].
Qed.

Lemma sent_silent st st' m c :
  tx st' = tx st ++ [m] → head m = Some c → c ≠ CCMD_YIELD → ∃ l, tx st' = tx st ++ l ∧ Forall silent l.
Proof. intros Ht Hm Hc. exists [m]. split; [done|]. constructor; [|done]. rw /silent Hm. congruence. Qed.

Global Instance quiet_send_sw sw : StatusWord sw → Keeps quiet (SEND_SW sw).
Proof.
  intros Hsw st a st' H Hst. rw /SEND_SW /finalize_response in H. run_inv H.
  match goal with Hf : io_finalize_response _ _ = _ |- _ => apply ready_finalize in Hf as (Hfin & [_ Ht] & _); [|done] end.
  apply (started_confirm _ _ _ _ Hfin) in H as (Hr & m & Hm & Hh). split; [done|]. cbn in Ht. rewrite Ht in Hm.
  eapply sent_silent; [done..|]. unfold StatusWord in Hsw. apply andb_prop in Hsw as [H1 H2]. apply Z.leb_le in H1. apply Z.ltb_lt in H2.
  unfold CCMD_YIELD, u8. rw Z.shiftr_div_pow2 // Z.mod_small; [|split; [apply Z.div_pos; lia|apply Z.div_lt_upper_bound; lia]].
  intros Hd. assert (0x60 ≤ sw `div` 2 ^ 8) by (apply Z.div_le_lower_bound; lia). lia.
Qed.

(** An exchange sends the response that has been built; the answer may cause an
    error message. *)
Lemma exchange_sends st n st' :
  sized st → 1 ≤ output_len st → io_exchange (output_len st) st = Val (n, st') →
  sized st' ∧ 0 ≤ n ∧ ∃ m, loads (apdu_buf st) 0 (output_len st) = Val m ∧ tx st' = tx st ++ [m].
Proof.
  intros Hs Hl H. pose proof (run_keeps later _ _ _ _ H _) as Hlater. rw /io_exchange in H.
  destruct (loads _ _ _) as [out| | |]; [|done..]. cbn [mbind outcome_bind] in H.
  destruct (rx st) as [|ex rx'] eqn:Hrx; [done|]. destruct (ticker_events _ _); [|done..]. injection H as <- <-.
  rewrite (proj2 (Z.eqb_neq (output_len st) 0)) in Hlater |- *; [|lia]. splits.
  - by apply (later_sized _ _ Hlater).
  - destruct Hs as [_ Hwf]. rewrite Hrx in Hwf. by apply Forall_cons in Hwf as [(_ & _ & Hn) _]; lia.
  - by exists out.
Qed.

Lemma interruption_sends st a st' :
  sized st → 1 ≤ output_len st → process_interruption st = Val (a, st') →
  ready st' ∧ ∃ m l, loads (apdu_buf st) 0 (output_len st) = Val m ∧ tx st' = tx st ++ m :: l ∧ Forall silent l.
Proof.
  intros Hst Hn H. rw /process_interruption in H. run_inv H.
  match goal with Hx : io_exchange _ _ = Val _ |- _ => apply exchange_sends in Hx as (Hs1 & Ha & m & Hm & Htm); [|done..] end.
  rewrite (proj2 (Z.ltb_ge _ _)) in H; [|done]. run_inv H. cbn in Htm.
  assert (ready st' ∧ ∃ l, tx st' = tx s ++ l ∧ Forall silent l) as (Hr & l & Ht & Hl).
  { match type of H with (match ?r with _ => _ end) ?s1 = _ => assert (ready s1) as Hr1 by (split; [exact Hs1|done]) end.
    eapply (run_keeps quiet) in H; [apply H, Hr1|]. solve_keeps. apply keeps_modify. intros s2. by apply quiet_other. }
  split; [done|]. exists m, l. split; [done|]. by rw Ht Htm -app_assoc.
Qed.

Global Instance quiet_read {A} (rd : buffer → outcome (option A * buffer)) : Keeps quiet (rb_read rd).
Proof. rw /rb_read. solve_keeps. all: apply keeps_modify; intros s2; by apply quiet_other. Qed.

Global Instance quiet_seek n : Keeps quiet (rb_seek_cur n).
Proof. rw /rb_seek_cur. solve_keeps. all: apply keeps_modify; intros s2; by apply quiet_other. Qed.

(** The last part of a request: the response is sent. *)
Lemma begun_interruption st0 st a st' :
  begun st → tx st = tx st0 → process_interruption st = Val (a, st') → ready st' ∧ ∃ l, tx st' = tx st0 ++ l ∧ Forall silent l.
Proof.
  intros (c & Hc & Hst) Ht H. destruct Hst as (Hs & Hn & Hh).
  apply interruption_sends in H as (Hr & m & l & Hm & Ht' & Hl); [|done|lia].
  apply (head_loads _ _ _ c) in Hm; [|lia|done].
  split; [done|]. exists (m :: l). split; [congruence|]. constructor; [rw /silent Hm; congruence|done].
Qed.

(** Follows the construction of a response that is not a signature. *)
Ltac building :=
  repeat match goal with
  | Hs : ready ?s, Hx : add_to_response (?c :: _) ?s = Val _ |- _ => apply (ready_add c) in Hx as [? [_ ?]]; [|done|done]
  | Hs : begun ?s, Hx : add_to_response _ ?s = Val _ |- _ => apply begun_add in Hx as [? [_ ?]]; [|done]
  | Hs : begun ?s, Hx : io_add_to_response _ _ _ ?s = Val _ |- _ => apply begun_add in Hx as [? [_ ?]]; [|done]
  | Hs : begun ?s, Hx : finalize_response _ ?s = Val _ |- _ => apply begun_finalize in Hx as [? [_ ?]]; [|done]
  end.

Ltac solve_request := building; eapply begun_interruption; [done| |done]; congruence.

Global Instance quiet_protocol : Protocol quiet.
Proof.
  split; [apply _|..|intros; apply _|intros; apply _|intros; apply _].
  - intros r n i st a st' H Hst. rw /request_leaf_proof /add_varint in H. run_inv H.
    repeat match goal with x : (Z * list Z)%type |- _ => destruct x end. solve_request.
  - intros r h st a st' H Hst. rw /request_leaf_index /SET_RESPONSE in H. cbn [app] in H. run_inv H. solve_request.
  - intros h st a st' H Hst. rw /request_preimage in H. run_inv H. solve_request.
  - intros st a st' H Hst. rw /request_more /SET_RESPONSE in H. run_inv H. solve_request.
Qed.

(** A step that sends no signature. *)
Ltac quiet_step H Hq Hl :=
  pose proof (run_keeps quiet _ _ _ _ H _) as Hq; pose proof (run_keeps later _ _ _ _ H _) as Hl.

(** ** The contents of a message *)

(** The response [msg] has been built. *)
Definition holds (msg : list Z) (st : dstate) : Prop :=
  sized st ∧ output_len st = zlen msg ∧ take (length msg) (apdu_buf st) = msg.

Lemma holds_store msg l st p :
  holds msg st → stores (apdu_buf st) (zlen msg) l = Val p →
  holds (msg ++ l) (set_output_len (zlen msg + zlen l) (set_apdu_buf p st)).
Proof.
  intros ((Hz & Hrx) & Ho & Hm) Hs. split; [|split].
  - split; [|done]. cbn. by rewrite (stores_length _ _ _ _ Hs).
  - cbn. by rw zlen_app.
  - cbn. rewrite /stores in Hs. case_decide; [|done]. injection Hs as <-.
    rw zlen_length Hm app_assoc take_app_length' //.
Qed.

Lemma holds_add msg d st a st' :
  holds msg st → zlen msg + zlen d < 258 → add_to_response d st = Val (a, st') → holds (msg ++ d) st' ∧ same_io st st'.
Proof.
  intros Hst Hn H. unfold add_to_response in H. remember 1%nat as f eqn:Hf. cbn [io_add_to_response] in H. subst f. run_inv H.
  pose proof Hst as (_ & Ho & _). pose proof (zlen_nonneg d). pose proof (zlen_nonneg msg). rewrite !Ho in H.
  unfold IO_APDU_BUFFER_SIZE in H. change (5 + 255 - 2) with 258 in H.
  rewrite (proj2 (Z.leb_gt _ _)) in H; [|lia]. rewrite u32_small in H; [|lia]. rewrite (proj2 (Z.ltb_ge _ _)) in H; [|lia]. run_inv H.
  match goal with Hl : loads _ _ _ = _ |- _ => apply loads_Val in Hl as (_ & _ & _ & ->) end.
  match goal with Hs : stores _ _ _ = _ |- _ => rewrite drop_0 zlen_length take_ge // in Hs; apply (holds_store _ _ _ _ Hst) in Hs end.
  rw /u16 Z.mod_small //. lia.
Qed.

Lemma holds_finalize msg sw st a st' :
  holds msg st → zlen msg < 258 → finalize_response sw st = Val (a, st') → holds (msg ++ sw_bytes sw) st' ∧ same_io st st'.
Proof.
  intros Hst Hn H. rw /finalize_response /io_finalize_response in H. run_inv H. pose proof Hst as (_ & Ho & _). pose proof (zlen_nonneg msg).
  cbn in H. rewrite !Ho in H. unfold IO_APDU_BUFFER_SIZE in H. change (5 + 255 - 2) with 258 in H.
  rewrite (proj2 (Z.leb_gt _ _)) in H; [|lia]. run_inv H.
  match goal with Hs : write_u16_be _ _ _ = _ |- _ => rewrite write_u16_be_stores in Hs; apply (holds_store _ _ _ _ Hst) in Hs end.
  rw /u16 Z.mod_small //. lia.
Qed.

Lemma holds_interruption msg st a st' :
  holds msg st → 1 ≤ zlen msg → process_interruption st = Val (a, st') →
  ready st' ∧ ∃ l, tx st' = tx st ++ msg :: l ∧ Forall silent l.
Proof.
  intros (Hs & Ho & Hm) Hn H. apply interruption_sends in H as (Hr & m & l & Hl & Ht & Hq); [|done|lia].
  apply loads_Val in Hl as (_ & _ & _ & ->). rewrite Ho drop_0 zlen_length Hm in Ht. split; [done|]. by exists l.
Qed.

(** The message that carries a signature. *)
Definition key_part (version : Z) (pubkey : list Z) (tapleaf_hash : option (list Z)) : list Z :=
  if 1 <=? version then
    [u8 (zlen pubkey + match tapleaf_hash with Some _ => 32 | None => 0 end)] ++ pubkey ++ default [] tapleaf_hash
  else [].
Definition yield_message (version i : Z) (pubkey : list Z) (tapleaf_hash : option (list Z)) (sig : list Z) : list Z :=
  [CCMD_YIELD] ++ varint_enc i ++ key_part version pubkey tapleaf_hash ++ sig ++ sw_bytes SW_INTERRUPTED_EXECUTION.

Lemma holds_ready st : ready st → holds [] st.
Proof. intros [Hs Ho]. by split. Qed.

Lemma varint_write_read m v n m' l :
  0 ≤ v < 2 ^ 64 → varint_write m 0 v = Val (n, m') → loads m' 0 n = Val l → l = varint_enc v.
Proof.
  intros Hv H Hl. rewrite varint_write_stores // in H. apply outcome_bind_Val in H as (p & Hs & H).
  injection H as <- <-. apply loads_Val in Hl as (_ & _ & _ & ->). rewrite /stores in Hs. case_decide; [|done].
  injection Hs as <-. by rw drop_0 -varint_enc_zlen zlen_length /= take_app_length.
Qed.

(** One step in the construction of a response with known contents. *)
Ltac holding :=
  match goal with
  | Hs : holds ?m ?s, Hx : add_to_response ?d ?s = Val _ |- _ =>
      let H := fresh "Hm" in apply (holds_add m d) in Hx as [H [? ?]]; [clear Hs; rename H into Hs|done|]
  | Hs : holds ?m ?s, Hx : finalize_response ?sw ?s = Val _ |- _ =>
      let H := fresh "Hm" in apply (holds_finalize m sw) in Hx as [H [? ?]]; [clear Hs; rename H into Hs|done|]
  end.

Lemma key_part_zlen version pubkey tap :
  zlen pubkey ≤ 65 → zlen (default [] tap) ≤ 32 → zlen (key_part version pubkey tap) ≤ 98.
Proof. intros. rw /key_part. case_match; [|done]. rw !zlen_app zlen_cons zlen_nil. lia. Qed.

Lemma key_part_run version pubkey tap msg st a st' :
  holds msg st → zlen msg ≤ 10 → zlen pubkey ≤ 65 → zlen (default [] tap) ≤ 32 →
  (if 1 <=? version then
     _ ← add_to_response [u8 (zlen pubkey + match tap with Some _ => 32 | None => 0 end)];
     _ ← add_to_response pubkey;
     match tap with Some h => add_to_response h | None => mret () end
   else mret ()) st = Val (a, st') →
  holds (msg ++ key_part version pubkey tap) st' ∧ same_io st st'.
Proof.
  intros Hst Hm Hp Ht H. rw /key_part. destruct (1 <=? version); run_inv H; [|by rw app_nil_r].
  do 2 (holding; [|rw ?zlen_app ?zlen_cons ?zlen_nil; lia]). destruct tap as [h|]; run_inv H.
  - holding; [|rw ?zlen_app ?zlen_cons ?zlen_nil; cbn in Ht; lia]. rewrite -!app_assoc in Hst. split; [done|]. split; congruence.
  - rewrite -!app_assoc in Hst. cbn [default]. rw app_nil_r. split; [done|]. split; congruence.
Qed.

Lemma yield_run arr w i pubkey tap sig st b st' :
  ready st → 0 ≤ i < 2 ^ 64 → zlen pubkey ≤ 65 → zlen (default [] tap) ≤ 32 → zlen sig ≤ 73 →
  yield_signature arr w i pubkey tap sig st = Val (b, st') →
  ready st' ∧ ∃ l, tx st' = tx st ++ yield_message (protocol_version w) i pubkey tap sig :: l ∧ Forall silent l.
Proof.
  intros Hst Hi Hp Ht Hs. apply holds_ready in Hst. rw /yield_signature. intros H. run_inv H. destruct a0 as [n buf]. run_inv H.
  match goal with Hv : varint_write _ _ _ = _, Hl : loads _ _ _ = _ |- _ => apply (varint_write_read _ _ _ _ _ Hi Hv) in Hl as -> end.
  pose proof (varint_size_le i). pose proof (key_part_zlen (protocol_version w) _ _ Hp Ht). pose proof (zlen_nonneg sig).
  do 2 (holding; [|rw ?zlen_app ?varint_enc_zlen ?zlen_cons ?zlen_nil; lia]).
  match goal with Hk : (if _ then _ else _) _ = Val _ |- _ => apply (key_part_run _ _ _ _ _ _ _ Hst) in Hk as [Hst2 [_ ?]];
    [|rw ?zlen_app ?varint_enc_zlen ?zlen_cons ?zlen_nil; lia|done..] end.
  do 2 (holding; [|rw ?zlen_app ?varint_enc_zlen ?zlen_cons ?zlen_nil; lia]).
  match goal with Hx : process_interruption _ = _ |- _ => eapply holds_interruption in Hx as (Hr & l & Htx & Hl); [|exact Hst2|] end;
    [|rw !zlen_app zlen_cons !zlen_nil; pose proof (zlen_nonneg (sw_bytes SW_INTERRUPTED_EXECUTION));
      pose proof (zlen_nonneg (varint_enc i)); pose proof (zlen_nonneg (key_part (protocol_version w) pubkey tap)); lia].
  eapply (run_keeps quiet) in H; [|rw /fail_sw; solve_keeps]. destruct (H Hr) as [Hr' (l' & Ht' & Hl')]. split; [done|].
  exists (l ++ l'). split; [|by apply Forall_app]. rewrite -!app_assoc app_nil_l in Htx.
  rw /yield_message Ht' Htx -app_assoc /=. congruence.
Qed.
