(* ===== verification/Confirm.v ===== *)
(** * Signing: what the user has confirmed

    A run of the command that sends a signature has first shown the transaction
    to the user, who has confirmed it: the amounts of the inputs, the external
    outputs with their addresses and amounts, the outputs that go back to the
    wallet, and the fee. *)

From S2P Require Import Prelude Bytes Bip32 Buffer Merkle Dispatcher MerkleClient Run Script Crypto RawTx Address PolicySyntax PolicyParser PolicyScript PolicyCheck Psbt HostSample Sighash Sign Derivation SignFlow FlowKeeps Messages.

(** During a run from [s0], the operation [m] has returned [a]. *)
Definition ran {A} (s0 : dstate) (m : io A) (a : A) : Prop := ∃ s s', later s0 s ∧ m s = Val (a, s').

Lemma ran_here {A} (m : io A) a s s' : m s = Val (a, s') → ran s m a.
Proof. intros H. by exists s, s'. Qed.

Lemma ran_later {A} (m : io A) a s0 s1 : later s0 s1 → ran s1 m a → ran s0 m a.
Proof. intros Hl (s & s' & Hs & H). exists s, s'. split; [by etrans|done]. Qed.

(** A sum of amounts of 64 bits. *)
Definition sum64 (a : Z) (l : list Z) : Z := foldl (λ a b, u64 (a + b)) a l.

(** What a pass over the outputs sees of one: its amount, and the text that is
    shown for it unless it goes back to the wallet. *)
Record out_seen := mk_seen { os_amount : Z; os_text : option (list Z) }.

Definition external (o : out_seen) : bool := bool_decide (is_Some (os_text o)).
Definition change_amounts (outs : list out_seen) : list Z := os_amount <$> filter (λ o, external o = false) outs.
Definition n_external_of (outs : list out_seen) : Z := zlen (filter (λ o, external o = true) outs).
Definition n_change_of (outs : list out_seen) : Z := zlen (filter (λ o, external o = false) outs).

(** The screens for the external outputs, which are numbered from [k + 1]. *)
Fixpoint output_screens (k total : Z) (outs : list out_seen) : list screen :=
  match outs with
  | [] => []
  | mk_seen amount (Some text) :: outs => ui_validate_output (k + 1) total text amount :: output_screens (k + 1) total outs
  | mk_seen _ None :: outs => output_screens k total outs
  end.

Section confirm.
Context (E : env) (swap : swap_globals) (ui : list screen → screen → bool).

#[local] Abbreviation sha256 := (cx_sha256 (os E)).

(** Every screen has been accepted by the user, after the ones before it. *)
Definition accepted (l : list screen) : Prop := ∀ k s, l !! k = Some s → ui (take k l) s = true.

Lemma accepted_nil : accepted [].
Proof. by intros k s H. Qed.

Lemma accepted_snoc l s : accepted l → ui l s = true → accepted (l ++ [s]).
Proof.
  intros Hl Hs k x Hk. destruct (decide (k < length l)%nat) as [Hlt|Hge].
  - rewrite lookup_app_l // in Hk. rw take_app_le; [by apply Hl|lia].
  - rewrite lookup_app_r in Hk; [|lia]. destruct (k - length l)%nat eqn:Hd; [|done]. injection Hk as <-.
    rw take_app_length'; [done|lia].
Qed.

Lemma ask_run st s σ st' σ' :
  ask ui st s σ = Val (Some st', σ') → ui (shown st) s = true ∧ st' = add_screen s st.
Proof. rw /ask. destruct (ui _ _); intros H; [run_inv H; by simplify_eq|by apply fail_run in H]. Qed.

Lemma ask_accepted st s σ st' σ' :
  ask ui st s σ = Val (Some st', σ') → accepted (shown st) → accepted (shown st') ∧ st' = add_screen s st.
Proof. intros H Ha. apply ask_run in H as [Hu ->]. split; [by apply accepted_snoc|done]. Qed.

(** ** Outputs *)

(** The script of the wallet at a derivation. *)
Definition wallet_script_at (s0 : dstate) (w : wallet_state) (change : bool) (index : Z) (spk : list Z) : Prop :=
  ran s0 (get_wallet_script (os E) (jk E) (arr E MAX_PREVOUT_SCRIPTPUBKEY_LEN) (wallet_policy_map w)
            (mk_wdi (wallet_header_version w) (wallet_header_keys_info_merkle_root w) (wallet_header_n_keys w) (u32 index) change))
    (Some spk).

(** Output [i] of the transaction, as the host has provided it in the run from
    [s0]: [o] is its amount and, for an external output, the text that describes
    its script; the script of the other ones is a change script of the wallet. *)
Definition output_seen (s0 : dstate) (st : sign_psbt_state) (i : Z) (r : out_seen) : Prop :=
  ∃ info o raw n spk,
    ran s0 (read_output_map E st info i) (Some o) ∧
    ran s0 (get_value (os E) (arr E) (io_map o) PSBT_OUT_AMOUNT 8) (8, raw) ∧ read_u64_le raw 0 = Val (os_amount r) ∧
    ran s0 (call_get_merkleized_map_value sha256 (io_map o) [PSBT_OUT_SCRIPT] (scriptPubKey o)) (n, spk) ∧
    match os_text r with
    | Some text =>
        ∃ len, output_text E (set_scriptPubKey spk (size_t n) o) = Val (Some (len, text)) ∧
          (called_from_swap swap = true → destination_address swap = take (Z.to_nat len) text)
    | None => is_change o = true ∧ ∃ script, loads spk 0 (size_t n) = Val script ∧ wallet_script_at s0 (wallet st) true (address_index o) script
    end.

Lemma output_seen_later s0 s1 st i r : later s0 s1 → output_seen s1 st i r → output_seen s0 st i r.
Proof.
  intros Hl (info & o & raw & n & spk & H1 & H2 & H3 & H4 & H5). exists info, o, raw, n, spk.
  splits; [by eapply ran_later..|done|by eapply ran_later|].
  destruct (os_text r); [done|]. destruct H5 as (? & script & ? & ?). split; [done|]. exists script. split; [done|]. by eapply ran_later.
Qed.

(** *** The outputs that are hashed

    The outputs are read again when the digests are computed.  The host gives
    two answers for output [i] of the transaction in a run from [s0] when there
    are two different maps of it under the Merkle root of the outputs, or two
    different values of a field of its map. *)
Definition output_map_at (s0 : dstate) (st : sign_psbt_state) (i : Z) (m : merkleized_map_commitment) : Prop :=
  map_at (os E) (arr E) s0 (outputs_root (st_tx st)) (tx_n_outputs (st_tx st)) i m ∨
  ∃ info o, ran s0 (read_output_map E st info i) (Some o) ∧ io_map o = m.

Definition field_at (s0 : dstate) (m : merkleized_map_commitment) (key n : Z) (v : list Z) : Prop :=
  0 ≤ n ∧ ∃ out out', ran s0 (call_get_merkleized_map_value sha256 m [key] out) (n, out') ∧ v = take (Z.to_nat n) out'.

Definition two_answers (s0 : dstate) (st : sign_psbt_state) (i : Z) : Prop :=
  (∃ m m', m ≠ m' ∧ output_map_at s0 st i m ∧ output_map_at s0 st i m') ∨
  (∃ m key n v n' v', (n, v) ≠ (n', v') ∧ output_map_at s0 st i m ∧ field_at s0 m key n v ∧ field_at s0 m key n' v').

(** The output [d] is the one that has been seen as [r]: it has this amount, and
    the text describes its script, or it has a change script of the wallet. *)
Definition seen_as (s0 : dstate) (st : sign_psbt_state) (r : out_seen) (d : out_data) : Prop :=
  read_u64_le (od_amount d) 0 = Val (os_amount r) ∧
  match os_text r with
  | Some text =>
      ∃ o spk len, take (length (od_script d)) spk = od_script d ∧
        output_text E (set_scriptPubKey spk (zlen (od_script d)) o) = Val (Some (len, text)) ∧
        (called_from_swap swap = true → destination_address swap = take (Z.to_nat len) text)
  | None => ∃ index, wallet_script_at s0 (wallet st) true index (od_script d)
  end.

Lemma obtained_field s0 m key v : obtained sha256 s0 m key v → field_at s0 m key (zlen v) v.
Proof.
  intros (s & s' & out & out' & Hs & H & Hv). split; [rw /zlen; lia|]. exists out, out'. split; [by exists s, s'|]. by rw zlen_length.
Qed.

Lemma read_u64_take m : read_u64_le (take 8 m) 0 = read_u64_le m 0.
Proof. rw /read_u64_le. by rewrite !load_take. Qed.

(** A script with a text, or one that can be read, has at most 83 bytes. *)
Lemma script_type_len l n t : get_script_type l n = Val (Some t) → n ≤ 42.
Proof.
  rw /get_script_type /match_template /match_future_segwit. intros H.
  repeat match type of H with
  | mbind _ (if ?a =? ?b then _ else _) = _ => destruct (Z.eqb_spec a b); [lia|cbn in H]
  | mbind _ (if (?a <=? ?b) && (?c <=? ?d) then _ else _) = _ =>
      destruct (Z.leb_spec a b); cbn [andb] in H; [destruct (Z.leb_spec c d); [lia|]|]; cbn in H
  end; done.
Qed.

Lemma output_text_len o r : output_text E o = Val (Some r) → scriptPubKey_len o ≤ 83.
Proof.
  rw /output_text. intros H. apply outcome_bind_Val in H as ([al oa] & Ha & H). destruct (Z.ltb_spec al 0) as [|Hal].
  - apply outcome_bind_Val in H as (b & Hb & H). rw /is_opreturn in Hb. destruct (0 <? _); cbn [negb] in Hb; [|injection Hb as <-; done].
    destruct (Z.leb_spec (scriptPubKey_len o) 83) as [|]; cbn [negb] in Hb; [done|]. injection Hb as <-. done.
  - rw /get_script_address in Ha. apply outcome_bind_Val in Ha as ([t|] & Ht & Ha); [apply script_type_len in Ht; lia|].
    injection Ha as <- <-. lia.
Qed.

(** An invariant of the state of a callback on the keys of a map. *)
Lemma sorted_loop_inv {CS} (J : CS → Prop) cb raw root fuel size i prev n cs s r cs' s' :
  (∀ f k b c st c' st', cb = Some f → f k b c st = Val (c', st') → J c → J c') → J cs →
  sorted_loop sha256 cb raw root fuel size i prev n cs s = Val ((r, cs'), s') → J cs'.
Proof.
  intros Hcb. revert i prev n cs s. induction fuel as [|f IH]; intros i prev n cs s HJ H; [done|]. cbn [sorted_loop] in H.
  run_if H; [by simplify_eq|]. destruct a as [len el]. run_if H; [by simplify_eq|]. run_if H; [by simplify_eq|].
  eapply IH; [|exact H]. destruct cb as [g|]; [by eapply Hcb|]. match goal with Hr : mret _ _ = _ |- _ => run_inv Hr end. by simplify_eq.
Qed.

Lemma map_callback_inv {CS} (J : CS → Prop) cb raw_output raw root size i cs s r m cs' s' :
  (∀ f m k b c st c' st', cb = Some f → f m k b c st = Val (c', st') → J c → J c') → J cs →
  call_get_merkleized_map_with_callback sha256 cb raw_output raw root size i cs s = Val ((r, m, cs'), s') → J cs'.
Proof.
  intros Hcb HJ H. rw /call_get_merkleized_map_with_callback in H. run_inv H. destruct a as [len el]. run_if H; [by simplify_eq|].
  destruct a as [[sz|] b1]; run_inv H; [|by simplify_eq]. destruct a as [[kr|] b2]; run_inv H; [|by simplify_eq].
  destruct a as [[vr|] b3]; run_inv H; [|by simplify_eq]. destruct a as [r' c]. run_inv H. simplify_eq.
  match goal with Hs : call_check_merkle_tree_sorted_with_callback _ _ _ _ _ _ _ = _ |- _ => rename Hs into Hsort end.
  rw /call_check_merkle_tree_sorted_with_callback /answers_left in Hsort. run_inv Hsort. eapply (sorted_loop_inv J); [|done|exact Hsort].
  intros f k b c0 st c' st' Hf. apply fmap_Some in Hf as (g & -> & ->). by apply Hcb.
Qed.

Lemma match_derivation_script info o b key d r o' :
  match_derivation E info o b key d = (r, o') → scriptPubKey o' = scriptPubKey o.
Proof. rw /match_derivation. intros H. by repeat case_match; simplify_eq. Qed.

Lemma read_output_map_script st info i s o s' :
  read_output_map E st info i s = Val (Some o, s') → zlen (scriptPubKey o) = MAX_OUTPUT_SCRIPTPUBKEY_LEN.
Proof.
  rw /read_output_map. intros H. run_inv H. destruct a as [[res map] o']. destruct (res <? 0); run_inv H.
  apply (map_callback_inv (λ o, zlen (scriptPubKey o) = MAX_OUTPUT_SCRIPTPUBKEY_LEN)) in Hrun; [|clear|done].
  - destruct map; by simplify_eq/=.
  - intros f m k b c st c' st' [= <-] H Hc. rw /output_keys_callback in H. run_if H; [by simplify_eq|]. destruct a as [ty data].
    run_if H; [|by simplify_eq]. destruct a as [res o]. run_inv H. rw /read_change_and_index_from_psbt_bip32_derivation in Hrun0.
    assert (scriptPubKey o = scriptPubKey c) as Ho; [|rewrite -Ho in Hc; by destruct (res <? 0)].
    run_inv Hrun0. destruct a as [[key|] data']; run_inv Hrun0; [|by simplify_eq]. run_if Hrun0; [by simplify_eq|].
    destruct a; [by eapply match_derivation_script|by simplify_eq].
Qed.

(** What is hashed is what has been seen, unless the host gives two answers. *)
Lemma output_seen_hashed s0 st i r d :
  output_seen s0 st i r → output_at (os E) (arr E) s0 (st_tx st) i d → seen_as s0 st r d ∨ two_answers s0 st i.
Proof.
  intros (info & o & raw & n & spk & Hmap & Hraw & Hamt & Hspk & Htext) (_ & m & Hm & Hza & Hoa & Hzs & Hos).
  destruct (decide (io_map o = m)) as [<- |Hne].
  2:{ right. left. exists (io_map o), m. splits; [done|right; by exists info, o|by left]. }
  assert (output_map_at s0 st i (io_map o)) as Hat by (by left).
  assert (0 ≤ n ≤ zlen spk ∧ size_t n = n) as [Hn Hs].
  { destruct Hspk as (s1 & s2 & _ & Hrun). apply map_value_run in Hrun as [Hint Hz]. destruct Hmap as (s3 & s4 & _ & Hmap).
    apply read_output_map_script in Hmap. rewrite Hmap in Hz. unfold MAX_OUTPUT_SCRIPTPUBKEY_LEN in Hz.
    assert (size_t n ≤ 83) as H83; [|pose proof (size_t_int n 83 Hint H83 eq_refl); lia]. destruct (os_text r).
    - destruct Htext as (len & Ht & _). by apply output_text_len in Ht.
    - destruct Htext as (_ & script & Hl & _). apply loads_Val in Hl as (_ & _ & Hl & _). lia. }
  assert (field_at s0 (io_map o) PSBT_OUT_SCRIPT n (take (Z.to_nat n) spk)) as Hf1 by (split; [lia|]; by exists (scriptPubKey o), spk).
  assert (field_at s0 (io_map o) PSBT_OUT_AMOUNT 8 (take 8 raw)) as Hf2 by (split; [done|]; by exists (arr E 8), raw).
  apply obtained_field in Hoa, Hos. rewrite Hza in Hoa.
  destruct (decide (take 8 raw = od_amount d)) as [Ha|Hne].
  2:{ right. right. exists (io_map o), PSBT_OUT_AMOUNT, 8, (take 8 raw), 8, (od_amount d). splits; [congruence|done..]. }
  destruct (decide ((n, take (Z.to_nat n) spk) = (zlen (od_script d), od_script d))) as [Heq|Hne].
  2:{ right. right. by exists (io_map o), PSBT_OUT_SCRIPT, n, (take (Z.to_nat n) spk), (zlen (od_script d)), (od_script d). }
  left. injection Heq as Hzn Hsc. rewrite Hs in Htext. split; [by rw -Ha read_u64_take|]. destruct (os_text r).
  - destruct Htext as (len & Ht & Hsw). rewrite Hzn in Ht. exists o, spk, len. splits; [|done..]. by rewrite Hzn zlen_length in Hsc.
  - destruct Htext as (_ & script & Hl & Hw). apply loads_Val in Hl as (_ & _ & _ & ->). rewrite drop_0 Hsc in Hw. by eexists.
Qed.

(** The state after outputs have been seen. *)
Definition see_outputs (k : Z) (outs : list out_seen) (st : sign_psbt_state) : sign_psbt_state :=
  let t := outputs st in
  mk_sign_state (st_master_key_fingerprint st) (st_tx st) (inputs_total_amount st)
    (mk_outputs_info (sum64 (total_amount t) (os_amount <$> outs)) (sum64 (change_total_amount t) (change_amounts outs))
       (n_change t + n_change_of outs) (n_external t))
    (is_wallet_default st) (wallet st) (show_missing_nonwitnessutxo_warning st) (show_nondefault_sighash_warning st)
    (shown st ++ if called_from_swap swap then [] else output_screens k (n_external t) outs).

Lemma see_outputs_nil k st : see_outputs k [] st = st.
Proof.
  destruct st as [? ? ? [? ? ? ?] ? ? ? ? ?]. rw /see_outputs /n_change_of /=. f_equal; [|by destruct (called_from_swap _); rw /= app_nil_r].
  by rw Z.add_0_r.
Qed.

Lemma sum64_app a l1 l2 : sum64 a (l1 ++ l2) = sum64 (sum64 a l1) l2.
Proof. by rw /sum64 foldl_app. Qed.

Lemma output_screens_cons k n r outs :
  output_screens k n (r :: outs) = output_screens k n [r] ++ output_screens (k + n_external_of [r]) n outs.
Proof. destruct r as [a [text|]]; cbn; by rw ?Z.add_0_r. Qed.

Lemma see_outputs_cons k r outs st :
  see_outputs k (r :: outs) st = see_outputs (k + n_external_of [r]) outs (see_outputs k [r] st).
Proof.
  rw /see_outputs. cbn [outputs st_master_key_fingerprint st_tx inputs_total_amount is_wallet_default wallet
    show_missing_nonwitnessutxo_warning show_nondefault_sighash_warning shown total_amount change_total_amount n_change n_external].
  rw output_screens_cons (eq_refl : r :: outs = [r] ++ outs). f_equal.
  - rw /n_change_of /change_amounts filter_app !fmap_app zlen_app !sum64_app. f_equal. lia.
  - rw -app_assoc. by destruct (called_from_swap _).
Qed.

(** ** Comparisons with the wallet *)
Lemma compare_run change i w s n σ r σ' :
  compare_wallet_script_at_path E change i w s n σ = Val (r, σ') →
  r ≤ 0 ∨ ∃ script, loads s 0 n = Val script ∧ wallet_script_at σ w change i script.
Proof.
  rw /compare_wallet_script_at_path. intros H. run_inv H.
  match goal with Hg : get_wallet_script _ _ _ _ _ _ = Val (?x, _) |- _ => rename Hg into Hscript; destruct x as [script|]; run_inv H; [|lia] end.
  destruct (_ =? _); run_inv H; [|lia].
  destruct (bool_decide_reflect (script = a)) as [-> |]; [|lia]. right. exists a. split; [done|]. by eapply ran_here.
Qed.

Lemma internal_run w o b σ r σ' :
  is_in_out_internal E w o b σ = Val (r, σ') →
  r ≤ 0 ∨ (b = false → is_change o = true) ∧
    ∃ script, loads (scriptPubKey o) 0 (scriptPubKey_len o) = Val script ∧ wallet_script_at σ w (is_change o) (address_index o) script.
Proof.
  rw /is_in_out_internal. intros H. destruct (negb (placeholder_found o)); run_inv H; [lia|].
  destruct b, (is_change o) eqn:Hc; cbn [negb andb] in H; run_inv H; try lia;
    (apply compare_run in H as [? | (script & ? & ?)]; [by left|right; split; [done|by exists script]]).
Qed.

(** ** One output *)
Lemma display_run st k out σ st' σ' :
  display_output E swap ui st k out σ = Val (Some st', σ') → accepted (shown st) →
  ∃ len text, output_text E (out_in_out out) = Val (Some (len, text)) ∧
    (called_from_swap swap = true → destination_address swap = take (Z.to_nat len) text) ∧
    accepted (shown st') ∧
    st' = (if called_from_swap swap then st else add_screen (ui_validate_output k (n_external (outputs st)) text (value out)) st).
Proof.
  rw /display_output. intros H Ha. run_inv H. destruct a as [[len text]|]; run_inv H; [|by apply fail_run in H].
  exists len, text. split; [done|]. destruct (called_from_swap swap); run_inv H.
  - match type of H with (if ?c then _ else _) _ = _ => destruct c eqn:Hc end; run_inv H; [by apply fail_run in H|].
    apply orb_false_elim in Hc as [_ Hc]. apply negb_false_iff, bool_decide_eq_true in Hc. by simplify_eq.
  - apply ask_accepted in H as [? ?]; [|done]. by splits.
Qed.

Lemma read_amount_run st o σ st' v σ' :
  read_output_amount E false st o σ = Val (Some (st', v), σ') →
  later σ σ' ∧ ∃ raw, ran σ (get_value (os E) (arr E) (io_map o) PSBT_OUT_AMOUNT 8) (8, raw) ∧ read_u64_le raw 0 = Val v ∧
    st' = set_outputs (mk_outputs_info (u64 (total_amount (outputs st) + v)) (change_total_amount (outputs st))
                         (n_change (outputs st)) (n_external (outputs st))) st.
Proof.
  intros H. pose proof (run_keeps later _ _ _ _ H _) as Hl. split; [done|]. rw /read_output_amount in H. run_inv H.
  destruct a as [n raw]. destruct (Z.eqb_spec n 8) as [-> |]; cbn [negb] in H; run_inv H; [|by apply fail_run in H].
  exists raw. split; [by eapply ran_here|]. done.
Qed.

Lemma read_output_run info st k i σ st' k' σ' :
  read_output E swap ui false info st k i σ = Val (Some (st', k'), σ') → accepted (shown st) →
  later σ σ' ∧ accepted (shown st') ∧
  ∃ r, output_seen σ st i r ∧ st' = see_outputs k [r] st ∧ k' = k + n_external_of [r].
Proof.
  intros H Ha. pose proof (run_keeps later _ _ _ _ H _) as Hl. split; [done|]. rw /read_output in H. run_inv H.
  match goal with Hm : read_output_map _ _ _ _ _ = Val (?x, _) |- _ => rename Hm into Hmap; destruct x as [o|]; run_inv H; [|by apply fail_run in H] end.
  destruct (unexpected_pubkey_error o); run_inv H; [by apply fail_run in H|].
  match goal with Hm : read_output_amount _ _ _ _ _ = Val (?x, _) |- _ => rename Hm into Hamt; destruct x as [[st1 v]|]; run_inv H end.
  match goal with Hm : call_get_merkleized_map_value _ _ _ _ _ = Val (?x, _) |- _ => rename Hm into Hspk; destruct x as [n spk]; run_inv H end.
  destruct (_ || _); run_inv H; [by apply fail_run in H|].
  pose proof (run_keeps later _ _ _ _ Hmap _) as Hl1. apply read_amount_run in Hamt as (Hl2 & raw & Hraw & Hv & ->).
  pose proof (run_keeps later _ _ _ _ Hspk _) as Hl3. pose proof (transitivity Hl1 Hl2) as Hl12. pose proof (transitivity Hl12 Hl3) as Hl13.
  assert (∀ t, (match t with
                | Some text => ∃ len, output_text E (set_scriptPubKey spk (size_t n) o) = Val (Some (len, text)) ∧
                    (called_from_swap swap = true → destination_address swap = take (Z.to_nat len) text)
                | None => is_change o = true ∧ ∃ script, loads spk 0 (size_t n) = Val script ∧
                    wallet_script_at σ (wallet st) true (address_index o) script
                end) → output_seen σ st i (mk_seen v t)) as Hseen.
  { intros t Ht. exists info, o, raw, n, spk. splits; [by eapply ran_here|by apply (ran_later _ _ _ _ Hl1)|done| |done].
    eapply ran_later; [exact Hl12|by eapply ran_here]. }
  destruct (Z.ltb_spec a 0) as [|Hge]; run_inv H; [by apply fail_run in H|]. destruct (Z.eqb_spec a 0) as [-> | Hne]; run_inv H.
  - match goal with Hd : display_output _ _ _ _ _ _ _ = Val (?x, _) |- _ => rename Hd into Hdis; destruct x as [st2|]; [|done] end.
    apply display_run in Hdis as (len & text & Ht & Hsw & Hacc & ->); [|exact Ha]. simplify_eq/=.
    split; [done|]. exists (mk_seen v (Some text)). splits; [apply Hseen; by exists len| |done].
    rw /see_outputs /n_change_of /= Z.add_0_r. destruct (called_from_swap swap); cbn; by rw ?app_nil_r.
  - apply internal_run in Hrun as [? | (Hch & script & Hs & Hw)]; [lia|]. specialize (Hch eq_refl). cbn in Hch, Hs, Hw. simplify_eq/=.
    split; [done|]. exists (mk_seen v None). splits; [|..].
    + apply Hseen. split; [done|]. exists script. split; [done|]. rewrite Hch in Hw. by apply (ran_later _ _ _ _ Hl13).
    + rw /see_outputs /n_change_of /=. destruct (called_from_swap swap); cbn; by rw app_nil_r.
    + by rw /n_external_of /= Z.add_0_r.
Qed.

(** ** The passes over the outputs *)
Lemma see_outputs_tx k outs st : st_tx (see_outputs k outs st) = st_tx st ∧ wallet (see_outputs k outs st) = wallet st.
Proof. done. Qed.

Lemma output_seen_same s0 st st1 i r : st_tx st1 = st_tx st → wallet st1 = wallet st → output_seen s0 st1 i r → output_seen s0 st i r.
Proof. rw /output_seen /read_output_map. by intros -> ->. Qed.

Lemma outputs_loop_run fuel info st k i σ st' k' σ' :
  i ≤ tx_n_outputs (st_tx st) → accepted (shown st) →
  outputs_loop E swap ui fuel false info st k i σ = Val (Some (st', k'), σ') →
  accepted (shown st') ∧
  ∃ outs, zlen outs = tx_n_outputs (st_tx st) - i ∧ all_at (output_seen σ st) i outs ∧
    st' = see_outputs k outs st ∧ k' = k + n_external_of outs.
Proof.
  revert st k i σ. induction fuel as [|fuel IH]; intros st k i σ Hi Ha H; [done|]. cbn [outputs_loop] in H.
  destruct (Z.ltb_spec i (tx_n_outputs (st_tx st))); run_inv H.
  - match goal with Hr : read_output _ _ _ _ _ _ _ _ _ = Val (?x, _) |- _ => rename Hr into Hread; destruct x as [[st1 k1]|]; run_inv H end.
    apply read_output_run in Hread as (Hl & Ha1 & r & Hr & -> & ->); [|done].
    apply IH in H as (Ha' & outs & Hz & Hall & -> & ->); [|cbn; lia|done]. split; [done|]. exists (r :: outs). cbn in Hz. splits.
    + rw zlen_cons. lia.
    + eapply all_at_cons; [done|exact Hall|]. intros j x Hx. eapply output_seen_later; [done|]. by eapply output_seen_same.
    + symmetry. apply see_outputs_cons.
    + rw /n_external_of (eq_refl : r :: outs = [r] ++ outs) filter_app zlen_app. lia.
  - split; [done|]. exists []. splits; [rw zlen_nil; lia|apply all_at_nil|by rw see_outputs_nil|by rw Z.add_0_r].
Qed.

Lemma read_output_dry info st k i σ st' k' σ' : read_output E swap ui true info st k i σ = Val (Some (st', k'), σ') → st' = st.
Proof.
  rw /read_output /read_output_amount. intros H. run_inv H.
  repeat match type of H with
  | (match ?x with _ => _ end) _ = _ => destruct x; run_inv H; try (by apply fail_run in H)
  end; by simplify_eq.
Qed.

Lemma outputs_loop_dry fuel info st k i σ st' k' σ' :
  outputs_loop E swap ui fuel true info st k i σ = Val (Some (st', k'), σ') → st' = st.
Proof.
  revert st k i σ. induction fuel as [|fuel IH]; intros st k i σ H; [done|]. cbn [outputs_loop] in H.
  destruct (_ <? _); run_inv H; [|done].
  match goal with Hr : read_output _ _ _ _ _ _ _ _ _ = Val (?x, _) |- _ => rename Hr into Hread; destruct x as [[st1 k1]|]; run_inv H end.
  apply read_output_dry in Hread as ->. by eapply IH.
Qed.

(** The number of external outputs is recorded at the end of a pass. *)
Definition set_n_external (n : Z) (st : sign_psbt_state) : sign_psbt_state :=
  set_outputs (mk_outputs_info (total_amount (outputs st)) (change_total_amount (outputs st)) (n_change (outputs st)) n) st.

Lemma read_outputs_dry st info σ st' σ' :
  read_outputs E swap ui st info true σ = Val (Some st', σ') → ∃ n, st' = set_n_external n st.
Proof.
  rw /read_outputs /answers_left. intros H. run_inv H.
  match goal with Hr : outputs_loop _ _ _ _ _ _ _ _ _ _ = Val (?x, _) |- _ => rename Hr into Hloop; destruct x as [[st1 k1]|]; [|done] end.
  apply outputs_loop_dry in Hloop as ->. simplify_eq/=. by exists k1.
Qed.

Lemma read_outputs_run st info σ st' σ' :
  0 ≤ tx_n_outputs (st_tx st) → accepted (shown st) → read_outputs E swap ui st info false σ = Val (Some st', σ') →
  accepted (shown st') ∧
  ∃ outs, zlen outs = tx_n_outputs (st_tx st) ∧ all_at (output_seen σ st) 0 outs ∧
    st' = set_n_external (n_external_of outs) (see_outputs 0 outs st).
Proof.
  rw /read_outputs /answers_left. intros Hn Ha H. run_inv H.
  match goal with Hr : outputs_loop _ _ _ _ _ _ _ _ _ _ = Val (?x, _) |- _ => rename Hr into Hloop; destruct x as [[st1 k1]|]; [|done] end.
  apply outputs_loop_run in Hloop as (Ha1 & outs & Hz & Hall & -> & ->); [|done..]. simplify_eq/=. split; [done|].
  exists outs. by rewrite Z.sub_0_r in Hz.
Qed.

(** The state before the pass that shows the outputs: the totals are 0, and
    with NBGL the first screen tells the number [n] of external outputs. *)
Definition before_outputs (n : Z) (st : sign_psbt_state) : sign_psbt_state :=
  let st := set_outputs (mk_outputs_info 0 0 0 n) st in
  if have_nbgl E && negb (called_from_swap swap) then add_screen (ui_transaction_prompt n) st else st.

Lemma before_outputs_same n st : st_tx (before_outputs n st) = st_tx st ∧ wallet (before_outputs n st) = wallet st.
Proof. rw /before_outputs. by case_match. Qed.

Lemma process_outputs_run st σ st' σ' :
  0 ≤ tx_n_outputs (st_tx st) → accepted (shown st) →
  process_outputs E swap ui st σ = Val (Some st', σ') →
  accepted (shown st') ∧
  ∃ n outs, zlen outs = tx_n_outputs (st_tx st) ∧ all_at (output_seen σ st) 0 outs ∧
    st' = set_n_external (n_external_of outs) (see_outputs 0 outs (before_outputs n st)).
Proof.
  intros Hn Ha H. rw /process_outputs in H. run_inv H. destruct a as [info|]; run_inv H.
  match goal with Hb : (if have_nbgl E then _ else _) _ = Val (?x, _) |- _ => rename Hb into Hbefore; destruct x as [st1|]; run_inv H end.
  pose proof (run_keeps later _ _ _ _ Hrun _) as Hl1. assert (later s s0) as Hl2 by (eapply (run_keeps later); [exact Hbefore|solve_keeps]).
  assert (accepted (shown st1) ∧ ∃ n, st1 = before_outputs n st) as (Ha1 & n & ->).
  { rw /before_outputs. destruct (have_nbgl E); run_inv Hbefore; [|by split; [|exists 0]].
    match goal with Hd : read_outputs _ _ _ _ _ true _ = Val (?x, _) |- _ => rename Hd into Hdry; destruct x as [st2|]; run_inv Hbefore end.
    apply read_outputs_dry in Hdry as [n ->]. rw /ask_if in Hbefore. destruct (negb _); cbn [andb]; run_inv Hbefore.
    - apply ask_accepted in Hbefore as [? ->]; [|done]. split; [done|]. by exists n.
    - split; [done|]. by exists n. }
  destruct (before_outputs_same n st) as [Htx Hw].
  apply read_outputs_run in H as (Ha' & outs & Hz & Hall & ->); [|by rw Htx|done]. split; [done|]. exists n, outs. rewrite Htx in Hz. splits; [done| |done].
  intros j x Hx. eapply output_seen_later; [by etrans|]. by eapply output_seen_same; [..|apply Hall].
Qed.
End confirm.
