(* ===== verification/ConfirmInputs.v ===== *)
(** * Signing: what is checked of the inputs

    The pass over the inputs: the total of their amounts, and for the inputs
    that will be signed, that they have the script of the wallet at a derivation,
    and the warnings they need. *)

From S2P Require Import Prelude Bytes Bip32 Buffer Merkle Dispatcher MerkleClient Run Script Crypto RawTx Address PolicySyntax PolicyParser PolicyScript PolicyCheck Psbt HostSample Sighash Sign Derivation SignFlow FlowKeeps Messages Confirm.

(** What is not changed once an input has been checked; the warnings are only
    added. *)
Record checks (st st' : sign_psbt_state) : Prop := {
  checks_tx : st_tx st' = st_tx st;
  checks_wallet : wallet st' = wallet st;
  checks_missing : show_missing_nonwitnessutxo_warning st = true → show_missing_nonwitnessutxo_warning st' = true;
  checks_sighash : show_nondefault_sighash_warning st = true → show_nondefault_sighash_warning st' = true
}.

Global Instance checks_preorder : PreOrder checks.
Proof. split; [by split|]. intros s1 s2 s3 [] []. split; [congruence..|auto|auto]. Qed.

(** What the pass over the inputs does not change. *)
Record preserves (st st' : sign_psbt_state) : Prop := {
  preserves_checks : checks st st';
  preserves_shown : shown st' = shown st
}.

Global Instance preserves_preorder : PreOrder preserves.
Proof. split; [by split|]. intros s1 s2 s3 [] []. split; [by etrans|congruence]. Qed.

Section inputs.
Context (E : env).

#[local] Abbreviation sha256 := (cx_sha256 (os E)).

(** The previous output of an input, as the host has provided it in the run from
    [s0]: in the previous transaction, which has the hash of the outpoint, or as
    a witness UTXO.  The script is the first [n] bytes of [spk]. *)
Definition prevout_seen (s0 : dstate) (input : input_info) (amount : Z) (spk : list Z) (n : Z) : Prop :=
  let o := in_out input in
  if has_nonWitnessUtxo input then
    ∃ len h, 0 ≤ len ∧ ran s0 (get_value (os E) (arr E) (io_map o) PSBT_IN_PREVIOUS_TXID 32) (len, h) ∧
      ran s0 (get_amount_scriptpubkey_from_psbt_nonwitness (os E) (arr E) (uninit E) (io_map o) (scriptPubKey o) (Some h))
        (Some (amount, spk, n))
  else
    ∃ out spk', ran s0 (get_amount_scriptpubkey_from_psbt_witness (os E) (arr E) (io_map o) out) (Some (amount, spk', n)) ∧
      (src ← loads spk' 0 n; stores (scriptPubKey o) 0 src) = Val spk.

Lemma prevout_seen_later s0 s1 input a spk n : later s0 s1 → prevout_seen s1 input a spk n → prevout_seen s0 input a spk n.
Proof.
  rw /prevout_seen. intros Hl. case_match.
  - intros (len & h & ? & H1 & H2). exists len, h. splits; [done|by apply (ran_later _ _ _ _ Hl)..].
  - intros (out & spk' & H1 & H2). exists out, spk'. split; [by apply (ran_later _ _ _ _ Hl)|done].
Qed.

(** The checks of the two kinds of UTXO. *)
Lemma nonwitness_run st input σ st' input' σ' :
  check_nonwitness_utxo E st input σ = Val (Some (st', input'), σ') →
  if has_nonWitnessUtxo input then
    ∃ a spk n, prevout_seen σ input a spk n ∧ st' = add_input_amount a st ∧
      input' = set_prevout_amount a (set_in_out (set_scriptPubKey spk n (in_out input)) input)
  else st' = st ∧ input' = input.
Proof.
  rw /check_nonwitness_utxo. destruct (has_nonWitnessUtxo input) eqn:Hn; cbn [negb]; intros H; run_inv H; [|by simplify_eq].
  destruct a as [len h]. destruct (Z.ltb_spec len 0) as [|Hlen]; run_inv H; [by apply fail_run in H|].
  match goal with Hg : get_amount_scriptpubkey_from_psbt_nonwitness _ _ _ _ _ _ _ = Val (?x, _) |- _ =>
    rename Hg into Hget; destruct x as [[[a spk] n]|]; run_inv H; [|by apply fail_run in H] end.
  simplify_eq. exists a, spk, n. splits; [|done..]. rw /prevout_seen Hn. exists len, h. splits; [done|by eapply ran_here|].
  eapply ran_later; [|by eapply ran_here]. by eapply (run_keeps later); [exact Hrun|apply _].
Qed.

Lemma witness_run st input σ st' input' σ' :
  check_witness_utxo E st input σ = Val (Some (st', input'), σ') →
  if has_nonWitnessUtxo input || negb (has_witnessUtxo input) then st' = st ∧ input' = input
  else
    ∃ a spk n, prevout_seen σ input a spk n ∧ st' = add_input_amount a st ∧
      input' = set_prevout_amount a (set_in_out (set_scriptPubKey spk n (in_out input)) input).
Proof.
  rw /check_witness_utxo. destruct (has_witnessUtxo input); cbn [negb]; intros H; run_inv H; [|rw orb_true_r; by simplify_eq].
  match goal with Hg : get_amount_scriptpubkey_from_psbt_witness _ _ _ _ _ = Val (?x, _) |- _ =>
    rename Hg into Hget; destruct x as [[[a spk] n]|]; run_inv H; [|by apply fail_run in H] end.
  destruct (has_nonWitnessUtxo input) eqn:Hn; cbn [orb]; run_inv H.
  - destruct (_ || _); run_inv H; [by apply fail_run in H|by simplify_eq].
  - simplify_eq. eexists _, _, _. splits; [|reflexivity..]. rw /prevout_seen Hn. eexists _, spk. split; [by eapply ran_here|].
    match goal with Hl : loads _ _ _ = _ |- _ => by rw Hl end.
Qed.

(** ** Inputs of the wallet *)

(** The checks of an input that will be signed: a legacy input has its previous
    transaction, a segwit input has its witness UTXO, a segwit version 0 input
    without its previous transaction needs a warning, and so does a sighash type
    other than the default. *)
Definition input_checked (s0 : dstate) (st : sign_psbt_state) (input : input_info) : Prop :=
  let segwit_version := get_policy_segwit_version (wallet_policy_map (wallet st)) in
  (segwit_version = -1 → has_nonWitnessUtxo input = true) ∧
  (0 ≤ segwit_version → has_witnessUtxo input = true) ∧
  (segwit_version = 0 → has_nonWitnessUtxo input = false → show_missing_nonwitnessutxo_warning st = true) ∧
  (has_sighash_type input = true →
     ∃ t, ran s0 (call_get_merkleized_map_value_u32_le sha256 (arr E 4) (io_map (in_out input)) [PSBT_IN_SIGHASH_TYPE]) (4, t) ∧
       (is_default_sighash segwit_version (default (uninit E) t) = true ∨
        is_nondefault_sighash segwit_version (default (uninit E) t) = true ∧ show_nondefault_sighash_warning st = true)).

Lemma input_checked_preserves s0 s1 st st' input :
  later s0 s1 → checks st st' → input_checked s1 st input → input_checked s0 st' input.
Proof.
  intros Hl [_ Hw Hm Hs] (H1 & H2 & H3 & H4). rw /input_checked Hw. splits; [done|done|auto|].
  intros Hh. destruct (H4 Hh) as (t & Hr & Ht). exists t. split; [by apply (ran_later _ _ _ _ Hl)|]. naive_solver.
Qed.

Lemma internal_input_run st input i σ st' σ' :
  check_internal_input E st input i σ = Val (Some st', σ') →
  preserves st st' ∧ inputs_total_amount st' = inputs_total_amount st ∧ input_checked σ st' input.
Proof.
  rw /check_internal_input. set (v := get_policy_segwit_version _). intros H.
  destruct ((v =? -1) && negb (has_nonWitnessUtxo input)) eqn:H1; run_inv H; [by apply fail_run in H|].
  set (st1 := if (_ && _)%bool then set_missing_warning st else st) in *.
  destruct ((0 <=? v) && negb (has_witnessUtxo input)) eqn:H2; run_inv H; [by apply fail_run in H|].
  assert (preserves st st1 ∧ inputs_total_amount st1 = inputs_total_amount st) as [Hp Ha].
  { unfold st1. clear. destruct ((v =? 0) && _); (split; [by split|done]). }
  assert (∀ st2, preserves st1 st2 → inputs_total_amount st2 = inputs_total_amount st1 →
    (has_sighash_type input = true →
       ∃ t, ran σ (call_get_merkleized_map_value_u32_le sha256 (arr E 4) (io_map (in_out input)) [PSBT_IN_SIGHASH_TYPE]) (4, t) ∧
         (is_default_sighash v (default (uninit E) t) = true ∨
          is_nondefault_sighash v (default (uninit E) t) = true ∧ show_nondefault_sighash_warning st2 = true)) →
    preserves st st2 ∧ inputs_total_amount st2 = inputs_total_amount st ∧ input_checked σ st2 input) as Hok.
  { intros st2 Hp2 Ha2 Ht. pose proof (transitivity Hp Hp2) as Hp12. splits; [done|congruence|].
    rw /input_checked (checks_wallet _ _ (preserves_checks _ _ Hp12)). fold v. splits; [| | |done].
    - intros ->. by destruct (has_nonWitnessUtxo input).
    - intros Hv. rewrite (proj2 (Z.leb_le _ _) Hv) in H2. by destruct (has_witnessUtxo input).
    - intros -> Hn. apply (checks_missing _ _ (preserves_checks _ _ Hp2)). unfold st1. by rw Hn. }
  destruct (has_sighash_type input); cbn [negb] in H; run_inv H; [|simplify_eq; by apply Hok].
  destruct a as [len t]. destruct (Z.eqb_spec len 4) as [-> |]; cbn [negb] in H; run_inv H; [|by apply fail_run in H].
  destruct (is_default_sighash _ _) eqn:Hd; run_inv H; [|destruct (is_nondefault_sighash _ _) eqn:Hnd; run_inv H; [|by apply fail_run in H]].
  all: run_if H; [by apply fail_run in H|]; simplify_eq; apply Hok; try done.
  all: intros _; exists t; split; [by eapply ran_here|]; auto.
Qed.

(** An input that will be signed: its previous output has the script of the
    wallet at the derivation of the PSBT. *)
Definition wallet_input (s0 : dstate) (st : sign_psbt_state) (i : Z) : Prop :=
  ∃ info input amount spk n script,
    ran s0 (read_input_map E st info i) (Some input) ∧ prevout_seen s0 input amount spk n ∧
    loads spk 0 n = Val script ∧ wallet_script_at E s0 (wallet st) (is_change (in_out input)) (address_index (in_out input)) script ∧
    input_checked s0 st input.

(** An input of the transaction, with its amount. *)
Definition input_seen (s0 : dstate) (st : sign_psbt_state) (i a : Z) : Prop :=
  ∃ info input spk n, ran s0 (read_input_map E st info i) (Some input) ∧ prevout_seen s0 input a spk n.

(** Both checks: the amount is counted once. *)
Lemma utxo_run st input σ st1 input1 σ1 st' input' σ' :
  negb (has_nonWitnessUtxo input) && negb (has_witnessUtxo input) = false →
  check_nonwitness_utxo E st input σ = Val (Some (st1, input1), σ1) →
  check_witness_utxo E st1 input1 σ1 = Val (Some (st', input'), σ') →
  later σ σ' ∧ ∃ a spk n, prevout_seen σ input a spk n ∧ st' = add_input_amount a st ∧
    input' = set_prevout_amount a (set_in_out (set_scriptPubKey spk n (in_out input)) input).
Proof.
  intros Hone H1 H2. pose proof (run_keeps later _ _ _ _ H1 _) as Hl1. pose proof (run_keeps later _ _ _ _ H2 _) as Hl2.
  split; [by etrans|]. apply nonwitness_run in H1. apply witness_run in H2. destruct (has_nonWitnessUtxo input) eqn:Hn.
  - destruct H1 as (a & spk & n & Hs & -> & ->). cbn in H2. rewrite Hn in H2. cbn in H2. destruct H2 as [-> ->]. by exists a, spk, n.
  - destruct H1 as [-> ->]. rewrite Hn in H2. destruct (has_witnessUtxo input); [|done]. cbn in H2.
    destruct H2 as (a & spk & n & Hs & -> & ->). exists a, spk, n. splits; [|done..]. by eapply prevout_seen_later.
Qed.

Lemma preprocess_input_run info st l i σ st' l' σ' :
  0 ≤ i → preprocess_input E info st l i σ = Val (Some (st', l'), σ') →
  later σ σ' ∧ preserves st st' ∧
  (∃ a, input_seen σ st i a ∧ inputs_total_amount st' = u64 (inputs_total_amount st + a)) ∧
  ∀ j, 0 ≤ j → bitvector_get l' j = Val true → bitvector_get l j = Val true ∨ j = i ∧ wallet_input σ st' i.
Proof.
  intros Hi H. pose proof (run_keeps later _ _ _ _ H _) as Hl. split; [done|]. rw /preprocess_input in H. run_inv H.
  match goal with Hm : read_input_map _ _ _ _ _ = Val (?x, _) |- _ => rename Hm into Hmap; destruct x as [input|]; run_inv H; [|by apply fail_run in H] end.
  run_if H; [by apply fail_run in H|].
  match type of H with (if ?b then _ else _) _ = _ => destruct b eqn:Hone; run_inv H; [by apply fail_run in H|] end.
  match goal with Hm : check_nonwitness_utxo _ _ _ _ = Val (?x, _) |- _ => rename Hm into Hnw; destruct x as [[st1 input1]|]; run_inv H end.
  match goal with Hm : check_witness_utxo _ _ _ _ = Val (?x, _) |- _ => rename Hm into Hw; destruct x as [[st2 input2]|]; run_inv H end.
  pose proof (run_keeps later _ _ _ _ Hmap _) as Hl1. destruct (utxo_run _ _ _ _ _ _ _ _ _ Hone Hnw Hw) as (Hl2 & a' & spk & n & Hs & -> & ->).
  pose proof (transitivity Hl1 Hl2) as Hl12. apply (prevout_seen_later _ _ _ _ _ _ Hl1) in Hs.
  assert (input_seen σ st i a') as Hseen by (exists info, input, spk, n; split; [by eapply ran_here|done]).
  destruct (Z.ltb_spec a 0); run_inv H; [by apply fail_run in H|]. destruct (Z.eqb_spec a 0) as [-> |]; run_inv H.
  - simplify_eq. splits; [split; [by split|done]|by exists a'|]. intros j _ ?. by left.
  - match goal with Hc : check_internal_input _ _ _ _ _ = Val (?x, _) |- _ => rename Hc into Hint; destruct x as [st3|]; [|done] end. simplify_eq/=.
    pose proof (run_keeps later _ _ _ _ Hrun _) as Hl3. apply internal_input_run in Hint as (Hp & Ha & Hc). pose proof Hp as [[Htx Hwl _ _] _].
    splits; [etrans; [|exact Hp]; split; [by split|done]|exists a'; split; [done|exact Ha]|]. intros j Hj Hb.
    match goal with Hb' : bitvector_set _ _ _ = _ |- _ => rewrite (bitvector_set_get _ _ _ _ _ Hi Hj Hb') in Hb end.
    case_decide as Hji; [|by left]. subst j. right. split; [done|].
    apply internal_run in Hrun as [? | (_ & script & Hsc & Hws)]; [lia|].
    exists info, input, a', spk, n, script. splits.
    + rw /read_input_map Htx. by eapply ran_here.
    + done.
    + done.
    + rw Hwl. by apply (ran_later _ _ _ _ Hl12).
    + eapply input_checked_preserves; [exact (transitivity Hl12 Hl3)|reflexivity|exact Hc].
Qed.

(** ** The pass over the inputs *)
Lemma wallet_input_preserves s0 s1 st st' i : later s0 s1 → checks st st' → wallet_input s1 st i → wallet_input s0 st' i.
Proof.
  intros Hl Hp (info & input & a & spk & n & script & H1 & H2 & H3 & H4 & H5). exists info, input, a, spk, n, script.
  pose proof Hp as [Htx Hw _ _]. splits.
  - rw /read_input_map Htx. by apply (ran_later _ _ _ _ Hl).
  - by eapply prevout_seen_later.
  - done.
  - rw Hw. by apply (ran_later _ _ _ _ Hl).
  - by eapply input_checked_preserves.
Qed.

Lemma input_seen_later s0 s1 st st' i a : later s0 s1 → st_tx st' = st_tx st → input_seen s1 st i a → input_seen s0 st' i a.
Proof.
  intros Hl Htx (info & input & spk & n & H1 & H2). exists info, input, spk, n. rw /read_input_map Htx.
  split; [by apply (ran_later _ _ _ _ Hl)|by eapply prevout_seen_later].
Qed.

Lemma preprocess_loop_run fuel info st l i σ st' l' σ' :
  0 ≤ i ≤ tx_n_inputs (st_tx st) → preprocess_loop E fuel info st l i σ = Val (Some (st', l'), σ') →
  later σ σ' ∧ preserves st st' ∧
  (∃ amounts, zlen amounts = tx_n_inputs (st_tx st) - i ∧ all_at (input_seen σ st) i amounts ∧
     inputs_total_amount st' = sum64 (inputs_total_amount st) amounts) ∧
  ∀ j, 0 ≤ j → bitvector_get l' j = Val true → bitvector_get l j = Val true ∨ wallet_input σ st' j.
Proof.
  revert st l i σ. induction fuel as [|fuel IH]; intros st l i σ Hi H; [done|]. cbn [preprocess_loop] in H.
  destruct (Z.ltb_spec i (tx_n_inputs (st_tx st))); run_inv H.
  - match goal with Hr : preprocess_input _ _ _ _ _ _ = Val (?x, _) |- _ => rename Hr into Hone; destruct x as [[st1 l1]|]; run_inv H end.
    apply preprocess_input_run in Hone as (Hl1 & Hp1 & (a & Hs & Ha) & Hb1); [|lia]. pose proof (checks_tx _ _ (preserves_checks _ _ Hp1)) as Htx.
    apply IH in H as (Hl2 & Hp2 & (amounts & Hz & Hall & Hsum) & Hb2); [|rw Htx; lia]. rewrite Htx in Hz.
    splits; [by etrans|by etrans| |].
    + exists (a :: amounts). splits; [rw zlen_cons; lia| |by rw Hsum Ha].
      eapply all_at_cons; [done|exact Hall|]. intros j x. by apply input_seen_later.
    + intros j Hj Hb. destruct (Hb2 j Hj Hb) as [Hb' | Hw]; [|right; eapply wallet_input_preserves; [exact Hl1|reflexivity|done]].
      destruct (Hb1 j Hj Hb') as [? | [-> Hw]]; [by left|right]. eapply wallet_input_preserves; [reflexivity|exact (preserves_checks _ _ Hp2)|done].
  - splits; [done|done| |by left]. exists []. splits; [rw zlen_nil; lia|apply all_at_nil|done].
Qed.

Lemma bitvector_zeros n i : bitvector_get (replicate n 0) i ≠ Val true.
Proof.
  rw /bitvector_get. intros H. apply outcome_bind_Val in H as (b & Hb & H). apply load_Val in Hb as [_ Hb].
  apply lookup_replicate in Hb as [-> _]. by rewrite Z.shiftr_0_l in H.
Qed.

Lemma preprocess_inputs_run st σ st' l' σ' :
  0 ≤ tx_n_inputs (st_tx st) → preprocess_inputs E st σ = Val (Some (st', l'), σ') →
  later σ σ' ∧ preserves st st' ∧
  (∃ amounts, zlen amounts = tx_n_inputs (st_tx st) ∧ all_at (input_seen σ st) 0 amounts ∧
     inputs_total_amount st' = sum64 (inputs_total_amount st) amounts) ∧
  ∀ j, 0 ≤ j → bitvector_get l' j = Val true → wallet_input σ st' j.
Proof.
  intros Hn H. pose proof (run_keeps later _ _ _ _ H _) as Hl. split; [done|]. rw /preprocess_inputs in H. run_inv H.
  destruct a as [info|]; run_inv H. pose proof (run_keeps later _ _ _ _ Hrun _) as Hl1.
  apply preprocess_loop_run in H as (_ & Hp & (amounts & Hz & Hall & Hsum) & Hb); [|lia]. rewrite Z.sub_0_r in Hz. splits; [done|..].
  - exists amounts. splits; [done| |done]. intros j x Hx. eapply input_seen_later; [done..|by apply Hall].
  - intros j Hj Hbit. destruct (Hb j Hj Hbit) as [Hz' | Hw]; [by apply bitvector_zeros in Hz'|]. eapply wallet_input_preserves; [exact Hl1|reflexivity|done].
Qed.
End inputs.
