(* ===== verification/Signatures.v ===== *)
(** * Signing: the signatures that are sent

    Every message of [sign_transaction] that carries a signature carries the
    signature of a digest that was computed for an input of the wallet, with the
    key at the derivation of this input. *)

From S2P Require Import Prelude Bytes Bip32 Buffer Merkle Dispatcher MerkleClient Run Script Crypto RawTx Address PolicySyntax PolicyParser PolicyScript PolicyCheck Psbt HostSample Sighash Sign Derivation SignFlow FlowKeeps Messages Confirm.

(** In a run from [s0], the messages between two states are silent or have the
    property [Q]. *)
Definition during (s0 : dstate) (Q : list Z → Prop) (st st' : dstate) : Prop :=
  later s0 st → later s0 st' ∧ sends (λ m, silent m ∨ Q m) st st'.

Global Instance during_preorder s0 Q : PreOrder (during s0 Q).
Proof.
  split; [done|]. intros s1 s2 s3 H1 H2 Hl. destruct (H1 Hl) as [Hl2 Hs1]. destruct (H2 Hl2) as [Hl3 Hs2]. split; [done|by etrans].
Qed.

Lemma during_quiet s0 Q st st' : later st st' → quiet st st' → during s0 Q st st'.
Proof. intros Hl Hq H. split; [by etrans|]. eapply quiet_sends; [|done]. by left. Qed.

Lemma keeps_during s0 Q {A} (m : io A) : Keeps later m → Keeps quiet m → Keeps (during s0 Q) m.
Proof. intros H1 H2 st a st' H. apply during_quiet; [by eapply H1|by eapply H2]. Qed.

Global Instance during_protocol s0 Q : Protocol (during s0 Q).
Proof. split; [apply _|..]; intros; apply keeps_during; apply _. Qed.

Lemma during_mono s0 (Q Q' : list Z → Prop) st st' : (∀ m, Q m → Q' m) → during s0 Q st st' → during s0 Q' st st'.
Proof.
  intros HQ H Hl. destruct (H Hl) as [Hl' Hs]. split; [done|]. intros Hr. destruct (Hs Hr) as [Hr' (l & Ht & Hf)]. split; [done|].
  exists l. split; [done|]. eapply Forall_impl; [done|]. naive_solver.
Qed.

Section signatures.
Context (E : env) (Harr : ∀ n, 0 ≤ n → zlen (arr E n) = n).

#[local] Abbreviation sha256 := (cx_sha256 (os E)).

(** ** The messages *)

(** An ECDSA signature of the digest [d] for input [i]. *)
Definition ecdsa_message (w : wallet_state) (info : placeholder_info) (input : input_info) (i : Z) (d m : list Z) : Prop :=
  ∃ path der pubkey parity,
    get_sign_path (uninit E) info input = Val path ∧
    crypto_ecdsa_sign_sha256_hash_with_key (keys E) path d true = Some (der, Some pubkey, parity) ∧
    m = yield_message (protocol_version w) i pubkey None (der ++ [Z.land (sighash_type input) 0xFF]).

(** A Schnorr signature of the digest [d] for input [i]. *)
Definition schnorr_message (w : wallet_state) (info : placeholder_info) (input : input_info) (i : Z) (d m : list Z) : Prop :=
  ∃ flags kp tree path seckey pubkey sig,
    let key := taproot_seckey (os E) (tweak_left E) tree info input seckey in
    let sighash_byte := Z.land (sighash_type input) 0xFF in
    wallet_policy_map w = policy_node_tr TOKEN_TR flags kp tree ∧
    get_sign_path (uninit E) info input = Val path ∧ bip32_derive_init_privkey_256 (keys E) path = Some seckey ∧
    cx_ecfp_generate_pair (keys E) key = Some pubkey ∧ cx_ecschnorr_sign (keys E) key d = Some sig ∧
    m = yield_message (protocol_version w) i (slice pubkey 1 32) (if is_tapscript info then Some (tapleaf_hash info) else None)
          (sig ++ if sighash_byte =? 0 then [] else [sighash_byte]).

Lemma yield_during s0 w i pubkey tap sig st b st' :
  0 ≤ i < 2 ^ 64 → zlen pubkey ≤ 65 → zlen (default [] tap) ≤ 32 → zlen sig ≤ 73 →
  yield_signature (arr E) w i pubkey tap sig st = Val (b, st') →
  during s0 (λ m, m = yield_message (protocol_version w) i pubkey tap sig) st st'.
Proof.
  intros Hi Hp Ht Hs H Hl. split.
  - etrans; [done|]. eapply (run_keeps later); [exact H|]. rw /yield_signature /add_to_response /finalize_response. solve_keeps.
  - intros Hr. apply yield_run in H as [Hr' (l & Htx & Hf)]; [|done..]. split; [done|]. eexists. split; [done|]. constructor; [by right|].
    eapply Forall_impl; [done|]. by left.
Qed.

Lemma slice_le l i n : 0 ≤ n → zlen (slice l i n) ≤ n.
Proof. intros Hn. rw /slice /zlen length_take. lia. Qed.

Lemma compressed_pubkey_le W k : crypto_get_compressed_pubkey W = Some k → zlen k ≤ 65.
Proof.
  rw /crypto_get_compressed_pubkey. destruct (negb _); [done|]. intros [= <-]. rw zlen_cons. pose proof (slice_le W 1 32). lia.
Qed.

(** A value that is stored in an array, and a byte after it. *)
Lemma stores_snoc m l b m1 m2 r :
  stores m 0 l = Val m1 → stores m1 (zlen l) [b] = Val m2 → loads m2 0 (zlen l + 1) = Val r → r = l ++ [b] ∧ zlen r ≤ zlen m.
Proof.
  intros H1 H2 H3. pose proof (stores_length _ _ _ _ H1) as Hz1. pose proof (stores_length _ _ _ _ H2) as Hz2.
  apply loads_Val in H3 as (_ & _ & Hle & Hr). rewrite /stores in H1, H2. case_decide; [|done]. case_decide; [|done].
  injection H1 as <-. injection H2 as <-.
  rewrite drop_0 (zlen_length l) take_app_length cons_middle app_assoc take_app_length' in Hr; [|rw length_app /zlen /=; lia]. subst r. split; [done|]. rw zlen_app zlen_cons zlen_nil. lia.
Qed.

Lemma ecdsa_during s0 w info input i d st b st' :
  0 ≤ i < 2 ^ 64 → sign_sighash_ecdsa_and_yield (keys E) (arr E) (uninit E) w info input i d st = Val (b, st') →
  during s0 (ecdsa_message w info input i d) st st'.
Proof.
  intros Hi H. rw /sign_sighash_ecdsa_and_yield in H. run_inv H. rename Hrun into Hpath.
  destruct (crypto_ecdsa_sign_sha256_hash_with_key _ _ _ _) as [[[der [pubkey|]] parity]|] eqn:Hsig; run_inv H.
  2,3: by eapply (run_keeps (during s0 _)); [exact H|apply _].
  match goal with H1 : stores _ 0 der = _, H2 : stores _ (zlen der) _ = _, H3 : loads _ _ _ = _ |- _ =>
    destruct (stores_snoc _ _ _ _ _ _ H1 H2 H3) as [-> Hz] end. rewrite Harr in Hz; [|done].
  eapply during_mono; [|eapply (yield_during s0 w i pubkey None); [done| |done| |exact H]].
  - intros m ->. by exists a, der, pubkey, parity.
  - rw /crypto_ecdsa_sign_sha256_hash_with_key in Hsig. apply bind_Some in Hsig as (k & _ & Hsig).
    apply bind_Some in Hsig as ([out j] & _ & Hsig). apply bind_Some in Hsig as (p & Hp & [= -> -> ->]).
    apply bind_Some in Hp as (W & _ & Hp). apply fmap_Some in Hp as (k' & Hp & [= ->]). by eapply compressed_pubkey_le.
  - exact Hz.
Qed.

(** The Schnorr signature, and the byte of a sighash type other than the default. *)
Lemma schnorr_sig m l b m1 r :
  stores m 0 l = Val m1 → zlen l = 64 →
  (if negb (b =? 0x00) then m2 ← stores m1 64 [b]; loads m2 0 65 else loads m1 0 64) = Val r →
  r = l ++ (if b =? 0 then [] else [b]) ∧ zlen r ≤ 65.
Proof.
  intros H1 Hl H. destruct (b =? 0); cbn [negb] in H.
  - apply loads_Val in H as (_ & _ & _ & ->). rewrite /stores in H1. case_decide; [|done]. injection H1 as <-.
    rw drop_0 app_nil_r -Hl zlen_length take_app_length. split; [done|lia].
  - inv_bind H. rewrite -Hl in Ha. replace 65 with (zlen l + 1) in H by lia. destruct (stores_snoc _ _ _ _ _ _ H1 Ha H) as [-> _].
    split; [done|]. rw zlen_app zlen_cons zlen_nil. lia.
Qed.

Lemma schnorr_during s0 w info input i d st b st' :
  0 ≤ i < 2 ^ 64 → zlen (tapleaf_hash info) ≤ 32 →
  sign_sighash_schnorr_and_yield (os E) (keys E) (arr E) (uninit E) (tweak_left E) w info input i d st = Val (b, st') →
  during s0 (schnorr_message w info input i d) st st'.
Proof.
  intros Hi Htap H. rw /sign_sighash_schnorr_and_yield in H.
  destruct (wallet_policy_map w) as [| | | | | | | | | |[] fl kp tree] eqn:Hpol;
    try (by eapply (run_keeps (during s0 _)); [exact H|apply _]).
  run_inv H. match type of H with (match ?r with _ => _ end) _ = _ => destruct r as [[pubkey sig]|] eqn:Hr; run_inv H end;
    [|by eapply (run_keeps (during s0 _)); [exact H|apply _]].
  apply bind_Some in Hr as (seckey & Hsk & Hr). apply bind_Some in Hr as (pk & Hpk & Hr). apply bind_Some in Hr as (sg & Hsg & [= -> ->]).
  destruct (Z.eqb_spec (zlen sig) 64) as [Hz|]; cbn [negb] in H; run_inv H; [|by eapply (run_keeps (during s0 _)); [exact H|apply _]].
  match goal with H1 : stores _ 0 sig = _, H2 : (if _ then _ else _) = _ |- _ => destruct (schnorr_sig _ _ _ _ _ H1 Hz H2) as [-> Hl] end.
  match goal with H1 : loads pubkey _ _ = _ |- _ => apply loads_Val in H1 as (_ & _ & _ & ->) end.
  eapply during_mono; [|eapply (yield_during s0); [done| | | |exact H]].
  - intros m ->. by exists fl, kp, tree, a, seckey, pubkey, sig.
  - pose proof (slice_le pubkey 1 32) as Hle. unfold slice in Hle. lia.
  - by destruct (is_tapscript info).
  - lia.
Qed.

(** ** Signing an input *)

(** The input that is signed is the one of the map, with more fields filled in. *)
Definition continues (input input' : input_info) : Prop :=
  io_map (in_out input') = io_map (in_out input) ∧ is_change (in_out input') = is_change (in_out input) ∧
  address_index (in_out input') = address_index (in_out input).

Lemma continues_trans i1 i2 i3 : continues i1 i2 → continues i2 i3 → continues i1 i3.
Proof. rw /continues. intros (? & ? & ?) (? & ? & ?). splits; congruence. Qed.

Lemma continues_default t input : continues input (default_sighash_type t input).
Proof. rw /default_sighash_type. by case_match. Qed.

(** The signature of an input without a witness UTXO: the script is the one of
    the output of the previous transaction, and the digest the legacy one. *)
Definition legacy_signature (s0 : dstate) (w : wallet_state) (tx : psbt_tx) (info : placeholder_info) (input : input_info)
    (i : Z) (m : list Z) : Prop :=
  ∃ amount spk n d,
    let input' := default_sighash_type SIGHASH_ALL (set_in_out (set_scriptPubKey spk n (in_out input)) input) in
    ran s0 (get_amount_scriptpubkey_from_psbt_nonwitness (os E) (arr E) (uninit E) (io_map (in_out input)) (scriptPubKey (in_out input)) None)
      (Some (amount, spk, n)) ∧
    ran s0 (compute_sighash_legacy (os E) (arr E) tx input' i) (Some d) ∧ ecdsa_message w info input' i d m.

(** The signature of an input with a witness UTXO, whose script is in [input]:
    the digest is the one of BIP-143 for a policy of segwit version 0, and the
    one of BIP-341 for version 1. *)
Definition segwit_signature (s0 : dstate) (w : wallet_state) (tx : psbt_tx) (hashes : segwit_hashes) (info : placeholder_info)
    (input : input_info) (i : Z) (m : list Z) : Prop :=
  let version := get_policy_segwit_version (wallet_policy_map w) in
  version = 0 ∧
  (∃ d, let input' := default_sighash_type SIGHASH_ALL input in
    ran s0 (compute_sighash_segwitv0 (os E) (arr E) tx hashes input' i) (Some d) ∧ ecdsa_message w info input' i d m) ∨
  version = 1 ∧
  (∃ d input'', let input' := default_sighash_type SIGHASH_DEFAULT input in
    ran s0 (compute_sighash_segwitv1 (os E) (arr E) tx hashes input' i info) (Some d) ∧
    ran s0 (fill_taptree_hash (os E) (jk E) w info input') (Some input'') ∧ schnorr_message w info input'' i d m).

(** The message [m] carries a signature for input [i], of the digest for the
    type of the input, with the key of the placeholder. *)
Definition signature (s0 : dstate) (w : wallet_state) (tx : psbt_tx) (hashes : segwit_hashes) (info : placeholder_info)
    (input : input_info) (i : Z) (m : list Z) : Prop :=
  ∃ input1, ran s0 (read_sighash_type (os E) (arr E) (uninit E) input) (Some input1) ∧ continues input input1 ∧
    if has_witnessUtxo input then
      ∃ input2, ran s0 (fetch_segwit_script (os E) (arr E) input1) (Some input2) ∧ continues input1 input2 ∧
        segwit_signature s0 w tx hashes info input2 i m
    else legacy_signature s0 w tx info input1 i m.

(** A part of the run that sends no signature. *)
Ltac silent_part H := eapply (run_keeps (during _ _)); [exact H|solve_keeps].

Lemma sign_legacy_during s0 w tx info input i st b st' :
  later s0 st → 0 ≤ i < 2 ^ 64 →
  sign_legacy_input (os E) (keys E) (arr E) (uninit E) w tx info input i st = Val (b, st') →
  during s0 (legacy_signature s0 w tx info input i) st st'.
Proof.
  intros Hl Hi H. rw /sign_legacy_input in H. run_inv H.
  match goal with Hg : get_amount_scriptpubkey_from_psbt_nonwitness _ _ _ _ _ _ _ = Val (?x, _) |- _ =>
    rename Hg into Hget; destruct x as [[[amt spk] n]|]; run_inv H end.
  2:{ etrans; [silent_part Hget|silent_part H]. }
  match goal with Hg : compute_sighash_legacy _ _ _ _ _ _ = Val (?x, _) |- _ => rename Hg into Hd; destruct x as [d|]; run_inv H end.
  2:{ etrans; [silent_part Hget|silent_part Hd]. }
  etrans; [silent_part Hget|]. etrans; [silent_part Hd|]. eapply during_mono; [|by eapply ecdsa_during].
  intros m Hm. exists amt, spk, n, d. cbv zeta. splits; [| |exact Hm].
  - eapply ran_later; [exact Hl|by eapply ran_here].
  - eapply ran_later; [|by eapply ran_here]. etrans; [exact Hl|]. eapply (run_keeps later); [exact Hget|apply _].
Qed.

Lemma fetch_script_continues input st input' st' :
  fetch_segwit_script (os E) (arr E) input st = Val (Some input', st') → continues input input'.
Proof.
  rw /fetch_segwit_script. intros H. run_inv H. destruct a as [[[amt spk] n]|]; run_inv H; [|by apply fail_run in H].
  destruct (has_redeemScript _); run_inv H; [|by simplify_eq]. destruct a as [len redeem]. run_if H; [by apply fail_run in H|].
  run_if H; [by apply fail_run in H|]. by simplify_eq.
Qed.

Lemma read_sighash_continues input st input' st' :
  read_sighash_type (os E) (arr E) (uninit E) input st = Val (Some input', st') → continues input input'.
Proof.
  rw /read_sighash_type. intros H. destruct (has_sighash_type input); run_inv H; [|by simplify_eq]. destruct a as [len t].
  run_if H; [by apply fail_run in H|]. by simplify_eq.
Qed.

Lemma sign_segwit_during s0 w tx hashes info input i st b st' :
  later s0 st → 0 ≤ i < 2 ^ 64 → zlen (tapleaf_hash info) ≤ 32 →
  sign_segwit_input (os E) (keys E) (jk E) (arr E) (uninit E) (tweak_left E) w tx hashes info input i st = Val (b, st') →
  during s0 (λ m, ∃ input2, ran s0 (fetch_segwit_script (os E) (arr E) input) (Some input2) ∧ continues input input2 ∧
    segwit_signature s0 w tx hashes info input2 i m) st st'.
Proof.
  intros Hl Hi Ht H. rw /sign_segwit_input in H. run_inv H.
  match goal with Hg : fetch_segwit_script _ _ _ _ = Val (?x, ?s) |- _ => rename Hg into Hget; destruct x as [input1|]; run_inv H;
    [assert (later s0 s) as Hl1 by (etrans; [exact Hl|eapply (run_keeps later); [exact Hget|apply _]])|silent_part Hget] end.
  etrans; [silent_part Hget|]. pose proof (ran_later _ _ _ _ Hl (ran_here _ _ _ _ Hget)) as Hfetch. apply fetch_script_continues in Hget.
  match goal with |- during _ _ ?s1 ?s2 => cut (during s0 (segwit_signature s0 w tx hashes info input1 i) s1 s2) end.
  { apply during_mono. intros m Hm. by exists input1. }
  destruct (Z.eqb_spec (get_policy_segwit_version (wallet_policy_map w)) 0) as [Hv|_]; [run_inv H|
  destruct (Z.eqb_spec (get_policy_segwit_version (wallet_policy_map w)) 1) as [Hv|_]; [run_inv H|silent_part H]].
  - match goal with Hg : compute_sighash_segwitv0 _ _ _ _ _ _ _ = Val (?x, _) |- _ => rename Hg into Hd; destruct x as [d|]; run_inv H; [|silent_part Hd] end.
    etrans; [silent_part Hd|]. eapply during_mono; [|by eapply ecdsa_during]. intros m Hm. left. split; [done|]. exists d.
    split; [|exact Hm]. eapply ran_later; [exact Hl1|by eapply ran_here].
  - match goal with Hg : compute_sighash_segwitv1 _ _ _ _ _ _ _ _ = Val (?x, ?s) |- _ => rename Hg into Hd; destruct x as [d|]; run_inv H;
      [assert (later s0 s) as Hl2 by (etrans; [exact Hl1|eapply (run_keeps later); [exact Hd|apply _]])|silent_part Hd] end.
    match goal with Hg : fill_taptree_hash _ _ _ _ _ _ = Val (?x, _) |- _ => rename Hg into Hf; destruct x as [input2|]; run_inv H end.
    2:{ etrans; [silent_part Hd|silent_part Hf]. }
    etrans; [silent_part Hd|]. etrans; [silent_part Hf|]. eapply during_mono; [|by eapply schnorr_during]. intros m Hm. right.
    split; [done|]. exists d, input2. cbv zeta. splits; [eapply ran_later; [exact Hl1|by eapply ran_here]| |exact Hm].
    eapply ran_later; [exact Hl2|by eapply ran_here].
Qed.

Lemma read_sighash_utxo input st input' st' :
  read_sighash_type (os E) (arr E) (uninit E) input st = Val (Some input', st') → has_witnessUtxo input' = has_witnessUtxo input.
Proof.
  rw /read_sighash_type. intros H. destruct (has_sighash_type input); run_inv H; [|by simplify_eq]. destruct a as [len t].
  run_if H; [by apply fail_run in H|]. by simplify_eq.
Qed.

Lemma sign_input_during s0 w tx hashes info input i st b st' :
  later s0 st → 0 ≤ i < 2 ^ 64 → zlen (tapleaf_hash info) ≤ 32 →
  sign_transaction_input (os E) (keys E) (jk E) (arr E) (uninit E) (tweak_left E) w tx hashes info input i st = Val (b, st') →
  during s0 (signature s0 w tx hashes info input i) st st'.
Proof.
  intros Hl Hi Ht H. rw /sign_transaction_input in H. run_inv H.
  match goal with Hg : read_sighash_type _ _ _ _ _ = Val (?x, ?s) |- _ => rename Hg into Hget; destruct x as [input1|]; run_inv H;
    [assert (later s0 s) as Hl1 by (etrans; [exact Hl|eapply (run_keeps later); [exact Hget|apply _]])|silent_part Hget] end.
  etrans; [silent_part Hget|]. pose proof (ran_later _ _ _ _ Hl (ran_here _ _ _ _ Hget)) as Hread.
  pose proof (read_sighash_utxo _ _ _ _ Hget) as Hw. apply read_sighash_continues in Hget. rewrite Hw in H.
  rw /signature. destruct (has_witnessUtxo input); cbn [negb] in H; run_inv H.
  - eapply during_mono; [|by eapply sign_segwit_during]. intros m Hm. by exists input1.
  - eapply during_mono; [|by eapply sign_legacy_during]. intros m Hm. by exists input1.
Qed.

(** ** Signing the transaction *)

(** The same key, perhaps with the hash of another tapleaf. *)
Definition same_key (info info' : placeholder_info) : Prop :=
  placeholder info' = placeholder info ∧ key_derivation_length info' = key_derivation_length info ∧
  key_derivation info' = key_derivation info ∧ is_tapscript info' = is_tapscript info.

Lemma same_key_trans i1 i2 i3 : same_key i1 i2 → same_key i2 i3 → same_key i1 i3.
Proof. rw /same_key. intros (? & ? & ? & ?) (? & ? & ? & ?). splits; congruence. Qed.

(** The message [m] carries a signature for an input of the wallet, with a key
    of the device: the placeholder [info0] of the policy has the key of the
    device at the derivation of [info1], and the hash of the tapleaf is computed
    for the input. *)
Definition input_signature (s0 : dstate) (st : sign_psbt_state) (hashes : segwit_hashes) (internal_inputs : list Z)
    (tapleaf : option policy_node) (info1 : placeholder_info) (m : list Z) : Prop :=
  ∃ i info2 info input,
    0 ≤ i < tx_n_inputs (st_tx st) ∧ bitvector_get internal_inputs i = Val true ∧
    same_key info1 info2 ∧ ran s0 (read_input_map E st info2 i) (Some input) ∧
    match tapleaf with
    | None => info = info2
    | Some leaf => ran s0 (fill_taproot_placeholder_info (os E) (jk E) (wallet st) input leaf info2) (Some info)
    end ∧
    signature s0 (wallet st) (st_tx st) hashes info input i m.

Context (sha256_length : ∀ x, zlen (sha256 x) = 32).

Lemma tapleaf_hash_run wdi leaf st h st' : compute_tapleaf_hash (os E) (jk E) wdi leaf st = Val (Some h, st') → zlen h = 32.
Proof.
  rw /compute_tapleaf_hash. intros H. run_inv H. destruct a as [n ctx]. run_if H. destruct a0 as [r c]. run_if H.
  destruct c; cbn in *; simplify_eq. apply sha256_length.
Qed.

Lemma fill_tapleaf_run w input leaf info st info' st' :
  fill_taproot_placeholder_info (os E) (jk E) w input leaf info st = Val (Some info', st') →
  same_key info info' ∧ zlen (tapleaf_hash info') ≤ 32.
Proof.
  rw /fill_taproot_placeholder_info. intros H. run_inv H. destruct a as [h|]; [|done]. simplify_eq/=.
  apply tapleaf_hash_run in Hrun. split; [done|]. cbn. lia.
Qed.

Lemma sign_inputs_during s0 n st hashes l tapleaf info1 info i σ b σ' :
  0 ≤ i → i + Z.of_nat n ≤ tx_n_inputs (st_tx st) ≤ MAX_N_INPUTS_CAN_SIGN →
  later s0 σ → same_key info1 info → zlen (tapleaf_hash info) ≤ 32 →
  sign_inputs_loop E n st hashes l tapleaf info i σ = Val (b, σ') →
  during s0 (input_signature s0 st hashes l tapleaf info1) σ σ'.
Proof.
  unfold MAX_N_INPUTS_CAN_SIGN. revert info i σ. induction n as [|n IH]; intros info i σ Hi Hn Hl Hk Ht H; cbn [sign_inputs_loop] in H; run_inv H; [done|].
  rename Hrun into Hbit. destruct a; cbn [negb] in H; run_inv H; [|by apply IH in H; try lia].
  match goal with Hg : read_input_map _ _ _ _ _ = Val (?x, ?s) |- _ => rename Hg into Hmap; destruct x as [input|]; run_inv H;
    [assert (later s0 s) as Hl1 by (etrans; [exact Hl|eapply (run_keeps later); [exact Hmap|apply _]])|] end.
  2:{ etrans; [silent_part Hmap|silent_part H]. }
  match goal with Hg : (match tapleaf with _ => _ end) ?s = Val (?x, ?s') |- _ => rename Hg into Hf;
    assert (during s0 (input_signature s0 st hashes l tapleaf info1) s s') as Hd by silent_part Hf;
    assert (later s0 s') as Hl2 by (by apply Hd); destruct x as [info'|]; run_inv H end.
  2:{ etrans; [silent_part Hmap|exact Hd]. }
  assert (same_key info1 info' ∧ zlen (tapleaf_hash info') ≤ 32 ∧
    match tapleaf with
    | None => info' = info
    | Some leaf => ran s0 (fill_taproot_placeholder_info (os E) (jk E) (wallet st) input leaf info) (Some info')
    end) as (Hk' & Ht' & Hleaf).
  { destruct tapleaf as [leaf|]; [|run_inv Hf; by simplify_eq]. destruct (fill_tapleaf_run _ _ _ _ _ _ _ Hf) as [? ?].
    splits; [by eapply same_key_trans|done|]. eapply ran_later; [exact Hl1|by eapply ran_here]. }
  etrans; [silent_part Hmap|]. etrans; [exact Hd|].
  match goal with Hg : sign_transaction_input _ _ _ _ _ _ _ _ _ _ _ _ ?s = Val (?x, ?s') |- _ =>
    assert (during s0 (input_signature s0 st hashes l tapleaf info1) s s') as Hs end.
  { eapply during_mono; [|eapply sign_input_during; [exact Hl2| |exact Ht'|eassumption]; lia]. intros m Hm.
    exists i, info, info', input. splits; try done; [lia|]. eapply ran_later; [exact Hl|by eapply ran_here]. }
  etrans; [exact Hs|]. run_if H; [silent_part H|]. apply IH in H; [done|lia|lia|by apply Hs|done|done].
Qed.

Lemma fill_placeholder_run f w info st info' st' :
  fill_placeholder_info_if_internal E f w info st = Val (Some info', st') → tapleaf_hash info' = tapleaf_hash info.
Proof.
  rw /fill_placeholder_info_if_internal. intros H. run_inv H. destruct a as [n str]. run_if H; [by apply fail_run in H|].
  destruct a as [[key_info rest]|]; run_inv H; [|by apply fail_run in H]. run_if H.
  destruct (get_extended_pubkey_at_path _ _ _); run_inv H; [|by apply fail_run in H]. run_if H. by simplify_eq.
Qed.

(** The placeholder with index [k] of the policy. *)
Definition start_info (st : sign_psbt_state) (k : Z) : placeholder_info :=
  let r := get_key_placeholder_by_index (wallet_policy_map (wallet st)) k in
  let info := match pr_placeholder r with Some p => set_placeholder p empty_placeholder_info | None => empty_placeholder_info end in
  match pr_tapleaf r with Some _ => set_is_tapscript info | None => info end.

Lemma start_info_tapleaf st k : zlen (tapleaf_hash (start_info st k)) = 32.
Proof. rw /start_info. by repeat case_match. Qed.

Definition transaction_signature (s0 : dstate) (st : sign_psbt_state) (hashes : segwit_hashes) (internal_inputs m : list Z) : Prop :=
  ∃ k info, let r := get_key_placeholder_by_index (wallet_policy_map (wallet st)) k in
    0 ≤ k < pr_ret r ∧
    ran s0 (fill_placeholder_info_if_internal E (st_master_key_fingerprint st) (wallet st) (start_info st k)) (Some info) ∧
    input_signature s0 st hashes internal_inputs (pr_tapleaf r) info m.

Lemma sign_placeholders_during s0 fuel st hashes l k σ b σ' :
  0 ≤ k → 0 ≤ tx_n_inputs (st_tx st) ≤ MAX_N_INPUTS_CAN_SIGN → later s0 σ →
  sign_placeholders_loop E fuel st hashes l k σ = Val (b, σ') → during s0 (transaction_signature s0 st hashes l) σ σ'.
Proof.
  revert k σ. induction fuel as [|fuel IH]; intros k σ Hk Hn Hl H; [done|]. cbn [sign_placeholders_loop] in H.
  run_if H; [silent_part H|]. match type of H with (if ?a <=? ?b then _ else _) _ = _ => destruct (Z.leb_spec a b) end; run_inv H; [done|].
  match goal with Hg : fill_placeholder_info_if_internal _ _ _ ?i ?s = Val (?x, ?s') |- _ => change i with (start_info st k) in Hg; rename Hg into Hfill;
    assert (during s0 (transaction_signature s0 st hashes l) s s') as Hd1 by silent_part Hfill;
    assert (later s0 s') as Hl1 by (by apply Hd1) end.
  etrans; [exact Hd1|].
  match type of Hfill with _ = Val (?x, ?s) => match goal with Hg : (match x with _ => _ end) s = Val (_, ?s') |- _ => rename Hg into Hone;
    assert (during s0 (transaction_signature s0 st hashes l) s s') as Hd2 end end.
  { match type of Hfill with _ = Val (?x, _) => destruct x as [info|] end. 2: silent_part Hone.
    eapply during_mono; [|eapply (sign_inputs_during s0 _ _ _ _ _ info info 0); [done| |exact Hl1|done| |exact Hone]].
    - intros m Hm. exists k, info. cbv zeta. splits; [lia..| |exact Hm]. eapply ran_later; [exact Hl|by eapply ran_here].
    - lia.
    - apply fill_placeholder_run in Hfill as ->. by rw start_info_tapleaf. }
  etrans; [exact Hd2|]. run_if H; [done|]. apply IH in H; [done|lia|done|by apply Hd2].
Qed.

Lemma sign_transaction_during st l σ b σ' :
  0 ≤ tx_n_inputs (st_tx st) ≤ MAX_N_INPUTS_CAN_SIGN → sign_transaction E st l σ = Val (b, σ') →
  during σ (λ m, ∃ hashes, ran σ (compute_segwit_hashes (os E) (arr E) (uninit E) (st_tx st)) (Some hashes) ∧
                   transaction_signature σ st hashes l m) σ σ'.
Proof.
  intros Hn H. rw /sign_transaction /answers_left in H. run_inv H.
  match goal with Hg : compute_segwit_hashes _ _ _ _ ?s = Val (?x, ?s') |- _ => rename Hg into Hh;
    pose proof (run_keeps later _ _ _ _ Hh _) as Hl; destruct x as [hashes|]; run_inv H; [|silent_part Hh] end.
  etrans; [silent_part Hh|]. eapply during_mono; [|eapply sign_placeholders_during; [| |exact Hl|exact H]; done].
  intros m Hm. exists hashes. split; [by eapply ran_here|done].
Qed.
End signatures.
