(* ===== verification/SignSample.v ===== *)
(** * Signing: an example

    A whole run of the command: a wallet with one key of the device, and a
    transaction with one input of the wallet, an external output and a change
    output.  The host answers every request; the cryptographic functions return
    constants of the right size, and the hash is [toy_hash]. *)

From Stdlib Require Ascii String.
Import String.StringSyntax Ascii.AsciiSyntax.
From S2P Require Import Prelude Bytes Bip32 Buffer Merkle Dispatcher MerkleClient MerkleProof Run Script Base58 Crypto RawTx Address PolicySyntax PolicyParser PolicyScript PolicyMachine PolicyCheck Psbt HostSample Sighash Sign Derivation SignFlow.

(** The results of runs that return. *)
Definition text_of (m : outcome (option (list Z))) : list Z := match m with Val (Some t) => t | _ => [] end.
Definition end_of {A} (m : io A) (s : dstate) : dstate := match m s with Val (_, s') => s' | _ => s end.

(** The run of [m] returns [true] and sends the message [sig]. *)
Definition sends_ok (m : io bool) (s : dstate) (sig : list Z) : bool :=
  match m s with Val (true, s') => bool_decide (sig ∈ drop (length (tx s)) (tx s')) | _ => false end.

Lemma sends_ok_spec m s sig :
  sends_ok m s sig = true → m s = Val (true, end_of m s) ∧ sig ∈ drop (length (tx s)) (tx (end_of m s)).
Proof. rw /sends_ok /end_of. destruct (m s) as [[[] s']| | |]; [|done..]. intros H. split; [done|]. by apply bool_decide_eq_true in H. Qed.

(** ** The device *)
Definition flow_sdk : sdk :=
  mk_sdk toy_hash (λ _, replicate 20 0x11) (λ _ _, replicate 64 3) (λ _ _, replicate 32 7)
    (λ _ _, Some (-1)) (λ _ _ _, Some (replicate 32 2)) (λ _ _ _, Some (replicate 32 2)) (λ _ _, Some (replicate 32 2))
    (λ _ _, Some (4 :: replicate 64 2)) (λ _ _, Some (4 :: replicate 64 8))
    (λ _, Some (4 :: replicate 64 5, replicate 32 6)) (λ _, Some (replicate 32 1)).

Definition flow_signer : signer :=
  mk_signer (λ _, Some (replicate 32 9)) (λ _, Some (4 :: replicate 64 5)) (λ _ h, Some ([0x30; 34; 2; 32] ++ h, 0))
    (λ _ h, Some (h ++ h)).

Definition flow_env : env :=
  mk_env flow_sdk flow_signer sample_junk sample_array 0 (λ k _, k) syscoin 0x0488B21E 57 192 768 sample_abi 0 false.

(** ** The wallet *)
Definition flow_path : list Z := [0x80000054; 0x80000039; 0x80000000].
Definition flow_xpub : list Z := default [] (xpub_bytes <$> get_extended_pubkey_at_path flow_sdk flow_path 0x0488B21E).
Definition flow_xpub_text : list Z :=
  let l := flow_xpub ++ take 4 (toy_hash (toy_hash flow_xpub)) in
  text_of (base58_encode l (zlen l) 200).
Definition flow_key_info : list Z := str "[11111111/84'/57'/0']" ++ flow_xpub_text.
Definition flow_template : list Z := str "wpkh(@0/**)".
Definition flow_wallet : list Z :=
  [2; 4] ++ str "Cold" ++ [zlen flow_template] ++ toy_hash flow_template ++ [1] ++ sample_root [flow_key_info].

(** ** The transaction *)
Definition flow_der (change index : Z) : list Z :=
  replicate 4 0x11 ++ concat (le_bytes 4 <$> flow_path ++ [change; index]).
Definition flow_pubkey : list Z := 2 :: replicate 32 8.
Definition flow_script : list Z := [0; 20] ++ replicate 20 0x11.

Definition flow_global : sample_map := [([PSBT_GLOBAL_TX_VERSION], le_bytes 4 2)].
Definition flow_in : sample_map :=
  [([PSBT_IN_WITNESS_UTXO], le_bytes 8 1000 ++ [22] ++ flow_script); (PSBT_IN_BIP32_DERIVATION :: flow_pubkey, flow_der 0 3);
   ([PSBT_IN_PREVIOUS_TXID], replicate 32 9); ([PSBT_IN_OUTPUT_INDEX], [1; 0; 0; 0])].
Definition flow_out0 : sample_map := [([PSBT_OUT_AMOUNT], le_bytes 8 600); ([PSBT_OUT_SCRIPT], [0; 20] ++ replicate 20 8)].
Definition flow_out1 : sample_map :=
  [(PSBT_OUT_BIP32_DERIVATION :: flow_pubkey, flow_der 1 5); ([PSBT_OUT_AMOUNT], le_bytes 8 300); ([PSBT_OUT_SCRIPT], flow_script)].
Definition flow_outs : list sample_map := [flow_out0; flow_out1].

Definition flow_command : list Z :=
  ser_commitment flow_global ++ [1] ++ sample_root [ser_commitment flow_in] ++ [2] ++ sample_root (ser_commitment <$> flow_outs) ++
  toy_hash flow_wallet ++ replicate 32 7.

(** ** The host *)
Definition host_preimage (l : list Z) : exchange := reply (varint_enc (zlen l) ++ [zlen l] ++ l).
Definition host_key : list exchange := host_element [flow_key_info] 0.
Definition host_in : list exchange := host_map_with (λ t, t =? PSBT_IN_BIP32_DERIVATION) [flow_in] 0.
Definition host_out (i : nat) : list exchange := host_map_with (λ t, t =? PSBT_OUT_BIP32_DERIVATION) flow_outs i.
Definition host_output_fields (i : nat) : list exchange := host_lookups (nth i flow_outs []) [PSBT_OUT_AMOUNT; PSBT_OUT_SCRIPT].

Definition init_host : list exchange :=
  host_keys (λ _, false) flow_global ++ host_lookups flow_global [PSBT_GLOBAL_TX_VERSION; PSBT_GLOBAL_FALLBACK_LOCKTIME] ++
  [host_preimage flow_wallet; host_preimage flow_template].
Definition inputs_host : list exchange := host_key ++ host_in ++ host_lookups flow_in [PSBT_IN_WITNESS_UTXO] ++ host_key.
Definition outputs_host : list exchange :=
  host_key ++ host_out 0 ++ host_output_fields 0 ++ host_out 1 ++ host_output_fields 1 ++ host_key.
Definition hashing_host : list exchange :=
  host_map [flow_in] 0 ++ host_lookups flow_in [PSBT_IN_PREVIOUS_TXID; PSBT_IN_OUTPUT_INDEX; PSBT_IN_SEQUENCE] ++
  host_map flow_outs 0 ++ host_output_fields 0 ++ host_map flow_outs 1 ++ host_output_fields 1 ++
  host_map [flow_in] 0 ++ host_lookups flow_in [PSBT_IN_WITNESS_UTXO].
Definition signing_host : list exchange :=
  host_key ++ host_in ++ host_lookups flow_in [PSBT_IN_WITNESS_UTXO] ++
  host_lookups flow_in [PSBT_IN_PREVIOUS_TXID; PSBT_IN_OUTPUT_INDEX; PSBT_IN_WITNESS_UTXO; PSBT_IN_SEQUENCE] ++ [reply []].

Definition flow_state (rx : list exchange) : dstate :=
  mk_dstate ([CLA_APP; SIGN_PSBT; 0; 1; zlen flow_command] ++ flow_command ++ replicate (Z.to_nat (255 - zlen flow_command)) 0) 0 (Some OFFSET_CDATA)
    (zlen flow_command) 0 0 sample_ux rx [].
Definition no_swap : swap_globals := mk_swap 0 0 [] false.
Definition accept : list screen → screen → bool := λ _ _, true.

Definition flow_host : list exchange := init_host ++ inputs_host ++ outputs_host ++ hashing_host ++ signing_host.
Definition flow_start : dstate := flow_state flow_host.
Definition flow_end : dstate := end_of (handler_sign_psbt flow_env no_swap accept true 1) flow_start.

(** The message with a signature of the digest [d]. *)
Definition signature_of (d : list Z) : list Z :=
  [CCMD_YIELD; 0; 33; 3] ++ replicate 32 5 ++ [0x30; 34; 2; 32] ++ d ++ [SIGHASH_ALL; 0xE0; 0x00].
(** The digest of the transaction with the outputs [outs]. *)
Definition flow_in_data : in_data := mk_in_data (replicate 32 9) [1; 0; 0; 0] (replicate 4 255).
Definition flow_digest (outs : list out_data) : list Z :=
  bip143 toy_hash 2 0 SIGHASH_ALL [flow_in_data] outs flow_in_data None
    ([25; 0x76; 0xa9; 20] ++ replicate 20 0x11 ++ [0x88; 0xac]) (le_bytes 8 1000).
Definition pays (script : list Z) : list out_data := [mk_out_data (le_bytes 8 600) script; mk_out_data (le_bytes 8 300) flow_script].
Definition flow_signature : list Z := signature_of (flow_digest (pays ([0; 20] ++ replicate 20 8))).

Lemma flow_signs : sends_ok (handler_sign_psbt flow_env no_swap accept true 1) flow_start flow_signature = true.
Proof. vm_compute. reflexivity. Qed.

(** The state in which the transaction is signed. *)
Definition flow_confirmed_state : sign_psbt_state * list Z * dstate :=
  match
    (r0 ← init_global_state flow_env no_swap accept 1;
     r1 ← (match r0 with Some st => preprocess_inputs flow_env st | None => mret None end);
     match r1 with
     | Some (st, l) =>
         r2 ← process_outputs flow_env no_swap accept st;
         mret ((λ st, (st, l)) <$> r2)
     | None => mret None
     end) flow_start
  with
  | Val (Some (st, l), s) => (st, l, s)
  | _ => (mk_sign_state 0 (mk_psbt_tx 0 0 0 [] 0 []) 0 (mk_outputs_info 0 0 0 0) false
            (mk_wallet 0 (policy_node_constant TOKEN_0 None) 0 [] 0) false false [], [], flow_start)
  end.
Definition signing_step (c : sign_psbt_state * list Z * dstate) : io bool := sign_transaction flow_env c.1.1 c.1.2.
Definition signing_end : dstate := end_of (signing_step flow_confirmed_state) flow_confirmed_state.2.

(** The state has the form that the theorems need, and a signature is sent. *)
Definition signing_ok (c : sign_psbt_state * list Z * dstate) : bool :=
  sends_ok (signing_step c) c.2 flow_signature &&
  bool_decide (zlen (apdu_buf c.2) = IO_APDU_BUFFER_SIZE) && bool_decide (Forall wf_exchange (rx c.2)) && (output_len c.2 =? 0) &&
  (tx_n_inputs (st_tx c.1.1) =? 1).

Lemma signing_signs : signing_ok flow_confirmed_state = true.
Proof. vm_compute. reflexivity. Qed.

Lemma flow_array_length n : 0 ≤ n → zlen (arr flow_env n) = n.
Proof. apply sample_array_length. Qed.

Lemma flow_hash_length x : zlen (cx_sha256 (os flow_env) x) = 32.
Proof. apply toy_hash_length. Qed.
