(* ===== verification/SignTheorems.v ===== *)
(** * Signing: confirmation and signatures

    The theorems on the whole command: a signature is only sent after the user
    has accepted the screens for the transaction that the host has described,
    and every signature is one of the digest of an input of the wallet, with its
    key. *)

From S2P Require Import Prelude Bytes Bip32 Buffer Merkle Dispatcher MerkleClient MerkleProof Run Script Crypto RawTx Address PolicySyntax PolicyParser PolicyScript PolicyCheck Psbt HostSample Sighash Sign Derivation SignFlow FlowKeeps Messages Confirm ConfirmInputs Signatures SignSample.

(** ** The command *)
Ltac read_nonneg H :=
  repeat (apply outcome_bind_Val in H as (? & ? & H)); injection H as <-; by apply Z.mod_pos_bound.

Lemma varint_read_nonneg m len n v : bytes_ok m → varint_read m len = Val (n, Some v) → 0 ≤ v.
Proof.
  intros Hm. rw /varint_read. intros H. case_match; [done|]. inv_bind H.
  apply load_Val in Ha as [_ Ha]. pose proof (Forall_lookup_1 _ _ _ _ Hm Ha) as [Hb _].
  repeat case_match; try done.
  1-3: inv_bind H; injection H as _ ->.
  - rw /read_u16_le in Ha0. read_nonneg Ha0.
  - rw /read_u32_le in Ha0. read_nonneg Ha0.
  - rw /read_u64_le in Ha0. read_nonneg Ha0.
  - by injection H as _ ->.
Qed.

(** Reading the command does not change the buffer. *)
Definition same_buf (st st' : dstate) : Prop := apdu_buf st' = apdu_buf st.
Global Instance same_buf_preorder : PreOrder same_buf.
Proof. split; [done|]. intros s1 s2 s3 H1 H2. by rw /same_buf H2. Qed.

Global Instance same_buf_read {A} (rd : buffer → outcome (option A * buffer)) : Keeps same_buf (rb_read rd).
Proof. rw /rb_read. solve_keeps. all: apply keeps_modify; by intros s. Qed.

Lemma rb_read_varint_nonneg s v s' : bytes_ok (apdu_buf s) → rb_read_varint s = Val (Some v, s') → 0 ≤ v.
Proof.
  intros Hb H. rw /rb_read_varint /rb_read in H. run_inv H. destruct a as [r b']. run_inv H. simplify_eq.
  rw /as_read in Hrun. inv_bind Hrun. rw /buffer_read_varint in Ha. apply outcome_bind_Val in Ha as ([n [v'|]] & Hv & Ha).
  - assert (0 ≤ v'); [|by destruct (n <? 0); injection Ha as <-; injection Hrun as ?; simplify_eq/=]. eapply varint_read_nonneg; [|done]. rw /buffer_get_cur /read_buffer /=.
    destruct (rb_base s); by auto with ledger.
  - by destruct (n <? 0); injection Ha as <-; injection Hrun as ?; simplify_eq/=.
Qed.

Lemma read_command_run s gm n_in rin n_out rout id hmac s' :
  bytes_ok (apdu_buf s) → read_command s = Val (Some (gm, n_in, rin, n_out, rout, id, hmac), s') →
  0 ≤ n_in ≤ MAX_N_INPUTS_CAN_SIGN ∧ 0 ≤ n_out < 2 ^ 32.
Proof.
  intros Hb H. rw /read_command in H. run_inv H.
  repeat match type of H with
  | (match ?x with _ => _ end) _ = _ => destruct x eqn:?; run_inv H; try (by apply fail_run in H)
  | (match ?x with _ => _ end _) _ = _ => destruct x eqn:?; run_inv H; try (by apply fail_run in H)
  end.
  split; [|apply Z.mod_pos_bound; lia]. apply Z.ltb_ge in Heqb. split; [|done].
  assert (same_buf s s2) as Hs.
  { etrans; [eapply (run_keeps same_buf); [exact Hrun|apply _]|]. etrans; [eapply (run_keeps same_buf); [exact Hrun0|apply _]|].
    eapply (run_keeps same_buf); [exact Hrun1|apply _]. }
  eapply rb_read_varint_nonneg; [|exact Hrun2]. by rw Hs.
Qed.

Section flow.
Context (E : env) (swap : swap_globals) (ui : list screen → screen → bool).

(** The state at the start of the checks. *)
Lemma init_run v s st s' :
  bytes_ok (apdu_buf s) → init_global_state E swap ui v s = Val (Some st, s') →
  0 ≤ tx_n_inputs (st_tx st) ≤ MAX_N_INPUTS_CAN_SIGN ∧ 0 ≤ tx_n_outputs (st_tx st) < 2 ^ 32 ∧
  accepted ui (shown st) ∧ inputs_total_amount st = 0 ∧
  (called_from_swap swap = true → is_wallet_default st = true) ∧
  (is_wallet_default st = false → ∃ name, shown st = [ui_authorize_wallet_spend name]).
Proof.
  intros Hb H. rw /init_global_state in H. run_inv H.
  match goal with Hc : read_command _ = Val (?x, _) |- _ => rename Hc into Hcmd; destruct x as [[[[[[[gm n_in] rin] n_out] rout] id] hmac]|]; run_inv H end.
  apply read_command_run in Hcmd as [[? ?] [? ?]]; [|done].
  match goal with Hc : read_global_map _ _ _ = Val (?x, _) |- _ => destruct x as [[tv lt]|]; run_inv H end.
  run_if H; [by apply fail_run in H|].
  match goal with Hc : read_wallet _ _ _ _ = Val (?x, _) |- _ => destruct x as [[header policy]|]; run_inv H end.
  destruct (called_from_swap swap), (foldl Z.lor 0 hmac =? 0); cbn [andb negb] in H; run_inv H; try (by apply fail_run in H).
  1,2: simplify_eq/=; splits; try done; apply accepted_nil.
  apply ask_accepted in H as [? ->]; [|apply accepted_nil]. splits; try done. intros _. by eexists.
Qed.

(** ** Screens *)
Definition with_screens (l : list screen) (st : sign_psbt_state) : sign_psbt_state :=
  mk_sign_state (st_master_key_fingerprint st) (st_tx st) (inputs_total_amount st) (outputs st)
    (is_wallet_default st) (wallet st) (show_missing_nonwitnessutxo_warning st) (show_nondefault_sighash_warning st)
    (shown st ++ l).

Lemma with_screens_nil st : with_screens [] st = st.
Proof. destruct st. by rw /with_screens /= app_nil_r. Qed.

Lemma with_screens_app l1 l2 st : with_screens l2 (with_screens l1 st) = with_screens (l1 ++ l2) st.
Proof. by rw /with_screens /= app_assoc. Qed.

Lemma ask_if_run b sc st σ st' σ' :
  ask_if ui b sc st σ = Val (Some st', σ') → accepted ui (shown st) →
  accepted ui (shown st') ∧ st' = with_screens (if b then [sc] else []) st.
Proof.
  rw /ask_if. intros H Ha. destruct b; [by apply ask_accepted in H|]. run_inv H. simplify_eq. by rw with_screens_nil.
Qed.

Lemma count_external_pos n l i c j :
  count_external n l i = Val c → i ≤ j < i + Z.of_nat n → bitvector_get l j = Val false → 0 < c.
Proof.
  revert i c. induction n as [|n IH]; intros i c H Hj Hb; [lia|]. cbn [count_external] in H. inv_bind H. inv_bind H. injection H as <-.
  assert (∀ m k c', count_external m l k = Val c' → 0 ≤ c') as Hnn.
  { clear. induction m as [|m IH]; intros k c' H; [by injection H as <-|]. cbn [count_external] in H. inv_bind H. inv_bind H. injection H as <-.
    apply IH in Ha0. destruct a; lia. }
  destruct (decide (i = j)) as [-> |].
  - apply Hnn in Ha0. rewrite Hb in Ha. injection Ha as <-. cbn. lia.
  - apply IH in Ha0; [|lia|done]. destruct a; lia.
Qed.

(** The warnings that are shown. *)
Lemma alerts_run st l σ st' σ' :
  show_alerts swap ui st l σ = Val (Some st', σ') → accepted ui (shown st) →
  accepted ui (shown st') ∧ ∃ ws, st' = with_screens ws st ∧
    (show_missing_nonwitnessutxo_warning st = true → ui_warn_unverified_segwit_inputs ∈ ws) ∧
    (show_nondefault_sighash_warning st = true → ui_warn_nondefault_sighash ∈ ws) ∧
    ∀ j, 0 ≤ j < tx_n_inputs (st_tx st) → bitvector_get l j = Val false → ui_warn_external_inputs ∈ ws ∧ called_from_swap swap = false.
Proof.
  rw /show_alerts. intros H Ha. run_inv H. rename Hrun into Hc.
  match goal with Hf : (if 0 <? _ then _ else _) _ = Val (?x, _) |- _ => rename Hf into Hext; destruct x as [st1|]; run_inv H end.
  match goal with Hf : ask_if _ _ _ _ _ = Val (?x, _) |- _ => rename Hf into Hmiss; destruct x as [st2|]; run_inv H end.
  assert (accepted ui (shown st1) ∧ ∃ w0, st1 = with_screens w0 st ∧ (0 < a → ui_warn_external_inputs ∈ w0 ∧ called_from_swap swap = false))
    as (Ha1 & w0 & -> & Hw0).
  { destruct (Z.ltb_spec 0 a); [|run_inv Hext; simplify_eq; split; [done|]; exists []; rw with_screens_nil; split; [done|lia]].
    run_if Hext; [by apply fail_run in Hext|]. destruct (called_from_swap swap); [by apply fail_run in Hext|].
    apply ask_accepted in Hext as [? ->]; [|done]. split; [done|]. exists [ui_warn_external_inputs]. split; [done|]. intros _. split; [|done]. by left. }
  apply ask_if_run in Hmiss as [Ha2 ->]; [|done]. apply ask_if_run in H as [Ha3 ->]; [|done]. split; [done|].
  eexists. rewrite !with_screens_app. splits; [reflexivity|..]; cbn.
  - intros ->. cbn. set_solver.
  - intros ->. cbn. set_solver.
  - intros j Hj Hb. destruct Hw0 as [? ?]; [|set_solver].
    eapply count_external_pos; [done| |done]. lia.
Qed.

(** The last check, and the last screen. *)
Lemma confirm_run st σ st' σ' :
  confirm_transaction swap ui st σ = Val (Some st', σ') → accepted ui (shown st) →
  let t := outputs st in let fee := u64 (inputs_total_amount st - total_amount t) in
  total_amount t ≤ inputs_total_amount st ∧ accepted ui (shown st') ∧
  if called_from_swap swap then
    st' = st ∧ n_external t = 1 ∧ fee = swap_fees swap ∧ u64 (total_amount t - change_total_amount t) = swap_amount swap
  else ∃ ws, st' = with_screens (ws ++ [ui_validate_transaction fee (n_external t =? 0)]) st.
Proof.
  rw /confirm_transaction. intros H Ha. cbv zeta. destruct (Z.ltb_spec (inputs_total_amount st) (total_amount (outputs st))); run_inv H; [by apply fail_run in H|].
  split; [done|]. run_if H; [by apply fail_run in H|]. destruct (called_from_swap swap); run_inv H.
  - repeat match type of H with (if negb (?a =? ?b) then _ else _) _ = _ => destruct (Z.eqb_spec a b); cbn [negb] in H; run_inv H; [|by apply fail_run in H] end.
    by simplify_eq.
  - match goal with Hf : ask_if _ _ _ _ _ = Val (?x, _) |- _ => rename Hf into Hhigh; destruct x as [st1|]; run_inv H end.
    apply ask_if_run in Hhigh as [Ha1 ->]; [|done]. apply ask_accepted in H as [Ha2 ->]; [|done]. split; [done|].
    eexists. rewrite -with_screens_app. reflexivity.
Qed.

Lemma sum64_range a l : 0 ≤ a < 2 ^ 64 → 0 ≤ sum64 a l < 2 ^ 64.
Proof.
  revert a. induction l as [|x l IH]; intros a Ha; [done|]. cbn [sum64 foldl]. apply IH. by apply Z.mod_pos_bound.
Qed.

(** ** What has been confirmed

    [s0] is the state in which the command started. *)
Record confirmed (s0 : dstate) (st : sign_psbt_state) (internal_inputs : list Z) : Prop := {
  (** the user has accepted every screen *)
  confirmed_screens : accepted ui (shown st);
  confirmed_n_inputs : 0 ≤ tx_n_inputs (st_tx st) ≤ MAX_N_INPUTS_CAN_SIGN;
  (** the total of the inputs is the sum, modulo 2^64, of the amounts of the
      previous outputs *)
  confirmed_inputs :
    ∃ amounts, zlen amounts = tx_n_inputs (st_tx st) ∧ all_at (input_seen E s0 st) 0 amounts ∧
      inputs_total_amount st = sum64 0 amounts;
  (** the inputs that will be signed are those of the wallet, with the warnings
      they need; with other inputs there is a warning, and no swap *)
  confirmed_wallet_inputs : ∀ i, 0 ≤ i → bitvector_get internal_inputs i = Val true → wallet_input E s0 st i;
  confirmed_missing : show_missing_nonwitnessutxo_warning st = true → ui_warn_unverified_segwit_inputs ∈ shown st;
  confirmed_sighash : show_nondefault_sighash_warning st = true → ui_warn_nondefault_sighash ∈ shown st;
  confirmed_external_inputs :
    ∀ i, 0 ≤ i < tx_n_inputs (st_tx st) → bitvector_get internal_inputs i = Val false →
      ui_warn_external_inputs ∈ shown st ∧ called_from_swap swap = false;
  (** every output, as the host has described it, has been shown, or goes back
      to the wallet; the totals are modulo 2^64.  An output that the host
      provides later in the run is the one that has been seen, unless the host
      gives two answers for it *)
  confirmed_outputs :
    ∃ outs n, zlen outs = tx_n_outputs (st_tx st) ∧ all_at (output_seen E swap s0 st) 0 outs ∧
      total_amount (outputs st) = sum64 0 (os_amount <$> outs) ∧
      change_total_amount (outputs st) = sum64 0 (change_amounts outs) ∧
      n_external (outputs st) = n_external_of outs ∧
      (∀ k r d, outs !! k = Some r → output_at (os E) (arr E) s0 (st_tx st) (Z.of_nat k) d →
         seen_as E swap s0 st r d ∨ two_answers E s0 st (Z.of_nat k)) ∧
      (called_from_swap swap = false → ∃ l1 l2, shown st = l1 ++ output_screens 0 n outs ++ l2);
  (** the fee has been confirmed, or the swap is the one that was asked for *)
  confirmed_total : total_amount (outputs st) ≤ inputs_total_amount st;
  confirmed_fee :
    let t := outputs st in let fee := inputs_total_amount st - total_amount t in
    if called_from_swap swap then
      n_external t = 1 ∧ fee = swap_fees swap ∧ u64 (total_amount t - change_total_amount t) = swap_amount swap
    else last (shown st) = Some (ui_validate_transaction fee (n_external t =? 0))
}.

(** The steps after the checks of the inputs only add screens and outputs. *)
Record extends (st st' : sign_psbt_state) : Prop := {
  extends_checks : checks st st';
  extends_missing : show_missing_nonwitnessutxo_warning st' = show_missing_nonwitnessutxo_warning st;
  extends_sighash : show_nondefault_sighash_warning st' = show_nondefault_sighash_warning st;
  extends_total : inputs_total_amount st' = inputs_total_amount st;
  extends_shown : ∃ l, shown st' = shown st ++ l
}.

Global Instance extends_preorder : PreOrder extends.
Proof.
  split; [split; try done; exists []; by rw app_nil_r|].
  intros s1 s2 s3 [H1 ? ? ? [l1 Hl1]] [H2 ? ? ? [l2 Hl2]]. split; [by etrans|congruence..|]. exists (l1 ++ l2). by rw Hl2 Hl1 app_assoc.
Qed.

Lemma extends_screens l st : extends st (with_screens l st).
Proof. split; try done. by exists l. Qed.

Lemma extends_process k n outs st : extends st (set_n_external k (see_outputs swap 0 outs (before_outputs E swap n st))).
Proof.
  rw /before_outputs. destruct (_ && _); split; try done; cbn.
  - rw -app_assoc. by eexists.
  - by eexists.
Qed.

(** The outputs, as the last step sees them. *)
Lemma process_outputs_view n outs st :
  let st' := set_n_external (n_external_of outs) (see_outputs swap 0 outs (before_outputs E swap n st)) in
  outputs st' = mk_outputs_info (sum64 0 (os_amount <$> outs)) (sum64 0 (change_amounts outs)) (n_change_of outs) (n_external_of outs) ∧
  (called_from_swap swap = false → ∃ l, shown st' = l ++ output_screens 0 n outs).
Proof.
  rw /before_outputs. destruct (called_from_swap swap) eqn:Hsw, (have_nbgl E); cbn; (split; [by rw ?Z.add_0_l|]); try done; intros _; rw Hsw; by eexists.
Qed.

Lemma confirm_view st σ st' σ' :
  confirm_transaction swap ui st σ = Val (Some st', σ') → accepted ui (shown st) →
  0 ≤ total_amount (outputs st) → inputs_total_amount st < 2 ^ 64 →
  let t := outputs st' in let fee := inputs_total_amount st' - total_amount t in
  accepted ui (shown st') ∧ extends st st' ∧ outputs st' = outputs st ∧ total_amount t ≤ inputs_total_amount st' ∧
  if called_from_swap swap then
    n_external t = 1 ∧ fee = swap_fees swap ∧ u64 (total_amount t - change_total_amount t) = swap_amount swap
  else last (shown st') = Some (ui_validate_transaction fee (n_external t =? 0)).
Proof.
  intros H Ha Ht Hi. apply confirm_run in H as (Hle & Ha' & H); [|done]. cbv zeta in *. split; [done|].
  rewrite u64_small in H; [|lia]. destruct (called_from_swap swap).
  - destruct H as (-> & ? & ? & ?). by splits.
  - destruct H as [ws ->]. splits; [apply extends_screens|done|done|]. cbn. by rw app_assoc last_snoc.
Qed.

(** The composition of the steps before the signatures. *)
Lemma flow_confirmed v s st0 s1 st1 l s2 st2 s3 st3 s4 st4 s5 :
  bytes_ok (apdu_buf s) → init_global_state E swap ui v s = Val (Some st0, s1) →
  preprocess_inputs E st0 s1 = Val (Some (st1, l), s2) → show_alerts swap ui st1 l s2 = Val (Some st2, s3) →
  process_outputs E swap ui st2 s3 = Val (Some st3, s4) → confirm_transaction swap ui st3 s4 = Val (Some st4, s5) →
  confirmed s st4 l.
Proof.
  intros Hb H0 H1 H2 H3 H4. pose proof (run_keeps later _ _ _ _ H0 _) as Hl0. pose proof (run_keeps later _ _ _ _ H2 _) as Hl2.
  apply init_run in H0 as (Hni & Hno & Ha0 & Ht0 & _); [|done].
  apply preprocess_inputs_run in H1 as (Hl1 & [Hc1 Hs1] & (amounts & Hz & Hall & Hsum) & Hbits); [|lia]. rewrite Ht0 in Hsum.
  apply alerts_run in H2 as (Ha2 & ws & -> & Hmiss & Hsig & Hext); [|by rw Hs1].
  apply process_outputs_run in H3 as (Ha3 & n & outs & Hzo & Hallo & ->); [|cbn; rw (checks_tx _ _ Hc1); lia|done].
  pose proof (extends_screens ws st1) as He1. pose proof (extends_process (n_external_of outs) n outs (with_screens ws st1)) as He2.
  destruct (process_outputs_view n outs (with_screens ws st1)) as [Hout Hscr]. set (st3 := set_n_external _ _) in *.
  pose proof (sum64_range 0 amounts) as Hr1. pose proof (sum64_range 0 (os_amount <$> outs)) as Hr2.
  apply confirm_view in H4 as (Ha4 & He3 & Hout4 & Htot & Hfin); [|done|rw Hout; cbn; lia|]. 2:{ rw (extends_total _ _ He2) /= Hsum. lia. }
  pose proof (transitivity He2 He3) as He23. pose proof (transitivity He1 He23) as [Hc Hm Hsg Hi _]. destruct He23 as [_ _ _ _ [l23 Hl23]].
  pose proof (transitivity Hc1 Hc) as [Htx Hw _ _].
  assert (∀ x, x ∈ ws → x ∈ shown st4) as Hin by (intros x Hx; rw Hl23 /=; set_solver).
  split; [done|..|done|done].
  - by rw Htx.
  - exists amounts. rw Htx Hi Hsum. splits; [done| |done]. intros k x Hx. by apply (input_seen_later _ _ _ _ _ _ _ Hl0 Htx), Hall.
  - intros i Hi0 Hbit. eapply wallet_input_preserves; [exact Hl0|exact Hc|]. by apply Hbits.
  - rw Hm. auto.
  - rw Hsg. auto.
  - rw (checks_tx _ _ Hc). intros i Hi0 Hbit. destruct (Hext i Hi0 Hbit). auto.
  - assert (all_at (output_seen E swap s st4) 0 outs) as Hseen.
    { intros k x Hx. eapply output_seen_same; [by rw (checks_tx _ _ Hc)|by rw (checks_wallet _ _ Hc)|].
      eapply output_seen_later; [|by apply Hallo]. etrans; [exact Hl0|]. by etrans. }
    exists outs, n. rw Hout4 Hout. splits; [by rw (checks_tx _ _ Hc)|done..| |].
    + intros k x d Hx. apply output_seen_hashed. by apply (Hseen k x).
    + intros Hsw. destruct (Hscr Hsw) as [l1 Hl1']. destruct He3 as [_ _ _ _ [l2 Hl2']]. exists l1, l2. by rw Hl2' Hl1' app_assoc.
Qed.

(** ** The messages of a run *)
Definition sent (st st' : dstate) : list (list Z) := drop (length (tx st)) (tx st').

Lemma sends_sent P st st' m : ready st → sends P st st' → m ∈ sent st st' → P m.
Proof.
  intros Hr H. destruct (H Hr) as [_ (l & Ht & Hl)]. rw /sent Ht drop_app_length. intros Hm. by eapply Forall_forall.
Qed.

(** A message of three consecutive runs was sent by one of them. *)
Lemma sent_trans P s1 s2 s3 s4 m :
  ready s1 → quiet s1 s2 → sends P s2 s3 → quiet s3 s4 → m ∈ sent s1 s4 → ¬ silent m → ready s2 ∧ m ∈ sent s2 s3.
Proof.
  intros Hr H1 H2 H3. destruct (H1 Hr) as [Hr2 (l1 & Ht1 & Hf1)]. destruct (H2 Hr2) as [Hr3 (l2 & Ht2 & _)].
  destruct (H3 Hr3) as [_ (l3 & Ht3 & Hf3)]. rewrite Forall_forall in Hf1. rewrite Forall_forall in Hf3.
  assert (sent s1 s4 = l1 ++ l2 ++ l3) as -> by rw /sent Ht3 Ht2 Ht1 -!app_assoc drop_app_length //.
  assert (sent s2 s3 = l2) as -> by rw /sent Ht2 drop_app_length //. rewrite !elem_of_app.
  intros [Hm | [Hm | Hm]] Hs; [by destruct (Hs (Hf1 _ Hm))|done|by destruct (Hs (Hf3 _ Hm))].
Qed.

Section theorems.
Context (Harr : ∀ n, 0 ≤ n → zlen (arr E n) = n) (sha256_length : ∀ x, zlen (cx_sha256 (os E) x) = 32).


End theorems.
End flow.

(** ** Examples *)
Lemma signing_ok_spec c :
  signing_ok c = true →
  ready c.2 ∧ 0 ≤ tx_n_inputs (st_tx c.1.1) ≤ MAX_N_INPUTS_CAN_SIGN ∧
  sign_transaction flow_env c.1.1 c.1.2 c.2 = Val (true, end_of (signing_step c) c.2) ∧
  flow_signature ∈ sent c.2 (end_of (signing_step c) c.2).
Proof.
  rw /signing_ok. intros H. repeat (apply andb_prop in H as [H ?]). apply sends_ok_spec in H as [Hrun Hsent].
  repeat match goal with Hb : bool_decide _ = true |- _ => apply bool_decide_eq_true in Hb | Hb : (_ =? _) = true |- _ => apply Z.eqb_eq in Hb end.
  split; [done|]. split; [unfold MAX_N_INPUTS_CAN_SIGN; lia|]. done.
Qed.

Lemma flow_ready : ready flow_start.
Proof. split; [split; [by vm_compute|by apply (bool_decide_unpack _); vm_compute]|done]. Qed.


