(* ===== verification/Forgery.v ===== *)
(** * Signing: a forged output

    What the flaw of [call_get_merkle_preimage] (Preimage.v) means for the
    command: the host shows the user an output of its choice, and obtains the
    signature of the transaction with the output of the PSBT. *)

From Stdlib Require Ascii String.
Import String.StringSyntax Ascii.AsciiSyntax.
From S2P Require Import Prelude Bytes Bip32 Buffer Merkle Dispatcher MerkleClient MerkleProof Preimage Run Script Base58 Crypto RawTx Address PolicySyntax PolicyParser PolicyScript PolicyMachine PolicyCheck Psbt HostSample Sighash Sign Derivation SignFlow FlowKeeps Messages Confirm ConfirmInputs Signatures SignSample SignTheorems.

(** The user only wants to pay to this address. *)
Definition friend_script : list Z := [0; 20] ++ replicate 20 77.
Definition friend : list Z := str "sys1qf4x56n2df4x56n2df4x56n2df4x56n2dnrk8ml".
Definition only_friend : list screen → screen → bool := λ _ s,
  match s with ui_validate_output _ _ text _ => bool_decide (text = friend) | _ => true end.

(** The host sends [f] in the place of the value of [key]. *)
Definition host_forged (m : sample_map) (key : Z) (f : list Z) : list exchange :=
  match list_find (λ e, e.1 = [key]) m with
  | Some (i, _) => reply [1; Z.of_nat i] :: host_proof (m.*1) i :: host_proof (m.*2) i :: forged (nth i (m.*2) []) f
  | None => [reply [0; 0]]
  end.

(** It does so when the output is shown, and sends the output of the PSBT when
    the transaction is hashed. *)
Definition forged_outputs_host : list exchange :=
  host_key ++ host_out 0 ++ host_lookups flow_out0 [PSBT_OUT_AMOUNT] ++ host_forged flow_out0 PSBT_OUT_SCRIPT friend_script ++
  host_out 1 ++ host_output_fields 1 ++ host_key.
Definition forged_start : dstate :=
  flow_state (init_host ++ inputs_host ++ forged_outputs_host ++ hashing_host ++ signing_host).

Lemma friend_address :
  output_text flow_env (set_scriptPubKey (friend_script ++ replicate 61 0) 22 empty_in_out) = Val (Some (43, friend)).
Proof. vm_compute. reflexivity. Qed.

Lemma forged_signs :
  sends_ok (handler_sign_psbt flow_env no_swap only_friend true 1) forged_start
    flow_signature = true.
Proof. vm_compute. reflexivity. Qed.

(** C8: the user may confirm an output that is not the one that is signed.  The
    user of this example refuses every output that is not shown with the address
    of a friend, and the host has committed to a transaction with an output to
    another script.  The run sends the signature of this transaction: when the
    outputs are shown, the host answers the request of the script with a
    preimage that is sent byte by byte, of which [call_get_merkle_preimage]
    hashes the right bytes and returns others.  The digest is not the one of the
    transaction that pays to the friend. *)
Theorem forged_output_signed :
  output_text flow_env (set_scriptPubKey (friend_script ++ replicate 61 0) 22 empty_in_out) = Val (Some (43, friend)) ∧
  (∃ s', handler_sign_psbt flow_env no_swap only_friend true 1 forged_start = Val (true, s') ∧
     flow_signature ∈ sent forged_start s') ∧
  flow_digest (pays friend_script) ≠ flow_digest (pays ([0; 20] ++ replicate 20 8)).
Proof.
  split; [exact friend_address|split].
  - destruct (sends_ok_spec _ _ _ forged_signs) as [Hrun Hsent]. eexists. split; [exact Hrun|exact Hsent].
  - by apply (bool_decide_unpack _); vm_compute.
Qed.
