(* ===== verification/SignBounds.v ===== *)
(** * Signing: the arrays

    Where the functions of the signing flow stay within their arrays, and where
    they do not: the path of the signing key, the derivation of a public key,
    and the script of an output. *)

From S2P Require Import Prelude Bytes Bip32 Buffer Merkle Dispatcher MerkleClient MerkleProof Run Script Crypto RawTx Address PolicySyntax PolicyParser PolicyScript PolicyCheck Psbt HostSample Sighash Sign Derivation.

(** ** The path of the signing key *)
Lemma stores_beyond m i l : zlen m < i + zlen l → stores m i l = Undef.
Proof. intros H. rw /stores decide_False //. lia. Qed.

(** C35: the path of the signing key.  With at most 6 steps for the key of the
    placeholder, [get_sign_path] gives them, followed by the step for the kind of
    address and the index of the address.  A key with 7 or 8 steps, which the
    parser of the key information accepts, is written beyond the array of the
    path: the behaviour is undefined. *)
Theorem sign_path_correct uninit info input :
  zlen (key_derivation info) = MAX_BIP32_PATH_STEPS → 0 ≤ key_derivation_length info ≤ MAX_BIP32_PATH_STEPS →
  get_sign_path uninit info input =
    if decide (key_derivation_length info ≤ 6) then
      Val (take (Z.to_nat (key_derivation_length info)) (key_derivation info) ++
           [if is_change (in_out input) then num_second (placeholder info) else num_first (placeholder info);
            u32 (address_index (in_out input))])
    else Undef.
Proof.
  unfold MAX_BIP32_PATH_STEPS. intros Hz Hn. rw /get_sign_path. set (n := key_derivation_length info) in *.
  rw loads_in_range; [|lia..]. cbn [mbind outcome_bind]. rw drop_0. set (steps := take _ _).
  assert (zlen steps = n) as Hs by (unfold steps; rw zlen_take; lia).
  rw stores_in_range; [|lia|rw Hs /zlen length_replicate; unfold MAX_BIP32_PATH_STEPS; lia]. cbn [mbind outcome_bind].
  change (take (Z.to_nat 0) _) with (@nil Z). cbn [app]. set (rest := drop _ _).
  assert (zlen rest = 8 - n) as Hr.
  { unfold rest. rw /zlen length_drop length_replicate. unfold zlen in Hs. change (Z.to_nat MAX_BIP32_PATH_STEPS) with 8%nat. lia. }
  clearbody steps rest. subst n. rewrite -Hs in Hr |- *. clear Hs. case_decide as Hle.
  - destruct rest as [|r0 [|r1 rest]]; rewrite ?zlen_cons ?zlen_nil in Hr; [lia..|].
    rw (stores_middle steps [r0]) //. cbn [mbind outcome_bind app].
    match goal with |- context [steps ++ ?x :: r1 :: rest] => replace (steps ++ x :: r1 :: rest) with ((steps ++ [x]) ++ [r1] ++ rest) by rw -app_assoc //;
      replace (zlen steps + 1) with (zlen (steps ++ [x])) by rw zlen_app // end.
    rw stores_middle //. cbn [mbind outcome_bind]. pose proof (zlen_nonneg steps). pose proof (zlen_nonneg rest).
    rw app_assoc loads_in_range; [|lia|lia|rw !zlen_app !zlen_cons !zlen_nil; lia].
    rw drop_0 take_app_length'; [by rw -app_assoc|]. rw !length_app /zlen /=. lia.
  - destruct rest as [|r0 [|r1 rest]]; rewrite ?zlen_cons ?zlen_nil in Hr.
    + rw stores_beyond // app_nil_r zlen_cons zlen_nil. lia.
    + rw (stores_middle steps [r0]) //. cbn [mbind outcome_bind app]. rw stores_beyond // !zlen_app !zlen_cons !zlen_nil. lia.
    + pose proof (zlen_nonneg rest). lia.
Qed.

Lemma sign_path_correct_witness :
  get_sign_path 0 (mk_placeholder_info (mk_placeholder 0 1 0) 0 0 3 ([1; 2; 3] ++ replicate 5 0) (xpub_of_bytes []) false [])
    (mk_input (mk_in_out (mk_commitment 0 [] []) false true true 9 [] 0) true false false false 0 [] 0 0) = Val [1; 2; 3; 1; 9].
Proof.
  exact (sign_path_correct 0 (mk_placeholder_info (mk_placeholder 0 1 0) 0 0 3 ([1; 2; 3] ++ replicate 5 0) (xpub_of_bytes []) false [])
    (mk_input (mk_in_out (mk_commitment 0 [] []) false true true 9 [] 0) true false false false 0 [] 0 0) eq_refl ltac:(by split)).
Defined.

(** ** The script of an output *)

Lemma io_bind_eq {A B} (m : io A) (k : A → io B) s a s' : m s = Val (a, s') → (m ≫= k) s = k a s'.
Proof. intros H. by rw /mbind /io_bind H. Qed.

Lemma loads_cases m i n : (∃ l, loads m i n = Val l) ∨ loads m i n = Undef.
Proof. rw /loads. case_decide; [left; by eexists|by right]. Qed.

(** C37: [hash_output_n] only recognises the error -1 of the lookup of the script.
    The other errors of [call_get_merkleized_map_value], such as -4 when the
    script is longer than the array, are used as its length: the hash is updated
    with more bytes than the array has, which is undefined. *)
Theorem output_script_error_undefined OS junk tx ctx i s m s1 raw s2 r out s3 :
  i < tx_n_outputs tx →
  get_map OS junk (outputs_root tx) (i32 (tx_n_outputs tx)) (i32 i) s = Val (Some m, s1) →
  get_value OS junk m PSBT_OUT_AMOUNT 8 s1 = Val ((8, raw), s2) →
  get_value OS junk m PSBT_OUT_SCRIPT MAX_OUTPUT_SCRIPTPUBKEY_LEN s2 = Val ((r, out), s3) →
  -2 ^ 31 ≤ r < -1 → zlen out = MAX_OUTPUT_SCRIPTPUBKEY_LEN →
  hash_output_n OS junk tx ctx i s = Undef.
Proof.
  intros Hi Hm Ha Hs Hr Ho. rw /hash_output_n (proj2 (Z.leb_gt _ _)) // (io_bind_eq _ _ _ _ _ Hm) (io_bind_eq _ _ _ _ _ Ha).
  cbn [negb Z.eqb Pos.eqb]. destruct (loads_cases raw 0 8) as [[l Hl]|Hl].
  2:{ by rw /mbind /io_bind /lift /crypto_hash_update Hl. }
  rw (io_bind_eq _ _ s2 (ctx ++ l) s2); [|by rw /lift /crypto_hash_update Hl]. rw (io_bind_eq _ _ _ _ _ Hs). rw (proj2 (Z.eqb_neq _ _)); [|lia].
  rw (io_bind_eq _ _ s3 ((ctx ++ l) ++ varint_enc (u64 r)) s3); [|rw /lift crypto_hash_update_varint_spec; [reflexivity|by apply Z.mod_pos_bound]].
  rw /mbind /io_bind /lift /crypto_hash_update /loads decide_False //.
  rw Ho /u32 -(Z.mod_add _ 1) // Z.mod_small; unfold MAX_OUTPUT_SCRIPTPUBKEY_LEN; lia.
Qed.

Definition long_out : sample_map := [([PSBT_OUT_AMOUNT], le_bytes 8 600); ([PSBT_OUT_SCRIPT], replicate 84 106)].
Definition long_tx : psbt_tx := mk_psbt_tx 2 0 1 [] 1 (sample_root [ser_commitment long_out]).
Definition long_start : dstate := sample_state 0 (host_map [long_out] 0 ++ host_lookups long_out [PSBT_OUT_AMOUNT; PSBT_OUT_SCRIPT]).

Lemma output_script_error_undefined_witness : hash_output_n sample_sdk sample_array long_tx [] 0 long_start = Undef.
Proof.
  eapply output_script_error_undefined; [done|vm_compute; reflexivity..|done|done].
Defined.

(** ** The derivation of a public key *)

(** The steps of a path, 4 bytes each. *)
Fixpoint steps4 (l : list Z) : list Z :=
  match l with
  | a :: b :: c :: d :: l => le_val [a; b; c; d] :: steps4 l
  | _ => []
  end.

(** A fingerprint and a path. *)
Definition derivation_of (l : list Z) : list Z := be_val (take 4 l) :: steps4 (drop 4 l).

Lemma keep_last_suffix out n data :
  size data = zlen (ptr data) → 0 ≤ n ≤ size data → size data < 2 ^ 31 →
  keep_last out n data = stores out 0 (drop (Z.to_nat (size data - n)) (ptr data)).
Proof.
  intros Hs Hn Hz. rw /keep_last !u32_small; [|lia]. rw (proj2 (Z.leb_le _ _)); [|lia].
  rw /buffer_seek_end (proj2 (Z.ltb_ge _ _)); [|lia]. rw /buffer_read_bytes /=. rw u32_small; [|lia].
  rw (proj2 (Z.ltb_ge _ _)); [|lia]. rw loads_in_range; [|lia..]. cbn [mbind outcome_bind mret outcome_ret].
  rw take_ge //. rw length_drop. unfold zlen in Hs. lia.
Qed.

Lemma read_steps_le k i pre l rest :
  bytes_ok (pre ++ l ++ rest) → 1 ≤ i → zlen pre = 4 * i → length l = (4 * k)%nat →
  read_steps k (pre ++ l ++ rest) i = Val (steps4 l).
Proof.
  revert i pre l. induction k as [|k IH]; intros i pre l Hb Hi Hp Hl; [by destruct l|].
  destruct l as [|a [|b [|c [|d l]]]]; try (cbn in Hl; lia). cbn [read_steps]. rw (proj2 (Z.eqb_neq _ _)); [|lia].
  rw read_u32_le_val //; [|lia|rw -Hp !zlen_app !zlen_cons; pose proof (zlen_nonneg l); pose proof (zlen_nonneg rest); lia].
  cbn [mbind outcome_bind]. rw -Hp.
  assert (slice (pre ++ (a :: b :: c :: d :: l) ++ rest) (zlen pre) 4 = [a; b; c; d]) as ->.
  { rw /slice zlen_length drop_app_length. done. }
  replace (pre ++ (a :: b :: c :: d :: l) ++ rest) with ((pre ++ [a; b; c; d]) ++ l ++ rest) in Hb |- * by rw -app_assoc //.
  rw IH //; [lia|rw zlen_app Hp !zlen_cons zlen_nil; lia|cbn in Hl; lia].
Qed.

Lemma read_steps_all k l rest :
  bytes_ok (l ++ rest) → length l = (4 * S k)%nat → read_steps (S k) (l ++ rest) 0 = Val (derivation_of l).
Proof.
  intros Hb Hl. destruct l as [|a [|b [|c [|d l]]]]; try (cbn in Hl; lia). cbn [read_steps Z.eqb Z.mul].
  rw read_u32_be_val //; [|rw !zlen_app !zlen_cons; pose proof (zlen_nonneg l); pose proof (zlen_nonneg rest); lia].
  cbn [mbind outcome_bind]. change ((a :: b :: c :: d :: l) ++ rest) with ([a; b; c; d] ++ l ++ rest) in Hb |- *.
  rw (read_steps_le k 1) //. cbn in Hl. lia.
Qed.

Lemma stores_first m l : zlen l ≤ zlen m → stores m 0 l = Val (l ++ drop (length l) m).
Proof. intros H. by rw stores_in_range. Qed.

(** The value of a derivation field: for taproot keys, the hashes of leaves come
    before the fingerprint and the path. *)
Definition derivation_prefix (ty n : Z) (hashes : list Z) : list Z :=
  if is_tap_derivation ty then varint_enc n ++ hashes else [].

Lemma derivation_length_run ty out n hashes der :
  let l := derivation_prefix ty n hashes ++ der in
  0 ≤ n < 2 ^ 24 → zlen hashes = 32 * n → bytes_ok l → zlen l < 2 ^ 31 →
  ∃ data, ptr data = l ∧ size data = zlen l ∧
    derivation_length (buffer_create l (zlen l)) (mk_fpt_der ty out (zlen l) (-1) 0) =
      Val (if is_tap_derivation ty && (36 <? zlen der) then None else Some (zlen der), data).
Proof.
  cbv zeta. intros Hn Hh Hb Hz. rw /derivation_length. cbn [out_data_length Z.eqb Pos.eqb negb psbt_key_type total_data_length].
  unfold derivation_prefix in *. destruct (is_tap_derivation ty); cbn [negb andb app] in *; [|by exists (buffer_create der (zlen der))].
  rewrite -!app_assoc in Hb Hz |- *. set (l := varint_enc n ++ hashes ++ der) in *.
  pose proof (buffer_read_varint_implements (buffer_create l (zlen l))) as Hv.
  assert (src_rest (buffer_create l (zlen l)) = l) as Hrest.
  { rw /src_rest /= /rest /slice /= drop_0 Z.sub_0_r zlen_length take_ge //. }
  rewrite Hrest /l varint_dec_enc in Hv; [|lia]. destruct Hv as (data & Hrd & _).
  { fold l. pose proof (zlen_nonneg l). split_and!; cbn; try done; lia. }
  cbv beta in Hrd. fold l in Hrd. destruct (read_varint_keeps _ _ _ Hrd) as [Hp Hs]. exists data. splits; [done..|]. rw Hrd.
  cbn [mbind outcome_bind]. rw i32_small; [|lia]. pose proof (varint_size_le n). pose proof (zlen_nonneg der).
  assert (zlen l = varint_size n + 32 * n + zlen der) as Hl by (unfold l; rw !zlen_app varint_enc_zlen Hh; lia).
  assert (1 ≤ varint_size n) as Hv1 by (rw /varint_size; repeat case_match; lia).
  assert (∀ v, 0 ≤ v < 2 ^ 31 → int_val v = Val v) as Hint.
  { intros v Hv. rw /int_val (proj2 (Z.leb_le _ _)); [|lia]. by rw (proj2 (Z.ltb_lt _ _)); [|lia]. }
  rw Hint; [|lia]. cbn [mbind outcome_bind]. rw Hint; [|lia]. cbn [mbind outcome_bind]. rw (proj2 (Z.ltb_ge _ _)); [|lia].
  rw Hint; [|lia]. cbn [mbind outcome_bind]. change (4 * (1 + MAX_BIP32_PATH_STEPS)) with 36.
  replace (zlen l - (varint_size n + 32 * n)) with (zlen der) by lia. by destruct (36 <? zlen der).
Qed.

(** C36: reading the derivation of a public key that the host sends in one answer.
    For the value of a derivation field, [fpt_der_data_callback] keeps the
    fingerprint and the path: all of it, or what follows the hashes for a taproot
    key, and [read_steps] decodes them.  A longer path than the array can hold is
    an error for a taproot key; for the other keys, the length is not checked,
    and the bytes are written beyond the array. *)
Theorem derivation_read_correct ty out n hashes der :
  let l := derivation_prefix ty n hashes ++ der in
  let received := fpt_der_data_callback (buffer_create l (zlen l)) (mk_fpt_der ty out (zlen l) (-1) 0) in
  zlen out = 4 * (1 + MAX_BIP32_PATH_STEPS) → bytes_ok out → 0 ≤ n < 2 ^ 24 → zlen hashes = 32 * n → bytes_ok l → zlen l < 2 ^ 31 →
  if decide (zlen der ≤ 4 * (1 + MAX_BIP32_PATH_STEPS)) then
    ∃ bytes, received = Val (mk_fpt_der ty bytes (zlen l) (zlen der) 0) ∧
      ∀ k, zlen der = 4 * (1 + Z.of_nat k) → read_steps (S k) bytes 0 = Val (derivation_of der)
  else received = if is_tap_derivation ty then Val (mk_fpt_der ty out (zlen l) (-1) (-1)) else Undef.
Proof.
  cbv zeta. change (4 * (1 + MAX_BIP32_PATH_STEPS)) with 36. intros Ho Hbo Hn Hh Hb Hz.
  destruct (derivation_length_run ty out n hashes der Hn Hh Hb Hz) as (data & Hp & Hs & Hd).
  rw /fpt_der_data_callback. cbn [fd_result]. rw Z.ltb_irrefl Hd. cbn [mbind outcome_bind].
  set (l := derivation_prefix ty n hashes ++ der) in *. pose proof (zlen_nonneg der). pose proof (zlen_nonneg (derivation_prefix ty n hashes)).
  assert (zlen l = zlen (derivation_prefix ty n hashes) + zlen der) as Hl by (unfold l; by rw zlen_app).
  assert (keep_last out (zlen der) data = stores out 0 der) as Hk.
  { rw keep_last_suffix; [|congruence|lia|lia]. rw Hs Hp. f_equal. unfold l. rw zlen_app.
    replace (zlen (derivation_prefix ty n hashes) + zlen der - zlen der) with (zlen (derivation_prefix ty n hashes)) by lia.
    by rw zlen_length drop_app_length. }
  case_decide as Hle.
  - rw (proj2 (Z.ltb_ge _ _)) // andb_false_r. cbn [fd_out]. rw Hk stores_first; [|lia]. eexists. split; [reflexivity|]. intros k Hk4.
    apply read_steps_all; [|unfold zlen in Hk4; lia]. apply bytes_ok_app in Hb as [_ Hb]. apply bytes_ok_app. split; [done|by auto with ledger].
  - rw (proj2 (Z.ltb_lt _ _)); [|lia]. rw andb_true_r. destruct (is_tap_derivation ty); [done|].
    cbn [fd_out]. rw Hk stores_beyond //. lia.
Qed.

Lemma derivation_read_correct_witness :
  ∃ bytes, fpt_der_data_callback (buffer_create ([1] ++ replicate 32 7 ++ [1; 2; 3; 4; 5; 0; 0; 0]) 41)
             (mk_fpt_der PSBT_IN_TAP_BIP32_DERIVATION (replicate 36 0) 41 (-1) 0) =
           Val (mk_fpt_der PSBT_IN_TAP_BIP32_DERIVATION bytes 41 8 0) ∧
    ∀ k, 8 = 4 * (1 + Z.of_nat k) → read_steps (S k) bytes 0 = Val [0x01020304; 5].
Proof.
  apply (derivation_read_correct PSBT_IN_TAP_BIP32_DERIVATION (replicate 36 0) 1 (replicate 32 7) [1; 2; 3; 4; 5; 0; 0; 0]);
    try done; by apply (bool_decide_unpack _).
Defined.
