(* ===== verification/Commands.v ===== *)
(** * The other commands, and the main loop

    Models src/src/handler/get_extended_pubkey.c, get_master_fingerprint.c,
    get_wallet_address.c, register_wallet.c and sign_message.c, and the loop of
    src/src/main.c that receives commands.

    As for signing, the decisions of the user are a function [ui] of the screens
    that were accepted before and the screen that asks for a decision.  A command
    that has sent a status word other than SW_OK returns [None]; a command that
    succeeds returns the screens that the user has accepted. *)

From Stdlib Require Ascii String.
From S2P Require Import Prelude Bytes Bip32 Buffer Merkle Dispatcher MerkleClient Script Amount Base58 Crypto RawTx Address PolicySyntax PolicyParser PolicyScript PolicyCheck Psbt Sign Derivation SignFlow.
Import String.StringSyntax Ascii.AsciiSyntax.

Definition MAX_SERIALIZED_BIP32_PATH_LENGTH : Z := 12 * MAX_BIP32_PATH_STEPS.
Definition MAX_BIP44_ADDRESS_INDEX_RECOMMENDED : Z := 50000.
Definition CX_ECCINFO_PARITY_ODD : Z := 1.

(** The screens of ui/display.c that ask for a decision. *)
Inductive prompt : Set :=
| ui_display_pubkey (bip32_path_str : list Z) (is_path_suspicious : bool) (pubkey : list Z)
| ui_display_message_hash (bip32_path_str message_hash : list Z)
| ui_display_register_wallet (wallet_name policy_descriptor : list Z)
| ui_display_policy_map_cosigner_pubkey (pubkey : list Z) (cosigner_index : Z) (is_internal : bool)
| ui_display_wallet_address (wallet_name : option (list Z)) (address : list Z).

(** The text of a path. *)
Definition path_str (bip32_path : list Z) : list Z :=
  if 0 <? zlen bip32_path then default [] (bip32_path_format bip32_path (MAX_SERIALIZED_BIP32_PATH_LENGTH + 1))
  else str "(Master key)".

(** ** get_extended_pubkey.c *)

(** The number of hardened steps of a path with this purpose. *)
Definition hardened_der_len (purpose : Z) : option nat :=
  if bool_decide (purpose ∈ [44; 49; 84; 86]) then Some 3%nat
  else if purpose =? 45 then Some 3%nat
  else if purpose =? 48 then Some 4%nat
  else None.

Definition is_path_safe_for_pubkey_export (coin_type : Z) (bip32_path : list Z) : bool :=
  let H := 0x80000000 in
  let step i := nth i bip32_path 0 in
  if (zlen bip32_path =? 2) && (step 0%nat =? Z.lxor 4541509 H) && (step 1%nat =? Z.lxor 1112098098 H) then true
  else if zlen bip32_path <? 3 then false
  else
    let purpose := Z.land (step 0%nat) 0x7FFFFFFF in
    match hardened_der_len purpose with
    | None => false
    | Some n =>
        if zlen bip32_path <? Z.of_nat n then false
        else if existsb (λ s, s <? H) (take n bip32_path) then false
        else if existsb (λ s, H <=? s) (drop n bip32_path) then false
        else if negb (Z.land (step 1%nat) 0x7FFFFFFF =? coin_type) then false
        else if MAX_BIP44_ACCOUNT_RECOMMENDED <? Z.land (step 2%nat) 0x7FFFFFFF then false
        else if purpose =? 48 then
          let script_type := Z.land (step 3%nat) 0x7FFFFFFF in (script_type =? 1) || (script_type =? 2)
        else true
    end.

(** ** register_wallet.c: names and kinds of policies *)
Definition is_policy_acceptable (policy : policy_node) : bool :=
  match node_type policy with TOKEN_PKH | TOKEN_WPKH | TOKEN_SH | TOKEN_WSH | TOKEN_TR => true | _ => false end.

Fixpoint printable (n : nat) (name : list Z) (i : Z) : outcome bool :=
  match n with
  | O => mret true
  | S n => c ← load name i; if (c <? 0x20) || (0x7E <? c) then mret false else printable n name (i + 1)
  end.

Definition is_policy_name_acceptable (name : list Z) (name_len : Z) : outcome bool :=
  if (name_len =? 0) || (MAX_WALLET_NAME_LENGTH <? name_len) then mret false
  else
    first ← load name 0;
    last ← (if first =? 0x20 then mret 0x20 else load name (name_len - 1));
    if last =? 0x20 then mret false else printable (Z.to_nat name_len) name 0.

(** ** sign_message.c: texts and formats *)
Definition BSM_SIGN_MAGIC : list Z := 0x18 :: str "Bitcoin Signed Message:" ++ [10].
Definition SYSM_SIGN_MAGIC : list Z := 0x18 :: str "Syscoin Signed Message:" ++ [10].

(** ["%02X"]. *)
Definition hex_digit (d : Z) : Z := if d <? 10 then 48 + d else 55 + d.
Definition hex_text (l : list Z) : list Z := concat ((λ b, [hex_digit (b / 16); hex_digit (b mod 16)]) <$> l).

(** The loops that copy [n] bytes, from the last one to the first one. *)
Fixpoint copy_down (n : nat) (src : list Z) (from : Z) (dst : list Z) (to : Z) : outcome (list Z) :=
  match n with
  | O => mret dst
  | S n =>
      b ← load src (from + Z.of_nat n);
      dst ← stores dst (to + Z.of_nat n) [b];
      copy_down n src from dst to
  end.

(** The signature in the format of 65 bytes. *)
Definition compact_signature (sig : list Z) (info : Z) : outcome (option (list Z)) :=
  r_length ← load sig 3;
  s_length ← load sig (4 + r_length + 1);
  if (33 <? r_length) || (33 <? s_length) then mret None
  else
    result ← copy_down (Z.to_nat s_length) sig (4 + r_length + 2) (replicate 65 0) (1 + 32 + 32 - s_length);
    result ← copy_down (Z.to_nat r_length) sig 4 result (1 + 32 - r_length);
    result ← stores result 0 [27 + 4 + if negb (Z.land info CX_ECCINFO_PARITY_ODD =? 0) then 1 else 0];
    mret (Some result).

Section commands.
Context (E : env) (swap : swap_globals) (ui : list prompt → prompt → bool) (pin_validated : bool).

(** Memory that is not initialised, and the memory of the tables of thresh: see
    [is_policy_sane]. *)
Context (uninit_kp : policy_node_key_placeholder) (shared : bool) (table_mem : list Z).

#[local] Abbreviation sha256 := (cx_sha256 (os E)).

Definition confirm (screens : list prompt) (p : prompt) : io (option (list prompt)) :=
  if ui screens p then mret (Some (screens ++ [p])) else fail SW_DENY.

(** The end of a command that succeeds. *)
Definition respond (rdata : list Z) (screens : list prompt) : io (option (list prompt)) :=
  _ ← SEND_RESPONSE rdata SW_OK; mret (Some screens).

Definition rb_read_bip32_path (n : Z) : io (option (list Z)) := rb_read (λ b, buffer_read_bip32_path b n).

(** ** get_extended_pubkey.c *)

(** The serialized key at a path, with its checksum, in base 58. *)
Definition extended_pubkey_str (bip32_path : list Z) : outcome (option (list Z)) :=
  match get_extended_pubkey_at_path (os E) bip32_path (BIP32_PUBKEY_VERSION E) with
  | None => mret None
  | Some k =>
      let pubkey_check := xpub_bytes k ++ crypto_get_checksum sha256 (xpub_bytes k) in
      s ← base58_encode pubkey_check (zlen pubkey_check) (MAX_SERIALIZED_PUBKEY_LENGTH + 1);
      mret match s with
           | Some pubkey_str => if bool_decide (zlen pubkey_str ∈ [111; 112]) then Some pubkey_str else None
           | None => None
           end
  end.

Definition handler_get_extended_pubkey : io (option (list prompt)) :=
  if negb pin_validated then fail SW_SECURITY_STATUS_NOT_SATISFIED
  else
    display ← rb_read_u8;
    bip32_path_len ← (match display with None => mret None | Some _ => rb_read_u8 end);
    match display, bip32_path_len with
    | Some display, Some bip32_path_len =>
        if (1 <? display) || (MAX_BIP32_PATH_STEPS <? bip32_path_len) then fail SW_INCORRECT_DATA
        else
          path ← rb_read_bip32_path bip32_path_len;
          match path with
          | None => fail SW_WRONG_DATA_LENGTH
          | Some bip32_path =>
              let is_safe := is_path_safe_for_pubkey_export (BIP44_COIN_TYPE E) bip32_path in
              if negb is_safe && (display =? 0) then fail SW_NOT_SUPPORTED
              else
                s ← lift (extended_pubkey_str bip32_path);
                match s with
                | None => fail SW_BAD_STATE
                | Some pubkey_str =>
                    r ← (if negb (display =? 0) then confirm [] (ui_display_pubkey (path_str bip32_path) (negb is_safe) pubkey_str)
                         else mret (Some []));
                    match r with
                    | None => mret None
                    | Some screens => respond pubkey_str screens
                    end
                end
          end
    | _, _ => fail SW_WRONG_DATA_LENGTH
    end.

(** ** get_master_fingerprint.c *)
Definition handler_get_master_fingerprint : io (option (list prompt)) :=
  if negb pin_validated then fail SW_SECURITY_STATUS_NOT_SATISFIED
  else
    match crypto_get_compressed_pubkey_at_path (os E) (crypto_get_master_fingerprint_path (BIP32_PUBKEY_VERSION E)) with
    | None => fail SW_BAD_STATE
    | Some (master_pubkey, _) =>
        master_fingerprint_be ← lift (write_u32_be (arr E 4) 0 (crypto_get_key_fingerprint (os E) master_pubkey));
        respond master_fingerprint_be []
    end.

(** ** get_wallet_address.c *)

(** The fields of the command: whether to display the address, the identifier
    and the HMAC of the wallet, whether it is a change address, and its index. *)
Definition read_address_command : io (option (Z * list Z * list Z * Z * Z)) :=
  display_address ← rb_read_u8;
  wallet_id ← (match display_address with None => mret None | Some _ => rb_read_bytes 32 end);
  wallet_hmac ← (match wallet_id with None => mret None | Some _ => rb_read_bytes 32 end);
  match display_address, wallet_id, wallet_hmac with
  | Some display_address, Some wallet_id, Some wallet_hmac =>
      is_change ← rb_read_u8;
      match is_change with
      | None => fail SW_WRONG_DATA_LENGTH
      | Some is_change =>
          if negb (is_change =? 0) && negb (is_change =? 1) then fail SW_INCORRECT_DATA
          else
            address_index ← rb_read (λ b, as_read (buffer_read_u32 b BE));
            match address_index with
            | None => fail SW_WRONG_DATA_LENGTH
            | Some address_index =>
                if BIP32_FIRST_HARDENED_CHILD <=? address_index then fail SW_INCORRECT_DATA
                else mret (Some (display_address, wallet_id, wallet_hmac, is_change, address_index))
            end
      end
  | _, _, _ => fail SW_WRONG_DATA_LENGTH
  end.

(** The policy with the identifier [wallet_id]. *)
Definition fetch_policy (wallet_id : list Z) : io (option (policy_map_wallet_header * policy_node)) :=
  '(len, serialized) ← call_get_preimage sha256 wallet_id (arr E MAX_WALLET_POLICY_SERIALIZED_LENGTH);
  if len <? 0 then fail SW_INCORRECT_DATA
  else
    r ← read_and_parse_wallet_policy (os E) (MAX_DESCRIPTOR_TEMPLATE_LENGTH_V2 E) (sizeof E) (policy_base E)
          (buffer_create serialized len)
          (arr E (Z.max MAX_DESCRIPTOR_TEMPLATE_LENGTH_V1 (MAX_DESCRIPTOR_TEMPLATE_LENGTH_V2 E)))
          (arr E (MAX_WALLET_POLICY_BYTES E)) (MAX_WALLET_POLICY_BYTES E);
    match r with
    | None => fail SW_INCORRECT_DATA
    | Some (wallet_header, _, policy) => mret (Some (wallet_header, policy))
    end.

(** A policy that may be used: with no HMAC, a standard one with a small index. *)
Definition authorize_policy (wallet_header : policy_map_wallet_header) (policy : policy_node)
    (wallet_id wallet_hmac : list Z) (address_index : Z) : io (option bool) :=
  if foldl Z.lor 0 wallet_hmac =? 0 then
    standard ← is_wallet_policy_standard (os E) (jk E) (BIP32_PUBKEY_VERSION E) (BIP44_COIN_TYPE E) (arr E 33) wallet_header policy;
    if negb standard then fail SW_INCORRECT_DATA
    else if negb (name_len wallet_header =? 0) then fail SW_INCORRECT_DATA
    else if MAX_BIP44_ADDRESS_INDEX_RECOMMENDED <? address_index then fail SW_INCORRECT_DATA
    else mret (Some true)
  else
    ok ← lift (check_wallet_hmac (os E) wallet_id wallet_hmac);
    if negb ok then fail SW_SIGNATURE_FAIL else mret (Some false).

(** The address of a policy, as a text; [None] when there is none. *)
Definition policy_address (wallet_header : policy_map_wallet_header) (policy : policy_node) (is_change : bool) (address_index : Z)
    : io (option (list Z)) :=
  s ← get_wallet_script (os E) (jk E) (arr E MAX_PREVOUT_SCRIPTPUBKEY_LEN) policy
        (mk_wdi (version wallet_header) (keys_info_merkle_root wallet_header) (n_keys wallet_header) address_index is_change);
  match s with
  | None => mret None
  | Some script =>
      mem ← lift (stores (arr E MAX_PREVOUT_SCRIPTPUBKEY_LEN) 0 script);
      '(address_len, address) ← lift (get_script_address (os E) (the_coin E) (arr E 65) mem (zlen script)
                                        (arr E (72 + (zlen (COIN_NATIVE_SEGWIT_PREFIX (the_coin E)) + 1) + 1)));
      if address_len <? 0 then mret None
      else address ← lift (loads address 0 address_len); mret (Some address)
  end.

Definition handler_get_wallet_address : io (option (list prompt)) :=
  if negb pin_validated then fail SW_SECURITY_STATUS_NOT_SATISFIED
  else
    c ← read_address_command;
    match c with
    | None => mret None
    | Some (display_address, wallet_id, wallet_hmac, is_change, address_index) =>
        r ← fetch_policy wallet_id;
        match r with
        | None => mret None
        | Some (wallet_header, policy) =>
            d ← authorize_policy wallet_header policy wallet_id wallet_hmac address_index;
            match d with
            | None => mret None
            | Some is_wallet_default =>
                if called_from_swap swap && negb is_wallet_default then fail SW_INCORRECT_DATA
                else
                  computed_wallet_id ← lift (get_policy_wallet_id sha256 wallet_header);
                  if negb (bool_decide (wallet_id = computed_wallet_id)) then fail SW_INCORRECT_DATA
                  else
                    a ← policy_address wallet_header policy (negb (is_change =? 0)) address_index;
                    match a with
                    | None => fail SW_BAD_STATE
                    | Some address =>
                        r ← (if negb (display_address =? 0) then
                               confirm [] (ui_display_wallet_address
                                             (if is_wallet_default then None else Some (c_string (name wallet_header))) address)
                             else mret (Some []));
                        match r with
                        | None => mret None
                        | Some screens => respond address screens
                        end
                    end
            end
        end
    end.

(** ** register_wallet.c *)

(** The text of the [i]-th key of a policy, and whether the key is one of the
    device. *)
Definition cosigner_key (wallet_header : policy_map_wallet_header) (master_fingerprint i : Z) : io (option (list Z * bool)) :=
  '(pubkey_info_len, info) ←
    call_get_merkle_leaf_element sha256 (keys_info_merkle_root wallet_header) (n_keys wallet_header) i (arr E MAX_POLICY_KEY_INFO_LEN);
  if pubkey_info_len <? 0 then fail SW_INCORRECT_DATA
  else
    next_pubkey_info ← lift (stores (info ++ arr E 1) pubkey_info_len [0]);
    r ← lift (parse_policy_map_key_info sha256 (junk_check (jk E)) (version wallet_header)
                (mk_parse_state (buffer_create next_pubkey_info pubkey_info_len) (buffer_create [] 0)));
    match r with
    | None => fail SW_INCORRECT_DATA
    | Some (key_info, _) =>
        fpr ← lift (if has_key_origin key_info then v ← read_u32_be (master_key_fingerprint key_info) 0; mret (Some v) else mret None);
        if bool_decide (fpr = Some master_fingerprint) then
          path ← lift (loads (master_key_derivation key_info) 0 (master_key_derivation_len key_info));
          match get_extended_pubkey_at_path (os E) path (BIP32_PUBKEY_VERSION E) with
          | None => fail SW_BAD_STATE
          | Some pubkey_derived =>
              mret (Some (c_string next_pubkey_info, bool_decide (ext_pubkey key_info = xpub_bytes pubkey_derived)))
          end
        else mret (Some (c_string next_pubkey_info, false))
    end.

(** The keys are shown one by one; the results are the screens and the number
    of keys of the device.  Every key needs an answer of the host. *)
Fixpoint cosigners_loop (fuel : nat) (wallet_header : policy_map_wallet_header) (master_fingerprint : Z)
    (screens : list prompt) (n_internal_keys i : Z) : io (option (list prompt * Z)) :=
  match fuel with
  | O => λ _, OutOfFuel
  | S f =>
      if i <? n_keys wallet_header then
        k ← cosigner_key wallet_header master_fingerprint i;
        match k with
        | None => mret None
        | Some (pubkey_info, is_key_internal) =>
            r ← confirm screens (ui_display_policy_map_cosigner_pubkey pubkey_info (u8 i) is_key_internal);
            match r with
            | None => mret None
            | Some screens =>
                cosigners_loop f wallet_header master_fingerprint screens
                  (n_internal_keys + if (is_key_internal : bool) then 1 else 0) (i + 1)
            end
        end
      else mret (Some (screens, n_internal_keys))
  end.

(** The policy of the command.  Its header is read from the command, before any
    exchange with the host. *)
Definition read_policy : io (option (policy_map_wallet_header * list Z * policy_node)) :=
  buf ← gets read_buffer;
  r ← read_and_parse_wallet_policy (os E) (MAX_DESCRIPTOR_TEMPLATE_LENGTH_V2 E) (sizeof E) (policy_base E) buf
        (arr E (Z.max MAX_DESCRIPTOR_TEMPLATE_LENGTH_V1 (MAX_DESCRIPTOR_TEMPLATE_LENGTH_V2 E)))
        (arr E (MAX_WALLET_POLICY_BYTES E)) (MAX_WALLET_POLICY_BYTES E);
  match r with
  | None => fail SW_INCORRECT_DATA
  | Some r => mret (Some r)
  end.

(** The checks of a policy before it is shown; the result is its identifier. *)
Definition check_policy (wallet_header : policy_map_wallet_header) (policy : policy_node) : io (option (list Z)) :=
  if negb (count_distinct_keys_info uninit_kp policy =? i32 (n_keys wallet_header)) then fail SW_INCORRECT_DATA
  else
    wallet_id ← lift (get_policy_wallet_id sha256 wallet_header);
    ok ← lift (is_policy_name_acceptable (name wallet_header) (name_len wallet_header));
    if negb ok then fail SW_INCORRECT_DATA
    else if negb (is_policy_acceptable policy) then fail SW_NOT_SUPPORTED
    else
      sane ← is_policy_sane (os E) (jk E) uninit_kp shared table_mem policy (version wallet_header)
               (keys_info_merkle_root wallet_header) (u32 (n_keys wallet_header));
      if sane <? 0 then fail SW_NOT_SUPPORTED else mret (Some wallet_id).

Definition handler_register_wallet : io (option (list prompt)) :=
  if negb pin_validated then fail SW_SECURITY_STATUS_NOT_SATISFIED
  else
    serialized_policy_map_len ← rb_read_varint;
    match serialized_policy_map_len with
    | None => fail SW_WRONG_DATA_LENGTH
    | Some _ =>
        p ← read_policy;
        match p with
        | None => mret None
        | Some (wallet_header, policy_map_descriptor, policy) =>
            id ← check_policy wallet_header policy;
            match id with
            | None => mret None
            | Some wallet_id =>
                r ← confirm [] (ui_display_register_wallet
                                  (c_string (take (Z.to_nat (name_len wallet_header)) (name wallet_header)))
                                  (c_string (take (Z.to_nat (descriptor_template_len wallet_header)) policy_map_descriptor)));
                match r with
                | None => mret None
                | Some screens =>
                    fuel ← answers_left;
                    r ← cosigners_loop (S fuel) wallet_header
                          (crypto_get_master_key_fingerprint (os E) (BIP32_PUBKEY_VERSION E) (arr E 33)) screens 0 0;
                    match r with
                    | None => mret None
                    | Some (screens, n_internal_keys) =>
                        if n_internal_keys <? 1 then fail SW_INCORRECT_DATA
                        else if negb (n_internal_keys =? 1) && (version wallet_header =? WALLET_POLICY_VERSION_V1)
                        then fail SW_INCORRECT_DATA
                        else
                          h ← lift (compute_wallet_hmac (os E) wallet_id);
                          respond (wallet_id ++ default (arr E 32) h) screens
                    end
                end
            end
        end
    end.

(** ** sign_message.c *)

(** The chunks of the message; each one needs an answer of the host. *)
Fixpoint chunks_loop (fuel : nat) (message_merkle_root : list Z) (n_chunks : Z) (msg bsm : list Z) (i : Z)
    : io (option (list Z * list Z)) :=
  match fuel with
  | O => λ _, OutOfFuel
  | S f =>
      if i <? n_chunks then
        '(chunk_len, message_chunk) ← call_get_merkle_leaf_element sha256 message_merkle_root n_chunks i (arr E 64);
        if (chunk_len <? 0) || (negb (chunk_len =? 64) && negb (i =? size_t (n_chunks - 1))) then fail SW_BAD_STATE
        else
          msg ← lift (crypto_hash_update msg message_chunk chunk_len);
          bsm ← lift (crypto_hash_update bsm message_chunk chunk_len);
          chunks_loop f message_merkle_root n_chunks msg bsm (i + 1)
      else mret (Some (msg, bsm))
  end.

(** The path, the length and the root of the message. *)
Definition read_message_command : io (option (list Z * Z * list Z)) :=
  bip32_path_len ← rb_read_u8;
  path ← (match bip32_path_len with None => mret None | Some n => rb_read_bip32_path n end);
  message_length ← (match path with None => mret None | Some _ => rb_read_varint end);
  root ← (match message_length with None => mret None | Some _ => rb_read_bytes 32 end);
  match path, message_length, root with
  | Some path, Some message_length, Some root =>
      if (MAX_BIP32_PATH_STEPS <? default 0 bip32_path_len) || (2 ^ 32 <=? message_length) then fail SW_INCORRECT_DATA
      else mret (Some (path, message_length, root))
  | _, _, _ => fail SW_WRONG_DATA_LENGTH
  end.

Definition sign_magic : list Z := if BIP44_COIN_TYPE E =? 57 then SYSM_SIGN_MAGIC else BSM_SIGN_MAGIC.

Definition handler_sign_message : io (option (list prompt)) :=
  if negb pin_validated then fail SW_SECURITY_STATUS_NOT_SATISFIED
  else
    c ← read_message_command;
    match c with
    | None => mret None
    | Some (bip32_path, message_length, message_merkle_root) =>
        bsm ← lift (crypto_hash_update [] sign_magic (zlen BSM_SIGN_MAGIC));
        bsm ← lift (crypto_hash_update_varint bsm message_length);
        fuel ← answers_left;
        m ← chunks_loop (S fuel) message_merkle_root ((message_length + 63) / 64) [] bsm 0;
        match m with
        | None => mret None
        | Some (msg, bsm) =>
            r ← confirm [] (ui_display_message_hash (path_str bip32_path) (hex_text (sha256 msg)));
            match r with
            | None => mret None
            | Some screens =>
                match crypto_ecdsa_sign_sha256_hash_with_key (keys E) bip32_path (sha256 (sha256 bsm)) false with
                | None => fail SW_BAD_STATE
                | Some (der, _, info) =>
                    sig ← lift (stores (arr E MAX_DER_SIG_LEN) 0 der);
                    result ← lift (compact_signature sig info);
                    match result with
                    | None => fail SW_BAD_STATE
                    | Some result => respond result screens
                    end
                end
            end
        end
    end.

(** ** main.c

    [psbt_ui] are the decisions for the screens of the signing command. *)
Context (psbt_ui : list screen → screen → bool).

Definition unit_of {A} (m : io A) (_ : Z) : io () := _ ← m; mret ().

Definition COMMAND_DESCRIPTORS : list command_descriptor :=
  [mk_descriptor (unit_of handler_get_extended_pubkey) CLA_APP GET_EXTENDED_PUBKEY;
   mk_descriptor (unit_of handler_get_wallet_address) CLA_APP GET_WALLET_ADDRESS;
   mk_descriptor (unit_of handler_register_wallet) CLA_APP REGISTER_WALLET;
   mk_descriptor (λ v, _ ← handler_sign_psbt E swap psbt_ui pin_validated v; mret ()) CLA_APP SIGN_PSBT;
   mk_descriptor (unit_of handler_get_master_fingerprint) CLA_APP GET_MASTER_FINGERPRINT;
   mk_descriptor (unit_of handler_sign_message) CLA_APP SIGN_MESSAGE].

(** The commands that are allowed in a swap. *)
Definition swap_allows (ins : Z) : bool :=
  bool_decide (ins ∈ [GET_EXTENDED_PUBKEY; GET_WALLET_ADDRESS; SIGN_PSBT; GET_MASTER_FINGERPRINT]).

(** A command that has been received. *)
Definition process_command (cmd : command) : io () :=
  if called_from_swap swap && negb (cla cmd =? CLA_APP) then io_send_sw SW_CLA_NOT_SUPPORTED
  else if called_from_swap swap && negb (swap_allows (ins cmd)) then io_send_sw SW_INS_NOT_SUPPORTED
  else apdu_dispatcher COMMAND_DESCRIPTORS cmd.

(** An iteration of [app_main] up to the end of a command; [false] when the loop
    ends.  The end of the application after a transaction of a swap
    ([should_exit]) is not in the model. *)
Definition app_main_step : io bool :=
  _ ← modify (set_output_len 0);
  input_len ← io_exchange 0;
  if input_len <? 0 then mret false
  else
    buf ← gets apdu_buf;
    r ← lift (apdu_parser buf (size_t input_len));
    match r with
    | None => _ ← io_send_sw SW_WRONG_DATA_LENGTH; mret false
    | Some cmd => _ ← process_command cmd; mret true
    end.
End commands.
