(* ===== verification/CommandSample.v ===== *)
(** * The other commands: examples

    Runs of the commands of Commands.v for the wallet and the host of
    SignSample.v: the export of a key, an address, a registration and the
    signature of a message. *)

From Stdlib Require Ascii String.
Import String.StringSyntax Ascii.AsciiSyntax.
From S2P Require Import Prelude Bytes Bip32 Buffer Merkle Dispatcher MerkleClient MerkleProof Run Script Base58 Crypto RawTx Address PolicySyntax PolicyParser PolicyScript PolicyMachine PolicyCheck Psbt HostSample Sighash Sign Derivation SignFlow Messages SignSample Commands.

(** A command with its data, and the next answers of the host. *)
Definition command_state (ins : Z) (data : list Z) (rx : list exchange) : dstate :=
  mk_dstate ([CLA_APP; ins; 0; 1; zlen data] ++ data ++ replicate (Z.to_nat (255 - zlen data)) 0) 0 (Some OFFSET_CDATA)
    (zlen data) 0 0 sample_ux rx [].

(** What a command that succeeds returns. *)
Definition screens_of (m : io (option (list prompt))) (s : dstate) : list prompt := match m s with Val (Some l, _) => l | _ => [] end.
Definition succeeds (m : io (option (list prompt))) (s : dstate) : bool := match m s with Val (Some _, _) => true | _ => false end.

Lemma succeeds_spec m s : succeeds m s = true → m s = Val (Some (screens_of m s), end_of m s).
Proof. rw /succeeds /screens_of /end_of. by destruct (m s) as [[[l|] s']| | |]. Qed.

Definition wf_state (s : dstate) : bool :=
  bool_decide (zlen (apdu_buf s) = IO_APDU_BUFFER_SIZE) && bool_decide (bytes_ok (apdu_buf s)) && bool_decide (output_len s = 0) &&
  bool_decide (rb_base s = Some OFFSET_CDATA) && bool_decide (wf_buffer (read_buffer s)) && bool_decide (0 ≤ ticks (ux s) < 2 ^ 16) &&
  bool_decide (Forall wf_exchange (rx s)).

Lemma wf_state_spec s : wf_state s = true → ready s ∧ wf_dstate s.
Proof.
  rw /wf_state. intros H. repeat (apply andb_prop in H as [H ?]).
  repeat match goal with Hb : bool_decide _ = true |- _ => apply bool_decide_eq_true in Hb end.
  split; [by repeat split|]. split; [done|done| |by right|done|done|done]. match goal with Ho : output_len s = 0 |- _ => rewrite Ho end. done.
Qed.

Definition yes : list prompt → prompt → bool := λ _ _, true.

(** ** The commands *)
Definition path_data (path : list Z) : list Z := zlen path :: concat ((λ n, reverse (le_bytes 4 n)) <$> path).

Definition pubkey_start : dstate := command_state GET_EXTENDED_PUBKEY (0 :: path_data flow_path) [].
Abbreviation pubkey_run := (handler_get_extended_pubkey flow_env yes true).

Definition address_start : dstate :=
  command_state GET_WALLET_ADDRESS ([1] ++ toy_hash flow_wallet ++ replicate 32 7 ++ [0] ++ reverse (le_bytes 4 3))
    ([host_preimage flow_wallet; host_preimage flow_template] ++ host_key).
Abbreviation wallet_address_run := (handler_get_wallet_address flow_env no_swap yes true).

Definition no_placeholder : policy_node_key_placeholder := mk_placeholder 0 0 0.
Definition register_start : dstate :=
  command_state REGISTER_WALLET (zlen flow_wallet :: flow_wallet) ([host_preimage flow_template] ++ host_key ++ host_key).
Abbreviation register_run := (handler_register_wallet flow_env yes true no_placeholder false []).

(** The signature has two integers of 32 and of 33 bytes. *)
Definition message_signer : signer :=
  mk_signer (λ _, Some (replicate 32 9)) (λ _, Some (4 :: replicate 64 5)) (λ _ h, Some ([0x30; 69; 2; 32] ++ h ++ [2; 33; 0] ++ replicate 32 200, 1))
    (λ _ h, Some (h ++ h)).
Definition message_env : env :=
  mk_env flow_sdk message_signer sample_junk sample_array 0 (λ k _, k) syscoin 0x0488B21E 57 192 768 sample_abi 0 false.
Definition message_text : list Z := str "Pay to the order of the bearer".
Definition message_start : dstate :=
  command_state SIGN_MESSAGE (path_data flow_path ++ [zlen message_text] ++ sample_root [message_text]) (host_element [message_text] 0).
Abbreviation message_run := (handler_sign_message message_env yes true).

Definition runs_ok (m : io (option (list prompt))) (s : dstate) : bool := wf_state s && succeeds m s.

Lemma runs_ok_spec m s : runs_ok m s = true → ready s ∧ wf_dstate s ∧ m s = Val (Some (screens_of m s), end_of m s).
Proof. rw /runs_ok. intros [Hw%wf_state_spec Hs%succeeds_spec]%andb_prop. destruct Hw as [Hr Hw]. exact (conj Hr (conj Hw Hs)). Qed.

Lemma commands_run :
  runs_ok pubkey_run pubkey_start = true ∧ runs_ok wallet_address_run address_start = true ∧
  runs_ok register_run register_start = true ∧ runs_ok message_run message_start = true.
Proof. vm_compute. by repeat split. Qed.
