(* ===== verification/CommandsProof.v ===== *)
(** * The other commands: theorems

    What the commands of Commands.v send, and when: a key is exported without a
    screen only at a standard path, an address is one of a policy that is
    registered or standard, a policy is registered after the user has accepted
    its name, its descriptor template and all of its keys, and a message is
    signed after its hash has been accepted. *)

From S2P Require Import Prelude Bytes Bip32 Buffer Merkle Dispatcher MerkleClient Run Script Amount Base58 Crypto RawTx Address PolicySyntax PolicyParser PolicyScript PolicyCheck Psbt HostSample Sighash Sign Derivation SignFlow FlowKeeps Messages Confirm SignSample Commands CommandSample.

(** ** What a command respects *)

(** As [solve_keeps], for a match on three terms. *)
Ltac solve_keeps3 :=
  solve_keeps; repeat match goal with |- Keeps _ ((match ?x with _ => _ end) _ _) => destruct x end; solve_keeps.

Section keeps.
Context (R : relation dstate) `{!PreOrder R, !Protocol R} (E : env) (ui : list prompt → prompt → bool).
Context (uninit_kp : policy_node_key_placeholder) (shared : bool) (mem : list Z).

Global Instance keeps_prompt screens p : Keeps R (Commands.confirm ui screens p).
Proof. rw /Commands.confirm. solve_keeps. Qed.

Global Instance keeps_read_path n : Keeps R (rb_read_bip32_path n).
Proof. rw /rb_read_bip32_path. solve_keeps. Qed.

Global Instance keeps_address_command : Keeps R read_address_command.
Proof. rw /read_address_command /rb_read_u8 /rb_read_bytes. solve_keeps3. Qed.

Global Instance keeps_fetch_policy w : Keeps R (fetch_policy E w).
Proof. rw /fetch_policy. solve_keeps. Qed.

Global Instance keeps_authorize h p w m i : Keeps R (authorize_policy E h p w m i).
Proof. rw /authorize_policy. solve_keeps. Qed.

Global Instance keeps_policy_address h p c i : Keeps R (policy_address E h p c i).
Proof. rw /policy_address. solve_keeps. Qed.

Global Instance keeps_cosigner_key h f i : Keeps R (cosigner_key E h f i).
Proof. rw /cosigner_key. solve_keeps. Qed.

Global Instance keeps_cosigners fuel h f screens n i : Keeps R (cosigners_loop E ui fuel h f screens n i).
Proof. revert screens n i. induction fuel; intros; cbn [cosigners_loop]; solve_keeps. Qed.

Global Instance keeps_read_policy : Keeps R (read_policy E).
Proof. rw /read_policy. solve_keeps. Qed.

Global Instance keeps_differs_from (get : Z → io (option serialized_extended_pubkey)) k n j :
  (∀ i, Keeps R (get i)) → Keeps R (differs_from get k n j).
Proof. intros Hg. revert j. induction n; intros; cbn [differs_from]; solve_keeps. Qed.

Global Instance keeps_all_distinct (get : Z → io (option serialized_extended_pubkey)) n_keys n i :
  (∀ i, Keeps R (get i)) → Keeps R (all_distinct get n_keys n i).
Proof. intros Hg. revert i. induction n; intros; cbn [all_distinct]; solve_keeps. Qed.

Global Instance keeps_pubkey_from_tree os J v root n i : Keeps R (get_pubkey_from_merkle_tree os J v root n i).
Proof. rw /get_pubkey_from_merkle_tree. solve_keeps. Qed.

Global Instance keeps_sane os J policy v root n : Keeps R (is_policy_sane os J uninit_kp shared mem policy v root n).
Proof. rw /is_policy_sane. solve_keeps. Qed.

Global Instance keeps_check_policy h policy : Keeps R (check_policy E uninit_kp shared mem h policy).
Proof. rw /check_policy. solve_keeps. Qed.

Global Instance keeps_chunks fuel root n msg bsm i : Keeps R (chunks_loop E fuel root n msg bsm i).
Proof. revert msg bsm i. induction fuel; intros; cbn [chunks_loop]; solve_keeps. Qed.

Global Instance keeps_message_command : Keeps R read_message_command.
Proof. rw /read_message_command /rb_read_u8 /rb_read_bytes /rb_read_varint. solve_keeps3. Qed.
End keeps.

(** ** The response *)

(** A response that fits is sent with its status word. *)
Definition response (rdata : list Z) : list Z := rdata ++ sw_bytes SW_OK.

Lemma respond_run rdata screens s r s' :
  ready s → zlen rdata < 258 → respond rdata screens s = Val (r, s') →
  r = Some screens ∧ tx s' = tx s ++ [response rdata].
Proof.
  intros Hr Hz H. rw /respond /SEND_RESPONSE in H. run_inv H. split; [done|]. apply holds_ready in Hr.
  do 2 (holding; [|rw ?zlen_app ?zlen_nil; lia]). destruct Hr as (_ & Ho & Hm). rw /io_confirm_response in Hrun. run_inv Hrun.
  match goal with Hl : loads _ _ _ = _ |- _ => apply loads_Val in Hl as (_ & _ & _ & ->) end.
  rewrite Ho drop_0 zlen_length Hm. cbn. f_equal. congruence.
Qed.

(** A command that sends its response after messages without signatures: the
    response is the last message. *)
Lemma responds rdata screens s s1 r s' :
  ready s → quiet s s1 → zlen rdata < 258 → respond rdata screens s1 = Val (r, s') →
  r = Some screens ∧ last (tx s') = Some (response rdata).
Proof.
  intros Hs Hq Hz H. destruct (Hq Hs) as [Hr _]. apply respond_run in H as [-> ->]; [|done..]. split; [done|]. by rw last_snoc.
Qed.

(** ** Paths that are exported without a screen *)

(** A hardened step. *)
Definition hardened (n : Z) : Z := n + 2 ^ 31.

(** The purpose, the coin, the account and the script type of BIP-48, then steps
    that are not hardened; or the path of the encryption keys of Electrum. *)
Definition exportable (coin_type : Z) (path : list Z) : Prop :=
  path = [hardened 4541509; hardened 1112098098] ∨
  ∃ purpose account script_type rest,
    path = hardened purpose :: hardened coin_type :: hardened account :: script_type ++ rest ∧
    (purpose ∈ [44; 45; 49; 84; 86] ∧ script_type = [] ∨
     purpose = 48 ∧ (script_type = [hardened 1] ∨ script_type = [hardened 2])) ∧
    0 ≤ account ≤ MAX_BIP44_ACCOUNT_RECOMMENDED ∧ Forall (λ s, s < 2 ^ 31) rest.

(** The steps of a path are numbers of 32 bits. *)
Definition path_ok (path : list Z) : Prop := Forall (λ s, 0 ≤ s < 2 ^ 32) path.

Lemma land_hardened s : 2 ^ 31 ≤ s < 2 ^ 32 → hardened (Z.land s 0x7FFFFFFF) = s.
Proof.
  intros Hs. change 0x7FFFFFFF with (Z.ones 31). rw Z.land_ones // /hardened.
  rw (Z.mod_eq s (2 ^ 31)) //. assert (s / 2 ^ 31 = 1) as ->; [|lia]. symmetry. apply Z.div_unique with (s - 2 ^ 31); lia.
Qed.

Lemma hardened_land n : 0 ≤ n < 2 ^ 31 → Z.land (hardened n) 0x7FFFFFFF = n.
Proof.
  intros Hn. change 0x7FFFFFFF with (Z.ones 31). rw Z.land_ones // /hardened.
  rw -(Z.mul_1_l (2 ^ 31)) Z.mod_add // Z.mod_small //.
Qed.

Lemma existsb_false {A} (f : A → bool) l : existsb f l = false ↔ Forall (λ x, f x = false) l.
Proof.
  induction l as [|x l IH]; cbn; [by split|]. rw orb_false_iff IH Forall_cons //.
Qed.

Lemma hardened_der_len_cases p n :
  hardened_der_len p = Some n ↔ (p ∈ [44; 45; 49; 84; 86] ∧ n = 3%nat) ∨ (p = 48 ∧ n = 4%nat).
Proof.
  rw /hardened_der_len. split.
  - case_bool_decide as Hp; [intros [= <-]; left; split; [set_solver|done]|].
    destruct (Z.eqb_spec p 45); [intros [= <-]; left; split; [set_solver|done]|]. destruct (Z.eqb_spec p 48); [|done].
    intros [= <-]. by right.
  - intros [[Hp ->]|[-> ->]]; [|done]. rewrite !elem_of_cons in Hp. by destruct Hp as [->|[->|[->|[->|[->|[]%elem_of_nil]]]]].
Qed.

Lemma path_safe_exportable coin_type path :
  0 ≤ coin_type < 2 ^ 31 → path_ok path →
  is_path_safe_for_pubkey_export coin_type path = true → exportable coin_type path.
Proof.
  intros Hc Hp. rw /is_path_safe_for_pubkey_export. destruct (_ && _) eqn:He.
  { intros _. left. apply andb_prop in He as [He H1]. apply andb_prop in He as [Hz H0]. apply Z.eqb_eq in Hz, H0, H1.
    destruct path as [|a [|b [|c path]]]; [done|done| |rewrite !zlen_cons in Hz; pose proof (zlen_nonneg path); lia].
    cbn [nth] in H0, H1. by rewrite H0 H1. }
  clear He. destruct (_ <? 3) eqn:H3; [done|]. destruct path as [|p [|c [|a path]]]; [done..|]. cbn [nth]. clear H3.
  apply Forall_cons in Hp as [Hp Hps]. apply Forall_cons in Hps as [Hc' Hps]. apply Forall_cons in Hps as [Ha Hps].
  destruct (hardened_der_len _) as [n|] eqn:Hn; [|done]. destruct (_ <? Z.of_nat n) eqn:Hlen; [done|]. apply Z.ltb_ge in Hlen.
  destruct (existsb _ (take _ _)) eqn:Hh; [done|]. destruct (existsb _ (drop _ _)) eqn:Hu; [done|].
  apply existsb_false in Hh, Hu. destruct (_ =? coin_type) eqn:Hct; [|done]. apply Z.eqb_eq in Hct. cbn [negb].
  destruct (MAX_BIP44_ACCOUNT_RECOMMENDED <? _) eqn:Hac; [done|]. apply Z.ltb_ge in Hac. intros Hst. right.
  exists (Z.land p 0x7FFFFFFF), (Z.land a 0x7FFFFFFF). rewrite -Hct.
  apply hardened_der_len_cases in Hn as [[Hpur ->]|[Hpur ->]]; cbn [take drop] in Hh, Hu.
  - exists [], path. rw !land_hardened; try done; decompose_Forall_hyps; try lia.
    splits; [done|by left|apply Z.land_nonneg; lia|done|]. eapply Forall_impl; [exact Hu|]. intros x Hx%Z.leb_gt. exact Hx.
  - destruct path as [|t path]; [done|]. exists [t], path. decompose_Forall_hyps. rw !land_hardened; try lia.
    assert (t = hardened (Z.land t 0x7FFFFFFF)) as Ht by (rw land_hardened //; lia). rewrite Hpur in Hst. cbn [Z.eqb Pos.eqb nth] in Hst.
    splits; [done| |apply Z.land_nonneg; lia|done|eapply Forall_impl; [eassumption|]; intros x Hx%Z.leb_gt; exact Hx].
    right. split; [done|]. rw Ht. apply orb_prop in Hst as [->%Z.eqb_eq| ->%Z.eqb_eq]; [by left|by right].
Qed.

Lemma exportable_path_safe coin_type path :
  0 ≤ coin_type < 2 ^ 31 → exportable coin_type path → is_path_safe_for_pubkey_export coin_type path = true.
Proof.
  intros Hc [-> |(p & a & t & rest & -> & Hpt & Ha & Hr)]; [done|]. unfold MAX_BIP44_ACCOUNT_RECOMMENDED in Ha.
  assert (existsb (λ s, 0x80000000 <=? s) rest = false) as Hrest.
  { apply existsb_false. eapply Forall_impl; [exact Hr|]. intros x Hx. by apply Z.leb_gt. }
  assert (∀ n, 0 ≤ n → (hardened n <? 0x80000000) = false) as Hh by (intros n Hn; apply Z.ltb_ge; unfold hardened; lia).
  assert (∀ t' rest', zlen (hardened p :: hardened coin_type :: hardened a :: t' ++ rest') = 3 + zlen (t' ++ rest' : list Z)) as Hz by (intros; rw !zlen_cons; lia).
  pose proof (zlen_nonneg (t ++ rest)). rw /is_path_safe_for_pubkey_export Hz (proj2 (Z.eqb_neq _ _)); [|lia]. cbn [andb nth].
  rw (proj2 (Z.ltb_ge _ _)); [|lia]. assert (0 ≤ p < 2 ^ 31) as Hp.
  { destruct Hpt as [[Hp _]|[-> _]]; [|lia]. rewrite !elem_of_cons in Hp. destruct Hp as [->|[->|[->|[->|[->|[]%elem_of_nil]]]]]; lia. }
  rw !hardened_land; [|lia..]. rw Z.eqb_refl (proj2 (Z.ltb_ge _ a)); [|unfold MAX_BIP44_ACCOUNT_RECOMMENDED; lia].
  destruct Hpt as [[Hpp ->]|[-> Ht]].
  - rw (proj2 (hardened_der_len_cases p 3)); [|by left]. cbn [take drop existsb app]. rw (proj2 (Z.ltb_ge (3 + zlen rest) _)); [|pose proof (zlen_nonneg rest); lia].
    rw take_0 /= drop_0 !Hh; [|lia..]. rw Hrest. cbn. destruct (Z.eqb_spec p 48) as [-> |]; [|done]. by exfalso; set_solver.
  - pose proof (zlen_nonneg rest). change (hardened_der_len 48) with (Some 4%nat).
    destruct Ht as [-> | ->]; cbn [app take drop existsb nth];
      (rw zlen_cons (proj2 (Z.ltb_ge (3 + _) _)); [|lia]); (rw take_0 drop_0 !Hh; [|lia..]); by rw /= Hrest.
Qed.

(** ** The fields of a command *)
Lemma wp_run {A} (m : io A) Q st a st' : wp True m Q st → m st = Val (a, st') → Q a st'.
Proof. rw /wp. intros H Hm. by rewrite Hm in H. Qed.

Lemma read_u8_run s b s1 : wf_dstate s → rb_read_u8 s = Val (Some b, s1) → wf_dstate s1 ∧ unread s = b :: unread s1.
Proof.
  intros Hwf H. refine (wp_run _ (λ r s1, r = Some b → wf_dstate s1 ∧ unread s = b :: unread s1) _ _ _ _ H eq_refl).
  apply rb_read_u8_spec; [done|]. destruct (unread s); [done|]. by intros o Ho <- [= ->].
Qed.

Lemma be_words_take n k m : (4 * n ≤ k)%nat → be_words n (take k m) = be_words n m.
Proof.
  revert k m. induction n as [|n IH]; intros k m Hk; [done|]. cbn [be_words]. rw take_take Nat.min_l; [|lia]. f_equal.
  rw skipn_firstn_comm IH //. lia.
Qed.

Lemma be_words_ok n m : bytes_ok m → (4 * n ≤ length m)%nat → path_ok (be_words n m) ∧ zlen (be_words n m) = Z.of_nat n.
Proof.
  revert m. induction n as [|n IH]; intros m Hm Hl; cbn [be_words]; [by split; [constructor|]|].
  destruct (IH (drop 4 m)) as [Hp Hz]; [by auto with ledger|rw length_drop; lia|].
  split; [|rw zlen_cons Hz; lia]. constructor; [|done].
  replace (2 ^ 32) with (256 ^ zlen (take 4 m)) by (unfold zlen; rw length_take Nat.min_l; [done|lia]). apply be_val_range. by auto with ledger.
Qed.

Lemma path_read_loop_run m in_len n off out l :
  bytes_ok m → 0 ≤ off ≤ zlen m →
  bip32_path_read_loop m in_len n off out = Val (Some l) →
  l = out ++ be_words n (drop (Z.to_nat off) m) ∧ off + 4 * Z.of_nat n ≤ zlen m.
Proof.
  intros Hm. revert off out. induction n as [|n IH]; intros off out Ho; cbn [bip32_path_read_loop be_words].
  { intros [= <-]. split; [by rw app_nil_r|lia]. }
  case_match; [done|]. destruct (decide (zlen m < off + 4)); [by rw read_u32_be_undef|].
  rw read_u32_be_val //; [|lia..]. cbn [mbind outcome_bind]. intros Hl. apply IH in Hl as [-> Hle]; [|lia..].
  split; [|lia]. rw -app_assoc drop_drop /slice. by replace (Z.to_nat (off + 4)) with (Z.to_nat off + 4)%nat by lia.
Qed.

Lemma path_read_run m in_len n l :
  bytes_ok m → 0 ≤ n → bip32_path_read m in_len n = Val (Some l) → l = be_words (Z.to_nat n) m ∧ 4 * n ≤ zlen m.
Proof.
  intros Hm Hn. rw /bip32_path_read. case_match; [done|]. intros Hl. pose proof (zlen_nonneg m).
  apply path_read_loop_run in Hl as [-> Hle]; [|done|lia]. split; [done|lia].
Qed.

(** The path is read from the memory of the command, which is longer than the
    command itself: it is the one of the command when the command is complete. *)
Lemma read_path_run n s path s1 :
  wf_dstate s → 0 ≤ n < 2 ^ 8 → rb_read_bip32_path n s = Val (Some path, s1) →
  path_ok path ∧ zlen path = n ∧ wf_dstate s1 ∧
  (4 * n ≤ zlen (unread s) → path = be_words (Z.to_nat n) (unread s) ∧ unread s1 = drop (Z.to_nat (4 * n)) (unread s)).
Proof.
  intros Hwf Hn H. rw /rb_read_bip32_path /rb_read /buffer_read_bip32_path in H. run_inv H.
  apply outcome_bind_Val in Hrun as (r & Hr & Hrun). destruct r as [out|]; injection Hrun as <-; run_inv H.
  pose proof (wf_read_buffer _ Hwf) as Hb. destruct Hb as (Hoff & Hsz & Hlt & Hbb).
  apply path_read_run in Hr as [-> Hle]; [|by rw /buffer_get_cur; auto with ledger|lia].
  destruct (be_words_ok (Z.to_nat n) (buffer_get_cur (read_buffer s))) as [Hok Hz]; [by rw /buffer_get_cur; auto with ledger|unfold zlen in Hle; lia|].
  pose proof (rest_zlen _ (wf_read_buffer _ Hwf)) as Hrz.
  splits; [done|lia| |].
  - apply wf_set_rb_offset; [done|]. rw /buffer_seek_cur. case_match eqn:Hs; [by destruct (wf_read_buffer _ Hwf)|]. cbn.
    apply orb_false_elim in Hs as [H1%Z.ltb_ge H2%Z.ltb_ge]. split; [|done]. change (0 ≤ u32 (offset (read_buffer s) + u32 (4 * n)) ≤ size (read_buffer s)). lia.
  - intros Hu. rw u32_small; [|lia]. rw seek_cur_advance; [|apply wf_read_buffer; done|unfold unread in Hu; lia].
    split.
    + rw /unread /rest /slice be_words_take //. rewrite /unread Hrz in Hu. lia.
    + rw -(rest_advance _ (wf_read_buffer _ Hwf)) //. unfold unread in Hu. lia.
Qed.

(** ** Screens *)

(** The user has accepted the screen. *)
Lemma prompt_run (ui : list prompt → prompt → bool) screens p s r s' :
  Commands.confirm ui screens p s = Val (Some r, s') → s' = s ∧ r = screens ++ [p] ∧ ui screens p = true.
Proof.
  rw /Commands.confirm. destruct (ui screens p); intros H; run_inv H; [done|]. rw /fail in H. run_inv H.
Qed.

Lemma fail_Some {A} sw s (a : A) s' : fail sw s = Val (Some a, s') → False.
Proof. rw /fail. intros H. run_inv H. Qed.

(** The end of a command that shows its response when [display] asks for it. *)
Lemma shown_run (ui : list prompt → prompt → bool) display p text s s1 screens s' :
  ready s → quiet s s1 → zlen text < 258 →
  (r ← (if negb (display =? 0) then Commands.confirm ui [] p else mret (Some []));
   match r with None => mret None | Some screens => respond text screens end) s1 = Val (Some screens, s') →
  screens = (if display =? 0 then [] else [p]) ∧ Forall (λ p, ui [] p = true) screens ∧ last (tx s') = Some (response text).
Proof.
  intros Hr Hq Hz H. run_inv H. destruct a as [sc|]; [|by run_inv H].
  assert (s1 = s0 ∧ sc = (if display =? 0 then [] else [p]) ∧ Forall (λ p, ui [] p = true) sc) as (-> & Hsc & Hf).
  { destruct (display =? 0); cbn [negb] in Hrun; [by run_inv Hrun|]. apply prompt_run in Hrun as (-> & -> & ?). splits; [done..|].
    by apply Forall_singleton. }
  destruct (responds text sc _ _ _ _ Hr Hq Hz H) as [[= <-] Hlast]. done.
Qed.

(** ** Export of public keys *)
Section export.
Context (E : env) (ui : list prompt → prompt → bool).

Lemma extended_pubkey_zlen path text : extended_pubkey_str E path = Val (Some text) → zlen text ≤ 112.
Proof.
  rw /extended_pubkey_str. destruct (get_extended_pubkey_at_path _ _ _) as [k|]; [|done]. intros H.
  apply outcome_bind_Val in H as ([t|] & _ & H); [|done]. case_bool_decide as Hz; [|done]. injection H as ->.
  rewrite !elem_of_cons in Hz. destruct Hz as [->|[->|[]%elem_of_nil]]; lia.
Qed.

Lemma unread_bytes_ok s : wf_dstate s → bytes_ok (unread s).
Proof. intros Hwf. apply rest_bytes_ok. by apply wf_read_buffer. Qed.

(** C14: a public key is exported without a screen only at a standard path.
    When [handler_get_extended_pubkey] succeeds, the device is unlocked, and the
    last message is the key at the path, in base 58.  The path is the one of the
    command, when it has the 4 bytes of each of the steps that it announces
    (otherwise the bytes after the command are read as steps).  Without a screen,
    the path is [exportable]: it has the form of BIP-44, 45, 48, 49, 84 or 86,
    with the coin of the application and a small account, to the account or to
    any depth below it, or it is the one of Electrum.  This is more than the
    documentation of the command calls standard, which does not have BIP-45,
    Electrum and the paths that end between the account and the address.  With a
    screen, the user has accepted the text of the path and of the key, with a
    warning exactly if the path is not [exportable]. *)
Theorem extended_pubkey_exported pin_validated s screens s' :
  ready s → wf_dstate s → 0 ≤ BIP44_COIN_TYPE E < 2 ^ 31 →
  handler_get_extended_pubkey E ui pin_validated s = Val (Some screens, s') →
  pin_validated = true ∧ ∃ display n command path text,
    unread s = display :: n :: command ∧ zlen path = n ∧ (4 * n ≤ zlen command → path = be_words (Z.to_nat n) command) ∧
    extended_pubkey_str E path = Val (Some text) ∧ last (tx s') = Some (response text) ∧
    if display =? 0 then screens = [] ∧ exportable (BIP44_COIN_TYPE E) path
    else ∃ suspicious, screens = [ui_display_pubkey (path_str path) suspicious text] ∧
           ui [] (ui_display_pubkey (path_str path) suspicious text) = true ∧
           (suspicious = true ↔ ¬ exportable (BIP44_COIN_TYPE E) path).
Proof.
  intros Hr Hwf Hc H. rw /handler_get_extended_pubkey in H.
  destruct pin_validated; cbn [negb] in H; [split; [done|]|by apply fail_Some in H]. run_inv H.
  destruct a as [display|]; [|by run_inv Hrun0; apply fail_Some in H]. destruct a0 as [n|]; [|by apply fail_Some in H].
  assert (quiet s s1) as Hq by (etrans; [eapply (run_keeps quiet); [exact Hrun|apply _]|eapply (run_keeps quiet); [exact Hrun0|apply _]]).
  apply read_u8_run in Hrun as [Hwf0 Hu0]; [|done]. apply read_u8_run in Hrun0 as [Hwf1 Hu1]; [|done].
  run_if H; [by apply fail_Some in H|]. run_inv H. destruct a as [path|]; [|by apply fail_Some in H].
  assert (quiet s s2) as Hq2 by (etrans; [exact Hq|eapply (run_keeps quiet); [exact Hrun|apply _]]).
  assert (0 ≤ n < 2 ^ 8) as Hn by (pose proof (unread_bytes_ok _ Hwf0) as Hb; rewrite Hu1 in Hb; by apply Forall_cons in Hb as [? _]).
  apply read_path_run in Hrun as (Hok & Hz & _ & Hpath); [|done..].
  pose proof (path_safe_exportable (BIP44_COIN_TYPE E) path Hc Hok) as Hsafe.
  pose proof (exportable_path_safe (BIP44_COIN_TYPE E) path Hc) as Hsafe'.
  exists display, n, (unread s1), path. rewrite Hu0 Hu1.
  set (safe := is_path_safe_for_pubkey_export _ _) in *. destruct (negb safe && (display =? 0)) eqn:Hsd; [by apply fail_Some in H|].
  run_inv H. destruct a as [text|]; [|by apply fail_Some in H]. exists text. pose proof (extended_pubkey_zlen _ _ Hrun) as Htz.
  apply (shown_run ui _ _ _ s) in H as (-> & Hui & Hlast); [|done|done|lia]. splits; [done|done|by apply Hpath|done|done|].
  revert Hui. destruct (display =? 0); intros Hui; [split; [done|]; apply Hsafe; by destruct safe|]. exists (negb safe). splits; [done|by apply Forall_cons in Hui as [? _]|].
  destruct safe; split; try done; [intros Hne; by destruct Hne; apply Hsafe|]. intros _ He. by specialize (Hsafe' He).
Qed.
End export.

(** ** An example *)
Lemma extended_pubkey_exported_witness :
  true = true ∧ ∃ display n command path text,
    unread pubkey_start = display :: n :: command ∧ zlen path = n ∧ (4 * n ≤ zlen command → path = be_words (Z.to_nat n) command) ∧
    extended_pubkey_str flow_env path = Val (Some text) ∧ last (tx (end_of pubkey_run pubkey_start)) = Some (response text) ∧
    if display =? 0 then screens_of pubkey_run pubkey_start = [] ∧ exportable 57 path
    else ∃ suspicious, screens_of pubkey_run pubkey_start = [ui_display_pubkey (path_str path) suspicious text] ∧
           yes [] (ui_display_pubkey (path_str path) suspicious text) = true ∧ (suspicious = true ↔ ¬ exportable 57 path).
Proof.
  destruct (runs_ok_spec _ _ (proj1 commands_run)) as (Hr & Hwf & Hrun).
  exact (extended_pubkey_exported flow_env yes true pubkey_start (screens_of pubkey_run pubkey_start) (end_of pubkey_run pubkey_start)
           Hr Hwf ltac:(cbn; lia) Hrun).
Defined.
