(* ===== verification/WalletCommands.v ===== *)
(** * Addresses and registration of wallet policies: theorems

    An address is only sent for a policy that is registered or standard, and a
    policy is only registered after the user has accepted its name, its
    descriptor template and all of its keys; the code that the command returns is
    accepted by the commands that use the policy. *)

From S2P Require Import Prelude Bytes Bip32 Buffer Merkle Dispatcher MerkleClient MerkleProof Run Script Base58 Segwit Crypto RawTx Address PolicySyntax PolicyParser PolicyScript PolicyCheck Psbt HostSample Sighash Sign Derivation SignFlow FlowKeeps Messages Confirm SignSample Commands CommandSample CommandsProof.

(** ** The size of the text of an address *)
Lemma put_zlen o c o' : put o c = Val o' → zlen o'.1 = zlen o.1.
Proof. rw /put. intros H. apply outcome_bind_Val in H as (m & Hm & H). injection H as <-. by apply store_length in Hm. Qed.

Lemma write_hrp_zlen hrp chk o r o' : write_hrp hrp chk o = Val (r, o') → zlen o'.1 = zlen o.1.
Proof.
  revert chk o. induction hrp as [|c hrp IH]; intros chk o; cbn [write_hrp]; [by intros [= _ <-]|]. intros H.
  apply outcome_bind_Val in H as (o1 & Ho & H). apply IH in H as ->. by apply put_zlen in Ho.
Qed.

Lemma write_data_zlen data chk o r o' : write_data data chk o = Val (r, o') → zlen o'.1 = zlen o.1.
Proof.
  revert chk o. induction data as [|d data IH]; intros chk o; cbn [write_data]; [by intros [= _ <-]|].
  case_match; [by intros [= _ <-]|]. clear H. intros H. apply outcome_bind_Val in H as (c & _ & H).
  apply outcome_bind_Val in H as (o1 & Ho & H). apply IH in H as ->. by apply put_zlen in Ho.
Qed.

Lemma write_checksum_zlen n chk o o' : write_checksum n chk o = Val o' → zlen o'.1 = zlen o.1.
Proof.
  revert o. induction n as [|n IH]; intros o; cbn [write_checksum]; [by intros [= <-]|]. intros H.
  apply outcome_bind_Val in H as (c & _ & H). apply outcome_bind_Val in H as (o1 & Ho & H). apply IH in H as ->. by apply put_zlen in Ho.
Qed.

Lemma bech32_encode_zlen out hrp data enc r out' : bech32_encode out hrp data enc = Val (r, out') → zlen out' = zlen out.
Proof.
  rw /bech32_encode. case_match; [|by intros [= _ <-]]. case_match; [by intros [= _ <-]|]. clear H H0. intros H.
  apply outcome_bind_Val in H as ([chk o] & H1%write_hrp_zlen & H). apply outcome_bind_Val in H as (o2 & H2%put_zlen & H).
  apply outcome_bind_Val in H as ([[c|] o3] & H3%write_data_zlen & H); [|injection H as _ <-; by rw H3 H2 H1].
  apply outcome_bind_Val in H as (o4 & H4%write_checksum_zlen & H). apply outcome_bind_Val in H as (o5 & H5%put_zlen & H).
  injection H as _ <-. by rw H5 H4 H3 H2 H1.
Qed.

Lemma segwit_addr_encode_zlen uninit out hrp v prog r out' :
  segwit_addr_encode uninit out hrp v prog = Val (r, out') → zlen out' = zlen out.
Proof.
  rw /segwit_addr_encode. repeat (case_match; [by intros [= _ <-]|]). clear H H0 H1. intros H.
  apply outcome_bind_Val in H as (? & _ & H). apply outcome_bind_Val in H as ([? [? ?]] & _ & H).
  apply outcome_bind_Val in H as (? & _ & H). by apply bech32_encode_zlen in H.
Qed.

Lemma script_address_zlen os c uninit script n out r out' :
  get_script_address os c uninit script n out = Val (r, out') → zlen out' = zlen out.
Proof.
  rw /get_script_address. intros H. apply outcome_bind_Val in H as (t & _ & H).
  assert (∀ h v, legacy_address os h v out = Val (r, out') → zlen out' = zlen out) as Hleg.
  { intros h v. rw /legacy_address. intros Hl. apply outcome_bind_Val in Hl as ([text|] & _ & Hl); [|by unfold mret, outcome_ret in Hl; simplify_eq].
    apply outcome_bind_Val in Hl as (o1 & H1%stores_length & Hl). apply outcome_bind_Val in Hl as (o2 & H2%store_length & Hl).
    injection Hl as _ <-. congruence. }
  assert (segwit_address c uninit script out = Val (r, out') → zlen out' = zlen out) as Hseg.
  { rw /segwit_address. intros Hs. do 2 apply outcome_bind_Val in Hs as (? & _ & Hs). revert Hs. destruct (zlen out <? _); [by intros [= _ <-]|]. intros Hs.
    apply outcome_bind_Val in Hs as (? & _ & Hs). apply outcome_bind_Val in Hs as ([? o1] & H1%segwit_addr_encode_zlen & Hs).
    revert Hs. destruct (negb _); [by intros [= _ <-]|]. intros Hs. apply outcome_bind_Val in Hs as (o2 & H2%store_length & Hs).
    injection Hs as _ <-. congruence. }
  destruct t as [[]|]; try (by apply Hseg); try (apply outcome_bind_Val in H as (? & _ & H); by eapply Hleg). by injection H as _ <-.
Qed.

(** ** The command that asks for an address *)
Lemma lor_zero l a : 0 ≤ a → bytes_ok l → foldl Z.lor a l = 0 → a = 0 ∧ l = replicate (length l) 0.
Proof.
  revert a. induction l as [|b l IH]; intros a Ha Hb; cbn; [done|]. apply Forall_cons in Hb as [Hb Hl]. intros H.
  apply IH in H as [H ->]; [|by apply Z.lor_nonneg; split; [|apply Hb]|done]. apply Z.lor_eq_0_iff in H as [-> ->].
  rw length_replicate //.
Qed.

Lemma read_bytes_run n s l s1 :
  wf_dstate s → 0 ≤ n → rb_read_bytes n s = Val (Some l, s1) → wf_dstate s1 ∧ unread s = l ++ unread s1 ∧ zlen l = n.
Proof.
  intros Hwf Hn H. refine (wp_run _ (λ r s1, r = Some l → wf_dstate s1 ∧ unread s = l ++ unread s1 ∧ zlen l = n) _ _ _ _ H eq_refl).
  apply rb_read_bytes_spec; [done..|]. destruct (Z.ltb_spec (zlen (unread s)) n); [done|]. intros o Ho -> [= <-].
  rw take_drop zlen_take //.
Qed.

Lemma read_varint_run s v s1 :
  wf_dstate s → rb_read_varint s = Val (Some v, s1) → wf_dstate s1 ∧ varint_dec (unread s) = Some (v, unread s1).
Proof.
  intros Hwf H. refine (wp_run _ (λ r s1, r = Some v → wf_dstate s1 ∧ varint_dec (unread s) = Some (v, unread s1)) _ _ _ _ H eq_refl).
  apply rb_read_varint_spec; [done|]. destruct (varint_dec _) as [[w r]|]; [|done]. by intros o Ho -> [= ->].
Qed.

Lemma read_u32_keeps e : Dispatcher.keeps (λ b, as_read (buffer_read_u32 b e)).
Proof.
  intros b r b'. rw /as_read /buffer_read_u32. destruct (negb _); [by intros [= <- <-]|].
  destruct (match e with BE => _ | LE => _ end); cbn; [|done..]. intros [= <- <-]. apply seek_cur_keeps.
Qed.

Lemma read_u32_run s v s1 :
  wf_dstate s → rb_read (λ b, as_read (buffer_read_u32 b BE)) s = Val (Some v, s1) →
  wf_dstate s1 ∧ unread s = reverse (le_bytes 4 v) ++ unread s1.
Proof.
  intros Hwf H. refine (wp_run _ (λ r s1, r = Some v → wf_dstate s1 ∧ unread s = reverse (le_bytes 4 v) ++ unread s1) _ _ _ _ H eq_refl).
  apply (rb_read_spec _ _ (uint_dec BE 4)); [done|apply buffer_read_u32_implements|apply read_u32_keeps|].
  pose proof (unread_bytes_ok _ Hwf) as Hb. destruct (uint_dec BE 4 _) as [[w r]|] eqn:Hd; [|done]. intros o Ho Hr [= ->]. split; [done|].
  rw /uint_dec /bytes_dec in Hd.
  destruct (Z.ltb_spec (zlen (unread s)) 4) as [|Hz]; [done|]. injection Hd as <- <-. rw Hr.
  set (l := take (Z.to_nat 4) (unread s)). assert (bytes_ok l) as Hl by (unfold l; by auto with ledger).
  assert (length (reverse l) = 4%nat) as Hlen by (unfold l; rw length_reverse length_take; unfold zlen in Hz; lia).
  assert (be_val l = le_val (reverse l)) as -> by (by rw -be_val_reverse reverse_involutive). rw -{1}Hlen le_bytes_le_val.
  - by rw reverse_involutive /l take_drop.
  - by apply Forall_reverse.
Qed.

(** The fields of the command. *)
Lemma address_command_run s display id hmac change index s1 :
  wf_dstate s → read_address_command s = Val (Some (display, id, hmac, change, index), s1) →
  unread s = display :: id ++ hmac ++ change :: reverse (le_bytes 4 index) ++ unread s1 ∧
  zlen id = 32 ∧ zlen hmac = 32 ∧ (change = 0 ∨ change = 1) ∧ index < 2 ^ 31.
Proof.
  intros Hwf H. rw /read_address_command in H. run_inv H. destruct a as [d|]; [|by run_inv Hrun0; run_inv Hrun1; apply fail_Some in H].
  destruct a0 as [i|]; [|by run_inv Hrun1; apply fail_Some in H]. destruct a1 as [h|]; [|by apply fail_Some in H].
  apply read_u8_run in Hrun as [Hwf0 Hu0]; [|done]. apply read_bytes_run in Hrun0 as (Hwf1 & Hu1 & Hi); [|done..].
  apply read_bytes_run in Hrun1 as (Hwf2 & Hu2 & Hh); [|done..]. run_inv H. destruct a as [c|]; [|by apply fail_Some in H].
  apply read_u8_run in Hrun as [Hwf3 Hu3]; [|done].
  destruct (negb (c =? 0) && negb (c =? 1)) eqn:Hc; [by apply fail_Some in H|]. run_inv H. destruct a as [k|]; [|by apply fail_Some in H].
  apply read_u32_run in Hrun as [Hwf4 Hu4]; [|done]. destruct (Z.leb_spec BIP32_FIRST_HARDENED_CHILD k); [by apply fail_Some in H|].
  run_inv H. splits; [by rw Hu0 Hu1 Hu2 Hu3 Hu4|done|done| |done]. destruct (Z.eqb_spec change 0); [by left|].
  destruct (Z.eqb_spec change 1); [by right|done].
Qed.

Section address.
Context (E : env) (swap : swap_globals) (ui : list prompt → prompt → bool).
Context (Harr : ∀ n, 0 ≤ n → zlen (arr E n) = n) (Hprefix : zlen (COIN_NATIVE_SEGWIT_PREFIX (the_coin E)) ≤ 83).

Lemma policy_address_zlen h p c i s a s' : policy_address E h p c i s = Val (Some a, s') → zlen a < 258.
Proof.
  intros H. rw /policy_address in H. run_inv H. destruct a0 as [script|]; [|by run_inv H]. run_inv H.
  match goal with Hg : get_script_address _ _ _ _ _ _ = Val ?x |- _ => rename Hg into Haddr; destruct x as [len out] end.
  apply script_address_zlen in Haddr. pose proof (zlen_nonneg (COIN_NATIVE_SEGWIT_PREFIX (the_coin E))). rewrite Harr in Haddr; [|lia].
  destruct (len <? 0); run_inv H.
  match goal with Hl : loads _ _ _ = _ |- _ => apply loads_Val in Hl as (_ & ? & ? & ->) end. rw drop_0 zlen_take; lia.
Qed.

(** The policy may be used: it is registered, or it is standard and the index is
    not large. *)
Definition usable (s : dstate) (header : policy_map_wallet_header) (policy : policy_node) (id hmac : list Z) (index : Z) : Prop :=
  if decide (hmac = replicate 32 0) then
    ran s (is_wallet_policy_standard (os E) (jk E) (BIP32_PUBKEY_VERSION E) (BIP44_COIN_TYPE E) (arr E 33) header policy) true ∧
    name_len header = 0 ∧ index ≤ MAX_BIP44_ADDRESS_INDEX_RECOMMENDED
  else check_wallet_hmac (os E) id hmac = Val true.

Lemma authorize_run header policy id hmac index s d s' :
  bytes_ok hmac → zlen hmac = 32 → authorize_policy E header policy id hmac index s = Val (Some d, s') →
  usable s header policy id hmac index ∧ d = bool_decide (hmac = replicate 32 0).
Proof.
  intros Hb Hz H. rw /authorize_policy in H. rw /usable.
  assert ((foldl Z.lor 0 hmac =? 0) = bool_decide (hmac = replicate 32 0)) as Hor.
  { case_bool_decide as Hh; [by rw Hh|]. apply Z.eqb_neq. intros Hl. destruct Hh. apply lor_zero in Hl as [_ ->]; [|done|done].
    f_equal. unfold zlen in Hz. lia. }
  rewrite Hor in H. destruct (decide (hmac = replicate 32 0)) as [Hh|Hh].
  - rewrite bool_decide_true // in H. rw bool_decide_true //. run_inv H. destruct a; [|by apply fail_Some in H]. cbn [negb] in H.
    destruct (Z.eqb_spec (name_len header) 0); [|by apply fail_Some in H]. cbn [negb] in H.
    destruct (Z.ltb_spec MAX_BIP44_ADDRESS_INDEX_RECOMMENDED index); [by apply fail_Some in H|]. run_inv H.
    splits; [by eapply ran_here|done..].
  - rewrite bool_decide_false // in H. rw bool_decide_false //. run_inv H. destruct a; [|by apply fail_Some in H]. cbn [negb] in H. by run_inv H.
Qed.

Lemma usable_later s0 s h p id hmac i : later s0 s → usable s h p id hmac i → usable s0 h p id hmac i.
Proof. intros Hl. rw /usable. case_decide; [|done]. intros (Hran & ? & ?). splits; [by eapply ran_later|done..]. Qed.

End address.

(** ** Registration *)

(** The user has accepted every screen, knowing the earlier ones. *)
Fixpoint all_accepted (ui : list prompt → prompt → bool) (shown l : list prompt) : Prop :=
  match l with
  | [] => True
  | p :: l => ui shown p = true ∧ all_accepted ui (shown ++ [p]) l
  end.

(** The screens of the keys of a policy, from the [i]-th on: the text of each
    key, and whether it is one of the device. *)
Fixpoint key_screens (keys : list (list Z * bool)) (i : Z) : list prompt :=
  match keys with
  | [] => []
  | (info, internal) :: keys => ui_display_policy_map_cosigner_pubkey info (u8 i) internal :: key_screens keys (i + 1)
  end.

(** The number of keys of the device. *)
Definition count_internal (keys : list (list Z * bool)) : Z := zlen (filter (λ k, k.2 = true) keys).

(** A name of printable characters, not empty, that neither starts nor ends with
    a space. *)
Definition name_ok (name : list Z) : Prop :=
  1 ≤ zlen name ≤ MAX_WALLET_NAME_LENGTH ∧ head name ≠ Some 0x20 ∧ last name ≠ Some 0x20 ∧ Forall (λ c, 0x20 ≤ c ≤ 0x7E) name.

Lemma printable_run n name i :
  0 ≤ i → printable n name i = Val true → Forall (λ c, 0x20 ≤ c ≤ 0x7E) (take n (drop (Z.to_nat i) name)).
Proof.
  revert i. induction n as [|n IH]; intros i Hi; cbn [printable]; [by rw take_0|]. intros H.
  apply outcome_bind_Val in H as (c & Hc & H). destruct (_ || _) eqn:Hr; [done|]. apply orb_false_elim in Hr as [H1%Z.ltb_ge H2%Z.ltb_ge].
  apply IH in H; [|lia]. apply load_Val in Hc as [_ Hc]. rw (drop_S _ _ _ Hc) firstn_cons. constructor; [done|].
  by replace (S (Z.to_nat i)) with (Z.to_nat (i + 1)) by lia.
Qed.

Lemma name_acceptable_ok name n : 0 ≤ n → is_policy_name_acceptable name n = Val true → name_ok (take (Z.to_nat n) name).
Proof.
  intros Hn. rw /is_policy_name_acceptable. destruct (_ || _) eqn:Hr; [done|]. apply orb_false_elim in Hr as [H0%Z.eqb_neq H1%Z.ltb_ge].
  intros H. apply outcome_bind_Val in H as (f & Hf & H). apply outcome_bind_Val in H as (l & Hl & H).
  destruct (Z.eqb_spec l 0x20) as [|Hl']; [done|]. destruct (Z.eqb_spec f 0x20) as [|Hf']; [by injection Hl as <-|].
  apply load_Val in Hf as [_ Hf]. apply load_Val in Hl as [_ Hl]. apply printable_run in H; [|done]. rewrite drop_0 in H.
  pose proof (lookup_lt_Some _ _ _ Hl) as Hlt. rw /name_ok; splits; [rw zlen_take; unfold zlen; lia|rw zlen_take; unfold zlen; lia| | |done].
  - rw head_lookup lookup_take_lt; [|lia]. rewrite Hf. congruence.
  - rw last_lookup length_take lookup_take_lt; [|lia].
    replace (pred (Z.to_nat n `min` length name)) with (Z.to_nat (n - 1)) by lia. congruence.
Qed.

(** A name that is accepted is shown as it is. *)
Lemma c_string_name name : name_ok name → c_string name = name.
Proof.
  intros (_ & _ & _ & Hf). induction Hf as [|c name Hc _ IH]; [done|]. cbn. rw (proj2 (Z.eqb_neq _ _)); [|lia]. by rw IH.
Qed.

Section registration.
Context (E : env) (ui : list prompt → prompt → bool) (uninit_kp : policy_node_key_placeholder) (shared : bool) (mem : list Z).

Lemma all_accepted_app shown l p : all_accepted ui shown l → ui (shown ++ l) p = true → all_accepted ui shown (l ++ [p]).
Proof.
  revert shown. induction l as [|q l IH]; intros shown; cbn; [rw app_nil_r; by intros _ ?|]. intros [Hq Hl] Hp. split; [done|].
  apply IH; [done|]. by rw -app_assoc.
Qed.

(** Every key was obtained from the host and accepted by the user. *)
Lemma cosigners_run fuel header fpr shown screens n i s screens' n' s' :
  0 ≤ i → cosigners_loop E ui fuel header fpr (shown ++ screens) n i s = Val (Some (screens', n'), s') →
  ∃ keys, screens' = shown ++ screens ++ key_screens keys i ∧ zlen keys = Z.max 0 (n_keys header - i) ∧
    all_accepted ui (shown ++ screens) (key_screens keys i) ∧ n' = n + count_internal keys ∧
    ∀ j k, keys !! j = Some k → ran s (cosigner_key E header fpr (i + Z.of_nat j)) (Some k).
Proof.
  revert screens n i s. induction fuel as [|f IH]; intros screens n i s Hi H; [done|]. cbn [cosigners_loop] in H.
  destruct (Z.ltb_spec i (n_keys header)).
  - run_inv H. rename Hrun into Hk. destruct a as [[info internal]|]; [|by run_inv H]. pose proof (run_keeps later _ _ _ _ Hk _) as Hlk. run_inv H.
    rename Hrun into Hc. destruct a as [sc|]; [|by run_inv H]. apply prompt_run in Hc as (-> & -> & Hui).
    rewrite -app_assoc in H. apply IH in H as (keys & -> & Hz & Hacc & -> & Hran); [|lia].
    exists ((info, internal) :: keys). cbn [key_screens]. splits.
    + by rw -!app_assoc.
    + rw zlen_cons Hz. lia.
    + cbn. rewrite app_assoc in Hacc. done.
    + rw /count_internal filter_cons. case_decide as Hin; cbn in Hin; destruct internal; try done; rw ?zlen_cons; lia.
    + intros [|j] k; cbn; [intros [= <-]; rw Z.add_0_r; by eapply ran_here|]. intros Hj.
      apply (ran_later _ _ s s0); [done|]. apply Hran in Hj. by replace (i + Z.of_nat (S j)) with (i + 1 + Z.of_nat j) by lia.
  - run_inv H. exists []. splits; [by rw app_nil_r|rw zlen_nil; lia|done|change (count_internal []) with 0; lia|done].
Qed.

Lemma hmac_checks id h : compute_wallet_hmac (os E) id = Val (Some h) → check_wallet_hmac (os E) id h = Val true.
Proof.
  rw /compute_wallet_hmac /check_wallet_hmac. intros H. apply outcome_bind_Val in H as ([k|] & -> & H); [|done]. injection H as <-.
  cbn. by rw bool_decide_true.
Qed.

(** The command: the varint of a length, which is not used, and then the policy,
    whose header is in the bytes that follow. *)
Definition command_policy (s : dstate) (header : policy_map_wallet_header) (descriptor : list Z) (policy : policy_node) : Prop :=
  ∃ len s1 s2 st, rb_read_varint s = Val (Some len, s1) ∧ varint_dec (unread s) = Some (len, unread s1) ∧
    read_wallet_policy_header (MAX_DESCRIPTOR_TEMPLATE_LENGTH_V2 E) (mk_parse_state (read_buffer s1) (buffer_create [] 0)) =
      Val (Some (header, st)) ∧
    read_policy E s1 = Val (Some (header, descriptor, policy), s2).

Lemma command_policy_run s len s1 header descriptor policy s2 :
  wf_dstate s → rb_read_varint s = Val (Some len, s1) → read_policy E s1 = Val (Some (header, descriptor, policy), s2) →
  command_policy s header descriptor policy.
Proof.
  intros Hwf H0 H1. pose proof H1 as H. rw /read_policy /read_and_parse_wallet_policy in H. run_inv H.
  destruct a as [[[h d] p]|]; [|by apply fail_Some in H]. run_inv H. simplify_eq.
  destruct a0 as [[h st]|]; run_inv Hrun. destruct a as [t|]; run_inv Hrun. destruct a as [q|]; [|done]. simplify_eq/=.
  eexists len, _, _, st. splits; [done|by apply read_varint_run|done|done].
Qed.

(** The policy was read, its checks succeeded, and it has this identifier. *)
Record policy_checked (s : dstate) (header : policy_map_wallet_header) (descriptor : list Z) (policy : policy_node) (id : list Z) : Prop := {
  checked_read : command_policy s header descriptor policy;
  checked_count : count_distinct_keys_info uninit_kp policy = i32 (n_keys header);
  checked_id : get_policy_wallet_id (cx_sha256 (os E)) header = Val id;
  checked_name : name_ok (take (Z.to_nat (name_len header)) (name header));
  checked_kind : is_policy_acceptable policy = true;
  checked_sane : ∃ r, 0 ≤ r ∧ ran s (is_policy_sane (os E) (jk E) uninit_kp shared mem policy (version header)
                                      (keys_info_merkle_root header) (u32 (n_keys header))) r
}.

Lemma check_policy_run s0 header descriptor policy s id s' :
  later s0 s → command_policy s0 header descriptor policy →
  check_policy E uninit_kp shared mem header policy s = Val (Some id, s') → policy_checked s0 header descriptor policy id.
Proof.
  intros Hl Hread H. rw /check_policy in H. destruct (Z.eqb_spec (count_distinct_keys_info uninit_kp policy) (i32 (n_keys header)));
    [|by apply fail_Some in H]. cbn [negb] in H. run_inv H. destruct a0; [|by apply fail_Some in H]. cbn [negb] in H.
  destruct (is_policy_acceptable policy) eqn:Hacc; [|by apply fail_Some in H]. cbn [negb] in H. run_inv H.
  destruct (Z.ltb_spec a0 0); [by apply fail_Some in H|]. run_inv H.
  assert (0 ≤ name_len header) as Hn.
  { match goal with Hw : get_policy_wallet_id _ _ = _ |- _ => rewrite /get_policy_wallet_id /crypto_hash_update in Hw;
      apply outcome_bind_Val in Hw as (? & Hw & _); apply outcome_bind_Val in Hw as (? & Hw & _); apply loads_Val in Hw as (_ & ? & _) end. done. }
  split; [done..|by apply name_acceptable_ok|done|]. exists a0. split; [done|]. by eapply ran_later, ran_here.
Qed.

(** The response of the registration is short. *)
Lemma registration_zlen id header h :
  (∀ n, 0 ≤ n → zlen (arr E n) = n) → (∀ l, zlen (cx_sha256 (os E) l) = 32) → (∀ k l, zlen (cx_hmac_sha256 (os E) k l) = 32) →
  get_policy_wallet_id (cx_sha256 (os E)) header = Val id → compute_wallet_hmac (os E) id = Val h → zlen (id ++ default (arr E 32) h) = 64.
Proof.
  intros Harr Hsha Hmac Hid Hh. rw zlen_app. rw /get_policy_wallet_id in Hid. rw /compute_wallet_hmac in Hh.
  repeat (apply outcome_bind_Val in Hid as (? & _ & Hid)). injection Hid as <-. rw Hsha.
  apply outcome_bind_Val in Hh as ([k|] & _ & Hh); injection Hh as <-; cbn; [by rw Hmac|by rw Harr].
Qed.

End registration.


