(* ===== verification/MessageCommand.v ===== *)
(** * The signature of messages: theorems

    The command that signs a message (handler/sign_message.c): the user sees the
    hash of the message whose digest is signed, and the signature that is sent
    is the one of the key in the format of 65 bytes. *)

From S2P Require Import Prelude Bytes Bip32 Buffer Merkle Dispatcher MerkleClient MerkleProof Run Crypto PolicySyntax PolicyParser PolicyScript PolicyCheck Psbt HostSample Sighash Sign Derivation SignFlow FlowKeeps Messages Confirm SignSample Commands CommandSample CommandsProof WalletCommands.

(** ** The format of the signature *)

(** The integer of a big-endian list, on 32 bytes. *)
Definition int32 (x : list Z) : list Z := reverse (le_bytes 32 (be_val x)).

Lemma le_bytes_app l1 l2 : bytes_ok l1 → le_bytes (length l1) (le_val (l1 ++ l2)) = l1.
Proof.
  induction 1 as [|b l Hb Hl IH]; [done|]. rw /byte_ok in Hb. cbn [length app le_bytes le_val].
  rw Z.shiftr_div_pow2; [|done]. change (2 ^ 8) with 256. rw /u8. change (2 ^ 8) with 256. rw (Z.mul_comm 256) Z.mod_add; [|done].
  rw Z.div_add; [|done]. rw Z.mod_small; [|done]. by rw Z.div_small // Z.add_0_l IH.
Qed.

(** The last 32 bytes of an integer after zeros. *)
Lemma int32_zeros n x :
  bytes_ok x → (32 ≤ n + length x)%nat → drop (n + length x - 32) (replicate n 0 ++ x) = int32 x.
Proof.
  intros Hx Hn. set (l := replicate n 0 ++ x). assert (length l = (n + length x)%nat) as Hl by (rw length_app length_replicate //).
  assert (bytes_ok l) as Hb by (apply Forall_app; split; [by apply Forall_replicate|done]).
  rw /int32 -(be_val_zeros n) -/l /be_val -{2}(take_drop (n + length x - 32) l) reverse_app.
  set (y := drop _ l). assert (length (reverse y) = 32%nat) as Hy by (rw length_reverse /y length_drop; lia).
  rewrite -{1}Hy le_bytes_app; [by rw reverse_involutive|]. apply Forall_reverse. by apply bytes_ok_drop.
Qed.

(** The loop copies an array in the middle of another one. *)
Lemma copy_down_middle n src from dst to p x q a o b :
  src = p ++ x ++ q → dst = a ++ o ++ b → from = zlen p → to = zlen a → n = length x → length o = length x →
  copy_down n src from dst to = Val (a ++ x ++ b).
Proof.
  intros -> -> -> -> ->. revert q o b. induction x as [|c x IH] using rev_ind; intros q o b Ho; [by destruct o|].
  destruct o as [|d o _] using rev_ind; [rewrite length_app in Ho; cbn in Ho; lia|].
  rewrite !length_app !Nat.add_1_r in Ho. injection Ho as Ho. rewrite length_app Nat.add_1_r. cbn [copy_down].
  change (zlen p + Z.of_nat (length x)) with (zlen p + zlen x). change (zlen a + Z.of_nat (length x)) with (zlen a + zlen x).
  rewrite -!app_assoc -(zlen_app p) (app_assoc p). rewrite load_middle outcome_ret_bind.
  assert (zlen x = zlen o) as -> by (unfold zlen; lia). rewrite -(zlen_app a) (app_assoc a) stores_one. rewrite store_middle outcome_ret_bind.
  rewrite -!app_assoc. by rewrite (IH ([c] ++ q) o ([c] ++ b)).
Qed.

Lemma parity_odd info : Z.land info CX_ECCINFO_PARITY_ODD =? 0 = negb (Z.odd info).
Proof. change CX_ECCINFO_PARITY_ODD with (Z.ones 1). rw Z.land_ones // Zmod_odd. by destruct (Z.odd info). Qed.

(** The signature is converted to the format of Bitcoin.  From a signature
    in the format DER, with integers of up to 33 bytes, [compact_signature] makes
    the 65 bytes of the header, which gives the parity of the nonce and that the
    key is compressed, then of the two integers, each on 32 bytes: the zero that
    comes first in an integer of 33 bytes is discarded, also the one of the
    second integer, which is first written over the end of the first one.
    (Integers are taken modulo 2^256; those of a signature are smaller.) *)
Lemma compact_signature_der r s tail len info :
  bytes_ok r → bytes_ok s → 1 ≤ zlen r ≤ 33 → 1 ≤ zlen s ≤ 33 →
  compact_signature ([0x30; len; 2; zlen r] ++ r ++ [2; zlen s] ++ s ++ tail) info =
  Val (Some ([if Z.odd info then 32 else 31] ++ int32 r ++ int32 s)).
Proof.
  intros Hr Hs Hrl Hsl. rw /compact_signature. set (sig := _ ++ r ++ _).
  assert (load sig 3 = Val (zlen r)) as -> by done. rw outcome_ret_bind.
  assert (sig = ([0x30; len; 2; zlen r] ++ r ++ [2]) ++ zlen s :: s ++ tail) as Hsig by (rw -!app_assoc //).
  assert (load sig (4 + zlen r + 1) = Val (zlen s)) as ->.
  { rw Hsig. replace (4 + zlen r + 1) with (zlen ([0x30; len; 2; zlen r] ++ r ++ [2])) by (rw !zlen_app !zlen_cons !zlen_nil; lia). apply load_middle. }
  rw outcome_ret_bind !(proj2 (Z.ltb_ge _ _)); [|lia..]. cbn [orb].
  assert (copy_down (Z.to_nat (zlen s)) sig (4 + zlen r + 2) (replicate 65 0) (1 + 32 + 32 - zlen s) =
    Val (replicate (65 - length s) 0 ++ s)) as ->.
  { rw (copy_down_middle _ _ _ _ _ ([0x30; len; 2; zlen r] ++ r ++ [2; zlen s]) s tail (replicate (65 - length s) 0) (replicate (length s) 0) []);
      rw ?app_nil_r // -?app_assoc // -?replicate_add ?length_replicate ?zlen_app ?zlen_cons ?zlen_nil /zlen ?length_replicate; try lia.
    all: unfold zlen in *; try lia. by replace (65 - length s + length s)%nat with 65%nat by lia. }
  rw outcome_ret_bind. set (dst := replicate _ 0 ++ s).
  assert (length dst = 65%nat) as Hd by (rw /dst length_app length_replicate; unfold zlen in *; lia).
  assert (copy_down (Z.to_nat (zlen r)) sig 4 dst (1 + 32 - zlen r) = Val (replicate (33 - length r) 0 ++ r ++ drop 33 dst)) as ->.
  { apply (copy_down_middle _ _ _ _ _ [0x30; len; 2; zlen r] r ([2; zlen s] ++ s ++ tail) _ (take (length r) (drop (33 - length r) dst))); try done.
    - unfold zlen in *. replace (drop 33 dst) with (drop (length r) (drop (33 - length r) dst)) by (rw drop_drop; f_equal; lia).
      rw take_drop -{1}(take_drop (33 - length r) dst). f_equal. rw /dst take_app_le; [|rw length_replicate; lia]. rw take_replicate. f_equal. lia.
    - unfold zlen in *. rw length_replicate. lia.
    - unfold zlen. lia.
    - unfold zlen in *. rw length_take length_drop. lia. }
  rw outcome_ret_bind app_assoc.
  pose proof (int32_zeros (33 - length r) r Hr ltac:(unfold zlen in *; lia)) as Hri.
  pose proof (int32_zeros (65 - length s) s Hs ltac:(unfold zlen in *; lia)) as Hsi.
  replace (33 - length r + length r - 32)%nat with 1%nat in Hri by (unfold zlen in *; lia).
  replace (65 - length s + length s - 32)%nat with 33%nat in Hsi by (unfold zlen in *; lia). fold dst in Hsi. rewrite Hsi.
  destruct (replicate (33 - length r) 0 ++ r) as [|b full] eqn:Hf; [apply app_nil in Hf as [_ ->]; unfold zlen in Hrl; cbn in Hrl; lia|].
  change (full = int32 r) in Hri. rewrite Hri stores_one. change 0 with (zlen (@nil Z)) at 1.
  rewrite -app_comm_cons (store_middle [] b) outcome_ret_bind parity_odd. by destruct (Z.odd info).
Qed.

Lemma copy_down_zlen n src from dst to dst' : copy_down n src from dst to = Val dst' → zlen dst' = zlen dst.
Proof.
  revert dst. induction n as [|n IH]; intros dst H; cbn [copy_down] in H; [by injection H as <-|].
  apply outcome_bind_Val in H as (b & _ & H). apply outcome_bind_Val in H as (d & Hd%stores_length & H). apply IH in H. congruence.
Qed.

Lemma compact_signature_zlen sig info result : compact_signature sig info = Val (Some result) → zlen result = 65.
Proof.
  rw /compact_signature. intros H. apply outcome_bind_Val in H as (r & _ & H). apply outcome_bind_Val in H as (t & _ & H).
  destruct (_ || _); [done|]. apply outcome_bind_Val in H as (l0 & H0%copy_down_zlen & H).
  apply outcome_bind_Val in H as (l1 & H1%copy_down_zlen & H). apply outcome_bind_Val in H as (l2 & H2%stores_length & H).
  injection H as <-. by rewrite H2 H1 H0.
Qed.

(** ** The command *)
Lemma varint_dec_nonneg l v r : bytes_ok l → varint_dec l = Some (v, r) → 0 ≤ v.
Proof.
  intros Hl. destruct l as [|p l]; [done|]. apply Forall_cons in Hl as [Hp Hl]. cbn [varint_dec].
  destruct (_ =? 0); [intros [= <- <-]; apply Hp|]. destruct (_ <? _); [done|]. intros [= <- <-]. apply le_val_range. by apply bytes_ok_take.
Qed.

(** The path, the length and the root are those of a command that is complete. *)
Lemma message_command_run s path len root s1 :
  wf_dstate s → read_message_command s = Val (Some (path, len, root), s1) →
  0 ≤ len < 2 ^ 32 ∧ zlen root = 32 ∧
  ∃ n command, unread s = n :: command ∧ zlen path = n ∧ n ≤ MAX_BIP32_PATH_STEPS ∧
    (4 * n ≤ zlen command →
       path = be_words (Z.to_nat n) command ∧ ∃ rest, varint_dec (drop (Z.to_nat (4 * n)) command) = Some (len, root ++ rest)).
Proof.
  intros Hwf H. rw /read_message_command in H. run_inv H.
  destruct a0 as [p|]; [|by apply fail_Some in H]. destruct a1 as [v|]; [|by apply fail_Some in H]. destruct a2 as [r|]; [|by apply fail_Some in H].
  destruct a as [n|]; [|by run_inv Hrun0]. destruct (_ || _) eqn:Hc; [by apply fail_Some in H|]. run_inv H.
  apply orb_false_elim in Hc as [Hn%Z.ltb_ge Hlen%Z.leb_gt].
  pose proof (unread_bytes_ok _ Hwf) as Hb. apply read_u8_run in Hrun as [Hwf0 Hu0]; [|done]. rewrite Hu0 in Hb. apply Forall_cons in Hb as [Hnb _].
  apply read_path_run in Hrun0 as (_ & Hz & Hwf2 & Hp); [|done..]. pose proof (unread_bytes_ok _ Hwf2) as Hb2.
  apply read_varint_run in Hrun1 as [Hwf3 Hd]; [|done]. apply read_bytes_run in Hrun2 as (_ & Hu3 & Hr); [|done..].
  pose proof (varint_dec_nonneg _ _ _ Hb2 Hd). splits; [done|done|done|]. exists n, (unread s0). splits; [done..|]. intros Hle.
  destruct (Hp Hle) as [-> Hu2]. split; [done|]. rewrite Hu2 Hu3 in Hd. by eexists.
Qed.

Section message.
Context (E : env) (ui : list prompt → prompt → bool).

#[local] Abbreviation sha256 := (cx_sha256 (os E)).

(** [chunk] is the answer of the host for a leaf of the tree with [n] leaves;
    only the last one may be shorter than 64 bytes. *)
Definition chunk_ok (s : dstate) (root : list Z) (n i : Z) (chunk : list Z) : Prop :=
  (∃ out, ran s (call_get_merkle_leaf_element sha256 root n i (arr E 64)) (zlen chunk, out) ∧ chunk = take (length chunk) out) ∧
  (i ≠ n - 1 → zlen chunk = 64).

Lemma chunks_run fuel root n msg bsm i s msg' bsm' s' :
  0 ≤ i → n < 2 ^ 32 → chunks_loop E fuel root n msg bsm i s = Val (Some (msg', bsm'), s') →
  ∃ chunks, zlen chunks = Z.max 0 (n - i) ∧ msg' = msg ++ concat chunks ∧ bsm' = bsm ++ concat chunks ∧
    ∀ j c, chunks !! j = Some c → chunk_ok s root n (i + Z.of_nat j) c.
Proof.
  revert msg bsm i s. induction fuel as [|f IH]; intros msg bsm i s Hi Hn H; [done|]. cbn [chunks_loop] in H. destruct (Z.ltb_spec i n).
  - run_inv H. destruct a as [len out]. pose proof (run_keeps later _ _ _ _ Hrun _) as Hl.
    destruct (_ || _) eqn:Hc; [by apply fail_Some in H|]. run_inv H. apply orb_false_elim in Hc as [Hlen%Z.ltb_ge Hc].
    apply hash_update_Val in Hrun0 as [Hld ->]. apply hash_update_Val in Hrun1 as [_ ->].
    apply IH in H as (chunks & Hz & -> & -> & Hok); [|lia..]. exists (take (Z.to_nat len) out :: chunks). cbn [concat].
    splits; [rw zlen_cons; lia|by rw -app_assoc..|]. intros [|j] c; cbn [lookup list_lookup].
    + intros [= <-]. rw Z.add_0_r /chunk_ok length_take_le ?zlen_take; [|unfold zlen in *; lia..]. split.
      * exists out. split; [by eapply ran_here|done].
      * intros Hne. rewrite u32_small in Hc; [|lia]. destruct (Z.eqb_spec len 64); [done|]. by destruct (Z.eqb_spec i (n - 1)).
    + intros Hj. apply Hok in Hj as [(o & Hran & Ho) Hne]. replace (i + Z.of_nat (S j)) with (i + 1 + Z.of_nat j) by lia.
      split; [|done]. exists o. split; [|done]. by apply (ran_later _ _ s s0).
  - run_inv H. exists []. cbn. rw !app_nil_r. splits; [rw zlen_nil; lia|done..].
Qed.

Lemma hash_magic ctx : crypto_hash_update [] (sign_magic E) (zlen BSM_SIGN_MAGIC) = Val ctx → ctx = sign_magic E.
Proof. intros [_ ->]%hash_update_Val. rw /sign_magic. by destruct (_ =? 57). Qed.

(** The signature that is sent. *)
Lemma message_response der info screens s0 s sig result r' s' :
  ready s0 → quiet s0 s → stores (arr E MAX_DER_SIG_LEN) 0 der = Val sig → compact_signature sig info = Val (Some result) →
  respond result screens s = Val (r', s') →
  r' = Some screens ∧
  ∀ l r t, bytes_ok r → bytes_ok t → 1 ≤ zlen r ≤ 33 → 1 ≤ zlen t ≤ 33 → der = [0x30; l; 2; zlen r] ++ r ++ [2; zlen t] ++ t →
    last (tx s') = Some (response ([if Z.odd info then 32 else 31] ++ int32 r ++ int32 t)).
Proof.
  intros Hr Hq Hs Hc H. pose proof (compact_signature_zlen _ _ _ Hc) as Hz.
  apply (responds _ _ s0) in H as [-> Hlast]; [|done|done|lia]. split; [done|]. intros l r t Hrb Htb Hrl Htl Hder.
  assert (sig = der ++ drop (length der) (arr E MAX_DER_SIG_LEN)) as ->.
  { unfold stores in Hs. destruct (decide _); [|done]. by injection Hs as <-. }
  rewrite Hder -!app_assoc compact_signature_der in Hc; [|done..]. injection Hc as <-. done.
Qed.

(** C10: a message is signed when the user has accepted its hash.  When
    [handler_sign_message] succeeds, the device is unlocked; the path, the length
    and the root are those of the command, when it has the 4 bytes of each of the
    steps that it announces (otherwise the bytes after the command are read as
    steps); the message is the concatenation of the
    chunks that the host gave for the leaves of the tree with this root, all of
    them of 64 bytes but the last one.  The user has accepted a screen with the
    text of the path and the hash of the whole message, and the key at the path
    has signed the double hash of the magic, the length and the message.  When
    the signature has the format DER, with integers of up to 33 bytes, the last
    message is the one of 65 bytes: a header, 31 or 32, that gives the parity of
    the nonce, and the two integers on 32 bytes.  (The documentation of the
    command says 32 or 33.) *)
Theorem message_signed pin_validated s screens s' :
  ready s → wf_dstate s → handler_sign_message E ui pin_validated s = Val (Some screens, s') →
  pin_validated = true ∧ ∃ n command path len root chunks der pubkey info,
    unread s = n :: command ∧ zlen path = n ∧
    (4 * n ≤ zlen command →
       path = be_words (Z.to_nat n) command ∧ ∃ rest, varint_dec (drop (Z.to_nat (4 * n)) command) = Some (len, root ++ rest)) ∧
    zlen root = 32 ∧ zlen chunks = (len + 63) / 64 ∧ (∀ i c, chunks !! i = Some c → chunk_ok s root (zlen chunks) (Z.of_nat i) c) ∧
    screens = [ui_display_message_hash (path_str path) (hex_text (sha256 (concat chunks)))] ∧ all_accepted ui [] screens ∧
    crypto_ecdsa_sign_sha256_hash_with_key (keys E) path (sha256 (sha256 (sign_magic E ++ varint_enc len ++ concat chunks))) false
      = Some (der, pubkey, info) ∧
    ∀ l r t, bytes_ok r → bytes_ok t → 1 ≤ zlen r ≤ 33 → 1 ≤ zlen t ≤ 33 → der = [0x30; l; 2; zlen r] ++ r ++ [2; zlen t] ++ t →
      last (tx s') = Some (response ([if Z.odd info then 32 else 31] ++ int32 r ++ int32 t)).
Proof.
  intros Hr Hwf H. rw /handler_sign_message in H. destruct pin_validated; cbn [negb] in H; [split; [done|]|by apply fail_Some in H].
  run_inv H. pose proof (run_keeps quiet _ _ _ _ Hrun _) as Hq. pose proof (run_keeps later _ _ _ _ Hrun _) as Hl.
  destruct a as [[[path len] root]|]; [|by run_inv H].
  apply message_command_run in Hrun as (Hlen & Hroot & n & command & Hu & Hz & _ & Hcmd); [|done]. run_inv H.
  rename Hrun1 into Ha, Hrun2 into Hc. rw /answers_left in Ha. run_inv Ha. pose proof (run_keeps quiet _ _ _ _ Hc _) as Hqc.
  destruct a2 as [[msg bsm]|]; [|by run_inv H]. apply chunks_run in Hc as (chunks & Hcz & -> & -> & Hok); [|lia|apply Z.div_lt_upper_bound; lia].
  apply hash_magic in Hrun as ->. apply hash_update_varint_Val in Hrun0 as ->; [|lia]. run_inv H. destruct a as [sc|]; [|by run_inv H].
  apply prompt_run in Hrun as (-> & -> & Hui). rewrite -app_assoc in H.
  destruct (crypto_ecdsa_sign_sha256_hash_with_key _ _ _ _) as [[[der pk] info]|] eqn:Hsig; [|by apply fail_Some in H].
  run_inv H. destruct a0 as [result|]; [|by apply fail_Some in H].
  eapply message_response in H as [[= ->] Hresp]; [|exact Hr|exact (transitivity Hq Hqc)|done..].
  rewrite Z.sub_0_r Z.max_r in Hcz; [|apply Z.div_pos; lia].
  exists (zlen path), command, path, len, root, chunks, der, pk, info. splits; [done..| |done|done|done|done].
  intros i c Hi. rw Hcz. destruct (Hok _ _ Hi) as [(out & Hran & Hout) Hne]. split; [|done]. exists out. split; [|done]. eapply ran_later; [exact Hl|done].
Qed.
End message.

(** ** An example *)
Lemma message_signed_witness :
  true = true ∧ ∃ n command path len root chunks der pubkey info,
    unread message_start = n :: command ∧ zlen path = n ∧
    (4 * n ≤ zlen command →
       path = be_words (Z.to_nat n) command ∧ ∃ rest, varint_dec (drop (Z.to_nat (4 * n)) command) = Some (len, root ++ rest)) ∧
    zlen root = 32 ∧ zlen chunks = (len + 63) / 64 ∧
    (∀ i c, chunks !! i = Some c → chunk_ok message_env message_start root (zlen chunks) (Z.of_nat i) c) ∧
    screens_of message_run message_start = [ui_display_message_hash (path_str path) (hex_text (toy_hash (concat chunks)))] ∧
    all_accepted yes [] (screens_of message_run message_start) ∧
    crypto_ecdsa_sign_sha256_hash_with_key message_signer path
      (toy_hash (toy_hash (sign_magic message_env ++ varint_enc len ++ concat chunks))) false = Some (der, pubkey, info) ∧
    ∀ l r t, bytes_ok r → bytes_ok t → 1 ≤ zlen r ≤ 33 → 1 ≤ zlen t ≤ 33 → der = [0x30; l; 2; zlen r] ++ r ++ [2; zlen t] ++ t →
      last (tx (end_of message_run message_start)) = Some (response ([if Z.odd info then 32 else 31] ++ int32 r ++ int32 t)).
Proof.
  destruct (runs_ok_spec _ _ (proj2 (proj2 (proj2 commands_run)))) as (Hr & Hwf & Hrun).
  exact (message_signed message_env yes true message_start (screens_of message_run message_start) (end_of message_run message_start) Hr Hwf Hrun).
Defined.
