(* ===== verification/MainLoop.v ===== *)
(** * The main loop: theorems

    What the loop of src/src/main.c does with a command, for the table of the
    commands of the application: a locked device, and a device that is in a swap
    for the commands that a swap does not need, only answer with a status word. *)

From S2P Require Import Prelude Bytes Dispatcher MerkleClient Run PolicySyntax PolicyParser PolicyScript PolicyCheck Psbt HostSample Sign Derivation SignFlow SignSample Commands CommandSample.

Section main.
Context (E : env) (swap : swap_globals) (ui : list prompt → prompt → bool) (pin_validated : bool).
Context (uninit_kp : policy_node_key_placeholder) (shared : bool) (mem : list Z) (psbt_ui : list screen → screen → bool).

#[local] Abbreviation descriptors := (COMMAND_DESCRIPTORS E swap ui pin_validated uninit_kp shared mem psbt_ui).
#[local] Abbreviation process := (process_command E swap ui pin_validated uninit_kp shared mem psbt_ui).

(** The answer to a command is a status word, which is not the one of success. *)
Definition refused (m : io ()) (st : dstate) : Prop :=
  ∃ sw st', m st = Val ((), st') ∧ sw ≠ SW_OK ∧ rx st' = rx st ∧ tx st' = tx st ++ [sw_bytes sw].

Lemma io_send_sw_refused sw st : wf_dstate st → sw ≠ SW_OK → refused (io_send_sw sw) st.
Proof.
  intros Hwf Hsw. destruct (wp_returns (io_send_sw sw) (λ _ st', rx st' = rx st ∧ tx st' = tx st ++ [sw_bytes sw]) st) as ([] & st' & H & ? & ?).
  - by apply io_send_sw_spec.
  - by exists sw, st'.
Qed.

(** What a handler of a locked device does. *)
Lemma SEND_SW_returns sw st :
  wf_dstate st → output_len st = 0 →
  ∃ st', SEND_SW sw st = Val ((), st') ∧ wf_dstate st' ∧ rx st' = rx st ∧ tx st' = tx st ++ [sw_bytes sw] ∧ disp_sw st' = sw.
Proof.
  intros Hwf Ho. destruct (wp_returns (SEND_SW sw)
    (λ _ st', wf_dstate st' ∧ rx st' = rx st ∧ tx st' = tx st ++ [sw_bytes sw] ∧ disp_sw st' = sw) st) as ([] & st' & ?); [|by exists st'].
  by apply SEND_SW_spec.
Qed.

Lemma locked_handlers d v st :
  pin_validated = false → d ∈ descriptors → handler d v st = SEND_SW SW_SECURITY_STATUS_NOT_SATISFIED st.
Proof.
  intros Hp Hd. rewrite !elem_of_cons in Hd. 
  destruct Hd as [->|[->|[->|[->|[->|[->|[]%elem_of_nil]]]]]]; cbn [handler];
    rw /unit_of /handler_get_extended_pubkey /handler_get_wallet_address /handler_register_wallet /handler_sign_psbt
       /handler_get_master_fingerprint /handler_sign_message Hp; cbn [negb]; rw /fail /fail_sw /mbind /io_bind;
    by destruct (SEND_SW SW_SECURITY_STATUS_NOT_SATISFIED st) as [[[] ?]| | |].
Qed.

Lemma locked_refused cmd st :
  wf_dstate st → output_len st = 0 → wf_command cmd → pin_validated = false → refused (apdu_dispatcher descriptors cmd) st.
Proof.
  intros Hwf Ho Hc Hp. pose proof (apdu_dispatcher_correct descriptors cmd st Hwf Hc) as H. rw /dispatches in H.
  assert (∀ sw, sw ≠ SW_OK → (∃ st', apdu_dispatcher descriptors cmd st = Val ((), st') ∧ wf_dstate st' ∧ rx st' = rx st ∧ tx st' = tx st ++ [sw_bytes sw]) →
    refused (apdu_dispatcher descriptors cmd) st) as Hsw by (intros sw ? (st' & ? & _ & ? & ?); by exists sw, st').
  destruct (decide (CURRENT_PROTOCOL_VERSION < p2 cmd)); [by apply Hsw in H|]. destruct (decide (_ ∧ _)); [by apply Hsw in H|].
  destruct (list_find _ _) as [[i d]|] eqn:Hd; [|by destruct (decide _); apply Hsw in H].
  apply list_find_Some in Hd as (Hd%list_elem_of_lookup_2 & _). rewrite (locked_handlers _ _ _ Hp Hd) in H.
  destruct (SEND_SW_returns SW_SECURITY_STATUS_NOT_SATISFIED (handler_entry cmd st)) as (st1 & Hs & Hwf1 & Hrx & Htx & Hsw1);
    [by apply handler_entry_wf|done|]. rewrite Hs Hsw1 in H. destruct (H Hwf1) as (st' & Hrun & Hrx' & _ & Htx').
  exists SW_SECURITY_STATUS_NOT_SATISFIED, st'. splits; [done|done|by rw Hrx' Hrx|by rewrite Htx' Htx].
Qed.

(** C15: which commands are refused.  On a device that is locked, every command
    of the host, and in a swap, every command other than the four that a swap
    needs, is answered with exactly one status word, which is not the one of
    success: nothing else is sent, and no answer of the host is read. *)
Theorem command_refused cmd st :
  wf_dstate st → output_len st = 0 → wf_command cmd →
  pin_validated = false ∨
  called_from_swap swap = true ∧
    (cla cmd ≠ CLA_APP ∨ ins cmd ∉ [GET_EXTENDED_PUBKEY; GET_WALLET_ADDRESS; SIGN_PSBT; GET_MASTER_FINGERPRINT]) →
  refused (process cmd) st.
Proof.
  intros Hwf Ho Hc Href. rw /process_command /swap_allows.
  destruct (called_from_swap swap && negb (cla cmd =? CLA_APP)) eqn:H1; [by apply io_send_sw_refused|].
  destruct (called_from_swap swap && negb (bool_decide _)) eqn:H2; [by apply io_send_sw_refused|].
  apply locked_refused; [done..|]. destruct Href as [Hp|[Hs Hn]]; [done|]. rewrite Hs in H1, H2. cbn in H1, H2.
  apply negb_false_iff in H1, H2. apply Z.eqb_eq in H1. apply bool_decide_eq_true in H2. by destruct Hn.
Qed.
End main.

(** ** An example: a command to a device that is locked. *)
Lemma command_refused_witness :
  refused (process_command flow_env no_swap yes false no_placeholder false [] accept (mk_command CLA_APP SIGN_PSBT 0 1 0 None)) (sample_state 0 []).
Proof.
  apply (command_refused flow_env no_swap yes false no_placeholder false [] accept (mk_command CLA_APP SIGN_PSBT 0 1 0 None) (sample_state 0 [])).
  - by apply sample_state_wf.
  - reflexivity.
  - by split.
  - by left.
Defined.
