(* ===== verification/SwapProof.v ===== *)
(** * Swaps: theorems

    The amounts that are printed for the Exchange application are exact, an
    address is accepted only if it is the one of the script of the key at the
    given path, and a swap starts with the amounts and the address of the call. *)

From S2P Require Import Prelude Bytes Bip32 MerkleProof Run Amount Base58 Segwit Crypto Script Address PolicySyntax PolicyParser PolicyScript PolicyCheck Psbt HostSample Sign Derivation SignFlow FlowKeeps Messages Confirm SignSample Commands CommandsProof Swap.

(** ** Doubling of a decimal number *)

(** The correction of a digit. *)
Definition adj (d : Z) : Z := d + if 5 <=? d then 3 else 0.

(** Twice a number and a carry [b]; the carry of the first digit is lost. *)
Fixpoint doubled (w : list Z) (b : Z) : list Z :=
  match w with
  | [] => []
  | d :: w' => (2 * d) `mod` 10 + (match w' with [] => b | d' :: _ => if 5 <=? d' then 1 else 0 end) :: doubled w' b
  end.

Lemma digit10_cases d : digit_ok 10 d → d ∈ seqZ 0 10.
Proof. intros. apply elem_of_seqZ. unfold digit_ok in *. lia. Qed.

(** A digit is shifted. *)
Lemma shifted_digit d (c : bool) :
  digit_ok 10 d →
  u16 (adj d) = adj d ∧ (8 <=? adj d) = (5 <=? d) ∧
  Z.lor (Z.land (Z.shiftl (adj d) 1) 15) (if c then 1 else 0) = (2 * d) `mod` 10 + (if c then 1 else 0).
Proof.
  intros Hd%digit10_cases.
  assert (Forall (λ d, ∀ c : bool, u16 (adj d) = adj d ∧ (8 <=? adj d) = (5 <=? d) ∧
    Z.lor (Z.land (Z.shiftl (adj d) 1) 15) (if c then 1 else 0) = (2 * d) `mod` 10 + (if c then 1 else 0)) (seqZ 0 10)) as H.
  { repeat (apply Forall_cons; split; [by intros []|]). done. }
  rewrite Forall_forall in H. by apply H.
Qed.

Lemma doubled_ok w b : digits_ok 10 w → 0 ≤ b ≤ 1 → digits_ok 10 (doubled w b).
Proof.
  intros Hw Hb. induction Hw as [|d w Hd Hw IH]; [done|]. cbn [doubled]. constructor; [|done]. unfold digit_ok in *.
  assert ((2 * d) `mod` 10 ≤ 8) by (Z.to_euclidean_division_equations; lia). assert (0 ≤ (2 * d) `mod` 10) by (apply Z.mod_pos_bound; lia).
  destruct w as [|d' w]; [lia|]. destruct (5 <=? d'); lia.
Qed.

Lemma doubled_zlen w b : zlen (doubled w b) = zlen w.
Proof. induction w as [|d w IH]; [done|]. cbn [doubled]. rw !zlen_cons IH //. Qed.

Lemma doubled_val d w b :
  digits_ok 10 (d :: w) → digits_val 10 (doubled (d :: w) b) + (if 5 <=? d then 10 ^ zlen (d :: w) else 0) = 2 * digits_val 10 (d :: w) + b.
Proof.
  intros Hw. revert d Hw. induction w as [|e w IH]; intros d Hw; apply Forall_cons in Hw as [Hd Hw]; unfold digit_ok in Hd.
  - cbn [doubled]. rw !digits_val_cons !zlen_cons !zlen_nil. change (digits_val 10 []) with 0. cbn -[Z.modulo Z.mul].
    destruct (Z.leb_spec 5 d); Z.to_euclidean_division_equations; lia.
  - specialize (IH e Hw). change (doubled (d :: e :: w) b) with ((2 * d) `mod` 10 + (if 5 <=? e then 1 else 0) :: doubled (e :: w) b).
    rw (digits_val_cons 10 _ (doubled _ _)) (digits_val_cons 10 d) doubled_zlen (zlen_cons d). rw Z.pow_add_r; [|lia|apply zlen_nonneg].
    assert ((2 * d) `mod` 10 + (if 5 <=? d then 10 else 0) = 2 * d) by (destruct (Z.leb_spec 5 d); Z.to_euclidean_division_equations; lia).
    destruct (5 <=? d), (5 <=? e); nia.
Qed.

(** ** The loops over the digits *)
Lemma adjust_loop_run z w : digits_ok 10 w → adjust_loop (length w) (z ++ w) (zlen z) = Val (z ++ (adj <$> w)).
Proof.
  intros Hw. revert z. induction Hw as [|d w Hd Hw IH]; intros z; cbn [length adjust_loop]; [done|].
  rw load_middle outcome_ret_bind store_middle outcome_ret_bind. change (d + (if 5 <=? d then 3 else 0)) with (adj d).
  rw (proj1 (shifted_digit d true Hd)). replace (zlen z + 1) with (zlen (z ++ [adj d])) by (rw zlen_app //).
  rw (cons_middle (adj d) z w) (app_assoc z) IH. by rw -app_assoc.
Qed.

(** The last two steps of [shift_in], on the digits from the first one that may
    change. *)
Lemma shift_run z w x (b : bool) :
  digits_ok 10 (w ++ [x]) →
  (scratch ← shift_loop (length w) (z ++ (adj <$> (w ++ [x]))) (zlen z);
   d ← load scratch (zlen z + zlen w);
   store scratch (zlen z + zlen w) (Z.lor (Z.land (Z.shiftl d 1) 0x0F) (if b then 1 else 0))) =
  Val (z ++ doubled (w ++ [x]) (if b then 1 else 0)).
Proof.
  revert z. induction w as [|c w IH]; intros z Hw.
  - change ([] ++ [x]) with [x] in *. cbn [length shift_loop fmap list_fmap].
    rw outcome_ret_bind zlen_nil Z.add_0_r load_middle outcome_ret_bind store_middle. apply Forall_cons in Hw as [Hx _].
    by rw (proj2 (proj2 (shifted_digit x b Hx))).
  - rewrite -app_comm_cons in Hw |- *. apply Forall_cons in Hw as [Hc Hw]. destruct (w ++ [x]) as [|e l] eqn:Hwx; [by destruct w|].
    pose proof Hw as He. apply Forall_cons in He as [He _]. cbn [length shift_loop].
    rw !fmap_cons load_middle outcome_ret_bind.
    assert (load (z ++ adj c :: adj e :: (adj <$> l)) (zlen z + 1) = Val (adj e)) as ->.
    { rw (cons_middle (adj c)). replace (zlen z + 1) with (zlen (z ++ [adj c])) by (rw zlen_app //).
      rw (app_assoc z). apply load_middle. }
    rw outcome_ret_bind store_middle outcome_ret_bind (proj1 (proj2 (shifted_digit e true He))) (proj2 (proj2 (shifted_digit c (5 <=? e) Hc))).
    set (c' := (2 * c) `mod` 10 + _). specialize (IH (z ++ [c']) Hw). rewrite -app_assoc !fmap_cons in IH.
    replace (zlen (z ++ [c'])) with (zlen z + 1) in IH by (rw zlen_app //).
    replace (zlen z + zlen (c :: w)) with (zlen z + 1 + zlen w) by (rw zlen_cons; lia). change ([c'] ++ ?l) with (c' :: l) in IH. rewrite IH. by rw -app_assoc.
Qed.

(** The digits of [v], from [smin] on. *)
Definition scratch_ok (v : Z) (s : list Z * Z) : Prop :=
  1 ≤ s.2 ≤ 19 ∧ ∃ w, s.1 = replicate (Z.to_nat s.2) 0 ++ w ∧ zlen w = SCRATCH_SIZE - s.2 ∧ digits_ok 10 w ∧ digits_val 10 w = v.

(** There is room for one more digit when the first one is doubled. *)
Lemma first_digit smin d w z :
  z = replicate (Z.to_nat smin) 0 → 1 ≤ smin ≤ 19 → zlen (d :: w) = 21 - smin → digits_ok 10 (d :: w) → digits_val 10 (d :: w) < 2 ^ 63 →
  ∃ smin' z' w', (if 5 <=? d then u8 (smin - 1) else smin) = smin' ∧ z ++ (adj <$> d :: w) = z' ++ (adj <$> w') ∧
    z' = replicate (Z.to_nat smin') 0 ∧ 1 ≤ smin' ≤ 19 ∧ zlen w' = 21 - smin' ∧ digits_ok 10 w' ∧ digits_val 10 w' = digits_val 10 (d :: w) ∧
    ∃ e l, w' = e :: l ∧ e < 5.
Proof.
  intros -> Hs Hz Hw Hv. destruct (Z.leb_spec 5 d) as [H5|H5]; [|exists smin, (replicate (Z.to_nat smin) 0), (d :: w); splits; first [done|lia|by eexists _, _]].
  assert (2 ≤ smin) as H2.
  { destruct (decide (smin = 1)) as [->|]; [|lia]. rewrite zlen_cons in Hz. rewrite digits_val_cons in Hv. apply Forall_cons in Hw as [_ Hw].
    pose proof (digits_val_range 10 ltac:(lia) _ Hw). replace (zlen w) with 19 in * by lia. lia. }
  rw u8_small; [|lia]. exists (smin - 1), (replicate (Z.to_nat (smin - 1)) 0), (0 :: d :: w). splits; [done| |done|lia|lia| | | |by eexists _, _].
  - replace (Z.to_nat smin) with (S (Z.to_nat (smin - 1))) by lia. rw replicate_S_end -app_assoc //.
  - rw zlen_cons Hz. lia.
  - by constructor.
  - rw (digits_val_cons 10 0). lia.
Qed.

Lemma shift_in_run v s (b : bool) :
  scratch_ok v s → v < 2 ^ 63 → ∃ s', shift_in s b = Val s' ∧ scratch_ok (2 * v + if b then 1 else 0) s'.
Proof.
  destruct s as [scratch smin]. rw /scratch_ok. cbn [fst snd]. intros (Hs & w & -> & Hz & Hw & <-) Hv. unfold SCRATCH_SIZE in *.
  rw /shift_in. set (z := replicate _ 0). assert (zlen z = smin) as Hzz by (rw /zlen /z length_replicate; lia).
  pose proof (adjust_loop_run z w Hw) as Ha. rewrite Hzz in Ha. replace (length w) with (Z.to_nat (21 - smin)) in Ha by (unfold zlen in Hz; lia).
  unfold SCRATCH_SIZE in *. rewrite Ha outcome_ret_bind. destruct w as [|d w]; [rewrite zlen_nil in Hz; lia|].
  assert (digit_ok 10 d) as Hd by (by apply Forall_cons in Hw as [? _]).
  assert (load (z ++ (adj <$> d :: w)) smin = Val (adj d)) as -> by (rewrite -Hzz; apply load_middle).
  rw outcome_ret_bind (proj1 (proj2 (shifted_digit d true Hd))).
  assert (∃ smin' z' w', (if 5 <=? d then u8 (smin - 1) else smin) = smin' ∧ z ++ (adj <$> d :: w) = z' ++ (adj <$> w') ∧
    z' = replicate (Z.to_nat smin') 0 ∧ 1 ≤ smin' ≤ 19 ∧ zlen w' = 21 - smin' ∧ digits_ok 10 w' ∧ digits_val 10 w' = digits_val 10 (d :: w) ∧
    ∃ e l, w' = e :: l ∧ e < 5) as (smin' & z' & w' & -> & -> & -> & Hs' & Hz' & Hw' & <- & e & l & -> & He).
  { by apply first_digit. }
  destruct (exists_last (l := e :: l)) as (w0 & x & Hlast); [done|]. rewrite Hlast in Hz' Hw' |- *.
  pose proof (shift_run (replicate (Z.to_nat smin') 0) w0 x b Hw') as Hrun. rewrite zlen_app in Hz'. change (zlen [x]) with 1 in Hz'.
  assert (zlen (replicate (Z.to_nat smin') 0) = smin') as Hzr by (rw /zlen length_replicate; lia). rewrite Hzr in Hrun.
  replace (smin' + zlen w0) with 20 in Hrun by lia. replace (Z.to_nat (21 - 1 - smin')) with (length w0) by (unfold zlen in *; lia).
  apply outcome_bind_Val in Hrun as (s1 & -> & Hrun). rw outcome_ret_bind. change (21 - 1) with 20.
  apply outcome_bind_Val in Hrun as (y & -> & Hrun). rw outcome_ret_bind Hrun outcome_ret_bind. eexists (_, _). split; [done|]. split; [done|].
  eexists. splits; [done|cbn; rw doubled_zlen zlen_app; change (zlen [x]) with 1; lia|apply doubled_ok; [done|by destruct b]|].
  rewrite -Hlast. rewrite -Hlast in Hw'. pose proof (doubled_val e l (if b then 1 else 0) Hw') as Hd2. rewrite (proj2 (Z.leb_gt _ _) He) in Hd2. lia.
Qed.

(** ** The bits of the amount *)
Definition bits_val (bits : list bool) : Z := digits_val 2 ((λ b : bool, if b then 1 else 0) <$> bits).

Lemma bits_loop_run bits v s :
  scratch_ok v s → 0 ≤ v → v * 2 ^ zlen bits + bits_val bits < 2 ^ 64 →
  ∃ s', bits_loop bits s = Val s' ∧ scratch_ok (v * 2 ^ zlen bits + bits_val bits) s'.
Proof.
  revert v s. induction bits as [|b bits IH]; intros v s Hs Hv Hb.
  { exists s. split; [done|]. rw zlen_nil. change (bits_val []) with 0. by rw Z.mul_1_r Z.add_0_r. }
  assert (digits_ok 2 ((λ b : bool, if b then 1 else 0) <$> bits)) as Hok.
  { apply Forall_fmap, Forall_forall. intros [] _; by unfold digit_ok; cbn. }
  pose proof (digits_val_range 2 ltac:(lia) _ Hok) as Hr. rw /bits_val fmap_cons digits_val_cons -/(bits_val bits) zlen_fmap in Hb |- *.
  rewrite zlen_cons Z.pow_add_r in Hb |- *; [|lia|apply zlen_nonneg..]. change (2 ^ 1) with 2 in *.
  assert (0 < 2 ^ zlen bits) by (apply Z.pow_pos_nonneg; [lia|apply zlen_nonneg]). rewrite -/(bits_val bits) in Hr.
  cbn [bits_loop]. destruct (shift_in_run v s b Hs) as (s1 & -> & Hs1); [destruct b; nia|]. rw outcome_ret_bind.
  destruct (IH _ _ Hs1) as (s' & -> & Hs'); [destruct b; lia|destruct b; lia|]. exists s'. split; [done|].
  replace (v * (2 * 2 ^ zlen bits) + _) with ((2 * v + (if b then 1 else 0)) * 2 ^ zlen bits + bits_val bits) by lia. done.
Qed.

Lemma byte_bits_val b : byte_ok b → bits_val (byte_bits b) = b.
Proof.
  intros Hb. assert (Forall (λ b, bits_val (byte_bits b) = b) (seqZ 0 256)) as H by (apply (bool_decide_unpack _); vm_compute; exact I).
  rewrite Forall_forall in H. apply H, elem_of_seqZ. unfold byte_ok in Hb. lia.
Qed.

Lemma amount_bits l : bytes_ok l → bits_val (concat (byte_bits <$> l)) = digits_val 256 l ∧ zlen (concat (byte_bits <$> l)) = 8 * zlen l.
Proof.
  induction 1 as [|b l Hb Hl [IHv IHz]]; [done|]. cbn [fmap list_fmap concat].
  rw /bits_val fmap_app digits_val_app -!/(bits_val _) zlen_fmap byte_bits_val // IHv IHz digits_val_cons zlen_app zlen_cons IHz.
  change (zlen (byte_bits b)) with 8. split; [|lia]. rw Z.pow_mul_r; [|lia|apply zlen_nonneg]. done.
Qed.

Lemma be_val_digits l : be_val l = digits_val 256 l.
Proof.
  induction l as [|b l IH] using rev_ind; [done|]. rw /be_val reverse_snoc. cbn [le_val]. rw -/(be_val l) IH digits_val_app.
  change (zlen [b]) with 1. rw /digits_val. cbn [foldl]. lia.
Qed.

(** ** The text *)

(** The characters of digits, and the digits without the zeros at the end. *)
Definition chars (l : list Z) : list Z := (λ d, d + 48) <$> l.

Fixpoint trim (l : list Z) : list Z :=
  match l with
  | [] => []
  | d :: l' => if forallb (λ d, d =? 0) l then [] else d :: trim l'
  end.

Lemma chars_digit l : digits_ok 10 l → Forall digit (chars l).
Proof. intros Hl. apply Forall_fmap, (Forall_impl _ _ _ Hl). unfold digit_ok, digit. cbn. lia. Qed.

Lemma chars_value l : digits_value (chars l) = digits_val 10 l.
Proof.
  induction l as [|d l IH] using rev_ind; [done|]. rw /chars fmap_app. cbn [fmap list_fmap]. rw digits_value_snoc -/(chars l) IH digits_val_app.
  change (zlen [d]) with 1. rw /digits_val. cbn [foldl]. lia.
Qed.

Lemma u8_char d : digit_ok 10 d → u8 (d + 48) = d + 48.
Proof. unfold digit_ok. intros. rw u8_small; lia. Qed.

Lemma write_char_run a c x o : write_char (a ++ x :: o) (zlen a) c = Val (a ++ c :: o, zlen a + 1).
Proof. by rw /write_char store_middle outcome_ret_bind. Qed.

(** The digits [i] written after [a]. *)
Lemma integral_digits_run q p r nz a o :
  digits_ok 10 q → (length q ≤ length o)%nat →
  let i := chars (if (nz : bool) then q else strip q) in
  integral_digits (length q) (p ++ q ++ r) (zlen p) nz (a ++ o) (zlen a) = Val (a ++ i ++ drop (length i) o, zlen (a ++ i)).
Proof.
  intros Hq. revert p nz a o. induction Hq as [|d q Hd Hq IH]; intros p nz a o Ho; cbn [length integral_digits].
  { destruct nz; by rw /= app_nil_r drop_0. }
  rw -app_comm_cons load_middle outcome_ret_bind. replace (zlen p + 1) with (zlen (p ++ [d])) by (rw zlen_app //).
  rw (cons_middle d p) (app_assoc p). cbn [length] in Ho. destruct (negb nz && (d =? 0)) eqn:Hz.
  - apply andb_true_iff in Hz as [Hnz Hz%Z.eqb_eq]. destruct nz; [done|]. subst d. rw strip_cons_0. apply IH. lia.
  - assert ((if nz then d :: q else strip (d :: q)) = d :: q) as ->.
    { destruct nz; [done|]. by destruct d. }
    destruct o as [|x o]; [cbn in Ho; lia|]. cbn [length] in Ho. rw write_char_run u8_char // outcome_ret_bind.
    rw (cons_middle (d + 48) a) (app_assoc a). replace (zlen a + 1) with (zlen (a ++ [d + 48])) by (rw zlen_app //).
    rw (IH (p ++ [d]) true); [|lia]. by rw -!app_assoc.
Qed.

Lemma all_zero_run q p r : all_zero (length q) (p ++ q ++ r) (zlen p) = Val (forallb (λ d, d =? 0) q).
Proof.
  revert p. induction q as [|d q IH]; intros p; cbn [length all_zero forallb]; [done|]. rw -app_comm_cons load_middle outcome_ret_bind.
  destruct (d =? 0); [|done]. cbn [negb andb]. replace (zlen p + 1) with (zlen (p ++ [d])) by (rw zlen_app //).
  rw (cons_middle d p) (app_assoc p). apply IH.
Qed.

(** The decimals, after a point. *)
Definition fraction (comma : bool) (q : list Z) : list Z :=
  match trim q with [] => [] | l => (if comma then [] else [46]) ++ chars l end.

Lemma decimal_digits_run q p (comma : bool) a o :
  digits_ok 10 q → (length q + (if comma then 0 else 1) ≤ length o)%nat →
  let f := fraction comma q in
  decimal_digits (length q) (p ++ q) (zlen p) comma (a ++ o) (zlen a) = Val (a ++ f ++ drop (length f) o, zlen (a ++ f)).
Proof.
  intros Hq. revert p comma a o. induction Hq as [|d q Hd Hq IH]; intros p comma a o Ho.
  { by rw /= app_nil_r drop_0. }
  pose proof (all_zero_run (d :: q) p []) as Hz. rewrite app_nil_r in Hz. change (length (d :: q)) with (S (length q)) in *. cbn [decimal_digits].
  rewrite Hz outcome_ret_bind. rw /fraction. cbn [trim]. destruct (forallb _ (d :: q)); [by rw /= app_nil_r drop_0|].
  set (s := if comma then [] else [46]).
  assert (write_char_if (negb comma) (a ++ o) (zlen a) 46 = Val ((a ++ s) ++ drop (length s) o, zlen (a ++ s))) as ->.
  { rw /s. destruct comma; cbn [negb write_char_if]; [by rw app_nil_r drop_0|]. destruct o as [|x o]; [cbn in Ho; lia|].
    rw write_char_run zlen_app. by rw -app_assoc. }
  rw outcome_ret_bind load_middle outcome_ret_bind u8_char //.
  assert (length s = if comma then 0 else 1)%nat as Hs by (unfold s; by destruct comma).
  destruct (drop (length s) o) as [|x o'] eqn:Hdo; [apply (f_equal length) in Hdo; rewrite length_drop /= in Hdo; lia|].
  pose proof (f_equal length Hdo) as Hlen. rewrite length_drop in Hlen. cbn [length] in Hlen.
  rw write_char_run outcome_ret_bind (cons_middle (d + 48) (a ++ s)) (app_assoc (a ++ s)) (cons_middle d p) (app_assoc p).
  replace (zlen (a ++ s) + 1) with (zlen ((a ++ s) ++ [d + 48])) by (rw (zlen_app (a ++ s)) //).
  replace (zlen p + 1) with (zlen (p ++ [d])) by (rw zlen_app //).
  rw (IH (p ++ [d]) true); [|lia].
  assert (fraction true q = chars (trim q)) as -> by (rw /fraction; by destruct (trim q)).
  change (chars (d :: trim q)) with ((d + 48) :: chars (trim q)). rw -!app_assoc. cbn [app]. do 6 f_equal. rw length_app -drop_drop Hdo //.
Qed.

Lemma trim_spec q : ∃ k, q = trim q ++ replicate k 0 ∧ last (trim q) ≠ Some 0.
Proof.
  induction q as [|d q (k & Hq & Hl)]; [by exists O|]. cbn [trim]. destruct (forallb _ (d :: q)) eqn:Hz.
  - exists (length (d :: q)). split; [|done]. change (d :: q = replicate (length (d :: q)) 0). symmetry; apply replicate_as_elem_of. split; [done|]. intros x Hx.
    rewrite forallb_forall in Hz. by apply Z.eqb_eq, Hz, list_elem_of_In.
  - exists k. cbn [app]. split; [by rewrite -Hq|]. destruct (trim q) as [|e l] eqn:Ht; [|done]. cbn. intros [= ->].
    cbn [app] in Hq. cbn [forallb] in Hz. rewrite Z.eqb_refl andb_true_l in Hz. rewrite Hq in Hz. clear -Hz. induction k as [|k IH]; [done|]. by apply IH.
Qed.

(** The text of an amount, from its 21 digits. *)
Lemma digits_denote ip fp :
  digits_ok 10 ip → digits_ok 10 fp → zlen fp = 8 →
  denotes ((if strip ip is [] then [48] else chars (strip ip)) ++ fraction false fp) (digits_val 10 ip * 10 ^ 8 + digits_val 10 fp).
Proof.
  intros Hip Hfp Hz. destruct (trim_spec fp) as (k & Hk & Hlast). pose proof (leading_split ip) as Hi.
  assert (digits_ok 10 (trim fp)) as Hft by (rewrite Hk in Hfp; by apply Forall_app in Hfp as [? _]).
  assert (digits_ok 10 (strip ip)) as His by (rewrite Hi in Hip; by apply Forall_app in Hip as [_ ?]).
  set (i := match strip ip with [] => [48] | _ => _ end).
  assert (Forall digit i ∧ i ≠ [] ∧ (head i = Some 48 → i = [48]) ∧ digits_value i = digits_val 10 ip) as (Hid & Hin & Hih & Hiv).
  { rw -(strip_val 10 ip) /i. pose proof (strip_leading ip) as Hl. destruct (strip ip) as [|d l]; [by splits; [repeat constructor|..]|].
    splits; [by apply chars_digit|done| |apply chars_value]. cbn. intros [= He]. assert (d = 0) as -> by lia. cbn in Hl. pose proof (leading_zeros_range l). lia. }
  exists i, (chars (trim fp)). splits; [|done|by apply chars_digit|done|done| | |].
  - f_equal. rw /fraction. by destruct (trim fp).
  - rewrite Hk zlen_app in Hz. rw /chars zlen_fmap. pose proof (zlen_nonneg (replicate k 0)). lia.
  - rw /chars fmap_last. destruct (last (trim fp)) as [e|]; cbn; [|done]. intros [= He]. apply Hlast. f_equal. lia.
  - rw Hiv chars_value. f_equal. rw {3}Hk digits_val_app digits_val_zeros Z.add_0_r. f_equal.
    rewrite Hk zlen_app in Hz. rw /chars zlen_fmap. f_equal. lia.
Qed.

Lemma denotes_nonzero t v : denotes t v → Forall (λ c, c ≠ 0) t.
Proof.
  intros (i & f & -> & Hi & Hf & _). apply Forall_app. split; [by apply digit_nonzero|]. destruct (decide _); [done|].
  constructor; [done|by apply digit_nonzero].
Qed.

Lemma strip_length l : (length (strip l) ≤ length l)%nat.
Proof. pose proof (leading_zeros_range l). pose proof (strip_zlen l). unfold zlen in *. lia. Qed.

Lemma fraction_length q : (length (fraction false q) ≤ S (length q))%nat.
Proof.
  destruct (trim_spec q) as (k & Hq & _). apply (f_equal length) in Hq. rewrite length_app length_replicate in Hq. rw /fraction.
  destruct (trim q) as [|d l]; cbn; [lia|]. rw length_fmap. cbn in Hq. lia.
Qed.

(** The integral digits and the decimals of the amount. *)
Lemma dabble_run amount :
  bytes_ok amount → zlen amount = 8 →
  ∃ ip fp smin,
    bits_loop (concat (byte_bits <$> amount)) (replicate (Z.to_nat SCRATCH_SIZE) 0, SCRATCH_SIZE - 2) = Val (ip ++ fp, smin) ∧
    length ip = 13%nat ∧ length fp = 8%nat ∧ digits_ok 10 ip ∧ digits_ok 10 fp ∧
    digits_val 10 ip * 10 ^ 8 + digits_val 10 fp = be_val amount.
Proof.
  intros Ha Hz. destruct (amount_bits amount Ha) as [Hbv Hbz]. pose proof (be_val_range amount Ha) as Hr. rewrite Hz in Hr. rewrite -be_val_digits in Hbv.
  destruct (bits_loop_run (concat (byte_bits <$> amount)) 0 (replicate (Z.to_nat SCRATCH_SIZE) 0, SCRATCH_SIZE - 2)) as (s & -> & Hs).
  { split; [done|]. exists [0; 0]. by repeat split; [repeat constructor|..]. }
  { done. }
  { rewrite Hbv Hbz Hz. cbn in *. lia. }
  rewrite Hbv Z.mul_0_l Z.add_0_l in Hs. destruct s as [scratch smin]. destruct Hs as (Hsm & w & Hscr & Hwz & Hw & Hv). cbn [fst snd] in *.
  assert (digits_ok 10 scratch ∧ length scratch = 21%nat ∧ digits_val 10 scratch = be_val amount) as (Hsok & Hsl & Hsv).
  { rw Hscr length_app length_replicate digits_val_app digits_val_zeros Hv. unfold zlen, SCRATCH_SIZE in Hwz. splits; [|lia|lia].
    apply Forall_app. split; [by apply Forall_replicate|done]. }
  rewrite -(take_drop 13 scratch) in Hsok, Hsv. apply Forall_app in Hsok as [Hip Hfp]. rewrite digits_val_app in Hsv.
  assert (length (drop 13 scratch) = 8%nat) as Hfl by (rw length_drop; lia).
  replace (zlen (drop 13 scratch)) with 8 in Hsv by (unfold zlen; lia).
  exists (take 13 scratch), (drop 13 scratch), smin. rw take_drop. splits; try done. rw length_take. lia.
Qed.

(** The text is written after [a]. *)
Lemma convert_run amount a o :
  bytes_ok amount → zlen amount = 8 → (23 ≤ length o)%nat →
  ∃ t, btchip_convert_hex_amount_to_displayable_no_globals amount (a ++ o) (zlen a) = Val (a ++ t ++ drop (length t) o, zlen t) ∧
    denotes t (be_val amount) ∧ (length t ≤ 22)%nat.
Proof.
  intros Ha Hz Ho. rw /btchip_convert_hex_amount_to_displayable_no_globals.
  rw loads_in_range; [|lia..]. rw outcome_ret_bind drop_0 take_ge; [|unfold zlen in Hz; lia].
  destruct (dabble_run amount Ha Hz) as (ip & fp & smin & -> & Hil & Hfl & Hip & Hfp & Hv). rw outcome_ret_bind.
  pose proof (integral_digits_run ip [] fp false a o Hip ltac:(lia)) as Hi. rewrite Hil in Hi. change (zlen []) with 0 in Hi.
  change ([] ++ ?l) with l in Hi. rewrite Hi outcome_ret_bind. clear Hi.
  set (i := if strip ip is [] then [48] else chars (strip ip)).
  assert (1 ≤ length i ≤ 13)%nat as Hiz.
  { pose proof (strip_length ip). rw /i. destruct (strip ip) as [|d l]; [cbn; lia|]. rw /chars length_fmap. cbn [length] in *. lia. }
  assert (write_char_if (zlen (a ++ chars (strip ip)) =? zlen a) (a ++ chars (strip ip) ++ drop (length (chars (strip ip))) o)
    (zlen (a ++ chars (strip ip))) 48 = Val ((a ++ i) ++ drop (length i) o, zlen (a ++ i))) as ->.
  { rw /write_char_if /i zlen_app. destruct (strip ip) as [|d l].
    - change (chars []) with (@nil Z). rw zlen_nil Z.add_0_r Z.eqb_refl. change (length (@nil Z)) with O. rw drop_0.
      destruct o as [|x o]; [cbn in Ho; lia|]. cbn [app]. rw write_char_run zlen_app -app_assoc //.
    - rw (proj2 (Z.eqb_neq _ _)); [|rw /chars zlen_fmap zlen_cons; pose proof (zlen_nonneg l); lia]. rw -app_assoc zlen_app //. }
  rw outcome_ret_bind. pose proof (fraction_length fp) as Hff.
  pose proof (decimal_digits_run fp ip false (a ++ i) (drop (length i) o) Hfp ltac:(rewrite length_drop; lia)) as Hd.
  rewrite Hfl in Hd. replace (zlen ip) with 13 in Hd by (unfold zlen; lia). rewrite Hd outcome_ret_bind. clear Hd.
  exists (i ++ fraction false fp). splits.
  - rw drop_drop -app_assoc -length_app -!app_assoc !zlen_app. do 2 f_equal. lia.
  - rewrite -Hv. apply digits_denote; [done..|]. unfold zlen. lia.
  - rw length_app. lia.
Qed.

(** An amount is extended with zeros. *)
Lemma aligned_run amount :
  bytes_ok amount → zlen amount ≤ 8 → ∃ l, aligned amount (zlen amount) = Val l ∧ bytes_ok l ∧ zlen l = 8 ∧ be_val l = be_val amount.
Proof.
  intros Ha Hz. rw /aligned. pose proof (loads_middle [] amount []) as Hl. rewrite app_nil_r in Hl. change (zlen []) with 0 in Hl. cbn [app] in Hl.
  rewrite Hl outcome_ret_bind. pose proof (stores_middle (replicate (8 - length amount) 0) (replicate (length amount) 0) [] amount) as Hs.
  rewrite !app_nil_r -replicate_add in Hs. unfold zlen in *. rewrite !length_replicate in Hs.
  replace (8 - length amount + length amount)%nat with 8%nat in Hs by lia. replace (Z.of_nat (8 - length amount)) with (8 - Z.of_nat (length amount)) in Hs by lia.
  rewrite Hs //. eexists. splits; [done| | |apply be_val_zeros].
  - apply Forall_app. split; [by apply Forall_replicate|done].
  - rw length_app length_replicate. lia.
Qed.

(** C30: the amounts of a swap are printed exactly.  For an amount of at most 8
    bytes, [handle_get_printable_amount] stays inside of its array of 50 bytes,
    and leaves the string made of the ticker, a space and the decimal number of
    the amount in units of 10^8, without superfluous zeros; the digits come from
    a conversion that doubles a decimal number for each bit.  For a longer
    amount, the text is empty. *)
Theorem printable_amount_correct coin_name amount printable_amount :
  Forall (λ c, c ≠ 0) coin_name → zlen coin_name ≤ 26 → bytes_ok amount → zlen printable_amount = 50 →
  if 8 <? zlen amount then
    ∃ out, handle_get_printable_amount coin_name amount (zlen amount) printable_amount = Val (0, out) ∧ c_string out = []
  else
    ∃ out t, handle_get_printable_amount coin_name amount (zlen amount) printable_amount = Val (1, out) ∧ zlen out = 50 ∧
      c_string out = coin_name ++ [32] ++ t ∧ denotes t (be_val amount) ∧ (∀ a, denotes t a → a = be_val amount).
Proof.
  intros Hc Hcz Ha Ho. rw /handle_get_printable_amount. destruct printable_amount as [|x out]; [done|].
  change 0 with (zlen (@nil Z)) at 3 6. change (x :: out) with ([] ++ x :: out). rw store_middle outcome_ret_bind.
  destruct (Z.ltb_spec 8 (zlen amount)); [by eexists|]. destruct (aligned_run amount Ha) as (l & -> & Hl & Hlz & Hlv); [done|]. rw outcome_ret_bind.
  cbn [app]. rewrite zlen_nil zlen_cons in Ho |- *. unfold zlen in Ho, Hcz. rw stores_in_range; [|lia|unfold zlen; cbn; lia]. rw outcome_ret_bind.
  change (Z.to_nat 0) with O. rw take_0. cbn [app Nat.add].
  destruct (drop (length coin_name) (0 :: out)) as [|y o] eqn:Hd; pose proof (f_equal length Hd) as Hdl; rewrite length_drop in Hdl; cbn [length] in Hdl; [lia|].
  rw store_middle outcome_ret_bind (cons_middle 32 coin_name) (app_assoc coin_name).
  replace (zlen coin_name + 1) with (zlen (coin_name ++ [32])) by (rw zlen_app //).
  destruct (convert_run l (coin_name ++ [32]) o) as (t & -> & Ht & Htl); [done|done|lia|]. rw outcome_ret_bind. rewrite Hlv in Ht.
  destruct (drop (length t) o) as [|z o'] eqn:Hd2; pose proof (f_equal length Hd2) as Hdl2; rewrite length_drop in Hdl2; cbn [length] in Hdl2; [lia|].
  replace (zlen t + zlen coin_name + 1) with (zlen ((coin_name ++ [32]) ++ t)) by (rw !zlen_app; change (zlen [32]) with 1; lia).
  rw (app_assoc _ t) store_middle outcome_ret_bind. eexists _, t. splits; [done| | |done|].
  - rw /zlen !length_app. cbn [length]. lia.
  - apply amount_string; [done|by eapply denotes_nonzero].
  - intros a. by apply (λ H, denotes_unique t a _ H Ht).
Qed.

(** ** The start of a swap *)
Lemma strncpy_run n src :
  0 ∈ src → strncpy n src = Val (take n (c_string src) ++ replicate (n - length (c_string src)) 0).
Proof.
  revert src. induction n as [|n IH]; intros src Hs; [by rw take_0|]. destruct src as [|c src]; [by apply elem_of_nil in Hs|].
  cbn [strncpy c_string]. rw (load_middle [] c src) outcome_ret_bind. destruct (Z.eqb_spec c 0) as [->|Hc].
  - done.
  - assert (0 ∈ src) as H0 by (apply elem_of_cons in Hs as [?|?]; [by destruct Hc|done]).
    cbn [drop]. rw drop_0 (IH src H0) outcome_ret_bind //.
Qed.

Lemma c_string_nonzero l : Forall (λ c, c ≠ 0) (c_string l).
Proof. induction l as [|c l IH]; [done|]. cbn [c_string]. destruct (Z.eqb_spec c 0); [done|]. by constructor. Qed.

(** C31: a swap starts with the parameters of the call.  When the amount and the
    fees have at most 8 bytes, the application serves the commands of a swap with
    exactly this amount and these fees, and with the first 64 characters of the
    address: the check that a longer address is refused never fails.  Otherwise,
    nothing is done. *)
Theorem swap_started_correct E coin_name p :
  bytes_ok (ct_amount p) → ct_amount_length p = zlen (ct_amount p) →
  bytes_ok (ct_fee_amount p) → ct_fee_amount_length p = zlen (ct_fee_amount p) → 0 ∈ ct_destination_address p →
  swap_library_main_helper E coin_name (SIGN_TRANSACTION p) =
  Val (if (8 <? zlen (ct_amount p)) || (8 <? zlen (ct_fee_amount p)) then nothing
       else serving (mk_swap (be_val (ct_amount p)) (be_val (ct_fee_amount p)) (take 64 (c_string (ct_destination_address p))) true)).
Proof.
  intros Ha Hal Hf Hfl Hd. cbn [swap_library_main_helper]. rw /copy_transaction_parameters strncpy_run // outcome_ret_bind Hal Hfl.
  set (l := c_string _). set (d := take 64 l ++ _).
  assert (length d = 64%nat) as Hdl by (rw /d length_app length_take length_replicate; lia).
  assert (load (d ++ [0]) 64 = Val 0) as ->.
  { pose proof (load_middle d 0 []) as Hm. by replace (zlen d) with 64 in Hm by (unfold zlen; lia). }
  rw outcome_ret_bind. cbn [Z.eqb negb orb].
  destruct (Z.ltb_spec 8 (zlen (ct_amount p))); [done|]. destruct (Z.ltb_spec 8 (zlen (ct_fee_amount p))); [done|]. cbn [orb].
  destruct (aligned_run _ Ha) as (a & -> & Hab & Haz & Hav); [done|]. destruct (aligned_run _ Hf) as (f & -> & Hfb & Hfz & Hfv); [done|].
  rw !outcome_ret_bind !read_u64_be_val //; [|lia..]. rw !outcome_ret_bind.
  assert (slice a 0 8 = a ∧ slice f 0 8 = f) as [-> ->].
  { rw /slice !drop_0. unfold zlen in *. by split; apply take_ge; lia. }
  rw Hav Hfv. do 3 f_equal. rw /d -app_assoc.
  assert (∃ r, replicate (64 - length l) 0 ++ [0] = 0 :: r) as [r ->] by (destruct (64 - length l)%nat; by eexists).
  apply c_string_app. apply Forall_take, c_string_nonzero.
Qed.

(** ** The check of an address *)
Lemma parse_steps_run n m off :
  bytes_ok m → 0 ≤ off → off + 4 * Z.of_nat n ≤ zlen m → parse_steps n m off = Val (be_words n (drop (Z.to_nat off) m)).
Proof.
  intros Hm. revert off. induction n as [|n IH]; intros off Ho Hz; cbn [parse_steps be_words]; [done|].
  rw read_u32_be_val //; [|lia]. rw outcome_ret_bind IH; [|lia..]. rw outcome_ret_bind drop_drop /slice.
  by replace (Z.to_nat (off + 4)) with (Z.to_nat off + 4)%nat by lia.
Qed.

(** Strings are compared up to the end of the first one. *)
Lemma os_strcmp_run text rest s :
  Forall (λ c, c ≠ 0) text → zlen text < zlen s → 0 ∈ s → os_strcmp (text ++ 0 :: rest) s = Val (bool_decide (c_string s = text)).
Proof.
  intros Ht Hz Hs. rw /os_strcmp c_string_app //.
  pose proof (loads_middle [] (text ++ [0]) rest) as Hl. rewrite -app_assoc zlen_app in Hl. change (zlen [0]) with 1 in Hl. cbn [app] in Hl.
  change (zlen []) with 0 in Hl. rewrite Hl outcome_ret_bind. pose proof (zlen_nonneg text). rw loads_in_range; [|lia..]. rw outcome_ret_bind drop_0.
  f_equal. apply bool_decide_ext. split.
  - intros He. rewrite -(take_drop (Z.to_nat (zlen text + 1)) s) -He -app_assoc. by apply c_string_app.
  - intros <-. assert (∃ r, s = c_string s ++ 0 :: r) as [r Hr].
    { clear -Hs. induction s as [|c s IH]; [by apply elem_of_nil in Hs|]. cbn [c_string]. destruct (Z.eqb_spec c 0) as [->|Hc]; [by exists s|].
      apply elem_of_cons in Hs as [?|Hs]; [by destruct Hc|]. destruct (IH Hs) as [r Hr]. exists r. cbn [app]. by f_equal. }
    set (t := c_string s) in *. clearbody t. rewrite Hr (cons_middle 0 t r) (app_assoc t [0] r) take_app_length' //. rewrite length_app /zlen /=. lia.
Qed.

Section check.
Context (E : env).
Context (Hc : coin_ok (the_coin E)).
Context (Hsha : ∀ l, bytes_ok (cx_sha256 (os E) l) ∧ zlen (cx_sha256 (os E) l) = 32).
Context (Hrip : ∀ l, bytes_ok (cx_ripemd160 (os E) l) ∧ zlen (cx_ripemd160 (os E) l) = 20).
Context (Hadd : ∀ P Q R, cx_ecfp_add_point (os E) P Q = Some R → bytes_ok R ∧ zlen R = 65).
Context (Harr : ∀ n, 0 ≤ n → bytes_ok (arr E n) ∧ zlen (arr E n) = n).

(** The script of a key, for a format. *)
Definition format_script (format : Z) (pubkey : list Z) : option (list Z) :=
  let h := crypto_hash160 (os E) pubkey in
  if format =? P2_LEGACY then Some ([OP_DUP; OP_HASH160; 20] ++ h ++ [OP_EQUALVERIFY; OP_CHECKSIG])
  else if format =? P2_SEGWIT then Some ([OP_HASH160; 20] ++ crypto_hash160 (os E) ([OP_0; 20] ++ h) ++ [OP_EQUAL])
  else if format =? P2_NATIVE_SEGWIT then Some ([OP_0; 20] ++ h)
  else if format =? P2_TAPROOT then
    Some ([OP_1; 32] ++ default (arr E 32) (snd <$> crypto_tr_tweak_pubkey (os E) (drop 1 pubkey) []))
  else None.

Lemma hash160_ok l : bytes_ok (crypto_hash160 (os E) l) ∧ zlen (crypto_hash160 (os E) l) = 20.
Proof. apply Hrip. Qed.

Lemma tweaked_ok key : let q := default (arr E 32) (snd <$> crypto_tr_tweak_pubkey (os E) key []) in bytes_ok q ∧ zlen q = 32.
Proof.
  cbn zeta. destruct (crypto_tr_tweak_pubkey (os E) key []) as [[? q]|] eqn:Ht; cbn; [|by apply Harr]. revert Ht. rw /crypto_tr_tweak_pubkey.
  destruct (cx_math_cmp _ _ _) as [diff|]; cbn; [|done]. destruct (0 <=? diff); [done|]. destruct (crypto_tr_lift_x _ _); cbn; [|done].
  destruct (secp256k1_point _ _); cbn; [|done]. destruct (cx_ecfp_add_point _ _ _) as [R|] eqn:HR; cbn; [|done]. intros [= _ <-].
  apply Hadd in HR as [Hb Hz]. split; [by apply Forall_take, Forall_drop|]. by rw /slice zlen_take ?zlen_drop; [|lia..].
Qed.

(** The address that is computed is the one of the script. *)
Lemma address_run format pubkey out :
  73 + zlen (COIN_NATIVE_SEGWIT_PREFIX (the_coin E)) ≤ zlen out < 2 ^ 32 →
  match format_script format pubkey with
  | None => get_address_from_compressed_public_key E format pubkey out = Val None
  | Some script =>
      ∃ text rest, get_address_from_compressed_public_key E format pubkey out = Val (Some (text ++ 0 :: rest)) ∧ zlen (text ++ 0 :: rest) = zlen out ∧
        Forall (λ c, c ≠ 0) text ∧ address_of (os E) (the_coin E) script text
  end.
Proof.
  intros Ho. rw /format_script /get_address_from_compressed_public_key. destruct (hash160_ok pubkey) as [Hh Hhz].
  destruct (Hc) as (Hpkh & Hsh & _ & Hhrp & _ & H18). pose proof (zlen_nonneg (COIN_NATIVE_SEGWIT_PREFIX (the_coin E))).
  assert (∀ v h script, version_ok (the_coin E) v → bytes_ok h ∧ zlen h = 20 →
    (∀ ds, same_number ds (v :: h ++ payload_checksum (os E) (v :: h)) → address_of (os E) (the_coin E) script (map alpha ds)) →
    ∃ text rest, ('(n, o) ← legacy_address (os E) h v out; mret (if n <? 0 then None else Some o)) = Val (Some (text ++ 0 :: rest)) ∧
      zlen (text ++ 0 :: rest) = zlen out ∧ Forall (λ c, c ≠ 0) text ∧ address_of (os E) (the_coin E) script text) as Hleg.
  { intros v h script Hv [Hhb Hl] Ha. destruct (legacy_writes (os E) (the_coin E) Hsha v h out script Hv Hhb Hl) as (text & rest & -> & Hz & Hnz & Hadr);
      [lia|done|]. exists text, rest. rw outcome_ret_bind. pose proof (zlen_nonneg text). by rw (proj2 (Z.ltb_ge _ _)); [|lia]. }
  assert (∀ v prog, bytes_ok prog → witness_ok v (zlen prog) →
    ∃ text rest, ('(ret, o) ← segwit_addr_encode (arr E 65) out (COIN_NATIVE_SEGWIT_PREFIX (the_coin E)) v prog; mret (if ret =? 0 then None else Some o))
        = Val (Some (text ++ 0 :: rest)) ∧
      zlen (text ++ 0 :: rest) = zlen out ∧ Forall (λ c, c ≠ 0) text ∧ address_of (os E) (the_coin E) ([witness_opcode v; zlen prog] ++ prog) text) as Hseg.
  { intros v prog Hp Hw. destruct (segwit_addr_encode_text (arr E 65) out _ v prog ltac:(destruct (Harr 65); [done|lia]) Hhrp H18 Hp Hw ltac:(lia)) as (ds & q & r & Hg & -> & Hz).
    eexists _, r. rw outcome_ret_bind. splits; [done|done| |by eapply address_segwit].
    apply bech32_nonzero; [done|]. constructor; [unfold digit_ok; destruct Hw; lia|apply Hg]. }
  destruct (format =? P2_LEGACY); [apply Hleg; [done|done|]; intros; by apply address_P2PKH|].
  destruct (format =? P2_SEGWIT); [apply Hleg; [done|apply hash160_ok|]; intros; by apply address_P2SH; [apply hash160_ok..|]|].
  destruct (format =? P2_NATIVE_SEGWIT); [rewrite -Hhz; apply Hseg; [done|rewrite Hhz; by unfold witness_ok; lia]|].
  destruct (format =? P2_TAPROOT); [|done]. destruct (tweaked_ok (drop 1 pubkey)) as [Hq Hqz].
  pose proof (Hseg 1 _ Hq ltac:(rewrite Hqz; by unfold witness_ok; lia)) as Hs. rewrite Hqz in Hs. exact Hs.
Qed.

(** C29: an address is accepted for a swap exactly if it is the one of the script
    of the key.  For parameters that hold a format and a path, and a string in an
    array that is at least as large as the one of an address (74 characters and
    the prefix of the segwit addresses, as the code reads as many characters as
    the address of the key has),
    [handle_check_address] compares the given string with the address of the
    script of this format for the key at this path, which determines the script,
    as the addresses that the user sees when signing; for an unknown format it
    refuses every string. *)
Theorem check_address_correct format n steps extra len s path pubkey chain_code :
  bytes_ok (format :: n :: steps ++ extra) → n ≤ MAX_BIP32_PATH → zlen steps = 4 * n →
  2 + zlen steps ≤ len ≤ 255 → path = be_words (Z.to_nat n) steps →
  crypto_get_compressed_pubkey_at_path (os E) path = Some (pubkey, chain_code) →
  0 ∈ s → 74 + zlen (COIN_NATIVE_SEGWIT_PREFIX (the_coin E)) ≤ zlen s →
  let result := handle_check_address E (mk_check (format :: n :: steps ++ extra) len (Some s)) in
  match format_script format pubkey with
  | None => result = Val 0
  | Some script => ∃ text, address_of (os E) (the_coin E) script text ∧ result = Val (if decide (c_string s = text) then 1 else 0)
  end.
Proof.
  intros Hb Hn Hz Hlen -> Hkey Hs0 Hsz. cbn zeta. rw /handle_check_address. cbn [address_to_check address_parameters address_parameters_length].
  apply Forall_cons in Hb as [Hfb Hb]. pose proof Hb as Hnb. apply Forall_cons in Hnb as [Hnb _]. unfold byte_ok in Hnb.
  cbn [drop]. rw ?drop_0 u8_small; [|lia].
  assert (parse_serialized_path (n :: steps ++ extra) (len - 1) = Val (Some (be_words (Z.to_nat n) steps))) as ->.
  { rw /parse_serialized_path (proj2 (Z.ltb_ge _ _)); [|lia]. rw (load_middle [] n) outcome_ret_bind !(proj2 (Z.ltb_ge _ _)); [|lia..]. cbn [orb].
    rw parse_steps_run; [|done|lia|rw zlen_cons zlen_app; pose proof (zlen_nonneg extra); lia]. rw outcome_ret_bind. cbn [drop]. do 2 f_equal.
    change (Z.to_nat 1) with 1%nat. cbn [drop]. rw drop_0 -(be_words_take _ (length steps)); [|unfold zlen in Hz; lia]. by rw take_app_length. }
  rw outcome_ret_bind Hkey (load_middle [] format) outcome_ret_bind. set (out := arr E _).
  pose proof (zlen_nonneg (COIN_NATIVE_SEGWIT_PREFIX (the_coin E))). destruct (Hc) as (_ & _ & _ & _ & _ & H18).
  assert (zlen out = 74 + zlen (COIN_NATIVE_SEGWIT_PREFIX (the_coin E))) as Hoz by (apply Harr; lia).
  pose proof (address_run format pubkey out ltac:(lia)) as Ha. destruct (format_script format pubkey) as [script|]; [|by rw Ha outcome_ret_bind].
  destruct Ha as (text & rest & -> & Htz & Hnz & Hadr). exists text. split; [done|]. rw outcome_ret_bind.
  rewrite zlen_app zlen_cons in Htz. pose proof (zlen_nonneg rest). rw os_strcmp_run //; [|lia]. rw outcome_ret_bind.
  case_bool_decide as Heq; [by rw decide_True|by rw decide_False].
Qed.
End check.

(** ** Examples *)
Lemma printable_amount_correct_witness :
  ∃ out t, handle_get_printable_amount [83; 89; 83] [7; 91; 205; 21] 4 (replicate 50 0) = Val (1, out) ∧ zlen out = 50 ∧
    c_string out = [83; 89; 83] ++ [32] ++ t ∧ denotes t (be_val [7; 91; 205; 21]) ∧ (∀ a, denotes t a → a = be_val [7; 91; 205; 21]).
Proof.
  refine (printable_amount_correct [83; 89; 83] [7; 91; 205; 21] (replicate 50 0) _ _ _ _).
  - by repeat constructor.
  - done.
  - repeat constructor; unfold byte_ok; lia.
  - reflexivity.
Defined.

Definition swap_parameters : create_transaction_parameters :=
  mk_create [1; 0] 2 [5] 1 (replicate 70 65 ++ [0]).

Lemma swap_started_correct_witness :
  swap_library_main_helper flow_env [83; 89; 83] (SIGN_TRANSACTION swap_parameters) = Val (serving (mk_swap 256 5 (replicate 64 65) true)).
Proof.
  refine (swap_started_correct flow_env [83; 89; 83] swap_parameters _ _ _ _ _).
  - repeat constructor; unfold byte_ok; lia.
  - reflexivity.
  - repeat constructor; unfold byte_ok; lia.
  - reflexivity.
  - by apply elem_of_app; right; apply list_elem_of_singleton.
Defined.

Definition address_steps : list Z := concat ((λ n, reverse (le_bytes 4 n)) <$> (flow_path ++ [0; 3])).

Definition swap_address : list Z :=
  [115; 121; 115; 49; 113; 122; 121; 103; 51; 122; 121; 103; 51; 122; 121; 103; 51; 122; 121; 103; 51; 122; 121; 103; 51; 122;
   121; 103; 51; 122; 121; 103; 51; 122; 121; 103; 51; 108; 104; 99; 110; 102; 115] ++ replicate 40 0.
Definition swap_check : check_address_parameters := mk_check (P2_NATIVE_SEGWIT :: 5 :: address_steps ++ []) 22 (Some swap_address).

Lemma check_address_correct_witness :
  handle_check_address flow_env swap_check = Val 1 ∧
  ∃ text, address_of flow_sdk syscoin ([OP_0; 20] ++ replicate 20 0x11) text ∧
    handle_check_address flow_env swap_check = Val (if decide (c_string swap_address = text) then 1 else 0).
Proof.
  split; [by vm_compute|].
  refine (check_address_correct flow_env _ _ _ _ _ P2_NATIVE_SEGWIT 5 address_steps [] 22 swap_address (be_words 5 address_steps)
            (3 :: replicate 32 5) (replicate 32 6) _ _ _ _ _ _ _ _).
  - apply syscoin_ok.
  - intros l. split; [apply le_bytes_ok|apply toy_hash_length].
  - intros l. split; [by apply Forall_replicate|done].
  - intros P Q R [= <-]. split; [by apply (bool_decide_unpack _); vm_compute|done].
  - intros n Hn. split; [by apply Forall_replicate|by apply sample_array_length].
  - by apply (bool_decide_unpack _); vm_compute.
  - done.
  - reflexivity.
  - done.
  - reflexivity.
  - reflexivity.
  - by apply (bool_decide_unpack _); vm_compute.
  - done.
Defined.
